(* ===== verification/_CoqProject ===== *)
-Q . S2P
Prelude.v
Bits.v
Ids.v
Intervals.v
Epoch.v
Sums.v
Effects.v
Tree.v
ReduceOp.v
Reduce.v
ReduceSystem.v
Scatter.v
TermState.v
TermWave.v
DijkstraScholten.v
Termination.v
Barrier.v
LocationCache.v
Location.v
LocationSystem.v
LocationStatic.v
LocationSettle.v
LocationSpec.v
Region.v
Group.v
GroupSystem.v
GroupProgress.v
GroupInvariant.v
GroupReach.v
GroupRun.v
GroupBroadcast.v
GroupSpec.v
GroupDefault.v
GroupDefaultFacts.v
GroupDefaultSpec.v
Queue.v
Priority.v
Scheduler.v
SchedulerFacts.v
SchedulerSpec.v
Index.v
Mapping.v
Components.v
Messenger.v
MessengerSystem.v
MessengerInvariant.v
MessengerSpec.v
