(* ===== verification/Prelude.v ===== *)
(** * A verification development for DARMA/vt

    vt is a runtime for distributed, task-based programs: every node runs a
    scheduler, nodes exchange active messages, work is grouped into epochs whose
    end is detected, objects and collection elements live on nodes and migrate.
    This development models the parts of [src/src/vt/] whose logic is the
    program's own and not that of MPI or of a container library, and proves what
    makes them correct. File names below are relative to [src/src/vt/].

    ** The parts and how they interact

    - Identifiers. Everything the nodes talk about (handlers, proxies, epochs,
      groups, pipes, events, elements) is one integer of packed bit fields, sent
      in messages and read back on other nodes. [Bits.v] models the packer
      ([utils/bits]), [Ids.v] the builders that use it, one Module per builder
      with the builder's names.
    - Epochs. [Epoch.v] models the epoch's bits ([EpochManip], [epoch/epoch.h],
      [epoch_manip.cc]), the window of epochs free and in use of one archetype
      ([EpochWindow], [epoch_window.cc]) and the component's table of windows
      ([Component]). A window stores its terminated epochs in the compressed set
      of [Intervals.v] ([termination/interval]).
    - Termination detection. A unit is produced where a message of an epoch is
      sent and consumed where its handler has run; an epoch has terminated when
      all units are consumed and none can appear. Wave-based detection sends
      counters up the tree of [Tree.v] ([collective/tree]) and continue or
      finished signals down; [TermState.v] is one node's state for an epoch
      ([termination/term_state.cc], [epoch_dependency.cc] and the functions of
      [termination.cc] that work on it), [TermWave.v] all nodes of one epoch.
      [DijkstraScholten.v] is the other detector, for rooted epochs
      ([termination/dijkstra-scholten]): [TermDS] one node, [DSystem] all nodes.
      [Termination.v] is the node's [TerminationDetector] itself
      ([termination.cc], [termination.impl.h], [term_action.cc]): it makes epochs
      with [Epoch.v], routes units to [TermState] or [TermDS], keeps the
      dependencies between epochs and runs the actions of those that end.
    - Collectives over the tree. [Scatter.v] ([collective/scatter]); [Barrier.v]
      ([collective/barrier]), one node and all nodes; and the reductions:
      [ReduceOp.v] the operators, [Reduce.v] a node's reducer, its states and the
      manager of scopes ([collective/reduce]), [ReduceSystem.v] all nodes.
    - Location. [LocationCache.v] is what a node remembers of where entities are
      ([topos/location/cache], [directory], [lookup], [record]), [Location.v] the
      coordinator that registers, migrates and routes
      ([topos/location/location.impl.h]), [LocationSystem.v] all nodes with the
      conservation of messages, [LocationStatic.v] and [LocationSettle.v] the
      invariants and the potential for an entity that stays where it was created,
      [LocationSpec.v] the theorems.
    - Groups. [Region.v] has the regions of nodes a group is made from
      ([group/region]: ranges with a stride, sorted lists, pieces of lists).
      [Group.v] is a node's [GroupManager] for rooted groups
      ([group/group_manager.cc], [group/group_info.impl.h],
      [group/rooted/group_info_rooted.cc], [group/msg/group_msg.h]): making a
      group, the set-up messages that spread the region over a tree, the answers,
      and broadcasts; [GroupSystem.v] all nodes. [GroupProgress.v] is the tree
      that no node knows as a whole, with how far each part of it has come;
      [GroupInvariant.v], [GroupReach.v] and [GroupRun.v] show that every step
      keeps the nodes in agreement with it, [GroupBroadcast.v] follows a broadcast
      down it, and [GroupSpec.v] has the theorems. [GroupDefault.v] is the default
      group of all nodes ([group/global]): the phases by which the nodes start up
      together and the broadcast to everybody; [GroupDefaultFacts.v] and
      [GroupDefaultSpec.v] have its invariant and theorems.
    - The scheduler. [Queue.v] has the work queues ([scheduler/queue.h],
      [priority_queue.h], [utils/container/circular_buffer.h]) behind an interface
      ([WorkQueue], with its laws in [LawfulQueue]), [Priority.v] the layout of
      priorities and how messages get them ([scheduler/priority.h],
      [priority_manip.cc], [messaging/message/message_priority.impl.h]),
      [Scheduler.v] the loop that polls, runs work and reports idle times
      ([scheduler/scheduler.cc]), for any queue of the interface and any program
      (what a unit of work does is an argument of the model);
      [SchedulerFacts.v] and [SchedulerSpec.v] have its invariants and theorems.
    - Indices and mappings. [Index.v] has the indices of collections
      ([topos/index/dense]) and their numbering, [Mapping.v] the mappings of
      elements to nodes ([topos/mapping/dense]), with the division of doubles the
      block mapping computes with.
    - Active messages. [Messenger.v] is a node's active messenger
      ([messaging/active.cc], [active.impl.h], [pending_send.cc]) with what it
      calls for every message: the group handler, through an interface
      ([Router]); the contexts of runnables and the epoch stack
      ([context/runnable_context/td.cc], [runnable], [termination.impl.h]) and
      the dispatch to objects ([objgroup/manager.static.h]).
      [MessengerSystem.v] has all nodes and the units each operation accounts
      for, [MessengerInvariant.v] the predicates of messages and epochs that they
      keep, behind an interface ([MsgPred]), and the sum of the units of an
      epoch, [MessengerSpec.v] the theorems, with the broadcasts of
      [GroupDefault.v] and [Group.v] as routers.
    - Components. [Components.v] is the registry of components and the pack that
      orders, constructs, starts and destroys them ([runtime/component]).
    - [Effects.v] is the monad of state and outputs that the larger components
      are written in, with its weakest preconditions ([wp]).
    - [Prelude.v] (this file) has the machine integers, the result type and the
      tactics, [Sums.v] the sums over nodes and messages that the distributed
      invariants count with and the class of commutative monoids.

    ** How code is modelled

    Integers are of [Z] with their C++ type beside them; a conversion is [wrap],
    so truncation, sign and promotion are the code's. Counters of 64 bits whose
    overflow the source leaves undefined ([TermState], [TermDS]) and array sizes
    are unbounded. A [vtAssert] that fails is [Stop AssertFailed], a [vtAbort]
    [Stop AbortCalled]; where the source's behaviour would be undefined the
    definition says so. A method is a function from the object's state to its new
    state, in a [res], or, where calls nest deeply ([Termination], [Location],
    [Group]), in a state monad that also lists the outputs in order: messages
    sent, handlers run, units produced and consumed. A [std::function] that is
    stored is a constructor with what the closure captures. Ordered sets and lists with
    iterators ([std::set<Interval>], the cache's [std::list]) are lists with
    positions or names for iterators; unordered maps are [gmap]s. The iteration
    order of an unordered set is a function given to the model ([visit],
    [iterate]); a loop that changes the set it iterates over is a relation
    ([pass]). A quotient of doubles is computed with integers, rounded to 53 bits.

    What crosses nodes is a step relation: a state with a function from node to
    the component's record and the messages in flight, and steps that run one
    whole handler on one node, any message first. The handlers are the same
    definitions that the node's Module has. MPI is the assumption that a message
    sent is delivered once; nothing is assumed of the order.

    ** What the theorems show

    - Detection is right ([TermWaveSpec], [DSystemSpec]): both detectors report
      the end of an epoch only when no unit is outstanding anywhere, now or later
      (safety); when all is consumed they get there, by a measure that falls with
      each step (liveness); and none of their assertions fires. The program
      watched obeys one rule, that units appear only while others are
      outstanding or by a node that has not yet contributed.
    - The detector of a node ([TerminationSpec]): every sequence of calls
      returns (or ends in a failed assertion), unless it makes an epoch while the
      one to be handed out is in use, which never does; a local dependency keeps
      a node out of the global epoch. [EpochDependencySpec]: units taken for
      successors are given back.
    - The units that detection counts ([MessengerSpec]): in all runs, with
      handlers that may do anything at any time, the units of an epoch produced
      and not consumed are those of its work, its messages and their data; when
      they sum to zero nothing of the epoch is left (but messages of the detector
      itself, which hold no unit of it) and nothing comes back; with
      broadcasts that deliver and without puts none is lost; and what is sent in
      an epoch runs in it, however it is sent, and holds a unit of it until then.
      (Detection asks of the program watched that a node whose units are all
      consumed makes no new ones by itself.)
    - Reductions ([ReduceSpec]): all nodes together refine the abstract
      reduction (count down, then combine once), complete when everyone has
      contributed, and assert only if the operator does. The operator's laws are
      the class [LawfulOp], with instances for the library's functors.
    - Barriers ([BarrierSpec]): nobody passes before everyone has entered, and
      then everyone does; a named barrier with continuations works once.
    - Location ([LocationSpec]): messages are conserved and a kept message holds
      a unit of its epoch, in all runs; messages to an entity that stays arrive
      there, nothing keeps waiting, and the traffic about it ends. [CacheSpec]:
      the cache refines a least-recently-used cache.
    - Groups ([GroupSpec]): what stops a run is making a group of an empty region,
      which is asserted against, and nothing else; the set-up of a group
      ends after at most three messages per node, and then the action given with
      the group has run once, on the node that made it; a broadcast reaches every
      member once and nobody else, if the region's membership test is right, the
      maker is not an inner member and the broadcast does not start at an inner
      node of the tree. [RegionSpec]: heads
      and pieces are the region's nodes in order; membership tests agree with
      them.
    - The default group ([DefaultSpec]): whatever the order of messages, no
      assertion of start-up fails, no node is more than a phase ahead of another,
      and all finish; a broadcast reaches everybody once.
    - The scheduler ([SchedulerSpec]): work is neither lost nor run twice,
      whatever units do; units start in the order the queue promises (first in,
      first out, or highest priority first); idle times are reported in pairs; the
      loop returns. [QueueSpec]: the buffered queue is a list used first in, first
      out. [PrioritySpec]: levels are read back, and what a message spawns stays
      within its share of the priorities.
    - Indices and mappings ([IndexSpec], [MappingSpec]): iteration visits each
      index once; numberings have neither gaps nor collisions; the block mapping
      is exact and balanced although it divides doubles, for collections that the
      index type can count and doubles hold; mappings end on a node that exists, or
      at the assertion of the bounds, for indices that are not negative.
    - Components ([ComponentSpec]): exactly the components needed are made, each
      after those it depends on; a cycle aborts; destruction is the reverse.
    - Data structures: the tree spans the nodes ([TreeSpec]); scatter delivers
      each node its element ([ScatterSpec]); the interval set is a set, in
      canonical form, and its iterator hints are harmless ([IntegralSetSpec]);
      a window hands out epochs not in use ([EpochSpec]); packed fields are read
      back ([Bits], [Ids], [EpochSpec]).
    - Where the code does not do what it means to, a theorem exhibits it:
      [allocate_never_returns], [getNextRootedEpoch_leaks],
      [clear_keeps_count], [insert_present_overcounts],
      [setField_narrow_overflow], [total_descendants_short],
      [ds_remote_reports_terminated], [eager_update_aborts], [stale_answer],
      [named_cont_barrier_once], [strided_contains_inverted],
      [range_split_misaligned], [maker_in_group_repeats], [inner_origin_short],
      [strided_maker_gets], [named_priorities_below_default],
      [masks_need_a_bit_left], [event_past_the_end], [nested_term_miscounts],
      [negative_index_no_node], [volume_wraps], [maker_outside_leaks], [second_put_lost].

    ** Fuel

    [Bits.msb_loop] has 64 units, one per bit of its argument. [allocate_loop] is
    shown to return within one unit when the counter stands at a free epoch and
    never otherwise. The loops over messages of a reduction have as many units as
    messages. The recursions down the tree (scatter, descendants) need the number
    of nodes; each theorem about them has this as a hypothesis or proves it
    enough. [epochTerminated] calls itself through the successors it releases;
    [detector_returns] bounds the depth by eight per call made. A set-up message
    of a group has as much fuel as it has nodes and a continuation as much as
    there are continuations; out of fuel is [Stop NoReturn], which
    [group_never_fails] excludes. A phase of start-up
    has fuel for eight nested entries, more than there are phases
    ([default_group_in_step] includes that it is enough). The scheduler's loop
    has its number of rounds as an argument; [scheduler_returns] bounds it by the
    work there is. The search for the order of components has fuel for a path
    through all of them and one more, the loop that collects them one pass more
    than there are types; [components_start_in_order] and
    [cyclic_components_abort] include that both are enough.

    ** Not modelled

    MPI, the layout of envelopes, messages too large for MPI and serialization
    (code outside the repository), the scheduler's suspended threads and memory reports, collective
    groups (built by a reduction, with MPI communicators), the seeded random
    mappings ([drand48]), collections and load balancers (templates over user
    types, floating point), RDMA (MPI windows), pipes, events, the memory pool,
    the start-up of the runtime around the pack of components, configuration,
    tracing and output. Of the parts modelled: printing, serialization of the
    state and statistics; the epoch stack around handlers in reductions and
    location; the label of an epoch and the graph dump. *)

From stdpp Require Export base numbers functions list gmap sorting.
From Stdlib Require Export ZArith Lia.

(** Everything numeric in the development is an integer of [Z]: the program's
    machine integers are values of [Z] together with the C++ type they are
    converted to. *)
Open Scope Z_scope.

(** ** C++ integral types and conversions *)

(** An integral type is its width in bits and its signedness. *)
Record ity := Ity { width : Z; signed : bool }.

Definition u8 := Ity 8 false.
Definition u16 := Ity 16 false.
Definition u32 := Ity 32 false.
Definition u64 := Ity 64 false.
Definition i8 := Ity 8 true.
Definition i16 := Ity 16 true.
Definition i32 := Ity 32 true.
Definition i64 := Ity 64 true.

(** [wrap t x] is [static_cast<t>(x)] for an integer [x]: the value of [t]
    congruent to [x] modulo [2^width] (two's complement). *)
Definition wrap (t : ity) (x : Z) : Z :=
  if signed t
  then (x + 2 ^ (width t - 1)) mod 2 ^ width t - 2 ^ (width t - 1)
  else x mod 2 ^ width t.

(** [std::make_unsigned_t]. *)
Definition make_unsigned (t : ity) : ity := Ity (width t) false.

(** Integral promotion: types narrower than [int] become [int]. *)
Definition promote (t : ity) : ity := if width t <? 32 then i32 else t.

Definition tmin (t : ity) : Z := if signed t then - 2 ^ (width t - 1) else 0.
Definition tmax (t : ity) : Z :=
  if signed t then 2 ^ (width t - 1) - 1 else 2 ^ width t - 1.

(** The values of a type. *)
Definition in_ty (t : ity) (x : Z) : Prop := tmin t <= x <= tmax t.

#[export] Instance in_ty_dec t x : Decision (in_ty t x).
Proof. unfold in_ty. apply _. Defined.

(** A width the language's types can have. *)
Definition ity_ok (t : ity) : Prop := 1 <= width t.

(** ** Tactics *)

(** Case analysis on the first boolean comparison of [Z] in sight. *)
Ltac case_Zb :=
  match goal with
  | |- context [?a <? ?b] => destruct (Z.ltb_spec a b)
  | |- context [?a <=? ?b] => destruct (Z.leb_spec a b)
  | |- context [?a =? ?b] => destruct (Z.eqb_spec a b)
  | H : context [?a <? ?b] |- _ => destruct (Z.ltb_spec a b)
  | H : context [?a <=? ?b] |- _ => destruct (Z.leb_spec a b)
  | H : context [?a =? ?b] |- _ => destruct (Z.eqb_spec a b)
  end.

Ltac case_Zbs := repeat case_Zb.

(** Facts about powers of two that [lia] needs. *)
Ltac pow2_pos n :=
  let H := fresh "Hpow" in
  assert (0 < 2 ^ n) as H by (apply Z.pow_pos_nonneg; lia).

(** ** Wrapping *)

Lemma pow2_split w : 1 <= w -> 2 ^ w = 2 * 2 ^ (w - 1).
Proof. intros H. rewrite <- Z.pow_succ_r by lia. f_equal. lia. Qed.

Lemma wrap_in_ty t x : ity_ok t -> in_ty t (wrap t x).
Proof.
  unfold ity_ok, in_ty, tmin, tmax, wrap. intros H.
  pose proof (pow2_split (width t) H) as Hs.
  pow2_pos (width t - 1).
  destruct (signed t).
  - pose proof (Z.mod_pos_bound (x + 2 ^ (width t - 1)) (2 ^ width t)). lia.
  - pose proof (Z.mod_pos_bound x (2 ^ width t)). lia.
Qed.

(** Values of the type are fixed points of the conversion. *)
Lemma wrap_id t x : ity_ok t -> in_ty t x -> wrap t x = x.
Proof.
  unfold ity_ok, in_ty, tmin, tmax, wrap. intros H Hx.
  pose proof (pow2_split (width t) H) as Hs.
  destruct (signed t); rewrite Z.mod_small; lia.
Qed.

Lemma wrap_mod t x : ity_ok t -> wrap t x mod 2 ^ width t = x mod 2 ^ width t.
Proof.
  unfold ity_ok, wrap. intros H. pow2_pos (width t).
  destruct (signed t).
  - rewrite Zminus_mod_idemp_l. f_equal. lia.
  - apply Z.mod_mod. lia.
Qed.

(** Congruent integers convert to the same value. *)
Lemma wrap_congr t x y :
  x mod 2 ^ width t = y mod 2 ^ width t -> wrap t x = wrap t y.
Proof.
  unfold wrap. intros H. destruct (signed t); [|done].
  rewrite <- (Zplus_mod_idemp_l x), H, Zplus_mod_idemp_l. done.
Qed.

Lemma wrap_wrap t x : ity_ok t -> wrap t (wrap t x) = wrap t x.
Proof. intros H. apply wrap_congr, wrap_mod, H. Qed.

(** The low bits survive a conversion to any type wide enough. *)
Lemma wrap_testbit t x i :
  0 <= i < width t -> Z.testbit (wrap t x) i = Z.testbit x i.
Proof.
  intros Hi.
  rewrite <- (Z.mod_pow2_bits_low (wrap t x) (width t) i) by lia.
  rewrite wrap_mod by (unfold ity_ok; lia).
  apply Z.mod_pow2_bits_low. lia.
Qed.

(** Above the width an unsigned value has no bits and a signed value repeats
    its sign bit. *)
Lemma in_ty_testbit_high t x i :
  ity_ok t -> in_ty t x -> width t <= i ->
  Z.testbit x i = signed t && Z.testbit x (width t - 1).
Proof.
  unfold ity_ok. intros Hw Hx Hi.
  pose proof (pow2_split (width t) Hw) as Hs. pow2_pos (width t - 1).
  destruct (decide (0 <= x)) as [Hp|Hn].
  - assert (forall j, (if signed t then width t - 1 else width t) <= j ->
      Z.testbit x j = false) as Hf.
    { intros j Hj.
      destruct (decide (x = 0)) as [->|]; [apply Z.testbit_0_l|].
      apply Z.bits_above_log2; [lia|].
      apply Z.log2_lt_pow2; [lia|].
      unfold in_ty, tmin, tmax in Hx. destruct (signed t).
      - pose proof (Z.pow_le_mono_r 2 _ _ ltac:(lia) Hj). lia.
      - pose proof (Z.pow_le_mono_r 2 _ _ ltac:(lia) Hj). lia. }
    rewrite Hf by (destruct (signed t); lia).
    destruct (signed t); simpl; [rewrite Hf by lia|]; done.
  - unfold in_ty, tmin, tmax in Hx. destruct (signed t); [|lia]. simpl.
    assert (forall j, width t - 1 <= j -> Z.testbit x j = true) as Ht.
    { intros j Hj.
      destruct (decide (x = -1)) as [->|]; [apply Z.bits_m1; lia|].
      apply Z.bits_above_log2_neg; [lia|].
      apply Z.log2_lt_pow2; [lia|].
      pose proof (Z.pow_le_mono_r 2 _ _ ltac:(lia) Hj). lia. }
    rewrite !Ht by lia. done.
Qed.

(** Two values of one type are equal when their bits below the width are. *)
Lemma in_ty_bits_inj t x y :
  ity_ok t -> in_ty t x -> in_ty t y ->
  (forall i, 0 <= i < width t -> Z.testbit x i = Z.testbit y i) -> x = y.
Proof.
  intros Hw Hx Hy Hb. apply Z.bits_inj'. intros i Hi.
  destruct (decide (i < width t)); [apply Hb; lia|].
  unfold ity_ok in Hw.
  rewrite (in_ty_testbit_high t x) by (unfold ity_ok; auto with lia).
  rewrite (in_ty_testbit_high t y) by (unfold ity_ok; auto with lia).
  rewrite Hb by lia. done.
Qed.

(** Conversion of a value that already fits an unsigned type. *)
Lemma wrap_u_small t x : signed t = false -> 0 <= x < 2 ^ width t -> wrap t x = x.
Proof. unfold wrap. intros -> Hx. by apply Z.mod_small. Qed.

(** Conversion of a non-negative value that fits a signed type. *)
Lemma wrap_s_small t x :
  ity_ok t -> 0 <= x < 2 ^ (width t - 1) -> wrap t x = x.
Proof.
  intros Hw Hx. apply wrap_id; [done|]. unfold ity_ok in Hw.
  pose proof (pow2_split (width t) Hw).
  unfold in_ty, tmin, tmax. destruct (signed t); lia.
Qed.

(** Bit of a boolean shifted into place. *)
Lemma testbit_1_shiftl n i :
  0 <= n -> 0 <= i -> Z.testbit (Z.shiftl 1 n) i = bool_decide (i = n).
Proof.
  intros Hn Hi. rewrite Z.shiftl_spec by done.
  case_bool_decide as Heq.
  - subst. rewrite Z.sub_diag. done.
  - destruct (decide (i < n)); [rewrite Z.testbit_neg_r; [done|lia]|].
    apply Z.bits_above_log2; simpl; lia.
Qed.

Create HintDb vt.
#[export] Hint Resolve wrap_in_ty : vt.
#[export] Hint Extern 1 (ity_ok _) => (unfold ity_ok; simpl; lia) : vt.

(** ** Assertions and aborts

    A C++ function that can stop the program in a [vtAssert] (checks are on
    unless the build is a production build) or a [vtAbort] returns a [res].
    [NoReturn] is a call that does not return (fuel exhausted). *)
Inductive abort := AssertFailed | AbortCalled | NoReturn.

Inductive res (A : Type) :=
  | Ok (a : A)
  | Stop (e : abort).
Arguments Ok {A} a.
Arguments Stop {A} e.

#[export] Instance res_ret : MRet res := fun A a => Ok a.
#[export] Instance res_fmap : FMap res := fun A B f m =>
  match m with Ok a => Ok (f a) | Stop e => Stop e end.
#[export] Instance res_bind : MBind res := fun A B f m =>
  match m with Ok a => f a | Stop e => Stop e end.

(** [vtAssert(cond, ...)], continuing with [k]. *)
Definition vtAssert {A} (cond : bool) (k : res A) : res A :=
  if cond then k else Stop AssertFailed.

(** [vtAbortIf(cond, ...)], continuing with [k]. *)
Definition vtAbortIf {A} (cond : bool) (k : res A) : res A :=
  if cond then Stop AbortCalled else k.

Lemma res_bind_Ok {A B} (a : A) (f : A -> res B) : (Ok a ≫= f) = f a.
Proof. done. Qed.

Lemma vtAssert_true {A} b (k : res A) : b = true -> vtAssert b k = k.
Proof. by intros ->. Qed.

Lemma vtAssert_Ok {A} b (k : res A) a : vtAssert b k = Ok a -> b = true /\ k = Ok a.
Proof. unfold vtAssert. by destruct b. Qed.

Lemma bind_Ok_inv {A B} (m : res A) (f : A -> res B) b :
  (m ≫= f) = Ok b -> exists a, m = Ok a /\ f a = Ok b.
Proof. destruct m; [eauto|done]. Qed.

(** ** Lists *)

Lemma list_insert_middle {A} (l1 l2 : list A) x y :
  <[length l1 := y]> (l1 ++ x :: l2) = l1 ++ y :: l2.
Proof. rewrite <- (Nat.add_0_r (length l1)), insert_app_r. done. Qed.

Lemma list_snoc_cases {A} (l : list A) : l = [] \/ exists l' x, l = l' ++ [x].
Proof. induction l using rev_ind; eauto. Qed.

Lemma not_elem_nil {A} (x : A) : x ∈ [] -> False.
Proof. apply not_elem_of_nil. Qed.
#[export] Hint Extern 1 => match goal with H : _ ∈ [] |- _ => destruct (not_elem_nil _ H) end : vt.

(** [l] without its element at [k], the message delivered. *)
Definition take_out {A} (k : nat) (l : list A) : list A := take k l ++ drop (S k) l.

Lemma take_out_perm {A} k (l : list A) x : l !! k = Some x -> l ≡ₚ x :: take_out k l.
Proof.
  intros H. unfold take_out. rewrite <- (take_drop_middle l k x H) at 1. by rewrite Permutation_middle.
Qed.

(** Membership of an element that is visibly in a list. *)
Ltac elems := rewrite ?elem_of_app, ?elem_of_cons; auto.

Lemma Z_range_weaken a x b c : a <= x < b -> b <= c -> a <= x < c.
Proof. lia. Qed.
