(* ===== verification/Bits.v ===== *)
(** * BitPacker: bit fields inside integers

    Models [src/vt/utils/bits/bits_packer.h] and [bits_packer.impl.h], the
    routines every identifier of the runtime (epochs, proxies, handlers, events,
    groups, pipes, elements, priorities) is packed with. The definitions follow
    the C++ expressions conversion by conversion: [gen_bit_mask] is a [uint64_t],
    [field & ~(mask << start)] is computed in [uint64_t] and converted back, and
    the segment is shifted in the promoted type of the unsigned field. *)

From S2P Require Import Prelude.

Module BitPacker.

(** [gen_bit_mask(len)]: [((static_cast<uint64_t>(1) << len) - 1)]. The shift is
    defined for [len < 64] only; see [shift_defined]. *)
Definition gen_bit_mask (len : Z) : Z := wrap u64 (wrap u64 (Z.shiftl 1 len) - 1).

(** [getMsbBit]: the loop [while (field_copy >>= 1) r++], on fuel. *)
Fixpoint msb_loop (fuel : nat) (field_copy r : Z) : option Z :=
  match fuel with
  | O => None
  | S k =>
      let field_copy := Z.shiftr field_copy 1 in
      if field_copy =? 0 then Some r else msb_loop k field_copy (wrap u64 (r + 1))
  end.

(** [getMsbBit(field)], with fuel for every bit of a [uint64_t]. *)
Definition getMsbBit (field : Z) : option Z := msb_loop 64 (wrap u64 field) 0.

(** [getFieldDynamic<BitType, BitField>(start, len, field)]; [bt] is [BitType],
    [t] is [BitField]. *)
Definition getFieldDynamic (bt t : ity) (start len field : Z) : Z :=
  let comp := Z.shiftr field start in
  if len <? width t
  then wrap bt (Z.land (wrap u64 comp) (gen_bit_mask len))
  else wrap bt comp.

Definition getField (bt t : ity) (start len field : Z) : Z :=
  getFieldDynamic bt t start len field.

(** [setFieldDynamic(start, len, field, segment)]: the new value of [field]. *)
Definition setFieldDynamic (t : ity) (start len field segment : Z) : Z :=
  let ut := make_unsigned t in
  let p := promote ut in
  let nbits := width t - len in
  let field :=
    wrap t (Z.land (wrap u64 field)
              (wrap u64 (Z.lnot (wrap u64 (Z.shiftl (gen_bit_mask len) start))))) in
  let seg := wrap ut (wrap t segment) in
  let shifted := wrap p (Z.shiftl (Z.shiftr (wrap p (Z.shiftl seg nbits)) nbits) start) in
  let bits := wrap ut shifted in
  wrap t (Z.lor field (wrap t bits)).

Definition setField (t : ity) (start len field segment : Z) : Z :=
  setFieldDynamic t start len field segment.

(** [boolSetField<start>(field, set_value)]; [1UL] is a [uint64_t]. *)
Definition boolSetField (t : ity) (start field : Z) (set_value : bool) : Z :=
  if set_value
  then wrap t (Z.lor (wrap u64 field) (wrap u64 (Z.shiftl 1 start)))
  else wrap t (Z.land (wrap u64 field) (wrap u64 (Z.lnot (wrap u64 (Z.shiftl 1 start))))).

Definition boolGetField (start field : Z) : bool :=
  negb (Z.land (wrap u64 field) (wrap u64 (Z.shiftl 1 start)) =? 0).

(** [bitorSetField]: [field |= segment << start]. *)
Definition bitorSetField (t : ity) (start field segment : Z) : Z :=
  wrap t (Z.lor field (wrap (promote t) (Z.shiftl segment start))).

(** The shift counts the templates use are defined by the language: none
    reaches 64 ([gen_bit_mask], [mask << start]) and [nbits] and [start] stay
    below the width of the promoted field type. *)
Definition shift_defined (t : ity) (start len : Z) : bool :=
  (0 <=? start) && (0 <? len) && (len <? 64) && (len <=? width t)
  && (start <? width t).

(** A segment [start, start+len) that lies inside the field. *)
Definition segment_ok (t : ity) (start len : Z) : bool :=
  shift_defined t start len && (start + len <=? width t).

(** ** Bit-level characterisation *)

Section Facts.
Context (t : ity).

(** Field types whose unsigned version is not promoted: 32 and 64 bits. *)
Context (Hwide : 32 <= width t <= 64).

Lemma pow2_lt_64 len : 0 <= len < 64 -> 0 < 2 ^ len < 2 ^ 64.
Proof using.
  intros H. pow2_pos len.
  pose proof (Z.pow_lt_mono_r 2 len 64 ltac:(lia) ltac:(lia) ltac:(lia)). lia.
Qed.

Lemma gen_bit_mask_ones len : 0 <= len < 64 -> gen_bit_mask len = Z.ones len.
Proof using.
  intros H. unfold gen_bit_mask. rewrite Z.shiftl_1_l, Z.ones_equiv.
  pose proof (pow2_lt_64 len H).
  rewrite (wrap_u_small u64 (2 ^ len)) by (simpl width; auto with lia).
  rewrite wrap_u_small; [lia|done|simpl width; lia].
Qed.

Lemma testbit_mask len i :
  0 <= len < 64 -> 0 <= i -> Z.testbit (gen_bit_mask len) i = bool_decide (i < len).
Proof using.
  intros H Hi. rewrite gen_bit_mask_ones by done. case_bool_decide.
  - apply Z.ones_spec_low. lia.
  - apply Z.ones_spec_high. lia.
Qed.

(** The bits of a field that was set: the segment's inside, the old field's
    outside. *)
Lemma setFieldDynamic_testbit start len f seg i :
  segment_ok t start len = true -> 0 <= i < width t ->
  Z.testbit (setFieldDynamic t start len f seg) i =
  if decide (start <= i < start + len) then Z.testbit seg (i - start)
  else Z.testbit f i.
Proof using Hwide.
  unfold segment_ok, shift_defined. intros Hok Hi.
  unfold setFieldDynamic.
  assert (promote (make_unsigned t) = make_unsigned t) as ->.
  { unfold promote. simpl. case_Zb; [lia|done]. }
  rewrite wrap_testbit, Z.lor_spec, !wrap_testbit, Z.land_spec by (simpl; lia).
  rewrite (wrap_testbit u64 f), (wrap_testbit u64 (Z.lnot _)) by (simpl; lia).
  rewrite Z.lnot_spec, (wrap_testbit u64) by (simpl; lia).
  rewrite !Z.shiftl_spec by lia.
  destruct (decide (start <= i < start + len)) as [Hin|Hout].
  - rewrite testbit_mask by lia. rewrite bool_decide_eq_true_2 by lia.
    rewrite andb_false_r. simpl.
    rewrite Z.shiftr_spec, wrap_testbit, Z.shiftl_spec by (simpl; lia).
    replace (i - start + (width t - len) - (width t - len)) with (i - start) by lia.
    rewrite !wrap_testbit by (simpl; lia). done.
  - assert (Z.testbit (gen_bit_mask len) (i - start) = false) as ->.
    { destruct (decide (i < start)); [apply Z.testbit_neg_r; lia|].
      rewrite testbit_mask by lia. apply bool_decide_eq_false_2. lia. }
    rewrite andb_true_r.
    rewrite <- (orb_false_r (Z.testbit f i)) at 2. f_equal.
    destruct (decide (i < start)); [apply Z.testbit_neg_r; lia|].
    rewrite Z.shiftr_spec by lia.
    rewrite (in_ty_testbit_high (make_unsigned t)); [done|..]; simpl; auto with vt lia.
Qed.

(** Bits of a field whose flag was set or cleared. *)
Lemma boolSetField_testbit start f b i :
  0 <= start < width t -> 0 <= i < width t ->
  Z.testbit (boolSetField t start f b) i =
  if decide (i = start) then b else Z.testbit f i.
Proof using Hwide.
  intros Hs Hi. unfold boolSetField.
  destruct b; rewrite wrap_testbit by lia;
    [rewrite Z.lor_spec|rewrite Z.land_spec];
    rewrite !wrap_testbit by (simpl; lia);
    [|rewrite Z.lnot_spec, wrap_testbit by (simpl; lia)];
    rewrite testbit_1_shiftl by lia;
    destruct (decide (i = start)) as [->|];
    rewrite ?bool_decide_eq_true_2, ?bool_decide_eq_false_2 by done; simpl;
    rewrite ?orb_true_r, ?orb_false_r, ?andb_true_r, ?andb_false_r; done.
Qed.

(** ** Field values

    [seg_val start len f] is the number held by the segment; the getters are
    functions of it, and a setter changes the value of its own segment only. *)
Definition seg_val (start len f : Z) : Z := Z.shiftr f start mod 2 ^ len.

Definition disjoint_seg (s1 l1 s2 l2 : Z) : bool :=
  (s1 + l1 <=? s2) || (s2 + l2 <=? s1).

Lemma seg_val_testbit start len f i :
  0 <= start -> 0 <= len -> 0 <= i ->
  Z.testbit (seg_val start len f) i =
  if decide (i < len) then Z.testbit f (start + i) else false.
Proof using.
  intros Hs Hl Hi. unfold seg_val. destruct (decide (i < len)).
  - rewrite Z.mod_pow2_bits_low, Z.shiftr_spec by lia. f_equal. lia.
  - apply Z.mod_pow2_bits_high. lia.
Qed.

Lemma seg_val_ext start len f g :
  0 <= start -> 0 <= len ->
  (forall i, start <= i < start + len -> Z.testbit f i = Z.testbit g i) ->
  seg_val start len f = seg_val start len g.
Proof using.
  intros Hs Hl H. apply Z.bits_inj'. intros i Hi.
  rewrite !seg_val_testbit by lia. destruct (decide (i < len)); [apply H; lia|done].
Qed.

Lemma seg_val_bound start len f : 0 <= len -> 0 <= seg_val start len f < 2 ^ len.
Proof using. intros H. apply Z.mod_pos_bound. pow2_pos len. lia. Qed.

Lemma seg_val_0 start len : seg_val start len 0 = 0.
Proof using. unfold seg_val. rewrite Z.shiftr_0_l. apply Zmod_0_l. Qed.

Lemma getField_val bt start len f :
  segment_ok t start len && (len <? width t) = true ->
  getField bt t start len f = wrap bt (seg_val start len f).
Proof using Hwide.
  unfold segment_ok, shift_defined. intros H.
  unfold getField, getFieldDynamic. case_Zbs; try lia.
  f_equal. apply Z.bits_inj'. intros i Hi.
  rewrite Z.land_spec, testbit_mask, seg_val_testbit by lia.
  destruct (decide (i < len)).
  - rewrite bool_decide_eq_true_2, andb_true_r by lia.
    rewrite wrap_testbit, Z.shiftr_spec by (simpl; lia). f_equal. lia.
  - rewrite bool_decide_eq_false_2 by lia. apply andb_false_r.
Qed.

Lemma boolGetField_val start f :
  0 <= start < 64 -> boolGetField start f = Z.testbit f start.
Proof using.
  intros Hs. unfold boolGetField.
  assert (Z.land (wrap u64 f) (wrap u64 (Z.shiftl 1 start)) =
    if Z.testbit f start then 2 ^ start else 0) as ->.
  { apply Z.bits_inj'. intros i Hi.
    assert (wrap u64 (Z.shiftl 1 start) = 2 ^ start) as ->.
    { rewrite Z.shiftl_1_l. apply wrap_u_small; [done|].
      pose proof (pow2_lt_64 start Hs). simpl width. lia. }
    rewrite Z.land_spec. destruct (decide (i = start)) as [->|Hne].
    - rewrite Z.pow2_bits_true, andb_true_r, wrap_testbit by (simpl; lia).
      destruct (Z.testbit f start); [by rewrite Z.pow2_bits_true by lia|].
      by rewrite Z.testbit_0_l.
    - rewrite Z.pow2_bits_false, andb_false_r by done.
      destruct (Z.testbit f start); [by rewrite Z.pow2_bits_false by done|].
      by rewrite Z.testbit_0_l. }
  pose proof (pow2_lt_64 start Hs).
  destruct (Z.testbit f start); case_Zbs; try done; lia.
Qed.

Lemma seg_val_setField_same start len f seg :
  segment_ok t start len = true ->
  seg_val start len (setField t start len f seg) = seg mod 2 ^ len.
Proof using Hwide.
  intros H. pose proof H as H'. unfold segment_ok, shift_defined in H'.
  apply Z.bits_inj'. intros i Hi.
  rewrite seg_val_testbit by lia. destruct (decide (i < len)).
  - unfold setField. rewrite setFieldDynamic_testbit by (done || lia).
    rewrite decide_True by lia. rewrite Z.mod_pow2_bits_low by lia. f_equal. lia.
  - symmetry. apply Z.mod_pow2_bits_high. lia.
Qed.

Lemma seg_val_setField_other start len s l f seg :
  segment_ok t start len && segment_ok t s l && disjoint_seg start len s l = true ->
  seg_val s l (setField t start len f seg) = seg_val s l f.
Proof using Hwide.
  intros H. pose proof H as H'.
  unfold disjoint_seg, segment_ok, shift_defined in H'.
  apply andb_true_iff in H as [[H1 H2]%andb_true_iff _].
  apply seg_val_ext; [lia..|]. intros i Hi.
  unfold setField. rewrite setFieldDynamic_testbit by (done || lia).
  apply decide_False. lia.
Qed.

Lemma seg_val_boolSet_other start s l f b :
  segment_ok t start 1 && segment_ok t s l && disjoint_seg start 1 s l = true ->
  seg_val s l (boolSetField t start f b) = seg_val s l f.
Proof using Hwide.
  intros H. unfold disjoint_seg, segment_ok, shift_defined in H.
  apply seg_val_ext; [lia..|]. intros i Hi.
  rewrite boolSetField_testbit by lia. apply decide_False. lia.
Qed.

Lemma boolGet_setField_other start len s f seg :
  segment_ok t start len && segment_ok t s 1 && disjoint_seg start len s 1 = true ->
  boolGetField s (setField t start len f seg) = boolGetField s f.
Proof using Hwide.
  intros H. pose proof H as H'.
  unfold disjoint_seg, segment_ok, shift_defined in H'.
  apply andb_true_iff in H as [[H1 H2]%andb_true_iff _].
  rewrite !boolGetField_val by lia. unfold setField.
  rewrite setFieldDynamic_testbit by (done || lia). apply decide_False. lia.
Qed.

Lemma boolGet_boolSet_other start s f b :
  segment_ok t start 1 && segment_ok t s 1 && disjoint_seg start 1 s 1 = true ->
  boolGetField s (boolSetField t start f b) = boolGetField s f.
Proof using Hwide.
  intros H. unfold disjoint_seg, segment_ok, shift_defined in H.
  rewrite !boolGetField_val, boolSetField_testbit by lia. apply decide_False. lia.
Qed.

Lemma boolGet_boolSet_same start f b :
  segment_ok t start 1 = true -> boolGetField start (boolSetField t start f b) = b.
Proof using Hwide.
  intros H. unfold segment_ok, shift_defined in H.
  rewrite boolGetField_val, boolSetField_testbit by lia. by apply decide_True.
Qed.

End Facts.

(** ** Converting a field value back to its C++ type *)

(** A field at least as wide as the type it is read into loses nothing. *)
Lemma wrap_mod_wide bt len x :
  (1 <=? width bt) && (width bt <=? len) = true -> wrap bt (x mod 2 ^ len) = wrap bt x.
Proof.
  intros H. apply wrap_congr.
  replace len with ((len - width bt) + width bt) by lia.
  rewrite Z.pow_add_r, Z.mul_comm by lia.
  pow2_pos (width bt). pow2_pos (len - width bt).
  rewrite Z.rem_mul_r by lia.
  rewrite Z.mul_comm, Z.mod_add by lia. apply Z.mod_mod. lia.
Qed.

(** A field narrower than the type it is read into yields the low bits. *)
Lemma wrap_mod_narrow bt len x :
  (0 <=? len) && (len <? width bt) = true -> wrap bt (x mod 2 ^ len) = x mod 2 ^ len.
Proof.
  intros H. pow2_pos len. pose proof (Z.mod_pos_bound x (2 ^ len)).
  pose proof (Z.pow_le_mono_r 2 len (width bt - 1) ltac:(lia) ltac:(lia)).
  apply wrap_s_small; [unfold ity_ok; lia|lia].
Qed.

(** A setter's result is a value of the field's type. *)
Lemma setField_in_ty t start len f seg : ity_ok t -> in_ty t (setField t start len f seg).
Proof. intros H. by apply wrap_in_ty. Qed.

(** An unsigned 64-bit value whose top bits are clear is small. *)
Lemma seg_val_top_zero start f :
  0 <= start < 64 -> in_ty u64 f -> seg_val start (64 - start) f = 0 ->
  0 <= f < 2 ^ start.
Proof.
  unfold in_ty, tmin, tmax, seg_val. cbn [signed u64 width]. intros Hs Hf Hz.
  pow2_pos start. rewrite Z.shiftr_div_pow2 in Hz by lia.
  assert (f / 2 ^ start < 2 ^ (64 - start)) as Hlt.
  { apply Z.div_lt_upper_bound; [lia|]. rewrite <- Z.pow_add_r by lia.
    replace (start + (64 - start)) with 64 by lia. lia. }
  rewrite Z.mod_small in Hz by (split; [apply Z.div_pos|]; lia).
  pose proof (Z.div_mod f (2 ^ start) ltac:(lia)).
  pose proof (Z.mod_pos_bound f (2 ^ start) ltac:(lia)). lia.
Qed.

End BitPacker.

Import BitPacker.

(** Packing a segment into a 32- or 64-bit field and reading it back yields
    the segment cut to the field's length and converted to the type read; every
    segment disjoint from the one written, and every flag outside it, keeps its
    value. *)
Theorem setField_getField t bt start len f seg :
  32 <= width t <= 64 -> segment_ok t start len = true -> len < width t ->
  getField bt t start len (setField t start len f seg) = wrap bt (seg mod 2 ^ len) /\
  (forall s l, segment_ok t s l = true -> l < width t ->
     disjoint_seg start len s l = true ->
     getField bt t s l (setField t start len f seg) = getField bt t s l f) /\
  (forall s, segment_ok t s 1 = true -> disjoint_seg start len s 1 = true ->
     boolGetField s (setField t start len f seg) = boolGetField s f).
Proof.
  intros Hw Hok Hlen. apply Z.ltb_lt in Hlen.
  split_and!.
  - rewrite getField_val, seg_val_setField_same by (rewrite ?Hok, ?Hlen; done). done.
  - intros s l Hs Hl Hd. apply Z.ltb_lt in Hl.
    rewrite !getField_val, seg_val_setField_other by (rewrite ?Hok, ?Hs, ?Hl, ?Hd; done). done.
  - intros s Hs Hd. apply boolGet_setField_other; [done|]. by rewrite Hok, Hs, Hd.
Qed.

Lemma setField_getField_witness :
  getField i16 u64 45 16 (setField u64 45 16 (2 ^ 63 + 5) (-2)) = wrap i16 (-2 mod 2 ^ 16).
Proof. apply (setField_getField u64 i16 45 16 (2 ^ 63 + 5) (-2)); [split; discriminate|reflexivity|reflexivity]. Defined.

(** The narrow field types are different: below 32 bits the two shifts that
    should cut the segment run in [int], so a segment longer than its field is
    not cut and overwrites the bits above the field. *)
Theorem setField_narrow_overflow :
  setField u16 3 3 0 (2 ^ 3) = 2 ^ 6 /\
  getField u16 u16 3 3 (setField u16 3 3 0 (2 ^ 3)) = 0 /\
  getField u16 u16 6 3 (setField u16 3 3 0 (2 ^ 3)) = 1.
Proof. vm_compute. done. Qed.

Create Rewrite HintDb bits.
(** Rewriting with the field laws; every side condition is a comparison of
    constants of the layouts. *)
#[export] Hint Rewrite
  BitPacker.seg_val_setField_same BitPacker.seg_val_setField_other
  BitPacker.seg_val_boolSet_other BitPacker.boolGet_setField_other
  BitPacker.boolGet_boolSet_other BitPacker.boolGet_boolSet_same
  BitPacker.seg_val_0 BitPacker.wrap_mod_wide BitPacker.wrap_mod_narrow
  BitPacker.getField_val
  using (first [reflexivity | simpl; lia]) : bits.

Ltac bits := autorewrite with bits.

(** Closes the equations left by [bits]: the value fits its type or its field. *)
Ltac fits :=
  repeat split; try done;
  first
    [ apply wrap_id; [unfold ity_ok; simpl; lia|assumption]
    | apply wrap_id; [unfold ity_ok; simpl; lia|
        unfold in_ty, tmin, tmax in *; simpl in *; lia]
    | apply Z.mod_small; unfold in_ty, tmin, tmax in *; simpl in *; lia ].
