(* ===== verification/Ids.v ===== *)
(** * The packed identifiers of the runtime

    One module per builder: collection and context proxies
    ([vrt/proxy/proxy_bits.cc]), object-group proxies
    ([objgroup/proxy/proxy_bits.cc]), handlers ([handler/handler.cc]), groups
    ([group/id/group_id.cc]), pipes ([pipe/id/pipe_id.cc]), events
    ([event/event_id.cc]), RDMA handles ([rdma/rdma_handle.cc]) and element
    identifiers ([elm/elm_id_bits.cc]). A setter takes the identifier it
    modifies first and returns its new value. *)

From S2P Require Import Prelude.
From S2P Require Import Bits.
Import BitPacker.

(** [configs/types]: the identifier types shared by the builders. *)
Definition NodeType := i16.
Definition HandlerType := i64.
Definition EventType := u64.
Definition VirtualProxyType := u64.
Definition ObjGroupProxyType := u64.
Definition GroupType := u64.
Definition PipeType := u64.

Definition node_num_bits := width NodeType.
Definition uninitialized_destination := wrap NodeType 65535.

(** ** Virtual context and collection proxies *)
Module VirtualProxyBuilder.

Definition VirtualIDType := u32.
Definition VirtualRemoteIDType := u16.

Definition virtual_is_collection_num_bits := 1.
Definition virtual_is_migratable_num_bits := 1.
Definition virtual_is_remote_num_bits := 1.
Definition virtual_node_num_bits := width NodeType.
Definition virtual_id_num_bits := width VirtualIDType.
Definition virtual_remote_id_num_bits := width VirtualRemoteIDType.

(** [eVirtualProxyBits] and [eVirtualProxyRemoteBits]. *)
Definition Collection := 0.
Definition Migratable := Collection + virtual_is_collection_num_bits.
Definition Remote := Migratable + virtual_is_migratable_num_bits.
Definition Node := Remote + virtual_is_remote_num_bits.
Definition ID := Node + virtual_node_num_bits.
Definition RemoteNode := Node + virtual_node_num_bits.
Definition RemoteID := RemoteNode + virtual_node_num_bits.

Definition setIsCollection (proxy : Z) (is_coll : bool) : Z :=
  boolSetField VirtualProxyType Collection proxy is_coll.
Definition setIsMigratable (proxy : Z) (is_mig : bool) : Z :=
  boolSetField VirtualProxyType Migratable proxy is_mig.
Definition setIsRemote (proxy : Z) (is_remote : bool) : Z :=
  boolSetField VirtualProxyType Remote proxy is_remote.
Definition setVirtualNode (proxy node : Z) : Z :=
  setField VirtualProxyType Node virtual_node_num_bits proxy node.
Definition setVirtualID (proxy id : Z) : Z :=
  setField VirtualProxyType ID virtual_id_num_bits proxy id.
Definition setVirtualRemoteNode (proxy node : Z) : Z :=
  setField VirtualProxyType RemoteNode virtual_node_num_bits proxy node.
Definition setVirtualRemoteID (proxy id : Z) : Z :=
  setField VirtualProxyType RemoteID virtual_remote_id_num_bits proxy id.

Definition isCollection (proxy : Z) : bool := boolGetField Collection proxy.
Definition isMigratable (proxy : Z) : bool := boolGetField Migratable proxy.
Definition isRemote (proxy : Z) : bool := boolGetField Remote proxy.
Definition getVirtualNode (proxy : Z) : Z :=
  getField NodeType VirtualProxyType Node virtual_node_num_bits proxy.
Definition getVirtualID (proxy : Z) : Z :=
  getField VirtualIDType VirtualProxyType ID virtual_id_num_bits proxy.

Definition createProxy
    (id node : Z) (is_coll is_migratable is_distributed : bool) : Z :=
  let default_remote_node := 0 in
  let new_proxy := 0 in
  let remote_node := if is_distributed then default_remote_node else node in
  let new_proxy := setIsCollection new_proxy is_coll in
  let new_proxy := setIsMigratable new_proxy is_migratable in
  let new_proxy := setIsRemote new_proxy is_distributed in
  let new_proxy := setVirtualNode new_proxy remote_node in
  setVirtualID new_proxy id.

Definition createRemoteProxy
    (id this_node target_node : Z) (is_coll is_migratable : bool) : Z :=
  let new_proxy := 0 in
  let new_proxy := setIsCollection new_proxy is_coll in
  let new_proxy := setIsMigratable new_proxy is_migratable in
  let new_proxy := setIsRemote new_proxy true in
  let new_proxy := setVirtualNode new_proxy target_node in
  let new_proxy := setVirtualRemoteID new_proxy id in
  setVirtualRemoteNode new_proxy this_node.

(** Unfolding of the accessors down to the field operations. *)
Ltac unfold_proxy :=
  unfold createProxy, createRemoteProxy, isCollection, isMigratable, isRemote,
    getVirtualNode, getVirtualID, setIsCollection, setIsMigratable, setIsRemote,
    setVirtualNode, setVirtualID, setVirtualRemoteNode, setVirtualRemoteID in *.

Theorem createProxy_roundtrip id node is_coll is_mig is_dist :
  in_ty VirtualIDType id -> in_ty NodeType node ->
  let p := createProxy id node is_coll is_mig is_dist in
  isCollection p = is_coll /\ isMigratable p = is_mig /\ isRemote p = is_dist /\
  getVirtualID p = id /\ getVirtualNode p = (if is_dist then 0 else node).
Proof.
  intros Hid Hnode. unfold_proxy. cbv zeta. bits.
  destruct is_dist; fits.
Qed.

(** The remote layout keeps both nodes and the remote identifier. *)
Theorem createRemoteProxy_roundtrip id this_node target_node is_coll is_mig :
  in_ty VirtualRemoteIDType id -> in_ty NodeType this_node ->
  in_ty NodeType target_node ->
  let p := createRemoteProxy id this_node target_node is_coll is_mig in
  isCollection p = is_coll /\ isMigratable p = is_mig /\ isRemote p = true /\
  getVirtualNode p = target_node /\
  getField NodeType VirtualProxyType RemoteNode virtual_node_num_bits p = this_node /\
  getField VirtualRemoteIDType VirtualProxyType RemoteID virtual_remote_id_num_bits p = id.
Proof. intros Hid Ht Hn. unfold_proxy. cbv zeta. bits. fits. Qed.

End VirtualProxyBuilder.

(** ** Object-group proxies *)
Module ObjGroupProxy.

Definition ObjGroupIDType := u32.
Definition objgrp_is_collective_num_bits := 1.
Definition objgrp_control_num_bits := 1.
Definition objgrp_node_num_bits := width NodeType.
Definition objgrp_id_num_bits := width ObjGroupIDType.

(** [eObjGroupProxyBits]. *)
Definition ObjGroup := 0.
Definition Collective := ObjGroup + objgrp_control_num_bits.
Definition Node := Collective + objgrp_is_collective_num_bits.
Definition ID := Node + objgrp_node_num_bits.

Definition setControl (proxy : Z) (is_objgroup : bool) : Z :=
  boolSetField ObjGroupProxyType ObjGroup proxy is_objgroup.
Definition setIsCollective (proxy : Z) (is_coll : bool) : Z :=
  boolSetField ObjGroupProxyType Collective proxy is_coll.
Definition setNode (proxy node : Z) : Z :=
  setField ObjGroupProxyType Node objgrp_node_num_bits proxy node.
Definition setID (proxy id : Z) : Z :=
  setField ObjGroupProxyType ID objgrp_id_num_bits proxy id.

Definition isControl (proxy : Z) : bool := boolGetField ObjGroup proxy.
Definition isCollective (proxy : Z) : bool := boolGetField Collective proxy.
Definition getNode (proxy : Z) : Z :=
  getField NodeType ObjGroupProxyType Node objgrp_node_num_bits proxy.
Definition getID (proxy : Z) : Z :=
  getField ObjGroupIDType ObjGroupProxyType ID objgrp_id_num_bits proxy.

Definition create (id node : Z) (is_collective : bool) : Z :=
  let default_node := 0 in
  let target_node := if is_collective then default_node else node in
  let new_proxy := 0 in
  let new_proxy := setControl new_proxy true in
  let new_proxy := setIsCollective new_proxy is_collective in
  let new_proxy := setNode new_proxy target_node in
  setID new_proxy id.

Ltac unfold_objgroup :=
  unfold create, isControl, isCollective, getNode, getID, setControl,
    setIsCollective, setNode, setID in *.

Theorem create_roundtrip id node is_coll :
  in_ty ObjGroupIDType id -> in_ty NodeType node ->
  let p := create id node is_coll in
  isControl p = true /\ isCollective p = is_coll /\ getID p = id /\
  getNode p = (if is_coll then 0 else node).
Proof.
  intros Hid Hn. unfold_objgroup. cbv zeta. bits. destruct is_coll; fits.
Qed.

End ObjGroupProxy.

(** ** Handlers *)
Module HandlerManager.

Definition HandlerIdentifierType := u64.
Definition HandlerControlType := u32.
Definition blank_handler := 0.

Definition auto_num_bits := 1.
Definition functor_num_bits := 1.
Definition trace_num_bits := 1.
Definition control_num_bits := 20.
Definition base_msg_derived_num_bits := 1.
Definition registry_type_bits := 4.
Definition handler_id_num_bits :=
  width HandlerType -
  (auto_num_bits + functor_num_bits + control_num_bits + trace_num_bits +
   base_msg_derived_num_bits + registry_type_bits).

(** [eHandlerBits]. *)
Definition Auto := 0.
Definition Functor := Auto + auto_num_bits.
Definition Trace := Functor + functor_num_bits.
Definition Control := Trace + trace_num_bits.
Definition BaseMsgDerived := Control + control_num_bits.
Definition RegistryType := BaseMsgDerived + base_msg_derived_num_bits.
Definition Identifier := RegistryType + registry_type_bits.

(** [RegistryTypeEnum], an [enum struct] on [int] whose first value is 1. *)
Inductive RegistryTypeEnum :=
  | RegGeneral | RegMap | RegVrt | RegSeed | RegVrtCollection
  | RegVrtCollectionMember | RegRDMAGet | RegRDMAPut | RegIndex | RegObjGroup.

#[export] Instance RegistryTypeEnum_eq_dec : EqDecision RegistryTypeEnum.
Proof. solve_decision. Defined.

Definition registry_to_Z (r : RegistryTypeEnum) : Z :=
  match r with
  | RegGeneral => 1 | RegMap => 2 | RegVrt => 3 | RegSeed => 4
  | RegVrtCollection => 5 | RegVrtCollectionMember => 6 | RegRDMAGet => 7
  | RegRDMAPut => 8 | RegIndex => 9 | RegObjGroup => 10
  end.

Definition setHandlerIdentifier (han id : Z) : Z :=
  setField HandlerType Identifier handler_id_num_bits han id.
Definition setHandlerControl (han control : Z) : Z :=
  setField HandlerType Control control_num_bits han control.
Definition setHandlerAuto (han : Z) (is_auto : bool) : Z :=
  boolSetField HandlerType Auto han is_auto.
Definition setHandlerFunctor (han : Z) (is_functor : bool) : Z :=
  boolSetField HandlerType Functor han is_functor.
Definition setHandlerBaseMsgDerived (han : Z) (is_derived : bool) : Z :=
  boolSetField HandlerType BaseMsgDerived han is_derived.
Definition setHandlerTrace (han : Z) (is_trace : bool) : Z :=
  boolSetField HandlerType Trace han is_trace.
Definition setHandlerRegistryType (han : Z) (r : RegistryTypeEnum) : Z :=
  setField HandlerType RegistryType registry_type_bits han (registry_to_Z r).

Definition getHandlerIdentifier (han : Z) : Z :=
  getField HandlerIdentifierType HandlerType Identifier handler_id_num_bits han.
Definition getHandlerControl (han : Z) : Z :=
  getField HandlerControlType HandlerType Control control_num_bits han.
(** The enumerator's number; the enumeration is cast from it. *)
Definition getHandlerRegistryType (han : Z) : Z :=
  getField i32 HandlerType RegistryType registry_type_bits han.
Definition isHandlerAuto (han : Z) : bool := boolGetField Auto han.
Definition isHandlerFunctor (han : Z) : bool := boolGetField Functor han.
Definition isHandlerTrace (han : Z) : bool := boolGetField Trace han.
Definition isHandlerBaseMsgDerived (han : Z) : bool := boolGetField BaseMsgDerived han.
Definition isHandlerObjGroup (han : Z) : bool :=
  getHandlerRegistryType han =? registry_to_Z RegObjGroup.
Definition isHandlerMember (han : Z) : bool :=
  getHandlerRegistryType han =? registry_to_Z RegVrtCollectionMember.

(** [makeHandler]; [trace_enabled] is the build option guarding the trace bit. *)
Definition makeHandler (trace_enabled is_auto is_functor : bool) (id : Z)
    (registry_type : RegistryTypeEnum) (control : Z)
    (is_trace is_base_msg_derived : bool) : Z :=
  let new_han := blank_handler in
  let new_han := setHandlerAuto new_han is_auto in
  let new_han := setHandlerFunctor new_han is_functor in
  let new_han := setHandlerBaseMsgDerived new_han is_base_msg_derived in
  let new_han := setHandlerRegistryType new_han registry_type in
  let new_han := setHandlerIdentifier new_han id in
  let new_han := if trace_enabled then setHandlerTrace new_han is_trace else new_han in
  if negb (control =? 0) then setHandlerControl new_han control else new_han.

Ltac unfold_handler :=
  unfold makeHandler, blank_handler, setHandlerIdentifier, setHandlerControl,
    setHandlerAuto, setHandlerFunctor, setHandlerBaseMsgDerived, setHandlerTrace,
    setHandlerRegistryType, getHandlerIdentifier, getHandlerControl,
    getHandlerRegistryType, isHandlerAuto, isHandlerFunctor, isHandlerTrace,
    isHandlerBaseMsgDerived in *.

(** Reading a handler back: every component that fits its bits, the object-group
    and member tests decided by the registry type. *)
Theorem makeHandler_roundtrip tr is_auto is_functor id reg control is_trace is_derived :
  0 <= id < 2 ^ handler_id_num_bits -> 0 <= control < 2 ^ control_num_bits ->
  let h := makeHandler tr is_auto is_functor id reg control is_trace is_derived in
  isHandlerAuto h = is_auto /\ isHandlerFunctor h = is_functor /\
  isHandlerTrace h = (tr && is_trace) /\ isHandlerBaseMsgDerived h = is_derived /\
  getHandlerRegistryType h = registry_to_Z reg /\
  getHandlerIdentifier h = id /\ getHandlerControl h = control /\
  isHandlerObjGroup h = bool_decide (reg = RegObjGroup) /\
  isHandlerMember h = bool_decide (reg = RegVrtCollectionMember).
Proof.
  intros Hid Hc h.
  assert (getHandlerRegistryType h = registry_to_Z reg) as Hreg.
  { subst h. unfold_handler. destruct tr, (control =? 0); cbn [negb andb]; bits;
      by destruct reg. }
  unfold isHandlerObjGroup, isHandlerMember. rewrite Hreg. subst h. clear Hreg.
  unfold_handler.
  destruct tr, (Z.eqb_spec control 0) as [->|]; cbn [negb andb]; bits;
    rewrite ?(Z.mod_small id) by done; rewrite ?(Z.mod_small control) by done;
    split_and!; try done; by destruct reg.
Qed.

End HandlerManager.

(** ** Groups *)
Module GroupIDBuilder.

Definition GroupIDType := u32.
Definition group_is_collective_num_bits := 1.
Definition group_is_static_num_bits := 1.
Definition group_node_num_bits := width NodeType.
Definition group_id_num_bits := width GroupIDType.
Definition group_collective_node := -1.

(** [eGroupIDBits]. *)
Definition Collective := 0.
Definition Static := Collective + group_is_collective_num_bits.
Definition Node := Static + group_is_static_num_bits.
Definition ID := Node + group_node_num_bits.

Definition setIsCollective (group : Z) (is_coll : bool) : Z :=
  boolSetField GroupType Collective group is_coll.
Definition setIsStatic (group : Z) (is_static : bool) : Z :=
  boolSetField GroupType Static group is_static.
Definition setNode (group node : Z) : Z :=
  setField GroupType Node group_node_num_bits group node.
Definition setID (group id : Z) : Z :=
  setField GroupType ID group_id_num_bits group id.
Definition isCollective (group : Z) : bool := boolGetField Collective group.
Definition isStatic (group : Z) : bool := boolGetField Static group.
Definition getNode (group : Z) : Z :=
  getField NodeType GroupType Node group_node_num_bits group.
Definition getGroupID (group : Z) : Z :=
  getField GroupIDType GroupType ID group_id_num_bits group.

Definition createGroupID (id node : Z) (is_collective is_static : bool) : Z :=
  let set_node := if negb is_collective then node else group_collective_node in
  let new_group := 0 in
  let new_group := setIsCollective new_group is_collective in
  let new_group := setIsStatic new_group is_static in
  let new_group := setNode new_group set_node in
  setID new_group id.

Lemma createGroupID_roundtrip id node is_coll is_static :
  in_ty GroupIDType id -> in_ty NodeType node ->
  let g := createGroupID id node is_coll is_static in
  isCollective g = is_coll /\ isStatic g = is_static /\ getGroupID g = id /\
  getNode g = (if is_coll then -1 else node).
Proof.
  intros Hid Hn. unfold createGroupID, isCollective, isStatic, getNode, getGroupID,
    setIsCollective, setIsStatic, setNode, setID. cbv zeta. bits.
  destruct is_coll; fits.
Qed.

End GroupIDBuilder.

(** ** Pipes *)
Module PipeIDBuilder.

Definition PipeIDType := u32.
Definition pipe_send_back_num_bits := 1.
Definition pipe_persist_num_bits := 1.
Definition pipe_node_num_bits := width NodeType.
Definition pipe_id_num_bits := width PipeIDType.

(** [ePipeIDBits]. *)
Definition Sendback := 0.
Definition Persist := Sendback + pipe_send_back_num_bits.
Definition Node := Persist + pipe_persist_num_bits.
Definition ID := Node + pipe_node_num_bits.

Definition setIsSendback (pipe : Z) (is_send_back : bool) : Z :=
  boolSetField PipeType Sendback pipe is_send_back.
Definition setIsPersist (pipe : Z) (is_persist : bool) : Z :=
  boolSetField PipeType Persist pipe is_persist.
Definition setNode (pipe node : Z) : Z :=
  setField PipeType Node pipe_node_num_bits pipe node.
Definition setID (pipe id : Z) : Z :=
  setField PipeType ID pipe_id_num_bits pipe id.
Definition isSendback (pipe : Z) : bool := boolGetField Sendback pipe.
Definition isPersist (pipe : Z) : bool := boolGetField Persist pipe.
Definition getNode (pipe : Z) : Z :=
  getField NodeType PipeType Node pipe_node_num_bits pipe.
Definition getPipeID (pipe : Z) : Z :=
  getField PipeIDType PipeType ID pipe_id_num_bits pipe.

Definition createPipeID (id node : Z) (is_send_back is_persist : bool) : Z :=
  let new_pipe := 0 in
  let new_pipe := setIsSendback new_pipe is_send_back in
  let new_pipe := setIsPersist new_pipe is_persist in
  let new_pipe := setNode new_pipe node in
  setID new_pipe id.

Lemma createPipeID_roundtrip id node is_sb is_persist :
  in_ty PipeIDType id -> in_ty NodeType node ->
  let p := createPipeID id node is_sb is_persist in
  isSendback p = is_sb /\ isPersist p = is_persist /\ getPipeID p = id /\
  getNode p = node.
Proof.
  intros Hid Hn. unfold createPipeID, isSendback, isPersist, getNode, getPipeID,
    setIsSendback, setIsPersist, setNode, setID. cbv zeta. bits. fits.
Qed.

End PipeIDBuilder.

(** ** Events *)
Module EventIDManager.

Definition EventIdentifierType := i32.
Definition event_identifier_num_bits := 32.

(** [eEventIDBits]. *)
Definition Node := 0.
Definition EventIdent := Node + node_num_bits.

Definition setEventNode (event node : Z) : Z :=
  setField EventType Node node_num_bits event node.
Definition setEventIdentifier (event id : Z) : Z :=
  setField EventType EventIdent event_identifier_num_bits event id.
Definition getEventNode (event : Z) : Z :=
  getField NodeType EventType Node node_num_bits event.
Definition getEventIdentifier (event : Z) : Z :=
  getField EventIdentifierType EventType EventIdent event_identifier_num_bits event.

Definition makeEvent (id node : Z) : Z :=
  let new_event_id := 0 in
  let new_event_id := setEventNode new_event_id node in
  setEventIdentifier new_event_id id.

Lemma makeEvent_roundtrip id node :
  in_ty EventIdentifierType id -> in_ty NodeType node ->
  getEventNode (makeEvent id node) = node /\
  getEventIdentifier (makeEvent id node) = id.
Proof.
  intros Hid Hn. unfold makeEvent, getEventNode, getEventIdentifier, setEventNode,
    setEventIdentifier. cbv zeta. bits. fits.
Qed.

End EventIDManager.

(** ** RDMA handles *)
Module HandleManager.

Definition RDMA_HandleType := i64.
Definition RDMA_IdentifierType := i32.
Definition rdma_type_num_bits := 4.
Definition rdma_sized_num_bits := 1.
Definition rdma_collective_num_bits := 1.
Definition rdma_hander_type_num_bits := 1.
Definition rdma_identifier_num_bits := width RDMA_IdentifierType.

(** [rdma::Type]. *)
Inductive Type_ := Get | Put | GetOrPut | Uninitialized.

Definition type_to_Z (ty : Type_) : Z :=
  match ty with Get => 0 | Put => 1 | GetOrPut => 2 | Uninitialized => 3 end.

(** [rdma::Bits]. *)
Definition Sized := 0.
Definition Collective := Sized + rdma_sized_num_bits.
Definition HandlerBit := Collective + rdma_collective_num_bits.
Definition OpType := HandlerBit + rdma_hander_type_num_bits.
Definition Identifier := OpType + rdma_type_num_bits.
Definition Node := Identifier + rdma_identifier_num_bits.

Definition setIsSized (handle : Z) (is_sized : bool) : Z :=
  boolSetField RDMA_HandleType Sized handle is_sized.
Definition setIsCollective (handle : Z) (is_collective : bool) : Z :=
  boolSetField RDMA_HandleType Collective handle is_collective.
Definition setIsHandler (handle : Z) (is_handler : bool) : Z :=
  boolSetField RDMA_HandleType HandlerBit handle is_handler.
Definition setOpType (handle : Z) (ty : Type_) : Z :=
  setField RDMA_HandleType OpType rdma_type_num_bits handle (type_to_Z ty).
Definition setRdmaNode (handle node : Z) : Z :=
  setField RDMA_HandleType Node node_num_bits handle node.
Definition setRdmaIdentifier (handle ident : Z) : Z :=
  setField RDMA_HandleType Identifier rdma_identifier_num_bits handle ident.
Definition getRdmaNode (handle : Z) : Z :=
  getField NodeType RDMA_HandleType Node node_num_bits handle.
Definition getRdmaIdentifier (handle : Z) : Z :=
  getField RDMA_IdentifierType RDMA_HandleType Identifier rdma_identifier_num_bits handle.
Definition isSized (handle : Z) : bool := boolGetField Sized handle.
Definition isCollective (handle : Z) : bool := boolGetField Collective handle.
Definition isHandler (handle : Z) : bool := boolGetField HandlerBit handle.
(** The enumerator's number ([rdma::Type] is an unscoped [enum] on [unsigned]). *)
Definition getOpType (handle : Z) : Z :=
  getField u32 RDMA_HandleType OpType rdma_type_num_bits handle.
Definition createNewHandler : Z := setOpType 0 Uninitialized.

(** The setters of a handle commute with the getters of the other components,
    so a handle written component by component reads back what was written. *)
Lemma handle_roundtrip sized coll han ty node ident :
  in_ty NodeType node -> in_ty RDMA_IdentifierType ident ->
  let h := setRdmaIdentifier (setRdmaNode (setOpType (setIsHandler (setIsCollective
             (setIsSized createNewHandler sized) coll) han) ty) node) ident in
  isSized h = sized /\ isCollective h = coll /\ isHandler h = han /\
  getOpType h = type_to_Z ty /\ getRdmaNode h = node /\ getRdmaIdentifier h = ident.
Proof.
  intros Hn Hi. unfold setRdmaIdentifier, setRdmaNode, setOpType, setIsHandler,
    setIsCollective, setIsSized, createNewHandler, isSized, isCollective, isHandler,
    getOpType, getRdmaNode, getRdmaIdentifier, setOpType. cbv zeta. bits.
  split_and!; [done..|by destruct ty|fits|fits].
Qed.

End HandleManager.

(** ** Element identifiers *)
Module ElmIDBits.

Definition ElementIDType := u64.
Definition no_element_id := 0.

(** [eElmIDControlBits]. *)
Inductive eElmIDControlBits :=
  | ObjGroup | BareHandler | CollectionNonMigratable | CollectionMigratable.

#[export] Instance eElmIDControlBits_eq_dec : EqDecision eElmIDControlBits.
Proof. solve_decision. Defined.

Definition ctrl_to_Z (c : eElmIDControlBits) : Z :=
  match c with
  | ObjGroup => 0 | BareHandler => 1
  | CollectionNonMigratable => 2 | CollectionMigratable => 3
  end.

(** The cast of the two control bits back to the enumeration. *)
Definition Z_to_ctrl (z : Z) : eElmIDControlBits :=
  if z =? 0 then ObjGroup else if z =? 1 then BareHandler
  else if z =? 2 then CollectionNonMigratable else CollectionMigratable.

Definition num_control_bits := 2.
(** [eElmIDProxyBitsObjGroup] and [eElmIDProxyBitsNonObjGroup]. *)
Definition Control := 0.
Definition ObjGroupID := num_control_bits.
Definition Control2 := 0.
Definition Node := num_control_bits.
Definition ID := Node + width NodeType.
Definition elm_id_num_bits := width ElementIDType - (2 + width NodeType).
Definition proxy_bits := width ObjGroupProxyType - 2.

(** [ElementIDStruct]; equality and order look at [id] only. *)
Record ElementIDStruct := ElementID { id : Z; curr_node : Z }.
Definition ElementIDStruct_eqb (a b : ElementIDStruct) : bool := id a =? id b.
Definition ElementIDStruct_ltb (a b : ElementIDStruct) : bool := id a <? id b.

Definition setObjGroup (id proxy node : Z) : Z :=
  let id := setField ElementIDType Control num_control_bits id (ctrl_to_Z ObjGroup) in
  let proxy := ObjGroupProxy.setNode proxy node in
  setField ElementIDType ObjGroupID proxy_bits id proxy.

Definition setCollectionID (id : Z) (migratable : bool) (seq_id node : Z) : Z :=
  let id := setField ElementIDType Control2 num_control_bits id
    (ctrl_to_Z (if migratable then CollectionMigratable else CollectionNonMigratable)) in
  let id := setField ElementIDType Node (width NodeType) id node in
  setField ElementIDType ID elm_id_num_bits id seq_id.

Definition createCollectionImpl (migratable : bool) (seq_id home_node curr_node : Z)
    : ElementIDStruct :=
  ElementID (setCollectionID 0 migratable seq_id home_node) curr_node.

(** [createObjGroup] running on [this_node]. *)
Definition createObjGroup (this_node proxy node : Z) : ElementIDStruct :=
  ElementID (setObjGroup 0 proxy node) this_node.

Definition createBareHandler (node : Z) : ElementIDStruct :=
  let ret := setField ElementIDType Control num_control_bits 0 (ctrl_to_Z BareHandler) in
  let ret := setField ElementIDType Node (width NodeType) ret node in
  ElementID ret node.

Definition getControlBits (id : Z) : eElmIDControlBits :=
  Z_to_ctrl (getField i32 ElementIDType Control num_control_bits id).

Definition isMigratable (id : Z) : bool :=
  let ctrl := getControlBits id in
  negb (bool_decide (ctrl = BareHandler) || bool_decide (ctrl = ObjGroup)
        || bool_decide (ctrl = CollectionNonMigratable)).

Definition getObjGroupProxy (id : Z) (include_node : bool) : Z :=
  let proxy := getField ObjGroupProxyType ElementIDType ObjGroupID proxy_bits id in
  if negb include_node then ObjGroupProxy.setNode proxy 0 else proxy.

Definition getNode (id : Z) : Z :=
  if bool_decide (getControlBits id = ObjGroup)
  then ObjGroupProxy.getNode (getObjGroupProxy id true)
  else getField NodeType ElementIDType Node (width NodeType) id.

(** [ElementIDStruct::getHomeNode], [getCurrNode], [isLocatedOnThisNode]. *)
Definition getHomeNode (e : ElementIDStruct) : Z := getNode (id e).
Definition getCurrNode (e : ElementIDStruct) : Z := curr_node e.
Definition isLocatedOnThisNode (this_node : Z) (e : ElementIDStruct) : bool :=
  (this_node =? curr_node e) && negb (isMigratable (id e)).

Ltac unfold_elm :=
  unfold getHomeNode, getNode, getObjGroupProxy, isMigratable, getControlBits,
    createBareHandler, createObjGroup, createCollectionImpl, setCollectionID,
    setObjGroup in *; cbn [id curr_node] in *.

Lemma ctrl_roundtrip c : Z_to_ctrl (ctrl_to_Z c mod 2 ^ num_control_bits) = c.
Proof. by destruct c. Qed.

Lemma control_collection mig seq home :
  getControlBits (setCollectionID 0 mig seq home) =
  if mig then CollectionMigratable else CollectionNonMigratable.
Proof. unfold_elm. cbv zeta. bits. rewrite ctrl_roundtrip. done. Qed.

Lemma control_objgroup proxy node : getControlBits (setObjGroup 0 proxy node) = ObjGroup.
Proof. unfold_elm. cbv zeta. bits. apply ctrl_roundtrip. Qed.

(** A collection element's identifier yields its home node, its sequence number
    and whether it can migrate. *)
Theorem collection_id mig seq home curr :
  in_ty NodeType home -> 0 <= seq < 2 ^ elm_id_num_bits ->
  let e := createCollectionImpl mig seq home curr in
  isMigratable (id e) = mig /\ getHomeNode e = home /\
  getField ElementIDType ElementIDType ID elm_id_num_bits (id e) = seq /\
  getCurrNode e = curr.
Proof.
  intros Hh Hs. cbv zeta. unfold getHomeNode, createCollectionImpl, isMigratable, getNode.
  cbn [id curr_node getCurrNode]. rewrite control_collection.
  assert (bool_decide ((if mig then CollectionMigratable else CollectionNonMigratable)
    = ObjGroup) = false) as -> by (by destruct mig).
  unfold setCollectionID. cbv zeta. bits.
  split_and!; [by destruct mig|fits|by apply Z.mod_small|done].
Qed.

(** The bits above the identifier of an object-group proxy are clear. *)
Lemma objgroup_proxy_small gid onode coll node :
  ObjGroupProxy.setNode (ObjGroupProxy.create gid onode coll) node mod 2 ^ proxy_bits =
  ObjGroupProxy.setNode (ObjGroupProxy.create gid onode coll) node.
Proof.
  assert (0 <= ObjGroupProxy.setNode (ObjGroupProxy.create gid onode coll) node < 2 ^ 50)
    as Hs.
  { apply (seg_val_top_zero 50); [lia|by apply setField_in_ty|].
    unfold ObjGroupProxy.create, ObjGroupProxy.setNode, ObjGroupProxy.setID,
      ObjGroupProxy.setIsCollective, ObjGroupProxy.setControl. cbv zeta. by bits. }
  change (2 ^ 50) with 1125899906842624 in Hs.
  apply Z.mod_small. change (2 ^ proxy_bits) with 4611686018427387904. lia.
Qed.

Lemma proxy_of_objgroup gid onode coll node :
  getObjGroupProxy (setObjGroup 0 (ObjGroupProxy.create gid onode coll) node) true =
  ObjGroupProxy.setNode (ObjGroupProxy.create gid onode coll) node.
Proof.
  unfold getObjGroupProxy, setObjGroup. cbv zeta. cbn [negb]. bits.
  apply objgroup_proxy_small.
Qed.

Lemma getObjGroupProxy_without_node e :
  getObjGroupProxy e false = ObjGroupProxy.setNode (getObjGroupProxy e true) 0.
Proof. done. Qed.

(** An object-group element's identifier yields the node it lives on and, with
    the node cleared, the proxy of the whole group; only the two top bits of the
    proxy are lost, and [ObjGroupProxy.create] never sets them. *)
Theorem objgroup_id this_node gid coll onode node :
  in_ty ObjGroupProxy.ObjGroupIDType gid -> in_ty NodeType node -> in_ty NodeType onode ->
  let proxy := ObjGroupProxy.create gid onode coll in
  let e := createObjGroup this_node proxy node in
  isMigratable (id e) = false /\ getHomeNode e = node /\
  ObjGroupProxy.getID (getObjGroupProxy (id e) false) = gid /\
  ObjGroupProxy.isCollective (getObjGroupProxy (id e) false) = coll /\
  ObjGroupProxy.getNode (getObjGroupProxy (id e) false) = 0 /\
  getObjGroupProxy (id e) true = ObjGroupProxy.setNode proxy node.
Proof.
  intros Hg Hn Ho. cbv zeta.
  unfold getHomeNode, createObjGroup, isMigratable, getNode. cbn [id].
  rewrite control_objgroup.
  rewrite (bool_decide_eq_true_2 (ObjGroup = ObjGroup)), orb_true_r by done.
  rewrite getObjGroupProxy_without_node, proxy_of_objgroup.
  unfold ObjGroupProxy.create, ObjGroupProxy.getNode, ObjGroupProxy.getID,
    ObjGroupProxy.isCollective, ObjGroupProxy.setNode, ObjGroupProxy.setID,
    ObjGroupProxy.setIsCollective, ObjGroupProxy.setControl. cbv zeta. bits.
  split_and!; fits.
Qed.

End ElmIDBits.

(** ** The round trips at concrete identifiers *)
Module IdsExamples.

Lemma makeHandler_roundtrip_witness :
  let h := HandlerManager.makeHandler true true false 17 HandlerManager.RegObjGroup 3 true false in
  HandlerManager.getHandlerIdentifier h = 17 /\ HandlerManager.getHandlerControl h = 3 /\
  HandlerManager.isHandlerObjGroup h = true.
Proof.
  destruct (HandlerManager.makeHandler_roundtrip true true false 17 HandlerManager.RegObjGroup 3
              true false) as (_ & _ & _ & _ & _ & H1 & H2 & H3 & _);
    [split; [discriminate|reflexivity]|split; [discriminate|reflexivity]|].
  split; [exact H1|]. split; [exact H2|exact H3].
Defined.

Lemma collection_id_witness :
  let e := ElmIDBits.createCollectionImpl true 42 5 9 in
  ElmIDBits.isMigratable (ElmIDBits.id e) = true /\ ElmIDBits.getHomeNode e = 5 /\
  ElmIDBits.getCurrNode e = 9.
Proof.
  destruct (ElmIDBits.collection_id true 42 5 9) as (H1 & H2 & _ & H4);
    [split; vm_compute; discriminate|split; [discriminate|reflexivity]|].
  split; [exact H1|]. split; [exact H2|exact H4].
Defined.

Lemma objgroup_id_witness :
  let e := ElmIDBits.createObjGroup 0 (ObjGroupProxy.create 12 3 false) 6 in
  ElmIDBits.isMigratable (ElmIDBits.id e) = false /\ ElmIDBits.getHomeNode e = 6 /\
  ObjGroupProxy.getID (ElmIDBits.getObjGroupProxy (ElmIDBits.id e) false) = 12.
Proof.
  destruct (ElmIDBits.objgroup_id 0 12 false 3 6) as (H1 & H2 & H3 & _);
    [split; vm_compute; discriminate|split; vm_compute; discriminate
    |split; vm_compute; discriminate|].
  split; [exact H1|]. split; [exact H2|exact H3].
Defined.

End IdsExamples.
