(* ===== verification/Intervals.v ===== *)
(** * Discrete interval encoding sets

    Models [src/vt/termination/interval/interval.h] ([Interval]) and
    [integral_set.h] ([IntegralSetBase]), the compressed set of integers the
    epoch windows are made of, and proves that it implements a mathematical set.

    [std::set<Interval, IntervalCompare>] is the list of its elements in order;
    an iterator is a position in that list, [end()] being its length. *)

From S2P Require Import Prelude.

Module Interval.

Section Ops.
(** [DomainT], an integral type, and its sentinel [DomainT{}]. *)
Context (D : ity).

Record Interval := Itv { lower : Z; upper : Z }.

Definition sentinel := 0.
Definition itv_default := Itv sentinel sentinel.
Definition itv_single (val : Z) := Itv val val.

Definition width (i : Interval) : Z := wrap D (wrap D (upper i - lower i) + 1).
Definition valid (i : Interval) : bool := lower i <=? upper i.

Definition get (i : Interval) (k : Z) : res Z :=
  let val := wrap D (lower i + wrap D k) in
  vtAssert (negb (lower i =? sentinel)) (
  vtAssert (negb (upper i =? sentinel)) (
  vtAssert (val <=? upper i) (Ok val))).

Definition setUpper (i : Interval) (val : Z) : res Interval :=
  let i := Itv (lower i) val in
  vtAssert (lower i <=? val) (vtAssert (valid i) (Ok i)).

Definition setLower (i : Interval) (val : Z) : res Interval :=
  let i := Itv val (upper i) in
  vtAssert (val <=? upper i) (vtAssert (valid i) (Ok i)).

Definition set (i : Interval) (lo hi : Z) : res Interval :=
  i ← setLower i lo; setUpper i hi.

Definition contains (i : Interval) (val : Z) : bool :=
  (lower i <=? val) && (val <=? upper i).

Inductive PositionEnum := TangentLeft | NotTangent | TangentRight.

#[export] Instance PositionEnum_eq_dec : EqDecision PositionEnum.
Proof. solve_decision. Defined.

(** [tangent(i, gap)] with the default [gap = 1]. *)
Definition tangent (this i : Interval) : PositionEnum :=
  if lower this =? wrap D (upper i + 1) then TangentLeft
  else if upper this =? wrap D (lower i - 1) then TangentRight
  else NotTangent.

Definition join (this i : Interval) (pos : PositionEnum) : res Interval :=
  match pos with
  | TangentLeft =>
      vtAssert (lower this =? wrap D (upper i + 1)) (Ok (Itv (lower i) (upper this)))
  | TangentRight =>
      vtAssert (upper this =? wrap D (lower i - 1)) (Ok (Itv (lower this) (upper i)))
  | NotTangent => Stop AssertFailed
  end.

Definition itv_eqb (a b : Interval) : bool :=
  (lower b =? lower a) && (upper b =? upper a).

Definition intersects (i1 i2 : Interval) : bool :=
  (lower i1 <=? upper i2) && (lower i2 <=? upper i1).

(** The order of the [std::set]: [IntervalCompare]. *)
Definition less (i1 i2 : Interval) : bool :=
  (lower i1 <? lower i2) && (upper i1 <? lower i2).

End Ops.
End Interval.

Module IntegralSet.
Import Interval.

Section Ops.
Context (D : ity).

Record IntegralSet := ISet {
  lb_ : Z;               (* the lower bound for the entire set *)
  ub_ : Z;               (* the upper bound for the entire set *)
  set_ : list Interval;  (* the intervals, in order *)
  hint_ : nat;           (* the previous insert iterator *)
  elms_ : Z              (* count of non-compressed elements, a size_t *)
}.

Definition iset_empty : IntegralSet := ISet 0 0 [] 0 0.
(** [explicit IntegralSetBase(DomainT base)]. *)
Definition iset_base (base : Z) : IntegralSet := ISet base base [] 0 0.

Definition size_t := u64.

(** [std::set::lower_bound]: the first element not less than [j]. *)
Fixpoint lower_bound (j : Interval) (l : list Interval) : nat :=
  match l with
  | [] => 0
  | e :: l => if less e j then S (lower_bound j l) else 0
  end.

(** [std::set::find]: an element neither less nor greater, or [end()]. *)
Definition find (j : Interval) (l : list Interval) : nat :=
  let p := lower_bound j l in
  match l !! p with
  | Some e => if less j e then length l else p
  | None => length l
  end.

(** [std::set::insert]: the set, the iterator to the element now equivalent to
    [i], and whether it was inserted. *)
Definition set_insert (i : Interval) (l : list Interval) : list Interval * nat * bool :=
  let p := lower_bound i l in
  match l !! p with
  | Some e => if less i e then (take p l ++ i :: drop p l, p, true) else (l, p, false)
  | None => (take p l ++ i :: drop p l, p, true)
  end.

Definition existsGlobal (s : IntegralSet) (val : Z) : bool :=
  (lb_ s <=? val) && (val <=? ub_ s).

Definition exists_ (s : IntegralSet) (val : Z) : res bool :=
  if negb (existsGlobal s val) then Ok false
  else
    let iter := find (itv_single val) (set_ s) in
    match set_ s !! iter with
    | Some e => vtAssert (contains e val) (Ok true)
    | None => Ok false
    end.

Definition contains (s : IntegralSet) (val : Z) : res bool := exists_ s val.

Definition insertGlobal (s : IntegralSet) (i : Interval) : IntegralSet :=
  if elms_ s =? 0
  then ISet (lower i) (upper i) (set_ s) (hint_ s)
         (wrap size_t (elms_ s + Interval.width D i))
  else ISet (Z.min (lb_ s) (lower i)) (Z.max (ub_ s) (upper i)) (set_ s) (hint_ s)
         (wrap size_t (elms_ s + Interval.width D i)).

Definition eraseGlobal (s : IntegralSet) (val : Z) : IntegralSet :=
  let is_lower := lb_ s =? val in
  let is_upper := ub_ s =? val in
  let lb := if is_lower
            then match head (set_ s) with Some e => lower e | None => 0 end
            else lb_ s in
  let ub := if is_upper
            then match last (set_ s) with Some e => upper e | None => 0 end
            else ub_ s in
  ISet lb ub (set_ s) (hint_ s) (wrap size_t (elms_ s - 1)).

(** [joinLeft(it)]: the set and the iterator after fusing with the previous
    element. *)
Definition joinLeft (l : list Interval) (it : nat) : res (list Interval * nat) :=
  match l !! it with
  | None => Stop AssertFailed
  | Some cur =>
      match it with
      | O => Ok (l, it)
      | S p =>
          match l !! p with
          | Some prev =>
              match tangent D cur prev with
              | TangentLeft =>
                  fused ← join D cur prev TangentLeft;
                  Ok (<[p := fused]> (delete p l), p)
              | _ => Ok (l, it)
              end
          | None => Ok (l, it)
          end
      end
  end.

Definition joinRight (l : list Interval) (it : nat) : res (list Interval * nat) :=
  match l !! it with
  | None => Stop AssertFailed
  | Some cur =>
      match l !! S it with
      | None => Ok (l, it)
      | Some next =>
          match tangent D cur next with
          | TangentRight =>
              fused ← join D cur next TangentRight;
              Ok (<[it := fused]> (delete (S it) l), it)
          | _ => Ok (l, it)
          end
      end
  end.

Definition join (l : list Interval) (it : nat) : res (list Interval * nat) :=
  '(l, it2) ← joinLeft l it; joinRight l it2.

(** [insertSet(it, i)]; the assertion compares the returned iterator with the
    hint [it], which can coincide only when nothing was inserted. *)
Definition insertSet (s : IntegralSet) (it : nat) (i : Interval)
    : res (IntegralSet * nat) :=
  let '(l, ret, inserted) := set_insert i (set_ s) in
  vtAssert (inserted || negb (Nat.eqb ret it)) (
  '(l, h) ← join l ret;
  Ok (ISet (lb_ s) (ub_ s) l h (elms_ s), h)).

(** [insertInterval(i)]. *)
Definition insertInterval (s : IntegralSet) (i : Interval) : res (IntegralSet * nat) :=
  let iter := if elms_ s =? 0 then length (set_ s) else hint_ s in
  insertSet (insertGlobal s i) iter i.

Definition insert (s : IntegralSet) (val : Z) : res (IntegralSet * nat) :=
  insertInterval s (itv_single val).

(** [insertInterval(it, i)], with a caller's iterator. *)
Definition insertIntervalAt (s : IntegralSet) (it : nat) (i : Interval)
    : res (IntegralSet * nat) :=
  let s := insertGlobal s i in
  match set_ s !! it with
  | None => Stop AssertFailed
  | Some e =>
      let pos := tangent D e i in
      if negb (bool_decide (pos = NotTangent))
      then e' ← Interval.join D e i pos;
           Ok (ISet (lb_ s) (ub_ s) (<[it := e']> (set_ s)) (hint_ s) (elms_ s), it)
      else insertSet s it i
  end.

(** The body of [erase] once the interval [e] holding [val] is found at [iter]:
    drop it, move one of its ends, or slice it. *)
Definition eraseSet (s : IntegralSet) (iter : nat) (e : Interval) (val : Z)
    : res IntegralSet :=
  if Interval.width D e =? 1
  then
    (* set_.erase(iter) returns the element that follows *)
    let hint := if Nat.ltb iter (hint_ s) then Nat.pred (hint_ s) else hint_ s in
    Ok (ISet (lb_ s) (ub_ s) (delete iter (set_ s)) hint (elms_ s))
  else if upper e =? val
  then
    e' ← setUpper e (wrap D (upper e - 1));
    Ok (ISet (lb_ s) (ub_ s) (<[iter := e']> (set_ s)) (hint_ s) (elms_ s))
  else if lower e =? val
  then
    e' ← setLower e (wrap D (lower e + 1));
    Ok (ISet (lb_ s) (ub_ s) (<[iter := e']> (set_ s)) (hint_ s) (elms_ s))
  else
    vtAssert (2 <? Interval.width D e) (
    let ub := upper e in
    e' ← setUpper e (wrap D (val - 1));
    let s := ISet (lb_ s) (ub_ s) (<[iter := e']> (set_ s)) (hint_ s) (elms_ s) in
    '(s, _) ← insertSet s iter (Itv (wrap D (val + 1)) ub);
    Ok s).

(** [erase(val)]. *)
Definition erase (s : IntegralSet) (val : Z) : res IntegralSet :=
  vtAssert (existsGlobal s val) (
  let iter := find (itv_single val) (set_ s) in
  match set_ s !! iter with
  | None => Stop AssertFailed
  | Some e => s ← eraseSet s iter e val; Ok (eraseGlobal s val)
  end).

Definition clear (s : IntegralSet) : IntegralSet := ISet 0 0 [] 0 (elms_ s).

Definition range (s : IntegralSet) : Z := wrap D (ub_ s - lb_ s).
Definition lower (s : IntegralSet) : Z := lb_ s.
Definition upper (s : IntegralSet) : Z := ub_ s.
Definition empty (s : IntegralSet) : bool := elms_ s =? 0.
Definition size (s : IntegralSet) : Z := elms_ s.
Definition compressedSize (s : IntegralSet) : Z := Z.of_nat (length (set_ s)).

End Ops.

(** ** The set an [IntegralSet] stands for *)

Section Facts.
Context (D : ity).
(** The domain is an unsigned type that is not promoted ([EpochType::ImplType]
    is [uint64_t]). *)
Context (Hu : signed D = false) (Hw : 32 <= Prelude.width D <= 64).

Abbreviation wd := (Interval.width D).

(** Intervals that stay clear of the two extreme values, where the [+ 1] and
    [- 1] of [tangent] and [erase] wrap around. *)
Definition itv_ok (i : Interval) : Prop :=
  tmin D < Interval.lower i /\ Interval.lower i <= Interval.upper i /\
  Interval.upper i < tmax D.

Definition mem_itv (x : Z) (i : Interval) : Prop :=
  Interval.lower i <= x <= Interval.upper i.

Definition mem_list (l : list Interval) (x : Z) : Prop := Exists (mem_itv x) l.

(** Apart by more than one: neither intersecting nor tangent. *)
Definition gap (a b : Interval) : Prop := Interval.upper a + 1 < Interval.lower b.

Definition list_ok (l : list Interval) : Prop :=
  Forall itv_ok l /\ StronglySorted gap l.

Definition sumw (l : list Interval) : Z :=
  foldr (fun i acc => Interval.upper i - Interval.lower i + 1 + acc) 0 l.

Lemma tmin_0 : tmin D = 0.
Proof using Hu. unfold tmin. by rewrite Hu. Qed.

Lemma tmax_bound : 0 < tmax D < 2 ^ 64.
Proof using Hu Hw.
  unfold tmax. rewrite Hu.
  pose proof (Z.pow_le_mono_r 2 (Prelude.width D) 64 ltac:(lia) ltac:(lia)).
  pose proof (Z.pow_le_mono_r 2 32 (Prelude.width D) ltac:(lia) ltac:(lia)).
  change (2 ^ 32) with 4294967296 in *. lia.
Qed.

Lemma wrapD_id x : tmin D <= x <= tmax D -> wrap D x = x.
Proof using Hw. intros H. apply wrap_id; [unfold ity_ok; lia|done]. Qed.

Lemma width_val i : itv_ok i -> wd i = Interval.upper i - Interval.lower i + 1.
Proof using Hu Hw.
  unfold itv_ok, Interval.width. rewrite tmin_0. intros H.
  rewrite (wrapD_id (_ - _)), wrapD_id; rewrite ?tmin_0; lia.
Qed.

Lemma tangent_val a b :
  itv_ok a -> itv_ok b ->
  tangent D a b =
  if Interval.lower a =? Interval.upper b + 1 then TangentLeft
  else if Interval.upper a =? Interval.lower b - 1 then TangentRight else NotTangent.
Proof using Hw.
  unfold itv_ok, tangent. intros Ha Hb. rewrite !wrapD_id by lia. done.
Qed.

Lemma list_ok_app l1 l2 :
  list_ok (l1 ++ l2) <->
  list_ok l1 /\ list_ok l2 /\ forall a b, a ∈ l1 -> b ∈ l2 -> gap a b.
Proof.
  unfold list_ok. rewrite Forall_app.
  induction l1 as [|a l1 IH]; simpl.
  - split; [|tauto]. intros [[_ H1] H2].
    repeat (split; try done); try constructor.
    intros a b Ha. by apply not_elem_of_nil in Ha.
  - rewrite !Forall_cons. split.
    + intros [[[Ha H1] H2] Hs]. apply StronglySorted_inv in Hs as [Hs' Hf].
      apply Forall_app in Hf as [Hf1 Hf2].
      assert ((Forall itv_ok l1 /\ Forall itv_ok l2) /\ StronglySorted gap (l1 ++ l2)) as H
        by done.
      apply IH in H as ([? ?] & [? ?] & Hg).
      split_and!; try done; [by constructor|]. intros x b Hx Hb.
      apply elem_of_cons in Hx as [->|Hx]; [|by apply Hg].
      rewrite Forall_forall in Hf2. by apply Hf2.
    + intros ([[Ha H1] Hs] & [H2 Hs2] & Hg). apply StronglySorted_inv in Hs as [Hs' Hf].
      split_and!; try done. constructor.
      * apply IH. split_and!; try done. intros x b Hx Hb. apply Hg; [by right|done].
      * apply Forall_app. split; [done|]. apply Forall_forall. intros b Hb.
        apply Hg; [by left|done].
Qed.

Lemma list_ok_cons a l :
  list_ok (a :: l) <-> itv_ok a /\ list_ok l /\ forall b, b ∈ l -> gap a b.
Proof.
  unfold list_ok. rewrite Forall_cons. split.
  - intros [[? ?] Hs]. apply StronglySorted_inv in Hs as [? Hf].
    rewrite Forall_forall in Hf. by split_and!.
  - intros (? & [? ?] & Hg). split; [done|]. constructor; [done|]. by apply Forall_forall.
Qed.

Lemma list_ok_elem l e : list_ok l -> e ∈ l -> itv_ok e.
Proof. intros [Hf _]. rewrite Forall_forall in Hf. apply Hf. Qed.

Lemma mem_list_app l1 l2 x : mem_list (l1 ++ l2) x <-> mem_list l1 x \/ mem_list l2 x.
Proof. apply Exists_app. Qed.

Lemma mem_list_cons e l x : mem_list (e :: l) x <-> mem_itv x e \/ mem_list l x.
Proof. apply Exists_cons. Qed.

Lemma mem_list_nil x : mem_list [] x <-> False.
Proof. apply Exists_nil. Qed.

Lemma mem_list_elem l x : mem_list l x <-> exists e, e ∈ l /\ mem_itv x e.
Proof. unfold mem_list. by rewrite Exists_exists. Qed.

Lemma sumw_app l1 l2 : sumw (l1 ++ l2) = sumw l1 + sumw l2.
Proof. induction l1; simpl; lia. Qed.

(** The elements of a well-formed list fit between a lower bound and the
    domain's maximum, so their number does too. *)
Lemma sumw_bound l lo :
  list_ok l -> 0 <= lo <= tmax D -> (forall e, e ∈ l -> lo < Interval.lower e) ->
  0 <= sumw l <= tmax D - lo.
Proof.
  revert lo. induction l as [|a l IH]; intros lo Hok Hlo Hl; simpl; [lia|].
  apply list_ok_cons in Hok as ((Ha1 & Ha2 & Ha3) & Hok & Hg).
  assert (lo < Interval.lower a) by (apply Hl; by left).
  assert (0 <= sumw l <= tmax D - Interval.upper a).
  { apply IH; [done|lia|]. intros e He. specialize (Hg e He). unfold gap in Hg. lia. }
  lia.
Qed.

Lemma sumw_range l : list_ok l -> 0 <= sumw l < 2 ^ 64.
Proof using Hu Hw.
  intros Hok. pose proof tmax_bound.
  assert (0 <= sumw l <= tmax D - 0); [|lia].
  apply sumw_bound; [done|lia|]. intros e He.
  pose proof (list_ok_elem _ _ Hok He) as (H1 & _ & _). by rewrite tmin_0 in H1.
Qed.

Lemma sumw_pos e l : list_ok (e :: l) -> 0 < sumw (e :: l).
Proof using Hu Hw.
  intros Hok. pose proof Hok as ((_ & H2 & _) & Hl & _)%list_ok_cons.
  pose proof (sumw_range _ Hl). simpl. lia.
Qed.

(** ** The ordered set *)

(** Every list splits at the first element that reaches [x]. *)
Lemma split_at l x :
  list_ok l -> exists l1 l2, l = l1 ++ l2 /\
  (forall e, e ∈ l1 -> Interval.upper e < x) /\
  (forall e, e ∈ l2 -> x <= Interval.upper e).
Proof.
  induction l as [|a l IH]; intros Hok.
  - exists [], []. split_and!; [done|..]; intros e He; by apply not_elem_of_nil in He.
  - apply list_ok_cons in Hok as (Ha & Hok & Hg).
    destruct (decide (Interval.upper a < x)).
    + destruct (IH Hok) as (l1 & l2 & -> & H1 & H2). exists (a :: l1), l2.
      split_and!; [done| |done]. intros e [->|He]%elem_of_cons; [done|by apply H1].
    + exists [], (a :: l). split_and!; [done|..].
      * intros e He. by apply not_elem_of_nil in He.
      * intros e [->|He]%elem_of_cons; [lia|].
        specialize (Hg e He). destruct (list_ok_elem _ _ Hok He) as (? & ? & ?).
        unfold gap in Hg. lia.
Qed.

Lemma lower_bound_split l1 l2 j :
  list_ok (l1 ++ l2) ->
  (forall e, e ∈ l1 -> Interval.upper e < Interval.lower j) ->
  (forall e, e ∈ l2 -> Interval.lower j <= Interval.upper e) ->
  lower_bound j (l1 ++ l2) = length l1.
Proof.
  induction l1 as [|a l1 IH]; simpl; intros Hok H1 H2.
  - destruct l2 as [|b l2]; [done|]. simpl. specialize (H2 b ltac:(by left)).
    unfold less. case_Zbs; simpl; try done; lia.
  - apply list_ok_cons in Hok as ((? & ? & ?) & Hok & _).
    specialize (H1 a ltac:(by left)) as Ha.
    assert (less a j = true) as -> by (unfold less; case_Zbs; simpl; try done; lia).
    f_equal. apply IH; [done| |done]. intros e He. apply H1. by right.
Qed.

(** Looking up a value finds the interval that holds it, if any. *)
Lemma find_mem l1 e l2 x :
  list_ok (l1 ++ e :: l2) -> mem_itv x e ->
  find (itv_single x) (l1 ++ e :: l2) = length l1.
Proof.
  intros Hok Hx. pose proof Hok as (_ & (He & H2 & Hg2)%list_ok_cons & Hg)%list_ok_app.
  unfold find. rewrite lower_bound_split; [|done|..].
  - rewrite list_lookup_middle by done. unfold less, mem_itv in *. simpl.
    case_Zbs; simpl; try done; lia.
  - intros a Ha. specialize (Hg a e Ha ltac:(by left)). unfold gap, mem_itv in *. simpl. lia.
  - simpl. unfold mem_itv in Hx. intros b [->|Hb]%elem_of_cons; [lia|].
    specialize (Hg2 b Hb). destruct (list_ok_elem _ _ H2 Hb) as (? & ? & ?).
    unfold gap in Hg2. lia.
Qed.

Lemma find_not_mem l x :
  list_ok l -> ~ mem_list l x -> find (itv_single x) l = length l.
Proof.
  intros Hok Hx. destruct (split_at l x Hok) as (l1 & l2 & -> & H1 & H2).
  unfold find. rewrite lower_bound_split by done.
  destruct l2 as [|b l2]; [by rewrite app_nil_r, lookup_ge_None_2|].
  rewrite list_lookup_middle by done.
  specialize (H2 b ltac:(by left)).
  assert (x < Interval.lower b) as Hlt.
  { destruct (decide (x < Interval.lower b)); [done|]. destruct Hx.
    apply mem_list_app. right. apply mem_list_cons. left. unfold mem_itv. lia. }
  unfold less. simpl. case_Zbs; simpl; try done; lia.
Qed.

(** An interval disjoint from the set goes between the elements below it and
    the elements above it. *)
Lemma set_insert_disjoint l i :
  list_ok l -> itv_ok i -> (forall x, mem_itv x i -> ~ mem_list l x) ->
  exists l1 l2, l = l1 ++ l2 /\
    set_insert i l = (l1 ++ i :: l2, length l1, true) /\
    (forall a, a ∈ l1 -> Interval.upper a < Interval.lower i) /\
    (forall b, b ∈ l2 -> Interval.upper i < Interval.lower b).
Proof.
  intros Hok (_ & Hi & _) Hd.
  destruct (split_at l (Interval.lower i) Hok) as (l1 & l2 & -> & H1 & H2).
  assert (forall b, b ∈ l2 -> Interval.upper i < Interval.lower b) as H2'.
  { intros b Hb. specialize (H2 b Hb).
    destruct (decide (Interval.upper i < Interval.lower b)); [done|].
    assert (exists x, mem_itv x i /\ mem_itv x b) as (x & Hxi & Hxb).
    { exists (Z.max (Interval.lower i) (Interval.lower b)).
      apply list_ok_app in Hok as (_ & Hok & _).
      destruct (list_ok_elem _ _ Hok Hb) as (? & ? & ?). unfold mem_itv. lia. }
    destruct (Hd x Hxi). apply mem_list_app. right. apply mem_list_elem. eauto. }
  exists l1, l2. split_and!; [done| |done|done].
  unfold set_insert. rewrite lower_bound_split by done.
  rewrite take_app_length, drop_app_length.
  destruct l2 as [|b l2]; [by rewrite app_nil_r, lookup_ge_None_2|].
  rewrite list_lookup_middle by done. specialize (H2' b ltac:(by left)).
  specialize (H2 b ltac:(by left)).
  assert (less i b = true) as -> by (unfold less; case_Zbs; simpl; try done; lia). done.
Qed.

(** ** Fusing tangent neighbours *)

(** The parts of a list around a fused element: well-formed, with the members
    and the count of the parts before. *)
Definition around (l1 : list Interval) (j : Interval) (l2 : list Interval) : Prop :=
  list_ok l1 /\ itv_ok j /\ list_ok l2 /\
  (forall a, a ∈ l1 -> Interval.upper a < Interval.lower j) /\
  (forall b, b ∈ l2 -> Interval.upper j < Interval.lower b) /\
  (forall a b, a ∈ l1 -> b ∈ l2 -> gap a b).

Lemma mem_itv_fuse a b x :
  Interval.lower a <= Interval.upper a -> Interval.lower b <= Interval.upper b ->
  Interval.lower b = Interval.upper a + 1 ->
  mem_itv x (Itv (Interval.lower a) (Interval.upper b)) <-> mem_itv x a \/ mem_itv x b.
Proof. unfold mem_itv. simpl. lia. Qed.

Lemma joinLeft_spec l1 j l2 :
  around l1 j l2 ->
  exists l1' j', joinLeft D (l1 ++ j :: l2) (length l1) = Ok (l1' ++ j' :: l2, length l1') /\
    around l1' j' l2 /\ (forall a, a ∈ l1' -> gap a j') /\
    (forall x, mem_list (l1' ++ j' :: l2) x <-> mem_list (l1 ++ j :: l2) x) /\
    sumw (l1' ++ j' :: l2) = sumw (l1 ++ j :: l2).
Proof.
  intros (Hl1 & Hj & Hl2 & Hlt & Hgt & Hg). unfold joinLeft.
  rewrite list_lookup_middle by done.
  destruct (list_snoc_cases l1) as [->|(l1' & p & ->)]; [|rename l1' into l1].
  { exists [], j. split_and!; try done.
    intros a Ha. by apply not_elem_of_nil in Ha. }
  pose proof Hl1 as (Hl1' & [Hp _]%list_ok_cons & Hg1)%list_ok_app.
  pose proof (Hlt p ltac:(elems)) as Hpj.
  rewrite length_app, Nat.add_1_r. rewrite <- (app_assoc l1 [p]). simpl.
  rewrite list_lookup_middle by done. rewrite tangent_val by done.
  destruct (Z.eqb_spec (Interval.lower j) (Interval.upper p + 1)) as [Ht|Ht].
  - exists l1, (Itv (Interval.lower p) (Interval.upper j)).
    unfold itv_ok in Hp, Hj. unfold Interval.join.
    rewrite wrapD_id, vtAssert_true, res_bind_Ok by lia.
    rewrite delete_middle, list_insert_middle.
    split_and!; [done| | | |].
    + unfold around, itv_ok. simpl. split_and!; try lia; try done.
      * intros a Ha. specialize (Hg1 a p Ha ltac:(by left)). unfold gap in Hg1. lia.
      * intros a b Ha Hb. apply Hg; elems.
    + intros a Ha. apply (Hg1 a p Ha). by left.
    + intros x. rewrite !mem_list_app, !mem_list_cons.
      rewrite (mem_itv_fuse p j) by lia. tauto.
    + rewrite !sumw_app. simpl. lia.
  - exists (l1 ++ [p]), j. unfold around.
    rewrite <- (app_assoc l1 [p]). simpl. rewrite length_app, Nat.add_1_r.
    split_and!; try done.
    + by destruct (Interval.upper j =? Interval.lower p - 1).
    + intros a Ha. specialize (Hlt a Ha).
      apply elem_of_app in Ha as [Ha|Ha%list_elem_of_singleton].
      * specialize (Hg1 a p Ha ltac:(by left)). unfold gap, itv_ok in *. lia.
      * subst. unfold gap. lia.
Qed.

Lemma joinRight_spec l1 j l2 :
  around l1 j l2 -> (forall a, a ∈ l1 -> gap a j) ->
  exists j' l2', joinRight D (l1 ++ j :: l2) (length l1) = Ok (l1 ++ j' :: l2', length l1) /\
    list_ok (l1 ++ j' :: l2') /\
    (forall x, mem_list (l1 ++ j' :: l2') x <-> mem_list (l1 ++ j :: l2) x) /\
    sumw (l1 ++ j' :: l2') = sumw (l1 ++ j :: l2).
Proof.
  intros (Hl1 & Hj & Hl2 & _ & Hgt & Hg) Hgl. unfold joinRight.
  rewrite list_lookup_middle by done.
  rewrite (lookup_app_r l1 _ (S (length l1))) by lia.
  replace (S (length l1) - length l1)%nat with 1%nat by lia.
  destruct l2 as [|n l2]; simpl.
  { exists j, []. split_and!; try done.
    apply list_ok_app. split_and!; [done|apply list_ok_cons; split_and!; auto with vt|].
    intros a b Ha ->%list_elem_of_singleton. by apply Hgl. }
  pose proof Hl2 as (Hn & Hl2' & Hgn)%list_ok_cons.
  pose proof (Hgt n ltac:(by left)) as Hjn.
  unfold itv_ok in Hj, Hn. rewrite tangent_val by done.
  assert ((Interval.lower j =? Interval.upper n + 1) = false) as -> by lia.
  destruct (Z.eqb_spec (Interval.upper j) (Interval.lower n - 1)) as [Ht|Ht].
  - exists (Itv (Interval.lower j) (Interval.upper n)), l2. unfold Interval.join.
    rewrite wrapD_id, vtAssert_true, res_bind_Ok by lia.
    assert (delete (S (length l1)) (l1 ++ j :: n :: l2) = l1 ++ j :: l2) as ->.
    { replace (l1 ++ j :: n :: l2) with ((l1 ++ [j]) ++ n :: l2) by (by rewrite <- app_assoc).
      replace (S (length l1)) with (length (l1 ++ [j])) by (rewrite length_app; simpl; lia).
      rewrite delete_middle, <- app_assoc. done. }
    rewrite list_insert_middle. split_and!; [done| | |].
    + apply list_ok_app. split_and!; [done| |].
      * apply list_ok_cons. unfold itv_ok. simpl. split_and!; try lia; done.
      * intros a b Ha [->|Hb]%elem_of_cons; [|apply Hg; [done|by right]].
        specialize (Hgl a Ha). unfold gap in *. simpl. lia.
    + intros x. rewrite !mem_list_app, !mem_list_cons.
      rewrite (mem_itv_fuse j n) by lia. tauto.
    + rewrite !sumw_app. simpl. lia.
  - exists j, (n :: l2). split_and!; try done.
    apply list_ok_app. split_and!; [done| |].
    + apply list_ok_cons. split_and!; [done..|].
      intros b [->|Hb]%elem_of_cons; unfold gap in *; [lia|].
      specialize (Hgn b Hb). unfold gap in Hgn. lia.
    + intros a b Ha [->|Hb]%elem_of_cons; [by apply Hgl|by apply Hg].
Qed.

(** Inserting a disjoint interval into the ordered set and fusing it with its
    neighbours. *)
Lemma insertSet_spec s it i :
  list_ok (set_ s) -> itv_ok i -> (forall x, mem_itv x i -> ~ mem_list (set_ s) x) ->
  exists l h, insertSet D s it i = Ok (ISet (lb_ s) (ub_ s) l h (elms_ s), h) /\
    list_ok l /\ (h < length l)%nat /\
    (forall x, mem_list l x <-> mem_list (set_ s) x \/ mem_itv x i) /\
    sumw l = sumw (set_ s) + (Interval.upper i - Interval.lower i + 1).
Proof.
  intros Hok Hi Hd. destruct (set_insert_disjoint _ _ Hok Hi Hd)
    as (l1 & l2 & Hl & Hins & H1 & H2).
  unfold insertSet. rewrite Hins. rewrite vtAssert_true by done.
  rewrite Hl in Hok. pose proof Hok as (Ho1 & Ho2 & Hg)%list_ok_app.
  destruct (joinLeft_spec l1 i l2) as (l1' & j & HjL & Har & Hgl & Hm1 & Hs1).
  { by split_and!. }
  destruct (joinRight_spec l1' j l2 Har Hgl) as (j' & l2' & HjR & Hok' & Hm2 & Hs2).
  unfold join. rewrite HjL, res_bind_Ok, HjR, res_bind_Ok.
  eexists _, _. split_and!; [done|done|rewrite length_app; simpl; lia|..].
  - intros x. rewrite Hm2, Hm1, Hl, !mem_list_app, mem_list_cons. tauto.
  - rewrite Hs2, Hs1, Hl, !sumw_app. simpl. lia.
Qed.

(** ** The representation invariant and the operations *)

(** Membership in the set represented. *)
Definition mem (s : IntegralSet) (x : Z) : Prop := mem_list (set_ s) x.

Record wf (s : IntegralSet) : Prop := {
  wf_list : list_ok (set_ s);
  wf_elms : elms_ s = sumw (set_ s);
  wf_lower : set_ s <> [] -> mem s (lb_ s);
  wf_upper : set_ s <> [] -> mem s (ub_ s);
  wf_range : forall x, mem s x -> lb_ s <= x <= ub_ s;
  wf_hint : (hint_ s <= length (set_ s))%nat
}.

Lemma wf_empty : wf iset_empty.
Proof.
  split; simpl; try done; [split; constructor|].
  intros x Hx. by apply mem_list_nil in Hx.
Qed.

Lemma elms_0_iff s : wf s -> elms_ s = 0 <-> set_ s = [].
Proof.
  intros [Hok -> _ _ _]. destruct (set_ s) as [|e l]; [done|].
  pose proof (sumw_pos _ _ Hok). split; [lia|done].
Qed.

Lemma mem_dec_list l x : {mem_list l x} + {~ mem_list l x}.
Proof.
  unfold mem_list. destruct (decide (Exists (mem_itv x) l)); [by left|by right].
Qed.

Lemma mem_ok s x : wf s -> mem s x -> tmin D < x < tmax D.
Proof.
  intros Hwf (e & He & Hx)%mem_list_elem.
  destruct (list_ok_elem _ _ (wf_list _ Hwf) He) as (? & ? & ?). unfold mem_itv in Hx. lia.
Qed.

(** Adding an interval disjoint from the set. *)
Lemma insertInterval_spec s i :
  wf s -> itv_ok i -> (forall x, mem_itv x i -> ~ mem s x) ->
  exists s' it, insertInterval D s i = Ok (s', it) /\ wf s' /\
    (forall x, mem s' x <-> mem s x \/ mem_itv x i) /\
    size s' = size s + (Interval.upper i - Interval.lower i + 1) /\
    (it < length (set_ s'))%nat.
Proof.
  intros Hwf Hi Hd. pose proof Hwf as [Hok Hel Hl Hu' Hr Hh].
  unfold insertInterval.
  set (it := if elms_ s =? 0 then length (set_ s) else hint_ s).
  set (g := insertGlobal D s i).
  assert (set_ g = set_ s) as Hset by (unfold g, insertGlobal; by case_match).
  destruct (insertSet_spec g it i) as (l & h & -> & Hok' & Hh' & Hm & Hs);
    rewrite ?Hset in *; try done.
  pose proof Hi as (_ & Hil & _).
  assert (elms_ g = sumw l) as Hg.
  { rewrite Hs. transitivity (wrap size_t (elms_ s + wd i));
      [unfold g, insertGlobal; by case_match|].
    rewrite width_val, Hel, <- Hs by done. apply wrap_u_small; [done|].
    apply sumw_range, Hok'. }
  assert (mem_itv (Interval.lower i) i /\ mem_itv (Interval.upper i) i) as [Hil' Hiu']
    by (unfold mem_itv; lia).
  eexists _, h. split; [done|]. split; [|split; [done|split; [unfold size; simpl; lia|done]]].
  pose proof (elms_0_iff s Hwf) as H0.
  unfold g, insertGlobal in *. destruct (Z.eqb_spec (elms_ s) 0) as [He|He]; simpl in *.
  - apply H0 in He. split; simpl; try done; try lia; unfold mem; simpl.
    + intros _. apply Hm. by right.
    + intros _. apply Hm. by right.
    + intros x. rewrite Hm, He, mem_list_nil. unfold mem_itv. tauto.
  - assert (set_ s <> []) as Hne by tauto.
    specialize (Hl Hne). specialize (Hu' Hne).
    split; simpl; try done; try lia; unfold mem; simpl.
    + intros _. apply Hm. destruct (Z.min_spec (lb_ s) (Interval.lower i)) as [[_ ->]|[_ ->]];
        [by left|by right].
    + intros _. apply Hm. destruct (Z.max_spec (ub_ s) (Interval.upper i)) as [[_ ->]|[_ ->]];
        [by right|by left].
    + intros x [Hx%Hr|Hx]%Hm; [|unfold mem_itv in Hx]; lia.
Qed.

(** A value outside the set stops [erase] at its first or second assertion. *)
Lemma erase_not_mem s v : wf s -> ~ mem s v -> erase D s v = Stop AssertFailed.
Proof.
  intros Hwf Hv. unfold erase. destruct (existsGlobal s v); [|done]. simpl.
  rewrite find_not_mem by (done || apply Hwf). by rewrite lookup_ge_None_2.
Qed.

(** [exists] and [contains] decide membership. *)
Lemma exists_spec s v :
  wf s -> exists_ s v = Ok (if mem_dec_list (set_ s) v then true else false).
Proof.
  intros Hwf. unfold exists_, existsGlobal.
  destruct (mem_dec_list (set_ s) v) as [Hv|Hv].
  - pose proof (wf_range _ Hwf v Hv) as Hr.
    assert ((lb_ s <=? v) && (v <=? ub_ s) = true) as -> by lia. simpl.
    apply mem_list_elem in Hv as (e & He & Hx).
    apply list_elem_of_split in He as (l1 & l2 & Hl). rewrite Hl.
    pose proof (wf_list _ Hwf) as Hok. rewrite Hl in Hok.
    rewrite (find_mem l1 e l2) by done. rewrite list_lookup_middle by done.
    apply vtAssert_true. unfold Interval.contains, mem_itv in *. lia.
  - destruct ((lb_ s <=? v) && (v <=? ub_ s)); [simpl|done].
    rewrite find_not_mem by (done || apply Hwf). by rewrite lookup_ge_None_2.
Qed.

(** The first element holds the minimum of the set, the last one the maximum. *)
Lemma head_min e l :
  list_ok (e :: l) ->
  mem_list (e :: l) (Interval.lower e) /\
  forall x, mem_list (e :: l) x -> Interval.lower e <= x.
Proof.
  intros ((_ & He & _) & Hl & Hg)%list_ok_cons. split.
  - apply mem_list_cons. left. unfold mem_itv. lia.
  - intros x [Hx|(b & Hb & Hx)%mem_list_elem]%mem_list_cons; unfold mem_itv in Hx; [lia|].
    specialize (Hg b Hb). unfold gap in Hg. lia.
Qed.

Lemma last_max e l :
  list_ok (l ++ [e]) ->
  mem_list (l ++ [e]) (Interval.upper e) /\
  forall x, mem_list (l ++ [e]) x -> x <= Interval.upper e.
Proof.
  intros (Hl & [(_ & He & _) _]%list_ok_cons & Hg)%list_ok_app. split.
  - apply mem_list_app. right. apply mem_list_cons. left. unfold mem_itv. lia.
  - intros x [(b & Hb & Hx)%mem_list_elem|Hx]%mem_list_app.
    + specialize (Hg b e Hb ltac:(by left)). unfold gap, mem_itv in *. lia.
    + apply mem_list_cons in Hx as [Hx|[]%mem_list_nil]. unfold mem_itv in Hx. lia.
Qed.

Lemma eraseGlobal_wf s v l h :
  wf s -> mem s v -> list_ok l -> (h <= length l)%nat ->
  (forall x, mem_list l x <-> mem s x /\ x <> v) -> sumw l = sumw (set_ s) - 1 ->
  wf (eraseGlobal (ISet (lb_ s) (ub_ s) l h (elms_ s)) v).
Proof.
  intros Hwf Hv Hok Hh Hm Hs. pose proof Hwf as [_ Hel Hl Hu' Hr _].
  assert (set_ s <> []) as Hne.
  { intros He. unfold mem in Hv. rewrite He in Hv. by apply mem_list_nil in Hv. }
  specialize (Hl Hne). specialize (Hu' Hne).
  unfold eraseGlobal. simpl. split; simpl; unfold mem; simpl; [done|..|done].
  - rewrite Hel, <- Hs. apply wrap_u_small; [done|]. by apply sumw_range.
  - intros Hne'. destruct (Z.eqb_spec (lb_ s) v) as [_|Hn]; [|by apply Hm].
    destruct l as [|e l]; [done|]. by apply head_min.
  - intros Hne'. destruct (Z.eqb_spec (ub_ s) v) as [_|Hn]; [|by apply Hm].
    destruct (list_snoc_cases l) as [->|(l' & e & ->)]; [done|].
    rewrite last_snoc. by apply last_max.
  - intros x Hx. pose proof Hx as [Hxs Hxv]%Hm. apply Hr in Hxs. split.
    + destruct (lb_ s =? v); [|lia]. destruct l as [|e l]; [by apply mem_list_nil in Hx|].
      by apply (head_min e l).
    + destruct (ub_ s =? v); [|lia].
      destruct (list_snoc_cases l) as [->|(l' & e & ->)]; [by apply mem_list_nil in Hx|].
      rewrite last_snoc. by apply (last_max e l').
Qed.

(** Replacing an interval by a smaller one, or dropping it, keeps the list
    well-formed. *)
Lemma list_ok_shrink l1 e e' l2 :
  list_ok (l1 ++ e :: l2) -> itv_ok e' ->
  Interval.lower e <= Interval.lower e' -> Interval.upper e' <= Interval.upper e ->
  list_ok (l1 ++ e' :: l2).
Proof.
  intros (H1 & (He & H2 & Hg2)%list_ok_cons & Hg)%list_ok_app He' Hl Hr.
  apply list_ok_app. split_and!; [done| |].
  - apply list_ok_cons. split_and!; [done..|]. intros b Hb.
    specialize (Hg2 b Hb). unfold gap in *. lia.
  - intros a b Ha [->|Hb]%elem_of_cons; [|apply Hg; elems].
    specialize (Hg a e Ha ltac:(by left)). unfold gap in *. lia.
Qed.

Lemma list_ok_drop l1 e l2 : list_ok (l1 ++ e :: l2) -> list_ok (l1 ++ l2).
Proof.
  intros (H1 & (He & H2 & Hg2)%list_ok_cons & Hg)%list_ok_app.
  apply list_ok_app. split_and!; [done..|]. intros a b Ha Hb. apply Hg; elems.
Qed.

(** Members of the other intervals are not members of this one. *)
Lemma mem_others l1 e l2 x :
  list_ok (l1 ++ e :: l2) -> mem_itv x e -> ~ mem_list (l1 ++ l2) x.
Proof.
  intros (H1 & (He & H2 & Hg2)%list_ok_cons & Hg)%list_ok_app Hx.
  intros [(b & Hb & Hxb)%mem_list_elem|(b & Hb & Hxb)%mem_list_elem]%mem_list_app;
    unfold mem_itv in *.
  - specialize (Hg b e Hb ltac:(by left)). unfold gap in Hg. lia.
  - specialize (Hg2 b Hb). unfold gap in Hg2. lia.
Qed.

Lemma mem_middle l1 e l2 x :
  mem_list (l1 ++ e :: l2) x <-> mem_itv x e \/ mem_list (l1 ++ l2) x.
Proof. rewrite !mem_list_app, mem_list_cons. tauto. Qed.

Lemma sumw_middle l1 e l2 :
  sumw (l1 ++ e :: l2) = sumw (l1 ++ l2) + (Interval.upper e - Interval.lower e + 1).
Proof. rewrite !sumw_app. simpl. lia. Qed.

Lemma set_upper_Ok e v :
  Interval.lower e <= v -> setUpper e v = Ok (Itv (Interval.lower e) v).
Proof.
  intros H. unfold setUpper, valid. simpl. by rewrite !vtAssert_true by lia.
Qed.

Lemma set_lower_Ok e v :
  v <= Interval.upper e -> setLower e v = Ok (Itv v (Interval.upper e)).
Proof.
  intros H. unfold setLower, valid. simpl. by rewrite !vtAssert_true by lia.
Qed.

(** The three ways the interval at [iter] gives up [v] agree on the members and
    on the count. *)
Lemma eraseSet_spec s v l1 e l2 :
  wf s -> set_ s = l1 ++ e :: l2 -> mem_itv v e ->
  exists l h, eraseSet D s (length l1) e v = Ok (ISet (lb_ s) (ub_ s) l h (elms_ s)) /\
    list_ok l /\ (h <= length l)%nat /\
    (forall x, mem_list l x <-> mem s x /\ x <> v) /\ sumw l = sumw (set_ s) - 1.
Proof.
  intros Hwf Hl Hx. pose proof Hwf as [Hok _ _ _ _ Hh].
  rewrite Hl in Hok. rewrite Hl, length_app in Hh. simpl in Hh.
  pose proof Hok as (_ & (Hei & _)%list_ok_cons & _)%list_ok_app.
  pose proof (mem_others _ _ _ v Hok Hx) as Hno.
  unfold mem. setoid_rewrite Hl. setoid_rewrite mem_middle. rewrite sumw_middle.
  assert (forall x A, (A <-> mem_itv x e /\ x <> v) ->
    A \/ mem_list (l1 ++ l2) x <-> (mem_itv x e \/ mem_list (l1 ++ l2) x) /\ x <> v) as Hmm.
  { intros x A HA. assert (x = v -> ~ mem_list (l1 ++ l2) x) by (by intros ->). tauto. }
  unfold eraseSet. rewrite Hl. pose proof Hei as Hei'.
  unfold itv_ok in Hei'. unfold mem_itv in Hx, Hmm. rewrite width_val by done.
  destruct (Z.eqb_spec (Interval.upper e - Interval.lower e + 1) 1);
    [|destruct (Z.eqb_spec (Interval.upper e) v);
      [|destruct (Z.eqb_spec (Interval.lower e) v)]].
  - eexists _, _. rewrite delete_middle. split; [done|].
    split_and!; [by eapply list_ok_drop| |intros x|lia].
    + rewrite length_app. destruct (Nat.ltb_spec (length l1) (hint_ s)); lia.
    + specialize (Hmm x False). rewrite <- Hmm by lia. tauto.
  - rewrite wrapD_id, set_upper_Ok, res_bind_Ok by lia.
    eexists _, _. rewrite list_insert_middle. split; [done|].
    split_and!; [|by rewrite length_app|intros x; rewrite mem_middle; apply Hmm|].
    + eapply list_ok_shrink; [done|..]; unfold itv_ok; simpl; lia.
    + unfold mem_itv. simpl. lia.
    + rewrite sumw_middle. simpl. lia.
  - rewrite wrapD_id, set_lower_Ok, res_bind_Ok by lia.
    eexists _, _. rewrite list_insert_middle. split; [done|].
    split_and!; [|by rewrite length_app|intros x; rewrite mem_middle; apply Hmm|].
    + eapply list_ok_shrink; [done|..]; unfold itv_ok; simpl; lia.
    + unfold mem_itv. simpl. lia.
    + rewrite sumw_middle. simpl. lia.
  - rewrite vtAssert_true by lia. rewrite !wrapD_id, set_upper_Ok, res_bind_Ok by lia.
    cbv zeta. rewrite list_insert_middle.
    set (e1 := Itv (Interval.lower e) (v - 1)). set (e2 := Itv (v + 1) (Interval.upper e)).
    assert (itv_ok e2) as He2 by (unfold itv_ok; simpl; lia).
    assert (list_ok (l1 ++ e1 :: l2)) as Hok1
      by (eapply list_ok_shrink; [done|..]; unfold itv_ok; simpl; lia).
    destruct (insertSet_spec (ISet (lb_ s) (ub_ s) (l1 ++ e1 :: l2) (hint_ s) (elms_ s))
      (length l1) e2) as (l & h & -> & Hok' & Hh' & Hm & Hs); [done..| |].
    { intros x Hx2 [Hx1|Hx1]%mem_middle; unfold mem_itv in *; simpl in *; [lia|].
      apply (mem_others l1 e l2 x); [done|unfold mem_itv; lia|done]. }
    rewrite res_bind_Ok. simpl in *. exists l, h.
    split_and!; [done|done|lia| |].
    + intros x. rewrite Hm, mem_middle.
      assert (forall A B C : Prop, (A \/ B) \/ C <-> (A \/ C) \/ B) as -> by tauto.
      apply Hmm. unfold mem_itv. simpl. lia.
    + rewrite Hs, sumw_middle. simpl. lia.
Qed.

(** Removing a member: the interval that holds it disappears, loses one end, or
    is sliced in two. *)
Lemma erase_spec s v :
  wf s -> mem s v ->
  exists s', erase D s v = Ok s' /\ wf s' /\
    (forall x, mem s' x <-> mem s x /\ x <> v) /\ size s' = size s - 1.
Proof.
  intros Hwf Hv. pose proof Hwf as [Hok Hel _ _ Hr _].
  pose proof (Hr v Hv) as Hv'. unfold erase, existsGlobal.
  rewrite vtAssert_true by lia.
  pose proof Hv as (e & (l1 & l2 & Hl)%list_elem_of_split & Hx)%mem_list_elem.
  destruct (eraseSet_spec s v l1 e l2 Hwf Hl Hx) as (l & h & Hes & Hok' & Hh & Hm & Hs).
  rewrite Hl in Hok. cbv zeta. rewrite Hl.
  rewrite (find_mem l1 e l2), list_lookup_middle by done.
  rewrite Hes, res_bind_Ok. eexists. split; [done|].
  split; [by apply eraseGlobal_wf|]. split; [done|].
  unfold size. simpl. rewrite Hel, <- Hs. apply wrap_u_small; [done|].
  by apply sumw_range.
Qed.

(** ** Canonical form *)

Lemma tail_mem e l x :
  list_ok (e :: l) -> mem_list l x <-> mem_list (e :: l) x /\ Interval.upper e < x.
Proof.
  intros (He & Hl & Hg)%list_ok_cons. rewrite mem_list_cons. split.
  - intros Hx. split; [by right|]. apply mem_list_elem in Hx as (b & Hb & Hx).
    specialize (Hg b Hb). unfold gap, mem_itv in *. lia.
  - intros [[Hx|Hx] ?]; [unfold mem_itv in Hx; lia|done].
Qed.

(** The first interval is as long as the set allows. *)
Lemma head_upper e l e' l' :
  list_ok (e :: l) -> list_ok (e' :: l') ->
  (forall x, mem_list (e :: l) x <-> mem_list (e' :: l') x) ->
  Interval.lower e = Interval.lower e' -> Interval.upper e <= Interval.upper e'.
Proof.
  intros Hok Hok' Hm Hlo. pose proof Hok' as (He' & Hl' & Hg')%list_ok_cons.
  pose proof Hok as (He & _ & _)%list_ok_cons. unfold itv_ok in *.
  destruct (decide (Interval.upper e <= Interval.upper e')); [done|exfalso].
  assert (mem_list (e' :: l') (Interval.upper e' + 1)) as Hx.
  { apply Hm, mem_list_cons. left. unfold mem_itv. lia. }
  apply mem_list_cons in Hx as [Hx|(b & Hb & Hx)%mem_list_elem]; unfold mem_itv in Hx; [lia|].
  specialize (Hg' b Hb). unfold gap in Hg'. lia.
Qed.

(** Two well-formed lists with the same members are the same list: the
    representation is unique, and no list of intervals is shorter. *)
Lemma list_ok_canonical l l' :
  list_ok l -> list_ok l' -> (forall x, mem_list l x <-> mem_list l' x) -> l = l'.
Proof.
  revert l'. induction l as [|e l IH]; intros l' Hok Hok' Hm.
  - destruct l' as [|e' l']; [done|]. exfalso. eapply mem_list_nil, Hm, head_min, Hok'.
  - destruct l' as [|e' l']; [exfalso; eapply mem_list_nil, Hm, head_min, Hok|].
    assert (Interval.lower e = Interval.lower e') as Hlo.
    { destruct (head_min _ _ Hok) as [H1 H2]. destruct (head_min _ _ Hok') as [H1' H2'].
      apply Hm in H1. apply Hm in H1'. apply Z.le_antisymm; auto. }
    assert (Interval.upper e = Interval.upper e') as Hup.
    { apply Z.le_antisymm; eapply head_upper; eauto. intros x. by rewrite Hm. }
    assert (e = e') as <- by (destruct e, e'; simpl in *; congruence).
    f_equal. apply IH; [by apply list_ok_cons in Hok as (_ & ? & _)
      |by apply list_ok_cons in Hok' as (_ & ? & _)|].
    intros x. rewrite (tail_mem e l), (tail_mem e l') by done. by rewrite Hm.
Qed.

(** ** Values already present *)

(** Inserting a member leaves the members alone but counts it again: [elms_]
    grows by one, so [size()] is no longer the number of elements. (When the hint
    is the interval that holds the value the assertion of [insertSet] fires.) *)
Lemma insert_member s v s' it :
  wf s -> mem s v -> insert D s v = Ok (s', it) ->
  (forall x, mem s' x <-> mem s x) /\ size s' = wrap size_t (size s + 1).
Proof.
  intros Hwf Hv. pose proof Hwf as [Hok Hel _ _ _ _].
  pose proof Hv as (e & (l1 & l2 & Hl)%list_elem_of_split & Hx)%mem_list_elem.
  pose proof (mem_ok _ _ Hwf Hv) as Hvr. rewrite Hl in Hok.
  unfold insert, insertInterval.
  set (g := insertGlobal D s (itv_single v)). set (h := if elms_ s =? 0 then _ else _).
  assert (set_ g = l1 ++ e :: l2) as Hset
    by (unfold g, insertGlobal; rewrite <- Hl; by case_match).
  assert (elms_ g = wrap size_t (size s + 1)) as Hg.
  { transitivity (wrap size_t (elms_ s + wd (itv_single v)));
      [unfold g, insertGlobal; by case_match|].
    rewrite width_val; [simpl; f_equal; unfold size; lia|unfold itv_ok; simpl; lia]. }
  pose proof Hok as (Ho1 & (He & Ho2 & Hg2)%list_ok_cons & Hg1)%list_ok_app.
  assert (around l1 e l2) as Har.
  { split_and!; [done..| | |intros a b Ha Hb; apply Hg1; elems];
      [intros a Ha; specialize (Hg1 a e Ha ltac:(by left)); unfold gap in *; lia|].
    intros b Hb. specialize (Hg2 b Hb). unfold gap in *. lia. }
  assert (set_insert (itv_single v) (l1 ++ e :: l2) = (l1 ++ e :: l2, length l1, false)) as Hins.
  { pose proof (find_mem l1 e l2 v Hok Hx) as Hf. unfold find in Hf. unfold set_insert.
    destruct ((l1 ++ e :: l2) !! lower_bound (itv_single v) (l1 ++ e :: l2)) as [b|] eqn:Hb;
      [|rewrite length_app in Hf; simpl in Hf; lia].
    destruct (less (itv_single v) b); [rewrite length_app in Hf; simpl in Hf; lia|].
    by rewrite Hf. }
  destruct (joinLeft_spec l1 e l2 Har) as (l1' & j & HjL & Har' & Hgl & Hm1 & _).
  destruct (joinRight_spec l1' j l2 Har' Hgl) as (j' & l2' & HjR & _ & Hm2 & _).
  unfold insertSet, join. rewrite Hset, Hins, HjL, res_bind_Ok, HjR, res_bind_Ok.
  intros [_ [= <- <-]]%vtAssert_Ok. unfold mem, size in *. simpl. rewrite Hl, Hg.
  split; [|done]. intros x. by rewrite Hm2, Hm1.
Qed.

End Facts.
End IntegralSet.

(** ** The set the code promises *)
Module IntegralSetSpec.
Import Interval.
Import IntegralSet.

(** C37: Adding an interval disjoint from a well-formed set succeeds and is union:
    the members are exactly the old ones and the interval's, [size()] grows by the
    interval's width, and the representation stays sorted, disjoint and fully
    compressed. *)
Theorem insertInterval_union D s i :
  signed D = false -> 32 <= Prelude.width D <= 64 ->
  wf D s -> itv_ok D i -> (forall x, mem_itv x i -> ~ mem s x) ->
  exists s' it, insertInterval D s i = Ok (s', it) /\ wf D s' /\
    (forall x, mem s' x <-> mem s x \/ mem_itv x i) /\
    size s' = size s + (Interval.upper i - Interval.lower i + 1).
Proof.
  intros Hu Hw Hwf Hi Hd.
  destruct (insertInterval_spec D Hu Hw s i Hwf Hi Hd) as (s' & it & ? & ? & ? & ? & _).
  eauto 10.
Qed.

(** [erase] removes exactly the value given, whether its interval disappears,
    shrinks at an end or is sliced in two; a value that is not in the set stops
    at an assertion. *)
Theorem erase_difference D s v :
  signed D = false -> 32 <= Prelude.width D <= 64 -> wf D s ->
  (mem s v -> exists s', erase D s v = Ok s' /\ wf D s' /\
     (forall x, mem s' x <-> mem s x /\ x <> v) /\ size s' = size s - 1) /\
  (~ mem s v -> erase D s v = Stop AssertFailed).
Proof.
  intros Hu Hw Hwf. split; [by apply erase_spec|by apply erase_not_mem].
Qed.

(** [exists]/[contains] decide membership and never trip their assertion. *)
Theorem exists_member D s v :
  signed D = false -> 32 <= Prelude.width D <= 64 -> wf D s ->
  (mem s v -> exists_ s v = Ok true) /\ (~ mem s v -> exists_ s v = Ok false).
Proof.
  intros Hu Hw Hwf. rewrite (exists_spec D Hw) by done.
  unfold mem. by destruct (mem_dec_list (set_ s) v).
Qed.

(** The representation is canonical: two well-formed sets with the same
    members hold the same list of intervals, hence the same compressed size. *)
Theorem representation_canonical D s s' :
  wf D s -> wf D s' -> (forall x, mem s x <-> mem s' x) ->
  set_ s = set_ s' /\ compressedSize s = compressedSize s' /\ size s = size s'.
Proof.
  intros [Hok He _ _ _ _] [Hok' He' _ _ _ _] Hm.
  assert (set_ s = set_ s') as Hs by (eapply list_ok_canonical; eauto).
  unfold compressedSize, size. by rewrite He, He', Hs.
Qed.

(** Inserting a value that is already present leaves the members alone but
    still counts it: [size()] no longer is the number of elements. *)
Theorem insert_present_overcounts D s v s' it :
  signed D = false -> 32 <= Prelude.width D <= 64 ->
  wf D s -> mem s v -> insert D s v = Ok (s', it) ->
  (forall x, mem s' x <-> mem s x) /\ size s' = wrap size_t (size s + 1).
Proof. intros Hu Hw. by apply insert_member. Qed.

(** [clear] empties the set of intervals but keeps the element count, so a
    cleared non-empty set does not report [empty()], and the next insertion
    stretches the global bounds from 0 instead of starting afresh. *)
Theorem clear_keeps_count D s v s' it :
  0 < v < tmax D -> in_ty size_t (size s) -> size s <> 0 ->
  insert D (clear s) v = Ok (s', it) ->
  (forall x, ~ mem (clear s) x) /\ empty (clear s) = false /\
  size (clear s) = size s /\ lower s' = 0.
Proof.
  intros Hv Hs Hn Hins. unfold empty, size in *.
  split; [intros x Hx; by apply mem_list_nil in Hx|].
  split; [simpl; by apply Z.eqb_neq|]. split; [done|].
  unfold insert, insertInterval, insertSet, insertGlobal, lower in *. simpl in Hins.
  apply Z.eqb_neq in Hn. rewrite Hn in Hins. simpl in Hins. injection Hins as <- _. simpl. lia.
Qed.

(** A small set, [{1, 2, 3, 7}], for the witnesses. *)
Definition sample : IntegralSet := ISet 1 7 [Itv 1 3; Itv 7 7] 1 4.

Lemma sample_wf : wf u64 sample.
Proof.
  split; simpl; unfold mem; simpl; try done.
  - split; [|repeat constructor].
    repeat (apply Forall_cons_2; [vm_compute; repeat split; discriminate|]).
    apply Forall_nil_2.
  - intros _. apply Exists_cons. left. unfold mem_itv. simpl. lia.
  - intros _. apply Exists_cons. right. apply Exists_cons. left. unfold mem_itv. simpl. lia.
  - intros x. rewrite !mem_list_cons, mem_list_nil. unfold mem_itv. simpl. lia.
  - lia.
Qed.

Lemma sample_mem x : mem sample x <-> 1 <= x <= 3 \/ x = 7.
Proof. unfold mem. simpl. rewrite !mem_list_cons, mem_list_nil. unfold mem_itv. simpl. lia. Qed.

Lemma insertInterval_union_witness :
  exists s' it, insertInterval u64 sample (Itv 4 6) = Ok (s', it) /\ wf u64 s' /\
    (forall x, mem s' x <-> mem sample x \/ mem_itv x (Itv 4 6)) /\ size s' = 4 + (6 - 4 + 1).
Proof.
  apply (insertInterval_union u64 sample (Itv 4 6));
    [reflexivity|split; discriminate|apply sample_wf|repeat split; vm_compute; discriminate
    |intros x Hx; rewrite sample_mem; unfold mem_itv in Hx; simpl in Hx; lia].
Defined.

Lemma erase_difference_witness :
  exists s', erase u64 sample 2 = Ok s' /\ wf u64 s' /\
     (forall x, mem s' x <-> mem sample x /\ x <> 2) /\ size s' = 4 - 1.
Proof.
  apply (erase_difference u64 sample 2);
    [reflexivity|split; discriminate|apply sample_wf|apply sample_mem; lia].
Defined.

Lemma exists_member_witness : exists_ sample 7 = Ok true.
Proof. apply (exists_member u64 sample 7); [reflexivity|split; discriminate|apply sample_wf|apply sample_mem; lia]. Defined.

(** The same set reached with another hint. *)
Lemma representation_canonical_witness : size sample = size (ISet 1 7 [Itv 1 3; Itv 7 7] 0 4).
Proof.
  apply (representation_canonical u64 sample (ISet 1 7 [Itv 1 3; Itv 7 7] 0 4));
    [apply sample_wf| |done].
  destruct sample_wf. split; simpl in *; try done. lia.
Defined.

Lemma insert_present_overcounts_witness :
  size (ISet 1 7 [Itv 1 3; Itv 7 7] 0 5) = wrap size_t (size sample + 1).
Proof.
  apply (insert_present_overcounts u64 sample 2 (ISet 1 7 [Itv 1 3; Itv 7 7] 0 5) 0);
    [reflexivity|split; discriminate|apply sample_wf|apply sample_mem; lia|vm_compute; reflexivity].
Defined.

Lemma clear_keeps_count_witness : lower (ISet 0 9 [Itv 9 9] 0 5) = 0.
Proof.
  apply (clear_keeps_count u64 sample 9 (ISet 0 9 [Itv 9 9] 0 5) 0);
    [vm_compute; split; reflexivity|vm_compute; split; discriminate|discriminate
    |vm_compute; reflexivity].
Defined.

End IntegralSetSpec.
