(* ===== verification/Epoch.v ===== *)
(** * Epoch identifiers and the windows that allocate them

    Models [src/vt/epoch/epoch.h] (the bit layout), [epoch_manip.cc]
    ([EpochManip]: getters, setters, generation and the component's table of
    windows), [epoch_window.cc] ([EpochWindow]) and
    [src/vt/utils/adt/ranged_counter.h] ([RangedCounter]). The set of terminated
    epochs is the interval set of [Intervals.v]. *)

From S2P Require Import Prelude.
From S2P Require Import Bits.
From S2P Require Import Ids.
From S2P Require Import Intervals.
Import BitPacker.

(** ** [RangedCounter<T>] *)
Module RangedCounter.

Record RangedCounter := Counter { lo_ : Z; hi_ : Z; cur_ : Z }.

Definition make (in_lo in_hi : Z) : RangedCounter := Counter in_lo in_hi in_lo.
Definition get (c : RangedCounter) : Z := cur_ c.

Definition increment (c : RangedCounter) : RangedCounter :=
  Counter (lo_ c) (hi_ c) (if cur_ c <? hi_ c then cur_ c + 1 else lo_ c).

Definition decrement (c : RangedCounter) : RangedCounter :=
  Counter (lo_ c) (hi_ c) (if lo_ c <? cur_ c then cur_ c - 1 else hi_ c).

(** The current value stays within the range, and the two directions undo each
    other. *)
Lemma increment_decrement c :
  lo_ c <= cur_ c <= hi_ c ->
  decrement (increment c) = c /\ increment (decrement c) = c /\
  lo_ c <= cur_ (increment c) <= hi_ c.
Proof.
  intros H. destruct c as [lo hi cur]. unfold increment, decrement. simpl in *.
  split; [|split]; [f_equal|f_equal|]; case_Zbs; lia.
Qed.

End RangedCounter.

(** ** The bits of an epoch *)
Module EpochManip.

Definition EpochType := u64.
Definition no_epoch := wrap EpochType (-1).
Definition any_epoch_sentinel := wrap EpochType (-1000).
Definition makeEpochZero := 0.

Definition epoch_root_num_bits := 1.
Definition epoch_category_num_bits := 2.
Definition epoch_seq_coll_num_bits :=
  width EpochType - (epoch_root_num_bits + epoch_category_num_bits).
Definition epoch_seq_root_num_bits :=
  width EpochType - (epoch_root_num_bits + epoch_category_num_bits + node_num_bits).

(** [eEpochCategory]. *)
Inductive eEpochCategory := NoCategoryEpoch | InsertEpoch | DijkstraScholtenEpoch.

#[export] Instance eEpochCategory_eq_dec : EqDecision eEpochCategory.
Proof. solve_decision. Defined.

Definition cat_to_Z (c : eEpochCategory) : Z :=
  match c with NoCategoryEpoch => 0 | InsertEpoch => 1 | DijkstraScholtenEpoch => 2 end.

(** [eEpochColl] and [eEpochRoot]. *)
Definition cEpochSequential := 0.
Definition cEpochCategory := cEpochSequential + epoch_seq_coll_num_bits.
Definition cEpochIsRooted := cEpochCategory + epoch_category_num_bits.
Definition rEpochSequential := 0.
Definition rEpochNode := rEpochSequential + epoch_seq_root_num_bits.
Definition rEpochCategory := rEpochNode + node_num_bits.
Definition rEpochIsRooted := rEpochCategory + epoch_category_num_bits.

Definition isRooted (epoch : Z) : bool := boolGetField rEpochIsRooted epoch.

(** The category's number; the enumeration is cast from it. *)
Definition category (epoch : Z) : Z :=
  getField i8 EpochType rEpochCategory epoch_category_num_bits epoch.

Definition node (epoch : Z) : res Z :=
  vtAssert (isRooted epoch)
    (Ok (getField NodeType EpochType rEpochNode node_num_bits epoch)).

Definition seq (epoch : Z) : Z :=
  if isRooted epoch
  then getField u64 EpochType rEpochSequential epoch_seq_root_num_bits epoch
  else getField u64 EpochType cEpochSequential epoch_seq_coll_num_bits epoch.

Definition setIsRooted (epoch : Z) (is_rooted : bool) : Z :=
  boolSetField EpochType rEpochIsRooted epoch is_rooted.

Definition setCategory (epoch : Z) (cat : eEpochCategory) : Z :=
  setField EpochType rEpochCategory epoch_category_num_bits epoch (cat_to_Z cat).

Definition setNode (epoch node : Z) : res Z :=
  vtAssert (isRooted epoch)
    (Ok (setField EpochType rEpochNode node_num_bits epoch node)).

Definition setSeq (epoch seq : Z) : Z :=
  if isRooted epoch
  then setField EpochType rEpochSequential epoch_seq_root_num_bits epoch seq
  else setField EpochType cEpochSequential epoch_seq_coll_num_bits epoch seq.

Definition generateEpoch (is_rooted : bool) (root_node : Z) (category : eEpochCategory)
    : res Z :=
  let new_epoch := makeEpochZero in
  let has_category := negb (bool_decide (category = NoCategoryEpoch)) in
  let new_epoch := setIsRooted new_epoch is_rooted in
  let new_epoch := if has_category then setCategory new_epoch category else new_epoch in
  new_epoch ← (if is_rooted
               then vtAssert (negb (root_node =? uninitialized_destination))
                      (setNode new_epoch root_node)
               else Ok new_epoch);
  Ok (setSeq new_epoch 0).

(** [generateRootedEpoch] running on [this_node]. *)
Definition generateRootedEpoch (this_node : Z) (category : eEpochCategory) : res Z :=
  generateEpoch true this_node category.

Definition getArchetype (epoch : Z) : Z := setSeq epoch 0.

(** ** Laws of the layout *)

(** The width of the sequence field. *)
Definition seq_bits (epoch : Z) : Z :=
  if isRooted epoch then epoch_seq_root_num_bits else epoch_seq_coll_num_bits.

Lemma seq_bits_cases e : seq_bits e = 45 \/ seq_bits e = 61.
Proof. unfold seq_bits. destruct (isRooted e); [by left|by right]. Qed.

Lemma isRooted_setSeq e s : isRooted (setSeq e s) = isRooted e.
Proof. unfold setSeq. case_match; unfold isRooted in *; by bits. Qed.

Lemma seq_bits_setSeq e s : seq_bits (setSeq e s) = seq_bits e.
Proof. unfold seq_bits. by rewrite isRooted_setSeq. Qed.

(** Setting the low bits of a 64-bit value, as arithmetic. *)
Lemma setField_low len f seg :
  0 < len < 64 -> in_ty u64 f ->
  setField u64 0 len f seg = f / 2 ^ len * 2 ^ len + seg mod 2 ^ len.
Proof.
  intros Hl Hf. set (x := setField u64 0 len f seg).
  assert (segment_ok u64 0 len = true) as Hok
    by (unfold segment_ok, shift_defined; simpl; lia).
  assert (x mod 2 ^ len = seg mod 2 ^ len) as Hm.
  { pose proof (seg_val_setField_same u64 ltac:(simpl; lia) 0 len f seg Hok) as H.
    unfold seg_val in H. by rewrite Z.shiftr_0_r in H. }
  assert (x / 2 ^ len = f / 2 ^ len) as Hd.
  { rewrite <- !Z.shiftr_div_pow2 by lia. apply Z.bits_inj'. intros i Hi.
    rewrite !Z.shiftr_spec by lia.
    destruct (decide (i + len < 64)).
    - unfold x, setField. rewrite setFieldDynamic_testbit by (done || simpl; lia).
      apply decide_False. lia.
    - rewrite (in_ty_testbit_high u64 x), (in_ty_testbit_high u64 f); auto with vt;
        try (simpl; lia). apply setField_in_ty. auto with vt. }
  pow2_pos len. rewrite (Z.div_mod x (2 ^ len)), Hm, Hd by lia. lia.
Qed.

Lemma setSeq_val e s :
  in_ty EpochType e ->
  setSeq e s = e / 2 ^ seq_bits e * 2 ^ seq_bits e + s mod 2 ^ seq_bits e.
Proof.
  intros He. unfold setSeq, seq_bits.
  destruct (isRooted e); apply setField_low; done || (split; reflexivity).
Qed.

Lemma setSeq_in_ty e s : in_ty EpochType (setSeq e s).
Proof. unfold setSeq. destruct (isRooted e); apply setField_in_ty; auto with vt. Qed.

(** The sequence number written is the one read, as far as it fits. *)
Lemma setSeq_mod e s : setSeq e s mod 2 ^ seq_bits e = s mod 2 ^ seq_bits e.
Proof.
  assert (seg_val 0 (seq_bits e) (setSeq e s) = s mod 2 ^ seq_bits e) as H.
  { unfold setSeq, seq_bits. destruct (isRooted e); by bits. }
  unfold seg_val in H. by rewrite Z.shiftr_0_r in H.
Qed.

Lemma seq_val e : seq e = e mod 2 ^ seq_bits e.
Proof.
  assert (seq e = seg_val 0 (seq_bits e) e) as ->.
  { unfold seq, seq_bits. destruct (isRooted e); bits;
      (rewrite wrap_u_small; [done|done|]);
      (eapply Z_range_weaken; [apply seg_val_bound; done|done]). }
  unfold seg_val. by rewrite Z.shiftr_0_r.
Qed.

Lemma getArchetype_val e :
  in_ty EpochType e -> getArchetype e = e / 2 ^ seq_bits e * 2 ^ seq_bits e.
Proof.
  intros He. unfold getArchetype. rewrite setSeq_val by done.
  rewrite Zmod_0_l. lia.
Qed.

Lemma isRooted_getArchetype e : isRooted (getArchetype e) = isRooted e.
Proof. apply isRooted_setSeq. Qed.

Lemma seq_bits_getArchetype e : seq_bits (getArchetype e) = seq_bits e.
Proof. apply seq_bits_setSeq. Qed.

(** An archetype is its own archetype. *)
Lemma getArchetype_idem e : getArchetype (getArchetype e) = getArchetype e.
Proof.
  rewrite getArchetype_val, seq_bits_getArchetype by apply setSeq_in_ty.
  pose proof (setSeq_mod e 0) as Hm. rewrite Zmod_0_l in Hm. fold (getArchetype e) in Hm.
  assert (0 < 2 ^ seq_bits e) by (destruct (seq_bits_cases e) as [->| ->]; done).
  pose proof (Z.div_mod (getArchetype e) (2 ^ seq_bits e) ltac:(lia)). lia.
Qed.

(** Reading back a generated epoch. *)
Lemma generateEpoch_Ok is_rooted root cat :
  in_ty NodeType root -> (is_rooted = true -> root <> uninitialized_destination) ->
  exists e, generateEpoch is_rooted root cat = Ok e /\ in_ty EpochType e /\
    isRooted e = is_rooted /\ category e = cat_to_Z cat /\ seq e = 0 /\
    getArchetype e = e /\ (is_rooted = true -> node e = Ok root).
Proof.
  intros Hroot Hne. unfold generateEpoch. cbv zeta.
  set (c := if negb (bool_decide (cat = NoCategoryEpoch))
            then setCategory (setIsRooted makeEpochZero is_rooted) cat
            else setIsRooted makeEpochZero is_rooted).
  assert (isRooted c = is_rooted /\ category c = cat_to_Z cat) as [Hr Hc].
  { unfold c, isRooted, category, setCategory, setIsRooted. destruct cat; simpl; bits;
      (split; [done|]); reflexivity. }
  assert (exists d, (if is_rooted
      then vtAssert (negb (root =? uninitialized_destination)) (setNode c root)
      else Ok c) = Ok d /\ isRooted d = is_rooted /\ category d = cat_to_Z cat /\
      (is_rooted = true -> seg_val rEpochNode node_num_bits d = root mod 2 ^ node_num_bits))
    as (d & -> & Hdr & Hdc & Hdn).
  { destruct is_rooted; [|by exists c].
    assert (negb (root =? uninitialized_destination) = true) as ->
      by (rewrite negb_true_iff; apply Z.eqb_neq, Hne; done).
    unfold setNode. rewrite Hr. simpl. eexists. split; [done|].
    unfold isRooted, category in *. autorewrite with bits in *. by split_and!. }
  rewrite res_bind_Ok. eexists. split; [done|].
  split; [apply setSeq_in_ty|]. split; [by rewrite isRooted_setSeq|].
  split; [|split; [|split]].
  - unfold setSeq, category in *. autorewrite with bits in *. case_match; by bits.
  - unfold seq. rewrite isRooted_setSeq. unfold setSeq. case_match; bits; done.
  - apply getArchetype_idem.
  - intros Ht. specialize (Hdn Ht). unfold node. rewrite isRooted_setSeq, Hdr, Ht. simpl.
    f_equal. unfold setSeq. rewrite Hdr, Ht. bits. rewrite Hdn. bits. fits.
Qed.

Lemma seq_pow_pos e : 0 < 2 ^ seq_bits e.
Proof. by destruct (seq_bits_cases e) as [->| ->]. Qed.

(** An epoch is its archetype plus its sequence number. *)
Lemma epoch_split e : in_ty EpochType e -> e = getArchetype e + seq e.
Proof.
  intros He. rewrite getArchetype_val, seq_val by done. pose proof (seq_pow_pos e).
  pose proof (Z.div_mod e (2 ^ seq_bits e) ltac:(lia)). lia.
Qed.

Lemma isRooted_div e f n :
  0 <= n <= 63 -> e / 2 ^ n = f / 2 ^ n -> isRooted e = isRooted f.
Proof.
  intros Hn H. unfold isRooted. change rEpochIsRooted with 63.
  rewrite !boolGetField_val by lia.
  replace 63 with ((63 - n) + n) by lia.
  rewrite <- !Z.div_pow2_bits by lia. by rewrite H.
Qed.

(** The epochs of an archetype: the archetype's control bits with any sequence
    number. *)
Lemma archetype_plus a k :
  in_ty EpochType a -> getArchetype a = a -> 0 <= k < 2 ^ seq_bits a ->
  in_ty EpochType (a + k) /\ isRooted (a + k) = isRooted a /\
  getArchetype (a + k) = a /\ seq (a + k) = k.
Proof.
  intros Ha Harch Hk. pose proof (seq_pow_pos a) as Hp.
  rewrite getArchetype_val in Harch by done.
  assert ((a + k) / 2 ^ seq_bits a = a / 2 ^ seq_bits a) as Hd.
  { rewrite <- Harch at 1. rewrite Z.div_add_l, (Z.div_small k) by lia. lia. }
  assert (isRooted (a + k) = isRooted a) as Hr.
  { eapply isRooted_div; [|exact Hd]. destruct (seq_bits_cases a) as [->| ->]; lia. }
  assert (seq_bits (a + k) = seq_bits a) as Hs by (unfold seq_bits; by rewrite Hr).
  assert (in_ty EpochType (a + k)) as Hin.
  { unfold in_ty, tmin, tmax in *. cbn [signed width EpochType u64] in *.
    assert (a / 2 ^ seq_bits a < 2 ^ (64 - seq_bits a)).
    { apply Z.div_lt_upper_bound; [lia|]. rewrite <- Z.pow_add_r;
        [|destruct (seq_bits_cases a) as [->| ->]; lia..].
      replace (seq_bits a + (64 - seq_bits a)) with 64 by lia. lia. }
    assert (2 ^ 64 = 2 ^ (64 - seq_bits a) * 2 ^ seq_bits a).
    { rewrite <- Z.pow_add_r; [f_equal; lia|destruct (seq_bits_cases a) as [->| ->]; lia..]. }
    nia. }
  split; [done|]. split; [done|].
  rewrite getArchetype_val, seq_val, Hs, Hd by done. split; [done|].
  rewrite <- Harch at 1. rewrite Z.add_comm, Z.mod_add by lia. by apply Z.mod_small.
Qed.

End EpochManip.

(** ** Epoch windows *)
Module EpochWindow.
Import EpochManip.
Import RangedCounter.

Abbreviation iset := IntegralSet.IntegralSet.

Record EpochWindow := Window {
  archetype_epoch_ : Z;       (* the control bits of this window's epochs *)
  terminated_epochs_ : iset;  (* the set of epochs terminated *)
  next_epoch_ : RangedCounter;
  total_terminated_ : Z       (* a uint64_t *)
}.

(** The constructor. *)
Definition make_window (epoch : Z) : res EpochWindow :=
  let arch_epoch := setSeq epoch 0 in
  let max_epoch := setSeq arch_epoch (wrap EpochType (Z.lnot 0) - 1) in
  let min_epoch := setSeq arch_epoch 1 in
  let interval := Interval.Itv min_epoch max_epoch in
  let next_epoch := RangedCounter.make (Interval.lower interval) (Interval.upper interval) in
  '(terminated, _) ← IntegralSet.insertInterval EpochType IntegralSet.iset_empty interval;
  Ok (Window arch_epoch terminated next_epoch 0).

Definition isArchetypal (w : EpochWindow) (epoch : Z) : bool :=
  setSeq epoch 0 =? archetype_epoch_ w.

Definition getFirst (w : EpochWindow) : Z := IntegralSet.lower (terminated_epochs_ w).
Definition getLast (w : EpochWindow) : Z := IntegralSet.upper (terminated_epochs_ w).
Definition getSize (w : EpochWindow) : Z := IntegralSet.size (terminated_epochs_ w).
Definition getTotalTerminated (w : EpochWindow) : Z := total_terminated_ w.

Definition isTerminated (w : EpochWindow) (epoch : Z) : res bool :=
  IntegralSet.contains (terminated_epochs_ w) epoch.

Definition activateEpoch (w : EpochWindow) (epoch : Z) : res EpochWindow :=
  vtAssert (isArchetypal w epoch) (
  c ← IntegralSet.contains (terminated_epochs_ w) epoch;
  if (c : bool)
  then t ← IntegralSet.erase EpochType (terminated_epochs_ w) epoch;
       Ok (Window (archetype_epoch_ w) t (next_epoch_ w) (total_terminated_ w))
  else Ok w).

Definition setEpochTerminated (w : EpochWindow) (epoch : Z) : res EpochWindow :=
  '(t, _) ← IntegralSet.insert EpochType (terminated_epochs_ w) epoch;
  Ok (Window (archetype_epoch_ w) t (next_epoch_ w) (wrap u64 (total_terminated_ w + 1))).

(** The [do ... while (true)] of [allocateNewEpoch], on fuel: [None] is a loop
    still running. *)
Fixpoint allocate_loop (fuel : nat) (w : EpochWindow) : option (res (EpochWindow * Z)) :=
  match fuel with
  | O => None
  | S k =>
      let next := RangedCounter.get (next_epoch_ w) in
      match IntegralSet.contains (terminated_epochs_ w) next with
      | Stop e => Some (Stop e)
      | Ok true =>
          let w := Window (archetype_epoch_ w) (terminated_epochs_ w)
                     (RangedCounter.increment (next_epoch_ w)) (total_terminated_ w) in
          Some (w ← activateEpoch w next; Ok (w, next))
      | Ok false => allocate_loop k w
      end
  end.

Definition allocateNewEpoch (fuel : nat) (w : EpochWindow)
    : option (res (EpochWindow * Z)) :=
  if IntegralSet.size (terminated_epochs_ w) =? 0
  then Some (Stop AbortCalled)
  else allocate_loop fuel w.

(** ** The window's invariant *)

Definition mem_t (w : EpochWindow) (x : Z) : Prop := IntegralSet.mem (terminated_epochs_ w) x.

(** The first and last epochs an archetype can allocate. *)
Definition first_epoch (a : Z) : Z := a + 1.
Definition last_epoch (a : Z) : Z := a + (2 ^ seq_bits a - 2).
Definition in_range (a x : Z) : Prop := first_epoch a <= x <= last_epoch a.

Record window_ok (w : EpochWindow) : Prop := {
  ok_ty : in_ty EpochType (archetype_epoch_ w);
  ok_arch : getArchetype (archetype_epoch_ w) = archetype_epoch_ w;
  ok_wf : IntegralSet.wf EpochType (terminated_epochs_ w);
  ok_mem : forall x, mem_t w x -> in_range (archetype_epoch_ w) x;
  ok_lo : lo_ (next_epoch_ w) = first_epoch (archetype_epoch_ w);
  ok_hi : hi_ (next_epoch_ w) = last_epoch (archetype_epoch_ w);
  ok_cur : in_range (archetype_epoch_ w) (cur_ (next_epoch_ w))
}.

Lemma EpochType_unsigned : signed EpochType = false.
Proof. done. Qed.
Lemma EpochType_wide : 32 <= width EpochType <= 64.
Proof. done. Qed.

Lemma contains_spec w x :
  window_ok w ->
  IntegralSet.contains (terminated_epochs_ w) x =
  Ok (if IntegralSet.mem_dec_list (IntegralSet.set_ (terminated_epochs_ w)) x
      then true else false).
Proof.
  intros Hw. apply (IntegralSet.exists_spec EpochType). all: apply Hw || done.
Qed.

(** Every epoch of the range fits strictly inside the domain and belongs to the
    archetype. *)
Lemma in_range_epoch a x :
  in_ty EpochType a -> getArchetype a = a -> in_range a x ->
  in_ty EpochType x /\ getArchetype x = a /\ isRooted x = isRooted a /\
  seq x = x - a /\ IntegralSet.itv_ok EpochType (Interval.itv_single x).
Proof.
  intros Ha Harch [Hlo Hhi]. unfold first_epoch, last_epoch in *.
  destruct (archetype_plus a (2 ^ seq_bits a - 1) Ha Harch ltac:(lia)) as [Hmax _].
  destruct (archetype_plus a (x - a) Ha Harch ltac:(lia)) as (Hx & Hr & Hg & Hs).
  replace (a + (x - a)) with x in * by lia.
  split; [done|]. split; [done|]. split; [done|]. split; [done|].
  unfold IntegralSet.itv_ok, in_ty in *. simpl.
  change (tmin EpochType) with 0 in *. lia.
Qed.

Lemma make_window_ok e :
  in_ty EpochType e ->
  exists w, make_window e = Ok w /\ window_ok w /\
    archetype_epoch_ w = getArchetype e /\
    (forall x, mem_t w x <-> in_range (getArchetype e) x) /\
    getSize w = 2 ^ seq_bits e - 2 /\
    cur_ (next_epoch_ w) = first_epoch (getArchetype e) /\ total_terminated_ w = 0.
Proof.
  intros He. unfold make_window. fold (getArchetype e). set (a := getArchetype e).
  pose proof (getArchetype_idem e) as Harch. fold a in Harch.
  assert (in_ty EpochType a) as Ha by apply setSeq_in_ty.
  assert (seq_bits a = seq_bits e) as Hsb by apply seq_bits_getArchetype.
  rewrite !setSeq_val by done. rewrite getArchetype_val in Harch by done. rewrite Harch.
  assert (1 mod 2 ^ seq_bits a = 1 /\
    (wrap EpochType (Z.lnot 0) - 1) mod 2 ^ seq_bits a = 2 ^ seq_bits a - 2 /\
    4 < 2 ^ seq_bits a) as (-> & -> & Hbig)
    by (destruct (seq_bits_cases a) as [->| ->]; done).
  fold (first_epoch a) (last_epoch a). cbv zeta.
  assert (in_range a (first_epoch a) /\ in_range a (last_epoch a)) as [Hf Hl]
    by (unfold in_range, first_epoch, last_epoch; lia).
  assert (getArchetype a = a) as Harch' by (rewrite getArchetype_val; done).
  assert (IntegralSet.itv_ok EpochType (Interval.Itv (first_epoch a) (last_epoch a))) as Hok.
  { destruct (in_range_epoch _ _ Ha Harch' Hf) as (_ & _ & _ & _ & H1).
    destruct (in_range_epoch _ _ Ha Harch' Hl) as (_ & _ & _ & _ & H2).
    unfold IntegralSet.itv_ok in *. simpl in *. unfold first_epoch, last_epoch in *. lia. }
  destruct (IntegralSet.insertInterval_spec EpochType EpochType_unsigned EpochType_wide
    IntegralSet.iset_empty (Interval.Itv (first_epoch a) (last_epoch a)))
    as (s & it & -> & Hwf & Hm & Hs & _); [apply IntegralSet.wf_empty|done| |].
  { intros x _ Hx. by apply IntegralSet.mem_list_nil in Hx. }
  assert (forall x, IntegralSet.mem s x <-> in_range a x) as Hm'.
  { intros x. rewrite Hm. unfold IntegralSet.mem_itv, in_range. simpl.
    split; [intros [[]%IntegralSet.mem_list_nil|]; done|by right]. }
  rewrite res_bind_Ok. eexists. split; [done|]. split; [|split; [done|split; [done|]]].
  - split; simpl; try done. intros x. apply Hm'.
  - split; [|done]. unfold getSize. simpl. rewrite Hs, <- Hsb.
    unfold first_epoch, last_epoch. simpl. lia.
Qed.

Lemma setEpochTerminated_Ok w x :
  window_ok w -> in_range (archetype_epoch_ w) x -> ~ mem_t w x ->
  exists w', setEpochTerminated w x = Ok w' /\ window_ok w' /\
    archetype_epoch_ w' = archetype_epoch_ w /\ next_epoch_ w' = next_epoch_ w /\
    (forall y, mem_t w' y <-> mem_t w y \/ y = x) /\
    total_terminated_ w' = wrap u64 (total_terminated_ w + 1).
Proof.
  intros [Ha Harch Hwf Hm Hlo Hhi Hc] Hx Hn.
  destruct (in_range_epoch _ _ Ha Harch Hx) as (_ & _ & _ & _ & Hok).
  destruct (IntegralSet.insertInterval_spec EpochType EpochType_unsigned EpochType_wide
    (terminated_epochs_ w) (Interval.itv_single x) Hwf Hok)
    as (s & it & Hins & Hwf' & Hm' & _ & _).
  { unfold IntegralSet.mem_itv. simpl. intros y Hy. by replace y with x by lia. }
  unfold setEpochTerminated, IntegralSet.insert. rewrite Hins, res_bind_Ok.
  assert (forall y, IntegralSet.mem s y <-> mem_t w y \/ y = x) as Hms.
  { intros y. rewrite Hm'. unfold IntegralSet.mem_itv, mem_t. simpl.
    assert (x <= y <= x <-> y = x) as -> by lia. done. }
  eexists. split; [done|]. split; [|done].
  split; simpl; try done. intros y [Hy| ->]%Hms; [by apply Hm|done].
Qed.

Lemma activateEpoch_Ok w x :
  window_ok w -> mem_t w x ->
  exists w', activateEpoch w x = Ok w' /\ window_ok w' /\
    archetype_epoch_ w' = archetype_epoch_ w /\ next_epoch_ w' = next_epoch_ w /\
    (forall y, mem_t w' y <-> mem_t w y /\ y <> x) /\
    total_terminated_ w' = total_terminated_ w.
Proof.
  intros Hok Hx. pose proof Hok as [Ha Harch Hwf Hm Hlo Hhi Hc].
  destruct (in_range_epoch _ _ Ha Harch (Hm x Hx)) as (_ & Hg & _).
  unfold activateEpoch, isArchetypal. fold (getArchetype x).
  rewrite vtAssert_true by (by apply Z.eqb_eq). rewrite contains_spec, res_bind_Ok by done.
  destruct (IntegralSet.mem_dec_list _ x) as [_|[]]; [|done].
  destruct (IntegralSet.erase_spec EpochType EpochType_unsigned EpochType_wide
    (terminated_epochs_ w) x Hwf Hx) as (s & -> & Hwf' & Hm' & _).
  rewrite res_bind_Ok. eexists. split; [done|]. split; [|done].
  split; simpl; try done. intros y Hy. apply Hm. by apply Hm' in Hy as [? _].
Qed.

(** Allocation when the next epoch is terminated: one turn of the loop. *)
Lemma allocate_Ok w k :
  window_ok w -> mem_t w (cur_ (next_epoch_ w)) ->
  exists w', allocateNewEpoch (S k) w = Some (Ok (w', cur_ (next_epoch_ w))) /\
    window_ok w' /\ archetype_epoch_ w' = archetype_epoch_ w /\
    next_epoch_ w' = increment (next_epoch_ w) /\
    (forall y, mem_t w' y <-> mem_t w y /\ y <> cur_ (next_epoch_ w)) /\
    total_terminated_ w' = total_terminated_ w.
Proof.
  intros Hok Hx. unfold allocateNewEpoch.
  destruct (Z.eqb_spec (IntegralSet.size (terminated_epochs_ w)) 0) as [H0|_].
  { apply (IntegralSet.elms_0_iff EpochType EpochType_unsigned EpochType_wide) in H0; [|apply Hok].
    unfold mem_t, IntegralSet.mem in Hx. rewrite H0 in Hx.
    by apply IntegralSet.mem_list_nil in Hx. }
  cbn [allocate_loop]. unfold get. rewrite contains_spec by done.
  destruct (IntegralSet.mem_dec_list _ _) as [_|[]]; [|done].
  set (w1 := Window _ _ _ _).
  assert (window_ok w1) as Hok1.
  { destruct Hok as [Ha Harch Hwf Hm Hlo Hhi Hc]. split; simpl; try done.
    unfold in_range in *. rewrite Hlo, Hhi. case_Zbs; lia. }
  destruct (activateEpoch_Ok w1 (cur_ (next_epoch_ w)) Hok1 Hx)
    as (w' & -> & Hok' & Ha' & Hn' & Hm' & Ht').
  rewrite res_bind_Ok. exists w'. by split_and!.
Qed.

(** When the next epoch is still active the loop never leaves its first state:
    the counter is only advanced by a successful allocation. *)
Lemma allocate_stuck w :
  window_ok w -> getSize w <> 0 -> ~ mem_t w (cur_ (next_epoch_ w)) ->
  forall fuel, allocateNewEpoch fuel w = None.
Proof.
  intros Hok Hs Hx fuel. unfold allocateNewEpoch, getSize in *.
  apply Z.eqb_neq in Hs as ->. induction fuel as [|k IH]; [done|].
  cbn [allocate_loop]. unfold get. rewrite contains_spec by done.
  by destruct (IntegralSet.mem_dec_list _ _).
Qed.

(** ** The life of a window

    A window with the list of the epochs it handed out, oldest first. Each
    allocation is one turn of the loop; an epoch may terminate when it was
    allocated and is active. *)
Inductive wstep : EpochWindow * list Z -> EpochWindow * list Z -> Prop :=
  | wstep_alloc w h w' e :
      allocateNewEpoch 1 w = Some (Ok (w', e)) -> wstep (w, h) (w', h ++ [e])
  | wstep_term w h w' e :
      e ∈ h -> isTerminated w e = Ok false -> setEpochTerminated w e = Ok w' ->
      wstep (w, h) (w', h).

Inductive wreach (w0 : EpochWindow) : EpochWindow * list Z -> Prop :=
  | wreach_init : wreach w0 (w0, [])
  | wreach_step s s' : wreach w0 s -> wstep s s' -> wreach w0 s'.

(** The number of epochs an archetype has. *)
Definition capacity (a : Z) : Z := 2 ^ seq_bits a - 2.

(** Before the counter wraps around: the history is the initial segment of the
    range, the counter sits right after it, and everything from the counter on is
    still terminated. *)
Record fresh_inv (a : Z) (w : EpochWindow) (h : list Z) : Prop := {
  fi_ok : window_ok w;
  fi_arch : archetype_epoch_ w = a;
  fi_hist : h = seqZ (first_epoch a) (Z.of_nat (length h));
  fi_cur : Z.of_nat (length h) < capacity a ->
           cur_ (next_epoch_ w) = first_epoch a + Z.of_nat (length h);
  fi_free : forall x, first_epoch a + Z.of_nat (length h) <= x <= last_epoch a -> mem_t w x
}.

Lemma allocate_cur w w' e k :
  window_ok w -> allocateNewEpoch (S k) w = Some (Ok (w', e)) ->
  mem_t w (cur_ (next_epoch_ w)) /\ e = cur_ (next_epoch_ w).
Proof.
  intros Hok Hal.
  destruct (IntegralSet.mem_dec_list (IntegralSet.set_ (terminated_epochs_ w))
    (cur_ (next_epoch_ w))) as [Hm|Hm].
  - destruct (allocate_Ok w k Hok Hm) as (w1 & Hw1 & _). by simplify_eq.
  - destruct (Z.eqb_spec (getSize w) 0) as [H0|H0].
    + unfold allocateNewEpoch in Hal. unfold getSize in H0. by rewrite H0 in Hal.
    + by rewrite (allocate_stuck w Hok H0 Hm) in Hal.
Qed.

Lemma seqZ_snoc m n : 0 <= n -> seqZ m n ++ [m + n] = seqZ m (n + 1).
Proof. intros Hn. rewrite (seqZ_app m n 1), (seqZ_cons (m + n)) by lia. done. Qed.

Lemma fresh_alloc a w h w' e :
  fresh_inv a w h -> Z.of_nat (length h) < capacity a ->
  allocateNewEpoch 1 w = Some (Ok (w', e)) ->
  e = first_epoch a + Z.of_nat (length h) /\ fresh_inv a w' (h ++ [e]).
Proof.
  intros [Hok Harch Hh Hcur Hfree] Hlen Hal. specialize (Hcur Hlen).
  destruct (allocate_cur _ _ _ _ Hok Hal) as [Hm ->].
  destruct (allocate_Ok w 0 Hok Hm) as (w1 & Hw1 & Hok1 & Ha1 & Hn1 & Hm1 & _).
  simplify_eq. split; [done|].
  assert (Z.of_nat (length (h ++ [cur_ (next_epoch_ w)])) = Z.of_nat (length h) + 1) as Hl
    by (rewrite length_app; simpl; lia).
  split; rewrite ?Hl; [done|done| | |].
  - rewrite Hcur, Hh at 1. apply seqZ_snoc. lia.
  - intros Hlt. rewrite Hn1. unfold increment. simpl.
    rewrite (ok_hi _ Hok), Hcur. unfold capacity, last_epoch, first_epoch in *.
    case_Zbs; lia.
  - intros x Hx. apply Hm1. split; [apply Hfree; lia|lia].
Qed.

Lemma fresh_term a w h w' e :
  fresh_inv a w h -> e ∈ h -> isTerminated w e = Ok false ->
  setEpochTerminated w e = Ok w' -> Z.of_nat (length h) <= capacity a ->
  fresh_inv a w' h.
Proof.
  intros [Hok Harch Hh Hcur Hfree] He Ht Hset Hlen.
  unfold isTerminated in Ht. rewrite contains_spec in Ht by done.
  destruct (IntegralSet.mem_dec_list _ e) as [|Hn]; [done|].
  assert (in_range (archetype_epoch_ w) e) as Hr.
  { rewrite Hh in He. apply elem_of_seqZ in He. rewrite Harch.
    unfold in_range, capacity, last_epoch, first_epoch in *. lia. }
  destruct (setEpochTerminated_Ok w e Hok Hr Hn) as (w1 & Hw1 & Hok1 & Ha1 & Hn1 & Hm1 & _).
  assert (w1 = w') as -> by congruence.
  split; [done|congruence|done|by rewrite Hn1|].
  intros x Hx. apply Hm1. left. by apply Hfree.
Qed.

Lemma wreach_fresh w0 a s :
  window_ok w0 -> archetype_epoch_ w0 = a -> cur_ (next_epoch_ w0) = first_epoch a ->
  (forall x, in_range a x -> mem_t w0 x) ->
  wreach w0 s -> Z.of_nat (length s.2) <= capacity a -> fresh_inv a s.1 s.2.
Proof.
  intros Hok Ha Hc Hm Hr. induction Hr as [|s s' Hr IH Hs]; simpl; intros Hlen.
  - split; simpl; [done|done| |lia|intros x Hx; apply Hm; unfold in_range; lia].
    by rewrite seqZ_nil by lia.
  - inversion Hs as [w h w' e Hal|w h w' e He Ht Hset]; subst; simpl in *.
    + rewrite length_app in Hlen. simpl in Hlen.
      apply (fresh_alloc (archetype_epoch_ w0) w h w' e); [apply IH|..|done]; lia.
    + eapply fresh_term; eauto.
Qed.

End EpochWindow.

(** ** The component *)
Module Component.
Import EpochManip.
Import EpochWindow.
Import RangedCounter.

Record EpochManip := Manip {
  terminated_epochs_ : gmap Z EpochWindow;   (* by archetype *)
  terminated_collective_epochs_ : EpochWindow
}.

(** A pointer to one of the component's windows. *)
Inductive window_ptr := RootedWindow (arch : Z) | CollectiveWindow.

Definition deref (m : EpochManip) (p : window_ptr) : option EpochWindow :=
  match p with
  | RootedWindow a => terminated_epochs_ m !! a
  | CollectiveWindow => Some (terminated_collective_epochs_ m)
  end.

Definition store (m : EpochManip) (p : window_ptr) (w : EpochWindow) : EpochManip :=
  match p with
  | RootedWindow a => Manip (<[a := w]> (terminated_epochs_ m)) (terminated_collective_epochs_ m)
  | CollectiveWindow => Manip (terminated_epochs_ m) w
  end.

(** The constructor, with [arch_epoch_coll = makeEpochZero()]. *)
Definition make : res EpochManip := w ← make_window makeEpochZero; Ok (Manip ∅ w).

Definition getTerminatedWindow (m : EpochManip) (epoch : Z)
    : res (EpochManip * window_ptr) :=
  if isRooted epoch && negb (epoch =? any_epoch_sentinel)
  then
    let arch_epoch := getArchetype epoch in
    match terminated_epochs_ m !! arch_epoch with
    | Some _ => Ok (m, RootedWindow arch_epoch)
    | None =>
        w ← make_window arch_epoch;
        Ok (store m (RootedWindow arch_epoch) w, RootedWindow arch_epoch)
    end
  else Ok (m, CollectiveWindow).

(** [getTerminatedWindow(arch_epoch)->allocateNewEpoch()]. *)
Definition allocateFrom (fuel : nat) (m : EpochManip) (arch_epoch : Z)
    : option (res (EpochManip * Z)) :=
  match getTerminatedWindow m arch_epoch with
  | Stop e => Some (Stop e)
  | Ok (m, p) =>
      match deref m p with
      | None => Some (Stop AssertFailed)
      | Some w =>
          match allocateNewEpoch fuel w with
          | None => None
          | Some (Stop e) => Some (Stop e)
          | Some (Ok (w, epoch)) => Some (Ok (store m p w, epoch))
          end
      end
  end.

Definition getNextCollectiveEpoch (fuel : nat) (m : EpochManip) (category : eEpochCategory)
    : option (res (EpochManip * Z)) :=
  match generateEpoch false uninitialized_destination category with
  | Stop e => Some (Stop e)
  | Ok arch_epoch => allocateFrom fuel m arch_epoch
  end.

(** The overload with the root node. *)
Definition getNextRootedEpochAt (fuel : nat) (m : EpochManip) (category : eEpochCategory)
    (root_node : Z) : option (res (EpochManip * Z)) :=
  match generateEpoch true root_node category with
  | Stop e => Some (Stop e)
  | Ok arch_epoch => allocateFrom fuel m arch_epoch
  end.

(** The overload without: it allocates once through the other overload and then
    again from the window of the epoch it got. *)
Definition getNextRootedEpoch (fuel : nat) (this_node : Z) (m : EpochManip)
    (category : eEpochCategory) : option (res (EpochManip * Z)) :=
  match getNextRootedEpochAt fuel m category this_node with
  | Some (Ok (m, arch_epoch)) => allocateFrom fuel m arch_epoch
  | other => other
  end.

(** The loop gets the same on its first turn as on any later one: given one turn, more fuel
    changes nothing, and if one turn is not enough, no fuel is. *)
Lemma allocate_loop_fuel k w : EpochWindow.allocate_loop (S k) w = EpochWindow.allocate_loop 1 w.
Proof.
  induction k as [|k IH]; [done|]. cbn [EpochWindow.allocate_loop] in *. destruct (IntegralSet.contains _ _) as [[|]|]; try done.
Qed.

Lemma allocateFrom_fuel k m a : allocateFrom (S k) m a = allocateFrom 1 m a.
Proof.
  unfold allocateFrom. destruct (getTerminatedWindow m a) as [[m' p]|]; [|done]. destruct (deref m' p) as [w|]; [|done].
  unfold EpochWindow.allocateNewEpoch. destruct (_ =? 0); [done|]. by rewrite allocate_loop_fuel.
Qed.

Lemma allocateFrom_0 m a : allocateFrom 0 m a = None \/ exists e, allocateFrom 0 m a = Some (Stop e) /\ allocateFrom 1 m a = Some (Stop e).
Proof.
  unfold allocateFrom. destruct (getTerminatedWindow m a) as [[m' p]|]; [|right; by eexists]. destruct (deref m' p) as [w|]; [|right; by eexists].
  unfold EpochWindow.allocateNewEpoch. destruct (_ =? 0); [right; by eexists|by left].
Qed.

Lemma allocateFrom_stuck m a : allocateFrom 1 m a = None -> forall k, allocateFrom k m a = None.
Proof. intros H [|k]; [|by rewrite allocateFrom_fuel]. destruct (allocateFrom_0 m a) as [?|(e & _ & E)]; [done|by rewrite E in H]. Qed.

Lemma getNextRootedEpoch_stuck k this m c : getNextRootedEpoch (S k) this m c = None -> forall k', getNextRootedEpoch k' this m c = None.
Proof.
  unfold getNextRootedEpoch, getNextRootedEpochAt. destruct (generateEpoch true this c) as [a|]; [|done]. rewrite allocateFrom_fuel.
  destruct (allocateFrom 1 m a) as [[[m1 a1]|]|] eqn:E1; [|done|].
  - rewrite allocateFrom_fuel. intros H [|k']; [|by rewrite !allocateFrom_fuel, E1, allocateFrom_fuel].
    destruct (allocateFrom_0 m a) as [E0|(e & _ & E0)]; [by rewrite E0|by rewrite E0 in E1].
  - intros _ k'. by rewrite (allocateFrom_stuck m a E1).
Qed.

Lemma getNextCollectiveEpoch_stuck k m c : getNextCollectiveEpoch (S k) m c = None -> forall k', getNextCollectiveEpoch k' m c = None.
Proof.
  unfold getNextCollectiveEpoch. destruct (generateEpoch false _ c) as [a|]; [|done]. rewrite allocateFrom_fuel. apply allocateFrom_stuck.
Qed.

(** Every window of the table is well-formed and filed under its archetype. *)
Record comp_ok (m : EpochManip) : Prop := {
  co_rooted : forall a w, terminated_epochs_ m !! a = Some w ->
    window_ok w /\ archetype_epoch_ w = a /\ isRooted a = true;
  co_coll : window_ok (terminated_collective_epochs_ m);
  co_zero : archetype_epoch_ (terminated_collective_epochs_ m) = 0
}.

Lemma make_ok : exists m, make = Ok m /\ comp_ok m /\ terminated_epochs_ m = ∅.
Proof.
  unfold make. change makeEpochZero with 0. destruct (make_window_ok 0) as (w & -> & Hok & Ha & _); [done|].
  rewrite res_bind_Ok. eexists. split; [done|]. split; [|done].
  split; simpl; [intros a w' Hl; by rewrite lookup_empty in Hl|done|by rewrite Ha].
Qed.

Lemma deref_store m p w : deref (store m p w) p = Some w.
Proof. destruct p; simpl; [apply lookup_insert_eq|done]. Qed.

(** The state a window table is in for an archetype: the stored window, or the
    one that would be created. *)
Definition window_for (m : EpochManip) (a : Z) (w : EpochWindow) : Prop :=
  terminated_epochs_ m !! a = Some w \/
  terminated_epochs_ m !! a = None /\ make_window a = Ok w.

(** Epochs of a rooted archetype go to the window of that archetype. *)
Lemma getTerminatedWindow_rooted m e :
  comp_ok m -> in_ty EpochType e -> isRooted e = true -> e <> any_epoch_sentinel ->
  exists m' w, getTerminatedWindow m e = Ok (m', RootedWindow (getArchetype e)) /\
    comp_ok m' /\ deref m' (RootedWindow (getArchetype e)) = Some w /\
    window_for m (getArchetype e) w /\
    (forall a, a <> getArchetype e ->
       terminated_epochs_ m' !! a = terminated_epochs_ m !! a) /\
    terminated_collective_epochs_ m' = terminated_collective_epochs_ m.
Proof.
  intros Hok He Hr Hne. unfold getTerminatedWindow. apply Z.eqb_neq in Hne.
  rewrite Hr, Hne. cbn [andb negb].
  destruct (terminated_epochs_ m !! getArchetype e) as [w|] eqn:Hl.
  - exists m, w. split_and!; try done. by left.
  - destruct (make_window_ok (getArchetype e)) as (w & Hw & Hwok & Ha & _);
      [apply setSeq_in_ty|].
    rewrite getArchetype_idem in Ha. rewrite Hw, res_bind_Ok.
    eexists _, w. split; [done|]. split.
    { split; simpl; [|apply (co_coll _ Hok)|apply (co_zero _ Hok)].
      intros a w' [[<- <-]|[_ Hl']]%lookup_insert_Some.
      - split_and!; [done|done|]. by rewrite isRooted_getArchetype.
      - by apply (co_rooted _ Hok). }
    split; [apply deref_store|]. split; [by right|]. split; [|done].
    intros a Hna. simpl. by rewrite lookup_insert_ne.
Qed.

(** Allocating from a rooted archetype whose next epoch is terminated. *)
Lemma allocateFrom_rooted k m e w :
  comp_ok m -> in_ty EpochType e -> isRooted e = true -> e <> any_epoch_sentinel ->
  window_for m (getArchetype e) w -> mem_t w (cur_ (next_epoch_ w)) ->
  exists m' w', allocateFrom (S k) m e = Some (Ok (m', cur_ (next_epoch_ w))) /\
    comp_ok m' /\ window_for m' (getArchetype e) w' /\
    next_epoch_ w' = increment (next_epoch_ w) /\
    (forall y, mem_t w' y <-> mem_t w y /\ y <> cur_ (next_epoch_ w)) /\
    window_ok w /\ archetype_epoch_ w = getArchetype e.
Proof.
  intros Hok He Hr Hne Hw Hm.
  destruct (getTerminatedWindow_rooted m e Hok He Hr Hne)
    as (m1 & w1 & Hg & Hok1 & Hd & Hw1 & Hoth & Hcoll).
  assert (w1 = w) as ->.
  { destruct Hw as [Hw|[Hn Hw]], Hw1 as [Hw1|[Hn1 Hw1]]; congruence. }
  simpl in Hd. destruct (co_rooted _ Hok1 _ _ Hd) as (Hwok & Ha & Hra).
  destruct (allocate_Ok w k Hwok Hm) as (w' & Hal & Hwok' & Ha' & Hn' & Hm' & _).
  unfold allocateFrom. rewrite Hg. simpl. rewrite Hd, Hal.
  eexists _, w'. split; [done|]. split.
  { split; simpl; [|apply (co_coll _ Hok1)|apply (co_zero _ Hok1)].
    intros a v [[<- <-]|[_ Hl]]%lookup_insert_Some; [split_and!; congruence|].
    by apply (co_rooted _ Hok1). }
  split; [left; simpl; apply lookup_insert_eq|]. by split_and!.
Qed.

(** The archetype [generateEpoch] makes for a rooted epoch is not a sentinel. *)
Lemma archetype_not_sentinel a : getArchetype a = a -> a <> any_epoch_sentinel.
Proof. intros Ha ->. vm_compute in Ha. done. Qed.

(** An epoch of a range is not the sentinel, the last of the rooted epochs being
    below it. *)
Lemma in_range_not_sentinel a x :
  in_ty EpochType a -> getArchetype a = a -> in_range a x -> isRooted a = true ->
  category a <= 2 -> 0 <= category a -> x <> any_epoch_sentinel.
Proof.
  intros Ha Harch Hx Hr Hc1 Hc2 ->.
  destruct (in_range_epoch _ _ Ha Harch Hx) as (_ & Hg & _).
  rewrite <- Hg in Hc1. vm_compute in Hc1. done.
Qed.

(** [getNextRootedEpoch(category)] takes two epochs out of the window and hands
    out the second: the first stays active and nobody knows it. *)
Lemma getNextRootedEpoch_two k node m cat w a :
  comp_ok m -> in_ty NodeType node -> node <> uninitialized_destination ->
  generateEpoch true node cat = Ok a -> window_for m a w ->
  let e1 := cur_ (next_epoch_ w) in
  let e2 := cur_ (increment (next_epoch_ w)) in
  mem_t w e1 -> mem_t w e2 -> e1 <> e2 ->
  exists m' w', getNextRootedEpoch (S k) node m cat = Some (Ok (m', e2)) /\
    comp_ok m' /\ window_for m' a w' /\
    (forall y, mem_t w' y <-> mem_t w y /\ y <> e1 /\ y <> e2).
Proof.
  intros Hok Hn Hne Hgen Hw e1 e2 Hm1 Hm2 He12.
  destruct (generateEpoch_Ok true node cat Hn ltac:(done))
    as (a' & Hgen' & Hty & Hr & Hc & _ & Harch & _).
  assert (a' = a) as -> by congruence.
  unfold getNextRootedEpoch, getNextRootedEpochAt. rewrite Hgen.
  destruct (allocateFrom_rooted k m a w) as (m1 & w1 & -> & Hok1 & Hw1 & Hn1 & Hm1' & Hwok & Ha);
    try done; [by apply archetype_not_sentinel|by rewrite Harch|].
  fold e1. rewrite Harch in *.
  assert (in_range a e1) as Hr1 by (rewrite <- Ha; by apply Hwok).
  destruct (in_range_epoch a e1 Hty Harch Hr1) as (Hty1 & Hg1 & Hrt1 & _).
  assert (mem_t w1 (cur_ (next_epoch_ w1))) as Hcur1.
  { rewrite Hn1. apply Hm1'. split; [done|]. intros Heq. by apply He12. }
  destruct (allocateFrom_rooted k m1 e1 w1) as (m2 & w2 & -> & Hok2 & Hw2 & _ & Hm2' & _);
    try done; [congruence| |by rewrite Hg1|].
  { apply (in_range_not_sentinel a); try done; rewrite Hc; by destruct cat. }
  rewrite Hg1 in Hw2. exists m2, w2. rewrite Hn1 in *. split; [done|].
  split; [done|]. split; [done|]. intros y. rewrite Hm2', Hm1'. fold e1 e2. tauto.
Qed.

End Component.

(** ** What the epoch subsystem promises *)
Module EpochSpec.
Import RangedCounter.
Import EpochManip.
Import EpochWindow.
Import Component.

Lemma category_setSeq e s : category (setSeq e s) = category e.
Proof. unfold setSeq, category. bits. case_match; by bits. Qed.

(** Generating an epoch and then numbering it is lossless: every field of the
    64-bit identifier (rooted bit, category, root node, sequence number) reads
    back as written, and the archetype of each numbered epoch is the generated
    one. *)
Theorem generateEpoch_roundtrip is_rooted root cat k :
  in_ty NodeType root -> (is_rooted = true -> root <> uninitialized_destination) ->
  0 <= k < 2 ^ (if is_rooted then epoch_seq_root_num_bits else epoch_seq_coll_num_bits) ->
  exists a, generateEpoch is_rooted root cat = Ok a /\
    let e := setSeq a k in
    isRooted e = is_rooted /\ category e = cat_to_Z cat /\ seq e = k /\
    getArchetype e = a /\ (is_rooted = true -> node e = Ok root).
Proof.
  intros Hroot Hne Hk.
  destruct (generateEpoch_Ok is_rooted root cat Hroot Hne)
    as (a & Hg & Hty & Hr & Hc & _ & Ha & Hn).
  exists a. split; [done|]. cbv zeta.
  assert (seq_bits a = if is_rooted then epoch_seq_root_num_bits else epoch_seq_coll_num_bits)
    as Hb by (unfold seq_bits; by rewrite Hr).
  assert (setSeq a k = a + k) as He.
  { rewrite setSeq_val, <- getArchetype_val, Ha, Z.mod_small by (done || by rewrite Hb). done. }
  rewrite <- Hb in Hk.
  destruct (archetype_plus a k Hty Ha Hk) as (_ & Hr' & Ha' & Hs').
  rewrite isRooted_setSeq, category_setSeq. split_and!; try done; try (by rewrite He).
  intros Ht. specialize (Hn Ht). unfold node in *. rewrite isRooted_setSeq. rewrite Hr, Ht in *.
  simpl in *. rewrite <- Hn. f_equal. unfold setSeq. rewrite Hr. by bits.
Qed.

Lemma generateEpoch_roundtrip_witness :
  exists a, generateEpoch true 7 DijkstraScholtenEpoch = Ok a /\
    let e := setSeq a 5 in
    isRooted e = true /\ category e = 2 /\ seq e = 5 /\ getArchetype e = a /\
    (true = true -> node e = Ok 7).
Proof.
  apply (generateEpoch_roundtrip true 7 DijkstraScholtenEpoch 5);
    [split; vm_compute; discriminate|intros _; vm_compute; discriminate
    |split; vm_compute; first [discriminate|reflexivity]].
Defined.

(** A new window holds, as terminated, exactly the numbered epochs of its
    archetype (sequence numbers 1 to 2^n - 2), so its size is 2^n - 2 and every
    query about one of them answers "terminated" before it is ever activated. *)
Theorem new_window_all_terminated e :
  in_ty EpochType e ->
  exists w, make_window e = Ok w /\ window_ok w /\ getSize w = 2 ^ seq_bits e - 2 /\
    getTotalTerminated w = 0 /\
    forall k, 0 <= k < 2 ^ seq_bits e ->
      isTerminated w (setSeq e k) = Ok (bool_decide (1 <= k <= 2 ^ seq_bits e - 2)).
Proof.
  intros He. destruct (make_window_ok e He) as (w & Hw & Hok & Ha & Hm & Hsz & _ & Ht).
  exists w. split_and!; try done. intros k Hk. unfold isTerminated. rewrite (contains_spec w _ Hok).
  assert (setSeq e k = getArchetype e + k) as ->.
  { by rewrite setSeq_val, getArchetype_val, (Z.mod_small k) by done. }
  f_equal. specialize (Hm (getArchetype e + k)). unfold mem_t, IntegralSet.mem in Hm.
  rewrite (bool_decide_ext _ (in_range (getArchetype e) (getArchetype e + k))).
  - destruct (IntegralSet.mem_dec_list _ _) as [H|H]; symmetry;
      [apply bool_decide_eq_true|apply bool_decide_eq_false]; tauto.
  - unfold in_range, first_epoch, last_epoch. rewrite seq_bits_getArchetype. lia.
Qed.

Lemma new_window_all_terminated_witness :
  exists w, make_window 0 = Ok w /\ window_ok w /\ getSize w = 2 ^ seq_bits 0 - 2 /\
    getTotalTerminated w = 0 /\
    forall k, 0 <= k < 2 ^ seq_bits 0 ->
      isTerminated w (setSeq 0 k) = Ok (bool_decide (1 <= k <= 2 ^ seq_bits 0 - 2)).
Proof. apply (new_window_all_terminated 0). split; vm_compute; first [discriminate|reflexivity]. Defined.

(** C36: Whatever allocations and terminations a window goes through, the epochs
    it hands out are, in order, the archetype's 1st, 2nd, 3rd, ... sequence
    numbers, without a repetition; and until all 2^n - 2 of them have been used
    the next allocation returns at once with the next number. *)
Theorem window_allocates_fresh e w0 w h :
  in_ty EpochType e -> make_window e = Ok w0 -> wreach w0 (w, h) ->
  Z.of_nat (length h) <= capacity (getArchetype e) ->
  h = seqZ (getArchetype e + 1) (Z.of_nat (length h)) /\ NoDup h /\
  (Z.of_nat (length h) < capacity (getArchetype e) ->
   exists w', allocateNewEpoch 1 w = Some (Ok (w', getArchetype e + 1 + Z.of_nat (length h))) /\
              isTerminated w' (getArchetype e + 1 + Z.of_nat (length h)) = Ok false).
Proof.
  intros He Hw0 Hreach Hcap.
  destruct (make_window_ok e He) as (w0' & Hw0' & Hok & Ha & Hm & _ & Hc & _).
  rewrite Hw0 in Hw0'. injection Hw0' as <-.
  pose proof (wreach_fresh w0 (getArchetype e) (w, h) Hok Ha Hc
    (fun x => proj2 (Hm x)) Hreach Hcap) as [Fok Farch Fh Fcur Ffree]. simpl in *.
  unfold first_epoch in *.
  split; [done|]. split; [rewrite Fh; apply NoDup_seqZ|]. intros Hlt.
  specialize (Fcur Hlt). rewrite <- Fcur.
  assert (mem_t w (cur_ (next_epoch_ w))) as Hin.
  { apply Ffree. rewrite Fcur. unfold last_epoch, capacity in *. lia. }
  destruct (allocate_Ok w 0 Fok Hin) as (w' & Hal & Hok' & _ & _ & Hm' & _).
  exists w'. split; [done|]. unfold isTerminated. rewrite (contains_spec w' _ Hok').
  destruct (IntegralSet.mem_dec_list _ _) as [H|H]; [|done].
  by apply Hm' in H as [_ ?].
Qed.

Lemma window_allocates_fresh_witness :
  exists w0, make_window 0 = Ok w0 /\ ([] : list Z) = seqZ (getArchetype 0 + 1) 0 /\
  exists w', allocateNewEpoch 1 w0 = Some (Ok (w', getArchetype 0 + 1 + 0)) /\
              isTerminated w' (getArchetype 0 + 1 + 0) = Ok false.
Proof.
  destruct (make_window 0) as [w0|] eqn:Hw0; [|vm_compute in Hw0; discriminate].
  exists w0. split; [reflexivity|].
  destruct (window_allocates_fresh 0 w0 w0 []) as (H1 & _ & H3);
    [split; vm_compute; first [discriminate|reflexivity]|assumption|apply wreach_init|vm_compute; discriminate|].
  split; [exact H1|]. apply H3. reflexivity.
Defined.

(** The allocation loop only advances its counter when the epoch under it is
    free. Once the counter stands at an epoch that is still active (after it has
    wrapped around, or because a remote activation took that number), the loop
    never returns, although other epochs are free. *)
Theorem allocate_never_returns w :
  window_ok w -> getSize w <> 0 -> ~ mem_t w (cur_ (next_epoch_ w)) ->
  forall fuel, allocateNewEpoch fuel w = None.
Proof. apply allocate_stuck. Qed.

(** A window whose first epoch was activated by a message from another node. *)
Definition sample_window : EpochWindow :=
  match (w ← make_window 0; activateEpoch w 1) with
  | Ok w => w
  | Stop _ => Window 0 IntegralSet.iset_empty (RangedCounter.make 0 0) 0
  end.

Lemma sample_window_ok : window_ok sample_window.
Proof.
  destruct (make_window_ok 0) as (w & Hw & Hok & Ha & Hm & _); [split; vm_compute; first [discriminate|reflexivity]|].
  destruct (activateEpoch_Ok w 1 Hok) as (w' & Hw' & Hok' & _).
  { apply Hm. split; vm_compute; discriminate. }
  unfold sample_window. rewrite Hw, res_bind_Ok, Hw'. done.
Qed.

Lemma allocate_never_returns_witness : allocateNewEpoch 1000 sample_window = None.
Proof.
  apply (allocate_never_returns sample_window);
    [apply sample_window_ok|vm_compute; discriminate|].
  intros Hm.
  assert (IntegralSet.contains (EpochWindow.terminated_epochs_ sample_window)
            (cur_ (next_epoch_ sample_window)) = Ok true) as H.
  { rewrite (contains_spec _ _ sample_window_ok).
    destruct (IntegralSet.mem_dec_list _ _) as [?|Hn]; [reflexivity|exfalso; apply Hn, Hm]. }
  vm_compute in H. discriminate.
Defined.

(** [getNextRootedEpoch(category)] draws two epochs from the window for every
    one it returns: the first is activated, used as if it were the archetype, and
    never handed out. *)
Theorem getNextRootedEpoch_leaks k node m cat w a :
  comp_ok m -> in_ty NodeType node -> node <> uninitialized_destination ->
  generateEpoch true node cat = Ok a -> window_for m a w ->
  let e1 := cur_ (next_epoch_ w) in
  let e2 := cur_ (increment (next_epoch_ w)) in
  mem_t w e1 -> mem_t w e2 -> e1 <> e2 ->
  exists m' w', getNextRootedEpoch (S k) node m cat = Some (Ok (m', e2)) /\
    comp_ok m' /\ window_for m' a w' /\
    (forall y, mem_t w' y <-> mem_t w y /\ y <> e1 /\ y <> e2).
Proof. apply getNextRootedEpoch_two. Qed.

Lemma getNextRootedEpoch_leaks_witness :
  exists a w m m' w', generateEpoch true 3 NoCategoryEpoch = Ok a /\
    make_window a = Ok w /\ make = Ok m /\
    getNextRootedEpoch 1 3 m NoCategoryEpoch = Some (Ok (m', a + 2)) /\
    (forall y, mem_t w' y <-> mem_t w y /\ y <> a + 1 /\ y <> a + 2).
Proof.
  destruct (generateEpoch_Ok true 3 NoCategoryEpoch) as (a & Hg & Hty & _ & _ & _ & Ha & _);
    [split; vm_compute; discriminate|vm_compute; discriminate|].
  destruct (make_window_ok a Hty) as (w & Hw & Hok & Harch & Hm & _ & Hc & _).
  destruct make_ok as (m & Hmk & Hcomp & Hempty).
  exists a, w, m. rewrite Ha in *.
  assert (cur_ (increment (next_epoch_ w)) = a + 2) as H2.
  { unfold increment. simpl. rewrite (ok_hi w Hok), Hc, Harch.
    unfold first_epoch, last_epoch.
    destruct (seq_bits_cases a) as [->| ->]; rewrite (proj2 (Z.ltb_lt _ _)) by lia; lia. }
  unfold first_epoch in Hc.
  destruct (getNextRootedEpoch_leaks 0 3 m NoCategoryEpoch w a) as (m' & w' & Hn & _ & _ & Hm');
    [done|split; vm_compute; discriminate|vm_compute; discriminate|done
    |right; by rewrite Hempty
    |rewrite Hc; apply Hm|rewrite H2; apply Hm|rewrite Hc, H2; lia|].
  - unfold in_range, first_epoch, last_epoch. destruct (seq_bits_cases a) as [->| ->]; lia.
  - unfold in_range, first_epoch, last_epoch. destruct (seq_bits_cases a) as [->| ->]; lia.
  - exists m', w'. rewrite Hc, H2 in *. auto.
Defined.

End EpochSpec.
