(* ===== verification/Sums.v ===== *)
(** * Sums over nodes and over messages in flight

    The distributed parts of the development count: units produced, messages
    sent, acknowledgments owed. [zsum N f] is the sum of [f] over the nodes
    [0 .. N-1], [lsum f l] the sum of [f] over a list of messages. Node-indexed
    state is a function of the node, updated with stdpp's [<[i := x]> st]. *)

From S2P Require Import Prelude.

Definition lsum {A} (f : A -> Z) (l : list A) : Z := foldr (fun a s => f a + s) 0 l.

Lemma lsum_nil {A} (f : A -> Z) : lsum f [] = 0.
Proof. done. Qed.

Lemma lsum_cons {A} (f : A -> Z) a l : lsum f (a :: l) = f a + lsum f l.
Proof. done. Qed.

Lemma lsum_app {A} (f : A -> Z) l1 l2 : lsum f (l1 ++ l2) = lsum f l1 + lsum f l2.
Proof. induction l1 as [|a l IH]; simpl; [done|]. rewrite IH. lia. Qed.

(** Taking one element out. *)
Lemma lsum_pick {A} (f : A -> Z) l k x :
  l !! k = Some x -> lsum f l = f x + lsum f (take k l ++ drop (S k) l).
Proof.
  intros Hk. pose proof (take_drop_middle _ _ _ Hk) as E. rewrite <- E at 1.
  rewrite !lsum_app, lsum_cons. lia.
Qed.

Lemma lsum_nonneg {A} (f : A -> Z) l : (forall a, a ∈ l -> 0 <= f a) -> 0 <= lsum f l.
Proof.
  induction l as [|a l IH]; intros H; simpl; [done|].
  pose proof (H a ltac:(elems)). specialize (IH ltac:(intros; apply H; elems)). lia.
Qed.

Lemma lsum_elem_le {A} (f : A -> Z) l a :
  (forall b, b ∈ l -> 0 <= f b) -> a ∈ l -> f a <= lsum f l.
Proof.
  intros H (l1 & l2 & ->)%list_elem_of_split. rewrite lsum_app, lsum_cons.
  pose proof (lsum_nonneg f l1 ltac:(intros; apply H; elems)).
  pose proof (lsum_nonneg f l2 ltac:(intros; apply H; elems)). lia.
Qed.

Lemma lsum_pos {A} (f : A -> Z) l :
  0 < lsum f l -> exists a, a ∈ l /\ 0 < f a.
Proof.
  induction l as [|a l IH]; simpl; [lia|]. intros H.
  destruct (decide (0 < f a)); [exists a; elems|].
  destruct IH as (b & Hb & Hp); [lia|]. exists b. elems.
Qed.

Lemma lsum_ext {A} (f g : A -> Z) l : (forall a, a ∈ l -> f a = g a) -> lsum f l = lsum g l.
Proof.
  induction l as [|a l IH]; intros H; simpl; [done|].
  rewrite (H a), IH; [done|intros; apply H; elems|elems].
Qed.

Lemma lsum_add {A} (f g : A -> Z) l : lsum (fun a => f a + g a) l = lsum f l + lsum g l.
Proof. induction l as [|a l IH]; simpl; lia. Qed.

Lemma lsum_0 {A} (f : A -> Z) l : (forall a, a ∈ l -> f a = 0) -> lsum f l = 0.
Proof.
  induction l as [|a l IH]; intros H; simpl; [done|].
  rewrite (H a), IH; [done|intros; apply H; elems|elems].
Qed.

(** A message still in flight after another one is taken out was in flight. *)
(** All of a sum of zeros and ones. *)
Lemma lsum_ones {A} (f : A -> Z) l :
  (forall a, a ∈ l -> 0 <= f a <= 1) -> lsum f l <= Z.of_nat (length l) /\
  (lsum f l = Z.of_nat (length l) -> forall a, a ∈ l -> f a = 1).
Proof.
  induction l as [|x l IH]; intros H; [split; [simpl; lia|intros _ a Ha; by apply elem_of_nil in Ha]|].
  destruct IH as [IH1 IH2]; [intros a Ha; apply H; by right|]. pose proof (H x ltac:(left)) as Hx.
  rewrite lsum_cons. cbn [length]. split; [lia|]. intros E a [->|Ha]%elem_of_cons; [lia|]. apply IH2; [lia|done].
Qed.

Lemma lsum_one `{EqDecision A} (f : A -> Z) l a :
  NoDup l -> a ∈ l -> (forall b, b ∈ l -> b <> a -> f b = 0) -> lsum f l = f a.
Proof.
  induction l as [|x l IH]; intros Hnd Ha Hf; [by apply elem_of_nil in Ha|]. rewrite lsum_cons.
  pose proof (NoDup_cons_1_1 _ _ Hnd) as Hx. pose proof (NoDup_cons_1_2 _ _ Hnd) as Hnd'. destruct (decide (x = a)) as [->|Hne].
  - rewrite (lsum_0 f l); [lia|]. intros b Hb. apply Hf; [by right|]. by intros ->.
  - apply elem_of_cons in Ha as [->|Ha]; [done|]. rewrite IH; [|done..|].
    + rewrite (Hf x); [lia|left|done].
    + intros b Hb. apply Hf. by right.
Qed.

Lemma lsum_filter {A} (f : A -> Z) (P : A -> Prop) `{!forall a, Decision (P a)} l :
  (forall a, ~ P a -> f a = 0) -> lsum f (filter P l) = lsum f l.
Proof.
  intros Hf. induction l as [|a l IH]; [done|]. rewrite filter_cons, lsum_cons. case_decide; [by rewrite lsum_cons, IH|].
  rewrite IH, (Hf a); [lia|done].
Qed.

Lemma elem_of_middle {A} (x y : A) l1 l2 : x ∈ l1 ++ l2 -> x ∈ l1 ++ y :: l2.
Proof. rewrite !elem_of_app, elem_of_cons. tauto. Qed.

Lemma elem_of_pick {A} (l : list A) k x y :
  l !! k = Some x -> y ∈ l <-> y = x \/ y ∈ take k l ++ drop (S k) l.
Proof.
  intros Hk. pose proof (take_drop_middle _ _ _ Hk) as E. rewrite <- E at 1.
  rewrite !elem_of_app, elem_of_cons. tauto.
Qed.

(** The nodes. *)
Definition nodes_of (N : Z) : list Z := seqZ 0 N.

Lemma elem_of_nodes N i : i ∈ nodes_of N <-> 0 <= i < N.
Proof. unfold nodes_of. rewrite elem_of_seqZ. lia. Qed.

Definition zsum (N : Z) (f : Z -> Z) : Z := lsum f (nodes_of N).

Section Zsum.
Context (N : Z).

Lemma zsum_ext f g : (forall i, 0 <= i < N -> f i = g i) -> zsum N f = zsum N g.
Proof. intros H. apply lsum_ext. intros i Hi%elem_of_nodes. auto. Qed.

Lemma zsum_add f g : zsum N (fun i => f i + g i) = zsum N f + zsum N g.
Proof. apply lsum_add. Qed.

Lemma zsum_nonneg f : (forall i, 0 <= i < N -> 0 <= f i) -> 0 <= zsum N f.
Proof. intros H. apply lsum_nonneg. intros i Hi%elem_of_nodes. auto. Qed.

Lemma zsum_0 f : (forall i, 0 <= i < N -> f i = 0) -> zsum N f = 0.
Proof. intros H. apply lsum_0. intros i Hi%elem_of_nodes. auto. Qed.

Lemma zsum_le f g : (forall i, 0 <= i < N -> f i <= g i) -> zsum N f <= zsum N g.
Proof.
  intros H. pose proof (zsum_nonneg (fun i => g i - f i)) as Hn.
  assert (zsum N g = zsum N (fun i => (g i - f i) + f i)) as ->
    by (apply zsum_ext; intros; lia).
  rewrite zsum_add. specialize (Hn ltac:(intros i Hi; specialize (H i Hi); lia)). lia.
Qed.

Lemma zsum_elem_le f i :
  (forall j, 0 <= j < N -> 0 <= f j) -> 0 <= i < N -> f i <= zsum N f.
Proof.
  intros H Hi. apply lsum_elem_le; [|by apply elem_of_nodes].
  intros j Hj%elem_of_nodes. auto.
Qed.

Lemma zsum_pos f : 0 < zsum N f -> exists i, 0 <= i < N /\ 0 < f i.
Proof. intros (i & Hi%elem_of_nodes & Hp)%lsum_pos. eauto. Qed.

(** Summands that are bounded and have equal sums are equal. *)
Lemma zsum_le_eq f g :
  (forall i, 0 <= i < N -> f i <= g i) -> zsum N g <= zsum N f ->
  forall i, 0 <= i < N -> f i = g i.
Proof.
  intros H Hs i Hi. pose proof (zsum_elem_le (fun j => g j - f j) i) as He. simpl in He.
  assert (zsum N g = zsum N (fun j => (g j - f j)) + zsum N f) as Hg.
  { rewrite <- zsum_add. apply zsum_ext. intros; lia. }
  specialize (He ltac:(intros j Hj; specialize (H j Hj); lia) Hi).
  specialize (H i Hi). lia.
Qed.

Lemma lsum_insert_notin {A} (F : Z -> A -> Z) (st : Z -> A) i x l :
  i ∉ l -> lsum (fun j => F j (<[i := x]> st j)) l = lsum (fun j => F j (st j)) l.
Proof.
  intros Hi. apply lsum_ext. intros j Hj. rewrite fn_lookup_insert_ne; [done|].
  by intros ->.
Qed.

(** Updating one node changes a sum by the change of its summand. *)
Lemma zsum_insert {A} (F : Z -> A -> Z) (st : Z -> A) i x :
  0 <= i < N ->
  zsum N (fun j => F j (<[i := x]> st j)) = zsum N (fun j => F j (st j)) - F i (st i) + F i x.
Proof.
  intros Hi%elem_of_nodes. unfold zsum.
  assert (NoDup (nodes_of N)) as Hnd by apply NoDup_seqZ.
  apply list_elem_of_split in Hi as (l1 & l2 & Hl). rewrite Hl in *.
  apply NoDup_app in Hnd as (_ & Hd & [Hn2 _]%NoDup_cons).
  rewrite !lsum_app, !lsum_cons, fn_lookup_insert.
  rewrite !lsum_insert_notin; [lia|done|]. intros H1. apply (Hd i H1). elems.
Qed.

Lemma zsum_const c : 0 <= N -> zsum N (fun _ => c) = N * c.
Proof.
  intros HN. unfold zsum. assert (forall l : list Z, lsum (fun _ => c) l = Z.of_nat (length l) * c) as ->.
  { induction l as [|a l IH]; [done|]. rewrite lsum_cons, IH. cbn [length].
    rewrite Nat2Z.inj_succ. ring. }
  unfold nodes_of. rewrite length_seqZ, Z2Nat.id by done. done.
Qed.

(** Changing one summand. *)
Lemma zsum_change f g i :
  0 <= i < N -> (forall j, 0 <= j < N -> j <> i -> g j = f j) ->
  zsum N g = zsum N f - f i + g i.
Proof.
  intros Hi H. pose proof (zsum_insert (fun _ x => x) f i (g i) Hi) as Hs. simpl in Hs.
  etransitivity; [|exact Hs]. apply zsum_ext. intros j Hj. destruct (decide (j = i)) as [->|Hne].
  - by rewrite fn_lookup_insert.
  - rewrite fn_lookup_insert_ne by done. auto.
Qed.

End Zsum.

(** A predicate as 0 or 1. *)
Definition b2z (b : bool) : Z := if b then 1 else 0.

Lemma b2z_range b : 0 <= b2z b <= 1.
Proof. destruct b; simpl; lia. Qed.

(** ** Sums over the values of a map *)
Definition msum {A} (f : A -> Z) (m : gmap Z A) : Z := lsum (fun p => f p.2) (map_to_list m).

Lemma lsum_perm {A} (f : A -> Z) l1 l2 : l1 ≡ₚ l2 -> lsum f l1 = lsum f l2.
Proof. induction 1; simpl; lia. Qed.

Lemma msum_insert_new {A} (f : A -> Z) m i x :
  m !! i = None -> msum f (<[i := x]> m) = f x + msum f m.
Proof. intros H. unfold msum. by rewrite (lsum_perm _ _ _ (map_to_list_insert m i x H)). Qed.

Lemma msum_delete {A} (f : A -> Z) m i :
  msum f (delete i m) = msum f m - from_option f 0 (m !! i).
Proof.
  destruct (m !! i) as [x|] eqn:H; simpl.
  - rewrite <- (insert_delete_id m i x H) at 2. rewrite msum_insert_new by apply lookup_delete_eq. lia.
  - rewrite delete_id by done. lia.
Qed.

Lemma msum_insert {A} (f : A -> Z) m i x :
  msum f (<[i := x]> m) = msum f m - from_option f 0 (m !! i) + f x.
Proof.
  rewrite <- insert_delete_eq, msum_insert_new by apply lookup_delete_eq.
  rewrite msum_delete. lia.
Qed.

Lemma msum_ext {A} (f g : A -> Z) m : (forall a, f a = g a) -> msum f m = msum g m.
Proof. intros H. apply lsum_ext. intros p _. apply H. Qed.

Lemma msum_0 {A} (f : A -> Z) m : (forall k a, m !! k = Some a -> f a = 0) -> msum f m = 0.
Proof. intros H. apply lsum_0. intros [k a] Hp. by apply (H k), elem_of_map_to_list. Qed.

Lemma msum_nonneg {A} (f : A -> Z) m : (forall a, 0 <= f a) -> 0 <= msum f m.
Proof. intros H. by apply lsum_nonneg. Qed.

Lemma msum_alter {A} (f : A -> Z) (g : A -> A) i m :
  (forall a, f (g a) = f a) -> msum f (alter g i m) = msum f m.
Proof.
  intros H. destruct (m !! i) as [x|] eqn:Hi.
  - assert (alter g i m = <[i := g x]> m) as ->.
    { apply map_eq. intros j. destruct (decide (i = j)) as [<-|Hne].
      - by rewrite lookup_alter_eq, lookup_insert_eq, Hi.
      - by rewrite lookup_alter_ne, lookup_insert_ne. }
    rewrite msum_insert, Hi. simpl. rewrite H. lia.
  - assert (alter g i m = m) as ->; [|done].
    apply map_eq. intros j. destruct (decide (i = j)) as [<-|Hne].
    + by rewrite lookup_alter_eq, Hi.
    + by rewrite lookup_alter_ne.
Qed.

(** ** Sums in a commutative monoid

    The values a reduction carries are combined by an operator that is
    associative and commutative; the laws are what the proofs about it use. *)
Class CommMonoid (M : Type) := {
  mzero : M;
  madd : M -> M -> M;
  madd_comm x y : madd x y = madd y x;
  madd_assoc x y z : madd x (madd y z) = madd (madd x y) z;
  madd_0_l x : madd mzero x = x
}.
Arguments mzero : simpl never.
Arguments madd : simpl never.
Infix "⊕" := madd (at level 50, left associativity).

Section MonoidSum.
Context {M : Type} `{!CommMonoid M}.
Implicit Types x y : M.

Lemma madd_0_r x : x ⊕ mzero = x.
Proof. by rewrite madd_comm, madd_0_l. Qed.

Lemma madd_left_comm x y (z : M) : x ⊕ (y ⊕ z) = y ⊕ (x ⊕ z).
Proof. by rewrite !madd_assoc, (madd_comm x). Qed.

Lemma madd_shuffle (u eu r er l el : M) :
  (u ⊕ eu) ⊕ ((r ⊕ er) ⊕ (l ⊕ el)) = ((eu ⊕ (er ⊕ el)) ⊕ u) ⊕ (r ⊕ l).
Proof.
  rewrite <- !madd_assoc. symmetry.
  rewrite (madd_left_comm el u), (madd_left_comm er u), (madd_left_comm eu u).
  rewrite (madd_left_comm el r), (madd_left_comm er r), (madd_comm el l). done.
Qed.

Definition bsum {A} (f : A -> M) (l : list A) : M := foldr (fun a s => f a ⊕ s) mzero l.

Lemma bsum_nil {A} (f : A -> M) : bsum f [] = mzero.
Proof. done. Qed.

Lemma bsum_cons {A} (f : A -> M) a l : bsum f (a :: l) = f a ⊕ bsum f l.
Proof. done. Qed.

Lemma bsum_app {A} (f : A -> M) l1 l2 : bsum f (l1 ++ l2) = bsum f l1 ⊕ bsum f l2.
Proof.
  induction l1 as [|a l IH]; simpl; [by rewrite madd_0_l|]. by rewrite IH, madd_assoc.
Qed.

Lemma bsum_snoc {A} (f : A -> M) l a : bsum f (l ++ [a]) = bsum f l ⊕ f a.
Proof. rewrite bsum_app. simpl. by rewrite madd_0_r. Qed.

Lemma bsum_ext {A} (f g : A -> M) l : (forall a, a ∈ l -> f a = g a) -> bsum f l = bsum g l.
Proof.
  induction l as [|a l IH]; intros H; simpl; [done|].
  rewrite (H a), IH; [done|intros; apply H; elems|elems].
Qed.

Lemma bsum_0 {A} (f : A -> M) l : (forall a, a ∈ l -> f a = mzero) -> bsum f l = mzero.
Proof.
  induction l as [|a l IH]; intros H; simpl; [done|].
  rewrite (H a), IH, madd_0_l; [done|intros; apply H; elems|elems].
Qed.

Lemma bsum_perm {A} (f : A -> M) l1 l2 : l1 ≡ₚ l2 -> bsum f l1 = bsum f l2.
Proof.
  induction 1; simpl; [done|congruence|apply madd_left_comm|congruence].
Qed.

Lemma bsum_map {A B} (f : B -> M) (g : A -> B) l : bsum f (map g l) = bsum (fun a => f (g a)) l.
Proof. induction l as [|a l IH]; simpl; [done|]. by rewrite IH. Qed.

(** Over the nodes. *)
Definition bnsum (N : Z) (f : Z -> M) : M := bsum f (nodes_of N).

(** Two families that differ at one node have sums that differ by its summand. *)
Lemma bnsum_change N (f g : Z -> M) i :
  0 <= i < N -> (forall j, 0 <= j < N -> j <> i -> g j = f j) ->
  exists r, bnsum N f = f i ⊕ r /\ bnsum N g = g i ⊕ r.
Proof.
  intros Hi%elem_of_nodes H. unfold bnsum.
  assert (NoDup (nodes_of N)) as Hnd by apply NoDup_seqZ.
  assert (forall j, j ∈ nodes_of N -> j <> i -> g j = f j) as H' by (intros j Hj%elem_of_nodes; auto).
  apply list_elem_of_split in Hi as (l1 & l2 & Hl). rewrite Hl in *.
  apply NoDup_app in Hnd as (_ & Hd & [Hn2 _]%NoDup_cons).
  exists (bsum f l1 ⊕ bsum f l2).
  rewrite !bsum_app, !bsum_cons, (bsum_ext g f l1), (bsum_ext g f l2).
  - split; apply madd_left_comm.
  - intros j Hj. apply H'; [elems|]. by intros ->.
  - intros j Hj. apply H'; [elems|]. intros ->. apply (Hd i Hj). elems.
Qed.

Lemma bnsum_same N (f g : Z -> M) : (forall i, 0 <= i < N -> f i = g i) -> bnsum N f = bnsum N g.
Proof. intros H. apply bsum_ext. intros i Hi%elem_of_nodes. auto. Qed.

Lemma bnsum_0 N (f : Z -> M) : (forall i, 0 <= i < N -> f i = mzero) -> bnsum N f = mzero.
Proof. intros H. apply bsum_0. intros i Hi%elem_of_nodes. auto. Qed.

End MonoidSum.
