(* ===== verification/Effects.v ===== *)
(** * A monad for operations on one object

    An operation of a component reads and writes the component's state, may stop
    in an assertion, and lists what it does to the outside (messages sent,
    functions called) in order. Components whose operations call each other are
    written in it. *)

From S2P Require Import Prelude.

Definition Eff (S O A : Type) : Type := S -> res (A * S * list O).

#[export] Instance eff_ret S O : MRet (Eff S O) := fun A a s => Ok (a, s, []).
#[export] Instance eff_bind S O : MBind (Eff S O) := fun A B f m s =>
  match m s with
  | Stop e => Stop e
  | Ok (a, s1, o1) =>
      match f a s1 with
      | Stop e => Stop e
      | Ok (b, s2, o2) => Ok (b, s2, o1 ++ o2)
      end
  end.

Section effects.
Context {S O : Type}.

Definition get : Eff S O S := fun s => Ok (s, s, []).
Definition modify (f : S -> S) : Eff S O unit := fun s => Ok (tt, f s, []).
Definition emit (o : O) : Eff S O unit := fun s => Ok (tt, s, [o]).
Definition nop : Eff S O unit := mret tt.
Definition assert_ (b : bool) : Eff S O unit := fun s => vtAssert b (Ok (tt, s, [])).
(** A computation that does not touch the state. *)
Definition lift {A} (r : res A) : Eff S O A := fun s => a ← r; Ok (a, s, []).
Fixpoint for_each {A} (l : list A) (f : A -> Eff S O unit) : Eff S O unit :=
  match l with [] => nop | a :: l => f a ;; for_each l f end.

Fixpoint map_each {A B} (l : list A) (f : A -> Eff S O B) : Eff S O (list B) :=
  match l with
  | [] => mret []
  | a :: l => b ← f a; bs ← map_each l f; mret (b :: bs)
  end.

(** ** Running an operation whose parts' results are known *)

Lemma run_bind {A B} (m : Eff S O A) (f : A -> Eff S O B) s a s1 o1 b s2 o2 :
  m s = Ok (a, s1, o1) -> f a s1 = Ok (b, s2, o2) -> (m ≫= f) s = Ok (b, s2, o1 ++ o2).
Proof. intros H1 H2. unfold mbind, eff_bind. by rewrite H1, H2. Qed.

Lemma run_step {A B} (m : Eff S O A) (f : A -> Eff S O B) s a s1 o1 :
  m s = Ok (a, s1, o1) ->
  (m ≫= f) s = match f a s1 with Ok (b, s2, o2) => Ok (b, s2, o1 ++ o2) | Stop e => Stop e end.
Proof. intros H. unfold mbind, eff_bind. by rewrite H. Qed.

Lemma run_get {B} (f : S -> Eff S O B) s : (get ≫= f) s = f s s.
Proof. unfold mbind, eff_bind, get. destruct (f s s) as [[[? ?] ?]|]; done. Qed.

Lemma run_modify {B} (g : S -> S) (f : unit -> Eff S O B) s : (modify g ≫= f) s = f tt (g s).
Proof. unfold mbind, eff_bind, modify. destruct (f tt (g s)) as [[[? ?] ?]|]; done. Qed.

Lemma run_assert {B} b (f : unit -> Eff S O B) s : b = true -> (assert_ b ≫= f) s = f tt s.
Proof.
  intros ->. unfold mbind, eff_bind, assert_. simpl. destruct (f tt s) as [[[? ?] ?]|]; done.
Qed.

Lemma run_lift {A B} (r : res A) (f : A -> Eff S O B) s a : r = Ok a -> (lift r ≫= f) s = f a s.
Proof. intros ->. unfold mbind, eff_bind, lift. simpl. destruct (f a s) as [[[? ?] ?]|]; done. Qed.

Lemma run_ret {A B} (a : A) (f : A -> Eff S O B) s : (mret a ≫= f) s = f a s.
Proof. unfold mbind, eff_bind, mret, eff_ret. destruct (f a s) as [[[? ?] ?]|]; done. Qed.

Lemma run_emit {B} (o : O) (f : unit -> Eff S O B) s :
  (emit o ≫= f) s = match f tt s with Ok (b, s', os) => Ok (b, s', o :: os) | Stop e => Stop e end.
Proof. unfold mbind, eff_bind, emit. destruct (f tt s) as [[[? ?] ?]|]; done. Qed.

Lemma eff_bind_inv {A B} (m : Eff S O A) (f : A -> Eff S O B) s b s2 os :
  (m ≫= f) s = Ok (b, s2, os) ->
  exists a s1 o1 o2, m s = Ok (a, s1, o1) /\ f a s1 = Ok (b, s2, o2) /\ os = o1 ++ o2.
Proof.
  unfold mbind, eff_bind. destruct (m s) as [[[a s1] o1]|]; [|done].
  destruct (f a s1) as [[[b' s2'] o2]|] eqn:E; [|done]. intros [= <- <- <-]. by exists a, s1, o1, o2.
Qed.

(** ** What holds when an operation returns

    [wp div m s Φ]: run in [s], the operation returns a result, a state and outputs as [Φ]
    says; it fails no assertion, and runs out of fuel only if [div] allows it. *)
Section wp.
Context (div : Prop).

Definition wp {A} (m : Eff S O A) (s : S) (Φ : A -> S -> list O -> Prop) : Prop :=
  match m s with Ok (a, s', os) => Φ a s' os | Stop e => e = NoReturn /\ div end.

Lemma wp_mono {A} (m : Eff S O A) s (Φ Ψ : A -> S -> list O -> Prop) :
  (forall a s' os, Φ a s' os -> Ψ a s' os) -> wp m s Φ -> wp m s Ψ.
Proof. unfold wp. destruct (m s) as [[[a s'] os]|e]; auto. Qed.

Lemma wp_bind {A B} (m : Eff S O A) (f : A -> Eff S O B) s (Φ : B -> S -> list O -> Prop) :
  wp m s (fun a s1 o1 => wp (f a) s1 (fun b s2 o2 => Φ b s2 (o1 ++ o2))) -> wp (m ≫= f) s Φ.
Proof.
  unfold wp, mbind, eff_bind. destruct (m s) as [[[a s1] o1]|e]; [|done].
  by destruct (f a s1) as [[[b s2] o2]|e].
Qed.

Lemma wp_ret {A} (a : A) s (Φ : A -> S -> list O -> Prop) : Φ a s [] -> wp (mret a) s Φ.
Proof. done. Qed.

Lemma wp_get s (Φ : S -> S -> list O -> Prop) : Φ s s [] -> wp get s Φ.
Proof. done. Qed.

Lemma wp_modify f s (Φ : unit -> S -> list O -> Prop) : Φ tt (f s) [] -> wp (modify f) s Φ.
Proof. done. Qed.

Lemma wp_emit o s (Φ : unit -> S -> list O -> Prop) : Φ tt s [o] -> wp (emit o) s Φ.
Proof. done. Qed.

Lemma wp_assert b s (Φ : unit -> S -> list O -> Prop) : b = true -> Φ tt s [] -> wp (assert_ b) s Φ.
Proof. unfold wp, assert_. by intros ->. Qed.

Lemma wp_lift {A} (r : res A) a s (Φ : A -> S -> list O -> Prop) : r = Ok a -> Φ a s [] -> wp (lift r) s Φ.
Proof. unfold wp, lift. by intros ->. Qed.

End wp.

End effects.
