(* ===== verification/Tree.v ===== *)
(** * The spanning tree of the nodes

    Models [src/vt/collective/tree/tree.{h,cc}]: the binary tree that carries
    termination waves, broadcasts, reductions and barriers. The theorems say it
    is a spanning tree rooted at node 0. *)

From S2P Require Import Prelude.
From S2P Require Import Sums.
From S2P Require Import Ids.

Module Tree.

(** The members of [class Tree]; [theContext()]'s node and node count are
    arguments of the operations that read them. *)
Record Tree := MkTree {
  set_up_tree_ : bool;
  parent_ : Z;
  is_root_ : bool;
  children_ : list Z
}.

(** The state before the constructor's body runs. *)
Definition unset : Tree := MkTree false uninitialized_destination false [].

(** [getChildren(node)]; a child is converted to [NodeType] when it is pushed. *)
Definition getChildrenOf (num_nodes node : Z) : list Z :=
  let c1_ := node * 2 + 1 in
  let c2_ := node * 2 + 2 in
  (if c1_ <? num_nodes then [c1_] else []) ++ (if c2_ <? num_nodes then [c2_] else []).

(** [setupTree]; C++ division truncates. *)
Definition setupTree (this_node num_nodes : Z) (t : Tree) : Tree :=
  if negb (set_up_tree_ t)
  then
    let c1_ := this_node * 2 + 1 in
    let c2_ := this_node * 2 + 2 in
    let children := children_ t ++ (if c1_ <? num_nodes then [c1_] else []) in
    let children := children ++ (if c2_ <? num_nodes then [c2_] else []) in
    let is_root := this_node =? 0 in
    let parent := if negb is_root then Z.quot (this_node - 1) 2 else parent_ t in
    MkTree true parent is_root children
  else t.

(** The three constructors. *)
Definition makeDefault (this_node num_nodes : Z) : Tree := setupTree this_node num_nodes unset.
Definition makeExplicit (in_is_root : bool) (parent : Z) (in_children : list Z) : Tree :=
  MkTree true parent in_is_root in_children.
Definition makeRootOf (in_children : list Z) : Tree :=
  MkTree false uninitialized_destination true in_children.

Definition getParent (t : Tree) : Z := parent_ t.
Definition getNumChildren (t : Tree) : Z := Z.of_nat (length (children_ t)).
Definition isRoot (t : Tree) : bool := is_root_ t.
Definition getChildren (t : Tree) : list Z := children_ t.

(** [foreachChild(op)]: the operation folded over the children in order. *)
Definition foreachChild {S} (t : Tree) (op : Z -> S -> S) (s : S) : S :=
  if (0 <? length (children_ t))%nat then fold_left (fun s c => op c s) (children_ t) s else s.

(** [foreachChild(level, op)]: the operation on every position of one level,
    whether or not there is such a node. *)
Definition foreachLevel {S} (level : Z) (op : Z -> S -> S) (s : S) : S :=
  let start := 2 ^ level - 1 in
  let end_ := 2 ^ (level + 1) - 1 in
  fold_left (fun s c => op c s) (seqZ start (end_ - start)) s.

(** [numLevels]: [log2] of the node count, truncated. *)
Definition numLevels (num_nodes : Z) : Z := Z.log2 num_nodes.

(** [getNumDescendants(child)], [std::size_t] arithmetic; fuel bounds the depth. *)
Fixpoint getNumDescendantsOf (fuel : nat) (num_nodes child : Z) : option Z :=
  match fuel with
  | O => None
  | S k =>
      let children := getChildrenOf num_nodes child in
      let step total elm :=
        match total, getNumDescendantsOf k num_nodes elm with
        | Some t, Some n => Some (wrap u64 (t + n))
        | _, _ => None
        end in
      match fold_left step children (Some 0) with
      | Some total => Some (wrap u64 (total + Z.of_nat (length children)))
      | None => None
      end
  end.

(** [getNumDescendants()] of this node; note that the children themselves are
    not counted. *)
Definition getNumDescendants (fuel : nat) (num_nodes : Z) (t : Tree) : option Z :=
  foreachChild t (fun child total =>
    match total, getNumDescendantsOf fuel num_nodes child with
    | Some a, Some n => Some (a + n)
    | _, _ => None
    end) (Some 0).

(** ** The parent function of the default tree *)

Definition parentOf (node : Z) : Z := Z.quot (node - 1) 2.

Lemma parentOf_div node : 0 < node -> parentOf node = (node - 1) / 2.
Proof. intros H. unfold parentOf. apply Z.quot_div_nonneg; lia. Qed.

Lemma parentOf_bounds node : 0 < node -> 0 <= parentOf node < node.
Proof. intros H. rewrite parentOf_div by done. Z.div_mod_to_equations. lia. Qed.

Lemma makeDefault_children n N : getChildren (makeDefault n N) = getChildrenOf N n.
Proof. done. Qed.

Lemma makeDefault_parent n N : 0 < n -> getParent (makeDefault n N) = parentOf n.
Proof.
  intros H. unfold makeDefault, setupTree, getParent. simpl.
  destruct (Z.eqb_spec n 0); [lia|done].
Qed.

Lemma elem_of_children N n c :
  0 <= n -> c ∈ getChildrenOf N n <-> 0 < c < N /\ parentOf c = n.
Proof.
  intros Hn. unfold getChildrenOf. rewrite elem_of_app.
  assert (0 < c -> parentOf c = n <-> c = n * 2 + 1 \/ c = n * 2 + 2) as Hp.
  { intros Hc. rewrite parentOf_div by done. split; intros; Z.div_mod_to_equations; lia. }
  assert (forall x, c ∈ (if x <? N then [x] else []) <-> c = x /\ x < N) as Hx.
  { intros x. destruct (Z.ltb_spec x N);
      [rewrite list_elem_of_singleton; lia|split; [auto with vt|lia]]. }
  rewrite !Hx. destruct (decide (0 < c)) as [Hc|]; [rewrite (Hp Hc)|]; lia.
Qed.

Lemma children_NoDup N n : NoDup (getChildrenOf N n).
Proof.
  unfold getChildrenOf. destruct (n * 2 + 1 <? N), (n * 2 + 2 <? N); simpl;
    repeat constructor; rewrite ?list_elem_of_singleton; auto with vt; try lia;
    intros H; auto with vt.
Qed.

Lemma numChildren_length n N :
  getNumChildren (makeDefault n N) = Z.of_nat (length (getChildrenOf N n)).
Proof. done. Qed.

(** The number of children, counted from the parents' side. *)
Lemma numChildren_sum N n :
  0 <= n ->
  Z.of_nat (length (getChildrenOf N n)) =
  zsum N (fun c => b2z (bool_decide (0 < c /\ parentOf c = n))).
Proof.
  intros Hn. unfold zsum.
  assert (forall l, lsum (fun c => b2z (bool_decide (0 < c /\ parentOf c = n))) l =
    Z.of_nat (length (filter (fun c => 0 < c /\ parentOf c = n) l))) as Hl.
  { induction l as [|a l IH]; [done|]. rewrite lsum_cons, IH, filter_cons.
    destruct (decide (0 < a /\ parentOf a = n));
      [rewrite bool_decide_true by done|rewrite bool_decide_false by done]; simpl; lia. }
  rewrite Hl. f_equal. apply Permutation_length, NoDup_Permutation.
  - apply children_NoDup.
  - apply NoDup_filter, NoDup_seqZ.
  - intros c. rewrite list_elem_of_filter, elem_of_nodes, elem_of_children by done.
    split; intros; split_and!; try lia; tauto.
Qed.

(** ** Ancestors *)

(** The ancestors of a node, itself excluded, up to the root. *)
Inductive ancestor : Z -> Z -> Prop :=
  | anc_parent c : 0 < c -> ancestor (parentOf c) c
  | anc_step a c : 0 < c -> ancestor a (parentOf c) -> ancestor a c.

Definition within (a c : Z) : Prop := a = c \/ ancestor a c.

Lemma ancestor_lt a c : ancestor a c -> 0 <= a < c.
Proof.
  induction 1 as [c Hc|a c Hc _ IH]; pose proof (parentOf_bounds c Hc); lia.
Qed.

Lemma ancestor_inv a c : ancestor a c -> 0 < c /\ within a (parentOf c).
Proof. unfold within. destruct 1; auto. Qed.

Lemma within_step a c : 0 < c -> within a (parentOf c) -> ancestor a c.
Proof. intros Hc [->|H]; [by constructor|by apply anc_step]. Qed.

Lemma ancestor_trans a b c : ancestor a b -> ancestor b c -> ancestor a c.
Proof. induction 2; apply anc_step; auto. Qed.

Lemma root_ancestor c : 0 < c -> ancestor 0 c.
Proof.
  induction (Z.lt_wf 0 c) as [c _ IH]. intros Hc.
  pose proof (parentOf_bounds c Hc). apply within_step; [done|].
  destruct (decide (parentOf c = 0)) as [->|]; [by left|right; apply IH; lia].
Qed.

(** The ancestors of a node form a chain. *)
Lemma within_chain a b c : within a c -> within b c -> within a b \/ within b a.
Proof.
  intros Ha [->|Hb]; [by left|]. revert Ha.
  induction Hb as [c Hc|b c Hc Hb IH]; intros [->|Ha].
  - right. right. by constructor.
  - left. by apply ancestor_inv in Ha as [_ ?].
  - right. right. by apply anc_step.
  - apply IH. by apply ancestor_inv in Ha as [_ ?].
Qed.

(** ** The nodes below a node, in the order a traversal meets them *)

Fixpoint preorder (fuel : nat) (N n : Z) : list Z :=
  match fuel with
  | O => []
  | S k => n :: flat_map (preorder k N) (getChildrenOf N n)
  end.

(** Fuel that is enough at a node: the nodes from it on. *)
Definition enough (fuel : nat) (N n : Z) : Prop := N - n <= Z.of_nat fuel /\ 0 <= n < N.

Lemma enough_child k N n c : enough (S k) N n -> c ∈ getChildrenOf N n -> enough k N c.
Proof.
  intros [Hf Hn] Hc. apply elem_of_children in Hc as [Hc Hp]; [|lia].
  pose proof (parentOf_bounds c). unfold enough. lia.
Qed.

Lemma enough_S fuel N n : enough fuel N n -> exists k, fuel = S k.
Proof. intros [H1 H2]. destruct fuel as [|k]; [lia|eauto]. Qed.

Lemma elem_of_preorder fuel N n c :
  enough fuel N n -> c ∈ preorder fuel N n <-> c < N /\ within n c.
Proof.
  revert n c. induction fuel as [|k IH]; intros n c He; [by destruct (enough_S _ _ _ He)|].
  simpl. rewrite elem_of_cons, list_elem_of_In, in_flat_map. split.
  - intros [->|(d & Hd%list_elem_of_In & Hc%list_elem_of_In)].
    { destruct He. split; [lia|by left]. }
    apply IH in Hc as [Hc Hw]; [|eauto using enough_child].
    split; [done|]. right. destruct He as [_ Hn].
    apply elem_of_children in Hd as [[Hd _] <-]; [|lia].
    destruct Hw as [<-|Hw]; [by constructor|].
    eapply ancestor_trans; [by constructor|done].
  - intros [Hc [->|Ha]]; [by left|]. right.
    assert (exists d, d ∈ getChildrenOf N n /\ within d c) as (d & Hd & Hw).
    { destruct He as [_ Hn]. clear IH. induction Ha as [c Hc'|a c Hc' Ha IHa].
      - exists c. split; [apply elem_of_children; lia|by left].
      - pose proof (parentOf_bounds c Hc').
        destruct IHa as (d & Hd & Hw); [lia|lia|]. exists d. split; [done|].
        right. by apply within_step. }
    exists d. rewrite <- !list_elem_of_In. split; [done|].
    apply IH; [by eapply enough_child|done].
Qed.

(** Subtrees of siblings do not meet. *)
Lemma siblings_disjoint N n d d' c :
  0 <= n -> d ∈ getChildrenOf N n -> d' ∈ getChildrenOf N n ->
  within d c -> within d' c -> d = d'.
Proof.
  intros Hn Hd Hd' Hw Hw'.
  apply elem_of_children in Hd as [Hd Hp]; [|done].
  apply elem_of_children in Hd' as [Hd' Hp']; [|done].
  assert (forall x y, 0 < x -> 0 < y -> parentOf x = parentOf y -> ancestor x y -> False) as Hno.
  { intros x y Hx Hy Heq (_ & Hw0)%ancestor_inv. pose proof (parentOf_bounds x Hx).
    destruct Hw0 as [->|Ha%ancestor_lt]; lia. }
  destruct (within_chain _ _ _ Hw Hw') as [[?|Ha]|[?|Ha]]; try done;
    exfalso; eapply Hno; try apply Ha; try lia; congruence.
Qed.

Lemma flat_map_NoDup {A B} (f : A -> list B) (l : list A) :
  NoDup l -> (forall a, a ∈ l -> NoDup (f a)) ->
  (forall a b c, a ∈ l -> b ∈ l -> c ∈ f a -> c ∈ f b -> a = b) -> NoDup (flat_map f l).
Proof.
  induction l as [|a l IH]; intros Hnd Hf Hd; simpl; [constructor|].
  apply NoDup_cons in Hnd as [Ha Hnd]. apply NoDup_app. split_and!.
  - apply Hf. elems.
  - intros c Hc Hin. apply list_elem_of_In, in_flat_map in Hin as (b & Hb & Hc').
    apply list_elem_of_In in Hb, Hc'. apply Ha.
    rewrite (Hd a b c); [done|elems|elems|done|done].
  - apply IH; [done|intros; apply Hf; elems|]. intros b d c ? ?. apply Hd; elems.
Qed.

Lemma preorder_NoDup fuel N n : enough fuel N n -> NoDup (preorder fuel N n).
Proof.
  revert n. induction fuel as [|k IH]; intros n He; [constructor|]. simpl.
  assert (forall d c, d ∈ getChildrenOf N n -> c ∈ preorder k N d -> within d c) as Hw.
  { intros d c Hd Hc. apply elem_of_preorder in Hc as [_ ?]; eauto using enough_child. }
  apply NoDup_cons. split.
  - rewrite list_elem_of_In, in_flat_map. intros (d & Hd%list_elem_of_In & Hc%list_elem_of_In).
    specialize (Hw d n Hd Hc). destruct He as [_ Hn].
    apply elem_of_children in Hd as [Hd Hp]; [|lia]. pose proof (parentOf_bounds d).
    destruct Hw as [->|?%ancestor_lt]; lia.
  - apply flat_map_NoDup; [apply children_NoDup|eauto using enough_child|].
    intros a b c Ha Hb Hca Hcb. destruct He as [_ Hn].
    eapply siblings_disjoint; [|exact Ha|exact Hb| |]; eauto. lia.
Qed.

(** From the root the traversal meets every node once. *)
Lemma preorder_root fuel N :
  0 < N <= Z.of_nat fuel -> preorder fuel N 0 ≡ₚ nodes_of N.
Proof.
  intros HN. assert (enough fuel N 0) as He by (unfold enough; lia).
  apply NoDup_Permutation; [by apply preorder_NoDup|apply NoDup_seqZ|].
  intros c. rewrite elem_of_preorder, elem_of_nodes by done. split.
  - intros [Hc [<-|?%ancestor_lt]]; lia.
  - intros Hc. split; [lia|]. destruct (decide (c = 0)) as [->|]; [by left|].
    right. apply root_ancestor. lia.
Qed.

(** ** Counting descendants *)

Lemma preorder_length_bound fuel N n :
  enough fuel N n -> Z.of_nat (length (preorder fuel N n)) <= N.
Proof.
  intros He. destruct He as [Hf Hn].
  assert (length (preorder fuel N n) <= length (nodes_of N))%nat as Hl.
  { apply submseteq_length, NoDup_submseteq; [by apply preorder_NoDup|].
    intros c Hc. apply elem_of_preorder in Hc as [? Hw]; [|done].
    apply elem_of_nodes. destruct Hw as [<-|?%ancestor_lt]; lia. }
  unfold nodes_of in Hl. rewrite length_seqZ in Hl. lia.
Qed.

(** The counting function returns with fuel for the depth and counts the nodes
    strictly below. *)
Lemma getNumDescendantsOf_preorder fuel N n :
  enough fuel N n -> N < 2 ^ 64 ->
  getNumDescendantsOf fuel N n = Some (Z.of_nat (length (preorder fuel N n)) - 1).
Proof.
  intros He HN. revert n He. induction fuel as [|k IH]; intros n He;
    [by destruct (enough_S _ _ _ He)|].
  pose proof (preorder_length_bound (S k) N n He) as Hb.
  cbn [getNumDescendantsOf preorder length] in *.
  assert (forall d, d ∈ getChildrenOf N n -> getNumDescendantsOf k N d =
            Some (Z.of_nat (length (preorder k N d)) - 1) /\
            (1 <= length (preorder k N d))%nat) as Hd.
  { intros d Hd. pose proof (enough_child _ _ _ _ He Hd) as He'. split; [by apply IH|].
    destruct (enough_S _ _ _ He') as [j ->]. simpl. lia. }
  clear IH He. set (step := fun _ _ => _).
  assert (forall l acc, (forall d, d ∈ l -> d ∈ getChildrenOf N n) -> 0 <= acc ->
            acc + Z.of_nat (length (flat_map (preorder k N) l)) <= N ->
            fold_left step l (Some acc) =
            Some (acc + Z.of_nat (length (flat_map (preorder k N) l)) - Z.of_nat (length l)) /\
            (length l <= length (flat_map (preorder k N) l))%nat) as Hfold.
  { induction l as [|d l IHl]; intros acc Hl Ha Hle; simpl; [split; [f_equal; lia|done]|].
    cbn [flat_map] in Hle. rewrite length_app in *.
    destruct (Hd d ltac:(apply Hl; elems)) as [Hn Hpos]. 
    rewrite Hn, wrap_u_small by (done || (simpl; lia)).
    destruct (IHl (acc + (Z.of_nat (length (preorder k N d)) - 1))) as [-> Hlen];
      [intros; apply Hl; elems|lia|lia|]. split; [f_equal; lia|lia]. }
  destruct (Hfold (getChildrenOf N n) 0) as [-> Hlen]; [done|lia|lia|].
  rewrite wrap_u_small; [f_equal; lia|done|simpl; lia].
Qed.

End Tree.

(** ** What the tree promises *)
Module TreeSpec.
Import Tree.

(** C35: The default trees of all nodes form one spanning tree rooted at node 0:
    on every node the children listed are exactly the nodes that name it as their
    parent, each listed once; only node 0 is a root; and following parents from
    any node reaches node 0. *)
Theorem tree_spanning N n :
  0 <= n < N ->
  (forall c, c ∈ getChildren (makeDefault n N) <->
     0 < c < N /\ getParent (makeDefault c N) = n) /\
  NoDup (getChildren (makeDefault n N)) /\
  isRoot (makeDefault n N) = bool_decide (n = 0) /\
  (n <> 0 -> ancestor 0 n).
Proof.
  intros Hn. split_and!.
  - intros c. rewrite makeDefault_children, elem_of_children by lia.
    split; intros [Hc <-]; (split; [done|]); by rewrite makeDefault_parent by lia.
  - apply children_NoDup.
  - unfold isRoot, makeDefault, setupTree. simpl.
    destruct (Z.eqb_spec n 0); [by rewrite bool_decide_true|by rewrite bool_decide_false].
  - intros Hn0. apply root_ancestor. lia.
Qed.

Lemma tree_spanning_witness :
  (forall c, c ∈ getChildren (makeDefault 1 6) <->
     0 < c < 6 /\ getParent (makeDefault c 6) = 1) /\ (1 <> 0 -> ancestor 0 1).
Proof. destruct (tree_spanning 6 1 ltac:(lia)) as (H1 & _ & _ & H4). split; [exact H1|exact H4]. Defined.

(** [getNumDescendants(child)] terminates and counts exactly the nodes
    strictly below [child]. *)
Theorem descendants_counted fuel N n :
  enough fuel N n -> N < 2 ^ 64 ->
  exists l, NoDup l /\ (forall c, c ∈ l <-> c < N /\ ancestor n c) /\
    getNumDescendantsOf fuel N n = Some (Z.of_nat (length l)).
Proof.
  intros He HN. destruct (enough_S _ _ _ He) as [k ->].
  pose proof (preorder_NoDup _ _ _ He) as Hnd.
  rewrite (getNumDescendantsOf_preorder _ _ _ He HN).
  simpl in *. apply NoDup_cons in Hnd as [Hn Hnd].
  exists (flat_map (preorder k N) (getChildrenOf N n)). split_and!; [done| |f_equal; lia].
  intros c. pose proof (elem_of_preorder (S k) N n c He) as Hc. simpl in Hc.
  rewrite elem_of_cons in Hc. split.
  - intros Hi. destruct Hc as [Hc _]. destruct Hc as [HcN [->|Ha]]; [by right|done|done].
  - intros [HcN Ha]. destruct Hc as [_ [->|Hi]]; [by split; [|right]| |done].
    apply ancestor_lt in Ha. lia.
Qed.

Lemma descendants_counted_witness :
  exists l, NoDup l /\ (forall c, c ∈ l <-> c < 7 /\ ancestor 1 c) /\
    getNumDescendantsOf 6 7 1 = Some (Z.of_nat (length l)).
Proof. apply (descendants_counted 6 7 1); [split; lia|reflexivity]. Defined.

(** The overload without an argument sums the counts of the children but does
    not count the children themselves: it is short by their number (0 for the
    root of three nodes, which has two descendants). *)
Theorem total_descendants_short fuel N :
  0 < N <= Z.of_nat fuel -> N < 2 ^ 64 ->
  getNumDescendants fuel N (makeDefault 0 N) =
  Some (N - 1 - getNumChildren (makeDefault 0 N)).
Proof.
  intros HN HN64.
  assert (enough (S fuel) N 0) as He by (unfold enough; lia).
  pose proof (Permutation_length (preorder_root (S fuel) N ltac:(lia))) as Hlen.
  unfold nodes_of in Hlen. rewrite length_seqZ in Hlen. cbn [preorder length] in Hlen.
  unfold getNumDescendants, foreachChild, getNumChildren.
  change (children_ (makeDefault 0 N)) with (getChildrenOf N 0).
  assert (forall l acc, (forall d, d ∈ l -> d ∈ getChildrenOf N 0) ->
    fold_left (fun s c => match s, getNumDescendantsOf fuel N c with
       | Some a, Some n => Some (a + n) | _, _ => None end) l (Some acc) =
    Some (acc + Z.of_nat (length (flat_map (preorder fuel N) l)) - Z.of_nat (length l)))
    as Hfold.
  { induction l as [|d l IH]; intros acc Hl; simpl; [f_equal; lia|].
    rewrite (getNumDescendantsOf_preorder fuel N d) by
      (done || (eapply enough_child; [exact He|apply Hl; elems])).
    rewrite IH by (intros; apply Hl; elems). f_equal. rewrite length_app. lia. }
  specialize (Hfold (getChildrenOf N 0) 0 ltac:(done)).
  destruct (getChildrenOf N 0) eqn:Hc; [simpl in *; f_equal; lia|].
  change (0 <? length (z :: l))%nat with true. cbv iota. rewrite Hfold. f_equal. lia.
Qed.

Lemma total_descendants_short_witness :
  getNumDescendants 3 3 (makeDefault 0 3) = Some (3 - 1 - getNumChildren (makeDefault 0 3)) /\
  getNumDescendants 3 3 (makeDefault 0 3) = Some 0.
Proof. split; [apply (total_descendants_short 3 3); [lia|reflexivity]|reflexivity]. Defined.

End TreeSpec.
