(* ===== verification/ReduceOp.v ===== *)
(** * The operators of reductions

    Models [src/vt/collective/reduce/operators/functors/*.h]: the functors
    [PlusOp], [MaxOp], [MinOp], [AndOp], [OrOp], [BitAndOp], [BitOrOp],
    [BitXorOp] and [None] on scalars, tuples, vectors and arrays. A functor's
    [operator()(T& v1, T const& v2)] is a function of the two values returning
    the new [v1]; the vector forms assert that the sizes agree.

    What a reduction needs of its operator is the class [LawfulOp]: the order
    and the grouping of the applications do not matter, assertions included. *)

From stdpp Require Import vector.
From S2P Require Import Prelude.
From S2P Require Import Sums.

Module ReduceOp.

(** [void operator()(T& v1, T const& v2)]: the value left in [v1]. *)
Definition Functor (V : Type) : Type := V -> V -> res V.

(** ** Scalars *)

(** The operators on an integral type. On [int] and wider signed types an
    overflowing [+] is undefined; [plus] is its value elsewhere. [std::max] and
    [std::min] return the first of two equal values; [&&] and [||] store 0 or 1. *)
Definition plus (t : ity) (v1 v2 : Z) : Z := wrap t (v1 + v2).
Definition max (v1 v2 : Z) : Z := if v1 <? v2 then v2 else v1.
Definition min (v1 v2 : Z) : Z := if v2 <? v1 then v2 else v1.
Definition truth (v : Z) : bool := negb (v =? 0).
Definition and (v1 v2 : Z) : Z := b2z (truth v1 && truth v2).
Definition or (v1 v2 : Z) : Z := b2z (truth v1 || truth v2).

Definition scalar {V} (f : V -> V -> V) : Functor V := fun v1 v2 => Ok (f v1 v2).

Definition PlusOp (t : ity) : Functor Z := scalar (plus t).
Definition MaxOp : Functor Z := scalar max.
Definition MinOp : Functor Z := scalar min.
Definition AndOp : Functor Z := scalar and.
Definition OrOp : Functor Z := scalar or.
Definition BitAndOp : Functor Z := scalar Z.land.
Definition BitOrOp : Functor Z := scalar Z.lor.
Definition BitXorOp : Functor Z := scalar Z.lxor.
(** [None]: the values, [char] or the empty tuple, carry nothing. *)
Definition NoneOp {V} : Functor V := fun v1 _ => Ok v1.

(** ** Tuples, vectors and arrays *)

(** [ApplyOp<Op, cur, max>]: nothing is left at [cur == max]; before it the
    functor of the component's type is applied and then the rest. *)
Definition ApplyOp_end : Functor unit := fun t1 _ => Ok t1.
Definition ApplyOp {A B} (op : Functor A) (rest : Functor B) : Functor (A * B) :=
  fun t1 t2 => a ← op t1.1 t2.1; b ← rest t1.2 t2.2; Ok (a, b).

(** [Op<std::vector<T>>]: the loop over the elements after the assertion. *)
Definition vector_op {V} (f : V -> V -> V) : Functor (list V) := fun v1 v2 =>
  vtAssert (length v1 =? length v2)%nat (Ok (zip_with f v1 v2)).
Definition PlusOp_vector (t : ity) : Functor (list Z) := vector_op (plus t).
Definition MaxOp_vector : Functor (list Z) := vector_op max.
Definition MinOp_vector : Functor (list Z) := vector_op min.
Definition AndOp_vector : Functor (list Z) := vector_op and.
Definition OrOp_vector : Functor (list Z) := vector_op or.

(** [Op<std::array<T, N>>]. *)
Definition array_op {V n} (f : V -> V -> V) : Functor (vec V n) := fun v1 v2 =>
  Ok (vzip_with f v1 v2).
Definition PlusOp_array {n} (t : ity) : Functor (vec Z n) := array_op (plus t).
Definition MaxOp_array {n} : Functor (vec Z n) := array_op max.
Definition MinOp_array {n} : Functor (vec Z n) := array_op min.
Definition AndOp_array {n} : Functor (vec Z n) := array_op and.

(** ** What a reduction relies on *)

(** The order of the arguments and the grouping make no difference, neither to
    the value nor to whether an assertion fails; and it can only stop so. *)
Class LawfulOp {V} (op : Functor V) : Prop := {
  op_stop v1 v2 e : op v1 v2 = Stop e -> e = AssertFailed;
  op_comm v1 v2 : op v1 v2 = op v2 v1;
  op_assoc v1 v2 v3 : (v ← op v1 v2; op v v3) = (v ← op v2 v3; op v1 v)
}.

(** A pure function with both properties. *)
Class LawfulFun {V} (f : V -> V -> V) : Prop := {
  fun_comm v1 v2 : f v1 v2 = f v2 v1;
  fun_assoc v1 v2 v3 : f (f v1 v2) v3 = f v1 (f v2 v3)
}.

#[export] Instance plus_lawful t : ity_ok t -> LawfulFun (plus t).
Proof.
  intros Ht. split; intros; unfold plus; [by rewrite Z.add_comm|].
  apply wrap_congr. rewrite <- Zplus_mod_idemp_l, wrap_mod, Zplus_mod_idemp_l by done.
  rewrite <- (Zplus_mod_idemp_r (wrap _ _)), wrap_mod, Zplus_mod_idemp_r by done. f_equal. lia.
Qed.

#[export] Instance max_lawful : LawfulFun max.
Proof. split; intros; unfold max; case_Zbs; lia. Qed.
#[export] Instance min_lawful : LawfulFun min.
Proof. split; intros; unfold min; case_Zbs; lia. Qed.

Lemma truth_b2z b : truth (b2z b) = b.
Proof. by destruct b. Qed.

#[export] Instance and_lawful : LawfulFun and.
Proof.
  split; intros; unfold and; [by rewrite andb_comm|]. by rewrite !truth_b2z, andb_assoc.
Qed.
#[export] Instance or_lawful : LawfulFun or.
Proof.
  split; intros; unfold or; [by rewrite orb_comm|]. by rewrite !truth_b2z, orb_assoc.
Qed.
#[export] Instance land_lawful : LawfulFun Z.land.
Proof. split; intros; [apply Z.land_comm|by rewrite Z.land_assoc]. Qed.
#[export] Instance lor_lawful : LawfulFun Z.lor.
Proof. split; intros; [apply Z.lor_comm|by rewrite Z.lor_assoc]. Qed.
#[export] Instance lxor_lawful : LawfulFun Z.lxor.
Proof. split; intros; [apply Z.lxor_comm|by rewrite Z.lxor_assoc]. Qed.

#[export] Instance scalar_lawful {V} (f : V -> V -> V) : LawfulFun f -> LawfulOp (scalar f).
Proof.
  intros H. split; intros; unfold scalar in *; simpl; [done|f_equal; apply fun_comm|f_equal; apply fun_assoc].
Qed.

#[export] Instance NoneOp_lawful : LawfulOp (@NoneOp unit).
Proof. split; [done|by intros [] []|done]. Qed.
#[export] Instance ApplyOp_end_lawful : LawfulOp ApplyOp_end.
Proof. split; [done|by intros [] []|done]. Qed.

#[export] Instance ApplyOp_lawful {A B} (op : Functor A) (rest : Functor B) :
  LawfulOp op -> LawfulOp rest -> LawfulOp (ApplyOp op rest).
Proof.
  intros H1 H2. split.
  - intros [a1 b1] [a2 b2] e. unfold ApplyOp. simpl.
    destruct (op a1 a2) eqn:Ha, (rest b1 b2) eqn:Hb; simpl; intros [= <-]; eauto using op_stop.
  - intros [a1 b1] [a2 b2]. unfold ApplyOp. simpl. by rewrite (op_comm a1), (op_comm b1).
  - intros [a1 b1] [a2 b2] [a3 b3]. unfold ApplyOp. simpl.
    pose proof (op_assoc a1 a2 a3) as Ha. pose proof (op_assoc b1 b2 b3) as Hb.
    destruct (op a1 a2) as [a|ea] eqn:E1, (op a2 a3) as [a'|ea'] eqn:E2,
      (rest b1 b2) as [b|eb] eqn:E3, (rest b2 b3) as [b'|eb'] eqn:E4; simpl in *;
      repeat match goal with
      | |- context [op ?x ?y] => destruct (op x y) eqn:?
      | |- context [rest ?x ?y] => destruct (rest x y) eqn:?
      end; repeat match goal with
      | H : op _ _ = Stop ?e |- _ => is_var e; apply op_stop in H as ->
      | H : rest _ _ = Stop ?e |- _ => is_var e; apply op_stop in H as ->
      end; simpl in *; congruence.
Qed.

Lemma length_zip_with_eq {V} (f : V -> V -> V) v1 v2 :
  length v1 = length v2 -> length (zip_with f v1 v2) = length v1.
Proof. intros H. rewrite length_zip_with. lia. Qed.

#[export] Instance vector_op_lawful {V} (f : V -> V -> V) : LawfulFun f -> LawfulOp (vector_op f).
Proof.
  intros Hf. split; unfold vector_op.
  - intros v1 v2 e. by destruct (length v1 =? length v2)%nat; intros [= <-].
  - intros v1 v2. destruct (Nat.eqb_spec (length v1) (length v2)) as [H|H].
    + rewrite <- H, Nat.eqb_refl. simpl. f_equal.
      clear H. revert v2. induction v1 as [|x v1 IH]; intros [|y v2]; simpl; try done.
      by rewrite fun_comm, IH.
    + by destruct (Nat.eqb_spec (length v2) (length v1)).
  - intros v1 v2 v3.
    destruct (Nat.eqb_spec (length v1) (length v2)) as [H|H], (Nat.eqb_spec (length v2) (length v3)) as [H'|H'];
      simpl; rewrite ?length_zip_with_eq by done.
    + rewrite H, H', !Nat.eqb_refl. simpl. f_equal.
      clear H H'. revert v2 v3. induction v1 as [|x v1 IH]; intros [|y v2] [|z v3]; simpl; try done.
      by rewrite fun_assoc, IH.
    + rewrite H. by destruct (Nat.eqb_spec (length v2) (length v3)).
    + by destruct (Nat.eqb_spec (length v1) (length v2)).
    + done.
Qed.

#[export] Instance array_op_lawful {V n} (f : V -> V -> V) :
  LawfulFun f -> LawfulOp (@array_op V n f).
Proof.
  intros Hf. split; unfold array_op; simpl; [done| |].
  - intros v1 v2. f_equal. apply vec_eq. intros i. rewrite !vlookup_zip_with. apply fun_comm.
  - intros v1 v2 v3. f_equal. apply vec_eq. intros i. rewrite !vlookup_zip_with. apply fun_assoc.
Qed.

(** ** The monoid of partial results *)

(** Nothing yet, a value, or an assertion that failed on the way. *)
Inductive partial (V : Type) := Nothing | Value (v : V) | Failed.
Arguments Nothing {V}.
Arguments Value {V} v.
Arguments Failed {V}.

Definition of_res {V} (r : res V) : partial V :=
  match r with Ok v => Value v | Stop _ => Failed end.

Definition combine {V} (op : Functor V) (x y : partial V) : partial V :=
  match x, y with
  | Nothing, y => y
  | x, Nothing => x
  | Value a, Value b => of_res (op a b)
  | _, _ => Failed
  end.

Lemma combine_assoc {V} (op : Functor V) `{!LawfulOp op} x y z :
  combine op x (combine op y z) = combine op (combine op x y) z.
Proof.
  destruct x as [|a|], y as [|b|], z as [|c|]; simpl; try done.
  - by destruct (op a b).
  - pose proof (op_assoc a b c) as H.
    destruct (op a b) as [v|e], (op b c) as [w|e']; simpl in *; [by rewrite H|by rewrite H|by rewrite <- H|done].
  - by destruct (op a b).
  - by destruct (op b c).
Qed.

Lemma combine_comm {V} (op : Functor V) `{!LawfulOp op} x y : combine op x y = combine op y x.
Proof. destruct x, y; simpl; try done. by rewrite op_comm. Qed.

Definition partial_monoid {V} (op : Functor V) `{!LawfulOp op} : CommMonoid (partial V) := {|
  mzero := Nothing;
  madd := combine op;
  madd_comm := combine_comm op;
  madd_assoc := combine_assoc op;
  madd_0_l := fun x => eq_refl
|}.

End ReduceOp.
