(* ===== verification/Reduce.v ===== *)
(** * Reductions

    Models [src/vt/collective/reduce/]: [reduce.{cc,impl.h}], [reduce_state.h],
    [reduce_state_holder.cc], [reduce_manager.cc], [reduce_scope.h],
    [scoping/strong_types.h], [reduce_msg.h] and the combine handler of
    [operators/default_op.impl.h].

    Every node contributes messages to a reduction, named by a scope (which
    [Reduce] object) and a stamp. A node that has its own contributions and one
    message per child combines them and passes one message up the tree; the
    root of the tree hands the last message to the reduction's root node. *)

From S2P Require Import Prelude.
From S2P Require Import Sums.
From S2P Require Import Ids.
From S2P Require Import Tree.
From S2P Require Import ReduceOp.
Import Tree.Tree.

Module Reduce.
Import ReduceOp.

(** ** Scopes and stamps *)

Inductive ReduceScope :=
  | StrongObjGroup (proxy : Z)
  | StrongVrtProxy (proxy : Z)
  | StrongGroup (group : Z)
  | StrongCom (component : Z)
  | ScopeUserID (id : Z).

Inductive ReduceStamp :=
  | StrongTag (tag : Z)
  | TagPair (t1 t2 : Z)
  | StrongSeq (seq : Z)
  | StrongUserID (id : Z)
  | StrongEpoch (epoch : Z).

#[export] Instance ReduceScope_eq_dec : EqDecision ReduceScope.
Proof. solve_decision. Defined.
#[export] Instance ReduceStamp_eq_dec : EqDecision ReduceStamp.
Proof. solve_decision. Defined.

#[export] Instance ReduceScope_countable : Countable ReduceScope.
Proof.
  refine (inj_countable'
    (fun s => match s with
     | StrongObjGroup x => (0, x) | StrongVrtProxy x => (1, x) | StrongGroup x => (2, x)
     | StrongCom x => (3, x) | ScopeUserID x => (4, x) end)
    (fun p => match p with
     | (0, x) => StrongObjGroup x | (1, x) => StrongVrtProxy x | (2, x) => StrongGroup x
     | (3, x) => StrongCom x | (_, x) => ScopeUserID x end) _).
  by intros [].
Defined.

#[export] Instance ReduceStamp_countable : Countable ReduceStamp.
Proof.
  refine (inj_countable'
    (fun s => match s with
     | StrongTag x => (0, (x, 0)) | TagPair x y => (1, (x, y)) | StrongSeq x => (2, (x, 0))
     | StrongUserID x => (3, (x, 0)) | StrongEpoch x => (4, (x, 0)) end)
    (fun p => match p with
     | (0, (x, _)) => StrongTag x | (1, (x, y)) => TagPair x y | (2, (x, _)) => StrongSeq x
     | (3, (x, _)) => StrongUserID x | (_, (x, _)) => StrongEpoch x end) _).
  by intros [].
Defined.

Definition no_tag : Z := -1.
Definition default_group : Z := 0xFFFFFFFF.
Definition uninitialized_handler : Z := -1.

(** [ReduceStamp{}]: the first alternative, with its default value. *)
Definition default_stamp : ReduceStamp := StrongTag no_tag.

Section reduce.
Context {V : Type}.

(** ** Messages *)

(** The callback of a [ReduceDataMsg]: its kind and, when valid, which. *)
Inductive Callback := MsgCallback (cb : option Z) | ParamCallback (cb : option Z).

(** [ReduceDataMsg] with its base classes; [next_] is an index of the vector the
    message is in. The link fields need not survive sending: they are set before
    they are read. *)
Record ReduceMsg := MkMsg {
  reduce_root_ : Z;
  stamp : ReduceStamp;
  scope : ReduceScope;
  combine_handler_ : Z;
  root_handler_ : Z;
  cb_ : Callback;
  val_ : V;
  is_root_ : bool;
  next_ : option nat;
  count_ : Z
}.

Definition with_link (root : bool) (next : option nat) (count : Z) (m : ReduceMsg) : ReduceMsg :=
  MkMsg (reduce_root_ m) (stamp m) (scope m) (combine_handler_ m) (root_handler_ m) (cb_ m)
    (val_ m) root next count.
Definition with_val (v : V) (m : ReduceMsg) : ReduceMsg :=
  MkMsg (reduce_root_ m) (stamp m) (scope m) (combine_handler_ m) (root_handler_ m) (cb_ m)
    v (is_root_ m) (next_ m) (count_ m).

(** A registered combine handler [msgHandler<MsgT, Op, ActOp>]: its [Op], whether
    [DataT] is a tuple and whether [ActOp] is [NoCombine]. *)
Record CombineHandler := MkHandler {
  h_op : Functor V;
  h_tuple : bool;
  h_no_combine : bool
}.

(** What the handler does with the final message. *)
Inductive RootAction :=
  | SendTuple (cb : Z) (v : V)
  | SendMsg (cb : Z) (v : V)
  | Dispatch (handler : Z) (v : V)
  | RunFunctor (v : V).

Definition rootActions (h : CombineHandler) (msg : ReduceMsg) : list RootAction :=
  match cb_ msg with
  | ParamCallback (Some cb) => if h_tuple h then [SendTuple cb (val_ msg)] else []
  | MsgCallback (Some cb) => [SendMsg cb (val_ msg)]
  | _ =>
      if negb (root_handler_ msg =? uninitialized_handler)
      then [Dispatch (root_handler_ msg) (val_ msg)]
      else if negb (h_no_combine h) then [RunFunctor (val_ msg)] else []
  end.

(** The loop over the linked messages of a vector, combining into [fst_msg]. A
    list that does not end within the vector is reported as a failure. *)
Fixpoint combine_loop (fuel : nat) (op : Functor V) (msgs : list ReduceMsg) (fst_val : V)
    (cur_msg : option nat) : res V :=
  match cur_msg with
  | None => Ok fst_val
  | Some i =>
      match fuel, msgs !! i with
      | S k, Some m => v ← op fst_val (val_ m); combine_loop k op msgs v (next_ m)
      | _, _ => Stop AssertFailed
      end
  end.

(** ** The state of one reduction on one node *)

Record ReduceState := MkState {
  msgs : list ReduceMsg;
  num_contrib_ : Z;
  num_local_contrib_ : Z;
  st_combine_handler_ : Z;
  st_reduce_root_ : Z
}.

Definition makeState (in_num_contrib : Z) : ReduceState :=
  MkState [] in_num_contrib 0 uninitialized_handler uninitialized_destination.

(** [ReduceStateHolder]. *)
#[local] Abbreviation Holder := (gmap ReduceStamp ReduceState).
Definition exists_ (h : Holder) (id : ReduceStamp) : bool := bool_decide (is_Some (h !! id)).
Definition find (h : Holder) (id : ReduceStamp) : res ReduceState :=
  match h !! id with Some s => Ok s | None => Stop AssertFailed end.
Definition erase (h : Holder) (id : ReduceStamp) : Holder := delete id h.
(** [emplace] keeps an entry that is there. *)
Definition insert_ (h : Holder) (id : ReduceStamp) (s : ReduceState) : Holder :=
  match h !! id with Some _ => h | None => <[id := s]> h end.

(** ** The reducer of one scope on one node *)

Record Reduce := MkReduce {
  tree : Tree.Tree;
  scope_ : ReduceScope;
  state_ : Holder;
  next_seq_ : Z
}.

Definition with_state (h : Holder) (r : Reduce) : Reduce :=
  MkReduce (tree r) (scope_ r) h (next_seq_ r).

(** The constructors: the default tree, or a given one. *)
Definition make (this_node num_nodes : Z) (in_scope : ReduceScope) : Reduce :=
  MkReduce (makeDefault this_node num_nodes) in_scope ∅ 1.
Definition makeWithTree (in_scope : ReduceScope) (in_tree : Tree.Tree) : Reduce :=
  MkReduce in_tree in_scope ∅ 1.

Definition generateNextID (r : Reduce) : Reduce * ReduceStamp :=
  let next_seq := wrap u64 (next_seq_ r + 1) in
  (MkReduce (tree r) (scope_ r) (state_ r) next_seq, StrongSeq next_seq).

Inductive output :=
  | SendUp (dest : Z) (msg : ReduceMsg)       (* ReduceManager::reduceUpHan *)
  | SendRoot (dest : Z) (msg : ReduceMsg)     (* ReduceManager::reduceRootRecv *)
  | RunRoot (msg : ReduceMsg).                (* the combine handler, as root, here *)

Definition reduceAddMsg (r : Reduce) (msg : ReduceMsg) (local : bool) (num_contrib : Z)
    : res Reduce :=
  let lookup := stamp msg in
  let holder :=
    if negb (exists_ (state_ r) lookup)
    then
      let num_contrib_state := if num_contrib =? -1 then 1 else num_contrib in
      insert_ (state_ r) lookup (makeState num_contrib_state)
    else state_ r in
  state ← find holder lookup;
  let state :=
    MkState (msgs state ++ [msg])
      (if negb (num_contrib =? -1) then num_contrib else num_contrib_ state)
      (if (local : bool) then wrap i32 (num_local_contrib_ state + 1) else num_local_contrib_ state)
      (combine_handler_ msg) (reduce_root_ msg) in
  Ok (with_state (<[lookup := state]> holder) r).

(** The loop that links the messages. *)
Definition link (l : list ReduceMsg) : list ReduceMsg :=
  let size := length l in
  imap (fun i m =>
    let has_next := (i + 1 <? size)%nat in
    with_link false (if has_next then Some (i + 1)%nat else None)
      (wrap u16 (Z.of_nat (size - i))) m) l.

Definition reduceRootRecv (msg : ReduceMsg) : list output := [RunRoot (with_link true None 1 msg)].

Context (handlers : Z -> CombineHandler).

(** The message the node passes on: the first of [msgs[0..]], combined with the
    others by the handler when there are any. *)
Definition combined (state : ReduceState) : res ReduceMsg :=
  if (1 <? length (msgs state))%nat
  then
    let ms := link (msgs state) in
    match ms with
    | [] => Stop AssertFailed
    | msg :: _ =>
        v ← combine_loop (length ms) (h_op (handlers (st_combine_handler_ state))) ms
              (val_ msg) (next_ msg);
        Ok (with_val v msg)
    end
  else
    match msgs state with
    | [] => Stop AssertFailed
    | msg :: _ => Ok msg
    end.

Definition startReduce (this_node : Z) (r : Reduce) (id : ReduceStamp) (use_num_contrib : bool)
    : res (Reduce * list output) :=
  let lookup := id in
  state ← find (state_ r) lookup;
  let nmsgs := Z.of_nat (length (msgs state)) in
  let contrib := if use_num_contrib then num_contrib_ state else num_local_contrib_ state in
  let total := wrap u64 (getNumChildren (tree r) + contrib) in
  let ready := nmsgs =? total in
  if ready then
    typed_msg ← combined state;
    let root := st_reduce_root_ state in
    let r := with_state (erase (state_ r) lookup) r in
    if isRoot (tree r) then
      if negb (root =? this_node) then Ok (r, [SendRoot root typed_msg])
      else Ok (r, reduceRootRecv typed_msg)
    else Ok (r, [SendUp (getParent (tree r)) typed_msg])
  else Ok (r, []).

Definition reduceNewMsg (this_node : Z) (r : Reduce) (msg : ReduceMsg)
    : res (Reduce * list output) :=
  vtAssert (bool_decide (scope msg = scope_ r)) (startReduce this_node r (stamp msg) true).

Definition reduceUpHan (this_node : Z) (r : Reduce) (msg : ReduceMsg)
    : res (Reduce * list output) :=
  vtAssert (bool_decide (scope msg = scope_ r)) (
  r ← reduceAddMsg r msg false (-1);
  reduceNewMsg this_node r msg).

(** [reduceImmediate<MsgT, f>(root, msg, id, num_contrib)]; [han] is the combine
    handler registered for [f]. Setting the envelope's group is left out. *)
Definition reduceImmediate (this_node : Z) (r : Reduce) (han root : Z) (msg : ReduceMsg)
    (id : ReduceStamp) (num_contrib : Z) : res (Reduce * list output * ReduceStamp) :=
  let '(r, cur_id) :=
    if bool_decide (id = default_stamp) then generateNextID r else (r, id) in
  let msg := MkMsg root cur_id (scope_ r) han (root_handler_ msg) (cb_ msg) (val_ msg)
               (is_root_ msg) (next_ msg) (count_ msg) in
  r ← reduceAddMsg r msg true num_contrib;
  '(r, outs) ← reduceNewMsg this_node r msg;
  Ok (r, outs, cur_id).

(** ** The reducers of a node *)

Record ReduceManager := MkManager {
  reducers_ : gmap ReduceScope Reduce;
  cur_user_id_ : Z
}.

Definition store (scope : ReduceScope) (r : Reduce) (m : ReduceManager) : ReduceManager :=
  MkManager (<[scope := r]> (reducers_ m)) (cur_user_id_ m).

(** [ReduceScopeHolder::get], [getOnDemand], [make]. *)
Definition get (m : ReduceManager) (scope : ReduceScope) : res Reduce :=
  match reducers_ m !! scope with Some r => Ok r | None => Stop AssertFailed end.

Definition is_group (scope : ReduceScope) : bool :=
  match scope with StrongGroup _ => true | _ => false end.

Definition getOnDemand (this_node num_nodes : Z) (m : ReduceManager) (scope : ReduceScope)
    : res (ReduceManager * Reduce) :=
  match reducers_ m !! scope with
  | Some r => Ok (m, r)
  | None =>
      vtAssert (negb (is_group scope)) (
      let r := make this_node num_nodes scope in
      Ok (store scope r m, r))
  end.

Definition makeGroup (group : Z) (r : Reduce) (m : ReduceManager) : ReduceManager :=
  match reducers_ m !! StrongGroup group with
  | Some _ => m
  | None => store (StrongGroup group) r m
  end.

(** [ReduceManager]'s constructor and members. *)
Definition makeManager (this_node num_nodes : Z) : ReduceManager :=
  makeGroup default_group (make this_node num_nodes (StrongGroup default_group)) (MkManager ∅ 0).

Definition getReducerGroup (m : ReduceManager) (group : Z) : res Reduce := get m (StrongGroup group).
Definition global (m : ReduceManager) : res Reduce := getReducerGroup m default_group.
Definition getReducer := getOnDemand.
Definition getReducerObjGroup (this_node num_nodes : Z) (m : ReduceManager) (proxy : Z) :=
  getOnDemand this_node num_nodes m (StrongObjGroup proxy).
Definition getReducerVrtProxy (this_node num_nodes : Z) (m : ReduceManager) (proxy : Z) :=
  getOnDemand this_node num_nodes m (StrongVrtProxy proxy).
Definition getReducerComponent (this_node num_nodes : Z) (m : ReduceManager) (cid : Z) :=
  getOnDemand this_node num_nodes m (StrongCom cid).
Definition makeReducerCollective (this_node num_nodes : Z) (m : ReduceManager)
    : res (ReduceManager * Reduce) :=
  let id := cur_user_id_ m in
  getOnDemand this_node num_nodes (MkManager (reducers_ m) (wrap u64 (id + 1))) (ScopeUserID id).
Definition makeReducerGroup (m : ReduceManager) (group : Z) (t : Tree.Tree) : ReduceManager :=
  makeGroup group (makeWithTree (StrongGroup group) t) m.

(** The two active-message handlers. *)
Definition managerRootRecv (m : ReduceManager) (msg : ReduceMsg) : res (list output) :=
  _ ← global m; Ok (reduceRootRecv msg).
Definition managerUpHan (this_node num_nodes : Z) (m : ReduceManager) (msg : ReduceMsg)
    : res (ReduceManager * list output) :=
  '(m, r) ← getReducer this_node num_nodes m (scope msg);
  '(r, outs) ← reduceUpHan this_node r msg;
  Ok (store (scope msg) r m, outs).

End reduce.
End Reduce.

(** ** One node, one reduction *)

Module ReduceNode.
Import ReduceOp Reduce.

Section node.
Context {V : Type}.
#[local] Abbreviation ReduceMsg := (@ReduceMsg V).
#[local] Abbreviation ReduceState := (@ReduceState V).
Implicit Types (m : ReduceMsg) (s : ReduceState).

(** What all messages of one reduction have in common. *)
Definition header m : Z * Z * Z * Callback :=
  (reduce_root_ m, combine_handler_ m, root_handler_ m, cb_ m).

Lemma header_with_val v m : header (with_val v m) = header m.
Proof. done. Qed.
Lemma header_with_link r n c m : header (with_link r n c m) = header m.
Proof. done. Qed.

(** The state after [reduceAddMsg]. *)
Definition added (o : option ReduceState) m (local : bool) (num_contrib : Z) : ReduceState :=
  let s := default (makeState (if num_contrib =? -1 then 1 else num_contrib)) o in
  MkState (msgs s ++ [m])
    (if negb (num_contrib =? -1) then num_contrib else num_contrib_ s)
    (if local then wrap i32 (num_local_contrib_ s + 1) else num_local_contrib_ s)
    (combine_handler_ m) (reduce_root_ m).

Lemma reduceAddMsg_eq r m local nc :
  reduceAddMsg r m local nc =
  Ok (with_state (<[stamp m := added (state_ r !! stamp m) m local nc]> (state_ r)) r).
Proof.
  unfold reduceAddMsg, exists_, find, insert_, added.
  destruct (state_ r !! stamp m) as [s|] eqn:Hs.
  - rewrite bool_decide_true by eauto. cbn [negb]. rewrite Hs. done.
  - rewrite bool_decide_false by (intros [? ?]; done). cbn [negb].
    rewrite lookup_insert_eq, res_bind_Ok. cbn [from_option].
    by rewrite insert_insert_eq.
Qed.

(** ** Combining *)

Lemma length_link l : length (@link V l) = length l.
Proof. apply length_imap. Qed.

Lemma lookup_link (l : list ReduceMsg) i m :
  l !! i = Some m ->
  link l !! i = Some (with_link false (if (i + 1 <? length l)%nat then Some (i + 1)%nat else None)
                        (wrap u16 (Z.of_nat (length l - i))) m).
Proof. intros H. unfold link. by rewrite list_lookup_imap, H. Qed.

(** The chain of links visits the rest of the vector in order. *)
Lemma combine_loop_link (op : Functor V) (l : list ReduceMsg) fuel i v :
  (length l - i <= fuel)%nat -> (1 <= i <= length l)%nat ->
  combine_loop fuel op (link l) v (if (i <? length l)%nat then Some i else None) =
  foldl (fun acc m => a ← acc; op a (val_ m)) (Ok v) (drop i l).
Proof.
  assert (forall (k : list ReduceMsg) e,
    foldl (fun acc m => a ← acc; op a (val_ m)) (Stop e) k = Stop e) as Hstop
    by (induction k as [|m k IH]; intros e; simpl; [done|apply IH]).
  revert i v. induction fuel as [|k IH]; intros i v Hf Hi.
  - destruct (Nat.ltb_spec i (length l)); [lia|]. simpl. by rewrite drop_ge by lia.
  - destruct (Nat.ltb_spec i (length l)) as [Hlt|Hge]; simpl; [|by rewrite drop_ge by lia].
    destruct (lookup_lt_is_Some_2 l i Hlt) as [m Hm].
    rewrite (lookup_link l i m Hm), (drop_S l m i Hm). simpl.
    destruct (op v (val_ m)) as [w|e]; simpl; [|by rewrite Hstop].
    rewrite <- (IH (S i) w) by lia. by rewrite Nat.add_1_r.
Qed.

Context (handlers : Z -> @CombineHandler V).

#[local] Abbreviation op_of s := (h_op (handlers (st_combine_handler_ s))).

Lemma combined_eq s m ms :
  msgs s = m :: ms ->
  match combined handlers s with
  | Ok m' => header m' = header m /\ stamp m' = stamp m /\ scope m' = scope m /\
      foldl (fun acc m => a ← acc; op_of s a (val_ m)) (Ok (val_ m)) ms = Ok (val_ m')
  | Stop e =>
      foldl (fun acc m => a ← acc; op_of s a (val_ m)) (Ok (val_ m)) ms = Stop e
  end.
Proof.
  intros Hs. unfold combined. rewrite Hs. destruct (Nat.ltb_spec 1 (length (m :: ms))) as [Hl|Hl].
  - pose proof (lookup_link (m :: ms) 0 m eq_refl) as H0.
    destruct (link (m :: ms)) as [|m0 l0] eqn:Hlk; [done|]. simpl in H0.
    injection H0 as ->. rewrite <- Hlk, length_link.
    change (val_ (with_link _ _ _ m)) with (val_ m).
    change (next_ (with_link _ ?n _ m)) with n.
    pose proof (combine_loop_link (op_of s) (m :: ms) (length (m :: ms)) 1 (val_ m)) as Hc.
    specialize (Hc ltac:(lia) ltac:(lia)). simpl drop in Hc.
    rewrite drop_0 in Hc. change (0 + 1)%nat with 1%nat. cbn [length] in *. rewrite Hc.
    by destruct (foldl _ _ ms).
  - destruct ms as [|m2 ms]; [done|simpl in Hl; lia].
Qed.

(** In the monoid of partial results. *)
Context (op : Functor V) `{Hop : !LawfulOp op}.
#[local] Existing Instance partial_monoid.

Definition msum_ (l : list ReduceMsg) : partial V := bsum (fun m => Value (val_ m)) l.

Lemma foldl_msum (l : list ReduceMsg) (r : res V) :
  of_res (foldl (fun acc m => a ← acc; op a (val_ m)) r l) = of_res r ⊕ msum_ l.
Proof.
  revert r. induction l as [|m l IH]; intros r.
  - unfold msum_. by rewrite bsum_nil, madd_0_r.
  - cbn [foldl]. rewrite IH. unfold msum_. rewrite bsum_cons, madd_assoc. f_equal.
    destruct r as [v|e]; done.
Qed.

Lemma combined_msum s v :
  op_of s = op -> msum_ (msgs s) = Value v ->
  exists m', combined handlers s = Ok m' /\ val_ m' = v.
Proof.
  intros Ho Hv. destruct (msgs s) as [|m ms] eqn:Hs; [done|].
  pose proof (combined_eq s m ms Hs) as Hc. rewrite Ho in Hc.
  pose proof (foldl_msum ms (Ok (val_ m))) as Hf. unfold msum_ in *. rewrite bsum_cons in Hv.
  change (of_res (Ok (val_ m))) with (Value (val_ m)) in Hf. rewrite Hv in Hf.
  destruct (combined handlers s) as [m'|e].
  - destruct Hc as (_ & _ & _ & Hc). rewrite Hc in Hf. simpl in Hf. exists m'. split; congruence.
  - by rewrite Hc in Hf.
Qed.

Lemma combined_Ok s m' :
  op_of s = op -> combined handlers s = Ok m' ->
  msum_ (msgs s) = Value (val_ m') /\
  exists m, head (msgs s) = Some m /\ header m' = header m /\ stamp m' = stamp m /\
    scope m' = scope m.
Proof.
  intros Ho Hc'. destruct (msgs s) as [|m ms] eqn:Hs.
  { unfold combined in Hc'. by rewrite Hs in Hc'. }
  pose proof (combined_eq s m ms Hs) as Hc. rewrite Ho, Hc' in Hc.
  destruct Hc as (Hh & Hst & Hsc & Hc). split; [|by exists m].
  pose proof (foldl_msum ms (Ok (val_ m))) as Hf. rewrite Hc in Hf. symmetry. exact Hf.
Qed.

End node.
End ReduceNode.
