(* ===== verification/ReduceSystem.v ===== *)
(** * Reductions across all nodes

    The nodes' reducers of [Reduce.v] together with the messages between them,
    as a step relation: a node's program makes its next call of
    [reduceImmediate], or a message in flight is delivered
    ([ReduceManager::reduceUpHan], [reduceRootRecv]). A run mixes any number of
    reductions; [ReduceSystem.local] is the part that concerns one scope and
    stamp, [ReduceInv.Inv] its invariant, and [ReduceSpec] says that this part
    refines the abstract reduction. *)

From S2P Require Import Prelude.
From S2P Require Import Sums.
From S2P Require Import Ids.
From S2P Require Import Tree.
From S2P Require Import ReduceOp.
From S2P Require Import Reduce.
Import Tree.Tree.

Module ReduceSystem.
Import ReduceOp Reduce ReduceNode.

Section system.
Context {V : Type} (handlers : Z -> @CombineHandler V) (N : Z).
#[local] Abbreviation ReduceMsg := (@ReduceMsg V).
#[local] Abbreviation ReduceManager := (@ReduceManager V).

(** A call [getReducer(scope)->reduceImmediate(root, msg, id, num_contrib)] of the
    program. *)
Record Call := MkCall {
  c_scope : ReduceScope;
  c_root : Z;
  c_handler : Z;
  c_root_handler : Z;
  c_cb : Callback;
  c_val : V;
  c_id : ReduceStamp;
  c_num : Z
}.

Definition call_msg (c : Call) (r : Z) (st : ReduceStamp) (sc : ReduceScope) : ReduceMsg :=
  MkMsg r st sc (c_handler c) (c_root_handler c) (c_cb c) (c_val c) false None 0.

Definition run_call (this_node : Z) (m : ReduceManager) (c : Call)
    : res (ReduceManager * list output) :=
  '(m, r) ← getReducer this_node N m (c_scope c);
  '(r, outs, _) ← reduceImmediate handlers this_node r (c_handler c) (c_root c)
                    (call_msg c (c_root c) default_stamp (c_scope c)) (c_id c) (c_num c);
  Ok (store (c_scope c) r m, outs).

Inductive NetMsg := UpMsg (msg : ReduceMsg) | RootMsg (msg : ReduceMsg).

Definition receive (this_node : Z) (m : ReduceManager) (nm : NetMsg)
    : res (ReduceManager * list output) :=
  match nm with
  | UpMsg msg => managerUpHan handlers this_node N m msg
  | RootMsg msg => outs ← managerRootRecv m msg; Ok (m, outs)
  end.

(** The nodes' reducers and the calls their programs have yet to make; messages in
    flight; the executions of combine handlers as root. *)
Record Sys := MkSys {
  mgr : Z -> ReduceManager;
  todo : Z -> list Call;
  net : list (Z * NetMsg);
  runs : list (Z * ReduceMsg)
}.

Definition sends (outs : list output) : list (Z * NetMsg) :=
  omap (fun o => match o with
    | SendUp d m => Some (d, UpMsg m) | SendRoot d m => Some (d, RootMsg m) | RunRoot _ => None
    end) outs.
Definition ran (n : Z) (outs : list (@output V)) : list (Z * ReduceMsg) :=
  omap (fun o => match o with RunRoot m => Some (n, m) | _ => None end) outs.

Inductive step : Sys -> Sys -> Prop :=
  | step_call s n c cs m outs :
      0 <= n < N -> todo s n = c :: cs -> run_call n (mgr s n) c = Ok (m, outs) ->
      step s (MkSys (<[n := m]> (mgr s)) (<[n := cs]> (todo s)) (net s ++ sends outs)
                (runs s ++ ran n outs))
  | step_receive s l1 n nm l2 m outs :
      net s = l1 ++ (n, nm) :: l2 -> receive n (mgr s n) nm = Ok (m, outs) ->
      step s (MkSys (<[n := m]> (mgr s)) (todo s) (l1 ++ l2 ++ sends outs)
                (runs s ++ ran n outs)).

Definition init (program : Z -> list Call) : Sys :=
  MkSys (fun n => makeManager n N) program [] [].

Inductive reach (program : Z -> list Call) : Sys -> Prop :=
  | reach_init : reach program (init program)
  | reach_step s s' : reach program s -> step s s' -> reach program s'.

(** Running a schedule: a node makes its next call, or the message at a position
    is delivered. *)
Inductive choice := Make (n : Z) | Deliver (k : nat).

Definition exec1 (s : Sys) (c : choice) : option Sys :=
  match c with
  | Make n =>
      match todo s n with
      | c :: cs =>
          if bool_decide (0 <= n < N) then
            match run_call n (mgr s n) c with
            | Ok (m, outs) => Some (MkSys (<[n := m]> (mgr s)) (<[n := cs]> (todo s))
                                      (net s ++ sends outs) (runs s ++ ran n outs))
            | Stop _ => None
            end
          else None
      | [] => None
      end
  | Deliver k =>
      match net s !! k with
      | Some (n, nm) =>
          match receive n (mgr s n) nm with
          | Ok (m, outs) => Some (MkSys (<[n := m]> (mgr s)) (todo s)
                                    (take k (net s) ++ drop (S k) (net s) ++ sends outs)
                                    (runs s ++ ran n outs))
          | Stop _ => None
          end
      | None => None
      end
  end.

Lemma reduce_exec1_step s c s' : exec1 s c = Some s' -> step s s'.
Proof.
  destruct c as [n|k]; simpl.
  - destruct (todo s n) as [|c cs] eqn:Ht; [done|]. case_bool_decide as Hn; [|done].
    destruct (run_call n (mgr s n) c) as [[m outs]|] eqn:Hc; [|done]. intros [= <-].
    by eapply step_call.
  - destruct (net s !! k) as [[n nm]|] eqn:Hk; [|done].
    destruct (receive n (mgr s n) nm) as [[m outs]|] eqn:Hc; [|done]. intros [= <-].
    eapply step_receive; [|done]. by rewrite take_drop_middle.
Qed.

Fixpoint exec (s : Sys) (cs : list choice) : option Sys :=
  match cs with
  | [] => Some s
  | c :: cs => match exec1 s c with Some s => exec s cs | None => None end
  end.

Lemma reduce_exec_reach program s cs s' : reach program s -> exec s cs = Some s' -> reach program s'.
Proof.
  revert s. induction cs as [|c cs IH]; intros s Hr; simpl; [by intros [= <-]|].
  destruct (exec1 s c) as [s1|] eqn:H1; [|done]. apply IH.
  eapply reach_step; [done|]. by eapply reduce_exec1_step.
Qed.

(** ** The managers *)

(** Which reduction a message belongs to. *)
Definition key (m : ReduceMsg) : ReduceScope * ReduceStamp := (scope m, stamp m).

Definition reducer_ok (n : Z) (sc : ReduceScope) (r : Reduce) : Prop :=
  scope_ r = sc /\ tree r = makeDefault n N /\
  forall st (s : @ReduceState V), state_ r !! st = Some s -> Forall (fun m => key m = (sc, st)) (msgs s).

Definition manager_ok (n : Z) (m : ReduceManager) : Prop :=
  is_Some (reducers_ m !! StrongGroup default_group) /\
  forall sc r, reducers_ m !! sc = Some r -> reducer_ok n sc r.

Lemma makeManager_ok n : manager_ok n (makeManager n N).
Proof.
  unfold makeManager, makeGroup. simpl. rewrite lookup_empty. unfold store. split; simpl.
  - rewrite lookup_insert_eq. eauto.
  - intros sc r. intros [[<- <-]|[_ H]]%lookup_insert_Some; [|by rewrite lookup_empty in H].
    split_and!; [done..|]. intros st s H. simpl in H. by rewrite lookup_empty in H.
Qed.

Lemma fresh_reducer_ok n sc : reducer_ok n sc (make n N sc).
Proof. split_and!; [done..|]. intros st s H. simpl in H. by rewrite lookup_empty in H. Qed.

Lemma store_ok n m sc r :
  manager_ok n m -> reducer_ok n sc r -> manager_ok n (store sc r m).
Proof.
  intros [[g Hg] Hm] Hr. unfold store. split; simpl.
  - destruct (decide (sc = StrongGroup default_group)) as [->|Hne];
      [rewrite lookup_insert_eq|rewrite lookup_insert_ne by done]; eauto.
  - intros sc' r'. intros [[<- <-]|[_ H]]%lookup_insert_Some; [done|]. by apply Hm.
Qed.

(** A scope a program can use: of a group only the default one. *)
Definition usable (sc : ReduceScope) : Prop :=
  is_group sc = false \/ sc = StrongGroup default_group.

Lemma getReducer_Ok n m sc m' r :
  manager_ok n m -> getReducer n N m sc = Ok (m', r) ->
  manager_ok n m' /\ reducer_ok n sc r /\ r = default (make n N sc) (reducers_ m !! sc) /\
  forall sc', sc' <> sc -> reducers_ m' !! sc' = reducers_ m !! sc'.
Proof.
  intros Hm. unfold getReducer, getOnDemand.
  destruct (reducers_ m !! sc) as [r0|] eqn:Hr.
  - intros [= <- <-]. pose proof (proj2 Hm _ _ Hr). by split_and!.
  - intros [_ [= <- <-]]%vtAssert_Ok. pose proof (fresh_reducer_ok n sc).
    split_and!; [by apply store_ok|done..|].
    intros sc' Hne. simpl. by rewrite lookup_insert_ne.
Qed.

Lemma getReducer_usable n m sc :
  manager_ok n m -> usable sc -> exists m' r, getReducer n N m sc = Ok (m', r).
Proof.
  intros [[g Hg] _] Hu. unfold getReducer, getOnDemand.
  destruct (reducers_ m !! sc) as [r|] eqn:Hr; [eauto|].
  destruct Hu as [Hu| ->]; [|by rewrite Hg in Hr]. rewrite Hu. simpl. eauto.
Qed.

(** ** A message arriving at a reducer *)

(** What [startReduce] makes of the state after the message was added: the state
    that stays, and what is sent. *)
Definition fire (n : Z) (s : ReduceState) : res (option ReduceState * list output) :=
  if Z.of_nat (length (msgs s)) =? wrap u64 (getNumChildren (makeDefault n N) + num_contrib_ s)
  then
    m ← combined handlers s;
    Ok (None,
        if isRoot (makeDefault n N) then
          if negb (st_reduce_root_ s =? n) then [SendRoot (st_reduce_root_ s) m]
          else [RunRoot (with_link true None 1 m)]
        else [SendUp (getParent (makeDefault n N)) m])
  else Ok (Some s, []).

Definition put (r : Reduce) (st : ReduceStamp) (o : option (@ReduceState V)) : Reduce :=
  with_state (partial_alter (fun _ => o) st (state_ r)) r.

Lemma arrive_eq n r m local nc :
  tree r = makeDefault n N -> scope m = scope_ r ->
  (r ← reduceAddMsg r m local nc; reduceNewMsg handlers n r m) =
  ('(o, outs) ← fire n (added (state_ r !! stamp m) m local nc); Ok (put r (stamp m) o, outs)).
Proof.
  intros Ht Hs. rewrite reduceAddMsg_eq, res_bind_Ok.
  unfold reduceNewMsg. rewrite bool_decide_true by done.
  unfold vtAssert, startReduce, find. simpl. rewrite lookup_insert_eq, res_bind_Ok, Ht.
  unfold fire. case_match.
  - destruct (combined handlers _) as [m'|e]; simpl; [|done].
    assert (with_state (erase (<[stamp m:=added (state_ r !! stamp m) m local nc]> (state_ r))
      (stamp m)) (with_state (<[stamp m:=added (state_ r !! stamp m) m local nc]> (state_ r)) r)
      = put r (stamp m) None) as ->.
    { unfold put, with_state, erase. simpl. f_equal.
      rewrite delete_insert_eq. reflexivity. }
    unfold reduceRootRecv. repeat case_match; done.
  - done.
Qed.

Lemma fire_Ok n s o outs sc st :
  Forall (fun m => key m = (sc, st)) (msgs s) -> fire n s = Ok (o, outs) ->
  Forall (fun x => match x with SendUp _ m | SendRoot _ m | RunRoot m => key m = (sc, st) end) outs /\
  (o = None \/ o = Some s).
Proof.
  intros Hk. unfold fire. case_match; [|by intros [= <- <-]; split; [|right]].
  intros (m & Hm & [= <- <-])%bind_Ok_inv. split; [|by left].
  assert (key m = (sc, st)) as Hkm.
  { destruct (msgs s) as [|m0 ms] eqn:Hs; [unfold combined in Hm; by rewrite Hs in Hm|].
    pose proof (combined_eq handlers s m0 ms Hs) as Hc. rewrite Hm in Hc.
    destruct Hc as (_ & H1 & H2 & _). apply Forall_cons in Hk as [Hk _].
    unfold key in *. by rewrite H1, H2. }
  repeat case_match; by constructor.
Qed.

Lemma put_ok n sc r st o :
  reducer_ok n sc r ->
  (forall s, o = Some s -> Forall (fun m => key m = (sc, st)) (msgs s)) ->
  reducer_ok n sc (put r st o).
Proof.
  intros (H1 & H2 & H3) Ho. split_and!; [done..|]. intros st' s. simpl.
  destruct (decide (st = st')) as [<-|Hne].
  - rewrite lookup_partial_alter_eq. apply Ho.
  - rewrite lookup_partial_alter_ne by done. apply H3.
Qed.

(** ** The part of the system that concerns one reduction *)

Section key.
Context (sc : ReduceScope) (st : ReduceStamp).

(** The stamp a call gets, and the sequence number after it. *)
Definition number (seq : Z) (c : Call) : Z * ReduceStamp :=
  if bool_decide (c_id c = default_stamp)
  then (wrap u64 (seq + 1), StrongSeq (wrap u64 (seq + 1))) else (seq, c_id c).

(** The calls that will contribute to the reduction, from a sequence number on. *)
Fixpoint pending (seq : Z) (cs : list Call) : list Call :=
  match cs with
  | [] => []
  | c :: cs =>
      if decide (c_scope c = sc) then
        let '(seq, id) := number seq c in
        if decide (id = st) then c :: pending seq cs else pending seq cs
      else pending seq cs
  end.

Definition loc (m : ReduceManager) : option ReduceState :=
  r ← reducers_ m !! sc; state_ r !! st.
Definition seq_of (m : ReduceManager) : Z := from_option next_seq_ 1 (reducers_ m !! sc).

Record Local := MkLocal {
  l_pend : Z -> list Call;
  l_loc : Z -> option (@ReduceState V);
  l_ups : list (Z * ReduceMsg);
  l_roots : list (Z * ReduceMsg);
  l_runs : list (Z * ReduceMsg)
}.

Definition up_of (p : Z * NetMsg) : option (Z * ReduceMsg) :=
  match p.2 with UpMsg m => if decide (key m = (sc, st)) then Some (p.1, m) else None | _ => None end.
Definition root_of (p : Z * NetMsg) : option (Z * ReduceMsg) :=
  match p.2 with RootMsg m => if decide (key m = (sc, st)) then Some (p.1, m) else None | _ => None end.
Definition run_of (p : Z * ReduceMsg) : option (Z * ReduceMsg) :=
  if decide (key p.2 = (sc, st)) then Some p else None.

Definition local (s : Sys) : Local := {|
  l_pend n := pending (seq_of (mgr s n)) (todo s n);
  l_loc n := loc (mgr s n);
  l_ups := omap up_of (net s);
  l_roots := omap root_of (net s);
  l_runs := omap run_of (runs s)
|}.

(** One node's part changes, to [p] and [o], and its messages go out; [ups] and
    [roots] are what is left of the messages in flight. *)
Definition moved (l l' : Local) (n : Z) (p : list Call) (o : option ReduceState)
    (ups roots : list (Z * ReduceMsg)) (outs : list output) : Prop :=
  l_pend l' n = p /\ l_loc l' n = o /\
  (forall j, j <> n -> l_pend l' j = l_pend l j /\ l_loc l' j = l_loc l j) /\
  l_ups l' = ups ++ omap up_of (sends outs) /\
  l_roots l' = roots ++ omap root_of (sends outs) /\
  l_runs l' = l_runs l ++ omap run_of (ran n outs).

Inductive lstep (l l' : Local) : Prop :=
  | lstep_call n c p o outs :
      0 <= n < N -> l_pend l n = c :: p ->
      fire n (added (l_loc l n) (call_msg c (c_root c) st sc) true (c_num c)) = Ok (o, outs) ->
      moved l l' n p o (l_ups l) (l_roots l) outs -> lstep l l'
  | lstep_up n m l1 l2 o outs :
      l_ups l = l1 ++ (n, m) :: l2 -> key m = (sc, st) ->
      fire n (added (l_loc l n) m false (-1)) = Ok (o, outs) ->
      moved l l' n (l_pend l n) o (l1 ++ l2) (l_roots l) outs -> lstep l l'
  | lstep_root n m l1 l2 :
      l_roots l = l1 ++ (n, m) :: l2 -> key m = (sc, st) ->
      moved l l' n (l_pend l n) (l_loc l n) (l_ups l) (l1 ++ l2) [RunRoot (with_link true None 1 m)] ->
      lstep l l'.

(** Nothing of the reduction changed. *)
Definition same (l l' : Local) : Prop :=
  (forall j, l_pend l' j = l_pend l j /\ l_loc l' j = l_loc l j) /\
  l_ups l' = l_ups l /\ l_roots l' = l_roots l /\ l_runs l' = l_runs l.

End key.

(** ** Steps, seen from one reduction *)

Lemma getReducer_reads n m sc m1 r st :
  getReducer n N m sc = Ok (m1, r) -> loc sc st m = state_ r !! st /\ seq_of sc m = next_seq_ r.
Proof.
  unfold getReducer, getOnDemand, loc, seq_of. destruct (reducers_ m !! sc) as [r0|] eqn:Hr; simpl.
  - by intros [= <- <-].
  - intros [_ [= <- <-]]%vtAssert_Ok. simpl. by rewrite lookup_empty.
Qed.

Lemma store_put n m m1 sc r r' st o :
  manager_ok n m -> getReducer n N m sc = Ok (m1, r) ->
  state_ r' = state_ r -> scope_ r' = scope_ r -> tree r' = tree r ->
  (forall s, o = Some s -> Forall (fun m => key m = (sc, st)) (msgs s)) ->
  let m' := store sc (put r' st o) m1 in
  manager_ok n m' /\ loc sc st m' = o /\
  (forall sc' st', (sc', st') <> (sc, st) -> loc sc' st' m' = loc sc' st' m) /\
  (forall sc', seq_of sc' m' = if decide (sc' = sc) then next_seq_ r' else seq_of sc' m).
Proof.
  intros Hm Hg H1 H2 H3 Ho. cbv zeta.
  destruct (getReducer_Ok n m sc m1 r Hm Hg) as (Hm1 & (Hr1 & Hr2 & Hr3) & _ & Hoth).
  split_and!.
  - apply store_ok, put_ok; [done| |done]. split_and!; [congruence..|]. by rewrite H1.
  - unfold loc, store. simpl. rewrite lookup_insert_eq. simpl. by rewrite lookup_partial_alter_eq.
  - intros sc' st' Hne. unfold loc at 1, store. simpl.
    destruct (decide (sc' = sc)) as [->|Hs].
    + rewrite lookup_insert_eq. simpl. rewrite lookup_partial_alter_ne by congruence.
      rewrite H1. by rewrite (proj1 (getReducer_reads n m sc m1 r st' Hg)).
    + rewrite lookup_insert_ne by done. unfold loc. by rewrite Hoth.
  - intros sc'. unfold seq_of, store. simpl. destruct (decide (sc' = sc)) as [->|Hs].
    + by rewrite lookup_insert_eq.
    + rewrite lookup_insert_ne by done. by rewrite Hoth.
Qed.

Lemma loc_keyed n m sc st s :
  manager_ok n m -> loc sc st m = Some s -> Forall (fun m => key m = (sc, st)) (msgs s).
Proof.
  intros [_ Hm] (r & Hr & Hs)%bind_Some. by apply (Hm _ _ Hr).
Qed.

Lemma added_keyed n m sc st msg b nc :
  manager_ok n m -> key msg = (sc, st) ->
  Forall (fun m => key m = (sc, st)) (msgs (added (loc sc st m) msg b nc)).
Proof.
  intros Hm Hk. unfold added. simpl. apply Forall_app. split; [|by constructor].
  destruct (loc sc st m) as [s|] eqn:Hl; simpl; [|done]. by eapply loc_keyed.
Qed.

(** The reducer with its sequence advanced. *)
Definition with_seq (seq : Z) (r : @Reduce V) : Reduce :=
  MkReduce (tree r) (scope_ r) (state_ r) seq.

Lemma reduceImmediate_eq n r c :
  reducer_ok n (c_scope c) r ->
  let id := (number (next_seq_ r) c).2 in
  reduceImmediate handlers n r (c_handler c) (c_root c)
    (call_msg c (c_root c) default_stamp (c_scope c)) (c_id c) (c_num c) =
  ('(o, outs) ← fire n (added (state_ r !! id) (call_msg c (c_root c) id (c_scope c)) true (c_num c));
   Ok (put (with_seq (number (next_seq_ r) c).1 r) id o, outs, id)).
Proof.
  intros (Hs & Ht & _). cbv zeta. unfold reduceImmediate.
  assert ((if bool_decide (c_id c = default_stamp) then generateNextID r else (r, c_id c)) =
    (with_seq (number (next_seq_ r) c).1 r, (number (next_seq_ r) c).2)) as ->.
  { unfold number, generateNextID, with_seq. case_bool_decide; [done|]. by destruct r. }
  set (id := (number (next_seq_ r) c).2). set (rn := with_seq _ r). rewrite <- Hs.
  pose proof (arrive_eq n rn (call_msg c (c_root c) id (scope_ r)) true (c_num c) Ht eq_refl) as Ha.
  change (stamp (call_msg c (c_root c) id (scope_ r))) with id in Ha.
  change (state_ rn) with (state_ r) in Ha. change (scope_ rn) with (scope_ r).
  cbn [root_handler_ cb_ val_ is_root_ next_ count_ call_msg] in *. unfold call_msg in *.
  rewrite reduceAddMsg_eq, res_bind_Ok in Ha. rewrite reduceAddMsg_eq, res_bind_Ok.
  rewrite Ha. by destruct (fire n _) as [[o outs]|].
Qed.

Lemma run_call_Ok n m c m' outs :
  manager_ok n m -> run_call n m c = Ok (m', outs) ->
  let id := (number (seq_of (c_scope c) m) c).2 in
  exists o, fire n (added (loc (c_scope c) id m) (call_msg c (c_root c) id (c_scope c)) true (c_num c))
      = Ok (o, outs) /\
  manager_ok n m' /\ loc (c_scope c) id m' = o /\
  (forall sc' st', (sc', st') <> (c_scope c, id) -> loc sc' st' m' = loc sc' st' m) /\
  (forall sc', seq_of sc' m' =
     if decide (sc' = c_scope c) then (number (seq_of (c_scope c) m) c).1 else seq_of sc' m).
Proof.
  intros Hm. unfold run_call. intros ([m1 r] & Hg & Hc)%bind_Ok_inv.
  destruct (getReducer_Ok n m _ m1 r Hm Hg) as (_ & Hr & _ & _).
  destruct (getReducer_reads n m _ m1 r default_stamp Hg) as [_ Hseq]. rewrite Hseq.
  rewrite (reduceImmediate_eq n r c Hr) in Hc. cbv zeta in *.
  set (id := (number (next_seq_ r) c).2) in *.
  destruct (getReducer_reads n m _ m1 r id Hg) as [Hl _]. rewrite <- Hl in Hc.
  apply bind_Ok_inv in Hc as ([[r2 outs2] id2] & Hi & [= <- <-]).
  apply bind_Ok_inv in Hi as ([o outs3] & Hf & [= <- <- <-]).
  exists o. split; [exact Hf|].
  apply (fire_Ok n _ o outs3 (c_scope c) id) in Hf as [_ Ho]; [|by eapply added_keyed].
  destruct (store_put n m m1 (c_scope c) r (with_seq (number (next_seq_ r) c).1 r) id o Hm Hg)
    as (? & ? & ? & Hsq); [done..| |by split_and!].
  intros s ->. destruct Ho as [|[= ->]]; [done|]. by eapply added_keyed.
Qed.

(** A call or a message the state of its reduction can take succeeds. *)
Lemma run_call_succeeds n m c x :
  manager_ok n m -> usable (c_scope c) ->
  fire n (added (loc (c_scope c) (number (seq_of (c_scope c) m) c).2 m)
    (call_msg c (c_root c) (number (seq_of (c_scope c) m) c).2 (c_scope c)) true (c_num c)) = Ok x ->
  exists y, run_call n m c = Ok y.
Proof.
  intros Hm Hu Hf. unfold run_call. destruct (getReducer_usable n m _ Hm Hu) as (m1 & r & Hg).
  destruct (getReducer_Ok n m _ m1 r Hm Hg) as (_ & Hr & _ & _).
  rewrite Hg, res_bind_Ok, (reduceImmediate_eq n r c Hr). cbv zeta.
  destruct (getReducer_reads n m _ m1 r (number (next_seq_ r) c).2 Hg) as [Hl Hseq].
  rewrite Hseq, Hl in Hf. rewrite Hf. destruct x as [o outs]. simpl. eauto.
Qed.

Lemma receive_up_succeeds n m msg x :
  manager_ok n m -> usable (scope msg) ->
  fire n (added (loc (scope msg) (stamp msg) m) msg false (-1)) = Ok x ->
  exists y, receive n m (UpMsg msg) = Ok y.
Proof.
  intros Hm Hu Hf. cbn [receive]. unfold managerUpHan.
  destruct (getReducer_usable n m _ Hm Hu) as (m1 & r & Hg).
  destruct (getReducer_Ok n m _ m1 r Hm Hg) as (_ & (Hr1 & Hr2 & _) & _ & _).
  rewrite Hg, res_bind_Ok. unfold reduceUpHan. rewrite vtAssert_true by by rewrite bool_decide_true.
  rewrite arrive_eq by congruence.
  rewrite (proj1 (getReducer_reads n m _ m1 r (stamp msg) Hg)) in Hf. rewrite Hf.
  destruct x as [o outs]. simpl. eauto.
Qed.

Lemma receive_root_succeeds n m msg :
  manager_ok n m -> exists y, receive n m (RootMsg msg) = Ok y.
Proof.
  intros [[g Hg] _]. cbn [receive]. unfold managerRootRecv, global, getReducerGroup, get.
  rewrite Hg. simpl. eauto.
Qed.

Lemma receive_up_Ok n m msg m' outs :
  manager_ok n m -> receive n m (UpMsg msg) = Ok (m', outs) ->
  exists o, fire n (added (loc (scope msg) (stamp msg) m) msg false (-1)) = Ok (o, outs) /\
  manager_ok n m' /\ loc (scope msg) (stamp msg) m' = o /\
  (forall sc' st', (sc', st') <> key msg -> loc sc' st' m' = loc sc' st' m) /\
  (forall sc', seq_of sc' m' = seq_of sc' m).
Proof.
  intros Hm. cbn [receive]. unfold managerUpHan. intros ([m1 r] & Hg & Hc)%bind_Ok_inv.
  apply bind_Ok_inv in Hc as ([r2 outs2] & Hi & [= <- <-]). unfold reduceUpHan in Hi.
  destruct (getReducer_Ok n m _ m1 r Hm Hg) as (Hm1 & (Hr1 & Hr2 & Hr3) & _ & _).
  destruct (getReducer_reads n m _ m1 r (stamp msg) Hg) as [Hl Hsq].
  apply vtAssert_Ok in Hi as [_ Hi]. rewrite arrive_eq in Hi by congruence.
  apply bind_Ok_inv in Hi as ([o outs4] & Hf & [= <- ->]). rewrite <- Hl in Hf.
  exists o. split; [exact Hf|].
  apply (fire_Ok n _ o outs2 (scope msg) (stamp msg)) in Hf as [_ Ho]; [|by eapply added_keyed].
  destruct (store_put n m m1 (scope msg) r r (stamp msg) o Hm Hg) as (? & ? & ? & Hsq'); [done..| |].
  { intros s ->. destruct Ho as [|[= ->]]; [done|]. by eapply added_keyed. }
  split_and!; [done..|]. intros sc'. rewrite Hsq'. case_decide; congruence.
Qed.

(** Messages of another reduction do not show. *)
Lemma other_outs n outs k sc st :
  Forall (fun x => match x with SendUp _ m | SendRoot _ m | RunRoot m => key m = k end) outs ->
  k <> (sc, st) ->
  omap (up_of sc st) (sends outs) = [] /\ omap (root_of sc st) (sends outs) = [] /\
  omap (run_of sc st) (ran n outs) = [].
Proof.
  intros H Hne. induction H as [|x outs Hx H IH]; [done|].
  destruct IH as (IH1 & IH2 & IH3).
  destruct x as [d m|d m|m]; unfold sends, ran in *; simpl; unfold up_of, root_of, run_of in *; simpl;
    split_and!; try done; rewrite decide_False by congruence; done.
Qed.

Lemma fire_other n sc st s o outs k :
  Forall (fun m => key m = k) (msgs s) -> fire n s = Ok (o, outs) -> k <> (sc, st) ->
  omap (up_of sc st) (sends outs) = [] /\ omap (root_of sc st) (sends outs) = [] /\
  omap (run_of sc st) (ran n outs) = [].
Proof.
  intros Hk Hf Hne. destruct k as [sc' st']. apply (fire_Ok n s o outs sc' st') in Hf as [Hf _]; [|done].
  by eapply other_outs.
Qed.

Definition managers_ok (s : Sys) : Prop := forall j, manager_ok j (mgr s j).

Lemma managers_ok_insert s n m :
  managers_ok s -> manager_ok n m ->
  forall t ns rs, managers_ok (MkSys (<[n := m]> (mgr s)) t ns rs).
Proof.
  intros H Hm t ns rs j. simpl. destruct (decide (n = j)) as [<-|Hne];
    [by rewrite fn_lookup_insert|by rewrite fn_lookup_insert_ne].
Qed.

Lemma local_call sc st s n c cs m outs :
  managers_ok s -> 0 <= n < N -> todo s n = c :: cs -> run_call n (mgr s n) c = Ok (m, outs) ->
  let s' := MkSys (<[n := m]> (mgr s)) (<[n := cs]> (todo s)) (net s ++ sends outs)
              (runs s ++ ran n outs) in
  managers_ok s' /\ (lstep sc st (local sc st s) (local sc st s') \/
                     same (local sc st s) (local sc st s')).
Proof.
  intros Hok Hn Ht Hc. cbv zeta.
  destruct (run_call_Ok n _ c m outs (Hok n) Hc) as (o & Hf & Hm & Hl & Ho & Hs).
  split; [by apply managers_ok_insert|].
  set (id := (number (seq_of (c_scope c) (mgr s n)) c).2) in *.
  assert (forall p, (forall j, j <> n ->
    pending sc st (seq_of sc (<[n := m]> (mgr s) j)) (<[n := cs]> (todo s) j) =
    pending sc st (seq_of sc (mgr s j)) (todo s j)) /\
    (pending sc st (seq_of sc m) cs = p ->
     pending sc st (seq_of sc (<[n := m]> (mgr s) n)) (<[n := cs]> (todo s) n) = p)) as Hp.
  { intros p. split; [intros j Hj; by rewrite !fn_lookup_insert_ne by done|by rewrite !fn_lookup_insert]. }
  destruct (decide ((c_scope c, id) = (sc, st))) as [Heq|Hne].
  - left. injection Heq as <- <-.
    eapply (lstep_call _ _ _ _ n c (pending (c_scope c) id (seq_of (c_scope c) m) cs) o outs); [done| |exact Hf|].
    + cbn [local l_pend]. rewrite Ht. cbn [pending]. rewrite decide_True by done.
      fold id. rewrite Hs, decide_True by done.
      destruct (number _ c) as [q i] eqn:Hnum. subst id. simpl. by rewrite decide_True by done.
    + unfold moved, local. cbn [l_pend l_loc l_ups l_roots l_runs mgr todo net runs].
      rewrite !omap_app. split_and!; [by apply Hp|rewrite fn_lookup_insert; exact Hl| |done..].
      intros j Hj. split; [by apply (Hp [])|by rewrite fn_lookup_insert_ne].
  - right. assert (Forall (fun m => key m = (c_scope c, id)) (msgs (added (loc (c_scope c) id (mgr s n))
      (call_msg c (c_root c) id (c_scope c)) true (c_num c)))) as Hk
      by (apply (added_keyed n); [apply Hok|done]).
    destruct (fire_other n sc st _ o outs (c_scope c, id) Hk Hf Hne)
      as (H1 & H2 & H3).
    unfold same, local. cbn [l_pend l_loc l_ups l_roots l_runs mgr todo net runs].
    rewrite !omap_app, H1, H2, H3, !app_nil_r. split_and!; [|done..].
    intros j. destruct (decide (j = n)) as [->|Hj].
    + rewrite !fn_lookup_insert, Ho by congruence. split; [|done].
      rewrite Ht. cbn [pending]. rewrite Hs. destruct (decide (sc = c_scope c)) as [->|Hsc].
      * rewrite decide_True by done. subst id.
        destruct (number _ c) as [q i]. simpl in *. rewrite decide_False by congruence. done.
      * by rewrite decide_False by done.
    + split; [by apply (Hp [])|by rewrite fn_lookup_insert_ne].
Qed.

Lemma omap_up sc st l1 n m l2 :
  omap (up_of sc st) (l1 ++ (n, UpMsg m) :: l2) =
    omap (up_of sc st) l1 ++ (if decide (key m = (sc, st)) then [(n, m)] else []) ++
    omap (up_of sc st) l2 /\
  omap (root_of sc st) (l1 ++ (n, UpMsg m) :: l2) =
    omap (root_of sc st) l1 ++ omap (root_of sc st) l2.
Proof.
  rewrite !omap_app. simpl. split; [|done]. unfold up_of at 2. simpl. by case_decide.
Qed.

Lemma omap_root sc st l1 n m l2 :
  omap (root_of sc st) (l1 ++ (n, RootMsg m) :: l2) =
    omap (root_of sc st) l1 ++ (if decide (key m = (sc, st)) then [(n, m)] else []) ++
    omap (root_of sc st) l2 /\
  omap (up_of sc st) (l1 ++ (n, RootMsg m) :: l2) =
    omap (up_of sc st) l1 ++ omap (up_of sc st) l2.
Proof.
  rewrite !omap_app. simpl. split; [|done]. unfold root_of at 2. simpl. by case_decide.
Qed.

Lemma local_receive_up sc st s l1 n msg l2 m outs :
  managers_ok s -> net s = l1 ++ (n, UpMsg msg) :: l2 ->
  receive n (mgr s n) (UpMsg msg) = Ok (m, outs) ->
  let s' := MkSys (<[n := m]> (mgr s)) (todo s) (l1 ++ l2 ++ sends outs) (runs s ++ ran n outs) in
  managers_ok s' /\ (lstep sc st (local sc st s) (local sc st s') \/
                     same (local sc st s) (local sc st s')).
Proof.
  intros Hok Hnet Hr. cbv zeta.
  destruct (receive_up_Ok n _ msg m outs (Hok n) Hr) as (o & Hf & Hm & Hl & Ho & Hs).
  split; [by apply managers_ok_insert|].
  assert (forall j, pending sc st (seq_of sc (<[n := m]> (mgr s) j)) (todo s j) =
                    pending sc st (seq_of sc (mgr s j)) (todo s j)) as Hp.
  { intros j. destruct (decide (n = j)) as [<-|Hj];
      [by rewrite fn_lookup_insert, Hs|by rewrite fn_lookup_insert_ne]. }
  destruct (decide (key msg = (sc, st))) as [Heq|Hne].
  - left. eapply (lstep_up _ _ _ _ n msg (omap (up_of sc st) l1) (omap (up_of sc st) l2) o outs);
      [|exact Heq| |].
    + cbn [local l_ups]. rewrite Hnet, (proj1 (omap_up _ _ _ _ _ _)). by rewrite decide_True.
    + unfold key in Heq. injection Heq as <- <-. exact Hf.
    + unfold moved, local. cbn [l_pend l_loc l_ups l_roots l_runs mgr todo net runs].
      rewrite Hnet, (proj2 (omap_up _ _ _ _ _ _)), !omap_app, <- !app_assoc.
      unfold key in Heq. injection Heq as <- <-.
      split_and!; [apply Hp|rewrite fn_lookup_insert; exact Hl| |done..].
      intros j Hj. split; [apply Hp|by rewrite fn_lookup_insert_ne].
  - right. assert (Forall (fun m => key m = key msg)
      (msgs (added (loc (scope msg) (stamp msg) (mgr s n)) msg false (-1)))) as Hk
      by (apply (added_keyed n); [apply Hok|done]).
    destruct (fire_other n sc st _ o outs (key msg) Hk Hf Hne) as (H1 & H2 & H3).
    unfold same, local. cbn [l_pend l_loc l_ups l_roots l_runs mgr todo net runs].
    rewrite Hnet, (proj1 (omap_up _ _ _ _ _ _)), (proj2 (omap_up _ _ _ _ _ _)), decide_False by done.
    rewrite !omap_app, H1, H2, H3, !app_nil_r. split_and!; [|done..].
    intros j. split; [apply Hp|]. destruct (decide (n = j)) as [<-|Hj].
    + rewrite fn_lookup_insert. by apply Ho, not_eq_sym.
    + by rewrite fn_lookup_insert_ne.
Qed.

Lemma local_receive_root sc st s l1 n msg l2 m outs :
  managers_ok s -> net s = l1 ++ (n, RootMsg msg) :: l2 ->
  receive n (mgr s n) (RootMsg msg) = Ok (m, outs) ->
  let s' := MkSys (<[n := m]> (mgr s)) (todo s) (l1 ++ l2 ++ sends outs) (runs s ++ ran n outs) in
  managers_ok s' /\ (lstep sc st (local sc st s) (local sc st s') \/
                     same (local sc st s) (local sc st s')).
Proof.
  intros Hok Hnet Hr. cbv zeta. cbn [receive] in Hr.
  apply bind_Ok_inv in Hr as (outs' & Hr & [= <- <-]).
  unfold managerRootRecv in Hr. apply bind_Ok_inv in Hr as (r & Hg & [= <-]).
  split; [by apply managers_ok_insert|].
  assert (forall j, <[n := mgr s n]> (mgr s) j = mgr s j) as Hid.
  { intros j. destruct (decide (n = j)) as [<-|Hj];
      [by rewrite fn_lookup_insert|by rewrite fn_lookup_insert_ne]. }
  destruct (decide (key msg = (sc, st))) as [Heq|Hne].
  - left. eapply (lstep_root _ _ _ _ n msg (omap (root_of sc st) l1) (omap (root_of sc st) l2));
      [|exact Heq|].
    + cbn [local l_roots]. rewrite Hnet, (proj1 (omap_root _ _ _ _ _ _)). by rewrite decide_True.
    + unfold moved, local, reduceRootRecv. cbn [l_pend l_loc l_ups l_roots l_runs mgr todo net runs].
      rewrite Hid, Hnet, (proj2 (omap_root _ _ _ _ _ _)), !omap_app, <- ?app_assoc, ?app_nil_r.
      split_and!; [done..| |done|done|done]. intros j Hj. by rewrite Hid.
  - right. assert (Forall (fun x => match x with SendUp _ m | SendRoot _ m | RunRoot m => key m = key msg end)
      (reduceRootRecv msg)) as Hk by by constructor.
    destruct (other_outs n _ _ sc st Hk Hne) as (H1 & H2 & H3).
    unfold same, local. cbn [l_pend l_loc l_ups l_roots l_runs mgr todo net runs].
    rewrite Hnet, (proj1 (omap_root _ _ _ _ _ _)), (proj2 (omap_root _ _ _ _ _ _)), decide_False by done.
    rewrite !omap_app, H1, H2, H3, !app_nil_r. split_and!; [|done..]. intros j. by rewrite Hid.
Qed.

Lemma step_local sc st s s' :
  managers_ok s -> step s s' ->
  managers_ok s' /\ (lstep sc st (local sc st s) (local sc st s') \/
                     same (local sc st s) (local sc st s')).
Proof.
  intros Hok Hstep. destruct Hstep as [s n c cs m outs Hn Ht Hc|s l1 n nm l2 m outs Hnet Hr].
  - by eapply local_call.
  - destruct nm; [by eapply local_receive_up|by eapply local_receive_root].
Qed.

End system.
End ReduceSystem.

(** ** The invariant of one reduction *)

Module ReduceInv.
Import ReduceOp Reduce ReduceNode ReduceSystem.

Section inv.
Context {V : Type} (handlers : Z -> @CombineHandler V) (N : Z).
Context (sc : ReduceScope) (st : ReduceStamp).
Context (op : Functor V) `{Hop : !LawfulOp op}.
#[local] Existing Instance partial_monoid.
#[local] Abbreviation ReduceMsg := (@ReduceMsg V).
#[local] Abbreviation Local := (@Local V).
#[local] Abbreviation Call := (@Call V).

(** The calls that contribute, per node, and what they agree on. *)
Context (K : Z -> list Call) (root han : Z) (rh : Z) (cb : Callback).

Definition kn (n : Z) : Z := Z.of_nat (length (K n)).
Definition call_header (c : Call) : Z * Z * Z * Callback :=
  (c_root c, c_handler c, c_root_handler c, c_cb c).

(** Every node contributes, says how often, and names the same root, handlers and
    callback. *)
Record contributions_ok : Prop := {
  co_op : h_op (handlers han) = op;
  co_some n : 0 <= n < N -> 1 <= kn n < 2 ^ 31;
  co_agree n c : 0 <= n < N -> c ∈ K n -> c_num c = kn n /\ call_header c = (root, han, rh, cb)
}.

Definition children (n : Z) : list Z := getChildrenOf N n.
Definition nch (n : Z) : Z := Z.of_nat (length (children n)).

Definition issued (n : Z) (p : list Call) : Z := kn n - Z.of_nat (length p).
Definition finished (l : Local) (n : Z) : bool :=
  match l_pend l n, l_loc l n with [], None => true | _, _ => false end.
Definition to_node (n : Z) (ups : list (Z * ReduceMsg)) : Z := lsum (fun p => b2z (p.1 =? n)) ups.
Definition finished_children (l : Local) (n : Z) : Z := lsum (fun c => b2z (finished l c)) (children n).

Definition msg_ok (m : ReduceMsg) : Prop := header m = (root, han, rh, cb) /\ key m = (sc, st).

(** A state that is waiting, on node [n] with the calls [p] still to come. *)
Record state_ok (n : Z) (p : list Call) (s : @ReduceState V) : Prop := {
  so_some : msgs s <> [];
  so_msgs : Forall msg_ok (msgs s);
  so_handler : st_combine_handler_ s = han;
  so_root : st_reduce_root_ s = root;
  so_contrib : num_contrib_ s = if issued n p =? 0 then 1 else kn n
}.

Definition received (o : option (@ReduceState V)) : Z :=
  from_option (fun s => Z.of_nat (length (msgs s))) 0 o.

(** What a node's counts say: messages from children, here or on the way, are as
    many as the children that have finished. *)
Definition counts_ok (l : Local) (n : Z) (p : list Call) (r : Z) (ups : list (Z * ReduceMsg)) : Prop :=
  issued n p <= r /\ r - issued n p + to_node n ups = finished_children l n.

Definition mval (p : Z * ReduceMsg) : partial V := Value (val_ p.2).
Definition cval (c : Call) : partial V := Value (c_val c).
Definition held (o : option (@ReduceState V)) (p : list Call) : partial V :=
  from_option (fun s => msum_ op (msgs s)) mzero o ⊕ bsum cval p.

(** All values: in the programs, in states, on the way, handed over. *)
Definition total (l : Local) : partial V :=
  bnsum N (fun n => held (l_loc l n) (l_pend l n)) ⊕
  (bsum mval (l_ups l) ⊕ (bsum mval (l_roots l) ⊕ bsum mval (l_runs l))).
Definition total0 : partial V := bnsum N (fun n => bsum cval (K n)).

Record Inv (l : Local) : Prop := {
  i_suffix n : 0 <= n < N -> exists pre, K n = pre ++ l_pend l n;
  i_some n s : 0 <= n < N -> l_loc l n = Some s ->
    state_ok n (l_pend l n) s /\ Z.of_nat (length (msgs s)) < nch n + kn n;
  i_none n : 0 <= n < N -> l_loc l n = None -> l_pend l n = [] \/ l_pend l n = K n;
  i_count n : 0 <= n < N -> finished l n = false ->
    counts_ok l n (l_pend l n) (received (l_loc l n)) (l_ups l);
  i_finished n : 0 <= n < N -> finished l n = true ->
    to_node n (l_ups l) = 0 /\ forall c, c ∈ children n -> finished l c = true;
  i_ups p : p ∈ l_ups l -> 0 <= p.1 < N /\ msg_ok p.2;
  i_roots p : p ∈ l_roots l -> p.1 = root /\ msg_ok p.2;
  i_runs p : p ∈ l_runs l -> p.1 = root /\ msg_ok p.2;
  i_once : Z.of_nat (length (l_roots l) + length (l_runs l)) = b2z (finished l 0);
  i_total : total l = total0
}.

Context (HN : 0 < N) (HK : contributions_ok).

(** ** Counting *)

Lemma issued_bounds n p pre : K n = pre ++ p -> 0 <= issued n p <= kn n.
Proof. intros H. unfold issued, kn. rewrite H, length_app. lia. Qed.

Lemma issued_nil n : issued n [] = kn n.
Proof. unfold issued. simpl. lia. Qed.

Lemma to_node_nonneg n ups : 0 <= to_node n ups.
Proof. apply lsum_nonneg. intros p _. apply b2z_range. Qed.

Lemma finished_children_le l n : 0 <= finished_children l n <= nch n.
Proof.
  unfold finished_children, nch. induction (children n) as [|c cs IH]; [done|].
  rewrite lsum_cons. cbn [length]. pose proof (b2z_range (finished l c)). lia.
Qed.

Lemma finished_children_all l n :
  finished_children l n = nch n -> forall c, c ∈ children n -> finished l c = true.
Proof.
  unfold finished_children, nch. induction (children n) as [|c cs IH]; intros H d Hd; [by apply not_elem_nil in Hd|].
  rewrite lsum_cons in H. cbn [length] in H.
  assert (lsum (fun c => b2z (finished l c)) cs <= Z.of_nat (length cs)).
  { clear. induction cs as [|c cs IH]; [done|]. rewrite lsum_cons. cbn [length].
    pose proof (b2z_range (finished l c)). lia. }
  pose proof (b2z_range (finished l c)).
  apply elem_of_cons in Hd as [->|Hd]; [destruct (finished l c); [done|simpl in *; lia]|].
  apply IH; [lia|done].
Qed.

Lemma nch_le n : 0 <= nch n <= 2.
Proof.
  unfold nch, children, getChildrenOf. repeat case_match; simpl; lia.
Qed.

Lemma child_iff n c : 0 <= n -> c ∈ children n <-> 0 < c < N /\ parentOf c = n.
Proof. apply elem_of_children. Qed.

(** When node [n] finishes, its parent has one more finished child. *)
Lemma finished_children_flip l l' n j :
  0 <= n < N -> 0 <= j < N -> finished l n = false -> finished l' n = true ->
  (forall c, c <> n -> finished l' c = finished l c) ->
  finished_children l' j = finished_children l j + b2z (bool_decide (0 < n /\ parentOf n = j)).
Proof.
  intros Hn Hj Hf Hf' Hc. unfold finished_children.
  assert (forall cs, n ∉ cs ->
    lsum (fun c => b2z (finished l' c)) cs = lsum (fun c => b2z (finished l c)) cs) as Hsame.
  { intros cs H. apply lsum_ext. intros c Hin. rewrite Hc; [done|]. by intros ->. }
  case_bool_decide as Hb.
  - assert (n ∈ children j) as Hin by (apply child_iff; [lia|naive_solver lia]).
    pose proof (children_NoDup N j) as Hnd. unfold children in *.
    apply list_elem_of_split in Hin as (l1 & l2 & Hl). rewrite Hl in *.
    apply NoDup_app in Hnd as (_ & Hd & [Hn2 _]%NoDup_cons).
    rewrite !lsum_app, !lsum_cons, Hf, Hf', !Hsame; [simpl; lia|done|].
    intros H. apply (Hd _ H). elems.
  - rewrite Hsame; [simpl; lia|]. intros Hin%child_iff; [|lia]. naive_solver lia.
Qed.

(** ** A node's turn *)

(** Node [n] has the state [s] after a message was added, [p] calls still to come
    and [ups] on the way. *)
Record Mid (l : Local) (n : Z) (p : list Call) (ups : list (Z * ReduceMsg)) (s : @ReduceState V)
    : Prop := {
  mi_node : 0 <= n < N;
  mi_open : finished l n = false;
  mi_suffix : exists pre, K n = pre ++ p;
  mi_state : state_ok n p s;
  mi_count : counts_ok l n p (Z.of_nat (length (msgs s))) ups;
  mi_others j : j <> n -> to_node j ups = to_node j (l_ups l);
  mi_ups q : q ∈ ups -> q ∈ l_ups l;
  mi_total : msum_ op (msgs s) ⊕ bsum cval p ⊕ bsum mval ups =
             held (l_loc l n) (l_pend l n) ⊕ bsum mval (l_ups l)
}.

Lemma total_contrib n p s :
  0 <= n < N -> state_ok n p s ->
  wrap u64 (getNumChildren (makeDefault n N) + num_contrib_ s) = nch n + num_contrib_ s.
Proof.
  intros Hn Hs. rewrite numChildren_length. fold (children n). fold (nch n).
  pose proof (nch_le n). pose proof (co_some HK n Hn). rewrite (so_contrib _ _ _ Hs).
  apply wrap_u_small; [done|]. simpl width. case_match; lia.
Qed.

(** A node is ready exactly when nothing more can come. *)
Lemma ready_complete l n p ups s :
  Mid l n p ups s ->
  Z.of_nat (length (msgs s)) <= nch n + kn n /\
  (Z.of_nat (length (msgs s)) = nch n + num_contrib_ s <->
   Z.of_nat (length (msgs s)) = nch n + kn n) /\
  (Z.of_nat (length (msgs s)) = nch n + kn n ->
   p = [] /\ to_node n ups = 0 /\ forall c, c ∈ children n -> finished l c = true).
Proof.
  intros [Hn Hop' [pre Hpre] Hs [Hc1 Hc2] _ _ _].
  pose proof (issued_bounds n p pre Hpre). pose proof (finished_children_le l n).
  pose proof (to_node_nonneg n ups). pose proof (co_some HK n Hn).
  pose proof (so_contrib _ _ _ Hs) as Hcon.
  split_and!; [lia| |].
  - rewrite Hcon. destruct (Z.eqb_spec (issued n p) 0); lia.
  - intros Heq. assert (issued n p = kn n) as Hi by lia. split_and!; [|lia|].
    + unfold issued in Hi. destruct p; [done|simpl in Hi; lia].
    + apply finished_children_all. lia.
Qed.

Lemma held_nil : held None [] = mzero.
Proof. unfold held. simpl. by rewrite madd_0_l. Qed.

(** The sum changes only by what one node has and what is on the way. *)
Definition flying (l : Local) : partial V :=
  bsum mval (l_ups l) ⊕ (bsum mval (l_roots l) ⊕ bsum mval (l_runs l)).

Lemma total_moved l l' n :
  0 <= n < N ->
  (forall j, j <> n -> l_pend l' j = l_pend l j /\ l_loc l' j = l_loc l j) ->
  held (l_loc l' n) (l_pend l' n) ⊕ flying l' = held (l_loc l n) (l_pend l n) ⊕ flying l ->
  total l' = total l.
Proof.
  intros Hn Hj He. unfold total. fold (flying l) (flying l').
  destruct (bnsum_change N (fun j => held (l_loc l j) (l_pend l j))
    (fun j => held (l_loc l' j) (l_pend l' j)) n Hn) as (r & -> & ->).
  { intros j _ Hne. by destruct (Hj j Hne) as [-> ->]. }
  rewrite <- !(madd_assoc _ r), !(madd_left_comm _ r), He. done.
Qed.

Lemma to_node_app n u1 u2 : to_node n (u1 ++ u2) = to_node n u1 + to_node n u2.
Proof. apply lsum_app. Qed.

Lemma finished_eq l l' j :
  l_pend l' j = l_pend l j -> l_loc l' j = l_loc l j -> finished l' j = finished l j.
Proof. unfold finished. by intros -> ->. Qed.

Lemma finished_children_ext l l' j :
  (forall c, finished l' c = finished l c) -> finished_children l' j = finished_children l j.
Proof. intros H. apply lsum_ext. intros c _. by rewrite H. Qed.

(** The node waits on. *)
Lemma keep_inv l l' n p ups s :
  Inv l -> Mid l n p ups s -> Z.of_nat (length (msgs s)) < nch n + kn n ->
  moved sc st l l' n p (Some s) ups (l_roots l) [] -> Inv l'.
Proof.
  intros HI HM Hlen (Hp & Ho & Hj & Hu & Hr & Hl). simpl in Hu, Hr, Hl. rewrite app_nil_r in *.
  pose proof HM as [Hn Hopen Hsuf Hs Hc Hoth Hin Htot].
  assert (forall c, finished l' c = finished l c) as Hfin.
  { intros c. destruct (decide (c = n)) as [->|Hne]; [|by apply finished_eq; apply Hj].
    rewrite Hopen. unfold finished. rewrite Ho. by destruct (l_pend l' n). }
  assert (forall j, finished_children l' j = finished_children l j) as Hfc
    by (intros; by apply finished_children_ext).
  split.
  - intros j Hjr. destruct (decide (j = n)) as [->|Hne]; [by rewrite Hp|].
    destruct (Hj j Hne) as [-> _]. by apply HI.
  - intros j s' Hjr. destruct (decide (j = n)) as [->|Hne].
    + rewrite Ho, Hp. by intros [= <-].
    + destruct (Hj j Hne) as [-> ->]. by apply HI.
  - intros j Hjr. destruct (decide (j = n)) as [->|Hne]; [by rewrite Ho|].
    destruct (Hj j Hne) as [-> ->]. by apply HI.
  - intros j Hjr. rewrite Hfin. intros Hf. unfold counts_ok. rewrite Hfc.
    destruct (decide (j = n)) as [->|Hne]; [by rewrite Hp, Ho, Hu|].
    destruct (Hj j Hne) as [-> ->]. rewrite Hu, Hoth by done. by apply HI.
  - intros j Hjr. rewrite Hfin. intros Hf. destruct (i_finished l HI j Hjr Hf) as [H1 H2].
    destruct (decide (j = n)) as [->|Hne]; [congruence|]. rewrite Hu, Hoth by done.
    split; [done|]. intros c Hc'. rewrite Hfin. auto.
  - intros q. rewrite Hu. intros Hq. by apply (i_ups l HI), Hin.
  - intros q. rewrite Hr. apply HI.
  - intros q. rewrite Hl. apply HI.
  - rewrite Hr, Hl, Hfin. apply HI.
  - rewrite <- (i_total l HI). apply (total_moved l l' n Hn Hj).
    unfold flying. rewrite Ho, Hp, Hu, Hr, Hl. unfold held at 1. simpl.
    by rewrite (madd_assoc _ (bsum mval ups)), Htot, <- madd_assoc.
Qed.

(** What a finishing node sends. *)
Definition finish_outs (n : Z) (m : ReduceMsg) : list output :=
  if isRoot (makeDefault n N) then
    if negb (root =? n) then [SendRoot root m] else [RunRoot (with_link true None 1 m)]
  else [SendUp (getParent (makeDefault n N)) m].

Lemma finish_effect n m :
  0 <= n < N -> msg_ok m ->
  exists eu er el,
    omap (up_of sc st) (sends (finish_outs n m)) = eu /\
    omap (root_of sc st) (sends (finish_outs n m)) = er /\
    omap (run_of sc st) (ran n (finish_outs n m)) = el /\
    (forall j, to_node j eu = b2z (bool_decide (0 < n /\ parentOf n = j))) /\
    (forall q, q ∈ eu -> 0 <= q.1 < N /\ msg_ok q.2) /\
    (forall q, q ∈ er -> q.1 = root /\ msg_ok q.2) /\
    (forall q, q ∈ el -> q.1 = root /\ msg_ok q.2) /\
    Z.of_nat (length er + length el) = b2z (n =? 0) /\
    bsum mval eu ⊕ (bsum mval er ⊕ bsum mval el) = Value (val_ m).
Proof.
  intros Hn Hm. pose proof Hm as [_ Hk].
  unfold finish_outs, isRoot, makeDefault, setupTree, getParent, sends, ran. simpl.
  assert (forall A (a : A) (P : A -> Prop), P a -> forall q, q ∈ [a] -> P q) as Hone
    by by intros ???? q ->%list_elem_of_singleton.
  assert (forall A (P : A -> Prop), forall q, q ∈ [] -> P q) as Hnone
    by by intros ?? q ?%not_elem_nil.
  destruct (Z.eqb_spec n 0) as [->|Hn0]; simpl; [destruct (Z.eqb_spec root 0) as [Hr0|Hr0]|]; simpl.
  - exists [], [], [(0, with_link true None 1 m)].
    split_and!; [done|done| | |by apply Hnone|by apply Hnone| |done|].
    + unfold run_of. simpl. by rewrite decide_True.
    + done.
    + by apply Hone.
    + by rewrite bsum_cons, !bsum_nil, !madd_0_l, madd_0_r.
  - exists [], [(root, m)], [].
    split_and!; [done| |done| |by apply Hnone| |by apply Hnone|done|].
    + unfold root_of. simpl. by rewrite decide_True.
    + done.
    + by apply Hone.
    + by rewrite bsum_cons, !bsum_nil, !madd_0_l, !madd_0_r.
  - exists [(parentOf n, m)], [], [].
    split_and!; [|done|done| | |by apply Hnone|by apply Hnone|done|].
    + unfold up_of. simpl. by rewrite decide_True.
    + intros j. unfold to_node, lsum. simpl.
      destruct (Z.eqb_spec (parentOf n) j);
        [rewrite bool_decide_true by lia|rewrite bool_decide_false by lia]; done.
    + apply Hone. pose proof (parentOf_bounds n ltac:(lia)). split; [simpl; lia|done].
    + by rewrite bsum_cons, !bsum_nil, !madd_0_r.
Qed.

(** The node finishes. *)
Lemma finish_inv l l' n ups s m :
  Inv l -> Mid l n [] ups s -> to_node n ups = 0 ->
  (forall c, c ∈ children n -> finished l c = true) ->
  Value (val_ m) = msum_ op (msgs s) -> msg_ok m ->
  moved sc st l l' n [] None ups (l_roots l) (finish_outs n m) -> Inv l'.
Proof.
  intros HI HM Hto Hch Hval Hm (Hp & Ho & Hj & Hu & Hr & Hl).
  pose proof HM as [Hn Hopen Hsuf Hs Hc Hoth Hin Htot].
  destruct (finish_effect n m Hn Hm) 
    as (eu & er & el & E1 & E2 & E3 & He1 & He2 & He3 & He4 & He5 & He6).
  rewrite E1 in Hu. rewrite E2 in Hr. rewrite E3 in Hl.
  assert (finished l' n = true) as Hfn by (unfold finished; by rewrite Hp, Ho).
  assert (forall c, c <> n -> finished l' c = finished l c) as Hfin
    by (intros c Hne; by apply finished_eq; apply Hj).
  assert (forall c, finished l c = true -> finished l' c = true) as Hmono.
  { intros c Hf. destruct (decide (c = n)) as [->|Hne]; [done|by rewrite Hfin]. }
  split.
  - intros j Hjr. destruct (decide (j = n)) as [->|Hne]; [by rewrite Hp|].
    destruct (Hj j Hne) as [-> _]. by apply HI.
  - intros j s' Hjr. destruct (decide (j = n)) as [->|Hne]; [by rewrite Ho|].
    destruct (Hj j Hne) as [-> ->]. by apply HI.
  - intros j Hjr. destruct (decide (j = n)) as [->|Hne]; [by left|].
    destruct (Hj j Hne) as [-> ->]. by apply HI.
  - intros j Hjr Hf. assert (j <> n) as Hne by congruence. rewrite Hfin in Hf by done.
    destruct (i_count l HI j Hjr Hf) as [H1 H2]. destruct (Hj j Hne) as [-> ->].
    split; [done|]. rewrite (finished_children_flip l l' n j Hn Hjr Hopen Hfn Hfin).
    rewrite Hu, to_node_app, Hoth, He1 by done. lia.
  - intros j Hjr Hf. destruct (decide (j = n)) as [->|Hne].
    + rewrite Hu, to_node_app, Hto, He1. split; [|auto].
      rewrite bool_decide_false; [done|]. intros [Hpos Hpar]. pose proof (parentOf_bounds n Hpos). lia.
    + rewrite Hfin in Hf by done. destruct (i_finished l HI j Hjr Hf) as [H1 H2].
      split; [|auto]. rewrite Hu, to_node_app, Hoth, H1, He1 by done.
      rewrite bool_decide_false; [done|]. intros [Hpos Hpar].
      assert (n ∈ children j) as Hnj by (apply child_iff; lia). rewrite (H2 n Hnj) in Hopen. done.
  - intros q. rewrite Hu, elem_of_app. intros [Hq|Hq]; [by apply (i_ups l HI), Hin|auto].
  - intros q. rewrite Hr, elem_of_app. intros [Hq|Hq]; [by apply (i_roots l HI)|auto].
  - intros q. rewrite Hl, elem_of_app. intros [Hq|Hq]; [by apply (i_runs l HI)|auto].
  - pose proof (i_once l HI) as Hone. rewrite Hr, Hl, !length_app.
    destruct (Z.eqb_spec n 0) as [Hn0|Hn0].
    + rewrite Hn0 in Hopen, Hfn. rewrite Hopen in Hone. rewrite Hfn. simpl in *. lia.
    + rewrite (Hfin 0) by done. simpl in He5. lia.
  - rewrite <- (i_total l HI). apply (total_moved l l' n Hn Hj).
    unfold flying. rewrite Ho, Hp, Hu, Hr, Hl, held_nil, madd_0_l, !bsum_app, madd_shuffle, He6.
    by rewrite (madd_assoc (held (l_loc l n) (l_pend l n))), <- Htot, bsum_nil, madd_0_r, <- Hval.
Qed.

(** ** Every step keeps it *)

Lemma fire_inv l l' n p ups s o outs :
  Inv l -> Mid l n p ups s -> fire handlers N n s = Ok (o, outs) ->
  moved sc st l l' n p o ups (l_roots l) outs -> Inv l'.
Proof.
  intros HI HM Hf Hmv. unfold fire in Hf.
  pose proof HM as [Hn Hopen Hsuf Hs Hc Hoth Hin Htot].
  destruct (ready_complete l n p ups s HM) as (Hle & Hiff & Hall).
  rewrite (total_contrib n p s Hn Hs) in Hf.
  destruct (Z.eqb_spec (Z.of_nat (length (msgs s))) (nch n + num_contrib_ s)) as [Heq|Hne].
  - apply Hiff in Heq. destruct (Hall Heq) as (-> & Hto & Hch).
    apply bind_Ok_inv in Hf as (m & Hm & [= <- <-]).
    destruct (combined_Ok handlers op s m) as (Hsum & m0 & Hhd & Hh & H1 & H2);
      [by rewrite (so_handler _ _ _ Hs), (co_op HK)|done|].
    assert (msg_ok m) as Hok.
    { pose proof (so_msgs _ _ _ Hs) as Hall'. destruct (msgs s) as [|m1 ms]; [done|].
      injection Hhd as ->. apply Forall_cons in Hall' as [[Hh0 Hk0] _].
      split; [congruence|]. unfold key in *. congruence. }
    rewrite (so_root _ _ _ Hs) in Hmv. by eapply finish_inv.
  - injection Hf as <- <-. eapply keep_inv; [done..| |exact Hmv].
    assert (Z.of_nat (length (msgs s)) <> nch n + kn n) by (intros H; by apply Hne, Hiff). lia.
Qed.

Lemma msum_snoc (ms : list ReduceMsg) m : msum_ op (ms ++ [m]) = msum_ op ms ⊕ Value (val_ m).
Proof. unfold msum_. by rewrite bsum_snoc. Qed.

Lemma added_msum o m local nc :
  msum_ op (msgs (added o m local nc)) =
  from_option (fun s => msum_ op (msgs s)) mzero o ⊕ Value (val_ m).
Proof.
  unfold added. simpl. rewrite msum_snoc. f_equal. by destruct o.
Qed.

Lemma added_msgs o m local nc :
  Z.of_nat (length (msgs (added o m local nc))) = received o + 1.
Proof. unfold added. simpl. rewrite length_app. simpl. destruct o; simpl; lia. Qed.

Lemma added_ne o m local nc : msgs (@added V o m local nc) <> [].
Proof. unfold added. simpl. intros [_ ?]%app_eq_nil. done. Qed.

Lemma call_mid l n c p :
  Inv l -> 0 <= n < N -> l_pend l n = c :: p ->
  Mid l n p (l_ups l) (added (l_loc l n) (call_msg c (c_root c) st sc) true (c_num c)).
Proof.
  intros HI Hn Hp. destruct (i_suffix l HI n Hn) as [pre Hpre].
  assert (c ∈ K n) as Hin by (rewrite Hpre, Hp; elems).
  destruct (co_agree HK n c Hn Hin) as [Hnum Hhdr]. injection Hhdr as H1 H2 H3 H4.
  assert (finished l n = false) as Hopen by (unfold finished; by rewrite Hp).
  assert (issued n p = issued n (l_pend l n) + 1) as Hiss by (unfold issued; rewrite Hp; simpl; lia).
  pose proof (issued_bounds n _ pre Hpre) as Hb. pose proof (co_some HK n Hn).
  assert (msg_ok (call_msg c (c_root c) st sc)) as Hok
    by (split; [unfold header, call_msg; simpl; congruence|done]).
  split; [done..| | | |done|done|].
  - exists (pre ++ [c]). by rewrite Hpre, Hp, <- app_assoc.
  - assert (Forall msg_ok (msgs (added (l_loc l n) (call_msg c (c_root c) st sc) true (c_num c)))) as Hall.
    { unfold added. simpl. apply Forall_app. split; [|by constructor].
      destruct (l_loc l n) as [s|] eqn:Hl; [|done]. simpl.
      by apply (i_some l HI n s Hn Hl). }
    split; [|done|done|done|].
    + apply added_ne.
    + unfold added. simpl. rewrite Hnum. destruct (Z.eqb_spec (kn n) (-1)); [lia|]. simpl.
      destruct (Z.eqb_spec (issued n p) 0); [lia|done].
  - destruct (i_count l HI n Hn Hopen) as [Hc1 Hc2]. unfold counts_ok.
    rewrite added_msgs, Hiss. lia.
  - rewrite added_msum. unfold held. rewrite Hp, bsum_cons. unfold cval at 2. simpl.
    by rewrite <- !madd_assoc.
Qed.

Lemma up_mid l n m l1 l2 :
  Inv l -> l_ups l = l1 ++ (n, m) :: l2 ->
  Mid l n (l_pend l n) (l1 ++ l2) (added (l_loc l n) m false (-1)).
Proof.
  intros HI Hu. destruct (i_ups l HI (n, m)) as [Hn Hok]; [rewrite Hu; elems|]. simpl in Hn, Hok.
  assert (to_node n (l_ups l) = to_node n (l1 ++ l2) + 1) as Hto.
  { rewrite Hu, !to_node_app. unfold to_node. rewrite lsum_cons. simpl. rewrite Z.eqb_refl. simpl. lia. }
  assert (finished l n = false) as Hopen.
  { destruct (finished l n) eqn:Hf; [|done]. destruct (i_finished l HI n Hn Hf) as [H0 _].
    pose proof (to_node_nonneg n (l1 ++ l2)). lia. }
  pose proof (added_ne (l_loc l n) m false (-1)) as Hne.
  destruct (i_count l HI n Hn Hopen) as [Hc1 Hc2].
  split; [done|done|by apply HI| | | | |].
  - assert (Forall msg_ok (msgs (added (l_loc l n) m false (-1)))) as Hall.
    { unfold added. simpl. apply Forall_app. split; [|by constructor].
      destruct (l_loc l n) as [s|] eqn:Hl; [|done]. simpl. by apply (i_some l HI n s Hn Hl). }
    destruct Hok as [Hh Hk]. injection Hh as H1 H2 H3 H4.
    split; [done..|]. unfold added. simpl. destruct (l_loc l n) as [s|] eqn:Hl; simpl.
    + by apply (i_some l HI n s Hn Hl).
    + destruct (i_none l HI n Hn Hl) as [Hp|Hp];
        [unfold finished in Hopen; by rewrite Hp, Hl in Hopen|].
      unfold issued. rewrite Hp, Z.sub_diag. done.
  - unfold counts_ok. rewrite added_msgs. lia.
  - intros j Hj. rewrite Hu, !to_node_app. unfold to_node. rewrite lsum_cons. simpl.
    destruct (Z.eqb_spec n j); [done|simpl; lia].
  - intros q. rewrite Hu, !elem_of_app, elem_of_cons. tauto.
  - rewrite added_msum. unfold held. rewrite Hu, !bsum_app, bsum_cons. unfold mval at 4. simpl.
    rewrite <- !madd_assoc. f_equal. rewrite (madd_left_comm (bsum mval l1)).
    apply madd_left_comm.
Qed.

(** Nothing but the messages to and at the root changes. *)
Lemma quiet_inv l l' :
  Inv l -> (forall j, l_pend l' j = l_pend l j /\ l_loc l' j = l_loc l j) -> l_ups l' = l_ups l ->
  (forall q, q ∈ l_roots l' -> q.1 = root /\ msg_ok q.2) ->
  (forall q, q ∈ l_runs l' -> q.1 = root /\ msg_ok q.2) ->
  (length (l_roots l') + length (l_runs l') = length (l_roots l) + length (l_runs l))%nat ->
  bsum mval (l_roots l') ⊕ bsum mval (l_runs l') = bsum mval (l_roots l) ⊕ bsum mval (l_runs l) ->
  Inv l'.
Proof.
  intros HI Hj Hu Hr Hl Hlen Hsum.
  assert (forall c, finished l' c = finished l c) as Hfin by (intros; by apply finished_eq; apply Hj).
  split; try done.
  - intros n Hn. rewrite (proj1 (Hj n)). by apply HI.
  - intros n s Hn. destruct (Hj n) as [-> ->]. by apply HI.
  - intros n Hn. destruct (Hj n) as [-> ->]. by apply HI.
  - intros n Hn. rewrite Hfin. intros Hf. unfold counts_ok.
    rewrite (finished_children_ext l l' n Hfin), Hu. destruct (Hj n) as [-> ->]. by apply HI.
  - intros n Hn. rewrite Hfin, Hu. intros Hf. destruct (i_finished l HI n Hn Hf) as [H1 H2].
    split; [done|]. intros c Hc. rewrite Hfin. auto.
  - rewrite Hu. apply (i_ups l HI).
  - rewrite Hlen, Hfin. apply (i_once l HI).
  - rewrite <- (i_total l HI). unfold total. rewrite Hu, Hsum. f_equal.
    apply bnsum_same. intros i _. by destruct (Hj i) as [-> ->].
Qed.

Lemma same_inv l l' : Inv l -> same l l' -> Inv l'.
Proof.
  intros HI (Hj & Hu & Hr & Hl). apply (quiet_inv l l' HI Hj Hu); rewrite ?Hr, ?Hl; [| |done|done].
  - apply (i_roots l HI).
  - apply (i_runs l HI).
Qed.

Lemma lstep_inv l l' : Inv l -> lstep handlers N sc st l l' -> Inv l'.
Proof.
  intros HI Hstep.
  destruct Hstep as [n c p o outs Hn Hp Hf Hmv|n m l1 l2 o outs Hu Hk Hf Hmv|n m l1 l2 Hr Hk Hmv].
  - eapply fire_inv; [done|by apply call_mid|exact Hf|exact Hmv].
  - eapply fire_inv; [done|by eapply up_mid|exact Hf|exact Hmv].
  - destruct Hmv as (Hp & Ho & Hj & Hu' & Hr' & Hl').
    simpl in Hu', Hr', Hl'. unfold run_of in Hl'. simpl in Hl'.
    change (key (with_link true None 1 m)) with (key m) in Hl'.
    rewrite app_nil_r in *. rewrite decide_True in Hl' by done.
    destruct (i_roots l HI (n, m)) as [Hn Hok]; [rewrite Hr; elems|]. simpl in Hn, Hok. subst n.
    apply (quiet_inv l l' HI); [|done| | | |].
    + intros j. destruct (decide (j = root)) as [->|Hne]; [done|by apply Hj].
    + intros q Hq. apply (i_roots l HI). rewrite Hr. rewrite Hr' in Hq. by apply elem_of_middle.
    + intros q. rewrite Hl', elem_of_app. intros [Hq| ->%list_elem_of_singleton]; [by apply (i_runs l HI)|].
      split; [done|]. exact Hok.
    + rewrite Hr', Hl', Hr, !length_app. simpl. lia.
    + rewrite Hr', Hl', Hr, !bsum_app, !bsum_cons, bsum_nil, madd_0_r.
      change (mval (root, with_link true None 1 m)) with (mval (root, m)).
      rewrite <- !madd_assoc. f_equal. rewrite (madd_comm (bsum mval (l_runs l))).
      by rewrite madd_left_comm.
Qed.

(** ** The end of the reduction *)

Lemma finished_below l n : Inv l -> finished l 0 = true -> 0 <= n < N -> finished l n = true.
Proof.
  intros HI H0. induction n as [n IH] using (well_founded_induction (Z.lt_wf 0)). intros Hn.
  destruct (decide (n = 0)) as [->|Hne]; [done|].
  pose proof (parentOf_bounds n ltac:(lia)) as Hp.
  specialize (IH (parentOf n) ltac:(lia) ltac:(lia)).
  apply (i_finished l HI (parentOf n) ltac:(lia) IH). apply child_iff; lia.
Qed.

Lemma finished_elim l n : finished l n = true -> l_pend l n = [] /\ l_loc l n = None.
Proof. unfold finished. by destruct (l_pend l n), (l_loc l n). Qed.

Lemma ups_empty l : Inv l -> (forall n, 0 <= n < N -> to_node n (l_ups l) = 0) -> l_ups l = [].
Proof.
  intros HI H. destruct (l_ups l) as [|[d m] q] eqn:Hu; [done|].
  destruct (i_ups l HI (d, m)) as [Hd _]; [rewrite Hu; elems|]. simpl in Hd.
  specialize (H d Hd). unfold to_node in H. rewrite lsum_cons in H. simpl in H.
  rewrite Z.eqb_refl in H. simpl in H. pose proof (to_node_nonneg d q). unfold to_node in *. lia.
Qed.

(** Once the root of the tree is done, the one message left carries everything. *)
Lemma finished_root l :
  Inv l -> finished l 0 = true ->
  (forall n, 0 <= n < N -> l_pend l n = [] /\ l_loc l n = None) /\ l_ups l = [] /\
  bsum mval (l_roots l) ⊕ bsum mval (l_runs l) = total0.
Proof.
  intros HI H0.
  assert (forall n, 0 <= n < N -> finished l n = true) as Hall by (intros; by apply finished_below).
  split; [intros n Hn; by apply finished_elim, Hall|].
  assert (l_ups l = []) as Hu by (apply ups_empty; [done|]; intros n Hn; by apply (i_finished l HI n Hn), Hall).
  split; [done|]. rewrite <- (i_total l HI). unfold total. rewrite Hu, bsum_nil, madd_0_l, bnsum_0.
  - by rewrite madd_0_l.
  - intros n Hn. destruct (finished_elim l n (Hall n Hn)) as [-> ->]. apply held_nil.
Qed.

Lemma runs_final l :
  Inv l -> l_runs l <> [] ->
  (forall n, 0 <= n < N -> l_pend l n = [] /\ l_loc l n = None) /\ l_ups l = [] /\ l_roots l = [] /\
  exists m, l_runs l = [(root, m)] /\ msg_ok m /\ total0 = Value (val_ m).
Proof.
  intros HI Hne. pose proof (i_once l HI) as Hone.
  destruct (l_runs l) as [|[d m] q] eqn:Hl; [done|]. simpl in Hone.
  destruct (finished l 0) eqn:H0; [|simpl in Hone; lia]. simpl in Hone.
  destruct (finished_root l HI H0) as (H1 & H2 & H3).
  destruct q; [|simpl in Hone; lia]. destruct (l_roots l) eqn:Hr; [|simpl in Hone; lia].
  destruct (i_runs l HI (d, m)) as [Hd Hm]; [rewrite Hl; elems|]. simpl in Hd, Hm. subst d.
  split_and!; [done..|]. exists m. split_and!; [done..|].
  rewrite <- H3, Hl, bsum_cons, !bsum_nil, madd_0_l, madd_0_r. done.
Qed.

(** A node that has everything has finished. *)
Lemma quiet_finished l :
  Inv l -> (forall n, 0 <= n < N -> l_pend l n = []) -> l_ups l = [] ->
  forall n, 0 <= n < N -> finished l n = true.
Proof.
  intros HI Hp Hu n Hn.
  remember (Z.to_nat (N - n)) as k eqn:Hk. revert n Hn Hk.
  induction k as [k IH] using lt_wf_ind. intros n Hn Hk.
  destruct (finished l n) eqn:Hf; [done|].
  destruct (i_count l HI n Hn Hf) as [Hc1 Hc2]. rewrite Hu, Hp in Hc2 by done.
  rewrite Hp in Hc1 by done. unfold to_node in Hc2. simpl in Hc2.
  assert (finished_children l n = nch n) as Hall.
  { unfold finished_children, nch.
    assert (forall cs, (forall c, c ∈ cs -> finished l c = true) ->
      lsum (fun c => b2z (finished l c)) cs = Z.of_nat (length cs)) as Hcs.
    { induction cs as [|c cs IHc]; intros H; [done|]. rewrite lsum_cons, (H c) by elems.
      rewrite IHc by (intros; apply H; elems). cbn [length b2z]. lia. }
    apply Hcs. intros c Hc%child_iff; [|lia]. destruct Hc as [Hcr Hpar].
    pose proof (parentOf_bounds c ltac:(lia)). apply (IH (Z.to_nat (N - c))); lia. }
  rewrite issued_nil in *. pose proof (co_some HK n Hn).
  destruct (l_loc l n) as [s|] eqn:Hl; [|simpl in *; lia].
  destruct (i_some l HI n s Hn Hl) as [_ Hlt]. simpl in *. lia.
Qed.

(** ** Values that combine *)

Lemma part_not_failed (x y : partial V) v : x ⊕ y = Value v -> x = Nothing \/ exists w, x = Value w.
Proof. destruct x as [|w|]; [by left|by right; eauto|by destruct y]. Qed.

Lemma mid_combined l n p ups s v :
  Inv l -> Mid l n p ups s -> total0 = Value v -> exists m, combined handlers s = Ok m.
Proof.
  intros HI [Hn _ _ Hs _ _ _ Htot] Hv.
  destruct (bnsum_change N (fun j => held (l_loc l j) (l_pend l j))
    (fun j => held (l_loc l j) (l_pend l j)) n Hn) as (r & Hr & _); [done|].
  assert (exists y, msum_ op (msgs s) ⊕ y = Value v) as [y Hy].
  { rewrite <- (i_total l HI) in Hv. unfold total in Hv. rewrite Hr in Hv.
    rewrite <- madd_assoc, (madd_left_comm r), madd_assoc, <- Htot in Hv.
    rewrite <- !madd_assoc in Hv. eauto. }
  apply part_not_failed in Hy as [Hy|[w Hw]].
  - destruct (msgs s) as [|m ms] eqn:Hms; [by destruct (so_some _ _ _ Hs)|].
    unfold msum_ in Hy. rewrite bsum_cons in Hy. destruct (bsum _ ms) in Hy; try done.
    unfold madd in Hy. simpl in Hy. by destruct (op _ _).
  - destruct (combined_msum handlers op s w) as (m & Hm & _); [|done|eauto].
    by rewrite (so_handler _ _ _ Hs), (co_op HK).
Qed.

Lemma mid_fires l n p ups s v :
  Inv l -> Mid l n p ups s -> total0 = Value v -> exists x, fire handlers N n s = Ok x.
Proof.
  intros HI HM Hv. unfold fire. case_match; [|eauto].
  destruct (mid_combined l n p ups s v HI HM Hv) as [m ->]. simpl. eauto.
Qed.

End inv.
End ReduceInv.

(** ** What a reduction promises *)

Module ReduceSpec.
Import ReduceOp Reduce ReduceNode ReduceSystem ReduceInv.

Section spec.
Context {V : Type} (handlers : Z -> @CombineHandler V) (N : Z).
Context (sc : ReduceScope) (st : ReduceStamp).
Context (op : Functor V) `{Hop : !LawfulOp op}.
#[local] Existing Instance partial_monoid.
#[local] Abbreviation Call := (@Call V).
#[local] Abbreviation Sys := (@Sys V).

Context (program : Z -> list Call) (root han rh : Z) (cb : Callback).

(** The contributions to the reduction: the calls of the program with its scope
    that get its stamp, whether given or from the node's sequence. *)
Definition contributions (n : Z) : list Call := pending sc st 1 (program n).

(** The value of the reduction. *)
Definition value_is (v : V) : Prop := total0 N op contributions = Value v.

(** The abstract reduction: calls still to come per node, and the actions taken
    with the result, on which node. *)
Record Spec := MkSpec {
  sp_todo : Z -> list Call;
  sp_result : list (Z * list (@RootAction V))
}.

(** The actions for a value. *)
Definition actions_for (v : V) : list RootAction :=
  rootActions (handlers han) (MkMsg root st sc han rh cb v true None 1).

Inductive spec_step (x y : Spec) : Prop :=
  | spec_same :
      (forall n, 0 <= n < N -> sp_todo y n = sp_todo x n) -> sp_result y = sp_result x ->
      spec_step x y
  | spec_contribute n c :
      0 <= n < N -> sp_todo x n = c :: sp_todo y n ->
      (forall j, 0 <= j < N -> j <> n -> sp_todo y j = sp_todo x j) ->
      sp_result y = sp_result x -> spec_step x y
  | spec_complete v :
      (forall n, 0 <= n < N -> sp_todo x n = [] /\ sp_todo y n = []) -> sp_result x = [] ->
      value_is v -> sp_result y = [(root, actions_for v)] -> spec_step x y.

(** The system as the specification sees it. *)
Definition abstract (s : Sys) : Spec := {|
  sp_todo n := pending sc st (seq_of sc (mgr s n)) (todo s n);
  sp_result := map (fun p => (p.1, rootActions (handlers (combine_handler_ p.2)) p.2))
                 (omap (run_of sc st) (runs s))
|}.

Context (HN : 0 < N) (HK : contributions_ok handlers N op contributions root han rh cb).

Lemma init_inv : Inv N sc st op contributions root han rh cb (local sc st (init N program)).
Proof.
  assert (forall n, loc sc st (makeManager n N) = (None : option (@ReduceState V)) /\
    seq_of sc (@makeManager V n N) = 1) as Hinit.
  { intros n. unfold loc, seq_of, makeManager, makeGroup. simpl. rewrite lookup_empty.
    unfold store. simpl. destruct (decide (sc = StrongGroup default_group)) as [->|Hne].
    - rewrite lookup_insert_eq. simpl. by rewrite lookup_empty.
    - by rewrite lookup_insert_ne. }
  assert (forall n, 0 <= n < N -> finished (local sc st (init N program)) n = false) as Hf.
  { intros n Hn. unfold finished, local. simpl. destruct (Hinit n) as [-> ->].
    fold (contributions n). pose proof (co_some _ _ _ _ _ _ _ _ HK n Hn) as Hk. unfold kn in Hk.
    destruct (contributions n); [simpl in Hk; lia|done]. }
  split; unfold local, init; simpl; try (by intros ? ?%not_elem_nil).
  - intros n _. exists []. rewrite (proj2 (Hinit n)). done.
  - intros n s _. by rewrite (proj1 (Hinit n)).
  - intros n _ _. right. by rewrite (proj2 (Hinit n)).
  - intros n Hn _. rewrite (proj1 (Hinit n)), (proj2 (Hinit n)).
    fold (contributions n). unfold counts_ok, issued, kn. rewrite Z.sub_diag. split; [done|].
    unfold to_node, finished_children. simpl. symmetry. apply lsum_0.
    intros c Hc%child_iff; [|lia]. unfold local, init in Hf. simpl in Hf. by rewrite Hf by lia.
  - intros n Hn H. unfold local, init in Hf. simpl in Hf. by rewrite Hf in H.
  - unfold local, init in Hf. simpl in Hf. by rewrite Hf by lia.
  - unfold total, total0. simpl. rewrite !madd_0_r. apply bnsum_same. intros n _.
    rewrite (proj1 (Hinit n)), (proj2 (Hinit n)). unfold held. simpl. by rewrite madd_0_l.
Qed.

Lemma reduce_reach_inv s :
  reach handlers N program s ->
  managers_ok N s /\ Inv N sc st op contributions root han rh cb (local sc st s).
Proof.
  induction 1 as [|s s' Hr [Hok HI] Hstep].
  - split; [intros j; apply makeManager_ok|apply init_inv].
  - destruct (step_local handlers N sc st s s' Hok Hstep) as [Hok' [Hl|Hl]]; (split; [done|]).
    + by eapply lstep_inv.
    + by eapply same_inv.
Qed.

Lemma result_final s :
  Inv N sc st op contributions root han rh cb (local sc st s) -> l_runs (local sc st s) <> [] ->
  (forall n, 0 <= n < N -> l_pend (local sc st s) n = [] /\ l_loc (local sc st s) n = None) /\
  l_ups (local sc st s) = [] /\ l_roots (local sc st s) = [] /\
  exists v, value_is v /\ length (l_runs (local sc st s)) = 1%nat /\
    sp_result (abstract s) = [(root, actions_for v)].
Proof.
  intros HI Hne. destruct (runs_final _ _ _ _ _ _ _ _ _ _ HI Hne)
    as (H1 & H2 & H3 & m & Hm & [Hh Hk] & Hv).
  split_and!; [done..|]. exists (val_ m). split; [done|]. rewrite Hm. split; [done|].
  unfold abstract. simpl in *. rewrite Hm. simpl. unfold actions_for, rootActions.
  injection Hh as _ -> -> ->. done.
Qed.

Lemma refine_step s s' el :
  Inv N sc st op contributions root han rh cb (local sc st s') ->
  l_runs (local sc st s') = l_runs (local sc st s) ++ el ->
  spec_step (abstract s) (MkSpec (sp_todo (abstract s')) (sp_result (abstract s))) ->
  rtc spec_step (abstract s) (abstract s').
Proof.
  intros HI Hr Hs. destruct el as [|e el].
  - rewrite app_nil_r in Hr. apply rtc_once. unfold abstract in *. simpl in *. by rewrite Hr.
  - destruct (result_final s' HI) as (H1 & _ & _ & v & Hv & Hlen & Hres);
      [by rewrite Hr; intros [_ ?]%app_eq_nil|].
    rewrite Hr, length_app in Hlen. cbn [length] in Hlen.
    destruct (l_runs (local sc st s)) eqn:Hl; [|cbn [length] in Hlen; lia].
    assert (sp_result (abstract s) = []) as Hnil by (unfold abstract; simpl in Hl |- *; by rewrite Hl).
    eapply rtc_l; [exact Hs|]. apply rtc_once.
    apply (spec_complete _ _ v); [|exact Hnil|done|exact Hres].
    intros n Hn. by destruct (H1 n Hn).
Qed.

(** C9: Whatever the order in which calls are made and messages delivered, the
    reducers of all nodes together do what the abstract reduction does: count
    off each node's contributions and then, once, hand the combined value of all
    of them to the target node. Other reductions, of the same scope or of
    others, may run at the same time and be misused. *)
Theorem reduce_refines s :
  reach handlers N program s -> rtc spec_step (abstract (init N program)) (abstract s).
Proof.
  induction 1 as [|s s' Hr IH Hstep]; [done|]. etransitivity; [exact IH|].
  destruct (reduce_reach_inv s Hr) as [Hok HI].
  destruct (reduce_reach_inv s' (reach_step _ _ _ _ _ Hr Hstep)) as [_ HI'].
  destruct (step_local handlers N sc st s s' Hok Hstep) as [_ [Hl|(Hj & _ & _ & Hruns)]].
  - destruct Hl as [n c p o outs Hn Hp Hf Hmv|n m l1 l2 o outs Hu Hk Hf Hmv|n m l1 l2 Hrt Hk Hmv];
      destruct Hmv as (Hp' & _ & Hj & _ & _ & Hruns); apply (refine_step s s' _ HI' Hruns).
    + apply (spec_contribute _ _ n c); [done| | |done].
      * unfold abstract. simpl in *. by rewrite Hp, Hp'.
      * intros j _ Hne. by apply Hj.
    + apply spec_same; [|done]. intros j _. destruct (decide (j = n)) as [->|Hne]; [done|by apply Hj].
    + apply spec_same; [|done]. intros j _. destruct (decide (j = n)) as [->|Hne]; [done|by apply Hj].
  - apply (refine_step s s' [] HI'); [by rewrite Hruns, app_nil_r|].
    apply spec_same; [|done]. intros j _. by apply Hj.
Qed.

(** C10: When every node has made its contributions and no message of the reduction
    is on the way, it is complete: the target node has run the handler exactly
    once, with the combined value of all contributions, and no node keeps any
    state of the reduction. *)
Theorem reduce_completes s :
  reach handlers N program s ->
  (forall n, 0 <= n < N -> sp_todo (abstract s) n = []) ->
  (forall p, p ∈ net s -> match p.2 with UpMsg m | RootMsg m => key m <> (sc, st) end) ->
  (exists v, value_is v /\ sp_result (abstract s) = [(root, actions_for v)]) /\
  forall n, 0 <= n < N -> loc sc st (mgr s n) = None.
Proof.
  intros Hr Hp Hnet. destruct (reduce_reach_inv s Hr) as [Hok HI].
  assert (l_ups (local sc st s) = [] /\ l_roots (local sc st s) = []) as [Hu Hrt].
  { unfold local. simpl. induction (net s) as [|[d nm] q IH]; [done|].
    destruct IH as [IH1 IH2]; [intros p Hin; apply Hnet; elems|].
    specialize (Hnet (d, nm) ltac:(elems)). simpl in *. unfold up_of at 1, root_of at 1. simpl.
    destruct nm; by rewrite decide_False. }
  pose proof (quiet_finished _ _ _ _ _ _ _ _ _ _ HK _ HI Hp Hu 0 ltac:(lia)) as H0.
  pose proof (i_once _ _ _ _ _ _ _ _ _ _ HI) as Hone. rewrite Hrt, H0 in Hone.
  destruct (result_final s HI) as (H1 & _ & _ & v & Hv & _ & Hres).
  { intros Hl. rewrite Hl in Hone. done. }
  split; [by exists v|]. intros n Hn. by apply (H1 n Hn).
Qed.

(** On every reachable state, if the operator combines the contributions
    without a failed assertion, none of the reduction's calls and messages fails
    one: every call made next and every message on the way is taken. *)
Theorem reduce_never_asserts s v :
  reach handlers N program s -> usable sc -> value_is v ->
  (forall n c cs, 0 <= n < N -> todo s n = c :: cs -> c_scope c = sc ->
     (number (seq_of sc (mgr s n)) c).2 = st -> exists x, run_call handlers N n (mgr s n) c = Ok x) /\
  (forall n nm, (n, nm) ∈ net s ->
     match nm with UpMsg m | RootMsg m => key m = (sc, st) end ->
     exists x, receive handlers N n (mgr s n) nm = Ok x).
Proof.
  intros Hr Hu Hv. destruct (reduce_reach_inv s Hr) as [Hok HI]. split.
  - intros n c cs Hn Ht Hc Hst.
    destruct (number (seq_of sc (mgr s n)) c) as [q id] eqn:Hnum. simpl in Hst.
    assert (l_pend (local sc st s) n = c :: pending sc st q cs) as Hp.
    { unfold local. cbn [l_pend]. rewrite Ht. cbn [pending]. rewrite decide_True by done.
      rewrite Hnum. by rewrite decide_True. }
    destruct (mid_fires handlers N sc st op contributions root han rh cb HK _ n _ _ _ v HI
      ltac:(eapply call_mid; [exact HK|exact HI|exact Hn|exact Hp]) Hv) as [x Hx].
    apply (run_call_succeeds handlers N n _ c x); rewrite ?Hc; [apply Hok|done|].
    rewrite Hnum. simpl. rewrite Hst. exact Hx.
  - intros n nm Hin Hk. destruct nm as [msg|msg]; [|by apply receive_root_succeeds].
    apply list_elem_of_split in Hin as (l1 & l2 & Hnet).
    assert (l_ups (local sc st s) = omap (up_of sc st) l1 ++ (n, msg) :: omap (up_of sc st) l2) as Hups.
    { unfold local. cbn [l_ups]. rewrite Hnet, (proj1 (omap_up _ _ _ _ _ _)). by rewrite decide_True. }
    destruct (mid_fires handlers N sc st op contributions root han rh cb HK _ n _ _ _ v HI
      ltac:(eapply up_mid; [exact HI|exact Hups]) Hv) as [x Hx].
    unfold key in Hk. injection Hk as <- <-. eapply receive_up_succeeds; [apply Hok|done|exact Hx].
Qed.

End spec.
(** ** A run of two nodes *)

#[local] Instance example_lawful : LawfulOp (PlusOp_vector u32).
Proof. apply vector_op_lawful, plus_lawful. auto with vt. Defined.

(** Two reductions one after the other, with node 1 as root. *)
Definition example_handlers (_ : Z) : @CombineHandler (list Z) :=
  MkHandler (PlusOp_vector u32) false true.
Definition example_call (v : list Z) : Call :=
  MkCall (StrongObjGroup 7) 1 5 9 (MsgCallback None) v default_stamp 1.
Definition example_program (n : Z) : list Call :=
  if n =? 0 then [example_call [1; 2]; example_call [5; 5]]
  else [example_call [10; 20]; example_call [7; 7]].

Definition example_after (cs : list choice) : Sys :=
  default (init 2 example_program) (exec example_handlers 2 (init 2 example_program) cs).

Lemma example_reach cs : reach example_handlers 2 example_program (example_after cs).
Proof.
  unfold example_after. destruct (exec _ _ _ cs) as [s|] eqn:H; simpl; [|apply reach_init].
  eapply reduce_exec_reach; [apply reach_init|exact H].
Qed.

Lemma two_nodes n : 0 <= n < 2 -> n = 0 \/ n = 1.
Proof. lia. Qed.

Lemma example_contributions :
  contributions_ok example_handlers 2 (PlusOp_vector u32)
    (contributions (StrongObjGroup 7) (StrongSeq 2) example_program) 1 5 9 (MsgCallback None).
Proof.
  split; [done|by intros n [-> | ->]%two_nodes; vm_compute; split|].
  intros n c [-> | ->]%two_nodes H; vm_compute in H; apply list_elem_of_singleton in H as ->; done.
Qed.

(** Both nodes start both reductions; node 1's message for the second one is
    delivered first. *)
Definition example_end : Sys :=
  example_after [Make 1; Make 1; Make 0; Make 0; Deliver 1; Deliver 0; Deliver 0; Deliver 0].

Lemma reduce_refines_witness :
  rtc (spec_step example_handlers 2 (StrongObjGroup 7) (StrongSeq 2) (PlusOp_vector u32)
         example_program 1 5 9 (MsgCallback None))
    (abstract example_handlers (StrongObjGroup 7) (StrongSeq 2) (init 2 example_program))
    (abstract example_handlers (StrongObjGroup 7) (StrongSeq 2) example_end).
Proof.
  apply reduce_refines; [lia|apply example_contributions|apply example_reach].
Defined.

Lemma reduce_completes_witness :
  sp_result (abstract example_handlers (StrongObjGroup 7) (StrongSeq 2) example_end) =
    [(1, [Dispatch 9 [11; 22]])] /\
  (forall n, 0 <= n < 2 -> loc (StrongObjGroup 7) (StrongSeq 2) (mgr example_end n) = None).
Proof.
  split; [vm_compute; reflexivity|].
  apply (reduce_completes example_handlers 2 (StrongObjGroup 7) (StrongSeq 2) (PlusOp_vector u32)
    example_program 1 5 9 (MsgCallback None) ltac:(lia) example_contributions example_end
    (example_reach _)).
  - intros n [-> | ->]%two_nodes; vm_compute; reflexivity.
  - intros p Hp. replace (net example_end) with (@nil (Z * @NetMsg (list Z))) in Hp
      by (vm_compute; reflexivity). by apply not_elem_nil in Hp.
Defined.

Lemma reduce_never_asserts_witness :
  exists x, run_call example_handlers 2 0 (mgr (init 2 example_program) 0) (example_call [1; 2]) = Ok x.
Proof.
  destruct (reduce_never_asserts example_handlers 2 (StrongObjGroup 7) (StrongSeq 2)
    (PlusOp_vector u32) example_program 1 5 9 (MsgCallback None) ltac:(lia) example_contributions
    (init 2 example_program) [11; 22] (reach_init _ _ _) (or_introl eq_refl)
    ltac:(vm_compute; reflexivity)) as [H _].
  apply (H 0 (example_call [1; 2]) [example_call [5; 5]]); [lia|reflexivity..].
Defined.

End ReduceSpec.
