(* ===== verification/Scatter.v ===== *)
(** * Scatter over the spanning tree

    Models [src/vt/collective/scatter/scatter.{h,cc,impl.h}]: the sender lays the
    per-node elements out in one buffer in the order of a traversal of the tree
    ([applyScatterRecur]); every node that receives a buffer keeps its first
    element and cuts the rest into one message per child ([scatterIn]). The
    theorem says that however the messages are interleaved every node's handler
    is given its own element, once. *)

From S2P Require Import Prelude.
From S2P Require Import Sums.
From S2P Require Import Tree.
Import Tree.Tree.

Module Scatter.
Section scatter.
Context {A : Type}.
Open Scope nat_scope.

(** [ScatterMsg]: the sizes and the bytes that follow the header. The user
    handler travels unchanged and is left out. *)
Record ScatterMsg := MkMsg {
  total_bytes_ : nat;
  elm_bytes_ : nat;
  payload : list A
}.

(** Bytes written at an offset of a buffer. *)
Definition write (ptr : nat) (bytes buf : list A) : list A :=
  take ptr buf ++ bytes ++ drop (ptr + length bytes) buf.

(** [std::memcpy] out of a buffer: reading past its end is undefined. *)
Definition memcpy (ptr size : nat) (buf : list A) : option (list A) :=
  if ptr + size <=? length buf then Some (take size (drop ptr buf)) else None.

(** [data_fn(node, ptr)] fills one element of the buffer. *)
Context (data_fn : Z -> list A).

(** [applyScatterRecur(node, ptr, elm_size, ...)]: the buffer and the pointer
    past the node's subtree. *)
Fixpoint applyScatterRecur (fuel : nat) (num_nodes node : Z) (elm_size ptr : nat)
    (buf : list A) : option (list A * nat) :=
  match fuel with
  | O => None
  | S k =>
      let children := getChildrenOf num_nodes node in
      let buf := write ptr (data_fn node) buf in
      let cur_ptr := ptr + elm_size in
      fold_left (fun s child =>
        match s with
        | Some (buf, cur_ptr) => applyScatterRecur k num_nodes child elm_size cur_ptr buf
        | None => None
        end) children (Some (buf, cur_ptr))
  end.

(** [scatter(total_size, max_proc_size, ...)] up to the message it sends to (or
    runs on) the root; [init] is the buffer's initial contents. *)
Definition scatter (fuel : nat) (num_nodes : Z) (total_size max_proc_size : nat)
    (init : list A) : option (res ScatterMsg) :=
  let elm_size := max_proc_size in
  let combined_size := Z.to_nat num_nodes * elm_size in
  if negb (total_size =? combined_size) then Some (Stop AssertFailed)
  else
    match applyScatterRecur fuel num_nodes 0 elm_size 0 init with
    | None => None
    | Some (buf, nptr) =>
        Some (vtAssert (nptr =? 0 + combined_size) (Ok (MkMsg combined_size elm_size buf)))
    end.

(** [scatterIn(msg)]: the messages to the children and the bytes the user's
    handler is dispatched on. *)
Definition scatterIn (fuel : nat) (num_nodes this_node : Z) (msg : ScatterMsg)
    : option (list (Z * ScatterMsg) * list A) :=
  let elm_size := elm_bytes_ msg in
  let in_base_ptr := 0 in
  let in_ptr := in_base_ptr + elm_size in
  let sends :=
    foreachChild (makeDefault this_node num_nodes) (fun child s =>
      match s, getNumDescendantsOf fuel num_nodes child with
      | Some (sends, in_ptr), Some n =>
          let num_children := Z.to_nat (n + 1) in
          let child_bytes_size := num_children * elm_size in
          match memcpy in_ptr child_bytes_size (payload msg) with
          | Some bytes =>
              Some (sends ++ [(child, MkMsg child_bytes_size elm_size bytes)],
                    in_ptr + child_bytes_size)
          | None => None
          end
      | _, _ => None
      end) (Some ([], in_ptr)) in
  match sends, memcpy in_base_ptr elm_size (payload msg) with
  | Some (sends, _), Some elm => Some (sends, elm)
  | _, _ => None
  end.

(** The whole scatter: messages in flight, and the elements handed to handlers. *)
Inductive sstep (fuel : nat) (N : Z)
    : list (Z * ScatterMsg) * list (Z * list A) ->
      list (Z * ScatterMsg) * list (Z * list A) -> Prop :=
  | sstep_deliver l1 n m l2 done_ sends elm :
      scatterIn fuel N n m = Some (sends, elm) ->
      sstep fuel N (l1 ++ (n, m) :: l2, done_) (l1 ++ l2 ++ sends, done_ ++ [(n, elm)]).

Inductive sreach (fuel : nat) (N : Z) (m0 : ScatterMsg)
    : list (Z * ScatterMsg) * list (Z * list A) -> Prop :=
  | sreach_init : sreach fuel N m0 ([(0%Z, m0)], [])
  | sreach_step s s' : sreach fuel N m0 s -> sstep fuel N s s' -> sreach fuel N m0 s'.

(** ** The layout *)

Context (elm_size : nat) (Hdata : forall n, length (data_fn n) = elm_size).

Definition layout (l : list Z) : list A := concat (map data_fn l).

Lemma length_layout l : length (layout l) = length l * elm_size.
Proof.
  unfold layout. induction l as [|n l IH]; simpl; [done|].
  rewrite length_app, Hdata, IH. done.
Qed.

Lemma layout_app l1 l2 : layout (l1 ++ l2) = layout l1 ++ layout l2.
Proof. unfold layout. by rewrite map_app, concat_app. Qed.

Lemma layout_cons n l : layout (n :: l) = data_fn n ++ layout l.
Proof. done. Qed.

Lemma write_write ptr a b buf :
  ptr + length a + length b <= length buf ->
  write (ptr + length a) b (write ptr a buf) = write ptr (a ++ b) buf.
Proof.
  intros H. unfold write.
  rewrite take_app, drop_app, length_take, !length_app, Nat.min_l by lia.
  rewrite (take_ge (take ptr buf)) by (rewrite length_take; lia).
  rewrite (drop_ge (take ptr buf)) by (rewrite length_take; lia).
  replace (ptr + length a - ptr) with (length a) by lia.
  replace (ptr + length a + length b - ptr) with (length a + length b) by lia.
  rewrite take_app_length, drop_app, (drop_ge a), drop_drop by lia. simpl.
  rewrite <- !app_assoc. do 4 f_equal. lia.
Qed.

Lemma length_write ptr a buf :
  ptr + length a <= length buf -> length (write ptr a buf) = length buf.
Proof. intros H. unfold write. rewrite !length_app, length_take, length_drop. lia. Qed.

Lemma applyScatterRecur_layout fuel N n ptr buf :
  enough fuel N n -> ptr + length (preorder fuel N n) * elm_size <= length buf ->
  applyScatterRecur fuel N n elm_size ptr buf =
  Some (write ptr (layout (preorder fuel N n)) buf,
        ptr + length (preorder fuel N n) * elm_size).
Proof.
  revert n ptr buf. induction fuel as [|k IH]; intros n ptr buf He Hlen;
    [by destruct (enough_S _ _ _ He)|].
  cbn [applyScatterRecur preorder length] in *.
  set (f := fun _ _ => _).
  assert (forall l done_ buf, (forall c, c ∈ l -> c ∈ getChildrenOf N n) ->
    ptr + (length done_ + length (flat_map (preorder k N) l)) * elm_size <= length buf ->
    fold_left f l (Some (write ptr (layout done_) buf, ptr + length done_ * elm_size)) =
    Some (write ptr (layout (done_ ++ flat_map (preorder k N) l)) buf,
          ptr + length (done_ ++ flat_map (preorder k N) l) * elm_size)) as Hfold.
  { induction l as [|c l IHl]; intros dn b Hl Hle; simpl; [by rewrite app_nil_r|].
    cbn [flat_map] in Hle. rewrite length_app in Hle.
    rewrite IH; [|eapply enough_child; [exact He|apply Hl; elems]
                 |rewrite length_write; rewrite ?length_layout; lia].
    rewrite <- (length_layout dn), write_write by (rewrite !length_layout; lia).
    rewrite <- layout_app, length_layout, <- Nat.add_assoc, <- Nat.mul_add_distr_r, <- length_app.
    rewrite app_assoc. apply IHl; [intros; apply Hl; elems|rewrite length_app; lia]. }
  specialize (Hfold (getChildrenOf N n) [n] buf ltac:(done)).
  rewrite layout_cons, app_nil_r in Hfold. cbn [length app] in Hfold.
  rewrite Nat.mul_1_l in Hfold. rewrite Hfold by (simpl; lia). done.
Qed.


Lemma preorder_fuel f g N n : enough f N n -> enough g N n -> preorder f N n = preorder g N n.
Proof.
  revert g n. induction f as [|f IH]; intros g n Hf Hg; [by destruct (enough_S _ _ _ Hf)|].
  destruct (enough_S _ _ _ Hg) as [g' ->]. simpl. f_equal.
  assert (forall d, d ∈ getChildrenOf N n -> preorder f N d = preorder g' N d) as Hd.
  { intros d Hd. apply IH; by eapply enough_child. }
  induction (getChildrenOf N n) as [|d l IHl]; simpl; [done|].
  rewrite Hd by elems. f_equal. apply IHl. intros e He. apply Hd. elems.
Qed.

Lemma memcpy_app pre bytes post :
  memcpy (length pre) (length bytes) (pre ++ bytes ++ post) = Some bytes.
Proof.
  unfold memcpy. rewrite !length_app. rewrite (proj2 (Nat.leb_le _ _)) by lia.
  by rewrite drop_app_length, take_app_length.
Qed.

(** The message a subtree gets: the elements of its nodes in traversal order. *)
Definition msg_for (fuel : nat) (N n : Z) : ScatterMsg :=
  MkMsg (length (preorder fuel N n) * elm_size) elm_size (layout (preorder fuel N n)).

(** Serving one message: the node's own element is dispatched and each child
    is sent its subtree's message. *)
Lemma scatterIn_spec fuel N n m :
  enough (S fuel) N n -> (N < 2 ^ 64)%Z -> elm_bytes_ m = elm_size ->
  payload m = layout (preorder (S fuel) N n) ->
  scatterIn fuel N n m =
  Some (map (fun c => (c, msg_for fuel N c)) (getChildrenOf N n), data_fn n).
Proof.
  intros He HN Helm Hpay. unfold scatterIn, foreachChild. rewrite Helm, Hpay.
  change (children_ (makeDefault n N)) with (getChildrenOf N n).
  cbn [preorder]. rewrite layout_cons.
  set (f := fun _ _ => _).
  assert (forall l done_ sends, (forall c, c ∈ l -> c ∈ getChildrenOf N n) ->
    data_fn n ++ layout (flat_map (preorder fuel N) (getChildrenOf N n)) =
      layout done_ ++ layout (flat_map (preorder fuel N) l) ->
    fold_left f l (Some (sends, length (layout done_))) =
    Some (sends ++ map (fun c => (c, msg_for fuel N c)) l,
          length (layout (done_ ++ flat_map (preorder fuel N) l)))) as Hfold.
  { induction l as [|c l IHl]; intros dn sends Hl Hb; simpl; [by rewrite !app_nil_r|].
    assert (enough fuel N c) as Hc by (eapply enough_child; [exact He|apply Hl; elems]).
    cbn [flat_map] in Hb. rewrite layout_app in Hb.
    rewrite (getNumDescendantsOf_preorder fuel N c Hc HN).
    replace (Z.to_nat (Z.of_nat (length (preorder fuel N c)) - 1 + 1))
      with (length (preorder fuel N c)) by lia.
    rewrite Hb, <- (length_layout (preorder fuel N c)), memcpy_app.
    rewrite <- length_app, <- layout_app, IHl.
    - rewrite <- app_assoc, <- (app_assoc dn). simpl. unfold msg_for.
      by rewrite length_layout.
    - intros; apply Hl; elems.
    - by rewrite Hb, layout_app, app_assoc. }
  specialize (Hfold (getChildrenOf N n) [n] [] ltac:(done)).
  rewrite layout_cons, app_nil_r, Hdata in Hfold. specialize (Hfold eq_refl).
  assert ((if (0 <? length (getChildrenOf N n))
           then fold_left f (getChildrenOf N n) (Some ([], 0 + elm_size))
           else Some ([], 0 + elm_size)) =
          fold_left f (getChildrenOf N n) (Some ([], elm_size))) as ->
    by (by destruct (getChildrenOf N n)).
  rewrite Hfold. pose proof (memcpy_app [] (data_fn n)) as Hm. simpl in Hm.
  rewrite Hdata in Hm. by rewrite Hm.
Qed.

Record sinv (N : Z) (s : list (Z * ScatterMsg) * list (Z * list A)) : Prop := {
  si_net : forall n m, (n, m) ∈ s.1 -> enough (S (Z.to_nat N)) N n /\ elm_bytes_ m = elm_size /\
             payload m = layout (preorder (S (Z.to_nat N)) N n);
  si_done : s.2 = map (fun n => (n, data_fn n)) (map fst s.2);
  si_all : map fst s.2 ++ flat_map (preorder (S (Z.to_nat N)) N) (map fst s.1) ≡ₚ nodes_of N
}.

Lemma sstep_inv N s s' :
  (N < 2 ^ 64)%Z -> sinv N s -> sstep (Z.to_nat N) N s s' -> sinv N s'.
Proof.
  intros HN [Hnet Hdone Hall] Hstep. destruct Hstep as [l1 n m l2 dn sends elm Hin].
  cbn [fst snd] in *. destruct (Hnet n m ltac:(elems)) as (He & Helm & Hpay).
  rewrite (scatterIn_spec _ _ _ _ He HN Helm Hpay) in Hin. injection Hin as <- <-.
  assert (forall c, c ∈ getChildrenOf N n ->
    enough (S (Z.to_nat N)) N c /\
    preorder (Z.to_nat N) N c = preorder (S (Z.to_nat N)) N c) as Hch.
  { intros c Hc. pose proof (enough_child _ _ _ _ He Hc) as Hc'.
    assert (enough (S (Z.to_nat N)) N c) by (unfold enough in *; lia).
    split; [done|]. by apply preorder_fuel. }
  split; cbn [fst snd].
  - intros c mc. rewrite !elem_of_app. intros [H|[H|H]]; [apply Hnet; elems..|].
    apply list_elem_of_In, in_map_iff in H as (c' & [= -> <-] & Hc%list_elem_of_In).
    destruct (Hch c Hc) as [? Hp]. split; [done|]. split; [done|]. simpl. by rewrite Hp.
  - rewrite !map_app. cbn [map fst]. by rewrite <- Hdone.
  - assert (flat_map (preorder (S (Z.to_nat N)) N) (getChildrenOf N n) =
            flat_map (preorder (Z.to_nat N) N) (getChildrenOf N n)) as Hfm.
    { clear -Hch. induction (getChildrenOf N n) as [|d l IHl]; cbn [flat_map]; [done|].
      rewrite <- (proj2 (Hch d ltac:(elems))), IHl; [done|]. intros c Hc. apply Hch. elems. }
    assert (preorder (S (Z.to_nat N)) N n =
            n :: flat_map (preorder (S (Z.to_nat N)) N) (getChildrenOf N n)) as Hn
      by (rewrite Hfm; done).
    rewrite <- Hall, !map_app, !flat_map_app, map_map. cbn [map fst flat_map].
    rewrite map_id, Hn, <- !app_assoc. apply Permutation_app_head.
    cbn [app]. solve_Permutation.
Qed.

Lemma sreach_inv N s :
  (0 < N < 2 ^ 64)%Z -> sreach (Z.to_nat N) N (msg_for (S (Z.to_nat N)) N 0) s -> sinv N s.
Proof.
  intros HN. induction 1 as [|s s' _ IH Hs]; [|eapply sstep_inv; [lia|done..]].
  split; cbn [fst snd map flat_map].
  - intros n m [= -> ->]%list_elem_of_singleton. split; [unfold enough; lia|done].
  - done.
  - cbn [app]. rewrite app_nil_r. apply preorder_root. lia.
Qed.

(** The sender's message is the root's. *)
Lemma scatter_msg N init :
  (0 < N)%Z -> length init = Z.to_nat N * elm_size ->
  scatter (S (Z.to_nat N)) N (Z.to_nat N * elm_size) elm_size init =
  Some (Ok (msg_for (S (Z.to_nat N)) N 0)).
Proof.
  intros HN Hinit. assert (enough (S (Z.to_nat N)) N 0) as He by (unfold enough; lia).
  pose proof (Permutation_length (preorder_root (S (Z.to_nat N)) N ltac:(lia))) as Hl.
  unfold nodes_of in Hl. rewrite length_seqZ in Hl.
  unfold scatter. rewrite Nat.eqb_refl. cbn [negb].
  rewrite applyScatterRecur_layout by (done || lia). rewrite Hl, Nat.eqb_refl. cbn [vtAssert].
  unfold msg_for. rewrite Hl. do 3 f_equal. unfold write. cbn [take].
  rewrite drop_ge; [by rewrite app_nil_r|]. rewrite length_layout, Hl. lia.
Qed.

End scatter.
End Scatter.

(** ** What a scatter promises *)
Module ScatterSpec.
Import Scatter.

(** C34: A scatter over any number of nodes passes its size assertions and sends
    one message; from there, in every order of delivery, every message in flight
    can be cut up without reading past its end, and when none is left each
    node's handler has run exactly once, on the element the sender's callback
    wrote for that node. *)
Theorem scatter_delivers {A} (data_fn : Z -> list A) elm_size N init :
  (forall n, length (data_fn n) = elm_size) -> 0 < N < 2 ^ 64 ->
  length init = (Z.to_nat N * elm_size)%nat ->
  exists m0, scatter data_fn (S (Z.to_nat N)) N (Z.to_nat N * elm_size) elm_size init =
      Some (Ok m0) /\
    forall net done_, sreach (Z.to_nat N) N m0 (net, done_) ->
      (forall n m, (n, m) ∈ net -> exists r, scatterIn (Z.to_nat N) N n m = Some r) /\
      (net = [] -> done_ ≡ₚ map (fun n => (n, data_fn n)) (nodes_of N)).
Proof.
  intros Hd HN Hi. eexists. split; [by apply scatter_msg; [|lia|]|].
  intros net dn Hr. apply (sreach_inv data_fn elm_size Hd) in Hr as [Hnet Hdone Hall]; [|done].
  cbn [fst snd] in *. split.
  - intros n m Hin. destruct (Hnet n m Hin) as (He & Helm & Hpay).
    rewrite (scatterIn_spec data_fn elm_size Hd _ _ _ _ He (proj2 HN) Helm Hpay). eauto.
  - intros ->. cbn [map flat_map] in Hall. rewrite app_nil_r in Hall.
    by rewrite Hdone, Hall.
Qed.

Lemma scatter_delivers_witness :
  exists m0, scatter (fun n => [n; n]) 6 5 10 2 (repeat 0 10) = Some (Ok m0) /\
    forall net done_, sreach 5 5 m0 (net, done_) ->
      (forall n m, (n, m) ∈ net -> exists r, scatterIn 5 5 n m = Some r) /\
      (net = [] -> done_ ≡ₚ map (fun n => (n, [n; n])) (nodes_of 5)).
Proof. apply (scatter_delivers (fun n => [n; n]) 2 5 (repeat 0 10)); [reflexivity|lia|reflexivity]. Defined.

End ScatterSpec.
