(* ===== verification/TermState.v ===== *)
(** * The per-epoch state of the termination detector

    Models [src/vt/termination/term_state.{h,cc}] ([TermState], the counters one
    node keeps for one wave-based epoch), [epoch_dependency.{h,cc}]
    ([EpochDependency], the successors an epoch keeps alive) and the part of
    [termination.cc] that works on one [TermState]: [produceConsumeState],
    [propagateEpochExternalState], [propagateEpoch], [countsConstant].

    [TermCounterType] and [TermWaveType] are signed 64-bit integers, whose
    overflow is undefined in the source; they are unbounded here. *)

From S2P Require Import Prelude.
From S2P Require Import Ids.
From S2P Require Import Epoch.
Import EpochManip.

(** ** [EpochDependency] *)
Module EpochDependency.

Record EpochDependency := Dep {
  epoch_ : Z;
  is_ds_ : bool;
  successors_ : gset Z
}.

(** The calls its methods make on [theTerm()], in order. *)
Inductive dep_call :=
  | CallProduce (ep : Z)        (* produce(ep, 1) *)
  | CallConsume (ep : Z)        (* consume(ep, 1) *)
  | CallAddDep (ep : Z)         (* addEpochStateDependency(ep) *)
  | CallRemoveDep (ep : Z).     (* removeEpochStateDependency(ep) *)

Definition make (in_epoch : Z) (in_is_ds : bool) : EpochDependency := Dep in_epoch in_is_ds ∅.

(** The order a [std::set] is traversed in. *)
Definition in_order (s : gset Z) : list Z := merge_sort Z.le (elements s).

Definition with_successors (s : gset Z) (d : EpochDependency) : EpochDependency :=
  Dep (epoch_ d) (is_ds_ d) s.

Definition addSuccessor (d : EpochDependency) (in_successor : Z)
    : EpochDependency * list dep_call :=
  if decide (in_successor ∈ successors_ d)
  then (d, [])
  else (with_successors ({[in_successor]} ∪ successors_ d) d,
        [CallProduce in_successor; CallAddDep in_successor]).

Definition removeIntersection (d : EpochDependency) (successors : gset Z)
    : EpochDependency * gset Z * list dep_call :=
  let intersection := successors ∩ successors_ d in
  let remaining := successors_ d ∖ intersection in
  (with_successors remaining d, intersection,
   flat_map (fun ep => [CallConsume ep; CallRemoveDep ep]) (in_order intersection)).

Definition addIntersectingSuccessors (d : EpochDependency) (successors : gset Z)
    : EpochDependency := with_successors (successors ∪ successors_ d) d.

Definition clearSuccessors (d : EpochDependency) : EpochDependency * list dep_call :=
  (with_successors ∅ d,
   flat_map (fun ep => [CallConsume ep; CallRemoveDep ep]) (in_order (successors_ d))).

Definition hasSuccessor (d : EpochDependency) : bool :=
  (0 <? size (successors_ d))%nat.
Definition numSuccessors (d : EpochDependency) : nat := size (successors_ d).
Definition getSuccessors (d : EpochDependency) : gset Z := successors_ d.

(** ** Balance of the calls *)

(** What a sequence of calls leaves owed to an epoch: units produced less units
    consumed, and dependencies added less removed. *)
Definition units (ep : Z) (c : dep_call) : Z :=
  match c with
  | CallProduce e => if decide (e = ep) then 1 else 0
  | CallConsume e => if decide (e = ep) then -1 else 0
  | _ => 0
  end.

Definition holds (ep : Z) (c : dep_call) : Z :=
  match c with
  | CallAddDep e => if decide (e = ep) then 1 else 0
  | CallRemoveDep e => if decide (e = ep) then -1 else 0
  | _ => 0
  end.

Definition total (f : dep_call -> Z) (cs : list dep_call) : Z :=
  foldr (fun c s => f c + s) 0 cs.

Lemma total_app f a b : total f (a ++ b) = total f a + total f b.
Proof. induction a as [|c a IH]; simpl; [done|]. rewrite IH. lia. Qed.

Lemma in_order_perm s : in_order s ≡ₚ elements s.
Proof. unfold in_order. apply merge_sort_Permutation. Qed.

Lemma total_release ep (s : gset Z) :
  let cs := flat_map (fun e => [CallConsume e; CallRemoveDep e]) (in_order s) in
  let n := if decide (ep ∈ s) then -1 else 0 in
  total (units ep) cs = n /\ total (holds ep) cs = n.
Proof.
  cbv zeta. assert (NoDup (in_order s)) as Hnd by (rewrite in_order_perm; apply NoDup_elements).
  assert (ep ∈ s <-> ep ∈ in_order s) as Hin by (rewrite in_order_perm; set_solver).
  rewrite (decide_ext _ (ep ∈ in_order s)) by done. clear Hin.
  induction (in_order s) as [|e l IH]; simpl.
  - destruct (decide (ep ∈ [])); [auto with vt|done].
  - apply NoDup_cons in Hnd as [He Hnd]. destruct (IH Hnd) as [-> ->].
    destruct (decide (e = ep)) as [->|Hne].
    + rewrite (decide_True (P := ep ∈ ep :: l)) by elems. by rewrite decide_False.
    + rewrite (decide_ext (ep ∈ e :: l) (ep ∈ l)); [|rewrite elem_of_cons; naive_solver].
      destruct (decide (ep ∈ l)); done.
Qed.

(** The operations the detector uses, and sequences of them with every call made. *)
Inductive dep_op := OpAdd (ep : Z) | OpRemoveIntersection (s : gset Z) | OpClear.

Definition run_op (d : EpochDependency) (o : dep_op) : EpochDependency * list dep_call :=
  match o with
  | OpAdd ep => addSuccessor d ep
  | OpRemoveIntersection s => let '(d', _, cs) := removeIntersection d s in (d', cs)
  | OpClear => clearSuccessors d
  end.

Fixpoint run_ops (d : EpochDependency) (os : list dep_op) : EpochDependency * list dep_call :=
  match os with
  | [] => (d, [])
  | o :: os =>
      let '(d, cs) := run_op d o in
      let '(d, cs') := run_ops d os in (d, cs ++ cs')
  end.

Definition owed (ep : Z) (d : EpochDependency) : Z :=
  if decide (ep ∈ successors_ d) then 1 else 0.

Lemma run_op_balance ep d o d' cs :
  run_op d o = (d', cs) ->
  owed ep d' = owed ep d + total (units ep) cs /\
  owed ep d' = owed ep d + total (holds ep) cs.
Proof.
  unfold owed. destruct o as [e|s|]; simpl.
  - unfold addSuccessor. case_decide as Hin; intros [= <- <-]; simpl; [lia|].
    destruct (decide (e = ep)) as [->|Hne].
    + rewrite (decide_True (P := ep ∈ _)) by set_solver. rewrite decide_False by done. done.
    + rewrite (decide_ext (ep ∈ {[e]} ∪ successors_ d) (ep ∈ successors_ d)) by set_solver. lia.
  - intros [= <- <-]. simpl. destruct (total_release ep (s ∩ successors_ d)) as [-> ->].
    destruct (decide (ep ∈ s ∩ successors_ d)) as [Hi|Hi].
    + rewrite (decide_False (P := ep ∈ _)) by set_solver. rewrite decide_True by set_solver. done.
    + rewrite (decide_ext (ep ∈ successors_ d ∖ _) (ep ∈ successors_ d)) by set_solver. lia.
  - intros [= <- <-]. simpl. destruct (total_release ep (successors_ d)) as [-> ->].
    rewrite (decide_False (P := ep ∈ ∅)) by set_solver. destruct (decide _); done.
Qed.

Lemma run_ops_balance ep os d d' cs :
  run_ops d os = (d', cs) ->
  owed ep d' = owed ep d + total (units ep) cs /\
  owed ep d' = owed ep d + total (holds ep) cs.
Proof.
  revert d d' cs. induction os as [|o os IH]; intros d d' cs; simpl.
  - intros [= <- <-]. simpl. lia.
  - destruct (run_op d o) as [d1 c1] eqn:H1. destruct (run_ops d1 os) as [d2 c2] eqn:H2.
    intros [= <- <-]. apply (run_op_balance ep) in H1. apply IH in H2.
    rewrite !total_app. lia.
Qed.

End EpochDependency.

(** ** [TermState] *)
Module TermState.
Import EpochDependency.

Record TermState := MkState {
  dep : EpochDependency;       (* the base class *)
  l_prod : Z;                  (* units produced and consumed on this node *)
  l_cons : Z;
  g_prod1 : Z;                 (* sums of the wave in progress *)
  g_cons1 : Z;
  g_prod2 : Z;                 (* sums of the previous wave, at the root *)
  g_cons2 : Z;
  constant_count : Z;
  num_print_constant : Z;
  local_terminated_ : bool;
  epoch_active_ : bool;
  term_detected_ : bool;
  deps_ : Z;
  recv_child_count_ : Z;
  num_children_ : Z;
  cur_wave_ : Z;
  submitted_wave_ : Z
}.

(** The two constructors. *)
Definition make4 (in_epoch : Z) (in_local_terminated active : bool) (children : Z) : TermState :=
  MkState (EpochDependency.make in_epoch false) 0 0 0 0 0 0 0 0
    in_local_terminated active false 0 0 children 0 (-1).
Definition make2 (in_epoch children : Z) : TermState :=
  MkState (EpochDependency.make in_epoch false) 0 0 0 0 0 0 0 0 true true false 0 0 children 0 (-1).

(** Assignments to groups of members. *)
Definition with_local (p c : Z) (s : TermState) : TermState :=
  MkState (dep s) p c (g_prod1 s) (g_cons1 s) (g_prod2 s) (g_cons2 s) (constant_count s)
    (num_print_constant s) (local_terminated_ s) (epoch_active_ s) (term_detected_ s) (deps_ s)
    (recv_child_count_ s) (num_children_ s) (cur_wave_ s) (submitted_wave_ s).
Definition with_g1 (p c : Z) (s : TermState) : TermState :=
  MkState (dep s) (l_prod s) (l_cons s) p c (g_prod2 s) (g_cons2 s) (constant_count s)
    (num_print_constant s) (local_terminated_ s) (epoch_active_ s) (term_detected_ s) (deps_ s)
    (recv_child_count_ s) (num_children_ s) (cur_wave_ s) (submitted_wave_ s).
Definition with_g2 (p c : Z) (s : TermState) : TermState :=
  MkState (dep s) (l_prod s) (l_cons s) (g_prod1 s) (g_cons1 s) p c (constant_count s)
    (num_print_constant s) (local_terminated_ s) (epoch_active_ s) (term_detected_ s) (deps_ s)
    (recv_child_count_ s) (num_children_ s) (cur_wave_ s) (submitted_wave_ s).
Definition with_constant (n printed : Z) (s : TermState) : TermState :=
  MkState (dep s) (l_prod s) (l_cons s) (g_prod1 s) (g_cons1 s) (g_prod2 s) (g_cons2 s) n
    printed (local_terminated_ s) (epoch_active_ s) (term_detected_ s) (deps_ s)
    (recv_child_count_ s) (num_children_ s) (cur_wave_ s) (submitted_wave_ s).
Definition with_flags (local active detected : bool) (s : TermState) : TermState :=
  MkState (dep s) (l_prod s) (l_cons s) (g_prod1 s) (g_cons1 s) (g_prod2 s) (g_cons2 s)
    (constant_count s) (num_print_constant s) local active detected (deps_ s)
    (recv_child_count_ s) (num_children_ s) (cur_wave_ s) (submitted_wave_ s).
Definition with_deps (n : Z) (s : TermState) : TermState :=
  MkState (dep s) (l_prod s) (l_cons s) (g_prod1 s) (g_cons1 s) (g_prod2 s) (g_cons2 s)
    (constant_count s) (num_print_constant s) (local_terminated_ s) (epoch_active_ s)
    (term_detected_ s) n (recv_child_count_ s) (num_children_ s) (cur_wave_ s) (submitted_wave_ s).
Definition with_wave (recv cur submitted : Z) (s : TermState) : TermState :=
  MkState (dep s) (l_prod s) (l_cons s) (g_prod1 s) (g_cons1 s) (g_prod2 s) (g_cons2 s)
    (constant_count s) (num_print_constant s) (local_terminated_ s) (epoch_active_ s)
    (term_detected_ s) (deps_ s) recv (num_children_ s) cur submitted.
Definition with_dep (d : EpochDependency) (s : TermState) : TermState :=
  MkState d (l_prod s) (l_cons s) (g_prod1 s) (g_cons1 s) (g_prod2 s) (g_cons2 s)
    (constant_count s) (num_print_constant s) (local_terminated_ s) (epoch_active_ s)
    (term_detected_ s) (deps_ s) (recv_child_count_ s) (num_children_ s) (cur_wave_ s)
    (submitted_wave_ s).

Definition getCurWave (s : TermState) : Z := cur_wave_ s.
Definition setCurWave (wave : Z) (s : TermState) : TermState :=
  with_wave (recv_child_count_ s) wave (submitted_wave_ s) s.
Definition getNumChildren (s : TermState) : Z := num_children_ s.
Definition getEpoch (s : TermState) : Z := epoch_ (dep s).
Definition getRecvChildCount (s : TermState) : Z := recv_child_count_ s.

Definition notifyChildReceive (s : TermState) : res TermState :=
  let s := with_wave (recv_child_count_ s + 1) (cur_wave_ s) (submitted_wave_ s) s in
  vtAssert (recv_child_count_ s <=? num_children_ s) (Ok s).

Definition noLocalUnits (s : TermState) : bool := (l_prod s =? 0) && (l_cons s =? 0).
Definition setTerminated (s : TermState) : TermState :=
  with_flags (local_terminated_ s) (epoch_active_ s) true s.
Definition isTerminated (s : TermState) : bool := term_detected_ s.
Definition activateEpoch (s : TermState) : TermState :=
  with_flags (local_terminated_ s) true (term_detected_ s) s.
Definition notifyLocalTerminated (terminated : bool) (s : TermState) : TermState :=
  with_flags terminated (epoch_active_ s) (term_detected_ s) s.
Definition isActive (s : TermState) : bool := epoch_active_ s.

Definition submitToParent (is_root setup : bool) (s : TermState) : TermState :=
  with_wave 0 (cur_wave_ s)
    (if negb setup then submitted_wave_ s + 1 else submitted_wave_ s) s.

Definition receiveContinueSignal (wave : Z) (s : TermState) : res TermState :=
  vtAssert (cur_wave_ s =? wave - 1)
    (Ok (with_wave (recv_child_count_ s) wave (submitted_wave_ s) s)).

Definition incrementDependency (s : TermState) : TermState := with_deps (deps_ s + 1) s.
Definition decrementDependency (s : TermState) : TermState * Z :=
  (with_deps (deps_ s - 1) s, deps_ s - 1).

(** The value [readySubmitParent] returns once its assertion has passed. *)
Definition ready (s : TermState) : bool :=
  epoch_active_ s && local_terminated_ s && (deps_ s =? 0) &&
  (recv_child_count_ s =? num_children_ s) &&
  (submitted_wave_ s =? cur_wave_ s - 1) && negb (term_detected_ s).

Definition readySubmitParent (s : TermState) : res bool :=
  vtAssert (negb (num_children_ s =? uninitialized_destination)) (Ok (ready s)).

(** ** The wave, on one node's state *)

(** The settings of [theConfig()] the detector reads. *)
Record Config := {
  vt_no_detect_hang : bool;
  vt_print_no_progress : bool;
  vt_hang_freq : Z;
  vt_term_rooted_use_ds : bool;
  vt_term_rooted_use_wave : bool
}.

(** What [propagateEpoch] does beyond its own state, in order: messages sent and
    the detection of termination. *)
Inductive event :=
  | SendCounter (prod cons : Z)   (* TermCounterMsg to the parent *)
  | Continue (wave : Z)           (* broadcast of epochContinueHandler *)
  | HangCheck                     (* broadcast of hangCheckHandler, and run here *)
  | Detected.                     (* broadcast of epochTerminatedHandler; setTerminated;
                                     epochTerminated(epoch, Root) *)

Section wave.
Context (cfg : Config).
(** [std::log(double(constant_count)) > num_print_constant], on doubles. *)
Context (log_exceeds : Z -> Z -> bool).

(** [countsConstant(state)]: bookkeeping of waves without progress. *)
Definition countsConstant (s : TermState) : TermState * list event :=
  let enter := negb (vt_no_detect_hang cfg) || vt_print_no_progress cfg in
  if enter then
    let is_global_epoch := getEpoch s =? any_epoch_sentinel in
    let is_hang_detector := getEpoch s =? no_epoch in
    if is_hang_detector then (s, [])
    else if (vt_hang_freq cfg <=? constant_count s) &&
            (Z.rem (constant_count s) (vt_hang_freq cfg) =? 0)
    then
      if (num_print_constant s =? 0) || log_exceeds (constant_count s) (num_print_constant s)
      then
        let s := with_constant (constant_count s) (num_print_constant s + 1) s in
        (s, if (num_print_constant s =? 10) && is_global_epoch &&
               negb (vt_no_detect_hang cfg)
            then [HangCheck] else [])
      else (s, [])
    else (s, [])
  else (s, []).

(** [propagateEpoch(state)], without the branch that draws the epoch graph
    before the abort of a detected hang. *)
Definition propagateEpoch (is_root : bool) (s : TermState) : res (TermState * list event) :=
  is_ready ← readySubmitParent s;
  if (is_ready : bool) then
    let s := with_g1 (g_prod1 s + l_prod s) (g_cons1 s + l_cons s) s in
    if negb is_root
    then
      let msg := SendCounter (g_prod1 s) (g_cons1 s) in
      Ok (submitToParent is_root false (with_g1 0 0 s), [msg])
    else
      let is_term :=
        (g_prod1 s =? g_cons1 s) && (g_prod2 s =? g_cons2 s) && (g_prod1 s =? g_prod2 s) in
      if negb (vt_no_detect_hang cfg) && (is_term && (getEpoch s =? no_epoch))
      then Stop AbortCalled
      else if is_term
      then Ok (setTerminated s, [Detected])
      else
        let s := if (g_prod2 s =? g_prod1 s) && (g_cons2 s =? g_cons1 s)
                 then with_constant (constant_count s + 1) (num_print_constant s) s
                 else with_constant 0 (num_print_constant s) s in
        let '(s, hang) := if 0 <? constant_count s then countsConstant s else (s, []) in
        let s := with_g2 (g_prod1 s) (g_cons1 s) s in
        let s := with_g1 0 0 s in
        let s := setCurWave (getCurWave s + 1) s in
        let msg := Continue (getCurWave s) in
        Ok (submitToParent is_root false (with_g1 0 0 s), hang ++ [msg])
  else Ok (s, []).

(** [if (state.isActive() and state.readySubmitParent()) propagateEpoch(state)]. *)
Definition propagateIfReady (is_root : bool) (s : TermState) : res (TermState * list event) :=
  if isActive s
  then r ← readySubmitParent s; if (r : bool) then propagateEpoch is_root s else Ok (s, [])
  else Ok (s, []).

Definition produceConsumeState (is_root : bool) (s : TermState) (num_units : Z) (produce : bool)
    : res (TermState * list event) :=
  let s := if produce then with_local (l_prod s + num_units) (l_cons s) s
           else with_local (l_prod s) (l_cons s + num_units) s in
  propagateIfReady is_root s.

Definition propagateEpochExternalState (is_root : bool) (s : TermState) (prod cons : Z)
    : res (TermState * list event) :=
  let s := with_g1 (g_prod1 s + prod) (g_cons1 s + cons) s in
  s ← notifyChildReceive s;
  propagateIfReady is_root s.

(** The tail of [TerminationDetector::activateEpoch] on the state. *)
Definition activateState (is_root : bool) (s : TermState) : res (TermState * list event) :=
  let s := activateEpoch s in
  let s := notifyLocalTerminated true s in
  r ← readySubmitParent s;
  if (r : bool) then propagateEpoch is_root s else Ok (s, []).

(** [epochContinue] on the state it finds, with the [maybePropagate] at its end. *)
Definition continueState (is_root : bool) (s : TermState) (wave : Z)
    : res (TermState * list event) :=
  s ← receiveContinueSignal wave s;
  propagateIfReady is_root s.

(** [decrementDependency] followed by [maybePropagate] when it reaches 0. *)
Definition releaseState (is_root : bool) (s : TermState) : res (TermState * list event) :=
  let '(s, n) := decrementDependency s in
  if n =? 0 then propagateIfReady is_root s else Ok (s, []).

End wave.
End TermState.

(** ** What epoch dependencies promise *)
Module EpochDependencySpec.
Import EpochDependency.

(** Whatever sequence of successor additions, intersections removed and
    clearings an epoch goes through, the calls it has made on the detector
    balance: for every epoch, units produced less consumed and dependencies added
    less removed are both 1 if it is a successor now and 0 if not. So a successor
    is held open by exactly one unit and one dependency, and clearing the
    successors releases every hold. *)
Theorem dependency_balance e is_ds os d cs ep :
  run_ops (make e is_ds) os = (d, cs) ->
  total (units ep) cs = owed ep d /\ total (holds ep) cs = owed ep d /\
  (forall d' cs', clearSuccessors d = (d', cs') ->
     total (units ep) (cs ++ cs') = 0 /\ total (holds ep) (cs ++ cs') = 0).
Proof.
  intros Hr. destruct (run_ops_balance ep _ _ _ _ Hr) as [H1 H2].
  assert (owed ep (make e is_ds) = 0) as H0 by done. rewrite H0 in *.
  split; [lia|]. split; [lia|]. intros d' cs' Hc.
  destruct (run_op_balance ep d OpClear d' cs' Hc) as [H3 H4].
  injection Hc as <- _. rewrite !total_app.
  assert (owed ep (with_successors ∅ d) = 0) by done. lia.
Qed.

Lemma dependency_balance_witness :
  total (units 9) (run_ops (make 4 true) [OpAdd 9; OpAdd 9; OpAdd 7; OpRemoveIntersection {[7]}]).2 =
  owed 9 (run_ops (make 4 true) [OpAdd 9; OpAdd 9; OpAdd 7; OpRemoveIntersection {[7]}]).1.
Proof.
  apply (dependency_balance 4 true [OpAdd 9; OpAdd 9; OpAdd 7; OpRemoveIntersection {[7]}]).
  apply surjective_pairing.
Defined.

End EpochDependencySpec.
