(* ===== verification/TermWave.v ===== *)
(** * Wave-based termination detection across the nodes

    One epoch of [src/vt/termination/termination.cc] on all nodes at once: every
    node holds a [TermState], nodes exchange the counter messages of
    [propagateEpochHandler], the continue signals of [epochContinueHandler] and
    the notices of [epochTerminatedHandler], in any order of delivery. The tree
    is the one of [Tree.v]. The program being watched produces and consumes
    units at any node, under the one rule the detector relies on: a node that
    has contributed to a wave produces only while some unit is outstanding.

    The theorems: the root detects termination only when no unit is outstanding
    anywhere, and from then on none ever is; no assertion of the detector fires;
    and while everything is consumed the protocol can always take a step. *)

From S2P Require Import Prelude.
From S2P Require Import Sums.
From S2P Require Import Ids.
From S2P Require Import Tree.
From S2P Require Import Epoch.
From S2P Require Import TermState.
From Stdlib Require Import FunctionalExtensionality.
Import TermState.TermState.
Import EpochManip.

Module TermWave.
Section wave.
Context (N ep : Z) (cfg : Config) (log_exceeds : Z -> Z -> bool).

(** The tree, as node [i] sees it. *)
Definition nch (i : Z) : Z := Tree.getNumChildren (Tree.makeDefault i N).
Definition is_root (i : Z) : bool := Tree.isRoot (Tree.makeDefault i N).
Definition parent (i : Z) : Z := Tree.getParent (Tree.makeDefault i N).

(** Messages in flight, with their destination. *)
Inductive msg :=
  | MCounter (dst prod cons : Z)
  | MContinue (dst wave : Z)
  | MTerminated (dst : Z).

Record Sys := MkSys {
  st : Z -> TermState;
  net : list msg;
  done_ : Z -> bool        (* the node has run epochTerminatedHandler *)
}.

Definition others (i : Z) : list Z := filter (fun j => j <> i) (nodes_of N).

(** The messages an event of node [i] puts in flight. *)
Definition emit1 (i : Z) (e : event) : list msg :=
  match e with
  | SendCounter p c => [MCounter (parent i) p c]
  | Continue w => map (fun j => MContinue j w) (others i)
  | Detected => map MTerminated (others i)
  | HangCheck => []
  end.
Definition emit (i : Z) (es : list event) : list msg := flat_map (emit1 i) es.

(** Node [i] has run a handler with the given result. *)
Definition after (s : Sys) (i : Z) (r : TermState * list event) (rest : list msg) : Sys :=
  MkSys (<[i := r.1]> (st s)) (rest ++ emit i r.2) (done_ s).

(** Units produced and not yet consumed, over all nodes. *)
Definition out (f : Z -> TermState) : Z :=
  zsum N (fun i => l_prod (f i)) - zsum N (fun i => l_cons (f i)).

(** The rule: spontaneous production only before the node's first submission. *)
Definition may_produce (s : Sys) (i : Z) : Prop :=
  submitted_wave_ (st s i) = -1 /\ term_detected_ (st s i) = false \/ 0 < out (st s).

(** A node takes part while it exists and has not been told of termination. *)
Definition live (s : Sys) (i : Z) : Prop := 0 <= i < N /\ done_ s i = false.

Inductive step : Sys -> Sys -> Prop :=
  | w_produce s i k r : live s i -> 0 < k -> may_produce s i ->
      produceConsumeState cfg log_exceeds (is_root i) (st s i) k true = Ok r ->
      step s (after s i r (net s))
  | w_consume s i k r : live s i -> 0 < k <= out (st s) ->
      produceConsumeState cfg log_exceeds (is_root i) (st s i) k false = Ok r ->
      step s (after s i r (net s))
  | w_flags s i local active : live s i ->
      step s (after s i (with_flags local active (term_detected_ (st s i)) (st s i), []) (net s))
  | w_deps s i n : live s i ->
      step s (after s i (with_deps n (st s i), []) (net s))
  | w_activate s i r : live s i ->
      activateState cfg log_exceeds (is_root i) (st s i) = Ok r ->
      step s (after s i r (net s))
  | w_release s i r : live s i ->
      releaseState cfg log_exceeds (is_root i) (st s i) = Ok r ->
      step s (after s i r (net s))
  | w_maybe s i r : live s i ->
      propagateIfReady cfg log_exceeds (is_root i) (st s i) = Ok r ->
      step s (after s i r (net s))
  | w_counter s l1 i p c l2 r : net s = l1 ++ MCounter i p c :: l2 ->
      propagateEpochExternalState cfg log_exceeds (is_root i) (st s i) p c = Ok r ->
      step s (after s i r (l1 ++ l2))
  | w_continue s l1 i w l2 r : net s = l1 ++ MContinue i w :: l2 ->
      continueState cfg log_exceeds (is_root i) (st s i) w = Ok r ->
      step s (after s i r (l1 ++ l2))
  | w_terminated s l1 i l2 : net s = l1 ++ MTerminated i :: l2 ->
      step s (MkSys (st s) (l1 ++ l2) (<[i := true]> (done_ s))).

(** Every node starts with the state the detector creates for an epoch it has not
    finished yet ([active0] is set for the global epoch only). *)
Definition start (active0 : bool) : Sys :=
  MkSys (fun i => make4 ep false active0 (nch i)) [] (fun _ => false).

Inductive reach (active0 : bool) : Sys -> Prop :=
  | reach_start : reach active0 (start active0)
  | reach_step s s' : reach active0 s -> step s s' -> reach active0 s'.

(** ** The handlers, as equations *)

Lemma ready_inv s : ready s = true ->
  epoch_active_ s = true /\ local_terminated_ s = true /\ deps_ s = 0 /\
  recv_child_count_ s = num_children_ s /\ submitted_wave_ s = cur_wave_ s - 1 /\
  term_detected_ s = false.
Proof.
  unfold ready. rewrite !andb_true_iff, !Z.eqb_eq, negb_true_iff. tauto.
Qed.

Lemma ready_intro s :
  epoch_active_ s = true -> local_terminated_ s = true -> deps_ s = 0 ->
  recv_child_count_ s = num_children_ s -> submitted_wave_ s = cur_wave_ s - 1 ->
  term_detected_ s = false -> ready s = true.
Proof.
  unfold ready. intros -> -> -> -> -> ->. by rewrite !Z.eqb_refl.
Qed.

Lemma nch_nonneg i : 0 <= nch i.
Proof. unfold nch, Tree.getNumChildren. lia. Qed.

Lemma uninitialized_neg : uninitialized_destination = -1.
Proof. reflexivity. Qed.

Lemma readySubmitParent_Ok s :
  0 <= num_children_ s -> readySubmitParent s = Ok (ready s).
Proof.
  intros H. unfold readySubmitParent. rewrite uninitialized_neg.
  destruct (Z.eqb_spec (num_children_ s) (-1)); [lia|done].
Qed.

(** A node that is not ready does nothing. *)
Lemma propagateIfReady_idle b s :
  0 <= num_children_ s -> ready s = false ->
  propagateIfReady cfg log_exceeds b s = Ok (s, []).
Proof.
  intros Hn Hr. unfold propagateIfReady. rewrite readySubmitParent_Ok by done. rewrite Hr.
  by destruct (isActive s).
Qed.

Lemma propagateIfReady_ready b s :
  0 <= num_children_ s -> ready s = true ->
  propagateIfReady cfg log_exceeds b s = propagateEpoch cfg log_exceeds b s.
Proof.
  intros Hn Hr. unfold propagateIfReady. rewrite readySubmitParent_Ok by done. rewrite Hr.
  unfold isActive. by destruct (ready_inv s Hr) as (-> & _).
Qed.

(** Every handler ends by propagating the state it has updated, if that is ready. *)
Inductive settles (b : bool) (s : TermState) : TermState * list event -> Prop :=
  | settles_idle : settles b s (s, [])
  | settles_go r : ready s = true -> propagateEpoch cfg log_exceeds b s = Ok r -> settles b s r.

Lemma propagateIfReady_settles b s r :
  0 <= num_children_ s -> propagateIfReady cfg log_exceeds b s = Ok r -> settles b s r.
Proof.
  intros Hn. destruct (ready s) eqn:Hr.
  - rewrite propagateIfReady_ready by done. by apply settles_go.
  - rewrite propagateIfReady_idle by done. intros [= <-]. constructor.
Qed.

Lemma propagate_nonroot s :
  0 <= num_children_ s -> ready s = true ->
  propagateEpoch cfg log_exceeds false s =
  Ok (with_wave 0 (cur_wave_ s) (submitted_wave_ s + 1) (with_g1 0 0 s),
      [SendCounter (g_prod1 s + l_prod s) (g_cons1 s + l_cons s)]).
Proof.
  intros Hn Hr. unfold propagateEpoch. rewrite readySubmitParent_Ok by done. by rewrite Hr.
Qed.

Lemma countsConstant_spec s :
  exists n h, countsConstant cfg log_exceeds s = (with_constant (constant_count s) n s, h) /\
    flat_map (emit1 0) h = [].
Proof.
  assert (s = with_constant (constant_count s) (num_print_constant s) s) as Hs by (by destruct s).
  unfold countsConstant.
  repeat case_match;
    first [by exists (num_print_constant s), []; rewrite <- Hs
          |by eexists _, []|by eexists _, [HangCheck]].
Qed.

(** The root's decision on the sums of a complete wave. *)
Definition is_term (s : TermState) : Prop :=
  g_prod1 s + l_prod s = g_cons1 s + l_cons s /\ g_prod2 s = g_cons2 s /\
  g_prod1 s + l_prod s = g_prod2 s.

Lemma propagate_root s x es :
  0 <= num_children_ s -> ready s = true ->
  propagateEpoch cfg log_exceeds true s = Ok (x, es) ->
  (is_term s /\ es = [Detected] /\
   x = setTerminated (with_g1 (g_prod1 s + l_prod s) (g_cons1 s + l_cons s) s)) \/
  (~ is_term s /\ emit 0 es = emit1 0 (Continue (cur_wave_ s + 1)) /\
   exists n m, x = with_wave 0 (cur_wave_ s + 1) (submitted_wave_ s + 1)
     (with_g1 0 0 (with_g2 (g_prod1 s + l_prod s) (g_cons1 s + l_cons s) (with_constant n m s)))).
Proof.
  intros Hn Hr. unfold propagateEpoch. rewrite readySubmitParent_Ok by done.
  rewrite Hr, res_bind_Ok. cbn [negb]. set (s1 := with_g1 _ _ s).
  destruct ((g_prod1 s1 =? g_cons1 s1) && (g_prod2 s1 =? g_cons2 s1) && (g_prod1 s1 =? g_prod2 s1))
    eqn:Ht; (case_match; [done|]).
  - intros [= <- <-]. left. rewrite !andb_true_iff, !Z.eqb_eq in Ht. simpl in Ht.
    split; [unfold is_term; lia|]. done.
  - intros Hp. right.
    split; [intros Hterm; unfold is_term in Hterm; simpl in Ht;
            rewrite !andb_false_iff, !Z.eqb_neq in Ht; lia|].
    assert (exists k, (if (g_prod2 s1 =? g_prod1 s1) && (g_cons2 s1 =? g_cons1 s1)
       then with_constant (constant_count s1 + 1) (num_print_constant s1) s1
       else with_constant 0 (num_print_constant s1) s1) =
       with_constant k (num_print_constant s1) s1) as [k Hk]
      by (destruct ((g_prod2 s1 =? g_prod1 s1) && (g_cons2 s1 =? g_cons1 s1)); eexists; reflexivity).
    rewrite Hk in Hp. clear Hk.
    destruct (countsConstant_spec (with_constant k (num_print_constant s1) s1)) as (n & h & Hc & Hh).
    rewrite Hc in Hp. destruct (0 <? _) in Hp; injection Hp as <- <-.
    + unfold emit. rewrite flat_map_app, Hh. simpl. rewrite app_nil_r. split; [done|]. by eexists _, _.
    + unfold emit. simpl. rewrite app_nil_r. split; [done|]. by eexists _, _.
Qed.

(** ** The invariant of a wave in progress *)

(** Counters in flight to a node, what they carry, and continue signals. *)
Definition inflight (d : Z) (ms : list msg) : Z :=
  lsum (fun m => match m with MCounter d' _ _ => b2z (bool_decide (d' = d)) | _ => 0 end) ms.
Definition netp (ms : list msg) : Z :=
  lsum (fun m => match m with MCounter _ p _ => p | _ => 0 end) ms.
Definition netc (ms : list msg) : Z :=
  lsum (fun m => match m with MCounter _ _ c => c | _ => 0 end) ms.
Definition ncont (d : Z) (ms : list msg) : Z :=
  lsum (fun m => match m with MContinue d' _ => b2z (bool_decide (d' = d)) | _ => 0 end) ms.

(** Node [i] has submitted to wave [W]. *)
Definition full (W i : Z) (x : TermState) : Prop := 0 < i /\ submitted_wave_ x = W.
#[local] Instance full_dec W i x : Decision (full W i x).
Proof. unfold full. apply _. Defined.

(** Children of [k] that have submitted to wave [W]. *)
Definition cnt (W k : Z) (f : Z -> TermState) : Z :=
  zsum N (fun c => b2z (bool_decide (Tree.parentOf c = k /\ full W c (f c)))).

(** The sum of a snapshot over the nodes that have submitted. *)
Definition snap (W : Z) (g : Z -> Z) (f : Z -> TermState) : Z :=
  zsum N (fun i => if decide (full W i (f i)) then g i else 0).

(** [sp], [sc]: what each node had produced and consumed when it submitted to the
    current wave; [pT], [cT]: what it had when the root completed the previous. *)
Record Inv (W : Z) (f : Z -> TermState) (ms : list msg) (sp sc pT cT : Z -> Z) : Prop := {
  i_wave : cur_wave_ (f 0) = W /\ 0 <= W /\ submitted_wave_ (f 0) = W - 1 /\ 0 < N;
  i_sub : forall i, 0 < i < N ->
    submitted_wave_ (f i) = W \/ submitted_wave_ (f i) = W - 1;
  i_cur : forall i, 0 <= i < N ->
    cur_wave_ (f i) + ncont i ms = W /\ W - 1 <= cur_wave_ (f i) /\
    submitted_wave_ (f i) <= cur_wave_ (f i);
  i_cont : forall d w, MContinue d w ∈ ms -> w = W /\ 0 < d < N;
  i_ctr : forall d p c, MCounter d p c ∈ ms -> 0 <= d < N;
  i_live : forall d, MTerminated d ∉ ms;
  i_num : forall i, 0 <= i < N -> num_children_ (f i) = nch i;
  i_recv : forall i, 0 <= i < N -> 0 <= recv_child_count_ (f i) /\
    recv_child_count_ (f i) + inflight i ms =
    (if decide (full W i (f i)) then 0 else cnt W i f);
  i_full : forall i, 0 < i < N -> full W i (f i) ->
    cnt W i f = nch i /\ g_prod1 (f i) = 0 /\ g_cons1 (f i) = 0;
  i_sum : zsum N (fun i => g_prod1 (f i)) + netp ms = snap W sp f /\
          zsum N (fun i => g_cons1 (f i)) + netc ms = snap W sc f;
  i_loc : forall i, 0 <= i < N ->
    0 <= pT i <= l_prod (f i) /\ 0 <= cT i <= l_cons (f i);
  i_snap : forall i, 0 < i < N -> full W i (f i) ->
    pT i <= sp i <= l_prod (f i) /\ cT i <= sc i <= l_cons (f i);
  i_det : forall i, 0 <= i < N -> term_detected_ (f i) = false;
  i_out : 0 <= out f;
  i_first : W = 0 -> (forall i, 0 <= i < N -> pT i = 0 /\ cT i = 0) /\
    g_prod2 (f 0) = 0 /\ g_cons2 (f 0) = 0 /\
    forall i, 0 <= i < N -> 0 < l_prod (f i) ->
      exists j, 0 <= j < N /\ 0 < l_prod (f j) /\ (full W j (f j) -> 0 < sp j);
  i_later : 0 < W -> g_cons2 (f 0) <= zsum N cT /\ zsum N cT <= zsum N pT /\
    (zsum N pT = zsum N cT -> zsum N (fun i => l_prod (f i)) = zsum N pT /\
                              zsum N (fun i => l_cons (f i)) = zsum N cT)
}.

(** What holds once the root has detected termination. *)
Record Detected_inv (f : Z -> TermState) (ms : list msg) : Prop := {
  d_root : term_detected_ (f 0) = true /\ 0 < N;
  d_out : out f = 0;
  d_sub : forall i, 0 < i < N -> submitted_wave_ (f i) = cur_wave_ (f i) /\ 0 <= cur_wave_ (f i);
  d_num : forall i, 0 <= i < N -> num_children_ (f i) = nch i;
  d_net : forall m, m ∈ ms -> exists d, m = MTerminated d
}.

(** Two states of a node that the wave does not tell apart. *)
Definition same_wave (x y : TermState) : Prop :=
  g_prod1 x = g_prod1 y /\ g_cons1 x = g_cons1 y /\ g_prod2 x = g_prod2 y /\
  g_cons2 x = g_cons2 y /\ term_detected_ x = term_detected_ y /\
  recv_child_count_ x = recv_child_count_ y /\ num_children_ x = num_children_ y /\
  cur_wave_ x = cur_wave_ y /\ submitted_wave_ x = submitted_wave_ y.

Lemma same_wave_insert (f : Z -> TermState) i x : same_wave x (f i) -> forall j, same_wave (<[i := x]> f j) (f j).
Proof.
  intros H j. destruct (decide (j = i)) as [->|Hne].
  - by rewrite fn_lookup_insert.
  - rewrite fn_lookup_insert_ne by done. by repeat split.
Qed.

Lemma cnt_ext W k f f' :
  (forall j, 0 <= j < N -> submitted_wave_ (f' j) = submitted_wave_ (f j)) ->
  cnt W k f' = cnt W k f.
Proof. intros H. apply zsum_ext. intros j Hj. f_equal.
  apply bool_decide_ext. unfold full. by rewrite (H j Hj). Qed.

Lemma snap_ext W g f f' :
  (forall j, 0 <= j < N -> submitted_wave_ (f' j) = submitted_wave_ (f j)) ->
  snap W g f' = snap W g f.
Proof.
  intros H. apply zsum_ext. intros j Hj. apply decide_ext. unfold full. by rewrite (H j Hj).
Qed.

(** Units of one node changing. *)
Lemma out_insert (f : Z -> TermState) i x :
  0 <= i < N ->
  zsum N (fun j => l_prod (<[i := x]> f j)) = zsum N (fun j => l_prod (f j)) - l_prod (f i) + l_prod x /\
  zsum N (fun j => l_cons (<[i := x]> f j)) = zsum N (fun j => l_cons (f j)) - l_cons (f i) + l_cons x.
Proof.
  intros Hi. split; [by apply (zsum_insert N (fun _ => l_prod))|by apply (zsum_insert N (fun _ => l_cons))].
Qed.

(** A node produces [dp] or consumes [dc] units, or changes its flags. *)
Lemma Inv_local W f ms sp sc pT cT i x dp dc :
  Inv W f ms sp sc pT cT -> 0 <= i < N -> same_wave x (f i) ->
  l_prod x = l_prod (f i) + dp -> l_cons x = l_cons (f i) + dc ->
  0 <= dp -> 0 <= dc <= out f ->
  (0 < dp -> submitted_wave_ (f i) = -1 \/ 0 < out f) ->
  Inv W (<[i := x]> f) ms sp sc pT cT.
Proof.
  intros [Hw Hsub Hcur Hcont Hctr Hlv Hnum Hrecv Hfull Hsum Hloc Hsnap Hdet Hout Hfst Hlat]
    Hi Hx Hp Hc Hdp Hdc Hmay.
  pose proof (same_wave_insert f i x Hx) as Hs. set (f' := <[i := x]> f) in *.
  destruct (out_insert f i x Hi) as [Hop Hoc].
  assert (forall j, l_prod (f j) <= l_prod (f' j) /\ l_cons (f j) <= l_cons (f' j)) as Hgrow.
  { intros j. unfold f'. destruct (decide (j = i)) as [->|].
    - rewrite fn_lookup_insert. lia.
    - rewrite fn_lookup_insert_ne by done. lia. }
  assert (forall j, submitted_wave_ (f' j) = submitted_wave_ (f j)) as Hsubs by (intros; apply Hs).
  assert (forall k, cnt W k f' = cnt W k f) as Hcnt by (intros; by apply cnt_ext).
  assert (forall j, full W j (f' j) <-> full W j (f j)) as Hfu
    by (intros; unfold full; by rewrite Hsubs).
  assert (out f' = out f + dp - dc) as Hout' by (unfold out, f'; lia).
  split.
  - by destruct (Hs 0) as (_ & _ & _ & _ & _ & _ & _ & -> & ->).
  - intros j Hj. rewrite Hsubs. auto.
  - intros j Hj. destruct (Hs j) as (_ & _ & _ & _ & _ & _ & _ & -> & ->). auto.
  - done.
  - done.
  - done.
  - intros j Hj. destruct (Hs j) as (_ & _ & _ & _ & _ & _ & -> & _). auto.
  - intros j Hj. destruct (Hs j) as (_ & _ & _ & _ & _ & -> & _). rewrite Hcnt.
    rewrite (decide_ext _ (full W j (f j))) by done. auto.
  - intros j Hj Hf. destruct (Hs j) as (-> & -> & _). rewrite Hcnt. by apply Hfull, Hfu.
  - rewrite !(snap_ext W _ f f') by done. destruct Hsum as [<- <-].
    split; f_equal; apply zsum_ext; intros j Hj; apply Hs.
  - intros j Hj. specialize (Hloc j Hj). specialize (Hgrow j). lia.
  - intros j Hj Hf%Hfu. specialize (Hsnap j Hj Hf). specialize (Hgrow j). lia.
  - intros j Hj. destruct (Hs j) as (_ & _ & _ & _ & -> & _). auto.
  - lia.
  - intros HW. destruct (Hfst HW) as (H0 & H2p & H2c & Hex).
    destruct (Hs 0) as (_ & _ & -> & -> & _). split_and!; [done..|].
    intros j Hj Hpos.
    destruct (decide (0 < zsum N (fun k => l_prod (f k)))) as [Hex'|Hnone].
    + apply zsum_pos in Hex' as (k & Hk & Hkp). destruct (Hex k Hk Hkp) as (m & Hm & Hmp & Hmf).
      exists m. specialize (Hgrow m). rewrite Hfu. split_and!; [lia|lia|lia|done].
    + assert (forall k, 0 <= k < N -> l_prod (f k) <= 0) as Hz.
      { intros k Hk. pose proof (zsum_elem_le N (fun k => l_prod (f k)) k) as He.
        simpl in He. specialize (He ltac:(intros m Hm; specialize (Hloc m Hm); lia) Hk). lia. }
      assert (0 <= zsum N (fun k => l_cons (f k)))
        by (apply zsum_nonneg; intros k Hk; specialize (Hloc k Hk); lia).
      assert (j = i) as ->.
      { destruct (decide (j = i)); [done|]. exfalso. specialize (Hz j Hj).
        unfold f' in Hpos. rewrite fn_lookup_insert_ne in Hpos by done. lia. }
      exists i. split_and!; [lia|lia|done|]. intros [_ Hf]. exfalso. rewrite Hsubs in Hf.
      unfold f' in Hpos. rewrite fn_lookup_insert in Hpos. specialize (Hz i Hi).
      destruct Hmay as [?|Ho]; [lia|lia|]. unfold out in Ho. lia.
  - intros HW. destruct (Hlat HW) as (H1 & H2 & H3). destruct (Hs 0) as (_ & _ & _ & -> & _).
    split_and!; [done|done|]. intros Heq. specialize (H3 Heq).
    assert (out f = 0) by (unfold out; lia).
    assert (dp = 0); [|unfold f'; lia].
    destruct (decide (0 < dp)) as [Hd|]; [|lia].
    destruct (Hmay Hd) as [Hm|]; [|lia].
    destruct (decide (i = 0)) as [->|]; [lia|]. destruct (Hsub i); lia.
Qed.

Lemma parent_parentOf i : 0 < i -> parent i = Tree.parentOf i.
Proof. apply Tree.makeDefault_parent. Qed.

Lemma nch_sum k : 0 <= k ->
  nch k = zsum N (fun c => b2z (bool_decide (0 < c /\ Tree.parentOf c = k))).
Proof. intros Hk. unfold nch. rewrite Tree.numChildren_length. by apply Tree.numChildren_sum. Qed.

Lemma cnt_summand W k f c :
  b2z (bool_decide (Tree.parentOf c = k /\ full W c (f c))) <=
  b2z (bool_decide (0 < c /\ Tree.parentOf c = k)).
Proof.
  unfold full. destruct (decide (Tree.parentOf c = k /\ full W c (f c))) as [[? [? ?]]|Hn].
  - rewrite !bool_decide_true by done. done.
  - rewrite bool_decide_false by done. apply b2z_range.
Qed.

Lemma cnt_le W k f : 0 <= k -> cnt W k f <= nch k.
Proof. intros Hk. rewrite nch_sum by done. apply zsum_le. intros. apply cnt_summand. Qed.

(** When all children are counted, each of them has submitted. *)
Lemma cnt_all W k f c :
  0 <= k -> cnt W k f = nch k -> 0 < c < N -> Tree.parentOf c = k -> submitted_wave_ (f c) = W.
Proof.
  intros Hk Hc Hcn Hp. rewrite nch_sum in Hc by done.
  pose proof (zsum_le_eq N _ _ (fun c _ => cnt_summand W k f c)) as He.
  unfold cnt in Hc. specialize (He ltac:(lia) c ltac:(lia)). cbv beta in He.
  rewrite (bool_decide_true (0 < c /\ _)) in He by (split; [lia|done]).
  destruct (decide (Tree.parentOf c = k /\ full W c (f c))) as [[_ [_ ?]]|Hn]; [done|].
  rewrite bool_decide_false in He by done. done.
Qed.

Lemma inflight_nonneg d ms : 0 <= inflight d ms.
Proof. apply lsum_nonneg. intros [] _; [apply b2z_range|lia|lia]. Qed.

Lemma ncont_nonneg d ms : 0 <= ncont d ms.
Proof. apply lsum_nonneg. intros [] _; [lia|apply b2z_range|lia]. Qed.

(** What readiness means for a node of the tree below the root. *)
Lemma ready_unsubmitted W f ms sp sc pT cT i :
  Inv W f ms sp sc pT cT -> 0 < i < N -> ready (f i) = true ->
  submitted_wave_ (f i) = W - 1 /\ cur_wave_ (f i) = W /\ ~ full W i (f i) /\
  inflight i ms = 0 /\ cnt W i f = nch i.
Proof.
  intros H Hi (_ & _ & _ & Hr & Hs & _)%ready_inv.
  pose proof (i_sub _ _ _ _ _ _ _ H i Hi). pose proof (i_cur _ _ _ _ _ _ _ H i ltac:(lia)).
  pose proof (ncont_nonneg i ms).
  assert (~ full W i (f i)) as Hnf by (unfold full; lia).
  pose proof (i_recv _ _ _ _ _ _ _ H i ltac:(lia)) as [_ Hrc].
  rewrite decide_False in Hrc by done. pose proof (inflight_nonneg i ms).
  pose proof (cnt_le W i f ltac:(lia)). rewrite (i_num _ _ _ _ _ _ _ H i ltac:(lia)) in Hr.
  split_and!; first [done|lia].
Qed.

Lemma netmsg_app d ms l :
  inflight d (ms ++ l) = inflight d ms + inflight d l /\ netp (ms ++ l) = netp ms + netp l /\
  netc (ms ++ l) = netc ms + netc l /\ ncont d (ms ++ l) = ncont d ms + ncont d l.
Proof. unfold inflight, netp, netc, ncont. by rewrite !lsum_app. Qed.

(** The submission of a node other than the root. *)
Lemma Inv_submit W f ms sp sc pT cT i :
  Inv W f ms sp sc pT cT -> 0 < i < N -> ready (f i) = true ->
  let x := with_wave 0 (cur_wave_ (f i)) (submitted_wave_ (f i) + 1) (with_g1 0 0 (f i)) in
  let m := MCounter (parent i) (g_prod1 (f i) + l_prod (f i)) (g_cons1 (f i) + l_cons (f i)) in
  Inv W (<[i := x]> f) (ms ++ [m]) (<[i := l_prod (f i)]> sp) (<[i := l_cons (f i)]> sc) pT cT.
Proof.
  intros HI Hi Hr x m. destruct (ready_unsubmitted _ _ _ _ _ _ _ _ HI Hi Hr) as (Hsi & Hci & Hnf & Hin & Hcn).
  destruct HI as [Hw Hsub Hcur Hcont Hctr Hlv Hnum Hrecv Hfull Hsum Hloc Hsnap Hdet Hout Hfst Hlat].
  set (f' := <[i := x]> f).
  assert (f' i = x) as Hfi by apply fn_lookup_insert.
  assert (forall j, j <> i -> f' j = f j) as Hne by (intros j Hj; by apply fn_lookup_insert_ne).
  assert (forall j, l_prod (f' j) = l_prod (f j) /\ l_cons (f' j) = l_cons (f j) /\
            term_detected_ (f' j) = term_detected_ (f j) /\ cur_wave_ (f' j) = cur_wave_ (f j) /\
            num_children_ (f' j) = num_children_ (f j)) as Hsame.
  { intros j. destruct (decide (j = i)) as [->|Hj]; [by rewrite Hfi|by rewrite (Hne j Hj)]. }
  assert (full W i (f' i)) as Hfull'i by (rewrite Hfi; unfold full; simpl; lia).
  pose proof (Tree.parentOf_bounds i ltac:(lia)) as Hpb.
  assert (forall k, 0 <= k < N -> full W k (f k) -> Tree.parentOf i <> k) as Hpnf.
  { intros k Hk Hf Hp. assert (0 < k < N) as Hk' by (unfold full in Hf; lia).
    destruct (Hfull k Hk' Hf) as (Hc & _).
    pose proof (cnt_all W k f i ltac:(lia) Hc Hi Hp). unfold full in Hnf. lia. }
  assert (forall k, cnt W k f' = cnt W k f + b2z (bool_decide (Tree.parentOf i = k))) as Hcnt.
  { intros k. unfold cnt. rewrite (zsum_change N (fun c => b2z (bool_decide
      (Tree.parentOf c = k /\ full W c (f c)))) _ i) by (lia || (intros j ? Hj; by rewrite (Hne j Hj))).
    rewrite (bool_decide_false (_ /\ full W i (f i))) by tauto.
    rewrite (bool_decide_ext (_ /\ full W i (f' i)) (Tree.parentOf i = k)) by tauto. simpl. lia. }
  destruct (netmsg_app 0 ms [m]) as (_ & Hnp & Hnc & _).
  assert (forall k, inflight k (ms ++ [m]) = inflight k ms + b2z (bool_decide (Tree.parentOf i = k))) as Hinf.
  { intros k. destruct (netmsg_app k ms [m]) as (-> & _). unfold inflight at 2. simpl.
    rewrite parent_parentOf by lia. lia. }
  assert (forall k, ncont k (ms ++ [m]) = ncont k ms) as Hnct.
  { intros k. destruct (netmsg_app k ms [m]) as (_ & _ & _ & ->). unfold ncont at 2. simpl. lia. }
  split.
  - rewrite (Hne 0) by lia. done.
  - intros j Hj. destruct (decide (j = i)) as [->|Hji];
      [rewrite Hfi; simpl; lia|rewrite (Hne j Hji); auto].
  - intros j Hj. rewrite Hnct. destruct (Hsame j) as (_ & _ & _ & -> & _).
    specialize (Hcur j Hj). destruct (decide (j = i)) as [->|Hji];
      [rewrite Hfi; simpl; lia|rewrite (Hne j Hji); done].
  - intros d w [Hd|Hd%list_elem_of_singleton]%elem_of_app; [by eapply Hcont|done].
  - intros d p c [Hd|Hd%list_elem_of_singleton]%elem_of_app; [by eapply Hctr|].
    unfold m in Hd. injection Hd as -> _ _. rewrite parent_parentOf by lia. lia.
  - intros d [Hd|Hd%list_elem_of_singleton]%elem_of_app; [by eapply Hlv|done].
  - intros j Hj. destruct (Hsame j) as (_ & _ & _ & _ & ->). auto.
  - intros j Hj. rewrite Hcnt, Hinf. specialize (Hrecv j Hj).
    destruct (decide (j = i)) as [->|Hji].
    + rewrite decide_True by done. rewrite Hfi, bool_decide_false by lia. simpl. lia.
    + rewrite (Hne j Hji). destruct (decide (full W j (f j))) as [Hf|Hf]; [|lia].
      rewrite bool_decide_false by auto. simpl. lia.
  - intros j Hj Hf. rewrite Hcnt. destruct (decide (j = i)) as [->|Hji].
    + rewrite bool_decide_false by lia. rewrite Hfi. simpl. lia.
    + rewrite (Hne j Hji) in *. rewrite bool_decide_false by (apply Hpnf; auto; lia).
      destruct (Hfull j Hj Hf). simpl. lia.
  - rewrite Hnp, Hnc. unfold netp at 2, netc at 2. simpl.
    assert (forall g h, snap W (<[i := h]> g) f' = snap W g f + h) as Hsn.
    { intros g h. unfold snap. rewrite (zsum_change N (fun j => if decide (full W j (f j))
        then g j else 0) _ i); [|lia|].
      - rewrite decide_False by done. rewrite decide_True by done. rewrite fn_lookup_insert. lia.
      - intros j Hj Hji. by rewrite (Hne j Hji), fn_lookup_insert_ne. }
    rewrite !Hsn. destruct Hsum as [<- <-]. unfold f'.
    rewrite (zsum_insert N (fun _ => g_prod1)), (zsum_insert N (fun _ => g_cons1)) by lia.
    simpl. lia.
  - intros j Hj. destruct (Hsame j) as (-> & -> & _). auto.
  - intros j Hj Hf. destruct (Hsame j) as (-> & -> & _). destruct (decide (j = i)) as [->|Hji].
    + rewrite !fn_lookup_insert. specialize (Hloc i ltac:(lia)). lia.
    + rewrite !fn_lookup_insert_ne by done. rewrite (Hne j Hji) in Hf. auto.
  - intros j Hj. destruct (Hsame j) as (_ & _ & -> & _). auto.
  - destruct (out_insert f i x ltac:(lia)) as [H1 H2]. unfold out, f'. rewrite H1, H2.
    unfold out in Hout. simpl. lia.
  - intros HW. rewrite (Hne 0) by lia. destruct (Hfst HW) as (H1 & H2 & H3 & H4).
    split_and!; [done..|]. intros j Hj. destruct (Hsame j) as (-> & _). intros Hp.
    destruct (H4 j Hj Hp) as (k & Hk & Hkp & Hkf). exists k.
    destruct (Hsame k) as (-> & _). split_and!; [lia|lia|done|].
    destruct (decide (k = i)) as [->|Hki]; [by rewrite fn_lookup_insert|].
    rewrite fn_lookup_insert_ne by done. by rewrite (Hne k Hki).
  - intros HW. rewrite (Hne 0) by lia. destruct (Hlat HW) as (H1 & H2 & H3).
    split_and!; [done..|]. intros He. specialize (H3 He).
    destruct (out_insert f i x ltac:(lia)) as [Ho1 Ho2]. unfold f'. rewrite Ho1, Ho2. simpl. lia.
Qed.

(** The delivery of a counter message. *)
Lemma Inv_counter W f l1 d p c l2 sp sc pT cT :
  Inv W f (l1 ++ MCounter d p c :: l2) sp sc pT cT ->
  let x := with_wave (recv_child_count_ (f d) + 1) (cur_wave_ (f d)) (submitted_wave_ (f d))
             (with_g1 (g_prod1 (f d) + p) (g_cons1 (f d) + c) (f d)) in
  recv_child_count_ (f d) + 1 <= num_children_ (f d) /\ 0 <= d < N /\
  Inv W (<[d := x]> f) (l1 ++ l2) sp sc pT cT.
Proof.
  intros [Hw Hsub Hcur Hcont Hctr Hlv Hnum Hrecv Hfull Hsum Hloc Hsnap Hdet Hout Hfst Hlat] x.
  assert (0 <= d < N) as Hd by (eapply Hctr; elems).
  destruct (netmsg_app 0 l1 (MCounter d p c :: l2)) as (_ & Hp1 & Hc1 & _).
  destruct (netmsg_app 0 l1 l2) as (_ & Hp2 & Hc2 & _).
  assert (forall k, inflight k (l1 ++ MCounter d p c :: l2) =
    inflight k (l1 ++ l2) + b2z (bool_decide (d = k))) as Hinf.
  { intros k. destruct (netmsg_app k l1 (MCounter d p c :: l2)) as (-> & _).
    destruct (netmsg_app k l1 l2) as (-> & _). unfold inflight. rewrite lsum_cons. lia. }
  assert (forall k, ncont k (l1 ++ MCounter d p c :: l2) = ncont k (l1 ++ l2)) as Hnct.
  { intros k. destruct (netmsg_app k l1 (MCounter d p c :: l2)) as (_ & _ & _ & ->).
    destruct (netmsg_app k l1 l2) as (_ & _ & _ & ->). unfold ncont. rewrite lsum_cons. lia. }
  assert (~ full W d (f d)) as Hnf.
  { intros Hf. destruct (Hrecv d Hd) as [Hr0 Hr]. rewrite decide_True in Hr by done.
    rewrite Hinf, bool_decide_true in Hr by done. pose proof (inflight_nonneg d (l1 ++ l2)).
    simpl in Hr. lia. }
  split; [|split; [done|]].
  { destruct (Hrecv d Hd) as [Hr0 Hr]. rewrite decide_False in Hr by done.
    rewrite Hinf, bool_decide_true in Hr by done. pose proof (inflight_nonneg d (l1 ++ l2)).
    pose proof (cnt_le W d f ltac:(lia)). rewrite (Hnum d Hd). simpl in Hr. lia. }
  set (f' := <[d := x]> f).
  assert (f' d = x) as Hfd by apply fn_lookup_insert.
  assert (forall j, j <> d -> f' j = f j) as Hne by (intros j Hj; by apply fn_lookup_insert_ne).
  assert (forall j, l_prod (f' j) = l_prod (f j) /\ l_cons (f' j) = l_cons (f j) /\
            term_detected_ (f' j) = term_detected_ (f j) /\ cur_wave_ (f' j) = cur_wave_ (f j) /\
            num_children_ (f' j) = num_children_ (f j) /\
            submitted_wave_ (f' j) = submitted_wave_ (f j) /\
            g_prod2 (f' j) = g_prod2 (f j) /\ g_cons2 (f' j) = g_cons2 (f j)) as Hsame.
  { intros j. destruct (decide (j = d)) as [->|Hj]; [by rewrite Hfd|by rewrite (Hne j Hj)]. }
  assert (forall j, submitted_wave_ (f' j) = submitted_wave_ (f j)) as Hsubs by apply Hsame.
  assert (forall j, full W j (f' j) <-> full W j (f j)) as Hfu
    by (intros; unfold full; by rewrite Hsubs).
  assert (forall k, cnt W k f' = cnt W k f) as Hcnt by (intros; by apply cnt_ext).
  destruct (Hsame 0) as (_ & _ & _ & Hc0 & _ & Hs0 & Hg2 & Hg2').
  split.
  - by rewrite Hc0, Hs0.
  - intros j Hj. rewrite Hsubs. auto.
  - intros j Hj. rewrite <- Hnct. destruct (Hsame j) as (_ & _ & _ & -> & _ & -> & _). auto.
  - intros e w He. by eapply Hcont, elem_of_middle.
  - intros e q r He. by eapply Hctr, elem_of_middle.
  - intros e He. by eapply Hlv, elem_of_middle.
  - intros j Hj. destruct (Hsame j) as (_ & _ & _ & _ & -> & _). auto.
  - intros j Hj. rewrite Hcnt, (decide_ext _ (full W j (f j))) by done.
    destruct (Hrecv j Hj) as [Hr0 Hr]. rewrite Hinf in Hr.
    destruct (decide (j = d)) as [->|Hji].
    + rewrite bool_decide_true in Hr by done. rewrite Hfd. simpl in *. lia.
    + rewrite bool_decide_false in Hr by congruence. rewrite (Hne j Hji). simpl in Hr. lia.
  - intros j Hj Hf%Hfu. rewrite Hcnt. destruct (decide (j = d)) as [->|Hji]; [done|].
    rewrite (Hne j Hji). auto.
  - rewrite !(snap_ext W _ f f') by done. destruct Hsum as [<- <-].
    rewrite Hp1, Hc1, Hp2, Hc2. unfold f'.
    rewrite (zsum_insert N (fun _ => g_prod1)), (zsum_insert N (fun _ => g_cons1)) by lia.
    unfold netp, netc. rewrite !lsum_cons. simpl. lia.
  - intros j Hj. destruct (Hsame j) as (-> & -> & _). auto.
  - intros j Hj Hf%Hfu. destruct (Hsame j) as (-> & -> & _). auto.
  - intros j Hj. destruct (Hsame j) as (_ & _ & -> & _). auto.
  - destruct (out_insert f d x ltac:(lia)) as [H1 H2]. unfold out, f'. rewrite H1, H2.
    unfold out in Hout. simpl. lia.
  - intros HW. rewrite Hg2, Hg2'. destruct (Hfst HW) as (H1 & H2 & H3 & H4).
    split_and!; [done..|]. intros j Hj. destruct (Hsame j) as (-> & _). intros Hp.
    destruct (H4 j Hj Hp) as (k & Hk & Hkp & Hkf). exists k.
    destruct (Hsame k) as (-> & _). rewrite Hfu. done.
  - intros HW. rewrite Hg2'. destruct (Hlat HW) as (H1 & H2 & H3).
    split_and!; [done..|]. intros He. specialize (H3 He).
    destruct (out_insert f d x ltac:(lia)) as [Ho1 Ho2]. unfold f'. rewrite Ho1, Ho2. simpl. lia.
Qed.

(** The delivery of a continue signal. *)
Lemma Inv_continue W f l1 d w l2 sp sc pT cT :
  Inv W f (l1 ++ MContinue d w :: l2) sp sc pT cT ->
  let x := with_wave (recv_child_count_ (f d)) w (submitted_wave_ (f d)) (f d) in
  cur_wave_ (f d) = w - 1 /\ 0 < d < N /\ Inv W (<[d := x]> f) (l1 ++ l2) sp sc pT cT.
Proof.
  intros [Hw Hsub Hcur Hcont Hctr Hlv Hnum Hrecv Hfull Hsum Hloc Hsnap Hdet Hout Hfst Hlat] x.
  destruct (Hcont d w ltac:(elems)) as [-> Hd].
  destruct (netmsg_app 0 l1 (MContinue d W :: l2)) as (_ & Hp1 & Hc1 & _).
  destruct (netmsg_app 0 l1 l2) as (_ & Hp2 & Hc2 & _).
  assert (forall k, inflight k (l1 ++ MContinue d W :: l2) = inflight k (l1 ++ l2)) as Hinf.
  { intros k. destruct (netmsg_app k l1 (MContinue d W :: l2)) as (-> & _).
    destruct (netmsg_app k l1 l2) as (-> & _). unfold inflight. rewrite lsum_cons. lia. }
  assert (forall k, ncont k (l1 ++ MContinue d W :: l2) =
    ncont k (l1 ++ l2) + b2z (bool_decide (d = k))) as Hnct.
  { intros k. destruct (netmsg_app k l1 (MContinue d W :: l2)) as (_ & _ & _ & ->).
    destruct (netmsg_app k l1 l2) as (_ & _ & _ & ->). unfold ncont. rewrite lsum_cons. lia. }
  assert (cur_wave_ (f d) = W - 1 /\ ncont d (l1 ++ l2) = 0) as [Hcd Hcz].
  { destruct (Hcur d ltac:(lia)) as (Hc & Hl & _). rewrite Hnct, bool_decide_true in Hc by done.
    pose proof (ncont_nonneg d (l1 ++ l2)). simpl in Hc. lia. }
  split; [lia|]. split; [done|].
  set (f' := <[d := x]> f).
  assert (f' d = x) as Hfd by apply fn_lookup_insert.
  assert (forall j, j <> d -> f' j = f j) as Hne by (intros j Hj; by apply fn_lookup_insert_ne).
  assert (forall j, l_prod (f' j) = l_prod (f j) /\ l_cons (f' j) = l_cons (f j) /\
            term_detected_ (f' j) = term_detected_ (f j) /\
            recv_child_count_ (f' j) = recv_child_count_ (f j) /\
            num_children_ (f' j) = num_children_ (f j) /\
            submitted_wave_ (f' j) = submitted_wave_ (f j) /\
            g_prod1 (f' j) = g_prod1 (f j) /\ g_cons1 (f' j) = g_cons1 (f j)) as Hsame.
  { intros j. destruct (decide (j = d)) as [->|Hj]; [by rewrite Hfd|by rewrite (Hne j Hj)]. }
  assert (forall j, submitted_wave_ (f' j) = submitted_wave_ (f j)) as Hsubs by apply Hsame.
  assert (forall j, full W j (f' j) <-> full W j (f j)) as Hfu
    by (intros; unfold full; by rewrite Hsubs).
  assert (forall k, cnt W k f' = cnt W k f) as Hcnt by (intros; by apply cnt_ext).
  split.
  - by rewrite (Hne 0) by lia.
  - intros j Hj. rewrite Hsubs. auto.
  - intros j Hj. specialize (Hcur j Hj). rewrite Hnct in Hcur.
    destruct (decide (j = d)) as [->|Hji].
    + rewrite Hfd. simpl. destruct (Hsub d Hd); lia.
    + rewrite (Hne j Hji). rewrite bool_decide_false in Hcur by congruence. simpl in Hcur. lia.
  - intros e w He. by eapply Hcont, elem_of_middle.
  - intros e q r He. by eapply Hctr, elem_of_middle.
  - intros e He. by eapply Hlv, elem_of_middle.
  - intros j Hj. destruct (Hsame j) as (_ & _ & _ & _ & -> & _). auto.
  - intros j Hj. rewrite Hcnt, (decide_ext _ (full W j (f j))) by done.
    rewrite <- Hinf. destruct (Hsame j) as (_ & _ & _ & -> & _). auto.
  - intros j Hj Hf%Hfu. rewrite Hcnt. destruct (Hsame j) as (_ & _ & _ & _ & _ & _ & -> & ->). auto.
  - rewrite !(snap_ext W _ f f') by done. destruct Hsum as [<- <-].
    rewrite Hp1, Hc1, Hp2, Hc2. unfold f'.
    rewrite (zsum_insert N (fun _ => g_prod1)), (zsum_insert N (fun _ => g_cons1)) by lia.
    unfold netp, netc. rewrite !lsum_cons. simpl. lia.
  - intros j Hj. destruct (Hsame j) as (-> & -> & _). auto.
  - intros j Hj Hf%Hfu. destruct (Hsame j) as (-> & -> & _). auto.
  - intros j Hj. destruct (Hsame j) as (_ & _ & -> & _). auto.
  - destruct (out_insert f d x ltac:(lia)) as [H1 H2]. unfold out, f'. rewrite H1, H2.
    unfold out in Hout. simpl. lia.
  - intros HW. rewrite (Hne 0) by lia. destruct (Hfst HW) as (H1 & H2 & H3 & H4).
    split_and!; [done..|]. intros j Hj. destruct (Hsame j) as (-> & _). intros Hp.
    destruct (H4 j Hj Hp) as (k & Hk & Hkp & Hkf). exists k.
    destruct (Hsame k) as (-> & _). rewrite Hfu. done.
  - intros HW. rewrite (Hne 0) by lia. destruct (Hlat HW) as (H1 & H2 & H3).
    split_and!; [done..|]. intros He. specialize (H3 He).
    destruct (out_insert f d x ltac:(lia)) as [Ho1 Ho2]. unfold f'. rewrite Ho1, Ho2. simpl. lia.
Qed.

(** When the root is ready, the wave has gone through the whole tree. *)
Lemma root_complete W f ms sp sc pT cT :
  Inv W f ms sp sc pT cT -> ready (f 0) = true ->
  (forall i, 0 < i < N -> full W i (f i)) /\ (forall d, 0 <= d < N -> inflight d ms = 0).
Proof.
  intros HI Hr. destruct (ready_inv _ Hr) as (_ & _ & _ & Hrc & _).
  destruct (i_wave _ _ _ _ _ _ _ HI) as (_ & _ & _ & HN).
  assert (forall k, ~ full W k (f k) -> 0 <= k < N -> recv_child_count_ (f k) = nch k ->
            cnt W k f = nch k /\ inflight k ms = 0) as Hk.
  { intros k Hnf Hk Hn. destruct (i_recv _ _ _ _ _ _ _ HI k Hk) as [_ He].
    rewrite decide_False in He by done. pose proof (inflight_nonneg k ms).
    pose proof (cnt_le W k f ltac:(lia)). lia. }
  rewrite (i_num _ _ _ _ _ _ _ HI 0) in Hrc by lia.
  destruct (Hk 0) as [H0 H0']; [unfold full; lia|lia|done|].
  assert (forall i, 0 < i < N -> full W i (f i)) as Hall.
  { intros i. induction (Z.lt_wf 0 i) as [i _ IH]. intros Hi.
    pose proof (Tree.parentOf_bounds i ltac:(lia)). split; [lia|].
    apply (cnt_all W (Tree.parentOf i)); try done; try lia.
    destruct (decide (Tree.parentOf i = 0)) as [->|]; [done|].
    apply (i_full _ _ _ _ _ _ _ HI); [lia|]. apply IH; lia. }
  split; [done|]. intros d Hd. destruct (decide (d = 0)) as [->|]; [done|].
  destruct (i_recv _ _ _ _ _ _ _ HI d Hd) as [Hr0 He].
  rewrite decide_True in He by (apply Hall; lia). pose proof (inflight_nonneg d ms). lia.
Qed.

Lemma no_counters f ms W sp sc pT cT :
  Inv W f ms sp sc pT cT -> (forall d, 0 <= d < N -> inflight d ms = 0) ->
  (forall d p c, MCounter d p c ∉ ms) /\ netp ms = 0 /\ netc ms = 0.
Proof.
  intros HI H0. assert (forall d p c, MCounter d p c ∉ ms) as Hn.
  { intros d p c Hin. specialize (H0 d (i_ctr _ _ _ _ _ _ _ HI d p c Hin)).
    pose proof (lsum_elem_le (fun m => match m with MCounter d' _ _ => b2z (bool_decide (d' = d))
      | _ => 0 end) ms (MCounter d p c)) as He. simpl in He.
    rewrite bool_decide_true in He by done. unfold inflight in H0. rewrite H0 in He.
    assert (1 <= 0); [|lia]. apply He; [|done]. intros [] _; [apply b2z_range|lia|lia]. }
  split; [done|]. split; apply lsum_0; intros [d p c|d w|d] Hin; try done;
    by apply Hn in Hin.
Qed.

Lemma no_continues f ms W sp sc pT cT :
  Inv W f ms sp sc pT cT -> (forall i, 0 < i < N -> full W i (f i)) ->
  forall d w, MContinue d w ∉ ms.
Proof.
  intros HI Hall d w Hin. destruct (i_cont _ _ _ _ _ _ _ HI d w Hin) as [-> Hd].
  destruct (i_cur _ _ _ _ _ _ _ HI d ltac:(lia)) as (Hc & _ & Hs). destruct (Hall d Hd) as [_ Hsd].
  pose proof (lsum_elem_le (fun m => match m with MContinue d' _ => b2z (bool_decide (d' = d))
    | _ => 0 end) ms (MContinue d W)) as He. simpl in He.
  rewrite bool_decide_true in He by done. fold (ncont d ms) in He.
  assert (1 <= ncont d ms); [|lia]. apply He; [|done]. intros [] _; [lia|apply b2z_range|lia].
Qed.

(** The sums the root holds at the end of a wave. *)
Lemma root_sums W f ms sp sc pT cT :
  Inv W f ms sp sc pT cT -> ready (f 0) = true ->
  g_prod1 (f 0) + l_prod (f 0) = zsum N (fun i => if decide (0 < i) then sp i else l_prod (f i)) /\
  g_cons1 (f 0) + l_cons (f 0) = zsum N (fun i => if decide (0 < i) then sc i else l_cons (f i)).
Proof.
  intros HI Hr. destruct (root_complete _ _ _ _ _ _ _ HI Hr) as [Hall H0].
  destruct (no_counters _ _ _ _ _ _ _ HI H0) as (_ & Hp & Hc).
  destruct (i_wave _ _ _ _ _ _ _ HI) as (_ & _ & _ & HN).
  destruct (i_sum _ _ _ _ _ _ _ HI) as [Hsp Hsc]. rewrite Hp in Hsp. rewrite Hc in Hsc.
  assert (forall g h (l : Z -> Z), (forall i, 0 < i < N -> g i = 0) ->
     zsum N g + 0 = snap W h f ->
     g 0 + l 0 = zsum N (fun i => if decide (0 < i) then h i else l i)) as H.
  { intros g h l Hg He. unfold snap in He.
    rewrite (zsum_change N (fun _ => 0) _ 0) in He by (lia || (intros; apply Hg; lia)).
    rewrite (zsum_0 N (fun _ => 0)) in He by done.
    rewrite (zsum_change N (fun i => if decide (full W i (f i)) then h i else 0) _ 0); [|lia|].
    - cbv beta in *. rewrite (decide_False (P := 0 < 0)) by lia.
      rewrite (decide_False (P := full W 0 (f 0))) by (unfold full; lia). lia.
    - intros j Hj Hne. rewrite decide_True by lia. by rewrite decide_True by (apply Hall; lia). }
  split; [apply (H (fun i => g_prod1 (f i)) sp (fun i => l_prod (f i)))
         |apply (H (fun i => g_cons1 (f i)) sc (fun i => l_cons (f i)))]; try done;
    intros i Hi; by apply (i_full _ _ _ _ _ _ _ HI i Hi), Hall.
Qed.

(** The four-counter test is sound. *)
Lemma root_detect W f ms sp sc pT cT :
  Inv W f ms sp sc pT cT -> ready (f 0) = true -> is_term (f 0) -> out f = 0.
Proof.
  intros HI Hr (Ht1 & Ht2 & Ht3). destruct (root_complete _ _ _ _ _ _ _ HI Hr) as [Hall _].
  destruct (root_sums _ _ _ _ _ _ _ HI Hr) as [HP HC].
  destruct (i_wave _ _ _ _ _ _ _ HI) as (_ & HW & _ & HN).
  pose proof (i_out _ _ _ _ _ _ _ HI) as Hout. pose proof (i_loc _ _ _ _ _ _ _ HI) as Hloc.
  pose proof (i_snap _ _ _ _ _ _ _ HI) as Hsnap.
  set (P := fun i => if decide (0 < i) then sp i else l_prod (f i)) in *.
  assert (forall i, 0 <= i < N -> 0 <= pT i <= P i) as HPT.
  { intros i Hi. unfold P. specialize (Hloc i Hi). destruct (decide (0 < i)); [|lia].
    pose proof (Hsnap i ltac:(lia) (Hall i ltac:(lia))). lia. }
  destruct (decide (W = 0)) as [->|HW0].
  - destruct (i_first _ _ _ _ _ _ _ HI eq_refl) as (_ & H2 & _ & Hex).
    assert (forall i, 0 <= i < N -> P i = 0) as HP0.
    { intros i Hi. pose proof (zsum_elem_le N P i) as He.
      specialize (He ltac:(intros j Hj; specialize (HPT j Hj); lia) Hi).
      specialize (HPT i Hi). lia. }
    assert (zsum N (fun i => l_prod (f i)) = 0) as Hz.
    { apply zsum_0. intros i Hi. destruct (decide (0 < l_prod (f i))) as [Hpos|];
        [|specialize (Hloc i Hi); lia].
      destruct (Hex i Hi Hpos) as (j & Hj & Hjp & Hjf). specialize (HP0 j Hj). unfold P in HP0.
      destruct (decide (0 < j)); [|lia]. specialize (Hjf (Hall j ltac:(lia))). lia. }
    assert (0 <= zsum N (fun i => l_cons (f i)))
      by (apply zsum_nonneg; intros i Hi; specialize (Hloc i Hi); lia).
    unfold out in *. lia.
  - destruct (i_later _ _ _ _ _ _ _ HI ltac:(lia)) as (H1 & H2 & H3).
    assert (zsum N pT <= zsum N P) by (apply zsum_le; intros i Hi; apply HPT; lia).
    destruct H3 as [H4 H5]; [lia|]. unfold out. lia.
Qed.

Lemma elem_of_others i j : j ∈ others i <-> j <> i /\ 0 <= j < N.
Proof. unfold others. by rewrite list_elem_of_filter, elem_of_nodes. Qed.

Lemma ncont_bcast l d w : NoDup l ->
  ncont d (map (fun j => MContinue j w) l) = b2z (bool_decide (d ∈ l)).
Proof.
  induction l as [|j l IH]; intros Hnd; [by rewrite bool_decide_false by auto with vt|].
  apply NoDup_cons in Hnd as [Hj Hnd]. unfold ncont in *. simpl. rewrite IH by done.
  destruct (decide (j = d)) as [->|Hne].
  - rewrite (bool_decide_true (d = d)), (bool_decide_true (d ∈ d :: l)) by elems.
    by rewrite bool_decide_false.
  - rewrite (bool_decide_false (j = d)) by done. rewrite Z.add_0_l. f_equal. apply bool_decide_ext.
    rewrite elem_of_cons. naive_solver.
Qed.

(** The root starts the next wave. *)
Lemma Inv_next W f ms sp sc pT cT n m :
  Inv W f ms sp sc pT cT -> ready (f 0) = true ->
  let x := with_wave 0 (cur_wave_ (f 0) + 1) (submitted_wave_ (f 0) + 1)
     (with_g1 0 0 (with_g2 (g_prod1 (f 0) + l_prod (f 0)) (g_cons1 (f 0) + l_cons (f 0))
        (with_constant n m (f 0)))) in
  Inv (W + 1) (<[0 := x]> f) (ms ++ emit1 0 (Continue (cur_wave_ (f 0) + 1))) sp sc
    (fun i => l_prod (f i)) (fun i => l_cons (f i)).
Proof.
  intros HI Hr x. destruct (root_complete _ _ _ _ _ _ _ HI Hr) as [Hall H0].
  destruct (root_sums _ _ _ _ _ _ _ HI Hr) as [HP HC].
  destruct (no_counters _ _ _ _ _ _ _ HI H0) as (Hnc & Hnp & Hncs). pose proof HI as HI'.
  destruct HI as [Hw Hsub Hcur Hcont Hctr Hlv Hnum Hrecv Hfull Hsum Hloc Hsnap Hdet Hout Hfst Hlat].
  set (f' := <[0 := x]> f). set (bc := emit1 0 _).
  assert (f' 0 = x) as Hf0 by apply fn_lookup_insert.
  assert (forall j, j <> 0 -> f' j = f j) as Hne by (intros j Hj; by apply fn_lookup_insert_ne).
  assert (forall j, l_prod (f' j) = l_prod (f j) /\ l_cons (f' j) = l_cons (f j) /\
            term_detected_ (f' j) = term_detected_ (f j) /\
            num_children_ (f' j) = num_children_ (f j)) as Hsame.
  { intros j. destruct (decide (j = 0)) as [->|Hj]; [by rewrite Hf0|by rewrite (Hne j Hj)]. }
  assert (forall j, 0 <= j < N -> ~ full (W + 1) j (f' j)) as Hnf.
  { intros j Hj [Hj0 Hs]. rewrite (Hne j) in Hs by lia. destruct (Hall j) as [_ ?]; lia. }
  assert (forall k, cnt (W + 1) k f' = 0) as Hcnt.
  { intros k. apply zsum_0. intros j Hj. rewrite bool_decide_false; [done|].
    intros [_ Hf]. by apply (Hnf j Hj). }
  assert (forall g, snap (W + 1) g f' = 0) as Hsn.
  { intros g. apply zsum_0. intros j Hj. by rewrite decide_False by auto. }
  pose proof (no_continues _ _ _ _ _ _ _ HI' Hall) as Hnomc.
  assert (forall m, m ∈ bc -> exists j, m = MContinue j (W + 1) /\ 0 < j < N) as Hbc.
  { intros mm Hin. unfold bc in Hin. simpl in Hin.
    apply list_elem_of_In, in_map_iff in Hin as (j & <- & Hj%list_elem_of_In).
    apply elem_of_others in Hj. exists j.
    destruct Hw as (-> & _). split; [done|lia]. }
  assert (inflight 0 bc = 0 /\ netp bc = 0 /\ netc bc = 0) as (_ & Hbp & Hbcc).
  { split_and!; apply lsum_0; intros mm Hin; by destruct (Hbc mm Hin) as (j & -> & _). }
  split.
  - rewrite Hf0. simpl. lia.
  - intros j Hj. rewrite (Hne j) by lia. destruct (Hall j Hj) as [_ ->]. lia.
  - intros j Hj. destruct (netmsg_app j ms bc) as (_ & _ & _ & ->).
    assert (ncont j ms = 0) as ->.
    { apply lsum_0. intros [] Hin; try done. by apply Hnomc in Hin. }
    unfold bc. simpl. rewrite ncont_bcast by (apply NoDup_filter, NoDup_seqZ).
    destruct (decide (j = 0)) as [->|Hj0].
    + rewrite Hf0, bool_decide_false; [simpl; lia|].
      rewrite elem_of_others. lia.
    + rewrite (Hne j Hj0), bool_decide_true.
      * destruct (Hcur j Hj) as (Hc & ? & ?). destruct (Hall j ltac:(lia)) as [_ Hs].
        pose proof (ncont_nonneg j ms). simpl. lia.
      * by apply elem_of_others.
  - intros d w [Hin|Hin]%elem_of_app; [by apply Hnomc in Hin|].
    destruct (Hbc _ Hin) as (j & [= -> ->] & ?). done.
  - intros d p c [Hin|Hin]%elem_of_app; [by apply Hnc in Hin|].
    destruct (Hbc _ Hin) as (j & ? & ?). done.
  - intros d [Hin|Hin]%elem_of_app; [by apply Hlv in Hin|].
    destruct (Hbc _ Hin) as (j & ? & ?). done.
  - intros j Hj. destruct (Hsame j) as (_ & _ & _ & ->). auto.
  - intros j Hj. rewrite decide_False, Hcnt by auto.
    destruct (netmsg_app j ms bc) as (-> & _). rewrite H0 by done.
    assert (inflight j bc = 0) as ->
      by (apply lsum_0; intros mm Hin; by destruct (Hbc mm Hin) as (k & -> & _)).
    destruct (decide (j = 0)) as [->|Hj0]; [by rewrite Hf0|]. rewrite (Hne j Hj0).
    destruct (Hrecv j Hj) as [Hr0 He]. rewrite decide_True in He by (apply Hall; lia).
    rewrite H0 in He by done. lia.
  - intros j Hj Hf. by apply Hnf in Hf; [|lia].
  - rewrite !Hsn. destruct (netmsg_app 0 ms bc) as (_ & -> & -> & _).
    rewrite Hnp, Hncs, Hbp, Hbcc.
    split; (rewrite zsum_0; [lia|]); intros j Hj; destruct (decide (j = 0)) as [->|Hj0];
      rewrite ?Hf0, ?(Hne j Hj0); try done; apply (Hfull j); try lia; apply Hall; lia.
  - intros j Hj. destruct (Hsame j) as (-> & -> & _). specialize (Hloc j Hj). lia.
  - intros j Hj Hf. by apply Hnf in Hf; [|lia].
  - intros j Hj. destruct (Hsame j) as (_ & _ & -> & _). auto.
  - destruct (out_insert f 0 x ltac:(lia)) as [Ho1 Ho2]. unfold out, f'. rewrite Ho1, Ho2.
    unfold out in Hout. simpl. lia.
  - lia.
  - intros _. rewrite Hf0. simpl. rewrite HC. destruct (out_insert f 0 x ltac:(lia)) as [Ho1 Ho2].
    split_and!.
    + apply zsum_le. intros j Hj. destruct (decide (0 < j)); [|lia].
      apply Hsnap; [lia|]. apply Hall. lia.
    + unfold out in Hout. lia.
    + intros _. unfold f'. rewrite Ho1, Ho2. simpl. lia.
Qed.

(** ** Steps preserve the invariant *)

Lemma insert_twice (f : Z -> TermState) i x y : <[i := x]> (<[i := y]> f) = <[i := x]> f.
Proof.
  apply functional_extensionality. intros j. destruct (decide (j = i)) as [->|Hj].
  - by rewrite !fn_lookup_insert.
  - by rewrite !fn_lookup_insert_ne.
Qed.

Lemma insert_same (f : Z -> TermState) i : <[i := f i]> f = f.
Proof.
  apply functional_extensionality. intros j. destruct (decide (j = i)) as [->|Hj].
  - by rewrite fn_lookup_insert.
  - by rewrite fn_lookup_insert_ne.
Qed.

Lemma is_root_eqb i : is_root i = (i =? 0).
Proof. done. Qed.

(** Either the wave invariant, or termination has been detected. *)
Definition Good (f : Z -> TermState) (ms : list msg) : Prop :=
  (exists W sp sc pT cT, Inv W f ms sp sc pT cT) \/ Detected_inv f ms.

Lemma Inv_detected W f ms sp sc pT cT :
  Inv W f ms sp sc pT cT -> ready (f 0) = true -> is_term (f 0) ->
  Detected_inv
    (<[0 := setTerminated (with_g1 (g_prod1 (f 0) + l_prod (f 0)) (g_cons1 (f 0) + l_cons (f 0)) (f 0))]> f)
    (ms ++ emit 0 [Detected]).
Proof.
  intros HI Hr Ht. pose proof (root_detect _ _ _ _ _ _ _ HI Hr Ht) as Ho.
  destruct (root_complete _ _ _ _ _ _ _ HI Hr) as [Hall H0].
  destruct (no_counters _ _ _ _ _ _ _ HI H0) as (Hnc & _).
  pose proof (no_continues _ _ _ _ _ _ _ HI Hall) as Hncont.
  destruct (i_wave _ _ _ _ _ _ _ HI) as (_ & HW & _ & HN).
  set (x := setTerminated _). split.
  - by rewrite fn_lookup_insert.
  - destruct (out_insert f 0 x ltac:(lia)) as [H1 H2]. unfold out in *. rewrite H1, H2. simpl. lia.
  - intros i Hi. rewrite fn_lookup_insert_ne by lia. destruct (Hall i Hi) as [_ Hs].
    destruct (i_cur _ _ _ _ _ _ _ HI i ltac:(lia)) as (Hc & _ & Hle).
    pose proof (ncont_nonneg i ms). lia.
  - intros i Hi. destruct (decide (i = 0)) as [->|Hi0].
    + rewrite fn_lookup_insert. apply (i_num _ _ _ _ _ _ _ HI); lia.
    + rewrite fn_lookup_insert_ne by done. by apply (i_num _ _ _ _ _ _ _ HI).
  - intros m [Hm|Hm]%elem_of_app.
    + destruct m as [d p c|d w|d]; [by apply Hnc in Hm|by apply Hncont in Hm|eauto].
    + unfold emit in Hm. simpl in Hm. rewrite app_nil_r in Hm.
      apply list_elem_of_In, in_map_iff in Hm as (j & <- & _). eauto.
Qed.

Lemma settle_Good W f ms sp sc pT cT i r :
  Inv W f ms sp sc pT cT -> 0 <= i < N -> settles (is_root i) (f i) r ->
  Good (<[i := r.1]> f) (ms ++ emit i r.2).
Proof.
  intros HI Hi [|[x es] Hr Hp]; cbn [fst snd] in *.
  - rewrite insert_same. unfold emit. simpl. rewrite app_nil_r. left. by eexists _, _, _, _, _.
  - pose proof (i_num _ _ _ _ _ _ _ HI i Hi) as Hn. pose proof (nch_nonneg i) as Hn0.
    rewrite is_root_eqb in Hp. destruct (Z.eqb_spec i 0) as [->|Hne].
    + apply propagate_root in Hp as [(Ht & -> & ->)|(Ht & Hes & n & m & ->)]; [| |lia|done].
      * right. by eapply Inv_detected.
      * left. rewrite Hes. eexists _, _, _, _, _. by eapply Inv_next.
    + rewrite propagate_nonroot in Hp by (done || lia). injection Hp as <- <-.
      left. eexists _, _, _, _, _. eapply Inv_submit; [done|lia|done].
Qed.

(** A handler that changes node [i]'s state to [y] and then settles. *)
Lemma settle_Good' W f ms sp sc pT cT i y r :
  Inv W (<[i := y]> f) ms sp sc pT cT -> 0 <= i < N -> settles (is_root i) y r ->
  Good (<[i := r.1]> f) (ms ++ emit i r.2).
Proof.
  intros HI Hi Hs. rewrite <- (insert_twice f i r.1 y). eapply settle_Good; [done|done|].
  by rewrite fn_lookup_insert.
Qed.

Lemma same_wave_refl x : same_wave x x.
Proof. by repeat split. Qed.

Lemma Inv_quiet W f ms sp sc pT cT i y :
  Inv W f ms sp sc pT cT -> 0 <= i < N -> same_wave y (f i) ->
  l_prod y = l_prod (f i) -> l_cons y = l_cons (f i) -> Inv W (<[i := y]> f) ms sp sc pT cT.
Proof.
  intros HI Hi Hs Hp Hc. pose proof (i_out _ _ _ _ _ _ _ HI).
  eapply (Inv_local _ _ _ _ _ _ _ i y 0 0); try done; lia.
Qed.

Lemma activateState_settles b s r :
  0 <= num_children_ s -> activateState cfg log_exceeds b s = Ok r ->
  settles b (notifyLocalTerminated true (activateEpoch s)) r.
Proof.
  intros Hn. unfold activateState. rewrite readySubmitParent_Ok by done. rewrite res_bind_Ok.
  destruct (ready _) eqn:Hr; [by apply settles_go|]. intros [= <-]. constructor.
Qed.

Lemma releaseState_settles b s r :
  0 <= num_children_ s -> releaseState cfg log_exceeds b s = Ok r ->
  settles b (with_deps (deps_ s - 1) s) r.
Proof.
  intros Hn. unfold releaseState. simpl.
  destruct (_ =? 0); [by apply propagateIfReady_settles|]. intros [= <-]. constructor.
Qed.

Lemma external_settles b s p c r :
  0 <= num_children_ s -> propagateEpochExternalState cfg log_exceeds b s p c = Ok r ->
  settles b (with_wave (recv_child_count_ s + 1) (cur_wave_ s) (submitted_wave_ s)
               (with_g1 (g_prod1 s + p) (g_cons1 s + c) s)) r.
Proof.
  intros Hn H. unfold propagateEpochExternalState in H. apply bind_Ok_inv in H as (y & Hy & H).
  unfold notifyChildReceive in Hy. apply vtAssert_Ok in Hy as [_ [= <-]].
  by eapply propagateIfReady_settles in H.
Qed.

Lemma continue_settles b s w r :
  0 <= num_children_ s -> continueState cfg log_exceeds b s w = Ok r ->
  settles b (with_wave (recv_child_count_ s) w (submitted_wave_ s) s) r.
Proof.
  intros Hn H. unfold continueState in H. apply bind_Ok_inv in H as (y & Hy & H).
  unfold receiveContinueSignal in Hy. apply vtAssert_Ok in Hy as [_ [= <-]].
  by eapply propagateIfReady_settles in H.
Qed.

Lemma step_Inv s s' W sp sc pT cT :
  Inv W (st s) (net s) sp sc pT cT -> step s s' -> Good (st s') (net s').
Proof.
  intros HI Hs. assert (forall i, 0 <= i < N -> 0 <= num_children_ (st s i)) as Hn.
  { intros i Hi. rewrite (i_num _ _ _ _ _ _ _ HI i Hi). apply nch_nonneg. }
  destruct Hs as [s i k r [Hi _] Hk Hmay Hr|s i k r [Hi _] Hk Hr|s i a b [Hi _]|s i n [Hi _]
    |s i r [Hi _] Hr|s i r [Hi _] Hr|s i r [Hi _] Hr
    |s l1 i p c l2 r Hnet Hr|s l1 i w l2 r Hnet Hr|s l1 i l2 Hnet]; cbn [st net after] in *.
  - eapply settle_Good'; [|done|eapply propagateIfReady_settles, Hr; by apply Hn].
    apply (Inv_local _ _ _ _ _ _ _ i _ k 0 HI Hi); simpl; try done; try lia.
    + pose proof (i_out _ _ _ _ _ _ _ HI). lia.
    + intros _. destruct Hmay as [[? _]|?]; auto.
  - eapply settle_Good'; [|done|eapply propagateIfReady_settles, Hr; by apply Hn].
    apply (Inv_local _ _ _ _ _ _ _ i _ 0 k HI Hi); simpl; try done; lia.
  - eapply (settle_Good' _ _ _ _ _ _ _ i _ (_, [])); [|done|constructor].
    by apply (Inv_quiet _ _ _ _ _ _ _ i _ HI Hi).
  - eapply (settle_Good' _ _ _ _ _ _ _ i _ (_, [])); [|done|constructor].
    by apply (Inv_quiet _ _ _ _ _ _ _ i _ HI Hi).
  - eapply settle_Good'; [|done|eapply activateState_settles, Hr; by apply Hn].
    by apply (Inv_quiet _ _ _ _ _ _ _ i _ HI Hi).
  - eapply settle_Good'; [|done|eapply releaseState_settles, Hr; by apply Hn].
    by apply (Inv_quiet _ _ _ _ _ _ _ i _ HI Hi).
  - eapply settle_Good; [done|done|]. eapply propagateIfReady_settles, Hr. by apply Hn.
  - rewrite Hnet in HI. destruct (Inv_counter _ _ _ _ _ _ _ _ _ _ _ HI) as (_ & Hi & HI').
    eapply settle_Good'; [exact HI'|done|]. eapply external_settles, Hr. by apply Hn.
  - rewrite Hnet in HI. destruct (Inv_continue _ _ _ _ _ _ _ _ _ _ HI) as (_ & Hi & HI').
    eapply settle_Good'; [exact HI'|lia|]. eapply continue_settles, Hr. apply Hn. lia.
  - exfalso. eapply (i_live _ _ _ _ _ _ _ HI i). rewrite Hnet. elems.
Qed.

(** After detection nothing is ready, so the remaining steps are inert. *)
Lemma detected_not_ready f ms i : Detected_inv f ms -> 0 <= i < N -> ready (f i) = false.
Proof.
  intros [[Hd HN] _ Hs _ _] Hi. destruct (ready (f i)) eqn:Hr; [|done].
  apply ready_inv in Hr as (_ & _ & _ & _ & Hsub & Hdet).
  destruct (decide (i = 0)) as [->|]; [congruence|]. specialize (Hs i ltac:(lia)). lia.
Qed.

Lemma Detected_local f ms ms' i y :
  Detected_inv f ms -> 0 <= i < N -> l_prod y = l_prod (f i) -> l_cons y = l_cons (f i) ->
  submitted_wave_ y = submitted_wave_ (f i) -> cur_wave_ y = cur_wave_ (f i) ->
  num_children_ y = num_children_ (f i) -> term_detected_ y = term_detected_ (f i) ->
  (forall m, m ∈ ms' -> m ∈ ms) -> Detected_inv (<[i := y]> f) ms'.
Proof.
  intros [[Hd HN] Ho Hs Hn Hnet] Hi Hp Hc Hsub Hcur Hnum Hdet Hms. set (f' := <[i := y]> f).
  assert (forall j, submitted_wave_ (f' j) = submitted_wave_ (f j) /\
    cur_wave_ (f' j) = cur_wave_ (f j) /\ num_children_ (f' j) = num_children_ (f j) /\
    term_detected_ (f' j) = term_detected_ (f j)) as Hsame.
  { intros j. unfold f'. destruct (decide (j = i)) as [->|Hj];
      [by rewrite fn_lookup_insert|by rewrite fn_lookup_insert_ne]. }
  split.
  - by destruct (Hsame 0) as (_ & _ & _ & ->).
  - destruct (out_insert f i y Hi) as [H1 H2]. unfold out, f'. rewrite H1, H2.
    unfold out in Ho. lia.
  - intros j Hj. destruct (Hsame j) as (-> & -> & _). auto.
  - intros j Hj. destruct (Hsame j) as (_ & _ & -> & _). auto.
  - auto.
Qed.

Lemma step_Detected s s' :
  Detected_inv (st s) (net s) -> step s s' -> Detected_inv (st s') (net s').
Proof.
  intros HD Hs.
  assert (forall i, 0 <= i < N -> 0 <= num_children_ (st s i)) as Hn.
  { intros i Hi. rewrite (d_num _ _ HD i Hi). apply nch_nonneg. }
  assert (forall i y r, 0 <= i < N -> l_prod y = l_prod (st s i) -> l_cons y = l_cons (st s i) ->
    submitted_wave_ y = submitted_wave_ (st s i) -> cur_wave_ y = cur_wave_ (st s i) ->
    num_children_ y = num_children_ (st s i) -> term_detected_ y = term_detected_ (st s i) ->
    settles (is_root i) y r -> Detected_inv (<[i := r.1]> (st s)) (net s ++ emit i r.2)) as Hset.
  { intros i y r Hi Hp Hc Hsub Hcur Hnum Hdet Hst.
    pose proof (Detected_local _ _ (net s) i y HD Hi Hp Hc Hsub Hcur Hnum Hdet ltac:(done)) as HD'.
    destruct Hst as [|r Hr _].
    - cbn [fst snd]. unfold emit. simpl. by rewrite app_nil_r.
    - pose proof (detected_not_ready _ _ i HD' Hi) as Hr'. rewrite fn_lookup_insert in Hr'.
      congruence. }
  destruct Hs as [s i k r [Hi _] Hk Hmay Hr|s i k r [Hi _] Hk Hr|s i a b [Hi _]|s i n [Hi _]
    |s i r [Hi _] Hr|s i r [Hi _] Hr|s i r [Hi _] Hr
    |s l1 i p c l2 r Hnet Hr|s l1 i w l2 r Hnet Hr|s l1 i l2 Hnet]; cbn [st net after] in *.
  - exfalso. destruct Hmay as [[Hm Hd]|Hm]; [|rewrite (d_out _ _ HD) in Hm; lia].
    destruct (d_root _ _ HD) as [Hd0 _]. destruct (decide (i = 0)) as [->|]; [congruence|].
    pose proof (d_sub _ _ HD i ltac:(lia)). lia.
  - exfalso. rewrite (d_out _ _ HD) in Hk. lia.
  - by eapply (Hset i _ (_, [])); try apply settles_idle.
  - by eapply (Hset i _ (_, [])); try apply settles_idle.
  - by eapply (Hset i); try (eapply activateState_settles, Hr; by apply Hn).
  - by eapply (Hset i); try (eapply releaseState_settles, Hr; by apply Hn).
  - by eapply (Hset i); try (eapply propagateIfReady_settles, Hr; by apply Hn).
  - exfalso. destruct (d_net _ _ HD (MCounter i p c)) as [d ?]; [rewrite Hnet; elems|done].
  - exfalso. destruct (d_net _ _ HD (MContinue i w)) as [d ?]; [rewrite Hnet; elems|done].
  - destruct HD as [? ? ? ? Hm]. split; try done. intros m Hin. apply Hm. rewrite Hnet.
    by apply elem_of_middle.
Qed.

Lemma start_Inv active0 :
  0 < N -> Inv 0 (st (start active0)) [] (fun _ => 0) (fun _ => 0) (fun _ => 0) (fun _ => 0).
Proof.
  intros HN. assert (forall i, ~ full 0 i (st (start active0) i)) as Hnf by (intros i [_ H]; done).
  split; try done.
  - intros i Hi. by right.
  - intros d w H. by apply elem_of_nil in H.
  - intros d p c H. by apply elem_of_nil in H.
  - intros d H. by apply elem_of_nil in H.
  - intros i Hi. rewrite decide_False by apply Hnf. split; [done|].
    unfold cnt. rewrite zsum_0; [done|]. intros j Hj. rewrite bool_decide_false; [done|].
    intros [_ H]. by apply Hnf in H.
  - intros i Hi Hf. by apply Hnf in Hf.
  - unfold snap. rewrite !zsum_0; try done; intros j Hj; by apply decide_False.
  - unfold out. simpl. lia.
Qed.

Lemma reach_Good active0 s : 0 < N -> reach active0 s -> Good (st s) (net s).
Proof.
  intros HN. induction 1 as [|s s' _ IH Hs].
  - left. eexists _, _, _, _, _. by apply start_Inv.
  - destruct IH as [(W & sp & sc & pT & cT & HI)|HD]; [by eapply step_Inv|right; by eapply step_Detected].
Qed.

(** ** No assertion fires *)

(** The epoch of a state never changes. *)
Lemma propagate_dep b y r :
  0 <= num_children_ y -> propagateEpoch cfg log_exceeds b y = Ok r -> dep r.1 = dep y.
Proof.
  intros Hn. destruct (ready y) eqn:Hr.
  - destruct b, r as [x es].
    + intros [(_ & _ & ->)|(_ & _ & n & m & ->)]%propagate_root; done.
    + rewrite propagate_nonroot by done. by intros [= <- <-].
  - unfold propagateEpoch. rewrite readySubmitParent_Ok, Hr by done. by intros [= <-].
Qed.

Lemma settles_dep b y r : 0 <= num_children_ y -> settles b y r -> dep r.1 = dep y.
Proof. intros Hn [|r' _ H]; [done|]. by eapply propagate_dep. Qed.

Lemma Good_num f ms i : Good f ms -> 0 <= i < N -> 0 <= num_children_ (f i).
Proof.
  intros [(W & sp & sc & pT & cT & HI)|HD] Hi;
    [rewrite (i_num _ _ _ _ _ _ _ HI i Hi)|rewrite (d_num _ _ HD i Hi)]; apply nch_nonneg.
Qed.

Lemma Good_ctr f ms i p c : Good f ms -> MCounter i p c ∈ ms -> 0 <= i < N.
Proof.
  intros [(W & sp & sc & pT & cT & HI)|HD] Hin; [by eapply (i_ctr _ _ _ _ _ _ _ HI)|].
  by destruct (d_net _ _ HD _ Hin).
Qed.

Lemma Good_cont f ms i w : Good f ms -> MContinue i w ∈ ms -> 0 <= i < N.
Proof.
  intros [(W & sp & sc & pT & cT & HI)|HD] Hin.
  - destruct (i_cont _ _ _ _ _ _ _ HI _ _ Hin). lia.
  - by destruct (d_net _ _ HD _ Hin).
Qed.

Lemma reach_epoch active0 s i : 0 < N -> reach active0 s -> getEpoch (st s i) = ep.
Proof.
  intros HN Hre. revert i. induction Hre as [|s s' Hre IH Hs]; intros i; [done|].
  pose proof (reach_Good _ _ HN Hre) as HG.
  assert (forall k y r, 0 <= k < N -> getEpoch y = ep -> 0 <= num_children_ y ->
            settles (is_root k) y r -> getEpoch (<[k := r.1]> (st s) i) = ep) as H.
  { intros k y r Hk Hy Hn Hst. unfold getEpoch. destruct (decide (i = k)) as [->|Hne].
    - rewrite fn_lookup_insert. by rewrite (settles_dep _ _ _ Hn Hst).
    - rewrite fn_lookup_insert_ne by done. apply IH. }
  pose proof (fun k => Good_num _ _ k HG) as Hn.
  destruct Hs as [s k u r [Hi _] Hk Hmay Hr|s k u r [Hi _] Hk Hr|s k a b [Hi _]|s k n [Hi _]
    |s k r [Hi _] Hr|s k r [Hi _] Hr|s k r [Hi _] Hr
    |s l1 k p c l2 r Hnet Hr|s l1 k w l2 r Hnet Hr|s l1 k l2 Hnet]; cbn [st after] in *.
  - eapply H; [done| | |eapply propagateIfReady_settles, Hr; by apply Hn]; [apply IH|by apply Hn].
  - eapply H; [done| | |eapply propagateIfReady_settles, Hr; by apply Hn]; [apply IH|by apply Hn].
  - eapply (H k _ (_, [])); [done| | |constructor]; [apply IH|by apply Hn].
  - eapply (H k _ (_, [])); [done| | |constructor]; [apply IH|by apply Hn].
  - eapply H; [done| | |eapply activateState_settles, Hr; by apply Hn]; [apply IH|by apply Hn].
  - eapply H; [done| | |eapply releaseState_settles, Hr; by apply Hn]; [apply IH|by apply Hn].
  - eapply H; [done| | |eapply propagateIfReady_settles, Hr; by apply Hn]; [apply IH|by apply Hn].
  - assert (0 <= k < N) by (eapply Good_ctr; [done|rewrite Hnet; elems]).
    eapply H; [done| | |eapply external_settles, Hr; by apply Hn]; [apply IH|by apply Hn].
  - assert (0 <= k < N) by (eapply Good_cont; [done|rewrite Hnet; elems]).
    eapply H; [done| | |eapply continue_settles, Hr; by apply Hn]; [apply IH|by apply Hn].
  - apply IH.
Qed.

(** The epoch is not the one of the hang detector, or hangs do not abort. *)
Definition no_hang : Prop := ep <> no_epoch \/ vt_no_detect_hang cfg = true.

Lemma propagate_total b y :
  no_hang -> getEpoch y = ep -> 0 <= num_children_ y ->
  exists r, propagateEpoch cfg log_exceeds b y = Ok r.
Proof.
  intros Hh He Hn. unfold propagateEpoch. rewrite readySubmitParent_Ok, res_bind_Ok by done.
  destruct (ready y); [|eauto]. destruct b; cbn [negb]; [|eauto].
  set (s1 := with_g1 _ _ y). change (getEpoch s1) with (getEpoch y). rewrite He.
  assert (forall b, negb (vt_no_detect_hang cfg) && (b && (ep =? no_epoch)) = false) as Hf.
  { intros b. destruct Hh as [Hh%Z.eqb_neq| ->]; [rewrite Hh|done].
    by rewrite andb_false_r, andb_false_r. }
  rewrite Hf. repeat case_match; eauto.
Qed.

Lemma propagateIfReady_total b y :
  no_hang -> getEpoch y = ep -> 0 <= num_children_ y ->
  exists r, propagateIfReady cfg log_exceeds b y = Ok r.
Proof.
  intros Hh He Hn. destruct (ready y) eqn:Hr.
  - rewrite propagateIfReady_ready by done. by apply propagate_total.
  - rewrite propagateIfReady_idle by done. eauto.
Qed.

Lemma counter_total active0 s i p c :
  0 < N -> no_hang -> reach active0 s -> MCounter i p c ∈ net s ->
  exists r, propagateEpochExternalState cfg log_exceeds (is_root i) (st s i) p c = Ok r.
Proof.
  intros HN Hh Hre Hin. pose proof (reach_Good _ _ HN Hre) as HG.
  pose proof (Good_ctr _ _ _ _ _ HG Hin) as Hi. pose proof (Good_num _ _ _ HG Hi) as Hn.
  apply list_elem_of_split in Hin as (l1 & l2 & Hnet).
  destruct HG as [(W & sp & sc & pT & cT & HI)|HD];
    [|by destruct (d_net _ _ HD (MCounter i p c)) as [d ?]; [rewrite Hnet; elems|]].
  rewrite Hnet in HI. destruct (Inv_counter _ _ _ _ _ _ _ _ _ _ _ HI) as (Hle & _).
  unfold propagateEpochExternalState, notifyChildReceive.
  rewrite vtAssert_true by (simpl; lia). rewrite res_bind_Ok.
  apply propagateIfReady_total; [done|by apply reach_epoch with active0|done].
Qed.

Lemma continue_total active0 s i w :
  0 < N -> no_hang -> reach active0 s -> MContinue i w ∈ net s ->
  exists r, continueState cfg log_exceeds (is_root i) (st s i) w = Ok r.
Proof.
  intros HN Hh Hre Hin. pose proof (reach_Good _ _ HN Hre) as HG.
  pose proof (Good_cont _ _ _ _ HG Hin) as Hi. pose proof (Good_num _ _ _ HG Hi) as Hn.
  apply list_elem_of_split in Hin as (l1 & l2 & Hnet).
  destruct HG as [(W & sp & sc & pT & cT & HI)|HD];
    [|by destruct (d_net _ _ HD (MContinue i w)) as [d ?]; [rewrite Hnet; elems|]].
  rewrite Hnet in HI. destruct (Inv_continue _ _ _ _ _ _ _ _ _ _ HI) as (Heq & _).
  unfold continueState, receiveContinueSignal. rewrite vtAssert_true by lia. rewrite res_bind_Ok.
  apply propagateIfReady_total; [done|by apply reach_epoch with active0|done].
Qed.

(** ** Progress *)

(** Every node has finished the epoch locally and holds no dependency. *)
Definition all_quiet (f : Z -> TermState) : Prop :=
  forall i, 0 <= i < N -> epoch_active_ (f i) = true /\ local_terminated_ (f i) = true /\
    deps_ (f i) = 0.

Lemma Inv_progress W f ms sp sc pT cT :
  Inv W f ms sp sc pT cT -> all_quiet f ->
  (exists i, 0 <= i < N /\ ready (f i) = true) \/
  (exists d p c, MCounter d p c ∈ ms) \/ (exists d w, MContinue d w ∈ ms).
Proof.
  intros HI Hq. destruct (i_wave _ _ _ _ _ _ _ HI) as (HcW & _ & Hs0 & HN).
  destruct (decide (Exists (fun i => ready (f i) = true) (nodes_of N))) as [Hex|Hno].
  { apply Exists_exists in Hex as (i & Hi%elem_of_nodes & ?). eauto. }
  assert (forall i, 0 <= i < N -> ready (f i) = false) as Hnr.
  { intros i Hi. destruct (ready (f i)) eqn:E; [|done]. exfalso. apply Hno, Exists_exists.
    exists i. by rewrite elem_of_nodes. }
  right. destruct ms as [|[d p c|d w|d] ms'].
  2: { left. exists d, p, c. elems. }
  2: { right. exists d, w. elems. }
  2: { exfalso. eapply (i_live _ _ _ _ _ _ _ HI d). elems. }
  exfalso. assert (forall m : msg, m ∈ [] -> False) as Hnil by (intros m; apply not_elem_nil).
  assert (forall i, 0 <= i < N -> inflight i [] = 0 /\ cur_wave_ (f i) = W) as Hz.
  { intros i Hi. destruct (i_cur _ _ _ _ _ _ _ HI i Hi) as (Hc & _).
    assert (ncont i [] = 0) by (apply lsum_0; intros m Hm; by destruct (Hnil m Hm)).
    split; [apply lsum_0; intros m Hm; by destruct (Hnil m Hm)|lia]. }
  assert (forall i, 0 <= i < N -> ~ full W i (f i) ->
            (forall c, i < c < N -> full W c (f c)) -> False) as Hstuck.
  { intros i Hi Hnf Hch. destruct (i_recv _ _ _ _ _ _ _ HI i Hi) as [_ Hr].
    rewrite decide_False in Hr by done. destruct (Hz i Hi) as [Hi0 Hci]. rewrite Hi0 in Hr.
    assert (cnt W i f = nch i) as Hcn.
    { rewrite nch_sum by lia. apply zsum_ext. intros c Hc. f_equal. apply bool_decide_ext. split.
      - intros [? [? ?]]. done.
      - intros [Hc0 Hp]. split; [done|]. apply Hch. pose proof (Tree.parentOf_bounds c Hc0). lia. }
    destruct (Hq i Hi) as (Ha & Hl & Hd). pose proof (Hnr i Hi) as Hf.
    rewrite ready_intro in Hf; try done.
    - rewrite (i_num _ _ _ _ _ _ _ HI i Hi). lia.
    - destruct (decide (i = 0)) as [->|Hi1]; [lia|].
      destruct (i_sub _ _ _ _ _ _ _ HI i ltac:(lia)); [|lia].
      exfalso. apply Hnf. split; [lia|done].
    - by apply (i_det _ _ _ _ _ _ _ HI). }
  assert (forall k : nat, forall i, N - Z.of_nat k <= i -> 0 < i < N -> full W i (f i)) as Hall.
  { induction k as [|k IH]; intros i Hk Hi; [lia|].
    destruct (decide (full W i (f i))) as [|Hnf]; [done|]. exfalso.
    apply (Hstuck i); [lia|done|]. intros c Hc. apply IH; lia. }
  apply (Hstuck 0); [lia|unfold full; lia|]. intros c Hc. apply (Hall (Z.to_nat N)); lia.
Qed.

(** ** Detection is reached

    With nothing outstanding the program under watch can do nothing more; the
    protocol's own steps are deliveries and the propagation of a ready node. *)

Inductive pstep : Sys -> Sys -> Prop :=
  | p_maybe s i r : live s i -> ready (st s i) = true ->
      propagateIfReady cfg log_exceeds (is_root i) (st s i) = Ok r ->
      pstep s (after s i r (net s))
  | p_counter s l1 i p c l2 r : net s = l1 ++ MCounter i p c :: l2 ->
      propagateEpochExternalState cfg log_exceeds (is_root i) (st s i) p c = Ok r ->
      pstep s (after s i r (l1 ++ l2))
  | p_continue s l1 i w l2 r : net s = l1 ++ MContinue i w :: l2 ->
      continueState cfg log_exceeds (is_root i) (st s i) w = Ok r ->
      pstep s (after s i r (l1 ++ l2)).

Lemma pstep_step s s' : pstep s s' -> step s s'.
Proof. destruct 1; [by apply w_maybe|by eapply w_counter|by eapply w_continue]. Qed.

(** Work left in the wave: nodes that have not submitted weigh 2, a message 1. *)
Definition owes (W i : Z) (x : TermState) : Z :=
  if decide (0 < i /\ submitted_wave_ x <> W) then 2 else 0.
Definition pending (W : Z) (f : Z -> TermState) : Z := zsum N (fun i => owes W i (f i)).
Definition traffic (ms : list msg) : Z :=
  lsum (fun m => match m with MTerminated _ => 0 | _ => 1 end) ms.
Definition wave_cost : Z := 3 * N + 1.
Definition work (r W : Z) (f : Z -> TermState) (ms : list msg) : Z :=
  wave_cost * r + pending W f + traffic ms.

(** [r] more waves suffice: 3 in general; 2 when the snapshots of this wave are
    exact; 1 when those of the previous one were as well. *)
Definition phase (r W : Z) (f : Z -> TermState) (sp sc : Z -> Z) : Prop :=
  1 <= r <= 3 /\ out f = 0 /\
  (r <= 2 -> forall i, 0 < i < N -> full W i (f i) -> sp i = l_prod (f i) /\ sc i = l_cons (f i)) /\
  (r <= 1 -> g_prod2 (f 0) = zsum N (fun i => l_prod (f i)) /\
             g_cons2 (f 0) = zsum N (fun i => l_cons (f i))).

Definition Phased (k : Z) (f : Z -> TermState) (ms : list msg) : Prop :=
  exists r W sp sc pT cT, Inv W f ms sp sc pT cT /\ phase r W f sp sc /\ work r W f ms = k.

Lemma pending_bounds W f : 0 < N -> 0 <= pending W f <= 2 * N.
Proof.
  intros HN. assert (forall i x, 0 <= owes W i x <= 2) as H.
  { intros i x. unfold owes. case_decide; lia. }
  split; [apply zsum_nonneg; intros; apply H|].
  transitivity (zsum N (fun _ => 2)); [apply zsum_le; intros; apply H|].
  rewrite zsum_const by lia. lia.
Qed.

Lemma traffic_app a b : traffic (a ++ b) = traffic a + traffic b.
Proof. apply lsum_app. Qed.

Lemma traffic_nonneg ms : 0 <= traffic ms.
Proof. apply lsum_nonneg. intros [] _; lia. Qed.

Lemma traffic_bcast w : 0 < N -> traffic (emit1 0 (Continue w)) <= N.
Proof.
  intros HN. simpl. unfold others, traffic.
  assert (forall l, lsum (fun m => match m with MTerminated _ => 0 | _ => 1 end)
            (map (fun j => MContinue j w) (filter (fun j => j <> 0) l)) <= Z.of_nat (length l)) as H.
  { induction l as [|j l IH]; [done|]. rewrite filter_cons. cbn [length].
    destruct (decide (j <> 0)); cbn [map]; rewrite ?lsum_cons; lia. }
  specialize (H (nodes_of N)). unfold nodes_of in H at 2. rewrite length_seqZ in H. lia.
Qed.

(** One propagation of a ready node. *)
Lemma settle_phase r W f ms sp sc pT cT i x es :
  Inv W f ms sp sc pT cT -> phase r W f sp sc -> 0 <= i < N ->
  ready (f i) = true -> propagateEpoch cfg log_exceeds (is_root i) (f i) = Ok (x, es) ->
  Detected_inv (<[i := x]> f) (ms ++ emit i es) \/
  exists k, k < work r W f ms /\ Phased k (<[i := x]> f) (ms ++ emit i es).
Proof.
  intros HI (Hr13 & Ho & He2 & He1) Hi Hr Hp.
  pose proof (i_num _ _ _ _ _ _ _ HI i Hi) as Hn. pose proof (nch_nonneg i) as Hn0.
  destruct (i_wave _ _ _ _ _ _ _ HI) as (_ & HW & _ & HN).
  rewrite is_root_eqb in Hp. destruct (Z.eqb_spec i 0) as [->|Hne].
  - apply propagate_root in Hp as [(Ht & -> & ->)|(Ht & Hes & n & m & ->)]; [| |lia|done].
    { left. by eapply Inv_detected. }
    right. destruct (root_sums _ _ _ _ _ _ _ HI Hr) as [HP HC].
    destruct (root_complete _ _ _ _ _ _ _ HI Hr) as [Hall _].
    assert (r <= 2 -> g_prod1 (f 0) + l_prod (f 0) = zsum N (fun i => l_prod (f i)) /\
                      g_cons1 (f 0) + l_cons (f 0) = zsum N (fun i => l_cons (f i))) as Hex.
    { intros H2. specialize (He2 H2). rewrite HP, HC.
      split; apply zsum_ext; intros j Hj; case_decide; try done;
        apply He2; try lia; apply Hall; lia. }
    assert (r <> 1) as Hr1.
    { intros ->. destruct (He1 ltac:(lia)) as [H1 H2]. destruct (Hex ltac:(lia)) as [H3 H4].
      apply Ht. unfold is_term. unfold out in Ho. lia. }
    pose proof (Inv_next _ _ _ _ _ _ _ n m HI Hr) as HI'. cbv zeta in HI'.
    set (x := with_wave _ _ _ _) in *.
    rewrite Hes. eexists. split; [|eexists (r - 1), _, _, _, _, _; split; [exact HI'|]; split; [|reflexivity]].
    + unfold work. rewrite traffic_app. pose proof (traffic_bcast (cur_wave_ (f 0) + 1) HN).
      pose proof (pending_bounds (W + 1) (<[0:=x]> f) HN). pose proof (pending_bounds W f HN).
      pose proof (traffic_nonneg ms). unfold wave_cost.
      assert (traffic ms = 0); [|lia].
      destruct (no_counters _ _ _ _ _ _ _ HI (proj2 (root_complete _ _ _ _ _ _ _ HI Hr))) as (Hnc & _).
      apply lsum_0. intros [d p c|d w|d] Hin; [by apply Hnc in Hin| |done].
      by apply (no_continues _ _ _ _ _ _ _ HI Hall) in Hin.
    + destruct (out_insert f 0 x ltac:(lia)) as [H1 H2]. split; [lia|]. split; [|split].
      * unfold out in *. rewrite H1, H2. simpl. lia.
      * intros _ j Hj [_ Hf]. rewrite fn_lookup_insert_ne in Hf by lia.
        destruct (Hall j Hj) as [_ ?]. lia.
      * intros Hle. rewrite fn_lookup_insert. destruct (Hex ltac:(lia)) as [H3 H4].
        rewrite H1, H2. simpl. lia.
  - right. rewrite propagate_nonroot in Hp by (done || lia). injection Hp as <- <-.
    pose proof (Inv_submit _ _ _ _ _ _ _ i HI ltac:(lia) Hr) as HI'. cbv zeta in HI'.
    destruct (ready_unsubmitted _ _ _ _ _ _ _ i HI ltac:(lia) Hr) as (Hsi & _ & Hnf & _).
    set (x := with_wave _ _ _ _) in *.
    eexists. split; [|eexists r, _, _, _, _, _; split; [exact HI'|]; split; [|reflexivity]].
    + unfold work. rewrite traffic_app. unfold pending.
      rewrite (zsum_insert N (owes W)) by lia. unfold owes at 2 3.
      rewrite decide_True by lia. rewrite decide_False by (simpl; lia).
      unfold traffic at 2. simpl. lia.
    + destruct (out_insert f i x ltac:(lia)) as [H1 H2]. split; [lia|]. split; [|split].
      * unfold out in *. rewrite H1, H2. simpl. lia.
      * intros Hle j Hj Hf. destruct (decide (j = i)) as [->|Hji].
        -- by rewrite !fn_lookup_insert.
        -- rewrite !fn_lookup_insert_ne in * by done. auto.
      * intros Hle. rewrite fn_lookup_insert_ne by lia. rewrite H1, H2.
        destruct (He1 Hle). simpl. lia.
Qed.

Lemma phase_local r W f sp sc i y :
  phase r W f sp sc -> 0 <= i < N -> l_prod y = l_prod (f i) -> l_cons y = l_cons (f i) ->
  submitted_wave_ y = submitted_wave_ (f i) -> g_prod2 y = g_prod2 (f i) ->
  g_cons2 y = g_cons2 (f i) ->
  phase r W (<[i := y]> f) sp sc /\ pending W (<[i := y]> f) = pending W f.
Proof.
  intros (Hr & Ho & He2 & He1) Hi Hp Hc Hs Hg Hg'.
  destruct (out_insert f i y Hi) as [H1 H2].
  assert (forall j, l_prod (<[i := y]> f j) = l_prod (f j) /\ l_cons (<[i := y]> f j) = l_cons (f j) /\
    submitted_wave_ (<[i := y]> f j) = submitted_wave_ (f j) /\
    g_prod2 (<[i := y]> f j) = g_prod2 (f j) /\ g_cons2 (<[i := y]> f j) = g_cons2 (f j)) as Hsame.
  { intros j. destruct (decide (j = i)) as [->|Hj];
      [by rewrite fn_lookup_insert|by rewrite fn_lookup_insert_ne]. }
  split; [|unfold pending; rewrite (zsum_insert N (owes W)) by done; unfold owes; rewrite Hs; lia].
  split; [done|]. split; [|split].
  - unfold out in *. lia.
  - intros Hle j Hj Hf. destruct (Hsame j) as (-> & -> & Hsj & _).
    apply He2; [done|done|]. unfold full in *. by rewrite <- Hsj.
  - intros Hle. destruct (Hsame 0) as (_ & _ & _ & -> & ->). rewrite H1, H2.
    destruct (He1 Hle). lia.
Qed.

(** Updating node [i] to [y] and settling, when the update already did work. *)
Lemma settle_phased k r W f ms sp sc pT cT i y res' :
  Inv W (<[i := y]> f) ms sp sc pT cT -> phase r W (<[i := y]> f) sp sc -> 0 <= i < N ->
  settles (is_root i) y res' -> work r W (<[i := y]> f) ms < k ->
  Detected_inv (<[i := res'.1]> f) (ms ++ emit i res'.2) \/
  exists k', k' < k /\ Phased k' (<[i := res'.1]> f) (ms ++ emit i res'.2).
Proof.
  intros HI Hph Hi Hst Hk. rewrite <- (insert_twice f i res'.1 y).
  destruct Hst as [|[x es] Hr Hp]; cbn [fst snd].
  - right. eexists. split; [exact Hk|]. unfold emit. simpl. rewrite app_nil_r, insert_twice.
    by eexists _, _, _, _, _, _.
  - destruct (settle_phase _ _ _ _ _ _ _ _ i x es HI Hph Hi) as [HD|(k' & Hk' & HP)];
      rewrite ?fn_lookup_insert; try done; [by left|].
    right. exists k'. split; [lia|done].
Qed.

Lemma pstep_phased k s s' :
  Phased k (st s) (net s) -> pstep s s' ->
  Detected_inv (st s') (net s') \/ exists k', k' < k /\ Phased k' (st s') (net s').
Proof.
  intros (r & W & sp & sc & pT & cT & HI & Hph & <-) Hs.
  assert (forall i, 0 <= i < N -> 0 <= num_children_ (st s i)) as Hn.
  { intros i Hi. rewrite (i_num _ _ _ _ _ _ _ HI i Hi). apply nch_nonneg. }
  destruct Hs as [s i q [Hi _] Hr Hq|s l1 i p c l2 q Hnet Hq|s l1 i w l2 q Hnet Hq];
    cbn [st net after] in *.
  - rewrite propagateIfReady_ready in Hq by (done || by apply Hn). destruct q as [x es].
    by eapply settle_phase in Hq.
  - rewrite Hnet in HI. destruct (Inv_counter _ _ _ _ _ _ _ _ _ _ _ HI) as (_ & Hi & HI').
    cbv zeta in HI'. set (y := with_wave _ _ _ _) in HI'.
    destruct (phase_local _ _ _ _ _ i y Hph Hi) as [Hph' Hpend]; try done.
    eapply (settle_phased _ r W); [exact HI'|exact Hph'|done|eapply external_settles, Hq; by apply Hn|].
    unfold work. rewrite Hpend, Hnet, !traffic_app. unfold traffic at 4. rewrite lsum_cons.
    unfold traffic. lia.
  - rewrite Hnet in HI. destruct (Inv_continue _ _ _ _ _ _ _ _ _ _ HI) as (_ & Hi & HI').
    cbv zeta in HI'. set (y := with_wave _ _ _ _) in HI'.
    destruct (phase_local _ _ _ _ _ i y Hph ltac:(lia)) as [Hph' Hpend]; try done.
    eapply (settle_phased _ r W); [exact HI'|exact Hph'|lia|eapply continue_settles, Hq; apply Hn; lia|].
    unfold work. rewrite Hpend, Hnet, !traffic_app. unfold traffic at 4. rewrite lsum_cons.
    unfold traffic. lia.
Qed.

Lemma detected_no_pstep s s' : Detected_inv (st s) (net s) -> ~ pstep s s'.
Proof.
  intros HD Hs. destruct Hs as [s i q [Hi _] Hr Hq|s l1 i p c l2 q Hnet Hq|s l1 i w l2 q Hnet Hq].
  - rewrite (detected_not_ready _ _ i HD Hi) in Hr. done.
  - destruct (d_net _ _ HD (MCounter i p c)) as [d ?]; [rewrite Hnet; elems|done].
  - destruct (d_net _ _ HD (MContinue i w)) as [d ?]; [rewrite Hnet; elems|done].
Qed.

Lemma pstep_bound k n s s' :
  Phased k (st s) (net s) -> 0 < N -> nsteps pstep n s s' -> Z.of_nat n <= k.
Proof.
  intros HP HN Hs. revert k HP. induction Hs as [s|n s s1 s' H1 Hs IH]; intros k HP.
  - destruct HP as (r & W & sp & sc & pT & cT & _ & (Hr & _) & <-). unfold work, wave_cost.
    pose proof (pending_bounds W (st s) HN). pose proof (traffic_nonneg (net s)). lia.
  - assert (1 <= k).
    { destruct HP as (r & W & sp & sc & pT & cT & _ & (Hr & _) & <-). unfold work, wave_cost.
      pose proof (pending_bounds W (st s) HN). pose proof (traffic_nonneg (net s)). nia. }
    destruct (pstep_phased k s s1 HP H1) as [HD|(k' & Hk' & HP')].
    + inversion Hs as [|? ? s2 ? H2 _]; subst; [lia|]. by apply detected_no_pstep in H2.
    + specialize (IH k' HP'). lia.
Qed.

(** Quietness is not touched by the protocol. *)
Lemma settles_flags b y r :
  0 <= num_children_ y -> settles b y r ->
  epoch_active_ r.1 = epoch_active_ y /\ local_terminated_ r.1 = local_terminated_ y /\
  deps_ r.1 = deps_ y.
Proof.
  intros Hn [|[x es] Hr H]; [done|]. destruct b.
  - by apply propagate_root in H as [(_ & _ & ->)|(_ & _ & n & m & ->)].
  - rewrite propagate_nonroot in H by done. by injection H as <- <-.
Qed.

Lemma pstep_quiet s s' : Good (st s) (net s) -> pstep s s' -> all_quiet (st s) -> all_quiet (st s').
Proof.
  intros HG Hs Hq.
  assert (forall k y r, 0 <= k < N -> 0 <= num_children_ y ->
    epoch_active_ y = epoch_active_ (st s k) -> local_terminated_ y = local_terminated_ (st s k) ->
    deps_ y = deps_ (st s k) -> settles (is_root k) y r -> all_quiet (<[k := r.1]> (st s))) as H.
  { intros k y r Hk Hn Ha Hl Hd Hst i Hi. destruct (decide (i = k)) as [->|Hne].
    - rewrite fn_lookup_insert. destruct (settles_flags _ _ _ Hn Hst) as (-> & -> & ->).
      rewrite Ha, Hl, Hd. by apply Hq.
    - rewrite fn_lookup_insert_ne by done. by apply Hq. }
  pose proof (fun k => Good_num _ _ k HG) as Hn.
  destruct Hs as [s i q [Hi _] Hr Hx|s l1 i p c l2 q Hnet Hx|s l1 i w l2 q Hnet Hx];
    cbn [st after] in *.
  - eapply H; [done| | | | |eapply propagateIfReady_settles, Hx; by apply Hn]; try done. by apply Hn.
  - assert (0 <= i < N) by (eapply Good_ctr; [done|rewrite Hnet; elems]).
    eapply H; [done| | | | |eapply external_settles, Hx; by apply Hn]; try done. by apply Hn.
  - assert (0 <= i < N) by (eapply Good_cont; [done|rewrite Hnet; elems]).
    eapply H; [done| | | | |eapply continue_settles, Hx; by apply Hn]; try done. by apply Hn.
Qed.

Lemma reach_pstep active0 s s' : reach active0 s -> rtc pstep s s' -> reach active0 s'.
Proof.
  intros Hre Hs. induction Hs as [s|s s1 s' H1 _ IH]; [done|].
  apply IH. eapply reach_step; [done|]. by apply pstep_step.
Qed.

(** A node that has been told of termination was told the truth. *)
Lemma reach_done active0 s :
  0 < N -> reach active0 s -> (forall i, done_ s i = false) \/ Detected_inv (st s) (net s).
Proof.
  intros HN Hre. induction Hre as [|s s' Hre IH Hs]; [by left|].
  destruct IH as [Hd|HD]; [|right; by eapply step_Detected].
  destruct (reach_Good _ _ HN Hre) as [(W & sp & sc & pT & cT & HI)|HD];
    [|right; by eapply step_Detected].
  left. intros j. destruct Hs as [| | | | | | | | |s l1 i l2 Hnet]; try apply Hd.
  exfalso. eapply (i_live _ _ _ _ _ _ _ HI i). rewrite Hnet. elems.
Qed.

(** Where nothing is left to do, termination has been detected. *)
Lemma pstep_progress active0 s :
  0 < N -> no_hang -> reach active0 s -> all_quiet (st s) ->
  (exists s', pstep s s') \/ term_detected_ (st s 0) = true.
Proof.
  intros HN Hh Hre Hq. destruct (reach_done _ _ HN Hre) as [Hd|HD]; [|right; apply HD].
  destruct (reach_Good _ _ HN Hre) as [(W & sp & sc & pT & cT & HI)|HD]; [|right; apply HD].
  left. destruct (Inv_progress _ _ _ _ _ _ _ HI Hq)
    as [(i & Hi & Hr)|[(d & p & c & Hin)|(d & w & Hin)]].
  - destruct (propagateIfReady_total (is_root i) (st s i) Hh) as [r Hp];
      [by apply reach_epoch with active0| |].
    { rewrite (i_num _ _ _ _ _ _ _ HI i Hi). apply nch_nonneg. }
    eexists. eapply p_maybe; [by split|done|exact Hp].
  - destruct (counter_total _ _ _ _ _ HN Hh Hre Hin) as [r Hp].
    apply list_elem_of_split in Hin as (l1 & l2 & Hnet). eexists. by eapply p_counter.
  - destruct (continue_total _ _ _ _ HN Hh Hre Hin) as [r Hp].
    apply list_elem_of_split in Hin as (l1 & l2 & Hnet). eexists. by eapply p_continue.
Qed.

(** Any state of a reachable system with nothing outstanding is in phase 3. *)
Lemma Inv_phased W s sp sc pT cT :
  Inv W (st s) (net s) sp sc pT cT -> out (st s) = 0 ->
  Phased (work 3 W (st s) (net s)) (st s) (net s).
Proof.
  intros HI Ho. eexists 3, _, _, _, _, _. split; [exact HI|]. split; [|done].
  split; [lia|]. split; [done|]. split; lia.
Qed.

Lemma traffic_length ms : traffic ms <= Z.of_nat (length ms).
Proof. induction ms as [|[] ms IH]; unfold traffic in *; simpl in *; lia. Qed.

(** ** Running a schedule *)

Inductive action :=
  | AProduce (i k : Z) | AConsume (i k : Z) | AActivate (i : Z) | AMaybe (i : Z)
  | ADeliver (n : nat).         (* the n-th message in flight *)

#[local] Instance live_dec s i : Decision (live s i).
Proof. unfold live. apply _. Defined.
#[local] Instance may_produce_dec s i : Decision (may_produce s i).
Proof. unfold may_produce. apply _. Defined.

Definition handled (s : Sys) (i : Z) (m : res (TermState * list event)) (rest : list msg)
    : option Sys :=
  match m with Ok r => Some (after s i r rest) | Stop _ => None end.

Definition exec1 (s : Sys) (a : action) : option Sys :=
  match a with
  | AProduce i k =>
      if decide (live s i /\ 0 < k /\ may_produce s i)
      then handled s i (produceConsumeState cfg log_exceeds (is_root i) (st s i) k true) (net s)
      else None
  | AConsume i k =>
      if decide (live s i /\ 0 < k <= out (st s))
      then handled s i (produceConsumeState cfg log_exceeds (is_root i) (st s i) k false) (net s)
      else None
  | AActivate i =>
      if decide (live s i)
      then handled s i (activateState cfg log_exceeds (is_root i) (st s i)) (net s) else None
  | AMaybe i =>
      if decide (live s i)
      then handled s i (propagateIfReady cfg log_exceeds (is_root i) (st s i)) (net s) else None
  | ADeliver n =>
      let rest := take n (net s) ++ drop (S n) (net s) in
      match net s !! n with
      | Some (MCounter i p c) =>
          handled s i (propagateEpochExternalState cfg log_exceeds (is_root i) (st s i) p c) rest
      | Some (MContinue i w) =>
          handled s i (continueState cfg log_exceeds (is_root i) (st s i) w) rest
      | Some (MTerminated i) => Some (MkSys (st s) rest (<[i := true]> (done_ s)))
      | None => None
      end
  end.

Fixpoint exec (s : Sys) (l : list action) : option Sys :=
  match l with
  | [] => Some s
  | a :: l => match exec1 s a with Some s' => exec s' l | None => None end
  end.

Lemma exec1_step s a s' : exec1 s a = Some s' -> step s s'.
Proof.
  assert (forall i m rest, handled s i m rest = Some s' ->
            exists r, m = Ok r /\ s' = after s i r rest) as Hh.
  { intros i [r|e] rest; simpl; [intros [= <-]; eauto|done]. }
  destruct a as [i k|i k|i|i|n]; simpl.
  - case_decide as H; [|done]. intros (r & Hr & ->)%Hh. destruct H as (? & ? & ?).
    by apply (w_produce s i k r).
  - case_decide as H; [|done]. intros (r & Hr & ->)%Hh. destruct H as [? ?].
    by apply (w_consume s i k r).
  - case_decide as H; [|done]. intros (r & Hr & ->)%Hh. by apply w_activate.
  - case_decide as H; [|done]. intros (r & Hr & ->)%Hh. by apply w_maybe.
  - destruct (net s !! n) as [m|] eqn:Hn; [|done].
    pose proof (take_drop_middle _ _ _ Hn) as Hnet. symmetry in Hnet.
    destruct m as [i p c|i w|i].
    + intros (r & Hr & ->)%Hh. eapply w_counter; [exact Hnet|exact Hr].
    + intros (r & Hr & ->)%Hh. eapply w_continue; [exact Hnet|exact Hr].
    + intros [= <-]. by eapply w_terminated.
Qed.

Lemma exec_reach active0 l s s' : reach active0 s -> exec s l = Some s' -> reach active0 s'.
Proof.
  revert s. induction l as [|a l IH]; intros s Hre; simpl; [by intros [= <-]|].
  destruct (exec1 s a) as [s1|] eqn:H1; [|done]. apply IH.
  eapply reach_step; [done|]. by eapply exec1_step.
Qed.

End wave.
End TermWave.

(** ** What the detector promises *)
Module TermWaveSpec.
Import TermWave.

(** C1: Wave-based detection is sound. Take any number of nodes, any interleaving
    of production, consumption, activation, dependency changes and deliveries in
    which nodes that have contributed to a wave only produce while a unit is
    outstanding. Once the root has detected termination, or any node has been
    told of it, no unit is outstanding, and none is in any later state. *)
Theorem detection_is_safe N ep cfg log_exceeds active0 s s' :
  0 < N -> reach N ep cfg log_exceeds active0 s ->
  (term_detected_ (st s 0) = true \/ exists i, done_ s i = true) ->
  rtc (step N cfg log_exceeds) s s' ->
  out N (st s') = 0 /\ term_detected_ (st s' 0) = true.
Proof.
  intros HN Hre Hd Hs.
  assert (Detected_inv N (st s) (net s)) as HD.
  { destruct Hd as [Hd|[i Hi]].
    - destruct (reach_Good _ _ _ _ _ _ HN Hre) as [(W & sp & sc & pT & cT & HI)|HD]; [|done].
      rewrite (i_det _ _ _ _ _ _ _ _ HI 0) in Hd by lia. done.
    - destruct (reach_done _ _ _ _ _ _ HN Hre) as [Hn|HD]; [|done]. by rewrite Hn in Hi. }
  clear Hre Hd. induction Hs as [s|s s1 s' H1 _ IH].
  - split; [apply HD|apply HD].
  - apply IH. by eapply step_Detected.
Qed.

(** C32: None of the detector's assertions ever fires on reachable states: a
    counter is never delivered to a node whose children have all reported (so
    [recv_child_count_ <= num_children_]), a continue signal always carries the
    wave after the node's own, and the handlers that follow return. *)
Theorem wave_never_asserts N ep cfg log_exceeds active0 s :
  0 < N -> (ep <> no_epoch \/ vt_no_detect_hang cfg = true) ->
  reach N ep cfg log_exceeds active0 s ->
  (forall i p c, MCounter i p c ∈ net s -> exists r,
     propagateEpochExternalState cfg log_exceeds (is_root N i) (st s i) p c = Ok r) /\
  (forall i w, MContinue i w ∈ net s -> exists r,
     continueState cfg log_exceeds (is_root N i) (st s i) w = Ok r) /\
  (forall i k b, 0 <= i < N -> exists r,
     produceConsumeState cfg log_exceeds (is_root N i) (st s i) k b = Ok r).
Proof.
  intros HN Hh Hre. split_and!.
  - intros i p c Hin. by eapply counter_total.
  - intros i w Hin. by eapply continue_total.
  - intros i k b Hi. pose proof (reach_Good _ _ _ _ _ _ HN Hre) as HG.
    pose proof (Good_num _ _ _ _ HG Hi). pose proof (reach_epoch _ _ _ _ _ _ i HN Hre) as He.
    unfold produceConsumeState. destruct b; by apply (propagateIfReady_total N ep).
Qed.

(** C3: Detection is complete and bounded. From a reachable state in which
    nothing is outstanding and every node has finished the epoch locally, the
    protocol takes at most [3(3N+1) + 2N + (messages in flight)] more steps,
    whatever order messages are delivered in (at most three more waves), and it
    cannot stop before the root has detected termination. *)
Theorem quiescence_is_detected N ep cfg log_exceeds active0 s :
  0 < N -> (ep <> no_epoch \/ vt_no_detect_hang cfg = true) ->
  reach N ep cfg log_exceeds active0 s -> out N (st s) = 0 -> all_quiet N (st s) ->
  (forall n s', nsteps (pstep N cfg log_exceeds) n s s' ->
     Z.of_nat n <= 3 * (3 * N + 1) + 2 * N + Z.of_nat (length (net s))) /\
  (forall s', rtc (pstep N cfg log_exceeds) s s' ->
     (exists s'', pstep N cfg log_exceeds s' s'') \/ term_detected_ (st s' 0) = true).
Proof.
  intros HN Hh Hre Ho Hq. split.
  - intros n s' Hs. destruct (reach_Good _ _ _ _ _ _ HN Hre) as [(W & sp & sc & pT & cT & HI)|HD].
    + pose proof (pstep_bound _ _ _ _ _ _ _ (Inv_phased _ _ _ _ _ _ _ HI Ho) HN Hs) as Hb.
      unfold work, wave_cost in Hb. pose proof (pending_bounds N W (st s) HN).
      pose proof (traffic_length (net s)). lia.
    + inversion Hs as [|? ? s2 ? H2 _]; subst; [lia|]. by apply detected_no_pstep in H2.
  - intros s' Hs. assert (all_quiet N (st s') /\ reach N ep cfg log_exceeds active0 s') as [Hq' Hre'].
    { clear Ho. induction Hs as [s|s s1 s' H1 Hs IH]; [done|].
      pose proof (reach_Good _ _ _ _ _ _ HN Hre) as HG.
      pose proof (pstep_quiet _ _ _ _ _ HG H1 Hq) as Hq1.
      assert (reach N ep cfg log_exceeds active0 s1) as Hre1
        by (eapply reach_pstep; [exact Hre|by apply rtc_once]).
      by apply IH. }
    by eapply pstep_progress.
Qed.

(** Two nodes: a unit produced on node 0 is consumed on node 1 while the first
    wave is on its way; the detector needs three waves. *)
Definition sample_cfg : Config := {|
  vt_no_detect_hang := false; vt_print_no_progress := false; vt_hang_freq := 1024;
  vt_term_rooted_use_ds := false; vt_term_rooted_use_wave := false |}.
Definition no_log (n m : Z) : bool := false.
Definition sample_busy : list action :=
  [AProduce 0 1; AActivate 0; AActivate 1; ADeliver 0; AConsume 1 1].
Definition sample_rest : list action :=
  [ADeliver 0; ADeliver 0; ADeliver 0; ADeliver 0].
Definition run (l : list action) : Sys :=
  default (start 2 5 false) (exec 2 sample_cfg no_log (start 2 5 false) l).

Lemma run_reach l s :
  exec 2 sample_cfg no_log (start 2 5 false) l = Some s -> reach 2 5 sample_cfg no_log false (run l).
Proof.
  intros H. unfold run. rewrite H. simpl. eapply exec_reach; [|exact H]. constructor.
Qed.

Lemma sample_end_reach : reach 2 5 sample_cfg no_log false (run (sample_busy ++ sample_rest)).
Proof.
  destruct (exec 2 sample_cfg no_log (start 2 5 false) (sample_busy ++ sample_rest)) eqn:E.
  - by eapply run_reach.
  - exfalso. vm_compute in E. discriminate.
Qed.

Lemma sample_busy_reach : reach 2 5 sample_cfg no_log false (run sample_busy).
Proof.
  destruct (exec 2 sample_cfg no_log (start 2 5 false) sample_busy) eqn:E.
  - by eapply run_reach.
  - exfalso. vm_compute in E. discriminate.
Qed.

Lemma detection_is_safe_witness :
  let s := run (sample_busy ++ sample_rest) in
  out 2 (st s) = 0 /\ term_detected_ (st s 0) = true.
Proof.
  cbv zeta. apply (detection_is_safe 2 5 sample_cfg no_log false _ _ ltac:(lia) sample_end_reach);
    [left; vm_compute; reflexivity|apply rtc_refl].
Defined.

Lemma wave_never_asserts_witness :
  exists r, continueState sample_cfg no_log (is_root 2 1) (st (run sample_busy) 1) 1 = Ok r.
Proof.
  assert (net (run sample_busy) = [MContinue 1 1]) as Hnet by (vm_compute; reflexivity).
  destruct (wave_never_asserts 2 5 sample_cfg no_log false (run sample_busy)) as (_ & H & _);
    [lia|left; vm_compute; discriminate|apply sample_busy_reach|].
  apply H. rewrite Hnet. apply list_elem_of_singleton. reflexivity.
Defined.

Lemma quiescence_is_detected_witness :
  ((exists s'', pstep 2 sample_cfg no_log (run sample_busy) s'') \/
   term_detected_ (st (run sample_busy) 0) = true) /\
  (forall n s', nsteps (pstep 2 sample_cfg no_log) n (run sample_busy) s' ->
    Z.of_nat n <= 3 * (3 * 2 + 1) + 2 * 2 + Z.of_nat (length (net (run sample_busy)))).
Proof.
  destruct (quiescence_is_detected 2 5 sample_cfg no_log false (run sample_busy)) as [H1 H2];
    [lia|left; vm_compute; discriminate|apply sample_busy_reach|vm_compute; reflexivity| |].
  - intros i Hi. assert (i = 0 \/ i = 1) as [-> | ->] by lia; vm_compute; auto.
  - split; [apply H2, rtc_refl|exact H1].
Defined.

End TermWaveSpec.
