(* ===== verification/DijkstraScholten.v ===== *)
(** * Dijkstra-Scholten termination detection

    Models [src/vt/termination/dijkstra-scholten/] ([TermDS] in [ds.{h,cc}],
    [AckRequest], the messages of [comm.cc]), the second detector, used for
    rooted epochs: a node that receives its first unit is engaged by the sender
    and acknowledges that unit last; every other unit is acknowledged at once; the
    root terminates when all it has sent is acknowledged and it is itself idle.

    [Module TermDS] is one node's state and operations, [Module DSystem] all nodes
    of one epoch with the units and acknowledgments in flight. A unit is received
    the way [ActiveMessenger::prepareActiveMsgToRun] does: the task's context
    first produces a local unit, then the received one is consumed; the local
    unit is consumed when the handler has run. *)

From S2P Require Import Prelude.
From S2P Require Import Sums.
From S2P Require Import TermState.
From Stdlib Require Import FunctionalExtensionality.

Module TermDS.

Record AckRequest := MkAck { pred : Z; count : Z }.

Record TermDS := MkDS {
  dep : EpochDependency.EpochDependency;
  parent : Z;
  self : Z;
  C : Z;
  ackedArbitrary : Z;
  ackedParent : Z;
  reqedParent : Z;
  engagementMessageCount : Z;
  D : Z;
  processedSum : Z;
  lC : Z;
  lD : Z;
  outstanding : list AckRequest;
  is_terminated : bool
}.

(** Calls of [CommType]: an acknowledgment sent, the root's termination, and the
    disengagement of the node. *)
Inductive ds_event :=
  | Acknowledge (predecessor count : Z)
  | RootTerminated
  | Disengage.

(** Assignments to groups of members. *)
Definition with_outstanding (o : list AckRequest) (s : TermDS) : TermDS :=
  MkDS (dep s) (parent s) (self s) (C s) (ackedArbitrary s) (ackedParent s) (reqedParent s)
    (engagementMessageCount s) (D s) (processedSum s) (lC s) (lD s) o (is_terminated s).
Definition with_sent (d ld : Z) (s : TermDS) : TermDS :=
  MkDS (dep s) (parent s) (self s) (C s) (ackedArbitrary s) (ackedParent s) (reqedParent s)
    (engagementMessageCount s) d (processedSum s) (lC s) ld (outstanding s) (is_terminated s).
Definition with_lC (lc : Z) (s : TermDS) : TermDS :=
  MkDS (dep s) (parent s) (self s) (C s) (ackedArbitrary s) (ackedParent s) (reqedParent s)
    (engagementMessageCount s) (D s) (processedSum s) lc (lD s) (outstanding s) (is_terminated s).
Definition with_C (c psum : Z) (s : TermDS) : TermDS :=
  MkDS (dep s) (parent s) (self s) c (ackedArbitrary s) (ackedParent s) (reqedParent s)
    (engagementMessageCount s) (D s) psum (lC s) (lD s) (outstanding s) (is_terminated s).
Definition with_parent (p eng : Z) (s : TermDS) : TermDS :=
  MkDS (dep s) p (self s) (C s) (ackedArbitrary s) (ackedParent s) (reqedParent s)
    eng (D s) (processedSum s) (lC s) (lD s) (outstanding s) (is_terminated s).
Definition with_reqed (r : Z) (s : TermDS) : TermDS :=
  MkDS (dep s) (parent s) (self s) (C s) (ackedArbitrary s) (ackedParent s) r
    (engagementMessageCount s) (D s) (processedSum s) (lC s) (lD s) (outstanding s) (is_terminated s).
Definition with_acked (arbitrary par : Z) (s : TermDS) : TermDS :=
  MkDS (dep s) (parent s) (self s) (C s) arbitrary par (reqedParent s)
    (engagementMessageCount s) (D s) (processedSum s) (lC s) (lD s) (outstanding s) (is_terminated s).

Definition setRoot (isRoot : bool) (s : TermDS) : TermDS :=
  if isRoot then with_outstanding (outstanding s ++ [MkAck (self s) 0]) s else s.

(** The constructor. *)
Definition make (in_epoch : Z) (isRoot_ : bool) (self_ : Z) : TermDS :=
  setRoot isRoot_
    (MkDS (EpochDependency.make in_epoch true) (-1) self_ 0 0 0 0 0 0 0 0 0 [] false).

(** The test all operations assert on entry. *)
Definition ds_invariant (s : TermDS) : bool :=
  C s =? processedSum s - (ackedArbitrary s + ackedParent s).

Definition isEngaged (s : TermDS) : bool := 0 <? engagementMessageCount s.
Definition hasParent (s : TermDS) : bool :=
  negb (match outstanding s with [] => true | _ => false end).

Definition terminated (s : TermDS) : TermDS * list ds_event :=
  (MkDS (dep s) (parent s) (self s) (C s) (ackedArbitrary s) (ackedParent s) (reqedParent s)
     (engagementMessageCount s) (D s) (processedSum s) (lC s) (lD s) (outstanding s) true,
   [RootTerminated]).
Definition disengaged : list ds_event := [Disengage].

(** [StateDS::acknowledge], which asserts that the predecessor is another node. *)
Definition acknowledge (node predecessor cnt : Z) : res (list ds_event) :=
  vtAssert (negb (predecessor =? node)) (Ok [Acknowledge predecessor cnt]).

(** Setting the last element aside. *)
Definition back (o : list AckRequest) : option AckRequest := last o.
Definition pop_back (o : list AckRequest) : list AckRequest := removelast o.

Definition tryAck (s : TermDS) : res (TermDS * list ds_event) :=
  if (length (outstanding s) <=? 1)%nat then Ok (s, [])
  else
    match back (outstanding s) with
    | None => Ok (s, [])
    | Some a =>
        if count a <=? C s then
          let s := with_C (C s - count a) (processedSum s) s in
          let s := if hasParent s && (pred a =? parent s)
                   then with_acked (ackedArbitrary s) (ackedParent s + count a) s
                   else with_acked (ackedArbitrary s + count a) (ackedParent s) s in
          let s := with_outstanding (pop_back (outstanding s)) s in
          ev ← acknowledge (self s) (pred a) (count a);
          Ok (s, ev)
        else Ok (s, [])
    end.

Definition tryLast (s : TermDS) : res (TermDS * list ds_event) :=
  if negb (length (outstanding s) =? 1)%nat || negb (lC s =? lD s) then Ok (s, [])
  else
    let engageEq := reqedParent s - ackedParent s =? engagementMessageCount s in
    if engageEq && (D s =? 0) && (C s =? engagementMessageCount s) then
      match back (outstanding s) with
      | None => Ok (s, [])
      | Some a =>
          let s := with_outstanding (pop_back (outstanding s)) s in
          vtAssert (engagementMessageCount s =? count a) (
          '(s, ev) ← (if pred a =? self s
                      then Ok (terminated s)
                      else vtAssert (parent s =? pred a) (
                           ev ← acknowledge (self s) (parent s) (engagementMessageCount s);
                           Ok (s, ev)));
          let s := with_parent (-1) 0 s in
          let s := with_reqed 0 (with_acked 0 0 (with_C 0 0 s)) in
          Ok (s, ev ++ disengaged))
      end
    else Ok (s, []).

Definition msgSent (successor cnt : Z) (s : TermDS) : res TermDS :=
  vtAssert (0 <=? successor) (
  vtAssert (ds_invariant s) (
  Ok (if successor =? self s then with_sent (D s) (lD s + cnt) s
      else with_sent (D s + cnt) (lD s) s))).

Definition gotAck (cnt : Z) (s : TermDS) : res (TermDS * list ds_event) :=
  vtAssert (ds_invariant s) (tryLast (with_sent (D s - cnt) (lD s) s)).

Definition doneSending (s : TermDS) : res TermDS := vtAssert (ds_invariant s) (Ok s).
Definition needAck (s : TermDS) : res TermDS := vtAssert (ds_invariant s) (Ok s).

(** The search from the second element on: the request of [predecessor], or none. *)
Fixpoint bump (predecessor cnt : Z) (o : list AckRequest) : list AckRequest :=
  match o with
  | [] => [MkAck predecessor cnt]
  | a :: o => if pred a =? predecessor then MkAck (pred a) (count a + cnt) :: o
              else a :: bump predecessor cnt o
  end.

Definition msgProcessed (predecessor cnt : Z) (s : TermDS) : res (TermDS * list ds_event) :=
  vtAssert (ds_invariant s) (
  vtAssert (0 <=? predecessor) (
  let self_pred := predecessor =? self s in
  s ← (if self_pred
       then let s := with_lC (lC s + cnt) s in vtAssert (lC s <=? lD s) (Ok s)
       else Ok (with_C (C s + cnt) (processedSum s + cnt) s));
  let s :=
    if (match outstanding s with [] => true | _ => false end) && negb self_pred
    then with_outstanding (MkAck predecessor cnt :: outstanding s) (with_parent predecessor cnt s)
    else if negb self_pred
    then match outstanding s with
         | first :: o => with_outstanding (first :: bump predecessor cnt o) s
         | [] => s
         end
    else s in
  let s := if predecessor =? parent s then with_reqed (reqedParent s + cnt) s else s in
  '(s, e1) ← tryAck s;
  '(s, e2) ← tryLast s;
  Ok (s, e1 ++ e2))).

(** ** The shapes a node's state can have between operations *)

(** Not engaged. *)
Record idle (i : Z) (s : TermDS) : Prop := {
  id_self : self s = i;
  id_out : outstanding s = [];
  id_zero : C s = 0 /\ processedSum s = 0 /\ ackedArbitrary s = 0 /\ ackedParent s = 0 /\
    reqedParent s = 0 /\ engagementMessageCount s = 0 /\ parent s = -1
}.

(** Holding one request, for [e] units of [p]: the root its own (0 units), an
    engaged node its parent's. *)
Record held (root i p e : Z) (s : TermDS) : Prop := {
  he_self : self s = i;
  he_out : outstanding s = [MkAck p e];
  he_C : C s = e /\ engagementMessageCount s = e /\ reqedParent s - ackedParent s = e /\
    processedSum s = e + ackedArbitrary s + ackedParent s;
  he_kind : (i = root /\ p = i /\ e = 0 /\ parent s = -1) \/
            (p <> i /\ 0 <= p /\ 0 < e /\ parent s = p)
}.

Lemma idle_inv i s : idle i s -> ds_invariant s = true.
Proof. intros [_ _ Hz]. unfold ds_invariant. apply Z.eqb_eq. lia. Qed.

Lemma held_inv r i p e s : held r i p e s -> ds_invariant s = true.
Proof. intros [_ _ Hz _]. unfold ds_invariant. apply Z.eqb_eq. lia. Qed.

(** A node with one outstanding request acknowledges nothing in [tryAck]. *)
Lemma tryAck_small s : (length (outstanding s) <= 1)%nat -> tryAck s = Ok (s, []).
Proof. intros H. unfold tryAck. by rewrite (proj2 (Nat.leb_le _ _) H). Qed.

Lemma tryLast_empty s : outstanding s = [] -> tryLast s = Ok (s, []).
Proof. intros H. unfold tryLast. by rewrite H. Qed.

(** [tryLast] waits while something is unfinished or unacknowledged. *)
Lemma tryLast_wait s : lC s <> lD s \/ D s <> 0 -> tryLast s = Ok (s, []).
Proof.
  intros H. unfold tryLast. destruct (_ =? 1)%nat; [|done]. cbn [negb orb].
  destruct (Z.eqb_spec (lC s) (lD s)); [|done]. cbn [negb].
  destruct (Z.eqb_spec (D s) 0); [lia|]. by rewrite andb_false_r.
Qed.

(** The state after the last request is settled. *)
Definition settled (s : TermDS) (flag : bool) : TermDS :=
  MkDS (dep s) (-1) (self s) 0 0 0 0 0 (D s) 0 (lC s) (lD s) [] flag.

Lemma tryLast_done r i p e s :
  held r i p e s -> lC s = lD s -> D s = 0 ->
  tryLast s = Ok (settled s (if p =? i then true else is_terminated s),
                  (if p =? i then [RootTerminated] else [Acknowledge p e]) ++ [Disengage]).
Proof.
  intros [Hs Ho (HC & He & Hr & Hp) Hk] Hl HD. unfold tryLast. rewrite Ho. cbn [length Nat.eqb negb orb].
  rewrite Hl, Z.eqb_refl. cbn [negb]. rewrite Hr, He, HD, HC, Z.eqb_refl. cbn [andb Z.eqb].
  cbn [back last pop_back removelast count pred].
  rewrite vtAssert_true by (simpl; rewrite He; apply Z.eqb_refl). cbn [self with_outstanding]. rewrite Hs.
  destruct (Z.eqb_spec p i) as [->|Hne]; [done|].
  destruct Hk as [(_ & ? & _)|(_ & _ & _ & Hpar)]; [done|].
  rewrite vtAssert_true by (simpl; rewrite Hpar; apply Z.eqb_refl).
  unfold acknowledge. cbn [parent engagementMessageCount with_outstanding]. rewrite Hpar, He.
  rewrite vtAssert_true by (apply negb_true_iff, Z.eqb_neq; done). done.
Qed.

Lemma settled_idle s flag i : self s = i -> idle i (settled s flag).
Proof. by split. Qed.

(** What an operation leaves alone: the counters of sent and of local units. *)
Definition same_sent (s x : TermDS) : Prop :=
  D x = D s /\ lC x = lC s /\ lD x = lD s /\ is_terminated x = is_terminated s.

Definition finish (x : TermDS) (e1 : list ds_event) : res (TermDS * list ds_event) :=
  '(x, e2) ← tryLast x; Ok (x, e1 ++ e2).

(** Consuming a local unit. *)
Lemma msgProcessed_self i cnt s :
  ds_invariant s = true -> 0 <= i -> self s = i -> (length (outstanding s) <= 1)%nat ->
  parent s <> i -> lC s + cnt <= lD s ->
  msgProcessed i cnt s = finish (with_lC (lC s + cnt) s) [].
Proof.
  intros Hinv Hi Hs Ho Hp Hl. unfold msgProcessed. rewrite vtAssert_true by done.
  rewrite vtAssert_true by lia. rewrite Hs, Z.eqb_refl. cbv zeta.
  rewrite vtAssert_true by (simpl; lia). rewrite res_bind_Ok, andb_false_r. cbn [negb].
  cbn [parent with_lC]. rewrite (proj2 (Z.eqb_neq _ _)) by auto.
  rewrite tryAck_small by done. done.
Qed.

(** The first unit engages the node. *)
Lemma msgProcessed_engage r i p cnt s :
  idle i s -> p <> i -> 0 <= p -> 0 < cnt ->
  exists x, held r i p cnt x /\ same_sent s x /\ msgProcessed p cnt s = finish x [].
Proof.
  intros Hid Hne Hp Hc. pose proof (idle_inv _ _ Hid) as Hinv.
  destruct Hid as [Hs Ho (HC & HP & HA & HAp & HR & HE & Hpar)].
  unfold msgProcessed. rewrite vtAssert_true by done. rewrite vtAssert_true by lia.
  rewrite Hs, (proj2 (Z.eqb_neq _ _) Hne). cbv zeta. rewrite res_bind_Ok.
  cbn [outstanding with_C]. rewrite Ho. cbn [negb andb parent with_parent with_outstanding].
  rewrite Z.eqb_refl. cbn [reqedParent with_parent with_C with_outstanding].
  rewrite tryAck_small by (simpl; lia). rewrite res_bind_Ok.
  eexists. split; [|split; [|reflexivity]].
  - split; simpl; [done|done|lia|right; lia].
  - by repeat split.
Qed.

(** The second request is acknowledged. *)
Lemma tryAck_two s a q cnt :
  outstanding s = [a; MkAck q cnt] -> cnt <= C s -> q <> self s ->
  exists ca cp, tryAck s =
    Ok (with_outstanding [a] (with_acked ca cp (with_C (C s - cnt) (processedSum s) s)),
        [Acknowledge q cnt]) /\
    ca + cp = ackedArbitrary s + ackedParent s + cnt /\
    cp = (if q =? parent s then ackedParent s + cnt else ackedParent s).
Proof.
  intros Ho Hc Hne. unfold tryAck, hasParent, acknowledge. rewrite Ho.
  cbn [length Nat.leb back last count pred].
  rewrite (proj2 (Z.leb_le cnt (C s)) Hc). cbv zeta.
  cbn [outstanding with_C parent ackedParent ackedArbitrary]. rewrite Ho. cbn [negb andb].
  destruct (q =? parent s); cbn [outstanding with_acked with_C self with_outstanding];
    rewrite Ho; (rewrite vtAssert_true by (apply negb_true_iff, Z.eqb_neq; done));
    rewrite res_bind_Ok; cbn [pop_back removelast]; (eexists _, _; split; [reflexivity|lia]).
Qed.

(** Any further unit is acknowledged at once. *)
Lemma msgProcessed_ack r i p e q cnt s :
  held r i p e s -> q <> i -> 0 <= q -> 0 < cnt ->
  exists x, held r i p e x /\ same_sent s x /\
    msgProcessed q cnt s = finish x [Acknowledge q cnt].
Proof.
  intros Hh Hne Hq Hc. pose proof (held_inv _ _ _ _ _ Hh) as Hinv.
  destruct Hh as [Hs Ho (HC & HE & HR & HP) Hk].
  assert (0 <= e) as He by (destruct Hk as [(_ & _ & -> & _)|(_ & _ & ? & _)]; lia).
  set (y := with_outstanding [MkAck p e; MkAck q cnt] (with_C (C s + cnt) (processedSum s + cnt) s)).
  set (z := if q =? parent s then with_reqed (reqedParent s + cnt) y else y).
  assert (msgProcessed q cnt s = ('(x, e1) ← tryAck z; finish x e1)) as ->.
  { unfold msgProcessed. rewrite vtAssert_true by done. rewrite vtAssert_true by lia.
    rewrite Hs, (proj2 (Z.eqb_neq _ _) Hne). cbv zeta. rewrite res_bind_Ok.
    cbn [outstanding with_C]. rewrite Ho. reflexivity. }
  assert (outstanding z = [MkAck p e; MkAck q cnt] /\ C z = e + cnt /\ self z = i /\
          parent z = parent s /\ ackedParent z = ackedParent s /\
          ackedArbitrary z = ackedArbitrary s /\ processedSum z = processedSum s + cnt /\
          engagementMessageCount z = e /\ same_sent s z /\
          reqedParent z = (if q =? parent s then reqedParent s + cnt else reqedParent s))
    as (Hzo & HzC & Hzs & Hzp & Hza & Hzb & HzP & HzE & Hzsent & Hzr).
  { unfold z. destruct (q =? parent s); cbn; rewrite HC; by repeat split. }
  destruct (tryAck_two z _ _ _ Hzo) as (ca & cp & -> & Hsum & Hcp); [lia|by rewrite Hzs|].
  rewrite res_bind_Ok. eexists. split; [|split; [|reflexivity]]; [|exact Hzsent].
  rewrite Hzp in Hcp.
  split; cbn [self outstanding with_outstanding with_acked with_C C engagementMessageCount
    reqedParent ackedParent ackedArbitrary processedSum parent]; [done|done| |by rewrite Hzp].
  rewrite Hzr, HzP, Hcp, HzC, HzE. destruct (q =? parent s); lia.
Qed.

End TermDS.

(** ** All nodes of one epoch *)
Module DSystem.
Import TermDS.

Section system.
Context (N root ep : Z).

(** Units sent from one node to another, and acknowledgments, in flight. *)
Inductive msg :=
  | DApp (src dst cnt : Z)
  | DAck (dst cnt : Z).

Record Sys := MkSys {
  ds : Z -> TermDS;
  net : list msg;
  cleanups : list (Z * bool);   (* scheduled erasures: node, unconditional *)
  term : bool                   (* the root has terminated *)
}.

Definition acks (es : list ds_event) : list msg :=
  flat_map (fun e => match e with Acknowledge p k => [DAck p k] | _ => [] end) es.
Definition erasures (i : Z) (es : list ds_event) : list (Z * bool) :=
  flat_map (fun e => match e with
                     | Acknowledge _ _ => [] | RootTerminated => [(i, true)]
                     | Disengage => [(i, false)] end) es.
Definition ends (es : list ds_event) : bool :=
  existsb (fun e => match e with RootTerminated => true | _ => false end) es.

(** Node [i] has run an operation; [rest] is in flight besides what it sent. *)
Definition after (s : Sys) (i : Z) (r : TermDS * list ds_event) (rest : list msg) : Sys :=
  MkSys (<[i := r.1]> (ds s)) (rest ++ acks r.2) (cleanups s ++ erasures i r.2)
    (term s || ends r.2).

(** The scheduled part of [StateDS::disengage] and of [cleanupEpoch]. *)
Definition cleanup (i : Z) (forced : bool) (s : TermDS) : TermDS :=
  if forced || negb (isEngaged s) then make ep false i else s.

Inductive step : Sys -> Sys -> Prop :=
  | d_send s i j k x : 0 <= i < N -> 0 <= j < N -> 0 < k -> lC (ds s i) < lD (ds s i) ->
      msgSent j k (ds s i) = Ok x ->
      step s (MkSys (<[i := x]> (ds s)) (net s ++ (if j =? i then [] else [DApp i j k]))
                (cleanups s) (term s))
  | d_deliver s l1 i j k l2 x r : net s = l1 ++ DApp i j k :: l2 ->
      msgSent j 1 (ds s j) = Ok x -> msgProcessed i k x = Ok r ->
      step s (after s j r (l1 ++ l2))
  | d_finish s i k r : 0 <= i < N -> 0 < k <= lD (ds s i) - lC (ds s i) ->
      msgProcessed i k (ds s i) = Ok r ->
      step s (after s i r (net s))
  | d_ack s l1 i k l2 r : net s = l1 ++ DAck i k :: l2 ->
      gotAck k (ds s i) = Ok r ->
      step s (after s i r (l1 ++ l2))
  | d_cleanup s l1 i forced l2 : cleanups s = l1 ++ (i, forced) :: l2 ->
      step s (MkSys (<[i := cleanup i forced (ds s i)]> (ds s)) (net s) (l1 ++ l2) (term s)).

(** The root has created the epoch and holds its first, local unit. *)
Definition start : Sys :=
  MkSys (fun i => if decide (i = root) then with_sent 0 1 (make ep true i) else make ep false i)
    [] [] false.

Inductive reach : Sys -> Prop :=
  | reach_start : reach start
  | reach_step s s' : reach s -> step s s' -> reach s'.

(** ** The invariant *)

(** Units in flight that node [i] sent, and acknowledgments on their way to it. *)
Definition flight1 (i : Z) (m : msg) : Z :=
  match m with
  | DApp src _ k => if decide (src = i) then k else 0
  | DAck dst k => if decide (dst = i) then k else 0
  end.
Definition flight (i : Z) (ms : list msg) : Z := lsum (flight1 i) ms.

(** Units of [i] that a node has not acknowledged. *)
Definition owed (i : Z) (s : TermDS) : Z :=
  match outstanding s with [a] => if decide (pred a = i) then count a else 0 | _ => 0 end.

Definition msg_ok (m : msg) : Prop :=
  match m with
  | DApp i j k => 0 <= i < N /\ 0 <= j < N /\ i <> j /\ 0 < k
  | DAck i k => 0 <= i < N /\ 0 < k
  end.

(** [rank] orders engagements: a node is engaged after its parent. *)
Record Base (f : Z -> TermDS) (ms : list msg) (rank : Z -> nat) : Prop := {
  b_root : 0 <= root < N /\ held root root root 0 (f root);
  b_shape : forall i, 0 <= i < N ->
    (idle i (f i) /\ lC (f i) = lD (f i) /\ D (f i) = 0) \/
    (exists p e, held root i p e (f i) /\ lC (f i) <= lD (f i) /\ 0 <= p < N /\
                 (i <> root -> rank p < rank i)%nat);
  b_flow : forall i, 0 <= i < N ->
    D (f i) = flight i ms + zsum N (fun j => owed i (f j));
  b_net : forall m, m ∈ ms -> msg_ok m
}.

(** A node that holds a request has something unfinished. *)
Definition busy (s : TermDS) : Prop := outstanding s <> [] -> lC s <> lD s \/ D s <> 0.

Record Running (s : Sys) : Prop := {
  r_base : exists rank, Base (ds s) (net s) rank;
  r_busy : forall i, 0 <= i < N -> busy (ds s i);
  r_clean : forall i b, (i, b) ∈ cleanups s -> 0 <= i < N /\ b = false /\ i <> root;
  r_term : term s = false
}.

Record Finished (s : Sys) : Prop := {
  f_idle : forall i, 0 <= i < N -> idle i (ds s i) /\ lC (ds s i) = lD (ds s i) /\ D (ds s i) = 0;
  f_net : net s = [];
  f_clean : forall i b, (i, b) ∈ cleanups s -> 0 <= i < N;
  f_term : term s = true
}.

(** *** Sums *)

Lemma flight_app i a b : flight i (a ++ b) = flight i a + flight i b.
Proof. apply lsum_app. Qed.

Lemma flight_nonneg i ms : (forall m, m ∈ ms -> msg_ok m) -> 0 <= flight i ms.
Proof.
  intros H. apply lsum_nonneg. intros m Hm. specialize (H m Hm).
  destruct m; simpl in *; case_decide; lia.
Qed.

Lemma owed_held r i p e j s : held r i p e s -> owed j s = if decide (p = j) then e else 0.
Proof. intros [_ Ho _ _]. unfold owed. by rewrite Ho. Qed.

Lemma owed_idle i j s : idle i s -> owed j s = 0.
Proof. intros [_ Ho _]. unfold owed. by rewrite Ho. Qed.

Lemma owed_nonneg f ms rank i j : Base f ms rank -> 0 <= j < N -> 0 <= owed i (f j).
Proof.
  intros HB Hj. destruct (b_shape _ _ _ HB j Hj) as [(Hi & _)|(p & e & Hh & _)].
  - by rewrite (owed_idle _ _ _ Hi).
  - rewrite (owed_held _ _ _ _ _ _ Hh). case_decide; [|done].
    destruct (he_kind _ _ _ _ _ Hh); lia.
Qed.

(** What a node has sent bounds what any other owes it, and what is in flight. *)
Lemma D_owed f ms rank i j : Base f ms rank -> 0 <= i < N -> 0 <= j < N -> owed i (f j) <= D (f i).
Proof.
  intros HB Hi Hj. rewrite (b_flow _ _ _ HB i Hi).
  pose proof (flight_nonneg i ms (b_net _ _ _ HB)).
  pose proof (zsum_elem_le N (fun j => owed i (f j)) j) as He. simpl in He.
  specialize (He ltac:(intros; by eapply owed_nonneg) Hj). lia.
Qed.

Lemma D_flight f ms rank i m : Base f ms rank -> 0 <= i < N -> m ∈ ms -> flight1 i m <= D (f i).
Proof.
  intros HB Hi Hm. rewrite (b_flow _ _ _ HB i Hi).
  assert (0 <= zsum N (fun j => owed i (f j)))
    by (apply zsum_nonneg; intros; by eapply owed_nonneg).
  pose proof (lsum_elem_le (flight1 i) ms m) as He. unfold flight.
  assert (flight1 i m <= lsum (flight1 i) ms); [|lia]. apply He; [|done].
  intros m' Hm'. pose proof (b_net _ _ _ HB m' Hm') as Hok.
  destruct m'; simpl in *; case_decide; lia.
Qed.

(** A node whose units are not all acknowledged holds a request. *)
Lemma held_of_D f ms rank i :
  Base f ms rank -> 0 <= i < N -> D (f i) <> 0 ->
  exists p e, held root i p e (f i) /\ lC (f i) <= lD (f i) /\ 0 <= p < N /\
    (i <> root -> rank p < rank i)%nat.
Proof. intros HB Hi HD. destruct (b_shape _ _ _ HB i Hi) as [(_ & _ & ?)|H]; [done|exact H]. Qed.

(** When the root's units are acknowledged no other node is engaged. *)
Lemma none_engaged f ms rank :
  Base f ms rank -> D (f root) = 0 -> forall i, 0 <= i < N -> i <> root -> idle i (f i) /\
    lC (f i) = lD (f i) /\ D (f i) = 0.
Proof.
  intros HB HD.
  assert (forall (n : nat) i p e, (rank i < n)%nat -> 0 <= i < N -> i <> root ->
            held root i p e (f i) -> False) as Hno.
  { induction n as [|n IH]; intros i p e Hr Hi Hne Hh; [lia|].
    destruct (b_shape _ _ _ HB i Hi) as [(Hid & _)|(p' & e' & Hh' & _ & Hp & Hrk)].
    { pose proof (he_out _ _ _ _ _ Hh) as Ho. by rewrite (id_out _ _ Hid) in Ho. }
    specialize (Hrk Hne).
    destruct (he_kind _ _ _ _ _ Hh') as [(-> & _)|(_ & _ & He & _)]; [done|].
    pose proof (D_owed _ _ _ p' i HB Hp Hi) as Hd.
    rewrite (owed_held _ _ _ _ _ _ Hh'), decide_True in Hd by done.
    destruct (decide (p' = root)) as [->|Hpr]; [lia|].
    destruct (held_of_D _ _ _ p' HB Hp ltac:(lia)) as (q & e2 & Hq & _).
    eapply (IH p'); [lia|done|done|exact Hq]. }
  intros i Hi Hne. destruct (b_shape _ _ _ HB i Hi) as [H|(p & e & Hh & _)]; [done|].
  exfalso. by apply (Hno (S (rank i)) i p e); [lia| | |].
Qed.

(** *** Updating one node *)

Lemma owed_insert f i x k :
  0 <= i < N ->
  zsum N (fun j => owed k (<[i := x]> f j)) = zsum N (fun j => owed k (f j)) - owed k (f i) + owed k x.
Proof. intros Hi. by rewrite (zsum_insert N (fun _ => owed k)). Qed.

Lemma Base_update f ms rank ms' i x rank' :
  Base f ms rank -> 0 <= i < N -> (i = root -> held root root root 0 x) ->
  ((idle i x /\ lC x = lD x /\ D x = 0) \/
   (exists p e, held root i p e x /\ lC x <= lD x /\ 0 <= p < N /\
                (i <> root -> rank' p < rank' i)%nat)) ->
  (forall j p e, 0 <= j < N -> j <> i -> j <> root -> held root j p e (f j) ->
     (rank p < rank j)%nat -> 0 <= p < N -> (rank' p < rank' j)%nat) ->
  (forall j, 0 <= j < N -> j <> i -> flight j ms' + owed j x = flight j ms + owed j (f i)) ->
  D x - D (f i) = flight i ms' - flight i ms + owed i x - owed i (f i) ->
  (forall m, m ∈ ms' -> msg_ok m) -> Base (<[i := x]> f) ms' rank'.
Proof.
  intros HB Hi Hroot Hsh Hrk Hfl HD Hms. split.
  - destruct (b_root _ _ _ HB) as [Hr Hh]. split; [done|].
    destruct (decide (i = root)) as [->|Hne]; [by rewrite fn_lookup_insert; apply Hroot|].
    by rewrite fn_lookup_insert_ne.
  - intros j Hj. destruct (decide (j = i)) as [->|Hne]; [by rewrite fn_lookup_insert|].
    rewrite fn_lookup_insert_ne by done.
    destruct (b_shape _ _ _ HB j Hj) as [H|(p & e & Hh & Hl & Hp & Hr)]; [by left|].
    right. exists p, e. split_and!; try done; try lia. intros Hjr. eapply Hrk; eauto.
  - intros j Hj. rewrite owed_insert by done. pose proof (b_flow _ _ _ HB j Hj).
    destruct (decide (j = i)) as [->|Hne].
    + rewrite fn_lookup_insert. lia.
    + rewrite fn_lookup_insert_ne by done. specialize (Hfl j Hj Hne). lia.
  - done.
Qed.

Lemma ds_insert_twice (f : Z -> TermDS) i x y : <[i := x]> (<[i := y]> f) = <[i := x]> f.
Proof.
  apply functional_extensionality. intros j. destruct (decide (j = i)) as [->|Hj].
  - by rewrite !fn_lookup_insert.
  - by rewrite !fn_lookup_insert_ne.
Qed.

Lemma acks_app a b : acks (a ++ b) = acks a ++ acks b.
Proof. apply flat_map_app. Qed.

Lemma net_empty f ms rank :
  Base f ms rank -> (forall i, 0 <= i < N -> D (f i) = 0) -> ms = [].
Proof.
  intros HB HD. destruct ms as [|m ms]; [done|]. exfalso.
  pose proof (b_net _ _ _ HB m ltac:(elems)) as Hok. destruct m as [i j k|i k]; simpl in Hok.
  - pose proof (D_flight _ _ _ i _ HB ltac:(lia) (list_elem_of_here _ _)) as H. simpl in H.
    rewrite decide_True in H by done. rewrite HD in H; lia.
  - pose proof (D_flight _ _ _ i _ HB ltac:(lia) (list_elem_of_here _ _)) as H. simpl in H.
    rewrite decide_True in H by done. rewrite HD in H; lia.
Qed.

(** What a step leaves: the system runs on, or the root has just terminated. *)
Definition Next (f : Z -> TermDS) (i : Z) (rest : list msg) (r : TermDS * list ds_event) : Prop :=
  ((exists rank, Base (<[i := r.1]> f) (rest ++ acks r.2) rank) /\ busy r.1 /\ ends r.2 = false /\
   (forall j b, (j, b) ∈ erasures i r.2 -> j = i /\ b = false /\ i <> root)) \/
  ((forall j, 0 <= j < N -> idle j (<[i := r.1]> f j) /\
      lC (<[i := r.1]> f j) = lD (<[i := r.1]> f j) /\ D (<[i := r.1]> f j) = 0) /\
   rest ++ acks r.2 = [] /\ ends r.2 = true /\
   (forall j b, (j, b) ∈ erasures i r.2 -> j = i)).

(** The end of every operation of a node that holds a request. *)
Lemma finish_next f rest rank i p e x es :
  Base (<[i := x]> f) (rest ++ acks es) rank -> 0 <= i < N -> held root i p e x ->
  ends es = false -> erasures i es = [] ->
  exists r, finish x es = Ok r /\ Next f i rest r.
Proof.
  intros HB Hi Hh Hends Her.
  assert ((lC x <> lD x \/ D x <> 0) \/ (lC x = lD x /\ D x = 0)) as [Hw|[Hl HD]] by lia.
  - exists (x, es ++ []). unfold finish. rewrite tryLast_wait by done. split; [done|].
    rewrite app_nil_r. left. split_and!; [by exists rank|by intros _|done|].
    cbn [fst snd]. rewrite Her. intros j b Hin. by apply elem_of_nil in Hin.
  - unfold finish. rewrite (tryLast_done _ _ _ _ _ Hh Hl HD), res_bind_Ok.
    set (fl := if p =? i then true else is_terminated x).
    eexists. split; [reflexivity|]. unfold Next. cbn [fst snd].
    assert (forall a b, ends (a ++ b) = ends a || ends b) as Hea by (intros; apply existsb_app).
    assert (forall a b, erasures i (a ++ b) = erasures i a ++ erasures i b) as Hra
      by (intros; apply flat_map_app).
    rewrite acks_app, Hea, Hra, Hends, Her, app_assoc.
    destruct (he_kind _ _ _ _ _ Hh) as [(-> & -> & -> & Hpar)|(Hne & Hp & He & Hpar)].
    + right. rewrite Z.eqb_refl. cbn [acks flat_map app]. rewrite app_nil_r.
      pose proof (none_engaged _ _ _ HB) as Hno. rewrite fn_lookup_insert in Hno. specialize (Hno HD).
      assert (forall j, 0 <= j < N -> D (<[root:=x]> f j) = 0) as HD0.
      { intros j Hj. destruct (decide (j = root)) as [->|Hjr]; [by rewrite fn_lookup_insert|].
        by apply Hno. }
      split_and!.
      * intros j Hj. destruct (decide (j = root)) as [->|Hjr].
        -- rewrite !fn_lookup_insert. split; [apply settled_idle, Hh|]. done.
        -- specialize (Hno j Hj Hjr). by rewrite !fn_lookup_insert_ne in * by done.
      * by eapply net_empty.
      * done.
      * intros j b [[= -> ->]|[[= -> ->]|Hin%elem_of_nil]%elem_of_cons]%elem_of_cons; done.
    + assert (i <> root) as Hir.
      { intros ->. destruct (b_root _ _ _ HB) as [_ Hr]. rewrite fn_lookup_insert in Hr.
        pose proof (he_out _ _ _ _ _ Hr) as H1. pose proof (he_out _ _ _ _ _ Hh) as H2.
        rewrite H2 in H1. injection H1 as H1 _. done. }
      left. rewrite (proj2 (Z.eqb_neq p i) Hne). cbn [acks erasures ends existsb flat_map app orb].
      split_and!.
      * exists rank. rewrite <- (ds_insert_twice f i _ x).
        assert (0 <= p < N) as HpN.
        { destruct (b_shape _ _ _ HB i Hi) as [(Hid & _)|(p' & e' & Hh' & _ & Hp' & _)];
            rewrite fn_lookup_insert in *.
          - pose proof (he_out _ _ _ _ _ Hh) as Ho. by rewrite (id_out _ _ Hid) in Ho.
          - pose proof (he_out _ _ _ _ _ Hh) as Ho. rewrite (he_out _ _ _ _ _ Hh') in Ho.
            by injection Ho as -> ->. }
        eapply Base_update; [exact HB|done|done| |auto| | |].
        -- left. split; [apply settled_idle, Hh|]. done.
        -- intros j Hj Hji. rewrite fn_lookup_insert, (owed_held _ _ _ _ _ _ Hh).
           rewrite flight_app. unfold flight at 2. simpl. unfold owed at 1. simpl. lia.
        -- rewrite fn_lookup_insert, (owed_held _ _ _ _ _ _ Hh), decide_False by done.
           rewrite flight_app. unfold flight at 2. simpl. rewrite decide_False by done.
           unfold owed. simpl. lia.
        -- intros m [Hm|Hm%list_elem_of_singleton]%elem_of_app; [by apply (b_net _ _ _ HB)|].
           subst m. simpl. lia.
      * intros Ho. done.
      * done.
      * intros j b [[= -> ->]|Hin%elem_of_nil]%elem_of_cons; done.
Qed.

(** *** The operations *)

Lemma held_unique r i p e p' e' x : held r i p e x -> held r i p' e' x -> p' = p /\ e' = e.
Proof.
  intros H H'. pose proof (he_out _ _ _ _ _ H) as Ho. rewrite (he_out _ _ _ _ _ H') in Ho.
  by injection Ho.
Qed.

Lemma Base_held f ms rank i :
  Base f ms rank -> 0 <= i < N -> lC (f i) <> lD (f i) \/ D (f i) <> 0 ->
  exists p e, held root i p e (f i) /\ lC (f i) <= lD (f i) /\ 0 <= p < N /\
    (i <> root -> rank p < rank i)%nat.
Proof. intros HB Hi H. destruct (b_shape _ _ _ HB i Hi) as [(_ & ? & ?)|Hh]; [lia|exact Hh]. Qed.

(** The invariant of a held state changing only its counters of sent and local
    units. *)
Lemma Base_held_update f ms rank i p e x ms' :
  Base f ms rank -> 0 <= i < N -> held root i p e (f i) -> held root i p e x ->
  lC x <= lD x ->
  (forall j, 0 <= j < N -> j <> i -> flight j ms' = flight j ms) ->
  D x - D (f i) = flight i ms' - flight i ms ->
  (forall m, m ∈ ms' -> msg_ok m) -> Base (<[i := x]> f) ms' rank.
Proof.
  intros HB Hi Hh Hx Hl Hfl HD Hms.
  assert (0 <= p < N /\ (i <> root -> rank p < rank i)%nat) as [Hp Hr].
  { destruct (b_shape _ _ _ HB i Hi) as [(Hid & _)|(p' & e' & Hh' & _ & ? & ?)].
    - pose proof (he_out _ _ _ _ _ Hh) as Ho. by rewrite (id_out _ _ Hid) in Ho.
    - destruct (held_unique _ _ _ _ _ _ _ Hh Hh') as [-> ->]. done. }
  eapply Base_update; [exact HB|done| | |auto| | |done].
  - intros ->. destruct (b_root _ _ _ HB) as [_ Hr'].
    destruct (held_unique _ _ _ _ _ _ _ Hh Hr') as [-> ->]. done.
  - right. by exists p, e.
  - intros j Hj Hji. rewrite !(owed_held _ _ _ _ _ _ Hh), !(owed_held _ _ _ _ _ _ Hx), Hfl by done. done.
  - rewrite (owed_held _ _ _ _ _ _ Hh), (owed_held _ _ _ _ _ _ Hx). lia.
Qed.

Lemma held_with_sent r i p e d ld x : held r i p e x -> held r i p e (with_sent d ld x).
Proof. by intros [? ? ? ?]. Qed.

Lemma held_with_lC r i p e c x : held r i p e x -> held r i p e (with_lC c x).
Proof. by intros [? ? ? ?]. Qed.

Lemma idle_with_sent i d ld x : idle i x -> idle i (with_sent d ld x).
Proof. by intros [? ? ?]. Qed.

Lemma held_nonneg r i p e x : held r i p e x -> 0 <= i -> (length (outstanding x) <= 1)%nat /\ parent x <> i.
Proof.
  intros [_ Ho _ Hk] Hi. rewrite Ho. split; [simpl; lia|].
  destruct Hk as [(_ & _ & _ & ->)|(? & _ & _ & ->)]; [lia|done].
Qed.

Lemma held_msgSent r i p e x j k :
  held r i p e x -> 0 <= j ->
  msgSent j k x = Ok (if j =? i then with_sent (D x) (lD x + k) x else with_sent (D x + k) (lD x) x).
Proof.
  intros Hh Hj. unfold msgSent. rewrite vtAssert_true by lia.
  rewrite vtAssert_true by (by eapply held_inv). by rewrite (he_self _ _ _ _ _ Hh).
Qed.

Lemma idle_msgSent i x k :
  idle i x -> 0 <= i -> msgSent i k x = Ok (with_sent (D x) (lD x + k) x).
Proof.
  intros Hid Hi. unfold msgSent. rewrite vtAssert_true by lia.
  rewrite vtAssert_true by (by eapply idle_inv). by rewrite (id_self _ _ Hid), Z.eqb_refl.
Qed.

(** Producing a unit for another node, or for itself. *)
Lemma send_next f ms rank i j k :
  Base f ms rank -> 0 <= i < N -> 0 <= j < N -> 0 < k -> lC (f i) < lD (f i) ->
  exists x, msgSent j k (f i) = Ok x /\
    Base (<[i := x]> f) (ms ++ (if j =? i then [] else [DApp i j k])) rank /\ busy x.
Proof.
  intros HB Hi Hj Hk Hl. destruct (Base_held _ _ _ i HB Hi ltac:(lia)) as (p & e & Hh & _).
  rewrite (held_msgSent _ _ _ _ _ j k Hh) by lia. eexists. split; [done|].
  assert (0 <= D (f i)) as HD0.
  { rewrite (b_flow _ _ _ HB i Hi). pose proof (flight_nonneg i ms (b_net _ _ _ HB)).
    assert (0 <= zsum N (fun j => owed i (f j))); [|lia].
    apply zsum_nonneg. intros. by eapply owed_nonneg. }
  destruct (Z.eqb_spec j i) as [->|Hne]; (split; [|intros _; simpl; lia]).
  - rewrite app_nil_r. eapply Base_held_update; [exact HB|done|exact Hh| | |done| |].
    + by apply held_with_sent.
    + simpl. lia.
    + simpl. lia.
    + apply (b_net _ _ _ HB).
  - eapply Base_held_update; [exact HB|done|exact Hh| | | | |].
    + by apply held_with_sent.
    + simpl. lia.
    + intros m Hm Hmi. rewrite flight_app. unfold flight at 2. simpl. rewrite decide_False by done. lia.
    + rewrite flight_app. unfold flight at 2. simpl. rewrite decide_True by done. lia.
    + intros m [Hm|Hm%list_elem_of_singleton]%elem_of_app; [by apply (b_net _ _ _ HB)|].
      subst m. simpl. lia.
Qed.

Lemma flight_middle i l1 m l2 : flight i (l1 ++ m :: l2) = flight i (l1 ++ l2) + flight1 i m.
Proof. rewrite !flight_app. unfold flight. rewrite lsum_cons. lia. Qed.

(** Receiving units from another node. *)
Lemma deliver_next f l1 i j k l2 rank :
  Base f (l1 ++ DApp i j k :: l2) rank ->
  0 <= j < N /\ exists x r, msgSent j 1 (f j) = Ok x /\ msgProcessed i k x = Ok r /\ Next f j (l1 ++ l2) r.
Proof.
  intros HB. pose proof (b_net _ _ _ HB (DApp i j k) ltac:(elems)) as (Hi & Hj & Hne & Hk).
  split; [done|].
  assert (forall m, m ∈ l1 ++ l2 -> msg_ok m) as Hrest
    by (intros m Hm; apply (b_net _ _ _ HB), elem_of_middle, Hm).
  destruct (b_shape _ _ _ HB j Hj) as [(Hid & Hl & HD)|(p & e & Hh & Hl & Hp & Hr)].
  - rewrite (idle_msgSent _ _ 1 Hid) by lia. set (y := with_sent _ _ _).
    assert (idle j y) as Hidy by (by apply idle_with_sent).
    destruct (msgProcessed_engage root j i k y Hidy Hne ltac:(lia) Hk) as (x & Hx & Hs & Hm).
    destruct Hs as (HsD & HsC & HsL & _).
    destruct (finish_next f (l1 ++ l2) (<[j := S (rank i)]> rank) j i k x []) as (r & Hfin & Hnext).
    + cbn [acks flat_map]. rewrite app_nil_r.
      assert (j <> root) as Hjr.
      { intros ->. destruct (b_root _ _ _ HB) as [_ Hr]. pose proof (he_out _ _ _ _ _ Hr) as Ho.
        by rewrite (id_out _ _ Hid) in Ho. }
      eapply Base_update; [exact HB|done|done| | | | |exact Hrest].
      * right. exists i, k. split_and!; [done|rewrite HsC, HsL; simpl; lia|lia|lia|].
        intros _. rewrite fn_lookup_insert, fn_lookup_insert_ne by done. lia.
      * intros m p e Hm' Hmj Hmr Hmh Hrk Hp. destruct (decide (p = j)) as [->|Hpj].
        -- exfalso. pose proof (D_owed _ _ _ j m HB Hj Hm') as Hd.
           rewrite (owed_held _ _ _ _ _ _ Hmh), decide_True in Hd by done.
           destruct (he_kind _ _ _ _ _ Hmh) as [(? & _)|(_ & _ & ? & _)]; [done|lia].
        -- by rewrite !fn_lookup_insert_ne.
      * intros m Hm' Hmj. rewrite flight_middle, (owed_held _ _ _ _ _ _ Hx), (owed_idle _ _ _ Hid).
        simpl. lia.
      * rewrite HsD, flight_middle, (owed_held _ _ _ _ _ _ Hx), (owed_idle _ _ _ Hid).
        simpl. rewrite decide_False by done. lia.
    + done.
    + done.
    + done.
    + done.
    + exists y, r. by rewrite Hm.
  - rewrite (held_msgSent _ _ _ _ _ j 1 Hh), Z.eqb_refl by lia. set (y := with_sent _ _ _).
    assert (held root j p e y) as Hhy by (by apply held_with_sent).
    destruct (msgProcessed_ack root j p e i k y Hhy Hne ltac:(lia) Hk) as (x & Hx & Hs & Hm).
    destruct Hs as (HsD & HsC & HsL & _).
    destruct (finish_next f (l1 ++ l2) rank j p e x [Acknowledge i k]) as (r & Hfin & Hnext).
    + cbn [acks flat_map app].
      eapply Base_held_update; [exact HB|done|exact Hh|exact Hx| | | |].
      * rewrite HsC, HsL. simpl. lia.
      * intros m Hm' Hmj. rewrite (flight_middle _ l1 (DApp i j k)), flight_app.
        unfold flight at 2. simpl. lia.
      * rewrite HsD, (flight_middle _ l1 (DApp i j k)), flight_app. unfold flight at 2. simpl.
        rewrite decide_False by done. lia.
      * intros m [Hm'|Hm'%list_elem_of_singleton]%elem_of_app; [by apply Hrest|]. subst m. simpl. lia.
    + done.
    + done.
    + done.
    + done.
    + exists y, r. by rewrite Hm.
Qed.

(** Finishing local units. *)
Lemma finish_local_next f ms rank i k :
  Base f ms rank -> 0 <= i < N -> 0 < k <= lD (f i) - lC (f i) ->
  exists r, msgProcessed i k (f i) = Ok r /\ Next f i ms r.
Proof.
  intros HB Hi Hk. destruct (Base_held _ _ _ i HB Hi ltac:(lia)) as (p & e & Hh & _).
  destruct (held_nonneg _ _ _ _ _ Hh) as [Hlen Hpar]; [lia|].
  rewrite (msgProcessed_self i k (f i)); try done;
    [|by eapply held_inv|lia|apply Hh|lia].
  apply (finish_next f ms rank i p e); try done; [|by apply held_with_lC].
  cbn [acks flat_map]. rewrite app_nil_r.
  eapply Base_held_update; [exact HB|done|exact Hh| | |done| |].
  - by apply held_with_lC.
  - simpl. lia.
  - simpl. lia.
  - apply (b_net _ _ _ HB).
Qed.

(** Receiving an acknowledgment. *)
Lemma ack_next f l1 i k l2 rank :
  Base f (l1 ++ DAck i k :: l2) rank ->
  0 <= i < N /\ exists r, gotAck k (f i) = Ok r /\ Next f i (l1 ++ l2) r.
Proof.
  intros HB. pose proof (b_net _ _ _ HB (DAck i k) ltac:(elems)) as (Hi & Hk). split; [done|].
  pose proof (D_flight _ _ _ i (DAck i k) HB Hi ltac:(elems)) as Hd. simpl in Hd.
  rewrite decide_True in Hd by done.
  destruct (Base_held _ _ _ i HB Hi ltac:(lia)) as (p & e & Hh & Hl & _).
  unfold gotAck. rewrite vtAssert_true by (by eapply held_inv).
  assert (forall x, finish x [] = tryLast x) as <-.
  { intros x. unfold finish. by destruct (tryLast x) as [[? ?]|]. }
  apply (finish_next f (l1 ++ l2) rank i p e); try done; [|by apply held_with_sent].
  cbn [acks flat_map]. rewrite app_nil_r.
  eapply Base_held_update; [exact HB|done|exact Hh| | | | |].
  - by apply held_with_sent.
  - done.
  - intros j Hj Hji. rewrite flight_middle. simpl. rewrite decide_False by done. lia.
  - rewrite flight_middle. simpl. rewrite decide_True by done. lia.
  - intros m Hm. by apply (b_net _ _ _ HB), elem_of_middle.
Qed.

(** *** Steps *)

Lemma Next_after s i r rest :
  Running s -> 0 <= i < N -> Next (ds s) i rest r -> Running (after s i r rest) \/ Finished (after s i r rest).
Proof.
  intros [_ Hb Hc Ht] Hi [(HB & Hbr & He & Her)|(Hid & Hn & He & Her)]; [left|right]; split;
    cbn [ds net cleanups term after]; try done.
  - intros j Hj. destruct (decide (j = i)) as [->|Hne]; [by rewrite fn_lookup_insert|].
    rewrite fn_lookup_insert_ne by done. by apply Hb.
  - intros j b [Hin|Hin]%elem_of_app; [by apply Hc in Hin|].
    destruct (Her j b Hin) as (-> & -> & ?). done.
  - by rewrite Ht, He.
  - intros j b [Hin|Hin]%elem_of_app; [by apply Hc in Hin as [? _]|].
    by rewrite (Her j b Hin).
  - rewrite He. apply orb_true_r.
Qed.

Lemma held_engaged i p e x : held root i p e x -> i <> root -> isEngaged x = true.
Proof.
  intros [_ _ (_ & He & _) Hk] Hne. unfold isEngaged. rewrite He. apply Z.ltb_lt.
  destruct Hk as [(? & _)|(_ & _ & ? & _)]; [done|lia].
Qed.

Lemma make_idle i : idle i (make ep false i).
Proof. by split. Qed.

Lemma step_Running s s' : Running s -> step s s' -> Running s' \/ Finished s'.
Proof.
  intros HR Hs. pose proof HR as [[rank HB] Hb Hc Ht].
  destruct Hs as [s i j k x Hi Hj Hk Hl Hx|s l1 i j k l2 x r Hnet Hx Hr|s i k r Hi Hk Hr
                 |s l1 i k l2 r Hnet Hr|s l1 i forced l2 Hcl].
  - destruct (send_next _ _ _ i j k HB Hi Hj Hk Hl) as (x' & Hx' & HB' & Hbx).
    rewrite Hx in Hx'. injection Hx' as <-. left. split; cbn [ds net cleanups term]; [by exists rank| |done|done].
    intros m Hm. destruct (decide (m = i)) as [->|Hne]; [by rewrite fn_lookup_insert|].
    rewrite fn_lookup_insert_ne by done. by apply Hb.
  - rewrite Hnet in HB. destruct (deliver_next _ _ _ _ _ _ _ HB) as (Hj & x' & r' & Hx' & Hr' & Hn).
    rewrite Hx in Hx'. injection Hx' as <-. rewrite Hr in Hr'. injection Hr' as <-.
    by apply Next_after.
  - destruct (finish_local_next _ _ _ i k HB Hi Hk) as (r' & Hr' & Hn).
    rewrite Hr in Hr'. injection Hr' as <-. by apply Next_after.
  - rewrite Hnet in HB. destruct (ack_next _ _ _ _ _ _ HB) as (Hi & r' & Hr' & Hn).
    rewrite Hr in Hr'. injection Hr' as <-. by apply Next_after.
  - destruct (Hc i forced) as (Hi & -> & Hir); [rewrite Hcl; elems|].
    assert ((idle i (cleanup i false (ds s i)) /\ lC (cleanup i false (ds s i)) = lD (cleanup i false (ds s i)) /\
             D (cleanup i false (ds s i)) = 0 /\ idle i (ds s i) /\ D (ds s i) = 0) \/
            cleanup i false (ds s i) = ds s i) as Hcase.
    { unfold cleanup. cbn [orb]. destruct (b_shape _ _ _ HB i Hi) as [(Hid & Hl & HD)|(p & e & Hh & _)].
      - left. assert (isEngaged (ds s i) = false) as ->.
        { destruct (id_zero _ _ Hid) as (_ & _ & _ & _ & _ & He & _). unfold isEngaged. by rewrite He. }
        cbn [negb]. by split; [apply make_idle|].
      - right. by rewrite (held_engaged _ _ _ _ Hh Hir). }
    left. split; cbn [ds net cleanups term].
    + destruct Hcase as [(Hid & Hl & HD & Hid0 & HD0)| ->].
      * exists rank. eapply Base_update; [exact HB|done|done|by left|auto| | |apply (b_net _ _ _ HB)].
        -- intros j Hj Hji. by rewrite (owed_idle _ _ _ Hid), (owed_idle _ _ _ Hid0).
        -- rewrite (owed_idle _ _ _ Hid), (owed_idle _ _ _ Hid0). lia.
      * exists rank. assert (<[i := ds s i]> (ds s) = ds s) as ->; [|done].
        apply functional_extensionality. intros j. destruct (decide (j = i)) as [->|Hne];
          [by rewrite fn_lookup_insert|by rewrite fn_lookup_insert_ne].
    + intros j Hj. destruct (decide (j = i)) as [->|Hne].
      * rewrite fn_lookup_insert. destruct Hcase as [(Hid & _)| ->]; [|by apply Hb].
        intros Ho. by rewrite (id_out _ _ Hid) in Ho.
      * rewrite fn_lookup_insert_ne by done. by apply Hb.
    + intros j b Hin. apply Hc. rewrite Hcl. by apply elem_of_middle.
    + done.
Qed.

Lemma step_Finished s s' : Finished s -> step s s' -> Finished s'.
Proof.
  intros [Hid Hn Hc Ht] Hs.
  destruct Hs as [s i j k x Hi Hj Hk Hl Hx|s l1 i j k l2 x r Hnet Hx Hr|s i k r Hi Hk Hr
                 |s l1 i k l2 r Hnet Hr|s l1 i forced l2 Hcl].
  - destruct (Hid i Hi) as (_ & ? & _). lia.
  - rewrite Hn in Hnet. by destruct l1.
  - destruct (Hid i Hi) as (_ & ? & _). lia.
  - rewrite Hn in Hnet. by destruct l1.
  - split; cbn [ds net cleanups term]; try done.
    + intros j Hj. destruct (decide (j = i)) as [->|Hne].
      * rewrite fn_lookup_insert. unfold cleanup. case_match; [by split; [apply make_idle|]|by apply Hid].
      * rewrite fn_lookup_insert_ne by done. by apply Hid.
    + intros j b Hin. apply (Hc j b). rewrite Hcl. by apply elem_of_middle.
Qed.

Lemma start_Running : 0 <= root < N -> Running start.
Proof.
  intros Hr. assert (held root root root 0 (ds start root)) as Hh.
  { unfold start. simpl. rewrite decide_True by done. split; simpl; try done. by left. }
  assert (forall i, i <> root -> ds start i = make ep false i) as Hne
    by (intros i Hi; unfold start; simpl; by rewrite decide_False).
  assert (forall i j, owed j (ds start i) = 0) as Ho.
  { intros i j. destruct (decide (i = root)) as [->|Hi].
    - rewrite (owed_held _ _ _ _ _ _ Hh). by case_decide.
    - by rewrite (Hne i Hi). }
  assert (forall i, D (ds start i) = 0) as HD.
  { intros i. destruct (decide (i = root)) as [->|Hi];
      [unfold start; simpl; by rewrite decide_True|by rewrite (Hne i Hi)]. }
  assert (lC (ds start root) = 0 /\ lD (ds start root) = 1) as [HlC HlD]
    by (unfold start; simpl; by rewrite decide_True).
  split; [exists (fun _ => 0%nat); split| | |done].
  - done.
  - intros i Hi. destruct (decide (i = root)) as [->|Hir].
    + right. exists root, 0. split_and!; try done; lia.
    + left. rewrite (Hne i Hir). by split; [apply make_idle|].
  - intros i Hi. rewrite HD, zsum_0 by done. done.
  - intros m Hm. by apply elem_of_nil in Hm.
  - intros i Hi Hout. destruct (decide (i = root)) as [->|Hir]; [lia|].
    by rewrite (Hne i Hir) in Hout.
  - intros i b Hin. by apply elem_of_nil in Hin.
Qed.

Lemma reach_inv s : 0 <= root < N -> reach s -> Running s \/ Finished s.
Proof.
  intros Hr. induction 1 as [|s s' _ [HR|HF] Hs]; [left; by apply start_Running| |].
  - by eapply step_Running.
  - right. by eapply step_Finished.
Qed.

(** *** Progress *)

(** The program is done: nothing is in a handler, no unit is in flight. *)
Definition app_done (s : Sys) : Prop :=
  (forall i, 0 <= i < N -> lC (ds s i) = lD (ds s i)) /\
  (forall i j k, DApp i j k ∉ net s).

(** The delivery of one acknowledgment. *)
Inductive astep : Sys -> Sys -> Prop :=
  | a_ack s l1 i k l2 r : net s = l1 ++ DAck i k :: l2 ->
      gotAck k (ds s i) = Ok r -> astep s (after s i r (l1 ++ l2)).

Lemma astep_step s s' : astep s s' -> step s s'.
Proof. destruct 1. by eapply d_ack. Qed.

Lemma rank_bounded (rank : Z -> nat) : exists B, forall i, 0 <= i < N -> (rank i <= B)%nat.
Proof.
  exists (foldr (fun i b => Nat.max (rank i) b) 0%nat (nodes_of N)).
  intros i Hi%elem_of_nodes. induction (nodes_of N) as [|j l IH]; [by apply elem_of_nil in Hi|].
  simpl. apply elem_of_cons in Hi as [->|Hi]; [lia|]. specialize (IH Hi). lia.
Qed.

Lemma running_progress s : Running s -> app_done s -> exists i k, DAck i k ∈ net s.
Proof.
  intros [[rank HB] Hb _ _] [Hl Happ].
  destruct (net s) as [|[i j k|i k] ms] eqn:Hnet;
    [|exfalso; apply (Happ i j k); elems|exists i, k; elems].
  exfalso. destruct (rank_bounded rank) as [B HBd].
  assert (forall (n : nat) i p e, (B - rank i < n)%nat -> 0 <= i < N -> held root i p e (ds s i) -> False)
    as Hno.
  { induction n as [|n IH]; intros i p e Hn Hi Hh; [lia|].
    assert (D (ds s i) <> 0) as HD.
    { destruct (Hb i Hi) as [Hbu|?]; [by rewrite (he_out _ _ _ _ _ Hh)| |done]. by rewrite (Hl i Hi) in Hbu. }
    pose proof (b_flow _ _ _ HB i Hi) as Hf. unfold flight in Hf. rewrite lsum_nil in Hf.
    assert (0 < zsum N (fun j => owed i (ds s j))) as (j & Hj & Ho)%zsum_pos.
    { assert (0 <= zsum N (fun j => owed i (ds s j))); [|lia].
      apply zsum_nonneg. intros. by eapply owed_nonneg. }
    destruct (b_shape _ _ _ HB j Hj) as [(Hid & _)|(q & e' & Hh' & _ & Hq & Hrk)].
    { rewrite (owed_idle _ _ _ Hid) in Ho. lia. }
    rewrite (owed_held _ _ _ _ _ _ Hh') in Ho. case_decide; [subst q|lia].
    assert (j <> root) as Hjr.
    { intros ->. destruct (b_root _ _ _ HB) as [_ Hr].
      destruct (held_unique _ _ _ _ _ _ _ Hr Hh') as [? ?]. lia. }
    specialize (Hrk Hjr). pose proof (HBd i Hi). pose proof (HBd j Hj).
    eapply (IH j); [lia|done|exact Hh']. }
  destruct (b_root _ _ _ HB) as [Hr Hh]. eapply (Hno (S (B - rank root))); [|done|exact Hh]. lia.
Qed.

Lemma app_done_astep s s' : Running s -> app_done s -> astep s s' -> app_done s'.
Proof.
  intros [[rank HB] Hb _ _] [Hl Happ] Hs. destruct Hs as [s l1 i k l2 r Hnet Hr].
  rewrite Hnet in HB, Happ.
  pose proof (b_net _ _ _ HB (DAck i k) ltac:(elems)) as (Hi & Hk).
  assert (lC r.1 = lD r.1 /\ forall a b c, DApp a b c ∉ acks r.2) as [Hlr Hnr].
  { unfold gotAck in Hr. apply vtAssert_Ok in Hr as [_ Hr].
    pose proof (D_flight _ _ _ i (DAck i k) HB Hi ltac:(elems)) as Hd. simpl in Hd.
    rewrite decide_True in Hd by done.
    destruct (Base_held _ _ _ i HB Hi ltac:(lia)) as (p & e & Hh & _).
    set (x := with_sent _ _ _) in Hr.
    assert (held root i p e x) as Hx by (by apply held_with_sent).
    assert (lC x = lD x) as Hlx by (by apply Hl).
    destruct (decide (D x = 0)) as [HD|HD].
    - rewrite (tryLast_done _ _ _ _ _ Hx Hlx HD) in Hr. injection Hr as <-. split; [exact Hlx|].
      intros a b c. destruct (p =? i); cbn.
      + apply not_elem_of_nil.
      + intros Hin%list_elem_of_singleton. done.
    - rewrite tryLast_wait in Hr by auto. injection Hr as <-. split; [exact Hlx|].
      intros a b c Hin. by apply elem_of_nil in Hin. }
  split; cbn [ds net after].
  - intros j Hj. destruct (decide (j = i)) as [->|Hne]; [by rewrite fn_lookup_insert|].
    rewrite fn_lookup_insert_ne by done. by apply Hl.
  - intros a b c [Hin|Hin]%elem_of_app; [|by apply Hnr in Hin].
    eapply Happ. by apply elem_of_middle.
Qed.

(** Acknowledgments left: those in flight, and two for a node still engaged. *)
Definition ack_work (s : Sys) : Z :=
  Z.of_nat (length (net s)) + zsum N (fun i => 2 * Z.of_nat (length (outstanding (ds s i)))).

Lemma astep_work s s' : Running s -> astep s s' -> ack_work s' < ack_work s.
Proof.
  intros [[rank HB] Hb _ _] Hs. destruct Hs as [s l1 i k l2 r Hnet Hr]. rewrite Hnet in HB.
  pose proof (b_net _ _ _ HB (DAck i k) ltac:(elems)) as (Hi & Hk).
  unfold ack_work. cbn [ds net after]. rewrite Hnet.
  rewrite (zsum_insert N (fun _ x => 2 * Z.of_nat (length (outstanding x)))) by done.
  rewrite !length_app. cbn [length].
  unfold gotAck in Hr. apply vtAssert_Ok in Hr as [_ Hr].
  pose proof (D_flight _ _ _ i (DAck i k) HB Hi ltac:(elems)) as Hd. simpl in Hd.
  rewrite decide_True in Hd by done.
  destruct (Base_held _ _ _ i HB Hi ltac:(lia)) as (p & e & Hh & _).
  set (x := with_sent _ _ _) in Hr.
  assert (held root i p e x) as Hx by (by apply held_with_sent).
  assert (length (outstanding (ds s i)) = 1%nat) as -> by (by rewrite (he_out _ _ _ _ _ Hh)).
  assert (length (outstanding x) = 1%nat) as Hlx by (by rewrite (he_out _ _ _ _ _ Hx)).
  assert ((lC x <> lD x \/ D x <> 0) \/ (lC x = lD x /\ D x = 0)) as [Hw|[Hl HD]] by lia.
  - rewrite tryLast_wait in Hr by done. injection Hr as <-. cbn [fst snd acks flat_map length].
    rewrite Hlx. lia.
  - rewrite (tryLast_done _ _ _ _ _ Hx Hl HD) in Hr. injection Hr as <-. cbn [fst snd].
    destruct (p =? i); cbn; lia.
Qed.

(** ** Running a schedule *)

Inductive action :=
  | ASend (i j k : Z) | AFinish (i k : Z) | ADeliver (n : nat) | ACleanup (n : nat).

Definition exec1 (s : Sys) (a : action) : option Sys :=
  match a with
  | ASend i j k =>
      if decide (0 <= i < N /\ 0 <= j < N /\ 0 < k /\ lC (ds s i) < lD (ds s i))
      then match msgSent j k (ds s i) with
           | Ok x => Some (MkSys (<[i := x]> (ds s)) (net s ++ (if j =? i then [] else [DApp i j k]))
                             (cleanups s) (term s))
           | Stop _ => None
           end
      else None
  | AFinish i k =>
      if decide (0 <= i < N /\ 0 < k <= lD (ds s i) - lC (ds s i))
      then match msgProcessed i k (ds s i) with
           | Ok r => Some (after s i r (net s)) | Stop _ => None end
      else None
  | ADeliver n =>
      let rest := take n (net s) ++ drop (S n) (net s) in
      match net s !! n with
      | Some (DApp i j k) =>
          match (x ← msgSent j 1 (ds s j); msgProcessed i k x) with
          | Ok r => Some (after s j r rest) | Stop _ => None end
      | Some (DAck i k) =>
          match gotAck k (ds s i) with Ok r => Some (after s i r rest) | Stop _ => None end
      | None => None
      end
  | ACleanup n =>
      match cleanups s !! n with
      | Some (i, forced) =>
          Some (MkSys (<[i := cleanup i forced (ds s i)]> (ds s)) (net s)
                  (take n (cleanups s) ++ drop (S n) (cleanups s)) (term s))
      | None => None
      end
  end.

Fixpoint exec (s : Sys) (l : list action) : option Sys :=
  match l with
  | [] => Some s
  | a :: l => match exec1 s a with Some s' => exec s' l | None => None end
  end.

Lemma ds_exec1_step s a s' : exec1 s a = Some s' -> step s s'.
Proof.
  destruct a as [i j k|i k|n|n]; simpl.
  - case_decide as H; [|done]. destruct H as (? & ? & ? & ?).
    destruct (msgSent j k (ds s i)) as [x|] eqn:Hx; [|done]. intros [= <-]. by eapply d_send.
  - case_decide as H; [|done]. destruct H as [? ?].
    destruct (msgProcessed i k (ds s i)) as [r|] eqn:Hr; [|done]. intros [= <-]. by eapply d_finish.
  - destruct (net s !! n) as [m|] eqn:Hn; [|done].
    pose proof (take_drop_middle _ _ _ Hn) as Hnet. symmetry in Hnet. destruct m as [i j k|i k].
    + destruct (msgSent j 1 (ds s j)) as [x|] eqn:Hx; [|done]. rewrite res_bind_Ok.
      destruct (msgProcessed i k x) as [r|] eqn:Hr; [|done]. intros [= <-].
      eapply d_deliver; [exact Hnet|exact Hx|exact Hr].
    + destruct (gotAck k (ds s i)) as [r|] eqn:Hr; [|done]. intros [= <-].
      eapply d_ack; [exact Hnet|exact Hr].
  - destruct (cleanups s !! n) as [[i b]|] eqn:Hn; [|done]. intros [= <-].
    pose proof (take_drop_middle _ _ _ Hn) as Hc. symmetry in Hc. by eapply d_cleanup.
Qed.

Lemma ds_exec_reach l s s' : reach s -> exec s l = Some s' -> reach s'.
Proof.
  revert s. induction l as [|a l IH]; intros s Hre; simpl; [by intros [= <-]|].
  destruct (exec1 s a) as [s1|] eqn:H1; [|done]. apply IH.
  eapply reach_step; [done|]. by eapply ds_exec1_step.
Qed.

End system.
End DSystem.

(** ** What the detector promises *)
Module DSystemSpec.
Import TermDS.
Import DSystem.

(** C2: Dijkstra-Scholten detection is sound. However sends, deliveries,
    handlers, acknowledgments and clean-ups are interleaved, once the root has
    terminated no unit and no acknowledgment is in flight, no node is engaged,
    none has work left to finish or units unacknowledged, and this never changes
    again. *)
Theorem ds_detection_is_safe N root ep s s' :
  0 <= root < N -> reach N root ep s -> term s = true -> rtc (step N ep) s s' ->
  term s' = true /\ net s' = [] /\
  (forall i, 0 <= i < N -> outstanding (ds s' i) = [] /\ isEngaged (ds s' i) = false /\
     lC (ds s' i) = lD (ds s' i) /\ D (ds s' i) = 0).
Proof.
  intros Hr Hre Ht Hs.
  assert (Finished N s) as HF.
  { destruct (reach_inv _ _ _ _ Hr Hre) as [HR|HF]; [|done]. rewrite (r_term _ _ _ HR) in Ht. done. }
  clear Hre Ht. induction Hs as [s|s s1 s' H1 _ IH]; [|apply IH; by eapply step_Finished].
  destruct HF as [Hid Hn _ Ht]. split_and!; [done|done|]. intros i Hi.
  destruct (Hid i Hi) as ([_ Ho Hz] & Hl & HD). split_and!; try done.
  unfold isEngaged. destruct Hz as (_ & _ & _ & _ & _ & -> & _). done.
Qed.

(** No assertion of the detector fires: in every reachable state every
    enabled operation returns. In particular the invariant the operations assert,
    [C = processedSum - (ackedArbitrary + ackedParent)], always holds, a node
    never acknowledges itself, and the last request acknowledged is the parent's. *)
Theorem ds_never_asserts N root ep s :
  0 <= root < N -> reach N root ep s ->
  (forall i j k, 0 <= i < N -> 0 <= j < N -> 0 < k -> lC (ds s i) < lD (ds s i) ->
     exists x, msgSent j k (ds s i) = Ok x) /\
  (forall i j k, DApp i j k ∈ net s ->
     exists x r, msgSent j 1 (ds s j) = Ok x /\ msgProcessed i k x = Ok r) /\
  (forall i k, 0 <= i < N -> 0 < k <= lD (ds s i) - lC (ds s i) ->
     exists r, msgProcessed i k (ds s i) = Ok r) /\
  (forall i k, DAck i k ∈ net s -> exists r, gotAck k (ds s i) = Ok r).
Proof.
  intros Hr Hre. destruct (reach_inv _ _ _ _ Hr Hre) as [[[rank HB] _ _ _]|[Hid Hn _ _]].
  - split_and!.
    + intros i j k Hi Hj Hk Hl.
      destruct (send_next _ _ _ _ _ _ _ _ HB Hi Hj Hk Hl) as (x & ? & _). eauto.
    + intros i j k (l1 & l2 & Hnet)%list_elem_of_split. rewrite Hnet in HB.
      destruct (deliver_next _ _ _ _ _ _ _ _ _ HB) as (_ & x & r & ? & ? & _). eauto.
    + intros i k Hi Hk. destruct (finish_local_next _ _ _ _ _ _ _ HB Hi Hk) as (r & ? & _). eauto.
    + intros i k (l1 & l2 & Hnet)%list_elem_of_split. rewrite Hnet in HB.
      destruct (ack_next _ _ _ _ _ _ _ _ HB) as (_ & r & ? & _). eauto.
  - rewrite Hn. split_and!.
    + intros i j k Hi Hj Hk Hl. destruct (Hid i Hi) as (_ & ? & _). lia.
    + intros i j k Hin. by apply elem_of_nil in Hin.
    + intros i k Hi Hk. destruct (Hid i Hi) as (_ & ? & _). lia.
    + intros i k Hin. by apply elem_of_nil in Hin.
Qed.

(** C4: Termination is detected. Once no handler is running and no unit is in
    flight, only acknowledgments remain: however they are delivered there are at
    most [ack_work s] of them (those in flight and two per engaged node), and as
    long as the root has not terminated one is in flight. *)
Theorem ds_quiescence_is_detected N root ep s :
  0 <= root < N -> reach N root ep s -> app_done N s ->
  (forall n s', nsteps astep n s s' -> Z.of_nat n <= ack_work N s) /\
  (forall s', rtc astep s s' -> (exists s'', astep s' s'') \/ term s' = true).
Proof.
  intros Hr Hre Hd.
  assert (forall s s', reach N root ep s -> astep s s' -> reach N root ep s') as Hreach
    by (intros; eapply reach_step; [done|by eapply astep_step]).
  assert (forall s, 0 <= ack_work N s) as Hw0.
  { intros t. unfold ack_work. assert (0 <= zsum N (fun i => 2 * Z.of_nat (length (outstanding (ds t i)))));
      [apply zsum_nonneg; lia|lia]. }
  split.
  - intros n s' Hs. induction Hs as [s|n s s1 s' H1 Hs IH]; [apply Hw0|].
    destruct (reach_inv _ _ _ _ Hr Hre) as [HR|HF].
    + pose proof (astep_work _ _ _ _ HR H1) as Hlt.
      pose proof (app_done_astep _ _ _ _ HR Hd H1) as Hd1.
      specialize (IH (Hreach _ _ Hre H1) Hd1). lia.
    + destruct H1 as [s l1 i k l2 r Hnet _]. rewrite (f_net _ _ HF) in Hnet. by destruct l1.
  - intros s' Hs. induction Hs as [s|s s1 s' H1 Hs IH].
    + destruct (reach_inv _ _ _ _ Hr Hre) as [HR|HF]; [left|right; apply HF].
      destruct (running_progress _ _ _ HR Hd) as (i & k & Hin).
      destruct HR as [[rank HB] _ _ _]. apply list_elem_of_split in Hin as (l1 & l2 & Hnet).
      rewrite Hnet in HB. destruct (ack_next _ _ _ _ _ _ _ _ HB) as (_ & r & Hr' & _).
      eexists. by eapply a_ack.
    + destruct (reach_inv _ _ _ _ Hr Hre) as [HR|HF].
      * apply IH; [by eapply Hreach|by eapply app_done_astep].
      * destruct H1 as [s l1 i k l2 r Hnet _]. rewrite (f_net _ _ HF) in Hnet. by destruct l1.
Qed.

(** Three nodes: the root sends to node 1, whose handler sends to node 2; node 2
    answers the root before it finishes. *)
Definition sample_busy : list action :=
  [ASend 0 1 1; AFinish 0 1; ADeliver 0; ASend 1 2 1; AFinish 1 1; ADeliver 0; ASend 2 0 1;
   AFinish 2 1; ADeliver 0; AFinish 0 1].
Definition sample_rest : list action := [ADeliver 0; ADeliver 0; ADeliver 0].
Definition run (l : list action) : Sys :=
  default (start 0 5) (exec 3 5 (start 0 5) l).

Lemma ds_run_reach l s : exec 3 5 (start 0 5) l = Some s -> reach 3 0 5 (run l).
Proof. intros H. unfold run. rewrite H. simpl. eapply ds_exec_reach; [|exact H]. constructor. Qed.

Lemma ds_sample_busy_reach : reach 3 0 5 (run sample_busy).
Proof.
  destruct (exec 3 5 (start 0 5) sample_busy) eqn:E; [by eapply ds_run_reach|].
  exfalso. vm_compute in E. discriminate.
Qed.

Lemma ds_sample_end_reach : reach 3 0 5 (run (sample_busy ++ sample_rest)).
Proof.
  destruct (exec 3 5 (start 0 5) (sample_busy ++ sample_rest)) eqn:E; [by eapply ds_run_reach|].
  exfalso. vm_compute in E. discriminate.
Qed.

Lemma ds_detection_is_safe_witness : net (run (sample_busy ++ sample_rest)) = [].
Proof.
  destruct (ds_detection_is_safe 3 0 5 (run (sample_busy ++ sample_rest))
              (run (sample_busy ++ sample_rest))) as (_ & H & _);
    [lia|apply ds_sample_end_reach|vm_compute; reflexivity|apply rtc_refl|exact H].
Defined.

Lemma ds_never_asserts_witness : exists r, gotAck 1 (ds (run sample_busy) 2) = Ok r.
Proof.
  destruct (ds_never_asserts 3 0 5 (run sample_busy)) as (_ & _ & _ & H);
    [lia|apply ds_sample_busy_reach|].
  assert (net (run sample_busy) = [DAck 2 1]) as Hnet by (vm_compute; reflexivity).
  apply H. rewrite Hnet. apply list_elem_of_singleton. reflexivity.
Defined.

Lemma ds_quiescence_is_detected_witness :
  ((exists s'', astep (run sample_busy) s'') \/ term (run sample_busy) = true) /\
  (forall n s', nsteps astep n (run sample_busy) s' -> Z.of_nat n <= ack_work 3 (run sample_busy)).
Proof.
  assert (net (run sample_busy) = [DAck 2 1]) as Hnet by (vm_compute; reflexivity).
  destruct (ds_quiescence_is_detected 3 0 5 (run sample_busy)) as [H1 H2];
    [lia|apply ds_sample_busy_reach| |].
  - split.
    + intros i Hi. assert (i = 0 \/ i = 1 \/ i = 2) as [-> | [-> | ->]] by lia; vm_compute; reflexivity.
    + intros i j k. rewrite Hnet. intros Hin. apply list_elem_of_singleton in Hin. discriminate.
  - split; [apply H2, rtc_refl|exact H1].
Defined.

End DSystemSpec.
