(* ===== verification/Termination.v ===== *)
(** * The termination detector of one node

    Models [TerminationDetector] ([src/vt/termination/termination.{h,cc,impl.h}]),
    [TermAction] ([term_action.{cc,impl.h}]) and the detector's side of
    [dijkstra-scholten/comm.cc]: the table of epochs a node keeps, the calls that
    route units to [TermState] or [TermDS], the dependencies between epochs, and
    what happens when one terminates.

    The program is a state monad over [Node] with assertions, fuel and a trace of
    outputs (messages sent, broadcasts, scheduled units, user actions run). One
    epoch's termination releases its successors, which may terminate in turn; that
    recursion goes through [epochTerminated], over which the first section is
    open. Handlers run a [TermDS] operation to its end before the calls it makes.
    The label of an epoch and the graph drawn when a hang is detected are left
    out. *)

From S2P Require Import Prelude.
From S2P Require Import Sums.
From S2P Require Import Ids.
From S2P Require Import Intervals.
From S2P Require Import Epoch.
From S2P Require Import Tree.
From S2P Require Import TermState.
From S2P Require Import DijkstraScholten.
Import EpochManip.
Import TermState.

Module TerminationDetector.

Inductive TermStatusEnum := Terminated | Pending | Remote.
Inductive CallFromEnum := Root | NonRoot.

(** An action waiting for an epoch: a user's, or the reply [inquireTerminated]
    registers. *)
Inductive Action :=
  | UserAction (id : Z)
  | SendReply (epoch from_node : Z).

(** Messages of the detector. *)
Inductive TermMsg :=
  | PropagateEpochMsg (epoch prod cons : Z)
  | EpochTerminatedMsg (epoch : Z)
  | EpochContinueMsg (epoch wave : Z)
  | HangCheckMsg
  | MakeRootedMsg (epoch : Z)
  | InquireMsg (epoch from_node : Z)
  | ReplyMsg (epoch : Z) (is_terminated : bool)
  | AcknowledgeMsg (epoch count : Z).

(** Units handed to the scheduler. *)
Inductive Task :=
  | CleanupTask (epoch : Z)
  | DisengageTask (epoch : Z)
  | RunActionsTask (epoch encapsulated_epoch : Z).

Inductive output :=
  | Send (dest : Z) (m : TermMsg)
  | Broadcast (m : TermMsg)         (* to all nodes but this one *)
  | Enqueue (t : Task)
  | RunUser (id : Z).

Record Node := MkNode {
  tree : Tree.Tree;                                    (* the base class *)
  this_node_ : Z;
  any_epoch_state_ : TermState;
  hang_ : TermState;
  epoch_state_ : gmap Z TermState;
  term_ : gmap Z TermDS.TermDS;
  epoch_ready_ : gset Z;
  epoch_wait_status_ : gset Z;
  epoch_stack_ : list Z;                               (* top first *)
  windows : Component.EpochManip;                      (* theEpoch() *)
  global_term_actions_ : list Action;
  epoch_actions_ : gmap Z (gmap Z (list Action));
  epoch_callable_actions_ : gmap Z (gmap Z (list Action))
}.

(** Assignments to members. *)
Definition with_any (s : TermState) (n : Node) : Node :=
  MkNode (tree n) (this_node_ n) s (hang_ n) (epoch_state_ n) (term_ n) (epoch_ready_ n)
    (epoch_wait_status_ n) (epoch_stack_ n) (windows n) (global_term_actions_ n)
    (epoch_actions_ n) (epoch_callable_actions_ n).
Definition with_hang (s : TermState) (n : Node) : Node :=
  MkNode (tree n) (this_node_ n) (any_epoch_state_ n) s (epoch_state_ n) (term_ n)
    (epoch_ready_ n) (epoch_wait_status_ n) (epoch_stack_ n) (windows n)
    (global_term_actions_ n) (epoch_actions_ n) (epoch_callable_actions_ n).
Definition with_states (m : gmap Z TermState) (n : Node) : Node :=
  MkNode (tree n) (this_node_ n) (any_epoch_state_ n) (hang_ n) m (term_ n) (epoch_ready_ n)
    (epoch_wait_status_ n) (epoch_stack_ n) (windows n) (global_term_actions_ n)
    (epoch_actions_ n) (epoch_callable_actions_ n).
Definition with_term (m : gmap Z TermDS.TermDS) (n : Node) : Node :=
  MkNode (tree n) (this_node_ n) (any_epoch_state_ n) (hang_ n) (epoch_state_ n) m
    (epoch_ready_ n) (epoch_wait_status_ n) (epoch_stack_ n) (windows n)
    (global_term_actions_ n) (epoch_actions_ n) (epoch_callable_actions_ n).
Definition with_ready (s : gset Z) (n : Node) : Node :=
  MkNode (tree n) (this_node_ n) (any_epoch_state_ n) (hang_ n) (epoch_state_ n) (term_ n) s
    (epoch_wait_status_ n) (epoch_stack_ n) (windows n) (global_term_actions_ n)
    (epoch_actions_ n) (epoch_callable_actions_ n).
Definition with_wait (s : gset Z) (n : Node) : Node :=
  MkNode (tree n) (this_node_ n) (any_epoch_state_ n) (hang_ n) (epoch_state_ n) (term_ n)
    (epoch_ready_ n) s (epoch_stack_ n) (windows n) (global_term_actions_ n)
    (epoch_actions_ n) (epoch_callable_actions_ n).
Definition with_stack (s : list Z) (n : Node) : Node :=
  MkNode (tree n) (this_node_ n) (any_epoch_state_ n) (hang_ n) (epoch_state_ n) (term_ n)
    (epoch_ready_ n) (epoch_wait_status_ n) s (windows n) (global_term_actions_ n)
    (epoch_actions_ n) (epoch_callable_actions_ n).
Definition with_windows (w : Component.EpochManip) (n : Node) : Node :=
  MkNode (tree n) (this_node_ n) (any_epoch_state_ n) (hang_ n) (epoch_state_ n) (term_ n)
    (epoch_ready_ n) (epoch_wait_status_ n) (epoch_stack_ n) w (global_term_actions_ n)
    (epoch_actions_ n) (epoch_callable_actions_ n).
Definition with_actions (g : list Action) (a c : gmap Z (gmap Z (list Action))) (n : Node)
    : Node :=
  MkNode (tree n) (this_node_ n) (any_epoch_state_ n) (hang_ n) (epoch_state_ n) (term_ n)
    (epoch_ready_ n) (epoch_wait_status_ n) (epoch_stack_ n) (windows n) g a c.

(** ** The monad *)

(** [None] is fuel exhausted. *)
Definition M (A : Type) : Type := Node -> option (res (A * Node * list output)).

#[export] Instance M_ret : MRet M := fun A a n => Some (Ok (a, n, [])).
#[export] Instance M_bind : MBind M := fun A B f m n =>
  match m n with
  | None => None
  | Some (Stop e) => Some (Stop e)
  | Some (Ok (a, n1, o1)) =>
      match f a n1 with
      | None => None
      | Some (Stop e) => Some (Stop e)
      | Some (Ok (b, n2, o2)) => Some (Ok (b, n2, o1 ++ o2))
      end
  end.

Definition get : M Node := fun n => Some (Ok (n, n, [])).
Definition modify (f : Node -> Node) : M unit := fun n => Some (Ok (tt, f n, [])).
Definition emit (o : output) : M unit := fun n => Some (Ok (tt, n, [o])).
Definition lift {A} (r : res A) : M A := fun n =>
  match r with Ok a => Some (Ok (a, n, [])) | Stop e => Some (Stop e) end.
Definition nop : M unit := mret tt.
(** [vtAssert] and [vtAbort] as statements. *)
Definition check (b : bool) : M unit := lift (vtAssert b (Ok tt)).
Fixpoint for_each {A} (l : list A) (f : A -> M unit) : M unit :=
  match l with [] => nop | a :: l => f a ;; for_each l f end.

(** ** Tests on epochs *)

Definition is_rooted (epoch : Z) : bool :=
  let is_sentinel := (epoch =? any_epoch_sentinel) || (epoch =? no_epoch) in
  if is_sentinel then false else EpochManip.isRooted epoch.

Definition isDS (epoch : Z) : bool :=
  if is_rooted epoch
  then EpochManip.category epoch =? cat_to_Z DijkstraScholtenEpoch
  else false.

(** ** Tables *)

Definition findOrCreateState (epoch : Z) (is_ready : bool) : M TermState :=
  let local_term := is_ready in
  let epoch_active := is_ready in
  check (negb (epoch =? any_epoch_sentinel));;
  n ← get;
  match epoch_state_ n !! epoch with
  | Some s => mret s
  | None =>
      let s := make4 epoch epoch_active local_term (Tree.getNumChildren (tree n)) in
      modify (fun n => with_states (<[epoch := s]> (epoch_state_ n)) n);;
      mret s
  end.

(** [getDSTerm(epoch, is_root)]: [None] is [nullptr]. *)
Definition getDSTerm (epoch : Z) (is_root : bool) : M (option TermDS.TermDS) :=
  if isDS epoch then
    n ← get;
    match term_ n !! epoch with
    | Some d => mret (Some d)
    | None =>
        let d := TermDS.make epoch is_root (this_node_ n) in
        modify (fun n => with_term (<[epoch := d]> (term_ n)) n);;
        mret (Some d)
    end
  else mret None.

(** [StateDS::getTerminator(epoch)]. *)
Definition getTerminator (epoch : Z) : M TermDS.TermDS :=
  n ← get;
  match term_ n !! epoch with
  | Some d => mret d
  | None =>
      let d := TermDS.make epoch false (this_node_ n) in
      modify (fun n => with_term (<[epoch := d]> (term_ n)) n);;
      mret d
  end.

(** Which of the node's states a reference denotes. *)
Inductive state_ref := AnyEpochState | HangState | EpochState (epoch : Z).

Definition read_state (n : Node) (r : state_ref) : option TermState :=
  match r with
  | AnyEpochState => Some (any_epoch_state_ n)
  | HangState => Some (hang_ n)
  | EpochState epoch => epoch_state_ n !! epoch
  end.

Definition write_state (r : state_ref) (s : TermState) (n : Node) : Node :=
  match r with
  | AnyEpochState => with_any s n
  | HangState => with_hang s n
  | EpochState epoch => with_states (<[epoch := s]> (epoch_state_ n)) n
  end.

(** [theEpoch()->getTerminatedWindow(epoch)], and an operation on it. *)
Definition with_window {A} (epoch : Z) (f : EpochWindow.EpochWindow -> res (EpochWindow.EpochWindow * A))
    : M A :=
  n ← get;
  '(m, p) ← lift (Component.getTerminatedWindow (windows n) epoch);
  match Component.deref m p with
  | None => lift (Stop AssertFailed)
  | Some w =>
      '(w, a) ← lift (f w);
      modify (with_windows (Component.store m p w));;
      mret a
  end.

Definition window_isTerminated (epoch : Z) : M bool :=
  with_window epoch (fun w => b ← EpochWindow.isTerminated w epoch; Ok (w, b)).

(** [updateResolvedEpochs]. *)
Definition updateResolvedEpochs (epoch : Z) : M unit :=
  if negb (epoch =? any_epoch_sentinel)
  then with_window epoch (fun w => w ← EpochWindow.setEpochTerminated w epoch; Ok (w, tt))
  else nop.

(** The epoch stack. It is an array of 64 slots that nothing checks: a push past
    its end or a read below its start is undefined. *)
Definition stack_capacity : nat := 64.

Definition pushEpoch (epoch : Z) : M unit :=
  check (negb (epoch =? no_epoch));;
  modify (fun n => with_stack (epoch :: epoch_stack_ n) n).

(** [getEpoch()] asserts that the stack is not empty. *)
Definition getEpoch : M Z :=
  n ← get;
  match epoch_stack_ n with
  | [] => lift (Stop AssertFailed)
  | e :: _ => mret e
  end.

(** [popEpoch(epoch)]: with [no_epoch] it reads the top after the pop; [None] is
    the slot below the array. *)
Definition popEpoch (epoch : Z) : M (option Z) :=
  n ← get;
  match epoch_stack_ n with
  | [] => lift (Stop AssertFailed)
  | e :: rest =>
      check ((e =? epoch) || (epoch =? no_epoch));;
      modify (with_stack rest);;
      mret (if epoch =? no_epoch then head rest else Some epoch)
  end.

(** ** Operations *)

(** The settings, the double comparison of [countsConstant], and the order in
    which an [unordered_map] or [unordered_set] with given keys is traversed. *)
Record Env := {
  cfg : Config;
  log_exceeds : Z -> Z -> bool;
  visit : gset Z -> list Z
}.

Section ops.
Context (E : Env).

(** [action()]. *)
Definition run_action (a : Action) : M unit :=
  match a with
  | UserAction id => emit (RunUser id)
  | SendReply epoch from_node => emit (Send from_node (ReplyMsg epoch true))
  end.

Definition queueActions (epoch : Z) : M unit :=
  n ← get;
  if epoch =? any_epoch_sentinel
  then
    for_each (global_term_actions_ n) run_action;;
    modify (fun n => with_actions [] (epoch_actions_ n) (epoch_callable_actions_ n) n)
  else
    let make_runnable (actions : gmap Z (gmap Z (list Action))) :=
      match actions !! epoch with
      | Some by_epoch => for_each (visit E (dom by_epoch))
                           (fun encap_epoch => emit (Enqueue (RunActionsTask epoch encap_epoch)))
      | None => nop
      end in
    make_runnable (epoch_actions_ n);;
    make_runnable (epoch_callable_actions_ n).

(** [hangCheckHandler]. *)
Definition hangCheckHandler : M unit :=
  modify (fun n => with_hang (activateEpoch (hang_ n)) n).

(** [cleanupEpoch]. *)
Definition cleanupEpoch (epoch : Z) (from : CallFromEnum) : M unit :=
  if negb (epoch =? any_epoch_sentinel) then
    (if isDS epoch then
       match from with
       | NonRoot => modify (fun n => with_term (delete epoch (term_ n)) n)
       | Root => emit (Enqueue (CleanupTask epoch))
       end
     else
       match from with
       | NonRoot => modify (fun n => with_states (delete epoch (epoch_state_ n)) n)
       | Root => emit (Enqueue (CleanupTask epoch))
       end);;
    modify (fun n => with_ready (epoch_ready_ n ∖ {[epoch]}) n)
  else nop.

Section rec.
Context (epochTerminated : Z -> CallFromEnum -> M unit).

(** What [propagateEpoch] does beyond its own state. *)
Definition handle_event (epoch : Z) (e : event) : M unit :=
  match e with
  | SendCounter p c =>
      n ← get; emit (Send (Tree.getParent (tree n)) (PropagateEpochMsg epoch p c))
  | Continue wave => emit (Broadcast (EpochContinueMsg epoch wave))
  | HangCheck => emit (Broadcast HangCheckMsg);; hangCheckHandler
  | Detected => emit (Broadcast (EpochTerminatedMsg epoch));; epochTerminated epoch Root
  end.

(** An operation on one state and its events. *)
Definition on_state (r : state_ref) (f : bool -> TermState -> res (TermState * list event))
    : M unit :=
  n ← get;
  match read_state n r with
  | None => nop
  | Some s =>
      '(s, es) ← lift (f (Tree.isRoot (tree n)) s);
      modify (write_state r s);;
      for_each es (handle_event (TermState.getEpoch s))
  end.

Definition propagateEpoch (r : state_ref) : M unit :=
  on_state r (TermState.propagateEpoch (cfg E) (log_exceeds E)).

(** [maybePropagate]. *)
Definition maybePropagate : M unit :=
  on_state AnyEpochState (propagateIfReady (cfg E) (log_exceeds E));;
  on_state HangState (propagateIfReady (cfg E) (log_exceeds E));;
  n ← get;
  for_each (visit E (dom (epoch_state_ n)))
    (fun epoch => on_state (EpochState epoch) (propagateIfReady (cfg E) (log_exceeds E))).

(** An operation of [TermDS] on the epoch's entry, then the calls it made:
    [StateDS::acknowledge], [rootTerminated] and [disengage]. *)
Definition handle_ds_event (epoch : Z) (e : TermDS.ds_event) : M unit :=
  match e with
  | TermDS.Acknowledge predecessor count => emit (Send predecessor (AcknowledgeMsg epoch count))
  | TermDS.RootTerminated => epochTerminated epoch Root
  | TermDS.Disengage => emit (Enqueue (DisengageTask epoch))
  end.

Definition on_ds (epoch : Z)
    (f : TermDS.TermDS -> res (TermDS.TermDS * list TermDS.ds_event)) : M unit :=
  n ← get;
  match term_ n !! epoch with
  | None => nop
  | Some d =>
      '(d, es) ← lift (f d);
      modify (fun n => with_term (<[epoch := d]> (term_ n)) n);;
      for_each es (handle_ds_event epoch)
  end.

(** [produceConsume(epoch, num_units, produce, node)]. *)
Definition produceConsume (epoch num_units : Z) (produce : bool) (node : Z) : M unit :=
  on_state AnyEpochState
    (fun root s => produceConsumeState (cfg E) (log_exceeds E) root s num_units produce);;
  if negb (epoch =? any_epoch_sentinel) then
    if isDS epoch then
      getDSTerm epoch false;;
      n ← get;
      let node := if node =? uninitialized_destination then this_node_ n else node in
      if produce
      then on_ds epoch (fun d => d ← TermDS.msgSent node num_units d; Ok (d, []))
      else on_ds epoch (TermDS.msgProcessed node num_units)
    else
      findOrCreateState epoch false;;
      on_state (EpochState epoch)
        (fun root s => produceConsumeState (cfg E) (log_exceeds E) root s num_units produce)
  else nop.

Definition produce (epoch num_units node : Z) : M unit :=
  let in_epoch := if epoch =? no_epoch then any_epoch_sentinel else epoch in
  produceConsume in_epoch num_units true node.

Definition consume (epoch num_units node : Z) : M unit :=
  let in_epoch := if epoch =? no_epoch then any_epoch_sentinel else epoch in
  produceConsume in_epoch num_units false node.

Definition produceOnGlobal : M unit := produce any_epoch_sentinel 1 uninitialized_destination.
Definition consumeOnGlobal : M unit := consume any_epoch_sentinel 1 uninitialized_destination.

(** [removeEpochStateDependency] and [addEpochStateDependency]. *)
Definition removeEpochStateDependency (ep : Z) : M unit :=
  if negb (isDS ep) then
    s ← findOrCreateState ep true;
    let '(s, deps) := decrementDependency s in
    modify (write_state (EpochState ep) s);;
    if deps =? 0 then maybePropagate else nop
  else nop.

Definition addEpochStateDependency (ep : Z) : M unit :=
  if negb (isDS ep) then
    s ← findOrCreateState ep true;
    modify (write_state (EpochState ep) (incrementDependency s))
  else nop.

(** [getEpochDep(epoch)]: the successor set of the epoch's entry. *)
Definition getEpochDep (epoch : Z) : M (option EpochDependency.EpochDependency) :=
  if isDS epoch then
    d ← getDSTerm epoch false; mret (TermDS.dep <$> d)
  else
    s ← findOrCreateState epoch false; mret (Some (TermState.dep s)).

Definition with_ds_dep (dep : EpochDependency.EpochDependency) (d : TermDS.TermDS)
    : TermDS.TermDS :=
  TermDS.MkDS dep (TermDS.parent d) (TermDS.self d) (TermDS.C d) (TermDS.ackedArbitrary d)
    (TermDS.ackedParent d) (TermDS.reqedParent d) (TermDS.engagementMessageCount d)
    (TermDS.D d) (TermDS.processedSum d) (TermDS.lC d) (TermDS.lD d) (TermDS.outstanding d)
    (TermDS.is_terminated d).

Definition putEpochDep (epoch : Z) (dep : EpochDependency.EpochDependency) : M unit :=
  if isDS epoch
  then modify (fun n => with_term (alter (with_ds_dep dep) epoch (term_ n)) n)
  else modify (fun n => with_states (alter (with_dep dep) epoch (epoch_state_ n)) n).

(** A call [EpochDependency] makes on the detector. *)
Definition dep_call (c : EpochDependency.dep_call) : M unit :=
  match c with
  | EpochDependency.CallProduce ep => produce ep 1 uninitialized_destination
  | EpochDependency.CallConsume ep => consume ep 1 uninitialized_destination
  | EpochDependency.CallAddDep ep => addEpochStateDependency ep
  | EpochDependency.CallRemoveDep ep => removeEpochStateDependency ep
  end.

(** The body of [epochTerminated]. *)
Definition epochTerminated_body (epoch : Z) (from : CallFromEnum) : M unit :=
  (if negb (epoch =? any_epoch_sentinel) then
     dep ← getEpochDep epoch;
     match dep with
     | None => nop
     | Some d =>
         let '(d, calls) := EpochDependency.clearSuccessors d in
         for_each calls dep_call;;
         putEpochDep epoch d
     end
   else nop);;
  queueActions epoch;;
  updateResolvedEpochs epoch;;
  cleanupEpoch epoch from;;
  if negb (epoch =? any_epoch_sentinel) then
    n ← get;
    c ← (if negb (is_rooted epoch) || isDS epoch then mret true
         else root ← lift (EpochManip.node epoch); mret (root =? this_node_ n));
    if (c : bool) then consumeOnGlobal else nop
  else nop.

End rec.

(** [epochTerminated], its recursion on fuel. *)
Fixpoint epochTerminated (fuel : nat) (epoch : Z) (from : CallFromEnum) : M unit :=
  match fuel with
  | O => fun _ => None
  | S k => epochTerminated_body (epochTerminated k) epoch from
  end.

(** ** The detector's entry points *)
Section api.
Context (fuel : nat).

Definition maybePropagate_ : M unit := maybePropagate (epochTerminated fuel).
Definition produce_ : Z -> Z -> Z -> M unit := produce (epochTerminated fuel).
Definition consume_ : Z -> Z -> Z -> M unit := consume (epochTerminated fuel).
Definition removeDependency_ : Z -> M unit := removeEpochStateDependency (epochTerminated fuel).

Definition getNumUnits : M Z := n ← get; mret (g_cons2 (any_epoch_state_ n)).

Definition setLocalTerminated (terminated no_propagate : bool) : M unit :=
  modify (fun n => with_any (notifyLocalTerminated terminated (any_epoch_state_ n)) n);;
  if terminated && negb no_propagate then maybePropagate_ else nop.

(** A counter from a child. *)
Definition propagateEpochExternal (epoch prod_ cons_ : Z) : M unit :=
  let f root s := propagateEpochExternalState (cfg E) (log_exceeds E) root s prod_ cons_ in
  if epoch =? any_epoch_sentinel then on_state (epochTerminated fuel) AnyEpochState f
  else if epoch =? no_epoch then on_state (epochTerminated fuel) HangState f
  else
    findOrCreateState epoch false;;
    on_state (epochTerminated fuel) (EpochState epoch) f.

(** [epochContinue]: the wave the root starts. *)
Definition epochContinue (epoch wave : Z) : M unit :=
  let f (_ : bool) s := s ← receiveContinueSignal wave s; Ok (s, []) in
  (if epoch =? any_epoch_sentinel then on_state (epochTerminated fuel) AnyEpochState f
   else if epoch =? no_epoch then on_state (epochTerminated fuel) HangState f
   else on_state (epochTerminated fuel) (EpochState epoch) f);;
  maybePropagate_.

Definition resetGlobalTerm : M unit :=
  modify (fun n =>
    with_any (make4 any_epoch_sentinel false true (Tree.getNumChildren (tree n))) n).

Definition freeEpoch (epoch : Z) : M unit :=
  modify (fun n => with_ready (epoch_ready_ n ∖ {[epoch]}) n);;
  modify (fun n => with_actions (global_term_actions_ n) (delete epoch (epoch_actions_ n))
                     (epoch_callable_actions_ n) n);;
  modify (fun n => with_states (delete epoch (epoch_state_ n)) n).

(** [testEpochTerminated]: an epoch rooted elsewhere is inquired after once. *)
Definition testEpochTerminated (epoch : Z) : M TermStatusEnum :=
  t ← window_isTerminated epoch;
  if (t : bool) then mret Terminated
  else if EpochManip.isRooted epoch then
    root ← lift (EpochManip.node epoch);
    n ← get;
    if root =? this_node_ n then
      t ← window_isTerminated epoch;
      mret (if (t : bool) then Terminated else Pending)
    else
      (if decide (epoch ∈ epoch_wait_status_ n) then nop
       else
         emit (Send root (InquireMsg epoch (this_node_ n)));;
         modify (fun n => with_wait ({[epoch]} ∪ epoch_wait_status_ n) n));;
      mret Remote
  else
    t ← window_isTerminated epoch;
    mret (if (t : bool) then Terminated else Pending).

Definition isEpochTerminated (epoch : Z) : M bool :=
  s ← testEpochTerminated epoch;
  mret (match s with Terminated => true | _ => false end).

(** ** Actions on termination ([TermAction]) *)

Definition afterAddEpochAction (epoch : Z) : M unit :=
  status ← testEpochTerminated epoch;
  match status with Terminated => queueActions epoch | _ => nop end.

Definition push_action (epoch encap : Z) (a : Action) (m : gmap Z (gmap Z (list Action)))
    : gmap Z (gmap Z (list Action)) :=
  let by_epoch := default ∅ (m !! epoch) in
  <[epoch := <[encap := default [] (by_epoch !! encap) ++ [a]]> by_epoch]> m.

(** [addAction(action)] and [addAction(epoch, action)]. *)
Definition addGlobalAction (a : Action) : M unit :=
  modify (fun n => with_actions (global_term_actions_ n ++ [a]) (epoch_actions_ n)
                     (epoch_callable_actions_ n) n).

Definition addActionEpoch (epoch : Z) (a : Action) : M unit :=
  if epoch =? any_epoch_sentinel then addGlobalAction a
  else
    encapsulated_epoch ← getEpoch;
    produce_ encapsulated_epoch 1 uninitialized_destination;;
    modify (fun n => with_actions (global_term_actions_ n)
      (push_action epoch encapsulated_epoch a (epoch_actions_ n)) (epoch_callable_actions_ n) n);;
    afterAddEpochAction epoch.

Definition addActionUnique (epoch : Z) (a : Action) : M unit :=
  encapsulated_epoch ← getEpoch;
  produce_ encapsulated_epoch 1 uninitialized_destination;;
  modify (fun n => with_actions (global_term_actions_ n) (epoch_actions_ n)
    (push_action epoch encapsulated_epoch a (epoch_callable_actions_ n)) n);;
  afterAddEpochAction epoch.

(** The actions registered from one epoch on another are run and dropped; an
    entry left without actions goes too. *)
Definition drop_actions (epoch encap : Z) (m : gmap Z (gmap Z (list Action)))
    : gmap Z (gmap Z (list Action)) :=
  match m !! epoch with
  | None => m
  | Some by_epoch =>
      let by_epoch := delete encap by_epoch in
      if decide (by_epoch = ∅) then delete epoch m else <[epoch := by_epoch]> m
  end.

Definition run_registered (encap : Z) (l : list Action) : M unit :=
  for_each l (fun a => consume_ encap 1 uninitialized_destination;; run_action a).

Definition triggerAllEpochActions (epoch encap : Z) : M unit :=
  n ← get;
  run_registered encap (default [] (epoch_actions_ n !! epoch ≫= (.!! encap)));;
  modify (fun n => with_actions (global_term_actions_ n)
    (drop_actions epoch encap (epoch_actions_ n)) (epoch_callable_actions_ n) n);;
  n ← get;
  run_registered encap (default [] (epoch_callable_actions_ n !! epoch ≫= (.!! encap)));;
  modify (fun n => with_actions (global_term_actions_ n) (epoch_actions_ n)
    (drop_actions epoch encap (epoch_callable_actions_ n)) n).

Definition inquireTerminated (epoch from : Z) : M unit :=
  let is_rooted := EpochManip.isRooted epoch in
  epoch_root_node ← lift (EpochManip.node epoch);
  n ← get;
  check (negb is_rooted || (epoch_root_node =? this_node_ n));;
  addActionEpoch epoch (SendReply epoch from).

Definition replyTerminated (epoch : Z) (is_terminated : bool) : M unit :=
  check is_terminated;;
  modify (fun n => with_wait (epoch_wait_status_ n ∖ {[epoch]}) n);;
  epochTerminated fuel epoch NonRoot.

(** ** Dependencies and the life of an epoch *)

(** [addDependency(predecessor, successor)], with the calls the two operations on
    the predecessor's successors make. *)
Definition addDependency (predecessor successor : Z) : M unit :=
  t ← isEpochTerminated predecessor;
  if negb t then
    pred ← getEpochDep predecessor;
    succ ← getEpochDep successor;
    match pred, succ with
    | Some pred, Some succ =>
        let '(pred, _, calls) :=
          EpochDependency.removeIntersection pred (EpochDependency.getSuccessors succ) in
        for_each calls (dep_call (epochTerminated fuel));;
        putEpochDep predecessor pred;;
        let '(pred, calls) := EpochDependency.addSuccessor pred successor in
        for_each (take 1 calls) (dep_call (epochTerminated fuel));;
        putEpochDep predecessor pred;;
        for_each (drop 1 calls) (dep_call (epochTerminated fuel))
    | _, _ => nop
    end
  else nop.

Definition addLocalDependency (epoch : Z) : M unit :=
  (if negb (epoch =? any_epoch_sentinel) then addEpochStateDependency epoch else nop);;
  produce_ epoch 1 uninitialized_destination;;
  modify (fun n => with_any (incrementDependency (any_epoch_state_ n)) n);;
  modify (fun n => with_hang (incrementDependency (hang_ n)) n).

Definition releaseLocalDependency (epoch : Z) : M unit :=
  modify (fun n => with_hang (fst (decrementDependency (hang_ n))) n);;
  modify (fun n => with_any (fst (decrementDependency (any_epoch_state_ n))) n);;
  consume_ epoch 1 uninitialized_destination;;
  if negb (epoch =? any_epoch_sentinel) then removeDependency_ epoch else nop.

Definition finishNoActivateEpoch (epoch : Z) : M unit :=
  n ← get;
  if decide (epoch ∈ epoch_ready_ n) then nop
  else
    modify (fun n => with_ready ({[epoch]} ∪ epoch_ready_ n) n);;
    consume_ epoch 1 uninitialized_destination.

(** [activateEpoch]; on the root of a rooted epoch it produces the unit that keeps
    the whole program alive until the epoch terminates. *)
Definition activateEpoch (epoch : Z) : M unit :=
  if negb (isDS epoch) then
    n ← get;
    c ← (if is_rooted epoch
         then root ← lift (EpochManip.node epoch); mret (root =? this_node_ n)
         else mret false);
    (if (c : bool) then produceOnGlobal (epochTerminated fuel) else nop);;
    findOrCreateState epoch true;;
    on_state (epochTerminated fuel) (EpochState epoch) (activateState (cfg E) (log_exceeds E))
  else nop.

Definition finishedEpoch (epoch : Z) : M unit :=
  finishNoActivateEpoch epoch;;
  activateEpoch epoch.

Definition window_activate (epoch : Z) : M unit :=
  with_window epoch (fun w => w ← EpochWindow.activateEpoch w epoch; Ok (w, tt)).

Definition makeRootedHan (epoch : Z) (is_root : bool) : M unit :=
  let is_ready := negb is_root in
  window_activate epoch;;
  findOrCreateState epoch is_ready;;
  produce_ epoch 1 uninitialized_destination;;
  if negb is_root then finishedEpoch epoch else nop.

(** [if (successor.valid()) addDependency(epoch, successor)]. *)
Definition add_parent (epoch : Z) (successor : Z) : M unit :=
  if negb (successor =? no_epoch) then addDependency epoch successor else nop.

Definition initializeRootedWaveEpoch (epoch : Z) (successor : Z) : M unit :=
  emit (Broadcast (MakeRootedMsg epoch));;
  makeRootedHan epoch true;;
  add_parent epoch successor.

Definition initializeRootedDSEpoch (epoch : Z) (successor : Z) : M unit :=
  n ← get;
  check (match term_ n !! epoch with Some _ => false | None => true end);;
  getDSTerm epoch true;;
  produce_ epoch 1 uninitialized_destination;;
  produceOnGlobal (epochTerminated fuel);;
  add_parent epoch successor.

Definition initializeRootedEpoch (epoch : Z) (use_ds : bool) (successor : Z) : M unit :=
  if use_ds then initializeRootedDSEpoch epoch successor
  else initializeRootedWaveEpoch epoch successor.

Definition setupNewEpoch (epoch : Z) : M unit :=
  s ← findOrCreateState epoch false;
  modify (write_state (EpochState epoch) (notifyLocalTerminated true s)).

Definition initializeCollectiveEpoch (epoch : Z) (successor : Z) : M unit :=
  produce_ epoch 1 uninitialized_destination;;
  produceOnGlobal (epochTerminated fuel);;
  setupNewEpoch epoch;;
  add_parent epoch successor.

(** An allocation from [theEpoch()], whose loop has fuel of its own. *)
Definition allocate (f : Component.EpochManip -> option (res (Component.EpochManip * Z)))
    : M Z := fun n =>
  match f (windows n) with
  | None => None
  | Some (Stop e) => Some (Stop e)
  | Some (Ok (m, epoch)) => Some (Ok (epoch, with_windows m n, []))
  end.

Definition makeEpochRootedWave (successor : Z) : M Z :=
  n ← get;
  epoch ← allocate (fun m => Component.getNextRootedEpoch fuel (this_node_ n) m NoCategoryEpoch);
  initializeRootedWaveEpoch epoch successor;;
  mret epoch.

Definition makeEpochRootedDS (successor : Z) : M Z :=
  n ← get;
  epoch ← allocate
    (fun m => Component.getNextRootedEpoch fuel (this_node_ n) m DijkstraScholtenEpoch);
  initializeRootedDSEpoch epoch successor;;
  mret epoch.

Definition makeEpochRooted (use_ds : bool) (successor : Z) : M Z :=
  let force_use_ds := vt_term_rooted_use_ds (cfg E) in
  let force_use_wave := vt_term_rooted_use_wave (cfg E) in
  check (negb (force_use_ds && force_use_wave));;
  if (use_ds || force_use_ds) && negb force_use_wave
  then makeEpochRootedDS successor
  else makeEpochRootedWave successor.

Definition makeEpochCollective (successor : Z) : M Z :=
  epoch ← allocate (fun m => Component.getNextCollectiveEpoch fuel m NoCategoryEpoch);
  initializeCollectiveEpoch epoch successor;;
  mret epoch.

Definition makeEpoch (is_coll use_ds : bool) (successor : Z) : M Z :=
  if is_coll then makeEpochCollective successor else makeEpochRooted use_ds successor.

Definition getNumTerminatedCollectiveEpochs : M Z :=
  with_window any_epoch_sentinel (fun w => Ok (w, EpochWindow.getTotalTerminated w)).

(** [disableTD] and [enableTD]. *)
Definition td_state (in_epoch : Z) (f : TermState -> TermState) : M unit :=
  check (negb (isDS in_epoch));;
  if in_epoch =? any_epoch_sentinel
  then modify (fun n => with_any (f (any_epoch_state_ n)) n)
  else s ← findOrCreateState in_epoch false; modify (write_state (EpochState in_epoch) (f s)).

Definition disableTD (in_epoch : Z) : M unit := td_state in_epoch incrementDependency.
Definition enableTD (in_epoch : Z) : M unit :=
  td_state in_epoch (fun s => fst (decrementDependency s)).

(** ** Messages and scheduled units *)

Definition receive (m : TermMsg) : M unit :=
  match m with
  | PropagateEpochMsg epoch p c => propagateEpochExternal epoch p c
  | EpochTerminatedMsg epoch => epochTerminated fuel epoch NonRoot
  | EpochContinueMsg epoch wave => epochContinue epoch wave
  | HangCheckMsg => hangCheckHandler
  | MakeRootedMsg epoch => makeRootedHan epoch false
  | InquireMsg epoch from_node => inquireTerminated epoch from_node
  | ReplyMsg epoch is_terminated => replyTerminated epoch is_terminated
  | AcknowledgeMsg epoch count =>
      getTerminator epoch;; on_ds (epochTerminated fuel) epoch (TermDS.gotAck count)
  end.

Definition run_task (t : Task) : M unit :=
  match t with
  | CleanupTask epoch => cleanupEpoch epoch NonRoot
  | DisengageTask epoch =>
      d ← getDSTerm epoch false;
      match d with
      | Some d => if negb (TermDS.isEngaged d) then cleanupEpoch epoch NonRoot else nop
      | None => nop
      end
  | RunActionsTask epoch encap => triggerAllEpochActions epoch encap
  end.

End api.
End ops.

(** ** The constructor *)
Definition make (this_node num_nodes : Z) (w : Component.EpochManip) : Node :=
  let t := Tree.makeDefault this_node num_nodes in
  MkNode t this_node (make4 any_epoch_sentinel false true (Tree.getNumChildren t))
    (make4 no_epoch true false (Tree.getNumChildren t)) ∅ ∅ ∅ ∅ [any_epoch_sentinel] w [] ∅ ∅.

(** ** How much a node can still terminate

    Only a state that is active, undetected and not owed by dependencies can be
    found terminated by a chain of releases, and only a [TermDS] that holds a
    request. Their number bounds the depth of the recursion through
    [epochTerminated]. *)
Definition mu_global (s : TermState) : Z := if term_detected_ s then 0 else 1.
Definition mu_state (s : TermState) : Z :=
  if term_detected_ s then 0 else if epoch_active_ s && (0 <=? deps_ s) then 1 else 0.
Definition mu_ds (d : TermDS.TermDS) : Z :=
  match TermDS.outstanding d with [] => 0 | _ => 1 end.
Definition mu (n : Node) : Z :=
  mu_global (any_epoch_state_ n) + mu_global (hang_ n) +
  msum mu_state (epoch_state_ n) + msum mu_ds (term_ n).

(** Every [TermDS] of a node knows which node it is on. *)
Definition node_ok (n : Node) : Prop :=
  forall ep d, term_ n !! ep = Some d -> TermDS.self d = this_node_ n.

Lemma mu_global_range s : 0 <= mu_global s <= 1.
Proof. unfold mu_global. case_match; lia. Qed.
Lemma mu_state_range s : 0 <= mu_state s <= 1.
Proof. unfold mu_state. repeat case_match; lia. Qed.
Lemma mu_ds_range d : 0 <= mu_ds d <= 1.
Proof. unfold mu_ds. case_match; lia. Qed.

Lemma mu_nonneg n : 0 <= mu n.
Proof.
  unfold mu. pose proof (mu_global_range (any_epoch_state_ n)).
  pose proof (mu_global_range (hang_ n)).
  pose proof (msum_nonneg mu_state (epoch_state_ n) ltac:(intros; apply mu_state_range)).
  pose proof (msum_nonneg mu_ds (term_ n) ltac:(intros; apply mu_ds_range)). lia.
Qed.

(** ** Computations that return

    [good k j m n]: with room for [k], [m] returns from [n] and leaves a node that
    can terminate at most [j] more epochs than before. *)
Definition good {A} (k : Z) (j : nat) (m : M A) (n : Node) : Prop :=
  node_ok n -> mu n + Z.of_nat j < k ->
  exists r, m n = Some r /\
    forall a n' o, r = Ok (a, n', o) -> node_ok n' /\ mu n' <= mu n + Z.of_nat j.

Definition tame {A} (k : Z) (j : nat) (m : M A) : Prop := forall n, good k j m n.

Lemma good_weaken {A} k j j' (m : M A) n : good k j m n -> (j <= j')%nat -> good k j' m n.
Proof.
  intros H Hj Hok Hm. destruct (H Hok ltac:(lia)) as (r & Hr & Hr'). exists r. split; [done|].
  intros a n' o Ho. destruct (Hr' a n' o Ho). split; [done|lia].
Qed.

Lemma tame_weaken {A} k j j' (m : M A) : tame k j m -> (j <= j')%nat -> tame k j' m.
Proof. intros H Hj n. by eapply good_weaken. Qed.

Lemma good_ret {A} k j (a : A) n : good k j (mret a) n.
Proof. intros Hok _. eexists. split; [done|]. intros ? ? ? [= <- <- <-]. split; [done|lia]. Qed.

(** A computation that returns and leaves a node that can terminate at most [j1]
    more, then one that needs room for the rest. *)
Lemma good_bind {A B} k j1 j2 (m : M A) (f : A -> M B) n :
  good k j1 m n ->
  (forall a n' o, m n = Some (Ok (a, n', o)) -> node_ok n' ->
     mu n' <= mu n + Z.of_nat j1 -> good k j2 (f a) n') ->
  good k (j1 + j2) (m ≫= f) n.
Proof.
  intros Hm Hf Hok Hk. destruct (Hm Hok ltac:(lia)) as (r & Hr & Hn).
  unfold mbind, M_bind. rewrite Hr. destruct r as [[[a n1] o1]|e]; [|by eexists].
  destruct (Hn a n1 o1 eq_refl) as [Hok1 Hmu1].
  destruct (Hf a n1 o1 Hr Hok1 Hmu1 Hok1 ltac:(lia)) as (r & Hr2 & Hn2). rewrite Hr2.
  destruct r as [[[b n2] o2]|e]; [|by eexists]. eexists. split; [done|].
  intros ? ? ? [= <- <- <-]. destruct (Hn2 b n2 o2 eq_refl). split; [done|lia].
Qed.

Lemma tame_bind {A B} k j1 j2 (m : M A) (f : A -> M B) :
  tame k j1 m -> (forall a, tame k j2 (f a)) -> tame k (j1 + j2) (m ≫= f).
Proof. intros Hm Hf n. apply good_bind; [apply Hm|]. intros a n' o _ _ _. apply Hf. Qed.

Lemma tame_bind0 {A B} k (m : M A) (f : A -> M B) :
  tame k 0 m -> (forall a, tame k 0 (f a)) -> tame k 0 (m ≫= f).
Proof. intros Hm Hf. by apply (tame_bind k 0 0). Qed.

Lemma tame_ret {A} k j (a : A) : tame k j (mret a).
Proof. intros n. apply good_ret. Qed.

Lemma tame_emit k o : tame k 0 (emit o).
Proof. intros n Hok _. eexists. split; [done|]. intros ? ? ? [= <- <- <-]. split; [done|lia]. Qed.

Lemma tame_lift {A} k (r : res A) : tame k 0 (lift r).
Proof.
  intros n Hok _. unfold lift. destruct r; eexists; (split; [done|]);
    intros ? ? ? [= <- <- <-]. split; [done|lia].
Qed.

Lemma tame_check k b : tame k 0 (check b).
Proof. apply tame_lift. Qed.

(** Reading the node and going on. *)
Lemma tame_get {B} k j (f : Node -> M B) : (forall n, good k j (f n) n) -> tame k j (get ≫= f).
Proof. intros H n. apply (good_bind k 0 j); [by intros ? ?; eexists; split; [done|]; intros ? ? ? [= <- <- <-]; split; [done|lia]|].
  intros a n' o [= <- <- <-] _ _. apply H. Qed.

Lemma good_lift {A B} k j (r : res A) (f : A -> M B) n :
  (forall a, r = Ok a -> good k j (f a) n) -> good k j (lift r ≫= f) n.
Proof.
  intros H. apply (good_bind k 0 j); [apply tame_lift|].
  unfold lift. intros a n' o Hr _ _. destruct r as [b|e]; [|done]. injection Hr as <- <- <-. by apply H.
Qed.

(** An assignment to the node. *)
Lemma good_modify k j f n :
  (node_ok n -> node_ok (f n)) -> mu (f n) <= mu n + Z.of_nat j -> good k j (modify f) n.
Proof. intros H1 H2 Hok _. eexists. split; [done|]. intros ? ? ? [= <- <- <-]. auto. Qed.

Lemma tame_for_each {A} k (l : list A) (f : A -> M unit) :
  (forall a, a ∈ l -> tame k 0 (f a)) -> tame k 0 (for_each l f).
Proof.
  induction l as [|a l IH]; intros H; simpl; [apply tame_ret|].
  apply tame_bind0; [apply H; elems|intros _; apply IH; intros; apply H; elems].
Qed.

(** Assignments that leave the measure and the [TermDS] entries alone. *)
Lemma tame_modify k f :
  (forall n, mu_global (any_epoch_state_ (f n)) = mu_global (any_epoch_state_ n) /\
     mu_global (hang_ (f n)) = mu_global (hang_ n) /\
     epoch_state_ (f n) = epoch_state_ n /\ term_ (f n) = term_ n /\ this_node_ (f n) = this_node_ n) ->
  tame k 0 (modify f).
Proof.
  intros H n. destruct (H n) as (H1 & H2 & H3 & H4 & H5). apply good_modify.
  - unfold node_ok. by rewrite H4, H5.
  - unfold mu. rewrite H1, H2, H3, H4. lia.
Qed.

Ltac quiet_modify := apply tame_modify; intros; by split_and!.

(** *** Pieces *)

Lemma mu_write_state r s n s0 :
  read_state n r = Some s0 ->
  mu (write_state r s n) =
    match r with
    | EpochState _ => mu n - mu_state s0 + mu_state s
    | _ => mu n - mu_global s0 + mu_global s
    end.
Proof.
  destruct r as [| |ep]; simpl; unfold mu; simpl.
  - intros [= ->]. lia.
  - intros [= ->]. lia.
  - intros H. rewrite msum_insert, H. simpl. lia.
Qed.

Lemma node_ok_write_state r s n : node_ok n -> node_ok (write_state r s n).
Proof. by destruct r. Qed.

Lemma node_ok_insert n ep d :
  node_ok n -> TermDS.self d = this_node_ n -> node_ok (with_term (<[ep := d]> (term_ n)) n).
Proof.
  intros Hok Hd ep' d'. simpl. intros [[<- <-]|[_ H]]%lookup_insert_Some; [done|by eapply Hok].
Qed.

Lemma mu_state_fresh ep c : mu_state (make4 ep false false c) = 0.
Proof. done. Qed.
Lemma mu_ds_fresh ep i : mu_ds (TermDS.make ep false i) = 0.
Proof. done. Qed.

Lemma findOrCreateState_eq ep b n :
  findOrCreateState ep b n =
    if ep =? any_epoch_sentinel then Some (Stop AssertFailed)
    else match epoch_state_ n !! ep with
         | Some s => Some (Ok (s, n, []))
         | None =>
             let s := make4 ep b b (Tree.getNumChildren (tree n)) in
             Some (Ok (s, with_states (<[ep := s]> (epoch_state_ n)) n, []))
         end.
Proof.
  unfold findOrCreateState, check, vtAssert, mbind, M_bind. simpl.
  destruct (ep =? _); simpl; [done|]. by destruct (epoch_state_ n !! ep).
Qed.

Lemma findOrCreateState_found ep b n s n' o :
  findOrCreateState ep b n = Some (Ok (s, n', o)) -> epoch_state_ n' !! ep = Some s.
Proof.
  rewrite findOrCreateState_eq. case_match; [done|]. destruct (epoch_state_ n !! ep) eqn:Hl.
  - by intros [= <- <- _].
  - intros [= <- <- _]. simpl. apply lookup_insert_eq.
Qed.

Lemma tame_findOrCreate_false k ep : tame k 0 (findOrCreateState ep false).
Proof.
  apply tame_bind0; [apply tame_check|]. intros _. apply tame_get. intros n.
  destruct (epoch_state_ n !! ep) eqn:Hl; [apply good_ret|].
  apply (good_bind k 0 0); [|intros; apply good_ret]. apply good_modify; [done|].
  unfold mu. simpl. rewrite msum_insert, Hl, mu_state_fresh. simpl. lia.
Qed.

Lemma tame_findOrCreate k ep b : tame k 1 (findOrCreateState ep b).
Proof.
  apply (tame_bind k 0 1); [apply tame_check|]. intros _. apply tame_get. intros n.
  destruct (epoch_state_ n !! ep) eqn:Hl; [apply good_ret|].
  apply (good_bind k 1 0); [|intros; apply good_ret]. apply good_modify; [done|].
  unfold mu. simpl. rewrite msum_insert, Hl. simpl.
  pose proof (mu_state_range (make4 ep b b (Tree.getNumChildren (tree n)))). lia.
Qed.

Lemma tame_getDSTerm_false k ep : tame k 0 (getDSTerm ep false).
Proof.
  unfold getDSTerm. destruct (isDS ep); [|apply tame_ret]. apply tame_get. intros n.
  destruct (term_ n !! ep) eqn:Hl; [apply good_ret|].
  apply (good_bind k 0 0); [|intros; apply good_ret]. apply good_modify.
  - intros Hok. by apply node_ok_insert.
  - unfold mu. cbn [with_term any_epoch_state_ hang_ epoch_state_ term_].
    rewrite msum_insert, Hl, mu_ds_fresh. simpl. lia.
Qed.

Lemma tame_getDSTerm_root k ep : tame k 1 (getDSTerm ep true).
Proof.
  unfold getDSTerm. destruct (isDS ep); [|apply tame_ret]. apply tame_get. intros n.
  destruct (term_ n !! ep) eqn:Hl; [apply good_ret|].
  apply (good_bind k 1 0); [|intros; apply good_ret]. apply good_modify.
  - intros Hok. by apply node_ok_insert.
  - unfold mu. cbn [with_term any_epoch_state_ hang_ epoch_state_ term_].
    rewrite msum_insert, Hl.
    pose proof (mu_ds_range (TermDS.make ep true (this_node_ n))).
    cbn [from_option]. lia.
Qed.

Lemma tame_getTerminator k ep : tame k 0 (getTerminator ep).
Proof.
  apply tame_get. intros n. destruct (term_ n !! ep) eqn:Hl; [apply good_ret|].
  apply (good_bind k 0 0); [|intros; apply good_ret]. apply good_modify.
  - intros Hok. by apply node_ok_insert.
  - unfold mu. cbn [with_term any_epoch_state_ hang_ epoch_state_ term_].
    rewrite msum_insert, Hl, mu_ds_fresh. simpl. lia.
Qed.

Lemma tame_with_window {A} k ep f : tame k 0 (@with_window A ep f).
Proof.
  apply tame_get. intros n. apply good_lift. intros [m p] _.
  destruct (Component.deref m p); [|apply tame_lift]. apply good_lift. intros [w a] _.
  apply (good_bind k 0 0); [by quiet_modify|intros; apply good_ret].
Qed.

Lemma tame_window_isTerminated k ep : tame k 0 (window_isTerminated ep).
Proof. apply tame_with_window. Qed.

Lemma tame_updateResolvedEpochs k ep : tame k 0 (updateResolvedEpochs ep).
Proof. unfold updateResolvedEpochs. case_match; [apply tame_with_window|apply tame_ret]. Qed.

Lemma tame_run_action k a : tame k 0 (run_action a).
Proof. destruct a; apply tame_emit. Qed.

Lemma tame_queueActions E k ep : tame k 0 (queueActions E ep).
Proof.
  apply tame_get. intros n. destruct (ep =? _).
  - apply tame_bind0; [|intros _; by quiet_modify].
    apply tame_for_each. intros a _. apply tame_run_action.
  - apply tame_bind0; [|intros _]; (case_match; [|apply tame_ret]);
      apply tame_for_each; intros; apply tame_emit.
Qed.

Lemma tame_hangCheckHandler k : tame k 0 hangCheckHandler.
Proof. by quiet_modify. Qed.

Lemma good_drop_term k n ep : good k 0 (modify (fun n => with_term (delete ep (term_ n)) n)) n.
Proof.
  apply good_modify.
  - intros Hok ep' d'. simpl. intros [_ H]%lookup_delete_Some. by eapply Hok.
  - unfold mu. simpl. rewrite msum_delete.
    destruct (term_ n !! ep) as [d|]; simpl; [pose proof (mu_ds_range d)|]; lia.
Qed.

Lemma good_drop_state k n ep :
  good k 0 (modify (fun n => with_states (delete ep (epoch_state_ n)) n)) n.
Proof.
  apply good_modify; [done|]. unfold mu. simpl. rewrite msum_delete.
  destruct (epoch_state_ n !! ep) as [d|]; simpl; [pose proof (mu_state_range d)|]; lia.
Qed.

Lemma tame_cleanupEpoch k ep from : tame k 0 (cleanupEpoch ep from).
Proof.
  unfold cleanupEpoch. case_match; [|apply tame_ret]. apply tame_bind0; [|intros _; by quiet_modify].
  destruct (isDS ep), from; try apply tame_emit; intros n; [apply good_drop_term|apply good_drop_state].
Qed.

Lemma tame_getEpochDep k ep : tame k 0 (getEpochDep ep).
Proof.
  unfold getEpochDep. destruct (isDS ep).
  - apply tame_bind0; [apply tame_getDSTerm_false|intros; apply tame_ret].
  - apply tame_bind0; [apply tame_findOrCreate_false|intros; apply tame_ret].
Qed.

Lemma tame_putEpochDep k ep d : tame k 0 (putEpochDep ep d).
Proof.
  unfold putEpochDep. destruct (isDS ep); intros n; apply good_modify; try done.
  - intros Hok ep' d'. simpl.
    intros [(-> & d0 & H & ->)|[_ H]]%lookup_alter_Some; by apply Hok in H.
  - unfold mu. simpl. rewrite msum_alter by done. lia.
  - unfold mu. simpl. rewrite msum_alter by done. lia.
Qed.

Lemma tame_addEpochStateDependency k ep : tame k 2 (addEpochStateDependency ep).
Proof.
  unfold addEpochStateDependency. case_match; [|apply tame_ret].
  intros n. apply (good_bind k 1 1); [apply tame_findOrCreate|]. intros s n' o Hf _ _.
  apply good_modify; [apply node_ok_write_state|].
  assert (read_state n' (EpochState ep) = Some s) as Hr by (by eapply findOrCreateState_found).
  rewrite (mu_write_state _ _ _ _ Hr). pose proof (mu_state_range s).
  pose proof (mu_state_range (incrementDependency s)). lia.
Qed.

(** *** One state's operations *)

(** An operation either reports no termination and keeps the state's weight (up
    to [j]), or reports it and leaves a state that can no longer terminate. *)
Definition state_op (j : nat) (f : bool -> TermState -> res (TermState * list event)) : Prop :=
  forall root s s' es, f root s = Ok (s', es) ->
    (Detected ∉ es /\ mu_global s' = mu_global s /\ mu_state s' <= mu_state s + Z.of_nat j) \/
    (es = [Detected] /\ mu_global s = 1 /\ mu_global s' = 0 /\
     mu_state s' = 0 /\ 1 <= mu_state s + Z.of_nat j).

(** Two states with the same detection flag and weight. *)
Definition same_weight (s s' : TermState) : Prop :=
  term_detected_ s' = term_detected_ s /\ epoch_active_ s' = epoch_active_ s /\
  deps_ s' = deps_ s.

Lemma same_weight_mu s s' :
  same_weight s s' -> mu_global s' = mu_global s /\ mu_state s' = mu_state s.
Proof. intros (H1 & H2 & H3). unfold mu_global, mu_state. by rewrite H1, H2, H3. Qed.

Lemma countsConstant_weight c l s s' es :
  countsConstant c l s = (s', es) -> same_weight s s' /\ Detected ∉ es.
Proof.
  unfold countsConstant. intros H. repeat case_match; injection H as <- <-;
    (split; [done|]); intros Hin; repeat (apply elem_of_cons in Hin as [?|Hin]; [done|]);
    by apply elem_of_nil in Hin.
Qed.

Lemma ready_weight s : ready s = true -> mu_global s = 1 /\ mu_state s = 1.
Proof.
  unfold ready, mu_global, mu_state. rewrite !andb_true_iff, negb_true_iff.
  intros (((((-> & _) & Hd) & _) & _) & ->). apply Z.eqb_eq in Hd. rewrite Hd. done.
Qed.

Lemma submit_ready_Ok s b : readySubmitParent s = Ok b -> b = ready s.
Proof. unfold readySubmitParent. intros [_ [= ->]]%vtAssert_Ok. done. Qed.

Lemma propagateEpoch_op c l : state_op 0 (TermState.propagateEpoch c l).
Proof.
  intros root s s' es. unfold TermState.propagateEpoch.
  destruct (readySubmitParent s) as [b|] eqn:Hr; [|done]. rewrite res_bind_Ok.
  apply submit_ready_Ok in Hr as ->. destruct (ready s) eqn:Hready.
  2: { intros [= <- <-]. left. split; [apply not_elem_of_nil|lia]. }
  destruct (ready_weight s Hready) as [Hg Hs]. destruct root; cbn [negb].
  - case_match; [done|]. case_match.
    + intros [= <- <-]. right. split_and!; try done. lia.
    + match goal with |- context [countsConstant c l ?t] => set (t0 := t) end.
      assert (same_weight s t0) as Ht by (unfold t0; by case_match).
      match goal with |- context [if ?b then countsConstant c l t0 else _] =>
        destruct (if b then countsConstant c l t0 else (t0, [])) as [t1 hang] eqn:Hc end.
      assert (same_weight s t1 /\ Detected ∉ hang) as [Ht1 Hh].
      { case_match.
        - destruct (countsConstant_weight _ _ _ _ _ Hc) as [(W1 & W2 & W3) Hn]. split; [|done].
          destruct Ht as (? & ? & ?). split_and!; congruence.
        - injection Hc as <- <-. split; [done|apply not_elem_of_nil]. }
      intros [= <- <-]. left. split.
      * rewrite elem_of_app, list_elem_of_singleton. by intros [?|?].
      * destruct (same_weight_mu s t1 Ht1) as [E1 E2]. unfold mu_global, mu_state in *. simpl in *.
        rewrite E1, E2. lia.
  - intros [= <- <-]. left. split; [by rewrite list_elem_of_singleton|].
    unfold mu_global, mu_state. simpl. lia.
Qed.

(** Operations that first change nothing the weights depend on. *)
Lemma state_op_pre j (f : bool -> TermState -> res (TermState * list event)) g :
  (forall s, same_weight s (g s)) -> state_op j f -> state_op j (fun root s => f root (g s)).
Proof.
  intros Hg Hf root s s' es H. apply Hf in H. destruct (same_weight_mu _ _ (Hg s)) as [E1 E2].
  by rewrite E1, E2 in H.
Qed.

Lemma propagateIfReady_op c l : state_op 0 (propagateIfReady c l).
Proof.
  intros root s s' es. unfold propagateIfReady.
  assert (Ok (s, []) = Ok (s', es) ->
    Detected ∉ es /\ mu_global s' = mu_global s /\ mu_state s' <= mu_state s + Z.of_nat 0) as Hsame.
  { intros [= <- <-]. split; [apply not_elem_of_nil|lia]. }
  destruct (isActive s); [|by left; apply Hsame].
  destruct (readySubmitParent s) as [b|]; [|done]. rewrite res_bind_Ok. destruct b; [|by left; apply Hsame].
  apply propagateEpoch_op.
Qed.

Lemma produceConsumeState_op c l k b :
  state_op 0 (fun root s => produceConsumeState c l root s k b).
Proof.
  apply (state_op_pre 0 (propagateIfReady c l)
    (fun s => if b then with_local (l_prod s + k) (l_cons s) s
              else with_local (l_prod s) (l_cons s + k) s)); [by destruct b|apply propagateIfReady_op].
Qed.

Lemma propagateEpochExternalState_op c l p q :
  state_op 0 (fun root s => propagateEpochExternalState c l root s p q).
Proof.
  intros root s s' es. unfold propagateEpochExternalState, notifyChildReceive.
  intros (s1 & [_ [= <-]]%vtAssert_Ok & H)%bind_Ok_inv. by apply propagateIfReady_op in H.
Qed.

Lemma receiveContinueSignal_op w :
  state_op 0 (fun _ s => s ← receiveContinueSignal w s; Ok (s, [])).
Proof.
  intros root s s' es. unfold receiveContinueSignal.
  intros (s1 & [_ [= <-]]%vtAssert_Ok & [= <- <-])%bind_Ok_inv. left.
  split; [apply not_elem_of_nil|]. unfold mu_global, mu_state. simpl. lia.
Qed.

Lemma activateState_op c l : state_op 1 (activateState c l).
Proof.
  intros root s s' es. unfold activateState.
  set (s1 := notifyLocalTerminated true (TermState.activateEpoch s)).
  assert (mu_global s1 = mu_global s) as Hg by done.
  pose proof (mu_state_range s). pose proof (mu_state_range s1).
  intros (b & Hb & H1)%bind_Ok_inv. destruct b.
  - apply propagateEpoch_op in H1. rewrite Hg in H1.
    destruct H1 as [(?&?&?)|(?&?&?&?&?)]; [left|right]; split_and!; try done; lia.
  - injection H1 as <- <-. left. split; [apply not_elem_of_nil|]. split; [done|]. lia.
Qed.

(** *** One [TermDS]'s operations *)
Definition ds_op (j : nat) (f : TermDS.TermDS -> res (TermDS.TermDS * list TermDS.ds_event))
    (d : TermDS.TermDS) : Prop :=
  forall d' es, f d = Ok (d', es) ->
    TermDS.self d' = TermDS.self d /\
    ((TermDS.RootTerminated ∉ es /\ mu_ds d' <= mu_ds d + Z.of_nat j) \/
     (mu_ds d' = 0 /\ 1 <= mu_ds d + Z.of_nat j)).

Lemma acknowledge_quiet i p k es :
  TermDS.acknowledge i p k = Ok es -> TermDS.RootTerminated ∉ es.
Proof. intros [_ [= <-]]%vtAssert_Ok. by rewrite list_elem_of_singleton. Qed.

Lemma tryAck_ds d d' es :
  TermDS.tryAck d = Ok (d', es) ->
  TermDS.self d' = TermDS.self d /\ TermDS.RootTerminated ∉ es /\ mu_ds d' <= mu_ds d.
Proof.
  unfold TermDS.tryAck. case_match; [intros [= <- <-]; split_and!; [done|apply not_elem_of_nil|done]|].
  case_match; [|intros [= <- <-]; split_and!; [done|apply not_elem_of_nil|done]].
  case_match; [|intros [= <- <-]; split_and!; [done|apply not_elem_of_nil|done]].
  intros (ev & Hev & [= <- <-])%bind_Ok_inv. split_and!.
  - cbn [TermDS.self TermDS.with_outstanding]. by destruct (_ && _).
  - by eapply acknowledge_quiet.
  - match goal with |- mu_ds ?t <= _ => pose proof (mu_ds_range t) end.
    destruct (TermDS.outstanding d) as [|a0 o] eqn:Ho; [done|].
    assert (mu_ds d = 1) by (unfold mu_ds; by rewrite Ho). lia.
Qed.

Lemma tryLast_ds d : ds_op 0 TermDS.tryLast d.
Proof.
  intros d' es. unfold TermDS.tryLast.
  assert (Ok (d, []) = Ok (d', es) -> TermDS.self d' = TermDS.self d /\
    ((TermDS.RootTerminated ∉ es /\ mu_ds d' <= mu_ds d + Z.of_nat 0) \/
     (mu_ds d' = 0 /\ 1 <= mu_ds d + Z.of_nat 0))) as Hsame.
  { intros [= <- <-]. split; [done|]. left. split; [apply not_elem_of_nil|lia]. }
  case_match; [exact Hsame|]. case_match; [|exact Hsame].
  destruct (TermDS.back _) as [a|]; [|exact Hsame].
  intros [_ H1]%vtAssert_Ok. apply bind_Ok_inv in H1 as ([d1 ev] & Hd1 & [= <- <-]).
  destruct (TermDS.outstanding d) as [|a0 [|a1 o]] eqn:Ho; [done| |done].
  assert (mu_ds d = 1) as Hmu by (unfold mu_ds; by rewrite Ho).
  destruct (TermDS.pred a =? _).
  - injection Hd1 as <- <-. split; [done|]. right. split; [done|]. rewrite Hmu. lia.
  - apply vtAssert_Ok in Hd1 as [_ (ev' & Hev & [= <- <-])%bind_Ok_inv].
    split; [done|]. right. split; [done|]. rewrite Hmu. lia.
Qed.

Lemma gotAck_ds k d : ds_op 0 (TermDS.gotAck k) d.
Proof. intros d' es [_ H]%vtAssert_Ok. apply (tryLast_ds _ _ _ H). Qed.

Lemma msgSent_ds node k d : ds_op 0 (fun d => d ← TermDS.msgSent node k d; Ok (d, [])) d.
Proof.
  intros d' es (d1 & H & [= <- <-])%bind_Ok_inv. unfold TermDS.msgSent in H.
  apply vtAssert_Ok in H as [_ [_ [= <-]]%vtAssert_Ok].
  destruct (node =? _); (split; [done|left; split; [apply not_elem_of_nil|]]);
    change (mu_ds d <= mu_ds d + 0); lia.
Qed.

Lemma msgProcessed_ds node k d :
  ds_op (if node =? TermDS.self d then 0 else 1) (TermDS.msgProcessed node k) d.
Proof.
  intros d' es [_ [_ H]%vtAssert_Ok]%vtAssert_Ok.
  set (j := if node =? TermDS.self d then 0%nat else 1%nat).
  apply bind_Ok_inv in H as (d1 & Hd1 & H).
  assert (TermDS.self d1 = TermDS.self d /\ TermDS.outstanding d1 = TermDS.outstanding d) as [Hs1 Ho1].
  { destruct (node =? TermDS.self d).
    - by apply vtAssert_Ok in Hd1 as [_ [= <-]].
    - by injection Hd1 as <-. }
  cbv zeta in H.
  match type of H with (TermDS.tryAck ?t ≫= _) = _ => set (d2 := t) in H end.
  assert (TermDS.self d2 = TermDS.self d /\ mu_ds d2 <= mu_ds d + Z.of_nat j) as [Hs2 Hm2].
  { unfold j. pose proof (mu_ds_range d2). pose proof (mu_ds_range d).
    destruct (node =? TermDS.self d) eqn:E.
    - assert (mu_ds d1 = mu_ds d) as Hd1d by (unfold mu_ds; by rewrite Ho1).
      rewrite <- Hs1, <- Hd1d. unfold d2. cbn [negb]. rewrite andb_false_r.
      destruct (node =? TermDS.parent d1); (split; [done|]); change (mu_ds d1 <= mu_ds d1 + 0); lia.
    - split; [|lia]. rewrite <- Hs1. unfold d2. cbn [negb]. rewrite andb_true_r.
      destruct (TermDS.outstanding d1); cbn [andb]; by case_match. }
  clearbody d2. apply bind_Ok_inv in H as ([d3 e1] & H3 & H).
  apply bind_Ok_inv in H as ([d4 e2] & H4 & [= <- <-]).
  apply tryAck_ds in H3 as (Hs3 & Hq & Hm3).
  destruct (tryLast_ds _ _ _ H4) as [Hs4 Hc]. split; [congruence|].
  destruct Hc as [[Hn Hm4]|[H0 Hm4]]; [left|right].
  - split; [rewrite elem_of_app; tauto|lia].
  - split; [done|lia].
Qed.

(** ** The operations return *)
Section return_.
Context (E : Env) (k : Z) (rec : Z -> CallFromEnum -> M unit).
Context (Hrec : forall ep from, tame k 0 (rec ep from)).

Lemma tame_handle_event ep e : tame k 0 (handle_event rec ep e).
Proof.
  destruct e; simpl.
  - apply tame_get. intros n. apply tame_emit.
  - apply tame_emit.
  - apply tame_bind0; [apply tame_emit|intros _; apply tame_hangCheckHandler].
  - apply tame_bind0; [apply tame_emit|intros _; apply Hrec].
Qed.

(** Events other than a termination do not need the recursion. *)
Lemma tame_quiet_event k' ep e : e <> Detected -> tame k' 0 (handle_event rec ep e).
Proof.
  destruct e; intros H; simpl; [| | |done].
  - apply tame_get. intros n. apply tame_emit.
  - apply tame_emit.
  - apply tame_bind0; [apply tame_emit|intros _; apply tame_hangCheckHandler].
Qed.

Lemma tame_handle_ds_event ep e : tame k 0 (handle_ds_event rec ep e).
Proof. destruct e; simpl; [apply tame_emit|apply Hrec|apply tame_emit]. Qed.

Lemma tame_quiet_ds_event k' ep e :
  e <> TermDS.RootTerminated -> tame k' 0 (handle_ds_event rec ep e).
Proof. destruct e; intros H; simpl; [apply tame_emit|done|apply tame_emit]. Qed.

(** What room remains after a step that reports a termination is enough for the
    recursion. *)
Lemma good_deeper j (m : M unit) n n1 :
  tame k 0 m -> node_ok n1 -> mu n1 < mu n + Z.of_nat j -> mu n + Z.of_nat j < k + 1 ->
  exists r, m n1 = Some r /\
    forall a n' o, r = Ok (a, n', o) -> node_ok n' /\ mu n' <= mu n + Z.of_nat j.
Proof.
  intros Hm Hok Hlt Hk. destruct (Hm n1 Hok ltac:(lia)) as (r & Hr & H). exists r. split; [done|].
  intros a n' o Ho. destruct (H a n' o Ho). split; [done|lia].
Qed.

Lemma modify_bind {A} f (m : M A) n : (modify f ;; m) n = m (f n).
Proof. unfold mbind, M_bind. simpl. destruct (m (f n)) as [[[[a n'] o]|e]|]; done. Qed.

Lemma tame_on_state r f j : state_op j f -> tame (k + 1) j (on_state rec r f).
Proof.
  intros Hf. apply tame_get. intros n. destruct (read_state n r) as [s|] eqn:Hr; [|apply good_ret].
  apply good_lift. intros [s' es] Hfs. apply Hf in Hfs.
  intros Hok Hk. rewrite modify_bind. pose proof (mu_write_state r s' n s Hr) as Hmu.
  pose proof (node_ok_write_state r s' n Hok) as Hok'.
  destruct Hfs as [(Hq & Hg & Hs)|(-> & Hg & Hg' & Hs' & Hs)].
  - assert (tame (k + 1) 0 (for_each es (handle_event rec (TermState.getEpoch s')))) as Ht.
    { apply tame_for_each. intros e He. apply tame_quiet_event. intros ->. done. }
    assert (mu (write_state r s' n) <= mu n + Z.of_nat j) as Hle by (destruct r; lia).
    destruct (Ht _ Hok' ltac:(lia)) as (res & Hres & H). exists res. split; [done|].
    intros a n' o Ho. destruct (H a n' o Ho). split; [done|lia].
  - eapply good_deeper; [|done| |done].
    + apply tame_for_each. intros. apply tame_handle_event.
    + destruct r; lia.
Qed.

Lemma tame_on_state0 r f : state_op 0 f -> tame (k + 1) 0 (on_state rec r f).
Proof. apply tame_on_state. Qed.

Lemma good_on_ds ep f j n :
  (forall d, TermDS.self d = this_node_ n -> ds_op j f d) -> good (k + 1) j (on_ds rec ep f) n.
Proof.
  intros Hf. unfold on_ds. intros Hok Hk. revert Hok Hk. change (good (k + 1) j (on_ds rec ep f) n).
  unfold on_ds. apply (good_bind _ 0 j); [by intros ? ?; eexists; split; [done|];
    intros ? ? ? [= <- <- <-]; split; [done|lia]|].
  intros n0 n1 o [= <- <- <-] Hok _. destruct (term_ n !! ep) as [d|] eqn:Hd; [|apply good_ret].
  apply good_lift. intros [d' es] Hfd. destruct (Hf d (Hok _ _ Hd) d' es Hfd) as [Hs Hc].
  intros _ Hk. rewrite modify_bind.
  set (n1 := with_term (<[ep := d']> (term_ n)) n).
  assert (node_ok n1) as Hok1 by (apply node_ok_insert; [done|rewrite Hs; by eapply Hok]).
  assert (mu n1 = mu n - mu_ds d + mu_ds d') as Hmu
    by (unfold mu; simpl; rewrite msum_insert, Hd; simpl; lia).
  destruct Hc as [[Hq Hle]|[H0 Hle]].
  - assert (tame (k + 1) 0 (for_each es (handle_ds_event rec ep))) as Ht.
    { apply tame_for_each. intros e He. apply tame_quiet_ds_event. intros ->. done. }
    destruct (Ht n1 Hok1 ltac:(lia)) as (res & Hres & H). exists res. split; [done|].
    intros a n' o Ho. destruct (H a n' o Ho). split; [done|lia].
  - eapply good_deeper; [|done| |done]; [|lia].
    apply tame_for_each. intros. apply tame_handle_ds_event.
Qed.

Lemma tame_maybePropagate : tame (k + 1) 0 (maybePropagate E rec).
Proof.
  apply tame_bind0; [apply tame_on_state, propagateIfReady_op|intros _].
  apply tame_bind0; [apply tame_on_state, propagateIfReady_op|intros _].
  apply tame_get. intros n. apply tame_for_each. intros ep _.
  apply tame_on_state, propagateIfReady_op.
Qed.

(** Units of this node itself; units of another node can engage a [TermDS]. *)
Lemma good_produceConsume ep c b node n :
  good (k + 1) (if (node =? uninitialized_destination) || b then 0 else 1)
    (produceConsume E rec ep c b node) n.
Proof.
  set (j := if _ || _ then 0%nat else 1%nat).
  apply (good_bind _ 0 j); [apply tame_on_state, produceConsumeState_op|]. intros _ n1 o _ _ _.
  destruct (negb _); [|apply good_ret]. destruct (isDS ep).
  - apply (good_bind _ 0 j); [apply tame_getDSTerm_false|]. intros _ n2 o2 _ _ _.
    apply (good_bind _ 0 j); [by intros ? ?; eexists; split; [done|];
      intros ? ? ? [= <- <- <-]; split; [done|lia]|].
    intros n3 n4 o3 [= <- <- <-] _ _. destruct b.
    + eapply good_weaken; [apply good_on_ds; intros d _; apply msgSent_ds|lia].
    + apply good_on_ds. intros d Hd d' es H. apply msgProcessed_ds in H as [Hs Hc]. split; [done|].
      unfold j. rewrite orb_false_r. destruct (node =? uninitialized_destination).
      * rewrite Hd, Z.eqb_refl in Hc. done.
      * revert Hc. case_match; [|done]. intros [[? ?]|[? ?]]; [left|right]; split; try done; lia.
  - apply (good_bind _ 0 j); [apply tame_findOrCreate_false|]. intros _ n2 o2 _ _ _.
    eapply good_weaken; [apply tame_on_state, produceConsumeState_op|lia].
Qed.

Lemma tame_produce ep c node : tame (k + 1) 0 (produce E rec ep c node).
Proof.
  intros n. eapply good_weaken; [apply good_produceConsume|]. by rewrite orb_true_r.
Qed.

Lemma tame_consume ep c node : tame (k + 1) 1 (consume E rec ep c node).
Proof. intros n. eapply good_weaken; [apply good_produceConsume|]. case_match; lia. Qed.

Lemma tame_consume_self ep c : tame (k + 1) 0 (consume E rec ep c uninitialized_destination).
Proof. intros n. eapply good_weaken; [apply good_produceConsume|]. done. Qed.

(** A state created only to lose a dependency can never terminate. *)
Lemma tame_removeEpochStateDependency ep :
  tame (k + 1) 0 (removeEpochStateDependency E rec ep).
Proof.
  unfold removeEpochStateDependency. destruct (negb _); [|apply tame_ret].
  intros n Hok Hk. unfold mbind at 1, M_bind at 1. rewrite findOrCreateState_eq.
  destruct (ep =? any_epoch_sentinel); [by eexists|].
  destruct (epoch_state_ n !! ep) as [s|] eqn:Hl.
  - destruct (decrementDependency s) as [s' deps] eqn:Hd.
    assert (mu_state s' <= mu_state s) as Hle.
    { injection Hd as <- <-. unfold mu_state. simpl.
      destruct (term_detected_ s), (epoch_active_ s); simpl; case_Zbs; lia. }
    rewrite modify_bind.
    assert (good (k + 1) 0 (if deps =? 0 then maybePropagate E rec else nop)
              (write_state (EpochState ep) s' n)) as Hg
      by (case_match; [apply tame_maybePropagate|apply good_ret]).
    pose proof (mu_write_state (EpochState ep) s' n s Hl) as Hmu. cbn beta iota in Hmu.
    destruct (Hg Hok ltac:(lia)) as (r & -> & H).
    destruct r as [[[[] n2] o]|e]; [|by eexists]. eexists. split; [done|].
    intros a n' o' [= <- <- <-]. destruct (H tt n2 o eq_refl). split; [done|lia].
  - eexists. split; [done|]. intros a n' o' [= <- <- <-]. split; [done|].
    unfold mu. simpl. rewrite insert_insert_eq, msum_insert, Hl.
    match goal with |- context [mu_state ?s] => change (mu_state s) with 0 end. simpl. lia.
Qed.

Lemma release_calls d d' cs c :
  EpochDependency.clearSuccessors d = (d', cs) -> c ∈ cs ->
  exists ep, c = EpochDependency.CallConsume ep \/ c = EpochDependency.CallRemoveDep ep.
Proof.
  intros [= _ <-] (ep & _ & Hc)%list_elem_of_In%in_flat_map. exists ep.
  destruct Hc as [<-|[<-|[]]]; auto.
Qed.

Lemma tame_epochTerminated_body ep from : tame (k + 1) 0 (epochTerminated_body E rec ep from).
Proof.
  apply tame_bind0.
  { destruct (negb _); [|apply tame_ret]. apply tame_bind0; [apply tame_getEpochDep|].
    intros [d|]; [|apply tame_ret]. destruct (EpochDependency.clearSuccessors d) as [d' cs] eqn:Hd.
    apply tame_bind0; [|intros _; apply tame_putEpochDep]. apply tame_for_each. intros c Hc.
    destruct (release_calls _ _ _ _ Hd Hc) as (ep' & [-> | ->]); simpl;
      [apply tame_consume_self|apply tame_removeEpochStateDependency]. }
  intros _. apply tame_bind0; [apply tame_queueActions|intros _].
  apply tame_bind0; [apply tame_updateResolvedEpochs|intros _].
  apply tame_bind0; [apply tame_cleanupEpoch|intros _].
  destruct (negb (ep =? any_epoch_sentinel)); [|apply tame_ret]. apply tame_get. intros n.
  apply (good_bind _ 0 0).
  { destruct (_ || _); [apply good_ret|]. apply good_lift. intros root _. apply good_ret. }
  intros b n' o _ _ _. destruct b; [apply tame_consume_self|apply good_ret].
Qed.

End return_.

(** The recursion bottoms out: [fuel] suffices for a node that can terminate
    fewer than [fuel] epochs. *)
Lemma tame_epochTerminated E fuel ep from :
  tame (Z.of_nat fuel) 0 (epochTerminated E fuel ep from).
Proof.
  revert ep from. induction fuel as [|fuel IH]; intros ep from.
  - intros n _ Hk. pose proof (mu_nonneg n). lia.
  - simpl epochTerminated. replace (Z.of_nat (S fuel)) with (Z.of_nat fuel + 1) by lia.
    by apply tame_epochTerminated_body.
Qed.

Lemma tame_get' {B} k j (f : Node -> M B) : (forall n, tame k j (f n)) -> tame k j (get ≫= f).
Proof. intros H. apply tame_get. intros n. apply H. Qed.

Lemma tame_if {A} k j1 j2 (b : bool) (m1 m2 : M A) :
  tame k j1 m1 -> tame k j2 m2 -> tame k (j1 + j2) (if b then m1 else m2).
Proof. intros H1 H2. destruct b; eapply tame_weaken; eauto; lia. Qed.

Lemma tame_if_dec {A} {P : Prop} k j1 j2 (b : {P} + {~ P}) (m1 m2 : M A) :
  tame k j1 m1 -> tame k j2 m2 -> tame k (j1 + j2) (if b then m1 else m2).
Proof. intros H1 H2. destruct b; eapply tame_weaken; eauto; lia. Qed.

Lemma tame_write_any k ep s : tame k 1 (modify (write_state (EpochState ep) s)).
Proof.
  intros n. apply good_modify; [done|]. unfold mu. simpl. rewrite msum_insert.
  pose proof (mu_state_range s). destruct (epoch_state_ n !! ep) as [t|]; simpl;
    [pose proof (mu_state_range t)|]; lia.
Qed.

Lemma tame_drop_state k ep :
  tame k 0 (modify (fun n => with_states (delete ep (epoch_state_ n)) n)).
Proof. intros n. apply good_drop_state. Qed.

Create HintDb tame.
#[export] Hint Resolve tame_check tame_emit tame_lift tame_findOrCreate_false tame_getDSTerm_false
  tame_getDSTerm_root tame_getTerminator tame_with_window tame_window_isTerminated
  tame_updateResolvedEpochs tame_run_action tame_queueActions tame_hangCheckHandler
  tame_cleanupEpoch tame_getEpochDep tame_putEpochDep tame_addEpochStateDependency
  tame_write_any tame_drop_state : tame.
#[export] Hint Resolve tame_findOrCreate | 10 : tame.
#[export] Hint Extern 20 (tame _ 0 (modify _)) => quiet_modify : tame.

(** Decompose a computation; the growths found add up. *)
Ltac tame_go :=
  lazymatch goal with
  | |- tame _ _ (get ≫= _) => apply tame_get'; intros ?; tame_go
  | |- tame _ _ (_ ≫= _) => eapply tame_bind; [tame_go|intros ?; tame_go]
  | |- tame _ _ (if decide _ then _ else _) => eapply tame_if_dec; tame_go
  | |- tame _ _ (if _ then _ else _) => eapply tame_if; tame_go
  | |- tame _ _ (mret _) => apply (tame_ret _ 0)
  | |- tame _ _ nop => apply (tame_ret _ 0)
  | |- tame _ _ (modify _) => first [eassumption|apply tame_write_any|apply tame_drop_state
      |eapply (tame_weaken _ 0 0); [quiet_modify|apply Nat.le_refl]]
  | |- _ => solve [eauto with tame nocore]
  end.

(** Prove a bound on the growth. *)
Ltac tame_solve := eapply tame_weaken; [tame_go|simpl; lia].

Section api_returns.
Context (E : Env) (fuel : nat).
Let K := Z.of_nat fuel.

Lemma rec_tame ep from : tame K 0 (epochTerminated E fuel ep from).
Proof. apply tame_epochTerminated. Qed.

Lemma tame_K {A} j (m : M A) : tame (K + 1) j m -> tame K j m.
Proof. intros H n Hok Hk. apply H; [done|lia]. Qed.

(** The operations of the open section, closed with fuel. *)
Lemma api_on_state r f j : state_op j f -> tame K j (on_state (epochTerminated E fuel) r f).
Proof. intros H. apply tame_K, tame_on_state; [apply rec_tame|done]. Qed.
Lemma api_maybePropagate : tame K 0 (maybePropagate_ E fuel).
Proof. apply tame_K, tame_maybePropagate, rec_tame. Qed.
Lemma api_produce ep c node : tame K 0 (produce_ E fuel ep c node).
Proof. apply tame_K, tame_produce, rec_tame. Qed.
Lemma api_consume ep c node : tame K 1 (consume_ E fuel ep c node).
Proof. apply tame_K, tame_consume, rec_tame. Qed.
Lemma api_consume_self ep c : tame K 0 (consume_ E fuel ep c uninitialized_destination).
Proof. apply tame_K, tame_consume_self, rec_tame. Qed.
Lemma api_produceOnGlobal : tame K 0 (produceOnGlobal E (epochTerminated E fuel)).
Proof. apply tame_K, tame_produce, rec_tame. Qed.
Lemma api_removeDependency ep : tame K 0 (removeDependency_ E fuel ep).
Proof. apply tame_K, tame_removeEpochStateDependency, rec_tame. Qed.

Hint Resolve rec_tame : tame.
Hint Resolve api_maybePropagate api_produce api_consume_self api_produceOnGlobal
  api_removeDependency : tame.
Hint Resolve api_consume | 10 : tame.

Lemma api_setLocalTerminated t np : tame K 0 (setLocalTerminated E fuel t np).
Proof. unfold setLocalTerminated. tame_solve. Qed.

Lemma api_propagateEpochExternal ep p q : tame K 0 (propagateEpochExternal E fuel ep p q).
Proof.
  pose proof (fun r => api_on_state r _ 0 (propagateEpochExternalState_op (cfg E) (log_exceeds E) p q)).
  unfold propagateEpochExternal. tame_solve.
Qed.

Lemma api_epochContinue ep w : tame K 0 (epochContinue E fuel ep w).
Proof.
  pose proof (fun r => api_on_state r _ 0 (receiveContinueSignal_op w)).
  unfold epochContinue. tame_solve.
Qed.

Lemma api_resetGlobalTerm : tame K 1 resetGlobalTerm.
Proof.
  intros n. apply good_modify; [done|]. unfold mu. simpl.
  pose proof (mu_global_range (any_epoch_state_ n)). change (mu_global _) with 1 at 1. lia.
Qed.

Lemma api_freeEpoch ep : tame K 0 (freeEpoch ep).
Proof. unfold freeEpoch. tame_solve. Qed.

Lemma api_testEpochTerminated k ep : tame k 0 (testEpochTerminated ep).
Proof. unfold testEpochTerminated. tame_solve. Qed.
Hint Resolve api_testEpochTerminated : tame.

Lemma api_isEpochTerminated ep : tame K 0 (isEpochTerminated ep).
Proof. unfold isEpochTerminated. tame_solve. Qed.

Lemma api_afterAddEpochAction ep : tame K 0 (afterAddEpochAction E ep).
Proof.
  unfold afterAddEpochAction. apply tame_bind0; [apply api_testEpochTerminated|].
  intros []; [apply tame_queueActions|apply tame_ret..].
Qed.

Lemma api_getEpoch k : tame k 0 getEpoch.
Proof. apply tame_get'. intros n. case_match; [apply tame_lift|apply tame_ret]. Qed.
Hint Resolve api_isEpochTerminated api_afterAddEpochAction api_getEpoch : tame.

Lemma api_pushEpoch ep : tame K 0 (pushEpoch ep).
Proof. unfold pushEpoch. tame_solve. Qed.

Lemma api_popEpoch ep : tame K 0 (popEpoch ep).
Proof. apply tame_get'. intros n. case_match; [apply tame_lift|]. tame_solve. Qed.

Lemma api_addGlobalAction a : tame K 0 (addGlobalAction a).
Proof. unfold addGlobalAction. tame_solve. Qed.
Hint Resolve api_addGlobalAction : tame.

Lemma api_addActionEpoch ep a : tame K 0 (addActionEpoch E fuel ep a).
Proof. unfold addActionEpoch. tame_solve. Qed.
Hint Resolve api_addActionEpoch : tame.

Lemma api_addActionUnique ep a : tame K 0 (addActionUnique E fuel ep a).
Proof. unfold addActionUnique. tame_solve. Qed.

Lemma api_run_registered encap l : tame K 0 (run_registered E fuel encap l).
Proof. apply tame_for_each. intros a _. tame_solve. Qed.
Hint Resolve api_run_registered : tame.

Lemma api_triggerAllEpochActions ep encap : tame K 0 (triggerAllEpochActions E fuel ep encap).
Proof. unfold triggerAllEpochActions. tame_solve. Qed.

Lemma api_inquireTerminated ep from : tame K 0 (inquireTerminated E fuel ep from).
Proof. unfold inquireTerminated. tame_solve. Qed.

Lemma api_replyTerminated ep t : tame K 0 (replyTerminated E fuel ep t).
Proof. unfold replyTerminated. tame_solve. Qed.

Lemma api_calls cs :
  (forall c, c ∈ cs -> match c with EpochDependency.CallAddDep _ => False | _ => True end) ->
  tame K 0 (for_each cs (dep_call E (epochTerminated E fuel))).
Proof.
  intros H. apply tame_for_each. intros [ep|ep|ep|ep] Hc; simpl.
  - apply api_produce.
  - apply api_consume_self.
  - by apply H in Hc.
  - apply api_removeDependency.
Qed.

Lemma api_addDependency pred succ : tame K 2 (addDependency E fuel pred succ).
Proof.
  unfold addDependency. apply (tame_bind K 0 2); [apply api_isEpochTerminated|]. intros t.
  destruct (negb t); [|apply tame_ret].
  apply (tame_bind K 0 2); [apply tame_getEpochDep|]. intros [d|];
    (apply (tame_bind K 0 2); [apply tame_getEpochDep|]); intros [e|]; try apply tame_ret.
  cbn [EpochDependency.removeIntersection].
  apply (tame_bind K 0 2); [apply api_calls|intros _].
  { intros c (x & _ & Hc)%list_elem_of_In%in_flat_map. by destruct Hc as [<-|[<-|[]]]. }
  apply (tame_bind K 0 2); [apply tame_putEpochDep|intros _].
  unfold EpochDependency.addSuccessor. case_decide; simpl.
  - tame_solve.
  - apply (tame_bind K 0 2); [apply (tame_bind0 K); [apply api_produce|intros; apply tame_ret]|intros _].
    apply (tame_bind K 0 2); [apply tame_putEpochDep|intros _].
    apply (tame_bind K 2 0); [apply tame_addEpochStateDependency|intros; apply tame_ret].
Qed.
Hint Resolve api_addDependency : tame.

Lemma api_addLocalDependency ep : tame K 2 (addLocalDependency E fuel ep).
Proof. unfold addLocalDependency. tame_solve. Qed.

Lemma api_releaseLocalDependency ep : tame K 0 (releaseLocalDependency E fuel ep).
Proof. unfold releaseLocalDependency. tame_solve. Qed.

Lemma api_finishNoActivateEpoch ep : tame K 0 (finishNoActivateEpoch E fuel ep).
Proof. unfold finishNoActivateEpoch. tame_solve. Qed.

Lemma api_activateEpoch ep : tame K 2 (activateEpoch E fuel ep).
Proof.
  pose proof (api_on_state (EpochState ep) _ 1 (activateState_op (cfg E) (log_exceeds E))).
  unfold activateEpoch. tame_solve.
Qed.
Hint Resolve api_finishNoActivateEpoch api_activateEpoch : tame.

Lemma api_finishedEpoch ep : tame K 2 (finishedEpoch E fuel ep).
Proof. unfold finishedEpoch. tame_solve. Qed.
Hint Resolve api_finishedEpoch : tame.

Lemma api_makeRootedHan ep is_root : tame K 3 (makeRootedHan E fuel ep is_root).
Proof. unfold makeRootedHan, window_activate. tame_solve. Qed.
Hint Resolve api_makeRootedHan : tame.

Lemma api_initializeRootedWaveEpoch ep succ : tame K 5 (initializeRootedWaveEpoch E fuel ep succ).
Proof. unfold initializeRootedWaveEpoch, add_parent. tame_solve. Qed.

Lemma api_initializeRootedDSEpoch ep succ : tame K 3 (initializeRootedDSEpoch E fuel ep succ).
Proof. unfold initializeRootedDSEpoch, add_parent. tame_solve. Qed.
Hint Resolve api_initializeRootedWaveEpoch api_initializeRootedDSEpoch : tame.

Lemma api_initializeRootedEpoch ep ds succ : tame K 8 (initializeRootedEpoch E fuel ep ds succ).
Proof. unfold initializeRootedEpoch. tame_solve. Qed.

Lemma api_setupNewEpoch ep : tame K 1 (setupNewEpoch ep).
Proof. unfold setupNewEpoch. tame_solve. Qed.
Hint Resolve api_setupNewEpoch : tame.

Lemma api_initializeCollectiveEpoch ep succ : tame K 3 (initializeCollectiveEpoch E fuel ep succ).
Proof. unfold initializeCollectiveEpoch, add_parent. tame_solve. Qed.

Lemma api_td ep f : (forall s, term_detected_ (f s) = term_detected_ s) -> tame K 1 (td_state ep f).
Proof.
  intros Hf. unfold td_state.
  assert (tame K 0 (modify (fun n => with_any (f (any_epoch_state_ n)) n))).
  { apply tame_modify. intros n. split_and!; try done. simpl. unfold mu_global. by rewrite Hf. }
  tame_solve.
Qed.

Lemma api_receive m : tame K 8 (receive E fuel m).
Proof.
  destruct m; simpl.
  - eapply tame_weaken; [apply api_propagateEpochExternal|lia].
  - eapply tame_weaken; [apply rec_tame|lia].
  - eapply tame_weaken; [apply api_epochContinue|lia].
  - eapply tame_weaken; [apply tame_hangCheckHandler|lia].
  - eapply tame_weaken; [apply api_makeRootedHan|lia].
  - eapply tame_weaken; [apply api_inquireTerminated|lia].
  - eapply tame_weaken; [apply api_replyTerminated|lia].
  - apply (tame_bind K 0 8); [apply tame_getTerminator|]. intros _ n.
    eapply good_weaken; [|apply Nat.le_0_l]. intros Hok Hk.
    eapply good_on_ds; [apply rec_tame|intros; apply gotAck_ds|done|lia].
Qed.

Lemma api_run_task t : tame K 0 (run_task E fuel t).
Proof.
  destruct t; simpl.
  - apply tame_cleanupEpoch.
  - apply tame_bind0; [apply tame_getDSTerm_false|]. intros [d|]; [|apply tame_ret]. tame_solve.
  - apply api_triggerAllEpochActions.
Qed.

End api_returns.

(** ** All entry points *)
Inductive entry :=
  | Produce (epoch num_units node : Z)
  | Consume (epoch num_units node : Z)
  | SetLocalTerminated (terminated no_propagate : bool)
  | MaybePropagate
  | ResetGlobalTerm
  | FreeEpoch (epoch : Z)
  | TestEpochTerminated (epoch : Z)
  | AddAction (epoch : Z) (a : Action)
  | AddActionUnique (epoch : Z) (a : Action)
  | PushEpoch (epoch : Z)
  | PopEpoch (epoch : Z)
  | AddDependency (predecessor successor : Z)
  | AddLocalDependency (epoch : Z)
  | ReleaseLocalDependency (epoch : Z)
  | FinishedEpoch (epoch : Z)
  | InitializeRooted (epoch : Z) (use_ds : bool) (successor : Z)
  | InitializeCollective (epoch : Z) (successor : Z)
  | MakeEpoch (is_coll use_ds : bool) (successor : Z)
  | DisableTD (epoch : Z)
  | EnableTD (epoch : Z)
  | Receive (m : TermMsg)
  | RunTask (t : Task).

Definition perform (E : Env) (fuel : nat) (e : entry) : M unit :=
  match e with
  | Produce epoch k node => produce_ E fuel epoch k node
  | Consume epoch k node => consume_ E fuel epoch k node
  | SetLocalTerminated t np => setLocalTerminated E fuel t np
  | MaybePropagate => maybePropagate_ E fuel
  | ResetGlobalTerm => resetGlobalTerm
  | FreeEpoch epoch => freeEpoch epoch
  | TestEpochTerminated epoch => testEpochTerminated epoch;; nop
  | AddAction epoch a => addActionEpoch E fuel epoch a
  | AddActionUnique epoch a => addActionUnique E fuel epoch a
  | PushEpoch epoch => pushEpoch epoch
  | PopEpoch epoch => popEpoch epoch;; nop
  | AddDependency p s => addDependency E fuel p s
  | AddLocalDependency epoch => addLocalDependency E fuel epoch
  | ReleaseLocalDependency epoch => releaseLocalDependency E fuel epoch
  | FinishedEpoch epoch => finishedEpoch E fuel epoch
  | InitializeRooted epoch ds s => initializeRootedEpoch E fuel epoch ds s
  | InitializeCollective epoch s => initializeCollectiveEpoch E fuel epoch s
  | MakeEpoch is_coll ds s => makeEpoch E fuel is_coll ds s;; nop
  | DisableTD epoch => disableTD epoch
  | EnableTD epoch => enableTD epoch
  | Receive m => receive E fuel m
  | RunTask t => run_task E fuel t
  end.

Definition perform_all (E : Env) (fuel : nat) (es : list entry) : M unit :=
  for_each es (perform E fuel).

(** An epoch is made while the one to be handed out is still in use: the loop that looks for
    it never ends, whatever its fuel. *)
Definition stuck (E : Env) (n : Node) (e : entry) : Prop :=
  match e with MakeEpoch is_coll ds s => forall k, makeEpoch E k is_coll ds s n = None | _ => False end.

Lemma good_get {B} k j (f : Node -> M B) n : good k j (f n) n -> good k j (get ≫= f) n.
Proof.
  intros H. apply (good_bind k 0 j); [intros ? ?; eexists; split; [done|]; intros ? ? ? [= <- <- <-]; split; [done|lia]|].
  by intros a n' o [= <- <- <-] _ _.
Qed.

Lemma good_allocate k f n : f (windows n) <> None -> good k 0 (allocate f) n.
Proof.
  intros H Hok _. unfold allocate. destruct (f (windows n)) as [[[m ep]|e]|]; [|by eexists|done].
  eexists. split; [done|]. intros ? ? ? [= <- <- <-]. split; [exact Hok|]. change (mu (with_windows m n)) with (mu n). lia.
Qed.

(** An allocation and what is done with the epoch. *)
Lemma good_make k f (init : Z -> M unit) n : f (windows n) <> None -> (forall ep, tame k 8 (init ep)) ->
  good k 8 (epoch ← allocate f; init epoch;; mret epoch) n.
Proof.
  intros Hf Hi. apply (good_bind k 0 8); [by apply good_allocate|]. intros ep n' o _ _ _.
  apply (good_bind k 8 0); [apply Hi|]. intros. apply good_ret.
Qed.

Lemma stuck_make f (init : Z -> M unit) n : f (windows n) = None -> (epoch ← allocate f; init epoch;; mret epoch) n = None.
Proof. intros H. unfold mbind, M_bind, allocate. by rewrite H. Qed.

Lemma none_bind {A B} (m : M A) (f : A -> M B) n a n1 o : m n = Some (Ok (a, n1, o)) -> f a n1 = None -> (m ≫= f) n = None.
Proof. intros H1 H2. unfold mbind, M_bind. by rewrite H1, H2. Qed.

Lemma rooted_returns k fu cat (init : Z -> M unit) n : (forall ep, tame k 8 (init ep)) ->
  good k 8 (n ← get; epoch ← allocate (fun m => Component.getNextRootedEpoch (S fu) (this_node_ n) m cat); init epoch;; mret epoch) n \/
  forall k', Component.getNextRootedEpoch k' (this_node_ n) (windows n) cat = None.
Proof.
  intros Hi. destruct (Component.getNextRootedEpoch (S fu) (this_node_ n) (windows n) cat) eqn:Ea.
  - left. apply good_get, good_make; [by rewrite Ea|done].
  - right. by eapply Component.getNextRootedEpoch_stuck.
Qed.

Lemma makeEpoch_returns E fuel c d s n : (0 < fuel)%nat ->
  good (Z.of_nat fuel) 8 (makeEpoch E fuel c d s) n \/ stuck E n (MakeEpoch c d s).
Proof.
  intros Hfuel. destruct fuel as [|fu]; [lia|]. unfold stuck, makeEpoch. destruct c.
  - unfold makeEpochCollective. destruct (Component.getNextCollectiveEpoch (S fu) (windows n) NoCategoryEpoch) eqn:Ea.
    + left. apply good_make; [by rewrite Ea|]. intros ep. eapply tame_weaken; [apply api_initializeCollectiveEpoch|lia].
    + right. intros k. apply stuck_make. by eapply Component.getNextCollectiveEpoch_stuck.
  - unfold makeEpochRooted. destruct (vt_term_rooted_use_ds (cfg E) && vt_term_rooted_use_wave (cfg E)).
    { left. intros Hok _. by eexists. }
    destruct (_ && _).
    + destruct (rooted_returns (Z.of_nat (S fu)) fu DijkstraScholtenEpoch (fun ep => initializeRootedDSEpoch E (S fu) ep s) n) as [H|H].
      * intros ep. eapply tame_weaken; [apply api_initializeRootedDSEpoch|lia].
      * left. apply (good_bind _ 0 8); [apply tame_check|]. by intros ? ? ? [= <- <- <-] _ _.
      * right. intros k.
        pose proof (stuck_make (fun m => Component.getNextRootedEpoch k (this_node_ n) m DijkstraScholtenEpoch) (fun ep => initializeRootedDSEpoch E k ep s) n (H k)) as Hm.
        apply (none_bind _ _ n tt n []); [done|]. by apply (none_bind _ _ n n n []).
    + destruct (rooted_returns (Z.of_nat (S fu)) fu NoCategoryEpoch (fun ep => initializeRootedWaveEpoch E (S fu) ep s) n) as [H|H].
      * intros ep. eapply tame_weaken; [apply api_initializeRootedWaveEpoch|lia].
      * left. apply (good_bind _ 0 8); [apply tame_check|]. by intros ? ? ? [= <- <- <-] _ _.
      * right. intros k.
        pose proof (stuck_make (fun m => Component.getNextRootedEpoch k (this_node_ n) m NoCategoryEpoch) (fun ep => initializeRootedWaveEpoch E k ep s) n (H k)) as Hm.
        apply (none_bind _ _ n tt n []); [done|]. by apply (none_bind _ _ n n n []).
Qed.

Lemma perform_returns E fuel e n : (0 < fuel)%nat -> good (Z.of_nat fuel) 8 (perform E fuel e) n \/ stuck E n e.
Proof.
  intros Hfuel. destruct e; cbn [perform stuck].
  - left. eapply tame_weaken; [apply api_produce|lia].
  - left. eapply tame_weaken; [apply api_consume|lia].
  - left. eapply tame_weaken; [apply api_setLocalTerminated|lia].
  - left. eapply tame_weaken; [apply api_maybePropagate|lia].
  - left. eapply tame_weaken; [apply api_resetGlobalTerm|lia].
  - left. eapply tame_weaken; [apply api_freeEpoch|lia].
  - left. apply (tame_bind _ 0 8); [apply (api_testEpochTerminated fuel)|intros; apply tame_ret].
  - left. eapply tame_weaken; [apply api_addActionEpoch|lia].
  - left. eapply tame_weaken; [apply api_addActionUnique|lia].
  - left. eapply tame_weaken; [apply api_pushEpoch|lia].
  - left. apply (tame_bind _ 0 8); [apply api_popEpoch|intros; apply tame_ret].
  - left. eapply tame_weaken; [apply api_addDependency|lia].
  - left. eapply tame_weaken; [apply api_addLocalDependency|lia].
  - left. eapply tame_weaken; [apply api_releaseLocalDependency|lia].
  - left. eapply tame_weaken; [apply api_finishedEpoch|lia].
  - left. eapply tame_weaken; [apply api_initializeRootedEpoch|lia].
  - left. eapply tame_weaken; [apply api_initializeCollectiveEpoch|lia].
  - destruct (makeEpoch_returns E fuel is_coll use_ds successor n Hfuel) as [H|H]; [left|by right].
    apply (good_bind _ 8 0); [done|]. intros. apply good_ret.
  - left. eapply tame_weaken; [by apply api_td|lia].
  - left. eapply tame_weaken; [by apply api_td|lia].
  - left. eapply tame_weaken; [apply api_receive|lia].
  - left. eapply tame_weaken; [apply api_run_task|lia].
Qed.

(** A sequence of calls returns, or gets to one that is [stuck]. *)
Lemma perform_all_returns E fuel es n : node_ok n -> mu n + 8 * Z.of_nat (length es) < Z.of_nat fuel ->
  (exists r, perform_all E fuel es n = Some r /\
     forall n' o, r = Ok (tt, n', o) -> node_ok n' /\ mu n' <= mu n + 8 * Z.of_nat (length es)) \/
  (exists es1 e es2 n' o, es = es1 ++ e :: es2 /\ perform_all E fuel es1 n = Some (Ok (tt, n', o)) /\ stuck E n' e).
Proof.
  revert n. induction es as [|e es IH]; intros n Hok Hmu.
  { left. eexists. split; [done|]. intros n' o [= <- <-]. split; [done|simpl; lia]. }
  cbn [length] in Hmu. pose proof (mu_nonneg n). destruct (perform_returns E fuel e n ltac:(lia)) as [Hg|Hs].
  - destruct (Hg Hok ltac:(lia)) as (r & Er & Hr). unfold perform_all in *. cbn [for_each]. unfold mbind, M_bind. rewrite Er.
    destruct r as [[[[] n1] o1]|x]; [|left; eexists; split; [done|done]]. destruct (Hr tt n1 o1 eq_refl) as [Hok1 Hmu1].
    destruct (IH n1 Hok1 ltac:(lia)) as [(r & E2 & Hr2)|(es1 & e' & es2 & n' & o & -> & E2 & Hs)].
    + left. rewrite E2. destruct r as [[[[] n2] o2]|x]; eexists; (split; [done|]); [|done].
      intros n' o [= <- <-]. destruct (Hr2 n2 o2 eq_refl). split; [done|cbn [length]; lia].
    + right. exists (e :: es1), e', es2, n', (o1 ++ o). split; [done|]. split; [|done]. cbn [for_each]. unfold mbind, M_bind. by rewrite Er, E2.
  - right. exists [], e, es, n, []. by split_and!.
Qed.

Lemma make_node_ok this N w : node_ok (make this N w) /\ mu (make this N w) = 2.
Proof. split; [|done]. intros ep d H. cbn in H. by rewrite lookup_empty in H. Qed.

(** ** Local dependencies

    While the global epoch's state has a dependency, this node contributes to no
    wave of it and does not detect its termination. *)
Definition quiet (s s' : TermState) : Prop :=
  0 < deps_ s -> 0 < deps_ s' /\ term_detected_ s' = term_detected_ s /\
                 submitted_wave_ s' = submitted_wave_ s.

#[export] Instance quiet_refl : Reflexive quiet.
Proof. intros s Hs. done. Qed.
#[export] Instance quiet_trans : Transitive quiet.
Proof. intros a b c Hab Hbc H. destruct (Hab H) as (H1 & <- & <-). by apply Hbc. Qed.

Definition holds {A} (m : M A) : Prop := forall n a n' o,
  m n = Some (Ok (a, n', o)) -> quiet (any_epoch_state_ n) (any_epoch_state_ n').

Lemma holds_ret {A} (a : A) : holds (mret a).
Proof. by intros n a' n' o [= _ <- _]. Qed.
Lemma holds_emit o : holds (emit o).
Proof. by intros n a' n' o' [= _ <- _]. Qed.
Lemma holds_lift {A} (r : res A) : holds (lift r).
Proof. intros n a n' o. unfold lift. destruct r; [|done]. by intros [= _ <- _]. Qed.
Lemma holds_check b : holds (check b).
Proof. apply holds_lift. Qed.
Lemma holds_get : holds get.
Proof. by intros n a n' o [= _ <- _]. Qed.

Lemma holds_bind {A B} (m : M A) (f : A -> M B) :
  holds m -> (forall a, holds (f a)) -> holds (m ≫= f).
Proof.
  intros Hm Hf n b n' o. unfold mbind, M_bind. destruct (m n) as [[[[a n1] o1]|]|] eqn:H1; [|done..].
  destruct (f a n1) as [[[[b2 n2] o2]|]|] eqn:H2; [|done..]. intros [= <- <- _].
  etransitivity; [by eapply Hm|by eapply Hf].
Qed.

Lemma holds_if {A} (b : bool) (m1 m2 : M A) : holds m1 -> holds m2 -> holds (if b then m1 else m2).
Proof. by destruct b. Qed.
Lemma holds_modify f :
  (forall n, quiet (any_epoch_state_ n) (any_epoch_state_ (f n))) -> holds (modify f).
Proof. intros H n a n' o [= _ <- _]. apply H. Qed.

Lemma holds_for_each {A} (l : list A) (f : A -> M unit) :
  (forall a, holds (f a)) -> holds (for_each l f).
Proof.
  intros H. induction l as [|a l IH]; simpl; [apply holds_ret|]. by apply holds_bind.
Qed.

Create HintDb holds.
#[export] Hint Resolve holds_emit holds_lift holds_check holds_get : holds.

(** Decompose a computation; what is left are assignments that touch the state. *)
Ltac holds_go :=
  lazymatch goal with
  | |- holds (_ ≫= _) => apply holds_bind; [holds_go|intros ?; holds_go]
  | |- holds (match ?x with _ => _ end) => destruct x; holds_go
  | |- holds (mret _) => apply holds_ret
  | |- holds nop => apply holds_ret
  | |- holds (modify _) => apply holds_modify; intros ?;
      try reflexivity; try (intros ?; simpl in *; split_and!; (done || lia))
  | |- holds (for_each _ _) => apply holds_for_each; intros ?; holds_go
  | |- _ => eauto with holds nocore
  end.

(** *** State operations *)
Definition holds_op (f : bool -> TermState -> res (TermState * list event)) : Prop :=
  forall root s s' es, f root s = Ok (s', es) -> quiet s s'.

Lemma not_ready s : 0 < deps_ s -> ready s = false.
Proof.
  intros H. unfold ready. destruct (deps_ s =? 0) eqn:E; [apply Z.eqb_eq in E; lia|].
  by rewrite andb_false_r.
Qed.

Lemma propagateEpoch_holds c l : holds_op (TermState.propagateEpoch c l).
Proof.
  intros root s s' es H Hd. revert H. unfold TermState.propagateEpoch.
  destruct (readySubmitParent s) as [b|] eqn:Hr; [|done]. apply submit_ready_Ok in Hr as ->.
  rewrite res_bind_Ok, not_ready by done. by intros [= <- _].
Qed.

Lemma propagateIfReady_holds c l : holds_op (propagateIfReady c l).
Proof.
  intros root s s' es. unfold propagateIfReady. destruct (isActive s); [|by intros [= <- _]].
  destruct (readySubmitParent s) as [[]|]; [|by intros [= <- _]|done].
  apply propagateEpoch_holds.
Qed.

Lemma produceConsumeState_holds c l k b :
  holds_op (fun root s => produceConsumeState c l root s k b).
Proof.
  intros root s s' es H%propagateIfReady_holds. etransitivity; [|exact H]. by destruct b.
Qed.

Lemma propagateEpochExternalState_holds c l p q :
  holds_op (fun root s => propagateEpochExternalState c l root s p q).
Proof.
  intros root s s' es. unfold propagateEpochExternalState, notifyChildReceive.
  intros (s1 & [_ [= <-]]%vtAssert_Ok & H%propagateIfReady_holds)%bind_Ok_inv. exact H.
Qed.

Lemma receiveContinueSignal_holds w :
  holds_op (fun _ s => s ← receiveContinueSignal w s; Ok (s, [])).
Proof.
  intros root s s' es. unfold receiveContinueSignal.
  by intros (s1 & [_ [= <-]]%vtAssert_Ok & [= <- _])%bind_Ok_inv.
Qed.

Lemma activateState_holds c l : holds_op (activateState c l).
Proof.
  intros root s s' es. unfold activateState.
  intros ([] & _ & H)%bind_Ok_inv.
  - by apply propagateEpoch_holds in H.
  - by injection H as <- _.
Qed.

(** *** Operations of the node *)
Lemma holds_write r s s' n :
  read_state n r = Some s -> quiet s s' ->
  quiet (any_epoch_state_ n) (any_epoch_state_ (write_state r s' n)).
Proof. destruct r; simpl; [by intros [= ->]|done..]. Qed.

Lemma holds_findOrCreateState ep b : holds (findOrCreateState ep b).
Proof. unfold findOrCreateState. holds_go. Qed.
Lemma holds_getDSTerm ep b : holds (getDSTerm ep b).
Proof. unfold getDSTerm. holds_go. Qed.
Lemma holds_getTerminator ep : holds (getTerminator ep).
Proof. unfold getTerminator. holds_go. Qed.
Lemma holds_with_window {A} ep f : holds (@with_window A ep f).
Proof. unfold with_window. holds_go. Qed.
Lemma holds_updateResolvedEpochs ep : holds (updateResolvedEpochs ep).
Proof. unfold updateResolvedEpochs. apply holds_if; [apply holds_with_window|apply holds_ret]. Qed.
Lemma holds_hangCheckHandler : holds hangCheckHandler.
Proof. unfold hangCheckHandler. holds_go. Qed.
Lemma holds_run_action a : holds (run_action a).
Proof. destruct a; apply holds_emit. Qed.
#[export] Hint Resolve holds_findOrCreateState holds_getDSTerm holds_getTerminator holds_with_window
  holds_updateResolvedEpochs holds_hangCheckHandler holds_run_action : holds.

Lemma holds_queueActions E ep : holds (queueActions E ep).
Proof. unfold queueActions. holds_go. Qed.
Lemma holds_cleanupEpoch ep from : holds (cleanupEpoch ep from).
Proof. unfold cleanupEpoch. holds_go. Qed.
Lemma holds_getEpochDep ep : holds (getEpochDep ep).
Proof. unfold getEpochDep. holds_go. Qed.
Lemma holds_putEpochDep ep d : holds (putEpochDep ep d).
Proof. unfold putEpochDep. holds_go. Qed.
Lemma holds_addEpochStateDependency ep : holds (addEpochStateDependency ep).
Proof. unfold addEpochStateDependency. holds_go. Qed.
#[export] Hint Resolve holds_queueActions holds_cleanupEpoch holds_getEpochDep holds_putEpochDep
  holds_addEpochStateDependency : holds.

Section holds_rec.
Context (E : Env) (rec : Z -> CallFromEnum -> M unit).
Context (Hrec : forall ep from, holds (rec ep from)).
Hint Resolve Hrec : holds.

Lemma holds_handle_event ep e : holds (handle_event rec ep e).
Proof. destruct e; simpl; holds_go. Qed.
Lemma holds_handle_ds_event ep e : holds (handle_ds_event rec ep e).
Proof. destruct e; simpl; holds_go. Qed.
Hint Resolve holds_handle_event holds_handle_ds_event : holds.

Lemma holds_on_state r f : holds_op f -> holds (on_state rec r f).
Proof.
  intros Hf n a n' o. unfold on_state, mbind at 1, M_bind at 1. cbn [get].
  destruct (read_state n r) as [s|] eqn:Hr; [|by intros [= _ <- _]].
  destruct (f (Tree.isRoot (tree n)) s) as [[s' es]|] eqn:Hfs; [|done].
  intros H.
  assert (exists o1, for_each es (handle_event rec (TermState.getEpoch s')) (write_state r s' n) =
    Some (Ok (a, n', o1))) as [o1 H1].
  { unfold mbind, M_bind in H. simpl in H.
    destruct (for_each es _ (write_state r s' n)) as [[[[? ?] ?]|]|]; [|done..].
    injection H as -> -> _. eauto. }
  etransitivity; [by eapply holds_write, Hf|].
  eapply (holds_for_each _ _ (holds_handle_event _)), H1.
Qed.

Lemma holds_on_ds ep f : holds (on_ds rec ep f).
Proof. unfold on_ds. holds_go. Qed.
Hint Resolve holds_on_ds : holds.

Lemma holds_maybePropagate : holds (maybePropagate E rec).
Proof.
  pose proof (fun r => holds_on_state r _ (propagateIfReady_holds (cfg E) (log_exceeds E))).
  unfold maybePropagate. holds_go.
Qed.
Hint Resolve holds_maybePropagate : holds.

Lemma holds_produceConsume ep k b node : holds (produceConsume E rec ep k b node).
Proof.
  pose proof (fun r => holds_on_state r _ (produceConsumeState_holds (cfg E) (log_exceeds E) k b)).
  unfold produceConsume. holds_go.
Qed.
Hint Resolve holds_produceConsume : holds.

Lemma holds_produce ep k node : holds (produce E rec ep k node).
Proof. apply holds_produceConsume. Qed.
Lemma holds_consume ep k node : holds (consume E rec ep k node).
Proof. apply holds_produceConsume. Qed.
Lemma holds_produceOnGlobal : holds (produceOnGlobal E rec).
Proof. apply holds_produceConsume. Qed.
Lemma holds_consumeOnGlobal : holds (consumeOnGlobal E rec).
Proof. apply holds_produceConsume. Qed.
Lemma holds_removeEpochStateDependency ep : holds (removeEpochStateDependency E rec ep).
Proof. unfold removeEpochStateDependency. holds_go. Qed.
Hint Resolve holds_produce holds_consume holds_produceOnGlobal holds_consumeOnGlobal
  holds_removeEpochStateDependency : holds.

Lemma holds_dep_call c : holds (dep_call E rec c).
Proof. destruct c; simpl; eauto with holds nocore. Qed.
Hint Resolve holds_dep_call : holds.

Lemma holds_epochTerminated_body ep from : holds (epochTerminated_body E rec ep from).
Proof.
  unfold epochTerminated_body, EpochDependency.clearSuccessors. holds_go.
Qed.

End holds_rec.

Lemma holds_epochTerminated E fuel ep from : holds (epochTerminated E fuel ep from).
Proof.
  revert ep from. induction fuel as [|fuel IH]; intros ep from; [by intros n a n' o H|].
  by apply holds_epochTerminated_body.
Qed.
#[export] Hint Resolve holds_epochTerminated : holds.

(** The calls that take a dependency of the global epoch away. *)
Definition releases (e : entry) : bool :=
  match e with
  | ReleaseLocalDependency _ | ResetGlobalTerm => true
  | EnableTD epoch => epoch =? any_epoch_sentinel
  | _ => false
  end.

Section holds_api.
Context (E : Env) (fuel : nat).

Lemma holds_state r f : holds_op f -> holds (on_state (epochTerminated E fuel) r f).
Proof. apply holds_on_state, holds_epochTerminated. Qed.
Lemma holds_produce_ ep k node : holds (produce_ E fuel ep k node).
Proof. apply holds_produce, holds_epochTerminated. Qed.
Lemma holds_consume_ ep k node : holds (consume_ E fuel ep k node).
Proof. apply holds_consume, holds_epochTerminated. Qed.
Lemma holds_maybePropagate_ : holds (maybePropagate_ E fuel).
Proof. apply holds_maybePropagate, holds_epochTerminated. Qed.
Lemma holds_global : holds (produceOnGlobal E (epochTerminated E fuel)).
Proof. apply holds_produceOnGlobal, holds_epochTerminated. Qed.
Lemma holds_call c : holds (dep_call E (epochTerminated E fuel) c).
Proof. apply holds_dep_call, holds_epochTerminated. Qed.
Lemma holds_ds ep f : holds (on_ds (epochTerminated E fuel) ep f).
Proof. apply holds_on_ds, holds_epochTerminated. Qed.
Hint Resolve holds_produce_ holds_consume_ holds_maybePropagate_ holds_global holds_call holds_ds
  : holds.

Lemma holds_window_isTerminated ep : holds (window_isTerminated ep).
Proof. apply holds_with_window. Qed.
Hint Resolve holds_window_isTerminated : holds.
Lemma holds_testEpochTerminated ep : holds (testEpochTerminated ep).
Proof. unfold testEpochTerminated. holds_go. Qed.
Hint Resolve holds_testEpochTerminated : holds.
Lemma holds_isEpochTerminated ep : holds (isEpochTerminated ep).
Proof. unfold isEpochTerminated. holds_go. Qed.
Lemma holds_afterAddEpochAction ep : holds (afterAddEpochAction E ep).
Proof. unfold afterAddEpochAction. holds_go. Qed.
Lemma holds_getEpoch : holds getEpoch.
Proof. unfold getEpoch. holds_go. Qed.
Hint Resolve holds_isEpochTerminated holds_afterAddEpochAction holds_getEpoch : holds.
Lemma holds_addActionEpoch ep a : holds (addActionEpoch E fuel ep a).
Proof. unfold addActionEpoch, addGlobalAction. holds_go. Qed.
Hint Resolve holds_addActionEpoch : holds.
Lemma holds_triggerAllEpochActions ep encap : holds (triggerAllEpochActions E fuel ep encap).
Proof. unfold triggerAllEpochActions, run_registered. holds_go. Qed.
Lemma holds_addDependency p q : holds (addDependency E fuel p q).
Proof. unfold addDependency. holds_go. Qed.
Hint Resolve holds_triggerAllEpochActions holds_addDependency : holds.
Lemma holds_finishedEpoch ep : holds (finishedEpoch E fuel ep).
Proof.
  pose proof (fun r => holds_state r _ (activateState_holds (cfg E) (log_exceeds E))).
  unfold finishedEpoch, finishNoActivateEpoch, activateEpoch. holds_go.
Qed.
Hint Resolve holds_finishedEpoch : holds.
Lemma holds_makeRootedHan ep b : holds (makeRootedHan E fuel ep b).
Proof. unfold makeRootedHan, window_activate. holds_go. Qed.
Hint Resolve holds_makeRootedHan : holds.
Lemma holds_initializeRootedEpoch ep ds succ : holds (initializeRootedEpoch E fuel ep ds succ).
Proof.
  unfold initializeRootedEpoch, initializeRootedDSEpoch, initializeRootedWaveEpoch, add_parent.
  holds_go.
Qed.

Lemma holds_td ep f :
  ep <> any_epoch_sentinel \/ (forall s, quiet s (f s)) -> holds (td_state ep f).
Proof.
  intros H. unfold td_state. apply holds_bind; [apply holds_check|intros _].
  destruct (Z.eqb_spec ep any_epoch_sentinel); [|holds_go].
  apply holds_modify. intros n. destruct H as [?|H]; [done|apply H].
Qed.

Lemma holds_receive m : holds (receive E fuel m).
Proof.
  pose proof (fun r p q => holds_state r _ (propagateEpochExternalState_holds (cfg E) (log_exceeds E) p q)).
  pose proof (fun r w => holds_state r _ (receiveContinueSignal_holds w)).
  destruct m; cbn [receive]; unfold propagateEpochExternal, epochContinue, inquireTerminated, replyTerminated;
    holds_go.
Qed.

Lemma holds_run_task t : holds (run_task E fuel t).
Proof. destruct t; cbn [run_task]; holds_go. Qed.

Lemma holds_allocate f : holds (allocate f).
Proof. intros n a n' o. unfold allocate. destruct (f (windows n)) as [[[? ?]|]|]; [|done..]. by intros [= _ <- _]. Qed.
Hint Resolve holds_allocate : holds.

Lemma holds_makeEpoch c d s : holds (makeEpoch E fuel c d s).
Proof.
  unfold makeEpoch, makeEpochCollective, makeEpochRooted, makeEpochRootedDS, makeEpochRootedWave, initializeRootedDSEpoch,
    initializeRootedWaveEpoch, initializeCollectiveEpoch, setupNewEpoch, add_parent. holds_go.
Qed.

Lemma perform_holds e : releases e = false -> holds (perform E fuel e).
Proof.
  destruct e; intros Hr; cbn [perform]; try done.
  - apply holds_produce_.
  - apply holds_consume_.
  - unfold setLocalTerminated. holds_go.
  - apply holds_maybePropagate_.
  - unfold freeEpoch. holds_go.
  - holds_go.
  - apply holds_addActionEpoch.
  - unfold addActionUnique. holds_go.
  - unfold pushEpoch. holds_go.
  - unfold popEpoch. holds_go.
  - apply holds_addDependency.
  - unfold addLocalDependency. holds_go.
  - apply holds_finishedEpoch.
  - apply holds_initializeRootedEpoch.
  - unfold initializeCollectiveEpoch, setupNewEpoch, add_parent. holds_go.
  - apply holds_bind; [apply holds_makeEpoch|intros _; apply holds_ret].
  - apply holds_td. right. intros s Hd. simpl. split_and!; (done || lia).
  - apply holds_td. left. by apply Z.eqb_neq.
  - apply holds_receive.
  - apply holds_run_task.
Qed.

End holds_api.
End TerminationDetector.

(** ** What the detector of a node promises *)
Module TerminationSpec.
Import TerminationDetector.

(** C33: Every sequence of calls on the detector, the making of epochs included, whatever the
    messages and scheduled units it is handed, returns or ends in a failed assertion or an
    abort, unless it comes to a call that makes an epoch while the epoch to be handed out is
    still in use: that one never returns, with any fuel. An epoch that terminates releases its
    successors, whose termination may be found on the spot and release more; the depth of
    this chain is bounded by the epochs the node can still terminate, each call adds at most
    eight of them, and the tables stay well-formed. *)
Theorem detector_returns E this N w es :
  let fuel := (8 * length es + 3)%nat in
  (exists r, perform_all E fuel es (make this N w) = Some r /\
     forall n o, r = Ok (tt, n, o) -> node_ok n /\ mu n <= 8 * Z.of_nat (length es) + 2) \/
  (exists es1 is_coll use_ds succ es2 n o, es = es1 ++ MakeEpoch is_coll use_ds succ :: es2 /\
     perform_all E fuel es1 (make this N w) = Some (Ok (tt, n, o)) /\
     forall k, makeEpoch E k is_coll use_ds succ n = None).
Proof.
  intros fuel. destruct (make_node_ok this N w) as [Hok Hmu].
  destruct (perform_all_returns E fuel es (make this N w) Hok) as [(r & Hr & H)|(es1 & e & es2 & n & o & -> & Hr & Hs)];
    [rewrite Hmu; lia|left|right].
  - exists r. split; [done|]. intros n o Ho. destruct (H n o Ho). split; [done|]. lia.
  - destruct e; try done. by eexists es1, _, _, _, es2, n, o.
Qed.

(** A dependency on the global epoch (a local dependency, or termination
    detection disabled) keeps this node out of it: until a call takes one away,
    no sequence of calls submits the node's counters to a wave of the global
    epoch or detects its termination, and the dependency stays. *)
Theorem local_dependency_blocks E fuel es n n' o :
  0 < deps_ (any_epoch_state_ n) -> forallb (fun e => negb (releases e)) es = true ->
  perform_all E fuel es n = Some (Ok (tt, n', o)) ->
  0 < deps_ (any_epoch_state_ n') /\
  term_detected_ (any_epoch_state_ n') = term_detected_ (any_epoch_state_ n) /\
  submitted_wave_ (any_epoch_state_ n') = submitted_wave_ (any_epoch_state_ n).
Proof.
  intros Hd Hes H.
  assert (forall l, forallb (fun e => negb (releases e)) l = true -> holds (perform_all E fuel l))
    as Hall.
  { intros l. unfold perform_all. induction l as [|e l IH]; simpl; [intros; apply holds_ret|].
    intros [He%negb_true_iff Hl]%andb_true_iff.
    apply holds_bind; [by apply perform_holds|intros _; by apply IH]. }
  by apply (Hall es Hes n tt n' o H).
Qed.

(** A node other than the root never learns that a Dijkstra-Scholten epoch is
    running: nothing activates the epoch in its windows (only [makeRootedHan]
    does, for wave epochs), a new window counts all its epochs as terminated, and
    so [testEpochTerminated] answers "terminated" without asking the root. *)
Theorem ds_remote_reports_terminated n ep :
  Component.comp_ok (windows n) -> in_ty EpochManip.EpochType ep ->
  isDS ep = true -> 1 <= EpochManip.seq ep <= 2 ^ EpochManip.seq_bits ep - 2 ->
  Component.terminated_epochs_ (windows n) !! EpochManip.getArchetype ep = None ->
  exists n', testEpochTerminated ep n = Some (Ok (Terminated, n', [])).
Proof.
  intros Hok Hty Hds Hseq Hnone.
  assert (EpochManip.isRooted ep = true /\ ep <> EpochManip.any_epoch_sentinel) as [Hr Hne].
  { unfold isDS, is_rooted in Hds. destruct (Z.eqb_spec ep EpochManip.any_epoch_sentinel) as [|Hne];
      [discriminate Hds|]. cbn [orb] in Hds. destruct (ep =? EpochManip.no_epoch); [discriminate Hds|].
    destruct (EpochManip.isRooted ep); [|discriminate Hds]. split; [reflexivity|assumption]. }
  destruct (Component.getTerminatedWindow_rooted _ _ Hok Hty Hr Hne)
    as (m' & w & Hget & Hok' & Hderef & Hwin & _).
  destruct Hwin as [Hw|[_ Hw]]; [congruence|].
  destruct (EpochWindow.make_window_ok (EpochManip.getArchetype ep))
    as (w' & Hw' & Hwok & Ha & Hm & _); [apply EpochManip.setSeq_in_ty|].
  assert (w' = w) as -> by congruence. rewrite EpochManip.getArchetype_idem in Hm.
  assert (EpochWindow.isTerminated w ep = Ok true) as Ht.
  { unfold EpochWindow.isTerminated. rewrite (EpochWindow.contains_spec w ep Hwok).
    assert (EpochWindow.mem_t w ep) as Hin.
    { apply Hm. pose proof (EpochManip.epoch_split ep Hty).
      unfold EpochWindow.in_range, EpochWindow.first_epoch, EpochWindow.last_epoch.
      rewrite EpochManip.seq_bits_getArchetype. lia. }
    unfold EpochWindow.mem_t, IntegralSet.mem in Hin. by destruct (IntegralSet.mem_dec_list _ _). }
  exists (with_windows (Component.store m' (Component.RootedWindow (EpochManip.getArchetype ep)) w) n).
  unfold testEpochTerminated, window_isTerminated, with_window, mbind, M_bind. cbn [get].
  unfold lift at 1. rewrite Hget. cbn beta iota. rewrite Hderef, Ht. reflexivity.
Qed.

(** Settings and a traversal order for the examples. *)
Definition sample_env : Env := {|
  cfg := {| vt_no_detect_hang := true; vt_print_no_progress := false; vt_hang_freq := 1024;
            vt_term_rooted_use_ds := false; vt_term_rooted_use_wave := false |};
  log_exceeds := fun _ _ => false;
  visit := elements
|}.

Definition new_windows : Component.EpochManip :=
  match Component.make with
  | Ok m => m
  | Stop _ => Component.Manip ∅
      (EpochWindow.Window 0 IntegralSet.iset_empty (RangedCounter.make 0 0) 0)
  end.

(** Two nested epochs on one node: both finish, the inner one terminates in its
    second wave and thereby lets the outer one start its waves. *)
Definition nested : M unit :=
  outer ← makeEpochCollective sample_env 20 EpochManip.no_epoch;
  inner ← makeEpochCollective sample_env 20 outer;
  finishedEpoch sample_env 20 outer;;
  finishedEpoch sample_env 20 inner;;
  maybePropagate_ sample_env 20;;
  maybePropagate_ sample_env 20.

Definition outputs (r : option (res (unit * Node * list output))) : list output :=
  match r with Some (Ok (_, _, o)) => o | _ => [] end.

Lemma nested_terminates : outputs (nested (make 0 1 new_windows)) =
  [Broadcast (EpochContinueMsg 2 1); Broadcast (EpochTerminatedMsg 2);
   Broadcast (EpochContinueMsg 1 1); Enqueue (CleanupTask 2);
   Broadcast (EpochTerminatedMsg 1); Enqueue (CleanupTask 1)].
Proof. vm_compute. reflexivity. Qed.

Definition node_of (r : option (res (unit * Node * list output))) : Node :=
  match r with Some (Ok (_, n, _)) => n | _ => make 0 1 new_windows end.

Lemma local_dependency_blocks_witness :
  let n := node_of (addLocalDependency sample_env 9 EpochManip.any_epoch_sentinel (make 0 1 new_windows)) in
  let n' := node_of (perform_all sample_env 9 [SetLocalTerminated true false; MaybePropagate] n) in
  term_detected_ (any_epoch_state_ n') = false /\ submitted_wave_ (any_epoch_state_ n') = -1.
Proof.
  cbv zeta.
  destruct (local_dependency_blocks sample_env 9 [SetLocalTerminated true false; MaybePropagate]
    (node_of (addLocalDependency sample_env 9 EpochManip.any_epoch_sentinel (make 0 1 new_windows)))
    (node_of (perform_all sample_env 9 [SetLocalTerminated true false; MaybePropagate]
      (node_of (addLocalDependency sample_env 9 EpochManip.any_epoch_sentinel (make 0 1 new_windows)))))
    []) as (_ & H1 & H2); [vm_compute; reflexivity..|].
  rewrite H1, H2. vm_compute. split; reflexivity.
Defined.

(** The epoch node 0 creates, seen from node 0 and from node 1. *)
Definition ds_epoch : Z :=
  match makeEpochRootedDS sample_env 20 EpochManip.no_epoch (make 0 2 new_windows) with
  | Some (Ok (ep, _, _)) => ep
  | _ => 0
  end.

Lemma new_windows_ok : Component.comp_ok new_windows /\ Component.terminated_epochs_ new_windows = ∅.
Proof.
  destruct Component.make_ok as (m & Hm & Hok & He). unfold new_windows. rewrite Hm. done.
Qed.

Lemma ds_remote_reports_terminated_witness :
  (exists n', testEpochTerminated ds_epoch (make 1 2 new_windows) = Some (Ok (Terminated, n', []))) /\
  match makeEpochRootedDS sample_env 20 EpochManip.no_epoch (make 0 2 new_windows) with
  | Some (Ok (ep, n, o)) => o = [] /\
      exists n', testEpochTerminated ep n = Some (Ok (Pending, n', []))
  | _ => False
  end.
Proof.
  split.
  - apply ds_remote_reports_terminated.
    + apply new_windows_ok.
    + vm_compute. split; discriminate.
    + vm_compute. reflexivity.
    + vm_compute. split; discriminate.
    + cbn [windows make]. rewrite (proj2 new_windows_ok). apply lookup_empty.
  - vm_compute. split; [reflexivity|]. eexists. reflexivity.
Defined.

End TerminationSpec.
