(* ===== verification/Barrier.v ===== *)
(** * Barriers

    Models [src/vt/collective/barrier/barrier.{h,cc}] and its state and message.
    A node enters a barrier by waiting on it or by giving it a continuation;
    entries and the messages of a node's children are counted, a full count goes
    up the tree of [Tree.v], and the root broadcasts the release.

    [Module Barrier] is one node. [waitBarrier] runs the scheduler until the
    barrier is released: it is the operation that enters and the one that leaves.
    [Module BarrierSystem] is all nodes with the messages in flight, delivered in
    any order; [BarrierSpec] says that nobody passes a barrier before everyone has
    entered it, that everyone then passes, and that a named barrier with a
    continuation cannot be used twice. *)

From S2P Require Import Prelude.
From S2P Require Import Sums.
From S2P Require Import Tree.

Module Barrier.

Definition no_barrier : Z := 2 ^ 64 - 1.
Definition fst_barrier : Z := 1.
Definition fst_coll_barrier : Z := 2 ^ 63 + 1.

Record BarrierState := MkState {
  barrier : Z;
  recv_event_count : Z;
  is_wait : bool;
  is_named : bool;
  released : bool;
  cont_action : option Z
}.

Definition makeState (in_is_named : bool) (in_barrier : Z) (in_is_wait : bool) : BarrierState :=
  MkState in_barrier 0 in_is_wait in_is_named false None.

Definition with_count (n : Z) (s : BarrierState) : BarrierState :=
  MkState (barrier s) n (is_wait s) (is_named s) (released s) (cont_action s).
Definition with_released (b : bool) (s : BarrierState) : BarrierState :=
  MkState (barrier s) (recv_event_count s) (is_wait s) (is_named s) b (cont_action s).
Definition with_action (a : option Z) (s : BarrierState) : BarrierState :=
  MkState (barrier s) (recv_event_count s) (is_wait s) (is_named s) (released s) a.

Record BarrierMsg := MkMsg { m_named : bool; m_wait : bool; m_skip_term : bool; m_barrier : Z }.

(** The constructor leaves [skip_term] unset. *)
Definition makeMsg (in_is_named : bool) (in_barrier : Z) (in_is_wait : bool) : BarrierMsg :=
  MkMsg in_is_named in_is_wait false in_barrier.

(** [term_msg]: the message is marked as not counted by termination detection. *)
Inductive output :=
  | SendUp (dest : Z) (m : BarrierMsg) (term_msg : bool)
  | BroadcastDown (m : BarrierMsg) (term_msg : bool)
  | RunCont (action : Z).

Record Barrier := MkBarrier {
  tree : Tree.Tree;
  cur_named_barrier_ : Z;
  cur_named_coll_barrier_ : Z;
  cur_unnamed_barrier_ : Z;
  named_barrier_state_ : gmap Z BarrierState;
  unnamed_barrier_state_ : gmap Z BarrierState
}.

Definition make (this_node num_nodes : Z) : Barrier :=
  MkBarrier (Tree.makeDefault this_node num_nodes) fst_barrier fst_coll_barrier fst_barrier ∅ ∅.

(** [auto& state = is_named ? named_barrier_state_ : unnamed_barrier_state_]. *)
Definition states (named : bool) (t : Barrier) : gmap Z BarrierState :=
  if named then named_barrier_state_ t else unnamed_barrier_state_ t.
Definition with_states (named : bool) (m : gmap Z BarrierState) (t : Barrier) : Barrier :=
  if named
  then MkBarrier (tree t) (cur_named_barrier_ t) (cur_named_coll_barrier_ t) (cur_unnamed_barrier_ t)
         m (unnamed_barrier_state_ t)
  else MkBarrier (tree t) (cur_named_barrier_ t) (cur_named_coll_barrier_ t) (cur_unnamed_barrier_ t)
         (named_barrier_state_ t) m.

(** Returns the state as well; the reference the callers write through is
    [<[barrier := _]>] on the table. *)
Definition insertFindBarrier (named wait : bool) (b : Z) (cont : option Z) (t : Barrier)
    : res (BarrierState * Barrier) :=
  let s := default (makeState named b wait) (states named t !! b) in
  match cont with
  | Some a =>
      vtAssert (negb wait)
        (Ok (with_action (Some a) s, with_states named (<[b := with_action (Some a) s]> (states named t)) t))
  | None => Ok (s, with_states named (<[b := s]> (states named t)) t)
  end.

Definition removeBarrier (named : bool) (b : Z) (t : Barrier) : res Barrier :=
  match states named t !! b with
  | Some _ => Ok (with_states named (delete b (states named t)) t)
  | None => Stop AssertFailed
  end.

Definition newNamedCollectiveBarrier (t : Barrier) : Z * Barrier :=
  (cur_named_coll_barrier_ t,
   MkBarrier (tree t) (cur_named_barrier_ t) (wrap u64 (cur_named_coll_barrier_ t + 1))
     (cur_unnamed_barrier_ t) (named_barrier_state_ t) (unnamed_barrier_state_ t)).

Definition newNamedBarrier (cur_node : Z) (t : Barrier) : Z * Barrier :=
  let next_barrier := cur_named_barrier_ t in
  let cur_node_shift := wrap u64 (Z.shiftl (wrap u64 cur_node) 32) in
  (Z.lor next_barrier cur_node_shift,
   MkBarrier (tree t) (wrap u64 (cur_named_barrier_ t + 1)) (cur_named_coll_barrier_ t)
     (cur_unnamed_barrier_ t) (named_barrier_state_ t) (unnamed_barrier_state_ t)).

Definition barrierUp (named wait : bool) (b : Z) (skip_term : bool) (t : Barrier)
    : res (Barrier * list output) :=
  let num_children := Tree.getNumChildren (tree t) in
  let is_root := Tree.isRoot (tree t) in
  let parent := Tree.getParent (tree t) in
  '(s, t) ← insertFindBarrier named wait b None t;
  let s := with_count (recv_event_count s + 1) s in
  let t := with_states named (<[b := s]> (states named t)) t in
  let is_ready := recv_event_count s =? num_children + 1 in
  Ok (t,
    if is_ready then
      if negb is_root then [SendUp parent (makeMsg named b wait) skip_term]
      else [BroadcastDown (makeMsg named b wait) skip_term]
    else []).

Definition barrierDown (named wait : bool) (b : Z) (t : Barrier) : res (Barrier * list output) :=
  '(s, t) ← insertFindBarrier named wait b None t;
  let t := with_states named (<[b := with_released true s]> (states named t)) t in
  Ok (t,
    match cont_action s with
    | Some a => if negb wait then [RunCont a] else []
    | None => []
    end).

(** The handlers: a message's [skip_term] is passed on. *)
Definition barrierUpHandler (m : BarrierMsg) : Barrier -> res (Barrier * list output) :=
  barrierUp (m_named m) (m_wait m) (m_barrier m) (m_skip_term m).
Definition barrierDownHandler (m : BarrierMsg) : Barrier -> res (Barrier * list output) :=
  barrierDown (m_named m) (m_wait m) (m_barrier m).

(** [is_named ? named : cur_unnamed_barrier_++]. *)
Definition enter_id (named_ : Z) (t : Barrier) : bool * Z * Barrier :=
  if negb (named_ =? no_barrier) then (true, named_, t)
  else (false, cur_unnamed_barrier_ t,
        MkBarrier (tree t) (cur_named_barrier_ t) (cur_named_coll_barrier_ t)
          (wrap u64 (cur_unnamed_barrier_ t + 1)) (named_barrier_state_ t) (unnamed_barrier_state_ t)).

(** [waitBarrier] up to [runSchedulerWhile]. *)
Definition waitBarrier_enter (named_ : Z) (skip_term : bool) (t : Barrier)
    : res (bool * Z * Barrier * list output) :=
  let '(named, b, t) := enter_id named_ t in
  '(_, t) ← insertFindBarrier named true b None t;
  '(t, os) ← barrierUp named true b skip_term t;
  Ok (named, b, t, os).

(** The scheduler's condition, and what follows when it has become false. The
    reference it reads through is to the state in the table; were that removed
    meanwhile, the read would be undefined. *)
Definition waiting_done (named : bool) (b : Z) (t : Barrier) : bool :=
  match states named t !! b with Some s => released s | None => false end.
Definition waitBarrier_leave (named : bool) (b : Z) (t : Barrier) : res Barrier := removeBarrier named b t.

Definition contBarrier (fn : option Z) (named_ : Z) (skip_term : bool) (t : Barrier)
    : res (bool * Z * Barrier * list output) :=
  let '(named, b, t) := enter_id named_ t in
  '(_, t) ← insertFindBarrier named false b fn t;
  '(t, os) ← barrierUp named false b skip_term t;
  Ok (named, b, t, os).

(** ** One operation on one barrier *)

Definition state_of (K : bool * Z) (t : Barrier) : option BarrierState := states K.1 t !! K.2.

Lemma state_with K K' s t :
  state_of K (with_states K'.1 (<[K'.2 := s]> (states K'.1 t)) t)
  = if decide (K' = K) then Some s else state_of K t.
Proof.
  destruct K as [n b], K' as [n' b']. unfold state_of. simpl. case_decide as E.
  - injection E as -> ->. destruct n; simpl; by rewrite lookup_insert_eq.
  - destruct n, n'; simpl; try done; rewrite lookup_insert_ne; naive_solver.
Qed.

Lemma tree_with n m t : tree (with_states n m t) = tree t.
Proof. by destruct n. Qed.

(** What counting one event does. *)
Record bumped (K : bool * Z) (w sk : bool) (t t' : Barrier) (os : list output) (s : BarrierState) : Prop := {
  bu_other K' : K' <> K -> state_of K' t' = state_of K' t;
  bu_state : state_of K t' = Some (with_count (recv_event_count s + 1) s);
  bu_tree : tree t' = tree t;
  bu_out : os = if recv_event_count s + 1 =? Tree.getNumChildren (tree t) + 1 then
      if Tree.isRoot (tree t) then [BroadcastDown (makeMsg K.1 K.2 w) sk]
      else [SendUp (Tree.getParent (tree t)) (makeMsg K.1 K.2 w) sk]
    else []
}.

Lemma barrierUp_bumped K w sk t :
  exists t' os, barrierUp K.1 w K.2 sk t = Ok (t', os) /\
    bumped K w sk t t' os (default (makeState K.1 K.2 w) (state_of K t)).
Proof.
  unfold barrierUp, insertFindBarrier. simpl. do 2 eexists. split; [done|].
  set (s := default _ _). split.
  - intros K' HK. rewrite state_with. rewrite decide_False by done. rewrite state_with.
    by rewrite decide_False.
  - rewrite state_with. by rewrite decide_True.
  - by destruct K as [[] b].
  - destruct K as [[] b]; simpl; by destruct (Tree.isRoot (tree t)).
Qed.

Lemma barrierDown_ok K w t :
  let s := default (makeState K.1 K.2 w) (state_of K t) in
  exists t', barrierDown K.1 w K.2 t = Ok (t', match cont_action s with
      | Some a => if negb w then [RunCont a] else [] | None => [] end) /\
    (forall K', K' <> K -> state_of K' t' = state_of K' t) /\
    state_of K t' = Some (with_released true s) /\ tree t' = tree t.
Proof.
  intros s. unfold barrierDown, insertFindBarrier. simpl. eexists. split; [done|]. split_and!.
  - intros K' HK. rewrite !state_with. by rewrite !decide_False.
  - rewrite state_with. by rewrite decide_True.
  - by destruct K as [[] b].
Qed.

(** Entering is counting one event, on the barrier that is returned. *)
Lemma enter_id_same named_ t nm b t1 :
  enter_id named_ t = (nm, b, t1) -> (forall K, state_of K t1 = state_of K t) /\ tree t1 = tree t.
Proof. unfold enter_id. case_match; intros [= <- <- <-]; split; try done; by intros [[] ?]. Qed.

Lemma bumped_after K w sk t t1 t' os s :
  (forall K', K' <> K -> state_of K' t1 = state_of K' t) -> tree t1 = tree t ->
  bumped K w sk t1 t' os s -> bumped K w sk t t' os s.
Proof.
  intros Ho Ht [B1 B2 B3 B4]. rewrite Ht in *. split; try done. intros K' HK. by rewrite B1, Ho.
Qed.

Lemma waitBarrier_bumped named_ sk t :
  exists K t' os, waitBarrier_enter named_ sk t = Ok (K.1, K.2, t', os) /\
    bumped K true sk t t' os (default (makeState K.1 K.2 true) (state_of K t)).
Proof.
  unfold waitBarrier_enter. destruct (enter_id named_ t) as [[nm b] t1] eqn:He.
  destruct (enter_id_same _ _ _ _ _ He) as [Hs Ht]. exists (nm, b).
  unfold insertFindBarrier. cbn [mbind res_bind fst snd].
  set (s := default (makeState nm b true) (states nm t1 !! b)). set (t2 := with_states nm _ t1).
  assert (state_of (nm, b) t2 = Some s) as H2.
  { unfold t2. pose proof (state_with (nm, b) (nm, b) s t1) as E. rewrite decide_True in E by done. exact E. }
  destruct (barrierUp_bumped (nm, b) true sk t2) as (t' & os & Hu & Hb). cbn [fst snd] in Hu.
  exists t', os. rewrite Hu. split; [done|].
  rewrite H2 in Hb. rewrite <- Hs. apply (bumped_after (nm, b) true sk t t2); [|by destruct nm|exact Hb].
  intros K' HK. rewrite <- Hs. pose proof (state_with K' (nm, b) s t1) as E.
  rewrite decide_False in E by congruence. exact E.
Qed.

Lemma contBarrier_bumped fn named_ sk t :
  exists K t' os, contBarrier (Some fn) named_ sk t = Ok (K.1, K.2, t', os) /\
    bumped K false sk t t' os (with_action (Some fn) (default (makeState K.1 K.2 false) (state_of K t))).
Proof.
  unfold contBarrier. destruct (enter_id named_ t) as [[nm b] t1] eqn:He.
  destruct (enter_id_same _ _ _ _ _ He) as [Hs Ht]. exists (nm, b).
  unfold insertFindBarrier. cbn [mbind res_bind fst snd negb vtAssert].
  set (s := with_action (Some fn) (default (makeState nm b false) (states nm t1 !! b))).
  set (t2 := with_states nm _ t1).
  assert (state_of (nm, b) t2 = Some s) as H2.
  { unfold t2. pose proof (state_with (nm, b) (nm, b) s t1) as E. rewrite decide_True in E by done. exact E. }
  destruct (barrierUp_bumped (nm, b) false sk t2) as (t' & os & Hu & Hb). cbn [fst snd] in Hu.
  exists t', os. rewrite Hu. split; [done|].
  rewrite H2 in Hb. rewrite <- Hs. apply (bumped_after (nm, b) false sk t t2); [|by destruct nm|exact Hb].
  intros K' HK. rewrite <- Hs. pose proof (state_with K' (nm, b) s t1) as E.
  rewrite decide_False in E by congruence. exact E.
Qed.

End Barrier.

(** ** All nodes *)

Module BarrierSystem.
Import Barrier.

Abbreviation Key := (bool * Z)%type.

Inductive msg := Up (m : BarrierMsg) | Down (m : BarrierMsg).

Section system.
Context (N : Z).

Record Sys := MkSys {
  nodes : Z -> Barrier;
  net : list (Z * msg);
  waits : list (Z * Key);                  (* calls of [waitBarrier] under way *)
  entered : list (Z * (Key * bool));       (* history: who entered what, waiting or not *)
  passed : list (Z * Key)                  (* history: who got past what *)
}.

Definition init : Sys := MkSys (fun n => make n N) [] [] [] [].

(** A broadcast reaches every node, its sender included. *)
Definition sends (os : list output) : list (Z * msg) :=
  flat_map (fun o => match o with
    | SendUp d m _ => [(d, Up m)]
    | BroadcastDown m _ => map (fun d => (d, Down m)) (nodes_of N)
    | RunCont _ => []
    end) os.
Definition conts (n : Z) (K : Key) (os : list output) : list (Z * Key) :=
  flat_map (fun o => match o with RunCont _ => [(n, K)] | _ => [] end) os.

Inductive event :=
  | Wait (n named : Z) (skip_term : bool)
  | Cont (n fn named : Z) (skip_term : bool)
  | Deliver (k : nat)
  | Leave (k : nat).

Definition exec1 (s : Sys) (e : event) : option (res Sys) :=
  match e with
  | Wait n named skip =>
      if bool_decide (0 <= n < N) then Some (
        '(nm, b, t, os) ← waitBarrier_enter named skip (nodes s n);
        Ok (MkSys (<[n := t]> (nodes s)) (net s ++ sends os) (waits s ++ [(n, (nm, b))])
              (entered s ++ [(n, ((nm, b), true))]) (passed s)))
      else None
  | Cont n fn named skip =>
      if bool_decide (0 <= n < N) then Some (
        '(nm, b, t, os) ← contBarrier (Some fn) named skip (nodes s n);
        Ok (MkSys (<[n := t]> (nodes s)) (net s ++ sends os) (waits s)
              (entered s ++ [(n, ((nm, b), false))]) (passed s)))
      else None
  | Deliver k =>
      match net s !! k with
      | Some (n, m) =>
          if bool_decide (0 <= n < N) then Some (
            '(t, os) ← match m with
                       | Up m => barrierUpHandler m (nodes s n)
                       | Down m => barrierDownHandler m (nodes s n)
                       end;
            let K := match m with Up m | Down m => (m_named m, m_barrier m) end in
            Ok (MkSys (<[n := t]> (nodes s)) (take_out k (net s) ++ sends os) (waits s)
                  (entered s) (passed s ++ conts n K os)))
          else None
      | None => None
      end
  | Leave k =>
      match waits s !! k with
      | Some (n, (nm, b)) =>
          if waiting_done nm b (nodes s n) then Some (
            t ← waitBarrier_leave nm b (nodes s n);
            Ok (MkSys (<[n := t]> (nodes s)) (net s) (take_out k (waits s)) (entered s)
                  (passed s ++ [(n, (nm, b))])))
          else None
      | None => None
      end
  end.

Inductive reach : Sys -> Prop :=
  | reach_init : reach init
  | reach_step s e s' : reach s -> exec1 s e = Some (Ok s') -> reach s'.

Fixpoint exec (s : Sys) (es : list event) : option (res Sys) :=
  match es with
  | [] => Some (Ok s)
  | e :: es => match exec1 s e with Some (Ok s) => exec s es | r => r end
  end.

Lemma barrier_exec_reach s es :
  reach s -> match exec s es with Some (Ok _) => true | _ => false end = true ->
  reach (match exec s es with Some (Ok s') => s' | _ => init end).
Proof.
  revert s. induction es as [|e es IH]; intros s Hs; simpl; [done|].
  destruct (exec1 s e) as [[s1|]|] eqn:Hx; [|done..]. apply IH. by eapply reach_step.
Qed.

(** *** One barrier, as it concerns the nodes *)

Record view := MkView {
  vst : Z -> option BarrierState;
  ve : Z -> Z;      (* entries of a node *)
  vu : Z -> Z;      (* messages of children on their way to it *)
  vd : Z -> Z;      (* releases on their way to it *)
  vw : Z -> Z;      (* waits under way on it *)
  vp : Z -> Z       (* times it has passed *)
}.

Definition nch (i : Z) : Z := Tree.getNumChildren (Tree.makeDefault i N).
Definition cnt (v : view) (i : Z) : Z := match vst v i with Some s => recv_event_count s | None => 0 end.
Definition full (v : view) (i : Z) : Prop := cnt v i = nch i + 1.
#[export] Instance full_dec v i : Decision (full v i).
Proof. unfold full. apply _. Defined.
Definition kids (v : view) (i : Z) : Z :=
  zsum N (fun c => b2z (bool_decide ((0 < c /\ Tree.parentOf c = i) /\ full v c))).

(** Entries are being gathered. *)
Record gathering (w : bool) (v : view) : Prop := {
  ga_count i : 0 <= i < N -> cnt v i + vu v i = ve v i + kids v i;
  ga_once i : 0 <= i < N -> 0 <= ve v i <= 1 /\ 0 <= vu v i /\ vd v i = 0 /\ vp v i = 0 /\ vw v i = b2z w * ve v i;
  ga_state i s : 0 <= i < N -> vst v i = Some s -> released s = false;
  ga_action i : 0 <= i < N -> w = false -> ve v i = 1 -> exists s, vst v i = Some s /\ is_Some (cont_action s);
  ga_root : ~ full v 0
}.

(** Everyone has entered, and the release is under way or has arrived. *)
Inductive stage (w : bool) (v : view) (i : Z) : Prop :=
  | st_coming s : vd v i = 1 -> vp v i = 0 -> vw v i = b2z w -> vst v i = Some s ->
      released s = false -> (w = false -> is_Some (cont_action s)) -> full v i -> stage w v i
  | st_released s : vd v i = 0 -> vp v i = 0 -> vw v i = 1 -> w = true -> vst v i = Some s ->
      released s = true -> stage w v i
  | st_passed : vd v i = 0 -> vp v i = 1 -> vw v i = 0 ->
      (w = false -> full v i /\ exists s, vst v i = Some s) -> stage w v i.

Record releasing (w : bool) (v : view) : Prop := {
  re_all i : 0 <= i < N -> ve v i = 1 /\ vu v i = 0;
  re_stage i : 0 <= i < N -> stage w v i
}.

Definition view_ok (w : bool) (v : view) : Prop := gathering w v \/ releasing w v.

Lemma kids_le v i : 0 <= i -> kids v i <= nch i.
Proof.
  intros Hi. unfold nch. rewrite Tree.numChildren_length, Tree.numChildren_sum by done.
  apply zsum_le. intros c _. repeat case_bool_decide; simpl; try lia; naive_solver.
Qed.

Lemma kids_all v i c :
  0 <= i -> kids v i = nch i -> 0 < c < N -> Tree.parentOf c = i -> full v c.
Proof.
  intros Hi Hk Hc Hp. unfold nch in Hk. rewrite Tree.numChildren_length, Tree.numChildren_sum in Hk by done.
  unfold kids in Hk. pose proof (zsum_le_eq N _ _ (fun c _ =>
    (ltac:(repeat case_bool_decide; simpl; try lia; naive_solver) :
      b2z (bool_decide ((0 < c /\ Tree.parentOf c = i) /\ full v c)) <=
      b2z (bool_decide (0 < c /\ Tree.parentOf c = i))))) as He.
  specialize (He ltac:(lia) c ltac:(lia)). cbv beta in He.
  rewrite (bool_decide_true (0 < c /\ _)) in He by (split; [lia|done]).
  case_bool_decide; [tauto|done].
Qed.

(** A full root has gathered everyone. *)
Lemma full_root v :
  (forall i, 0 <= i < N -> cnt v i + vu v i = ve v i + kids v i) ->
  (forall i, 0 <= i < N -> ve v i <= 1 /\ 0 <= vu v i) -> full v 0 ->
  forall i, 0 <= i < N -> full v i /\ ve v i = 1 /\ vu v i = 0.
Proof.
  intros Hc Ho H0. assert (forall i, 0 <= i < N -> full v i -> ve v i = 1 /\ vu v i = 0 /\ kids v i = nch i) as Hf.
  { intros i Hi Hf. specialize (Hc i Hi). destruct (Ho i Hi). pose proof (kids_le v i ltac:(lia)).
    unfold full in Hf. lia. }
  assert (forall i, 0 <= i < N -> full v i) as Hall; [|intros i Hi; split; [by apply Hall|]; naive_solver].
  intros i. induction (Z.lt_wf 0 i) as [i _ IH]. intros Hi.
  destruct (decide (i = 0)) as [->|Hne]; [done|].
  pose proof (Tree.parentOf_bounds i ltac:(lia)).
  assert (0 <= Tree.parentOf i < N) as Hp by lia. destruct (Hf _ Hp) as (_ & _ & Hk); [apply IH; lia|].
  apply (kids_all v (Tree.parentOf i)); lia || done.
Qed.

(** One event counted on node [i]: an entry ([de]) or a child's message ([du]). *)
Record bump (w : bool) (i : Z) (de du : Z) (v v' : view) : Prop := {
  bt_which : (de = 1 /\ du = 0) \/ (de = 0 /\ du = 1 /\ 1 <= vu v i);
  bt_state : exists s', vst v' i = Some s' /\ recv_event_count s' = cnt v i + 1 /\
    released s' = match vst v i with Some s => released s | None => false end /\
    (w = false -> de = 1 \/ (exists s, vst v i = Some s /\ is_Some (cont_action s)) ->
     is_Some (cont_action s'));
  bt_other j : j <> i -> vst v' j = vst v j;
  bt_e j : ve v' j = ve v j + b2z (bool_decide (j = i)) * de;
  bt_u j : vu v' j = vu v j - b2z (bool_decide (j = i)) * du
                     + b2z (bool_decide ((0 < i /\ Tree.parentOf i = j) /\ full v' i));
  bt_d j : 0 <= j < N -> vd v' j = vd v j + b2z (bool_decide (i = 0 /\ full v' i));
  bt_w j : vw v' j = vw v j + b2z (bool_decide (j = i)) * (b2z w * de);
  bt_p j : vp v' j = vp v j
}.

Lemma bump_cnt w i de du v v' j :
  bump w i de du v v' -> cnt v' j = cnt v j + b2z (bool_decide (j = i)).
Proof.
  intros [_ (s' & Hs & Hc & _) Ho _ _ _ _ _]. destruct (decide (j = i)) as [->|Hj].
  - rewrite bool_decide_true by done. unfold cnt at 1. by rewrite Hs.
  - rewrite bool_decide_false by done. unfold cnt. rewrite Ho by done. simpl. lia.
Qed.

Lemma bump_kids w i de du v v' j :
  bump w i de du v v' -> 0 <= i < N -> ~ full v i ->
  kids v' j = kids v j + b2z (bool_decide ((0 < i /\ Tree.parentOf i = j) /\ full v' i)).
Proof.
  intros Hb Hi Hf. unfold kids.
  rewrite (zsum_change N (fun c => b2z (bool_decide ((0 < c /\ Tree.parentOf c = j) /\ full v c))) _ i Hi).
  - rewrite (bool_decide_false (_ /\ full v i)) by tauto. simpl. lia.
  - intros c _ Hc. apply f_equal, bool_decide_ext. unfold full.
    rewrite (bump_cnt _ _ _ _ _ _ c Hb), bool_decide_false by done. by rewrite Z.add_0_r.
Qed.

Lemma bump_ok w i de du v v' :
  gathering w v -> bump w i de du v v' -> 0 <= i < N -> (forall j, ve v' j <= 1) -> view_ok w v'.
Proof.
  intros [G1 G2 G3 G4 G5] Hb Hi Hone. pose proof Hb as [B1 (s' & S1 & S2 & S3 & S4) B3 B4 B5 B6 B7 B8].
  assert (~ full v i) as Hnf.
  { pose proof (G1 i Hi). pose proof (kids_le v i ltac:(lia)). pose proof (Hone i). pose proof (B4 i) as E.
    rewrite bool_decide_true in E by done. simpl in E. unfold full. destruct (G2 i Hi). lia. }
  assert (forall j, 0 <= j < N -> cnt v' j + vu v' j = ve v' j + kids v' j) as Hcount.
  { intros j Hj. rewrite (bump_cnt _ _ _ _ _ _ j Hb), (bump_kids _ _ _ _ _ _ j Hb Hi Hnf), B4, B5.
    specialize (G1 j Hj). destruct (bool_decide (j = i)); simpl; lia. }
  assert (forall j, 0 <= j < N -> 0 <= ve v' j <= 1 /\ 0 <= vu v' j) as Hr.
  { intros j Hj. destruct (G2 j Hj) as ([? _] & ? & _). split; [split; [|apply Hone]|].
    - rewrite B4. pose proof (b2z_range (bool_decide (j = i))). nia.
    - rewrite B5. pose proof (b2z_range (bool_decide ((0 < i /\ Tree.parentOf i = j) /\ full v' i))).
      destruct (decide (j = i)) as [->|Hji];
        [rewrite (bool_decide_true (i = i)) by done; change (b2z true) with 1; destruct B1; lia
        |rewrite (bool_decide_false (j = i)) by done; change (b2z false) with 0; lia]. }
  assert (forall j s, 0 <= j < N -> vst v' j = Some s -> released s = false) as Hrel.
  { intros j s Hj Hs. destruct (decide (j = i)) as [->|Hji].
    - rewrite S1 in Hs. injection Hs as <-. rewrite S3. destruct (vst v i) eqn:E; [|done]. by apply (G3 i).
    - rewrite B3 in Hs by done. by apply (G3 j). }
  assert (forall j, 0 <= j < N -> w = false -> ve v' j = 1 -> exists s, vst v' j = Some s /\ is_Some (cont_action s)) as Hact.
  { intros j Hj Hw He. rewrite B4 in He. destruct (decide (j = i)) as [->|Hji].
    - exists s'. split; [done|]. apply S4; [done|]. rewrite bool_decide_true in He by done. simpl in He.
      destruct B1 as [[-> _]|(-> & _)]; [by left|]. right. apply G4; [done|done|lia].
    - rewrite bool_decide_false in He by done. simpl in He. rewrite B3 by done. apply G4; [done|done|lia]. }
  assert (forall j, 0 <= j < N -> vw v' j = b2z w * ve v' j /\ vp v' j = 0) as Hwp.
  { intros j Hj. destruct (G2 j Hj) as (_ & _ & _ & Hp & Hw). rewrite B7, B8, B4, Hw, Hp. split; [ring|done]. }
  destruct (decide (i = 0 /\ full v' i)) as [[-> Hf]|Hnr].
  - right. pose proof (full_root v' Hcount ltac:(intros j Hj; destruct (Hr j Hj); lia) Hf) as Hall.
    split; [intros j Hj; by destruct (Hall j Hj) as (_ & ? & ?)|]. intros j Hj.
    destruct (Hall j Hj) as (Hfj & He & _). destruct (Hwp j Hj) as [Hw Hp].
    assert (exists s, vst v' j = Some s) as [s Hs].
    { destruct (vst v' j) as [s|] eqn:E; [by exists s|]. exfalso. unfold full, cnt in Hfj. rewrite E in Hfj.
      unfold nch, Tree.getNumChildren in Hfj. lia. }
    apply (st_coming _ _ _ s); [|done|lia|done|by apply (Hrel j)| |done].
    + destruct (G2 j Hj) as (_ & _ & Hd & _). rewrite B6, Hd, bool_decide_true by done. done.
    + intros Hw'. destruct (Hact j Hj Hw' He) as (s1 & Hs1 & Ha). rewrite Hs in Hs1. by injection Hs1 as <-.
  - left. split; [done| |done|done|].
    + intros j Hj. destruct (Hr j Hj), (Hwp j Hj). split_and!; try done; try lia.
      destruct (G2 j Hj) as (_ & _ & Hd & _). rewrite B6, Hd, bool_decide_false by done. done.
    + intros H0. destruct (decide (i = 0)) as [->|Hi0]; [tauto|]. apply G5. unfold full in *.
      rewrite (bump_cnt _ _ _ _ _ _ 0 Hb), bool_decide_false in H0 by auto. simpl in H0. lia.
Qed.

(** *** The view of a system *)

Definition key (m : BarrierMsg) : Key := (m_named m, m_barrier m).
Definition is_up (K : Key) (i : Z) (p : Z * msg) : bool :=
  match p.2 with Up m => bool_decide (p.1 = i /\ key m = K) | Down _ => false end.
Definition is_down (K : Key) (i : Z) (p : Z * msg) : bool :=
  match p.2 with Down m => bool_decide (p.1 = i /\ key m = K) | Up _ => false end.
Definition ups (K : Key) (i : Z) (l : list (Z * msg)) : Z := lsum (fun p => b2z (is_up K i p)) l.
Definition downs (K : Key) (i : Z) (l : list (Z * msg)) : Z := lsum (fun p => b2z (is_down K i p)) l.
Definition entries (K : Key) (i : Z) (l : list (Z * (Key * bool))) : Z :=
  lsum (fun p => b2z (bool_decide (p.1 = i /\ p.2.1 = K))) l.
Definition at_ (K : Key) (i : Z) (l : list (Z * Key)) : Z := lsum (fun p => b2z (bool_decide (p = (i, K)))) l.

Definition view_of (K : Key) (s : Sys) : view :=
  MkView (fun i => state_of K (nodes s i)) (fun i => entries K i (entered s)) (fun i => ups K i (net s))
    (fun i => downs K i (net s)) (fun i => at_ K i (waits s)) (fun i => at_ K i (passed s)).

(** Every node enters the barrier at most once, all in the same way. *)
Definition once (K : Key) (w : bool) (s : Sys) : Prop :=
  (forall i w', (i, (K, w')) ∈ entered s -> w' = w) /\ forall i, entries K i (entered s) <= 1.

Record sys_ok (K : Key) (w : bool) (s : Sys) : Prop := {
  sy_view : view_ok w (view_of K s);
  sy_tree i : tree (nodes s i) = Tree.makeDefault i N;
  sy_waits i K' : (i, K') ∈ waits s -> 0 <= i < N;
  sy_kind d m : (d, Up m) ∈ net s \/ (d, Down m) ∈ net s -> key m = K -> m_wait m = w
}.

Lemma stage_ext w v v' i :
  vst v' i = vst v i -> vd v' i = vd v i -> vw v' i = vw v i -> vp v' i = vp v i -> stage w v i -> stage w v' i.
Proof.
  intros E1 E4 E5 E6 Hs. assert (full v i -> full v' i) as Hf by (unfold full, cnt; by rewrite E1).
  destruct Hs as [s A B C D E F G|s A B C D E F|A B C G].
  - apply (st_coming _ _ _ s); rewrite ?E1, ?E4, ?E5, ?E6; auto.
  - apply (st_released _ _ _ s); rewrite ?E1, ?E4, ?E5, ?E6; done.
  - apply st_passed; rewrite ?E1, ?E4, ?E5, ?E6; auto. naive_solver.
Qed.

Lemma view_ok_ext w v v' :
  (forall i, vst v' i = vst v i) -> (forall i, ve v' i = ve v i) -> (forall i, vu v' i = vu v i) ->
  (forall i, 0 <= i < N -> vd v' i = vd v i) -> (forall i, vw v' i = vw v i) ->
  (forall i, vp v' i = vp v i) -> view_ok w v -> view_ok w v'.
Proof.
  intros E1 E2 E3 E4 E5 E6.
  assert (forall i, cnt v' i = cnt v i) as Ec by (intros i; unfold cnt; by rewrite E1).
  assert (forall i, kids v' i = kids v i) as Ek.
  { intros i. apply zsum_ext. intros c _. apply f_equal, bool_decide_ext. unfold full. by rewrite Ec. }
  intros [[G1 G2 G3 G4 G5]|[R1 R2]]; [left|right]; split.
  - intros i Hi. rewrite Ec, E3, E2, Ek. auto.
  - intros i Hi. rewrite E2, E3, E4, E5, E6 by done. auto.
  - intros i s Hi. rewrite E1. by apply G3.
  - intros i Hi Hw. rewrite E1, E2. by apply G4.
  - unfold full. by rewrite Ec.
  - intros i Hi. rewrite E2, E3. auto.
  - intros i Hi. apply (stage_ext w v); auto.
Qed.

(** The messages sent when an event is counted. *)
Lemma sends_bumped K K' w sk i t t' os st j :
  bumped K' w sk t t' os st -> tree t = Tree.makeDefault i N -> 0 <= i < N ->
  let f := recv_event_count st + 1 = nch i + 1 in
  ups K j (sends os) = b2z (bool_decide (K' = K /\ (0 < i /\ Tree.parentOf i = j) /\ f)) /\
  (0 <= j < N -> downs K j (sends os) = b2z (bool_decide (K' = K /\ i = 0 /\ f))) /\
  (forall d m, (d, Up m) ∈ sends os \/ (d, Down m) ∈ sends os -> key m = K' /\ m_wait m = w) /\
  conts i K' os = [].
Proof.
  intros [_ _ _ ->] Ht Hi f. rewrite Ht. fold (nch i).
  destruct (Z.eqb_spec (recv_event_count st + 1) (nch i + 1)) as [Hf|Hf].
  2:{ rewrite !bool_decide_false by (unfold f; tauto). split_and!; try done. intros d m [?%not_elem_nil|?%not_elem_nil]; done. }
  assert (Tree.isRoot (Tree.makeDefault i N) = (i =? 0)) as ->.
  { unfold Tree.makeDefault, Tree.setupTree, Tree.isRoot. done. }
  destruct (Z.eqb_spec i 0) as [->|Hne].
  - cbn [sends flat_map conts]. rewrite app_nil_r.
    assert (forall l, ups K j (map (fun d => (d, Down (makeMsg K'.1 K'.2 w))) l) = 0) as Hu.
    { intros l. unfold ups. induction l; [done|]. cbn [map]. rewrite lsum_cons, IHl. done. }
    rewrite Hu, bool_decide_false by lia. split; [done|]. split; [|split; [|done]].
    + intros Hj. unfold downs. transitivity (lsum (fun d => b2z (bool_decide (d = j /\ K' = K))) (nodes_of N)).
      { induction (nodes_of N) as [|d l IH]; [done|]. cbn [map]. rewrite !lsum_cons, IH. f_equal.
        unfold is_down, key, makeMsg. simpl. by destruct K'. }
      fold (zsum N (fun d => b2z (bool_decide (d = j /\ K' = K)))).
      rewrite (zsum_change N (fun _ => 0) (fun d => b2z (bool_decide (d = j /\ K' = K))) j Hj).
      * rewrite zsum_0 by done.
        rewrite (bool_decide_ext (j = j /\ K' = K) (K' = K /\ 0 = 0 /\ f)) by (unfold f; tauto). lia.
      * intros d _ Hd. by rewrite bool_decide_false by tauto.
    + intros d m [Hin|Hin]; apply list_elem_of_fmap in Hin as (x & [= -> ->] & _); by destruct K'.
  - cbn [sends flat_map conts]. rewrite app_nil_r.
    assert (Tree.getParent (Tree.makeDefault i N) = Tree.parentOf i) as -> by (apply Tree.makeDefault_parent; lia).
    split; [|split; [|split; [|done]]].
    + unfold ups. rewrite lsum_cons, lsum_nil, Z.add_0_r. unfold is_up, key, makeMsg. simpl.
      f_equal. apply bool_decide_ext. unfold f. destruct K'. simpl. intuition lia.
    + intros _. rewrite bool_decide_false by tauto. done.
    + intros d m [Hin|Hin]; apply list_elem_of_singleton in Hin; simplify_eq; by destruct K'.
Qed.

Lemma entries_app K i l p :
  entries K i (l ++ [p]) = entries K i l + b2z (bool_decide (p.1 = i /\ p.2.1 = K)).
Proof. unfold entries. by rewrite lsum_app, lsum_cons, lsum_nil, Z.add_0_r. Qed.
Lemma at_app K i l p : at_ K i (l ++ [p]) = at_ K i l + b2z (bool_decide (p = (i, K))).
Proof. unfold at_. by rewrite lsum_app, lsum_cons, lsum_nil, Z.add_0_r. Qed.

(** The state an event is counted in. *)
Record counts_in (K : Key) (w : bool) (de : Z) (t : Barrier) (st : BarrierState) : Prop := {
  ci_count : recv_event_count st = match state_of K t with Some s => recv_event_count s | None => 0 end;
  ci_released : released st = match state_of K t with Some s => released s | None => false end;
  ci_action : w = false -> de = 1 \/ (exists s, state_of K t = Some s /\ is_Some (cont_action s)) ->
    is_Some (cont_action st)
}.

Lemma sys_bumped K w s K' w' sk i t' os st de du l wts ent :
  sys_ok K w s -> 0 <= i < N -> bumped K' w' sk (nodes s i) t' os st -> (K' = K -> w' = w) ->
  (K' = K -> counts_in K w de (nodes s i) st) ->
  (K' = K -> (de = 1 /\ du = 0) \/ (de = 0 /\ du = 1 /\ 1 <= ups K i (net s))) ->
  (forall p, p ∈ l -> p ∈ net s) ->
  (forall j, ups K j l = ups K j (net s) - b2z (bool_decide (j = i /\ K' = K)) * du) ->
  (forall j, downs K j l = downs K j (net s)) ->
  (forall j, entries K j ent = entries K j (entered s) + b2z (bool_decide (j = i /\ K' = K)) * de) ->
  (forall j, at_ K j wts = at_ K j (waits s) + b2z (bool_decide (j = i /\ K' = K)) * (b2z w * de)) ->
  (forall j, entries K j ent <= 1) -> (forall j K1, (j, K1) ∈ wts -> 0 <= j < N) ->
  sys_ok K w (MkSys (<[i := t']> (nodes s)) (l ++ sends os) wts ent (passed s)).
Proof.
  intros [V T Hw Hk] Hi Hb Hww Hst Hwhich Hl Hu Hd He Ha Hone Hwaits.
  destruct (sends_bumped K K' w' sk i _ t' os st 0 Hb (T i) Hi) as (_ & _ & Hkind & _).
  assert (forall j, ups K j (l ++ sends os) = ups K j (net s) - b2z (bool_decide (j = i /\ K' = K)) * du +
            b2z (bool_decide (K' = K /\ (0 < i /\ Tree.parentOf i = j) /\ recv_event_count st + 1 = nch i + 1))) as Hups.
  { intros j. unfold ups at 1. rewrite lsum_app. fold (ups K j l) (ups K j (sends os)). rewrite Hu.
    destruct (sends_bumped K K' w' sk i _ t' os st j Hb (T i) Hi) as (-> & _). done. }
  assert (forall j, 0 <= j < N -> downs K j (l ++ sends os) = downs K j (net s) +
            b2z (bool_decide (K' = K /\ i = 0 /\ recv_event_count st + 1 = nch i + 1))) as Hdowns.
  { intros j Hj. unfold downs at 1. rewrite lsum_app. fold (downs K j l) (downs K j (sends os)). rewrite Hd.
    destruct (sends_bumped K K' w' sk i _ t' os st j Hb (T i) Hi) as (_ & -> & _); done. }
  set (s' := MkSys _ _ _ _ _).
  assert (nodes s' i = t') as Hni by apply fn_lookup_insert.
  assert (forall j, j <> i -> nodes s' j = nodes s j) as Hnj by (intros j Hj; apply fn_lookup_insert_ne; congruence).
  split.
  - destruct (decide (K' = K)) as [->|HK].
    + destruct (Hst eq_refl) as [C1 C2 C3]. specialize (Hwhich eq_refl).
      assert (cnt (view_of K s') i = recv_event_count st + 1) as Hcnt.
      { unfold cnt, view_of. cbn [vst]. by rewrite Hni, (bu_state _ _ _ _ _ _ _ Hb). }
      assert (full (view_of K s') i <-> recv_event_count st + 1 = nch i + 1) as Hfull
        by (unfold full; by rewrite Hcnt).
      assert (bump w i de du (view_of K s) (view_of K s')) as Hbump.
      { split; cbn [vst ve vu vd vw vp view_of]; try done.
        - rewrite Hni, (bu_state _ _ _ _ _ _ _ Hb). eexists. split; [done|]. simpl. rewrite C1, C2. auto.
        - intros j Hj. by rewrite Hnj.
        - intros j. cbn [entered s']. rewrite He. do 3 f_equal. apply bool_decide_ext. tauto.
        - intros j. cbn [net s']. rewrite Hups.
          rewrite (bool_decide_ext (j = i /\ K = K) (j = i)) by tauto. do 2 f_equal. apply bool_decide_ext. tauto.
        - intros j Hj. cbn [net s']. rewrite Hdowns by done. do 2 f_equal.
          apply bool_decide_ext. tauto.
        - intros j. cbn [waits s']. rewrite Ha. do 3 f_equal. apply bool_decide_ext. tauto. }
      destruct V as [G|[R _]]; [by apply (bump_ok w i de du (view_of K s))|].
      destruct (R i Hi) as [E1 E2]. cbn [ve vu view_of] in E1, E2. specialize (He i). specialize (Hone i).
      rewrite bool_decide_true in He by done. simpl in He. lia.
    + apply (view_ok_ext w (view_of K s)); cbn [vst ve vu vd vw vp view_of]; [..|done|exact V].
      * intros j. destruct (decide (j = i)) as [->|Hj]; [|by rewrite Hnj].
        rewrite Hni. apply (bu_other _ _ _ _ _ _ _ Hb). congruence.
      * intros j. cbn [entered s']. rewrite He, bool_decide_false by tauto. simpl. lia.
      * intros j. cbn [net s']. rewrite Hups, !bool_decide_false by tauto. simpl. lia.
      * intros j Hj. cbn [net s']. rewrite Hdowns, bool_decide_false by (done || tauto). simpl. lia.
      * intros j. cbn [waits s']. rewrite Ha, bool_decide_false by tauto. simpl. lia.
  - intros j. cbn [nodes s']. destruct (decide (j = i)) as [->|Hj].
    + rewrite fn_lookup_insert, (bu_tree _ _ _ _ _ _ _ Hb). apply T.
    + by rewrite fn_lookup_insert_ne by congruence.
  - exact Hwaits.
  - cbn [net s']. intros d m Hin Hkm. rewrite !elem_of_app in Hin.
    assert ((d, Up m) ∈ sends os \/ (d, Down m) ∈ sends os \/ ((d, Up m) ∈ net s \/ (d, Down m) ∈ net s))
      as [Hs|[Hs|Hs]] by (destruct Hin as [[?|?]|[?|?]]; auto).
    + destruct (Hkind d m) as [E1 E2]; [auto|]. rewrite E2. apply Hww. congruence.
    + destruct (Hkind d m) as [E1 E2]; [auto|]. rewrite E2. apply Hww. congruence.
    + by apply (Hk d m).
Qed.

Lemma ups_take K j k l p : l !! k = Some p -> ups K j (take_out k l) = ups K j l - b2z (is_up K j p).
Proof. intros Hk. unfold ups. rewrite (lsum_pick _ _ _ _ Hk). unfold take_out. lia. Qed.
Lemma downs_take K j k l p : l !! k = Some p -> downs K j (take_out k l) = downs K j l - b2z (is_down K j p).
Proof. intros Hk. unfold downs. rewrite (lsum_pick _ _ _ _ Hk). unfold take_out. lia. Qed.
Lemma at_take K j k l p : l !! k = Some p -> at_ K j (take_out k l) = at_ K j l - b2z (bool_decide (p = (j, K))).
Proof. intros Hk. unfold at_. rewrite (lsum_pick _ _ _ _ Hk). unfold take_out. lia. Qed.
Lemma ups_in K j k l p : l !! k = Some p -> b2z (is_up K j p) <= ups K j l.
Proof.
  intros Hk. unfold ups. rewrite (lsum_pick _ _ _ _ Hk).
  pose proof (lsum_nonneg (fun p => b2z (is_up K j p)) (take k l ++ drop (S k) l) (fun p _ => proj1 (b2z_range _))). lia.
Qed.
Lemma downs_in K j k l p : l !! k = Some p -> b2z (is_down K j p) <= downs K j l.
Proof.
  intros Hk. unfold downs. rewrite (lsum_pick _ _ _ _ Hk).
  pose proof (lsum_nonneg (fun p => b2z (is_down K j p)) (take k l ++ drop (S k) l) (fun p _ => proj1 (b2z_range _))). lia.
Qed.
Lemma at_in K j k l p : l !! k = Some p -> b2z (bool_decide (p = (j, K))) <= at_ K j l.
Proof.
  intros Hk. unfold at_. rewrite (lsum_pick _ _ _ _ Hk).
  pose proof (lsum_nonneg (fun p => b2z (bool_decide (p = (j, K)))) (take k l ++ drop (S k) l) (fun p _ => proj1 (b2z_range _))). lia.
Qed.
Lemma taken {A} k (l : list A) x p : l !! k = Some p -> x ∈ take_out k l -> x ∈ l.
Proof. intros Hk Hx. apply (elem_of_pick _ _ _ x Hk). by right. Qed.

(** The release arrives. *)
Lemma sys_down K w s k n m t' os :
  sys_ok K w s -> net s !! k = Some (n, Down m) -> 0 <= n < N ->
  barrierDownHandler m (nodes s n) = Ok (t', os) ->
  sys_ok K w (MkSys (<[n := t']> (nodes s)) (take_out k (net s)) (waits s) (entered s)
    (passed s ++ conts n (key m) os)).
Proof.
  intros [V T Hw Hk] Hnet Hn Hd.
  destruct (barrierDown_ok (key m) (m_wait m) (nodes s n)) as (t1 & E & Hother & Hstate & Htree).
  unfold barrierDownHandler in Hd. change (m_named m) with (key m).1 in Hd. change (m_barrier m) with (key m).2 in Hd.
  rewrite E in Hd. injection Hd as -> Hos. set (s' := MkSys _ _ _ _ _).
  assert (nodes s' n = t') as Hni by apply fn_lookup_insert.
  assert (forall j, j <> n -> nodes s' j = nodes s j) as Hnj by (intros j Hj; apply fn_lookup_insert_ne; congruence).
  assert (forall j, at_ K j (passed s') = at_ K j (passed s) +
    b2z (bool_decide (j = n /\ key m = K)) * lsum (fun o => match o with RunCont _ => 1 | _ => 0 end) os) as Hpass.
  { intros j. cbn [passed s']. unfold at_. rewrite lsum_app. f_equal. clear.
    induction os as [|o os IH]; [simpl; lia|]. rewrite lsum_cons. unfold conts in *. cbn [flat_map].
    rewrite lsum_app, IH. destruct o; rewrite ?lsum_cons, ?lsum_nil; try lia.
    rewrite (bool_decide_ext ((n, key m) = (j, K)) (j = n /\ key m = K)) by naive_solver. lia. }
  split.
  - destruct (decide (key m = K)) as [HK|HK].
    + assert (is_down K n (n, Down m) = true) as Hid by (unfold is_down; simpl; by rewrite bool_decide_true).
      pose proof (downs_in K n k _ _ Hnet) as Hge. rewrite Hid in Hge. simpl in Hge.
      destruct V as [[_ G _ _ _]|[R1 R2]].
      { destruct (G n Hn) as (_ & _ & Hz & _). cbn [vd view_of] in Hz. lia. }
      right. split.
      { intros j Hj. destruct (R1 j Hj) as [E1 E2]. split; [done|]. cbn [vu view_of net s'] in *.
        rewrite (ups_take K j k _ _ Hnet). simpl. lia. }
      intros j Hj. destruct (decide (j = n)) as [->|Hjn].
      * specialize (Hpass n). rewrite bool_decide_true in Hpass by done.
        pose proof (downs_take K n k _ _ Hnet) as Htk. rewrite Hid in Htk. simpl in Htk.
        destruct (R2 n Hn) as [st A B C D F G Hfull|st A _ _ _ _ _|A _ _ _];
          cbn [vd vp vw vst view_of] in *; [|lia|lia].
        rewrite HK, D in Hstate. simpl in Hstate. rewrite HK, D in Hos.
        change (default ?x (Some st)) with st in Hos.
        assert (m_wait m = w) as Hmw by (apply (Hk n); [right; by apply (list_elem_of_lookup_2 _ k)|done]).
        rewrite Hmw in Hos. destruct w; simpl in Hpass, C.
        -- apply (st_released _ _ _ (with_released true st)); cbn [vd vp vw vst view_of net waits s'].
           ++ lia.
           ++ change (at_ K n (passed s ++ conts n (key m) os) = 0). rewrite Hpass, B, <- Hos. by destruct (cont_action st).
           ++ done.
           ++ done.
           ++ by rewrite Hni.
           ++ done.
        -- destruct (G eq_refl) as [a Ha]. apply st_passed; cbn [vd vp vw view_of net waits s'].
           ++ lia.
           ++ change (at_ K n (passed s ++ conts n (key m) os) = 1). rewrite Hpass, B, <- Hos. simpl. by rewrite Ha.
           ++ done.
           ++ intros _. unfold full, cnt. cbn [vst view_of]. fold s'. rewrite Hni, Hstate.
              unfold full, cnt in Hfull. cbn [vst view_of] in Hfull. rewrite D in Hfull. eauto.
      * apply (stage_ext w (view_of K s)); cbn [vst vd vw vp view_of]; [..|by apply R2].
        -- by rewrite Hnj.
        -- cbn [net s']. rewrite (downs_take K j k _ _ Hnet). unfold is_down. simpl.
           rewrite bool_decide_false by naive_solver. simpl. lia.
        -- done.
        -- rewrite Hpass, bool_decide_false by tauto. simpl. lia.
    + apply (view_ok_ext w (view_of K s)); cbn [vst ve vu vd vw vp view_of]; [..|exact V].
      * intros j. destruct (decide (j = n)) as [->|Hj]; [|by rewrite Hnj]. rewrite Hni. apply Hother. congruence.
      * done.
      * intros j. cbn [net s']. rewrite (ups_take K j k _ _ Hnet). simpl. lia.
      * intros j _. cbn [net s']. rewrite (downs_take K j k _ _ Hnet). unfold is_down. simpl.
        rewrite bool_decide_false by tauto. simpl. lia.
      * done.
      * intros j. rewrite Hpass, bool_decide_false by tauto. simpl. lia.
  - intros j. cbn [nodes s']. destruct (decide (j = n)) as [->|Hj].
    + by rewrite fn_lookup_insert, Htree.
    + by rewrite fn_lookup_insert_ne by congruence.
  - exact Hw.
  - cbn [net s']. intros d m' [Hin|Hin]; apply (taken _ _ _ _ Hnet) in Hin; eauto.
Qed.

(** A wait ends. *)
Lemma sys_leave K w s k n K' t' :
  sys_ok K w s -> waits s !! k = Some (n, K') -> waiting_done K'.1 K'.2 (nodes s n) = true ->
  waitBarrier_leave K'.1 K'.2 (nodes s n) = Ok t' ->
  sys_ok K w (MkSys (<[n := t']> (nodes s)) (net s) (take_out k (waits s)) (entered s)
    (passed s ++ [(n, K')])).
Proof.
  intros [V T Hw Hk] Hwk Hdone Hl. assert (0 <= n < N) as Hn by (apply (Hw n K'), (list_elem_of_lookup_2 _ k _ Hwk)).
  unfold waiting_done in Hdone. unfold waitBarrier_leave, removeBarrier in Hl.
  destruct (states K'.1 (nodes s n) !! K'.2) as [st|] eqn:Hst; [|done]. injection Hl as <-.
  set (t' := with_states K'.1 (delete K'.2 (states K'.1 (nodes s n))) (nodes s n)).
  assert (forall K1, state_of K1 t' = if decide (K' = K1) then None else state_of K1 (nodes s n)) as Hso.
  { intros [n1 b1]. unfold t', state_of. destruct K' as [n2 b2]. simpl. case_decide as E.
    - injection E as -> ->. destruct n1; simpl; by rewrite lookup_delete_eq.
    - destruct n1, n2; simpl; try done; rewrite lookup_delete_ne; naive_solver. }
  assert (tree t' = tree (nodes s n)) as Htree by (unfold t'; by destruct K' as [[] ?]).
  clearbody t'. set (s' := MkSys _ _ _ _ _).
  assert (nodes s' n = t') as Hni by apply fn_lookup_insert.
  assert (forall j, j <> n -> nodes s' j = nodes s j) as Hnj by (intros j Hj; apply fn_lookup_insert_ne; congruence).
  assert (forall j, at_ K j (passed s') = at_ K j (passed s) + b2z (bool_decide ((n, K') = (j, K)))) as Hpass
    by (intros j; apply at_app).
  assert (forall j, at_ K j (waits s') = at_ K j (waits s) - b2z (bool_decide ((n, K') = (j, K)))) as Hwaits
    by (intros j; apply (at_take K j k _ _ Hwk)).
  pose proof (at_in K n k _ _ Hwk) as Hge.
  split.
  - destruct (decide (K' = K)) as [->|HK].
    + rewrite bool_decide_true in Hge by done. change (b2z true) with 1 in Hge.
      destruct V as [[_ _ G _ _]|[R1 R2]].
      { specialize (G n st Hn Hst). congruence. }
      right. split; [exact R1|]. intros j Hj. destruct (decide (j = n)) as [->|Hjn].
      * specialize (Hpass n). specialize (Hwaits n). rewrite bool_decide_true in Hpass, Hwaits by done.
        destruct (R2 n Hn) as [s1 A B C D F G _|s1 A B C D F G|A B C _]; cbn [vd vp vw vst view_of] in *.
        -- unfold state_of in D. rewrite Hst in D. injection D as <-. congruence.
        -- apply st_passed; cbn [vd vp vw view_of].
           ++ exact A.
           ++ rewrite Hpass, B. done.
           ++ rewrite Hwaits, C. done.
           ++ congruence.
        -- lia.
      * apply (stage_ext w (view_of K s)); cbn [vst vd vw vp view_of]; [..|by apply R2].
        -- by rewrite Hnj.
        -- done.
        -- rewrite Hwaits, bool_decide_false by congruence. simpl. lia.
        -- rewrite Hpass, bool_decide_false by congruence. simpl. lia.
    + apply (view_ok_ext w (view_of K s)); cbn [vst ve vu vd vw vp view_of]; [|done|done|done|..|exact V].
      * intros j. destruct (decide (j = n)) as [->|Hj]; [|by rewrite Hnj]. rewrite Hni, Hso. by rewrite decide_False.
      * intros j. rewrite Hwaits, bool_decide_false by congruence. simpl. lia.
      * intros j. rewrite Hpass, bool_decide_false by congruence. simpl. lia.
  - intros j. cbn [nodes s']. destruct (decide (j = n)) as [->|Hj].
    + by rewrite fn_lookup_insert, Htree.
    + by rewrite fn_lookup_insert_ne by congruence.
  - intros j K1 Hin. apply (Hw j K1). exact (taken _ _ _ _ Hwk Hin).
  - exact Hk.
Qed.

Lemma exec1_entered s e s' :
  exec1 s e = Some (Ok s') -> exists l, entered s' = entered s ++ l.
Proof.
  destruct e as [n nd sk|n fn nd sk|k|k]; simpl; intros He.
  - case_bool_decide; [|done]. injection He as ([[[nm b] t] os] & _ & [= <-])%bind_Ok_inv. by eexists.
  - case_bool_decide; [|done]. injection He as ([[[nm b] t] os] & _ & [= <-])%bind_Ok_inv. by eexists.
  - destruct (net s !! k) as [[n m]|]; [|done]. case_bool_decide; [|done].
    injection He as ([t os] & _ & [= <-])%bind_Ok_inv. exists []. by rewrite app_nil_r.
  - destruct (waits s !! k) as [[n [nm b]]|]; [|done]. case_match; [|done].
    injection He as (t & _ & [= <-])%bind_Ok_inv. exists []. by rewrite app_nil_r.
Qed.

Lemma once_before K w s e s' : exec1 s e = Some (Ok s') -> once K w s' -> once K w s.
Proof.
  intros He [O1 O2]. destruct (exec1_entered s e s' He) as [l Hl]. rewrite Hl in *. split.
  - intros i w' Hin. apply (O1 i). apply elem_of_app. by left.
  - intros i. specialize (O2 i). unfold entries in *. rewrite lsum_app in O2.
    pose proof (lsum_nonneg (fun p : Z * (Key * bool) => b2z (bool_decide (p.1 = i /\ p.2.1 = K))) l
      (fun p _ => proj1 (b2z_range _))). lia.
Qed.

Lemma counts_in_default K w de t w' :
  (w = false -> de <> 1) -> counts_in K w de t (default (makeState K.1 K.2 w') (state_of K t)).
Proof.
  intros Hw. destruct (state_of K t) as [s|] eqn:E; split; rewrite ?E; simpl; try done.
  - intros -> [?|(s1 & [= <-] & ?)]; [by destruct Hw|done].
  - intros -> [?|(s1 & ? & ?)]; [by destruct Hw|done].
Qed.

Lemma counts_in_action K w t a w' :
  counts_in K w 1 t (with_action (Some a) (default (makeState K.1 K.2 w') (state_of K t))).
Proof. destruct (state_of K t) as [s|] eqn:E; split; rewrite ?E; simpl; done. Qed.

Lemma sys_enter K w s n K' w' sk t' os st :
  sys_ok K w s -> 0 <= n < N -> bumped K' w' sk (nodes s n) t' os st ->
  (K' = K -> w' = w -> counts_in K w 1 (nodes s n) st) ->
  let s' := MkSys (<[n := t']> (nodes s)) (net s ++ sends os)
    (waits s ++ (if w' then [(n, K')] else [])) (entered s ++ [(n, (K', w'))]) (passed s) in
  once K w s' -> sys_ok K w s'.
Proof.
  intros Hs Hn Hb Hst s' [O1 O2].
  assert (K' = K -> w' = w) as Hww by (intros ->; apply (O1 n); apply elem_of_app; right; by left).
  apply (sys_bumped K w s K' w' sk n t' os st 1 0); auto.
  - intros j. lia.
  - intros j. rewrite entries_app. cbn [fst snd].
    rewrite (bool_decide_ext (n = j /\ K' = K) (j = n /\ K' = K)) by naive_solver. lia.
  - intros j. destruct w'.
    + rewrite at_app. rewrite (bool_decide_ext ((n, K') = (j, K)) (j = n /\ K' = K)) by naive_solver.
      case_bool_decide as E; simpl; [|lia]. rewrite <- Hww by tauto. simpl. lia.
    + rewrite app_nil_r. case_bool_decide as E; simpl; [|lia]. rewrite <- Hww by tauto. simpl. lia.
  - intros j K1. rewrite elem_of_app. intros [Hin|Hin]; [by apply (sy_waits _ _ _ Hs j K1)|].
    destruct w'; [|by apply not_elem_nil in Hin]. apply list_elem_of_singleton in Hin. by injection Hin as -> _.
Qed.

Lemma barrier_event_ok K w s e s' : sys_ok K w s -> exec1 s e = Some (Ok s') -> once K w s' -> sys_ok K w s'.
Proof.
  intros Hs He Ho. destruct e as [n nd sk|n fn nd sk|k|k]; simpl in He.
  - case_bool_decide as Hn; [|done]. destruct (waitBarrier_bumped nd sk (nodes s n)) as (K' & t' & os & E & Hb).
    rewrite E in He. injection He as <-. destruct K' as [nm b]. apply (sys_enter K w s n (nm, b) true sk t' os _ Hs Hn Hb); [|exact Ho].
    intros -> <-. by apply counts_in_default.
  - case_bool_decide as Hn; [|done]. destruct (contBarrier_bumped fn nd sk (nodes s n)) as (K' & t' & os & E & Hb).
    rewrite E in He. injection He as <-. destruct K' as [nm b].
    pose proof (sys_enter K w s n (nm, b) false sk t' os _ Hs Hn Hb) as Hok. cbn [fst snd] in *. rewrite app_nil_r in Hok.
    apply Hok; [|exact Ho]. intros <- <-. exact (counts_in_action (nm, b) false _ fn false).
  - destruct (net s !! k) as [[n [m|m]]|] eqn:Hk; [..|done]; (case_bool_decide as Hn; [|done]).
    + destruct (barrierUp_bumped (key m) (m_wait m) (m_skip_term m) (nodes s n)) as (t' & os & E & Hb).
      unfold barrierUpHandler in He. change (m_named m) with (key m).1 in He.
      change (m_barrier m) with (key m).2 in He. rewrite E in He. injection He as <-.
      assert (conts n (key m) os = []) as Hc.
      { destruct (sends_bumped K (key m) _ _ n _ t' os _ 0 Hb (sy_tree _ _ _ Hs n) Hn) as (_ & _ & _ & Hc). exact Hc. }
      change (conts n _ os) with (conts n (key m) os). rewrite Hc, app_nil_r.
      apply (sys_bumped K w s (key m) (m_wait m) (m_skip_term m) n t' os _ 0 1 _ _ _ Hs Hn Hb).
      * apply (sy_kind _ _ _ Hs n). left. by apply (list_elem_of_lookup_2 _ k).
      * intros <-. by apply counts_in_default.
      * intros HK. right. split; [done|]. split; [done|]. pose proof (ups_in K n k _ _ Hk) as Hge.
        unfold is_up in Hge. simpl in Hge. by rewrite bool_decide_true in Hge.
      * intros p. exact (taken k _ p _ Hk).
      * intros j. rewrite (ups_take K j k _ _ Hk). unfold is_up. simpl.
        rewrite (bool_decide_ext (n = j /\ key m = K) (j = n /\ key m = K)) by naive_solver. lia.
      * intros j. rewrite (downs_take K j k _ _ Hk). simpl. lia.
      * intros j. lia.
      * intros j. lia.
      * apply Ho.
      * apply Hs.
    + destruct (barrierDownHandler m (nodes s n)) as [[t' os]|] eqn:E; [|done]. injection He as <-.
      assert (sends os = []) as Hsn.
      { destruct (barrierDown_ok (key m) (m_wait m) (nodes s n)) as (t1 & E1 & _).
        unfold barrierDownHandler in E. change (m_named m) with (key m).1 in E.
        change (m_barrier m) with (key m).2 in E. rewrite E1 in E. injection E as _ <-.
        destruct (cont_action _); [|done]. by destruct (negb (m_wait m)). }
      cbn [fst snd] in *. rewrite Hsn, app_nil_r. exact (sys_down K w s k n m t' os Hs Hk Hn E).
  - destruct (waits s !! k) as [[n [nm b]]|] eqn:Hk; [|done]. case_match eqn:Hd; [|done].
    destruct (waitBarrier_leave nm b (nodes s n)) as [t'|] eqn:E; [|done]. injection He as <-.
    exact (sys_leave K w s k n (nm, b) t' Hs Hk Hd E).
Qed.

Lemma barrier_reach_ok K w s : reach s -> once K w s -> sys_ok K w s.
Proof.
  induction 1 as [|s e s' Hr IH He]; intros Ho.
  - split; [left|done|by intros i K' ?%not_elem_nil|by intros d m [?%not_elem_nil|?%not_elem_nil]].
    assert (forall i, cnt (view_of K init) i = 0) as Hc.
    { intros i. unfold cnt. simpl. destruct K as [[] b]; unfold state_of; simpl; by rewrite lookup_empty. }
    assert (forall i, 0 <= nch i) as Hn by (intros i; unfold nch, Tree.getNumChildren; lia).
    split.
    + intros i Hi. rewrite Hc. symmetry. apply zsum_0. intros c _.
      rewrite bool_decide_false; [done|]. unfold full. rewrite Hc. specialize (Hn c). lia.
    + intros i Hi. simpl. repeat split; lia.
    + intros i s Hi. simpl. destruct K as [[] b]; unfold state_of; simpl; by rewrite lookup_empty.
    + intros i Hi _ Hv. simpl in Hv. done.
    + unfold full. rewrite Hc. specialize (Hn 0). lia.
  - apply (barrier_event_ok K w s e s'); [|done|done]. apply IH. by eapply once_before.
Qed.

(** When all have entered and nothing is on its way up, the root has counted all. *)
Lemma gathered_full w v :
  gathering w v -> 0 < N -> (forall i, 0 <= i < N -> ve v i = 1 /\ vu v i = 0) -> False.
Proof.
  intros [G1 _ _ _ G5] HN He. apply G5.
  assert (forall d i, (Z.to_nat (N - i) <= d)%nat -> 0 <= i < N -> full v i) as Hf; [|by apply (Hf (Z.to_nat (N - 0)) 0); lia].
  induction d as [|d IH]; intros i Hd Hi; [lia|]. unfold full. specialize (G1 i Hi). destruct (He i Hi) as [E1 E2].
  assert (kids v i = nch i); [|lia]. unfold nch.
  rewrite Tree.numChildren_length, Tree.numChildren_sum by lia. apply zsum_ext. intros c Hc.
  apply f_equal, bool_decide_ext. split; [tauto|]. intros [Hc0 Hp]. split; [done|].
  pose proof (Tree.parentOf_bounds c Hc0). apply IH; lia.
Qed.

(** *** A barrier that is full and stays so *)

Record spent (K : Key) (s : Sys) : Prop := {
  sp_full i : 0 <= i < N -> exists st, state_of K (nodes s i) = Some st /\ nch i + 1 <= recv_event_count st;
  sp_tree i : tree (nodes s i) = Tree.makeDefault i N;
  sp_net d m : (d, Up m) ∈ net s \/ (d, Down m) ∈ net s -> key m <> K;
  sp_waits i : (i, K) ∉ waits s
}.

Lemma spent_set K s i t' l wts ent ps :
  spent K s -> 0 <= i < N -> tree t' = tree (nodes s i) ->
  (exists st st', state_of K (nodes s i) = Some st /\ state_of K t' = Some st' /\
     recv_event_count st <= recv_event_count st') ->
  (forall d m, (d, Up m) ∈ l \/ (d, Down m) ∈ l -> key m <> K) -> (forall j, (j, K) ∉ wts) ->
  spent K (MkSys (<[i := t']> (nodes s)) l wts ent ps).
Proof.
  intros [H1 H2 H3 H4] Hi Ht (st & st' & E1 & E2 & Hle) Hl Hw. split; [..|exact Hl|exact Hw]; intros j; cbn [nodes].
  - intros Hj. destruct (decide (j = i)) as [->|Hji].
    + rewrite fn_lookup_insert. destruct (H1 i Hi) as (st0 & E & Hc). rewrite E1 in E. injection E as <-.
      exists st'. split; [done|lia].
    + rewrite fn_lookup_insert_ne by congruence. auto.
  - destruct (decide (j = i)) as [->|Hji]; [rewrite fn_lookup_insert, Ht|rewrite fn_lookup_insert_ne by congruence]; auto.
Qed.

(** Counting an event on a full barrier sends nothing for it. *)
Lemma spent_bumped K s K' w sk i t' os st l wts ent ps :
  spent K s -> 0 <= i < N -> bumped K' w sk (nodes s i) t' os st ->
  (K' = K -> exists st0, state_of K (nodes s i) = Some st0 /\ recv_event_count st = recv_event_count st0) ->
  (forall p, p ∈ l -> p ∈ net s) -> (forall j, (j, K) ∉ wts) ->
  spent K (MkSys (<[i := t']> (nodes s)) (l ++ sends os) wts ent ps).
Proof.
  intros Hs Hi Hb Hst Hl Hw. destruct (sends_bumped K K' w sk i _ t' os st 0 Hb (sp_tree _ _ Hs i) Hi) as (_ & _ & Hk & _).
  destruct (sp_full _ _ Hs i Hi) as (s0 & E0 & Hc0).
  assert (K' = K -> sends os = []) as Hn.
  { intros HK. destruct (Hst HK) as (st0 & E & Hc). rewrite E0 in E. injection E as <-.
    rewrite (bu_out _ _ _ _ _ _ _ Hb), (sp_tree _ _ Hs i). fold (nch i).
    destruct (Z.eqb_spec (recv_event_count st + 1) (nch i + 1)); [lia|done]. }
  apply spent_set; [done|done|apply Hb| | |done].
  - exists s0. destruct (decide (K' = K)) as [->|HK].
    + rewrite (bu_state _ _ _ _ _ _ _ Hb). eexists. split; [done|]. split; [done|]. simpl.
      destruct (Hst eq_refl) as (st0 & E & ->). rewrite E0 in E. injection E as <-. lia.
    + exists s0. rewrite (bu_other _ _ _ _ _ _ _ Hb) by congruence. split; [done|]. split; [done|lia].
  - intros d m Hin HK. rewrite !elem_of_app in Hin.
    assert ((d, Up m) ∈ sends os \/ (d, Down m) ∈ sends os \/ ((d, Up m) ∈ net s \/ (d, Down m) ∈ net s)) as [Hx|[Hx|Hx]]
      by (destruct Hin as [[?|?]|[?|?]]; auto).
    + destruct (Hk d m) as [E _]; [auto|]. rewrite Hn in Hx by congruence. by apply not_elem_nil in Hx.
    + destruct (Hk d m) as [E _]; [auto|]. rewrite Hn in Hx by congruence. by apply not_elem_nil in Hx.
    + by apply (sp_net _ _ Hs d m).
Qed.

(** The events that use the named barrier [b] with continuations only. *)
Definition only_conts (b : Z) (e : event) : Prop :=
  match e with Wait _ named _ => named <> b | _ => True end.

Lemma enter_key named_ t nm b t1 : enter_id named_ t = (nm, b, t1) -> nm = true -> b = named_.
Proof. unfold enter_id. case_match; by intros [= <- <- <-]. Qed.

Lemma spent_event b s e s' :
  spent (true, b) s -> only_conts b e -> exec1 s e = Some (Ok s') ->
  spent (true, b) s' /\ forall i, at_ (true, b) i (passed s') = at_ (true, b) i (passed s).
Proof.
  intros Hs He Hx. destruct e as [n nd sk|n fn nd sk|k|k]; simpl in Hx.
  - case_bool_decide as Hn; [|done]. destruct (waitBarrier_bumped nd sk (nodes s n)) as (K' & t' & os & E & Hb).
    rewrite E in Hx. injection Hx as <-. destruct K' as [nm c].
    assert ((nm, c) <> (true, b)) as HK.
    { intros [= -> ->]. unfold waitBarrier_enter in E. destruct (enter_id nd (nodes s n)) as [[nm' c'] t1] eqn:Hid.
      apply bind_Ok_inv in E as ([? ?] & _ & E). apply bind_Ok_inv in E as ([? ?] & _ & E).
      simpl in E. injection E as -> -> _ _. apply He. symmetry. by apply (enter_key _ _ _ _ _ Hid). }
    split; [|done]. apply (spent_bumped (true, b) s (nm, c) true sk n t' os _ _ _ _ _ Hs Hn Hb); [done|done|].
    intros j [Hin|Hin%list_elem_of_singleton]%elem_of_app; [by apply (sp_waits _ _ Hs) in Hin|]. apply HK. by injection Hin as _ <- <-.
  - case_bool_decide as Hn; [|done]. destruct (contBarrier_bumped fn nd sk (nodes s n)) as (K' & t' & os & E & Hb).
    rewrite E in Hx. injection Hx as <-. destruct K' as [nm c]. split; [|done].
    apply (spent_bumped (true, b) s (nm, c) false sk n t' os _ _ _ _ _ Hs Hn Hb); [|done|apply Hs].
    intros ->. destruct (sp_full _ _ Hs n Hn) as (st & E0 & _). exists st. split; [done|]. by rewrite E0.
  - destruct (net s !! k) as [[n [m|m]]|] eqn:Hk; [..|done]; (case_bool_decide as Hn; [|done]).
    + assert (key m <> (true, b)) as HK by (apply (sp_net _ _ Hs n); left; by apply (list_elem_of_lookup_2 _ k)).
      destruct (barrierUp_bumped (key m) (m_wait m) (m_skip_term m) (nodes s n)) as (t' & os & E & Hb).
      unfold barrierUpHandler in Hx. change (m_named m) with (key m).1 in Hx.
      change (m_barrier m) with (key m).2 in Hx. rewrite E in Hx. injection Hx as <-. split.
      * apply (spent_bumped (true, b) s (key m) (m_wait m) (m_skip_term m) n t' os _ _ _ _ _ Hs Hn Hb); [done| |apply Hs].
        intros p. exact (taken k _ p _ Hk).
      * intros i. cbn [passed]. destruct (sends_bumped (key m) (key m) _ _ n _ t' os _ 0 Hb (sp_tree _ _ Hs n) Hn) as (_ & _ & _ & Hc).
        change (conts n _ os) with (conts n (key m) os). by rewrite Hc, app_nil_r.
    + assert (key m <> (true, b)) as HK by (apply (sp_net _ _ Hs n); right; by apply (list_elem_of_lookup_2 _ k)).
      destruct (barrierDown_ok (key m) (m_wait m) (nodes s n)) as (t' & E & Ho & _ & Ht).
      unfold barrierDownHandler in Hx. change (m_named m) with (key m).1 in Hx.
      change (m_barrier m) with (key m).2 in Hx. rewrite E in Hx. injection Hx as <-. split.
      * destruct (sp_full _ _ Hs n Hn) as (st & E0 & _). apply spent_set; [done|done|done| | |apply Hs].
        -- exists st, st. rewrite Ho by congruence. split; [done|]. split; [done|lia].
        -- intros d m' Hin. apply (sp_net _ _ Hs d). rewrite !elem_of_app in Hin.
           assert (forall p : Z * msg, p ∈ sends (match cont_action (default (makeState (key m).1 (key m).2 (m_wait m)) (state_of (key m) (nodes s n))) with Some a => if negb (m_wait m) then [RunCont a] else [] | None => [] end) -> False) as Hno.
           { intros p. destruct (cont_action _); [destruct (negb _)|]; simpl; apply not_elem_nil. }
           destruct Hin as [[Hin|Hin]|[Hin|Hin]]; try (exfalso; by eapply Hno);
             apply (taken _ _ _ _ Hk) in Hin; auto.
      * intros i. cbn [passed]. unfold at_. rewrite lsum_app. rewrite (lsum_0 _ (conts _ _ _)); [lia|].
        intros p Hp. apply list_elem_of_In, in_flat_map in Hp as (o & _ & Ho'). destruct o; [done|done|].
        destruct Ho' as [<-|[]]. rewrite bool_decide_false; [done|]. intros [= _ E1 E2]. apply HK.
        unfold key. congruence.
  - destruct (waits s !! k) as [[n [nm c]]|] eqn:Hk; [|done]. case_match eqn:Hd; [|done].
    assert ((nm, c) <> (true, b)) as HK.
    { intros Heq. apply (sp_waits _ _ Hs n). rewrite <- Heq. by apply (list_elem_of_lookup_2 _ k). }
    destruct (waitBarrier_leave nm c (nodes s n)) as [t'|] eqn:E; [|done]. injection Hx as <-.
    unfold waitBarrier_leave, removeBarrier in E. case_match; [|done]. injection E as <-. split.
    + destruct Hs as [H1 H2 H3 H4]. split; cbn [nodes net waits].
      * intros i Hi. destruct (decide (i = n)) as [->|Hin]; [|rewrite fn_lookup_insert_ne by congruence; auto].
        rewrite fn_lookup_insert. destruct (H1 n Hi) as (st & E0 & Hc). exists st. split; [|done]. rewrite <- E0.
        unfold state_of. simpl. destruct nm; simpl; [|done]. rewrite lookup_delete_ne; [done|congruence].
      * intros i. destruct (decide (i = n)) as [->|Hin]; [|rewrite fn_lookup_insert_ne by congruence; auto].
        rewrite fn_lookup_insert. destruct nm; simpl; apply H2.
      * done.
      * intros i Hin. apply (H4 i). exact (taken _ _ _ _ Hk Hin).
    + intros i. cbn [passed]. rewrite at_app, bool_decide_false; [simpl; lia|]. congruence.
Qed.

End system.
End BarrierSystem.

Module BarrierSpec.
Import Barrier BarrierSystem.

Section claims.
Context (N : Z).

Lemma entries_entered K w s i :
  once K w s -> 0 < entries K i (entered s) -> (i, (K, w)) ∈ entered s.
Proof.
  intros [O1 _] H. apply lsum_pos in H as ([j [K' w']] & Hin & Hp).
  case_bool_decide as E; [|done]. simpl in E. destruct E as [-> ->]. by rewrite <- (O1 i w' Hin).
Qed.

Lemma entered_entries K w s i : (i, (K, w)) ∈ entered s -> 0 < entries K i (entered s).
Proof.
  intros Hin. pose proof (lsum_elem_le (fun p => b2z (bool_decide (p.1 = i /\ p.2.1 = K))) (entered s) (i, (K, w))
    (fun p _ => proj1 (b2z_range _)) Hin) as Hle. simpl in Hle. rewrite bool_decide_true in Hle by done.
  unfold entries. change (b2z true) with 1 in Hle. lia.
Qed.

Lemma passed_at K (l : list (Z * Key)) i : (i, K) ∈ l -> 0 < at_ K i l.
Proof.
  intros Hin. pose proof (lsum_elem_le (fun p => b2z (bool_decide (p = (i, K)))) l (i, K)
    (fun p _ => proj1 (b2z_range _)) Hin) as Hle. simpl in Hle. rewrite bool_decide_true in Hle by done.
  unfold at_. change (b2z true) with 1 in Hle. lia.
Qed.

(** C14: Nobody gets past a barrier before everyone has reached it: if a node's
    wait on a barrier has returned, or its continuation has run, then every node
    has entered that barrier, whatever other barriers are in use and in whatever
    order messages arrive. Each node uses the barrier once, all in the same way
    (unnamed barriers are numbered, so this is how they are used). *)
Theorem barrier_safe K w s n m :
  reach N s -> once K w s -> 0 <= n < N -> (n, K) ∈ passed s -> 0 <= m < N -> (m, (K, w)) ∈ entered s.
Proof.
  intros Hr Ho Hn Hp Hm. apply passed_at in Hp.
  destruct (sy_view N K w s (barrier_reach_ok N K w s Hr Ho)) as [[_ G _ _ _]|[R _]].
  - destruct (G n Hn) as (_ & _ & _ & Hz & _). simpl in Hz. lia.
  - destruct (R m Hm) as [E _]. simpl in E. apply (entries_entered K w s m Ho). lia.
Qed.

(** Nothing about the barrier is under way. *)
Definition silent (K : Key) (s : Sys) : Prop :=
  forall d m, In (d, Up m) (net s) \/ In (d, Down m) (net s) -> key m <> K.

Lemma silent_counts K s i : silent K s -> ups K i (net s) = 0 /\ downs K i (net s) = 0.
Proof.
  intros Hs. split; apply lsum_0; intros [d [m|m]] Hin; try done; unfold is_up, is_down; simpl;
    (rewrite bool_decide_false; [done|]); intros [_ E]; apply (Hs d m); auto; [left|right]; by apply list_elem_of_In.
Qed.

Lemma everyone_stage K w s :
  reach N s -> once K w s -> 0 < N -> (forall m, 0 <= m < N -> (m, (K, w)) ∈ entered s) -> silent K s ->
  forall n, 0 <= n < N -> stage N w (view_of K s) n /\ vd (view_of K s) n = 0.
Proof.
  intros Hr Ho HN He Hs n Hn. split; [|apply silent_counts, Hs].
  destruct (sy_view N K w s (barrier_reach_ok N K w s Hr Ho)) as [G|[_ R]]; [|by apply R]. exfalso.
  apply (gathered_full N w _ G HN). intros i Hi. simpl. split; [|apply silent_counts, Hs].
  specialize (He i Hi). apply entered_entries in He. destruct Ho as [_ O2]. specialize (O2 i). lia.
Qed.

(** C39: Everyone gets past it: once all nodes have entered and no message of the
    barrier is under way, every continuation has run, exactly once; and every wait
    has returned, or its scheduler loop finds the barrier released. *)
Theorem barrier_completes K w s n :
  reach N s -> once K w s -> (forall m, 0 <= m < N -> (m, (K, w)) ∈ entered s) -> silent K s -> 0 <= n < N ->
  (w = false -> at_ K n (passed s) = 1) /\
  (w = true -> (at_ K n (passed s) = 1 /\ at_ K n (waits s) = 0) \/
     (at_ K n (passed s) = 0 /\ at_ K n (waits s) = 1 /\ waiting_done K.1 K.2 (nodes s n) = true)).
Proof.
  intros Hr Ho He Hs Hn. destruct (everyone_stage K w s Hr Ho ltac:(lia) He Hs n Hn) as [Hst Hd].
  destruct Hst as [s1 A B C D F G _|s1 A B C D F G|A B C _]; [lia| |].
  - split; [congruence|]. intros _. right. split; [done|]. split; [done|]. unfold waiting_done.
    change (states K.1 (nodes s n) !! K.2) with (state_of K (nodes s n)). cbn [vst view_of] in F. by rewrite F.
  - split; [done|]. intros _. by left.
Qed.

(** The states a completed barrier with continuations leaves behind. *)
Lemma completed_spent K s :
  reach N s -> once K false s -> (forall m, 0 <= m < N -> (m, (K, false)) ∈ entered s) -> silent K s ->
  0 < N -> spent N K s.
Proof.
  intros Hr Ho He Hs HN. pose proof (barrier_reach_ok N K false s Hr Ho) as Hok.
  assert (forall i, 0 <= i < N -> vw (view_of K s) i = 0 /\ full N (view_of K s) i /\
            exists st, vst (view_of K s) i = Some st) as Hall.
  { intros i Hi. destruct (everyone_stage K false s Hr Ho HN He Hs i Hi) as [Hst Hd].
    destruct Hst as [s1 A B C D F G _|s1 A B C D F G|A B C G]; [lia|done|]. destruct (G eq_refl). auto. }
  split.
  - intros i Hi. destruct (Hall i Hi) as (_ & Hf & st & Hst). exists st. split; [done|].
    unfold full, cnt in Hf. rewrite Hst in Hf. lia.
  - apply Hok.
  - intros d m Hin. apply (Hs d m). destruct Hin; [left|right]; by apply list_elem_of_In.
  - intros i Hin. pose proof (sy_waits N K false s Hok i K Hin) as Hi. apply passed_at in Hin.
    destruct (Hall i Hi) as [Hw _]. simpl in Hw. lia.
Qed.

Lemma spent_exec b s es s' i :
  spent N (true, b) s -> Forall (only_conts b) es -> exec N s es = Some (Ok s') ->
  at_ (true, b) i (passed s') = at_ (true, b) i (passed s).
Proof.
  intros Hs Hes. revert s Hs. induction Hes as [|e es He _ IH]; intros s Hs Hx; simpl in Hx.
  - by injection Hx as <-.
  - destruct (exec1 N s e) as [[s1|]|] eqn:E; [|done..].
    destruct (spent_event N b s e s1 Hs He E) as [Hs1 Hp]. by rewrite (IH s1 Hs1 Hx), Hp.
Qed.

(** A named barrier used with continuations works only once. After it has
    completed, its states stay in the table with their full counts
    ([barrierDown] removes nothing, and [barrierUp] compares for equality), so
    that however often the nodes enter it again with a continuation, and
    whatever else they do, no continuation of it ever runs again. *)
Theorem named_cont_barrier_once b s n es s' :
  reach N s -> once (true, b) false s -> (forall m, 0 <= m < N -> (m, ((true, b), false)) ∈ entered s) ->
  silent (true, b) s -> 0 <= n < N -> Forall (only_conts b) es -> exec N s es = Some (Ok s') ->
  at_ (true, b) n (passed s') = 1.
Proof.
  intros Hr Ho He Hs Hn Hes Hx. rewrite (spent_exec b s es s' n); [|by apply completed_spent; lia||auto|done|done].
  destruct (everyone_stage (true, b) false s Hr Ho ltac:(lia) He Hs n Hn) as [Hst Hd].
  by destruct Hst as [s1 A B C D F G _|s1 A B C D F G|A B C _]; [lia| |].
Qed.

End claims.
(** A relayed message is never marked: [BarrierMsg] does not carry [skip_term],
    so of the messages of a barrier entered with [skip_term] only those of nodes
    whose own entry completed the count are kept from termination detection. *)
Lemma relayed_not_marked named b w t t' os :
  barrierUpHandler (makeMsg named b w) t = Ok (t', os) ->
  Forall (fun o => match o with SendUp _ _ term | BroadcastDown _ term => term = false | RunCont _ => True end) os.
Proof.
  intros H. destruct (barrierUp_bumped (named, b) w false t) as (t1 & os1 & E & Hb).
  unfold barrierUpHandler in H. simpl in H, E. rewrite E in H. injection H as _ <-.
  rewrite (bu_out _ _ _ _ _ _ _ Hb). case_match; [|done]. case_match; by repeat constructor.
Qed.

(** ** Runs on three nodes *)

Lemma entries_nodup K i l : NoDup (map fst l) -> entries K i l <= 1.
Proof.
  unfold entries. induction l as [|[j [K' w]] l IH]; simpl; [lia|]. intros [Hj Hl]%NoDup_cons.
  specialize (IH Hl). case_bool_decide as E; simpl; [|done]. destruct E as [-> _].
  rewrite lsum_0; [done|]. intros [j' [K1 w1]] Hin. rewrite bool_decide_false; [done|]. intros [E _].
  simpl in E. subst j'. apply Hj. apply list_elem_of_fmap. by exists (i, (K1, w1)).
Qed.

Lemma once_simple K w s :
  bool_decide (NoDup (map fst (entered s)) /\ Forall (fun p => p.2.2 = w) (entered s)) = true -> once K w s.
Proof.
  intros [Hn Hf]%bool_decide_eq_true. split; [|intros i; by apply entries_nodup].
  intros i w' Hin. rewrite Forall_forall in Hf. exact (Hf _ Hin).
Qed.

Definition result (s : option (res Sys)) : Sys := match s with Some (Ok s) => s | _ => init 3 end.
Lemma result_reached es :
  match exec 3 (init 3) es with Some (Ok _) => true | _ => false end = true ->
  reach 3 (result (exec 3 (init 3) es)).
Proof. apply (barrier_exec_reach 3 (init 3) es), reach_init. Qed.

(** All wait on their first unnamed barrier; node 1 hears of the release first. *)
Definition wait_run : list event :=
  [Wait 0 no_barrier false; Wait 1 no_barrier false; Wait 2 no_barrier false;
   Deliver 0; Deliver 0; Deliver 1; Leave 1].

Lemma barrier_safe_witness :
  passed (result (exec 3 (init 3) wait_run)) = [(1, (false, 1))] /\
  (2, ((false, 1), true)) ∈ entered (result (exec 3 (init 3) wait_run)).
Proof.
  split; [vm_compute; reflexivity|].
  apply (barrier_safe 3 (false, 1) true (result (exec 3 (init 3) wait_run)) 1 2).
  - apply result_reached. vm_compute. reflexivity.
  - apply once_simple. vm_compute. reflexivity.
  - lia.
  - replace (passed (result (exec 3 (init 3) wait_run))) with [(1, (false, 1))] by (vm_compute; reflexivity). left.
  - lia.
Defined.

(** All continue after the named barrier 5. *)
Definition cont_run : list event :=
  [Cont 2 102 5 false; Cont 0 100 5 false; Cont 1 101 5 false; Deliver 1; Deliver 0;
   Deliver 0; Deliver 0; Deliver 0].
Definition cont_done : Sys := result (exec 3 (init 3) cont_run).

Lemma cont_done_hyps :
  reach 3 cont_done /\ once (true, 5) false cont_done /\
  (forall m, 0 <= m < 3 -> (m, ((true, 5), false)) ∈ entered cont_done) /\ silent (true, 5) cont_done.
Proof.
  split; [apply result_reached; vm_compute; reflexivity|]. split; [apply once_simple; vm_compute; reflexivity|].
  split.
  - replace (entered cont_done) with [(2, ((true, 5), false)); (0, ((true, 5), false)); (1, ((true, 5), false))]
      by (vm_compute; reflexivity).
    intros m Hm. assert (m = 0 \/ m = 1 \/ m = 2) as [->|[->| ->]] by lia; set_solver.
  - intros d m. replace (net cont_done) with (@nil (Z * msg)) by (vm_compute; reflexivity). by intros [[]|[]].
Qed.

Lemma barrier_completes_witness :
  at_ (true, 5) 2 (passed cont_done) = 1.
Proof.
  destruct cont_done_hyps as (H1 & H2 & H3 & H4).
  exact (proj1 (barrier_completes 3 (true, 5) false cont_done 2 H1 H2 H3 H4 ltac:(lia)) eq_refl).
Defined.

Lemma named_cont_barrier_once_witness :
  net (result (exec 3 cont_done (take 3 cont_run))) = [] /\
  at_ (true, 5) 0 (passed (result (exec 3 cont_done (take 3 cont_run)))) = 1.
Proof.
  split; [vm_compute; reflexivity|]. destruct cont_done_hyps as (H1 & H2 & H3 & H4).
  apply (named_cont_barrier_once 3 5 cont_done 0 (take 3 cont_run)); [done..|lia| |].
  - repeat constructor.
  - vm_compute. reflexivity.
Defined.

End BarrierSpec.
