(* ===== verification/LocationCache.v ===== *)
(** * The location cache and directory

    Models [src/vt/topos/location/cache], [directory], [lookup] and [record]:
    [LocationCache], a bounded list in order of use with a hash map of iterators
    into it; [Directory], the authoritative map of a home node; [LocLookup],
    which consults both; and [LocRecord].

    [LRU] is the reference behaviour of a least-recently-used cache, and the
    theorem says that the cache, whatever is asked of it, behaves like it. *)

From S2P Require Import Prelude.
From S2P Require Import Sums.
From S2P Require Import Ids.

(** The entity identifiers of the template are integers here. *)
Abbreviation EntityID := Z (only parsing).

Module LocationCache.
Section cache.
Context {ValueT : Type}.
Abbreviation KeyT := Z (only parsing).

(** An element of the [std::list] with the name its iterators keep. *)
Record Elm := MkElm { iter : nat; key : KeyT; value : ValueT }.

Record LocationCache := MkCache {
  lookup_ : gmap KeyT nat;            (* iterators into the list *)
  cache_ : list Elm;                  (* most recently used first *)
  max_size_ : Z;
  fresh_ : nat                        (* the name of the next list node *)
}.

Definition make (in_max_size : Z) : LocationCache := MkCache ∅ [] in_max_size 0.

(** [*iter], and [cache_.splice(cache_.begin(), cache_, iter)]. *)
Definition at_iter (l : list Elm) (it : nat) : option Elm := List.find (fun e => iter e =? it)%nat l.
Definition without (l : list Elm) (it : nat) : list Elm := List.filter (fun e => negb (iter e =? it)%nat) l.
Definition splice (l : list Elm) (it : nat) : list Elm :=
  match at_iter l it with Some e => e :: without l it | None => l end.

Definition exists_ (c : LocationCache) (k : KeyT) : bool := bool_decide (is_Some (lookup_ c !! k)).

Definition get (c : LocationCache) (k : KeyT) : res (ValueT * LocationCache) :=
  match lookup_ c !! k with
  | None => Stop AssertFailed
  | Some it =>
      let l := splice (cache_ c) it in
      match at_iter l it with
      | None => Stop AssertFailed        (* a dangling iterator *)
      | Some e => Ok (value e, MkCache (lookup_ c) l (max_size_ c) (fresh_ c))
      end
  end.

Definition getSize (c : LocationCache) : Z := max_size_ c.

Definition remove (c : LocationCache) (k : KeyT) : LocationCache :=
  match lookup_ c !! k with
  | Some it => MkCache (delete k (lookup_ c)) (without (cache_ c) it) (max_size_ c) (fresh_ c)
  | None => c
  end.

(** [insert]. With a [max_size_] of 0 it reads the last element of an empty list,
    which is undefined. *)
Definition insert (c : LocationCache) (k : KeyT) (v : ValueT) : LocationCache :=
  match lookup_ c !! k with
  | None =>
      let c :=
        if max_size_ c <? Z.of_nat (size (lookup_ c)) + 1 then
          match last (cache_ c) with
          | Some e => MkCache (delete (key e) (lookup_ c)) (removelast (cache_ c)) (max_size_ c) (fresh_ c)
          | None => c
          end
        else c in
      MkCache (<[k := fresh_ c]> (lookup_ c)) (MkElm (fresh_ c) k v :: cache_ c) (max_size_ c)
        (S (fresh_ c))
  | Some it =>
      let l := map (fun e => if (iter e =? it)%nat then MkElm (iter e) (key e) v else e) (cache_ c) in
      MkCache (lookup_ c) (splice l it) (max_size_ c) (fresh_ c)
  end.

End cache.
End LocationCache.

(** ** [Directory], a map *)

Module Directory.
Section directory.
Context {ValueT : Type}.

Definition Directory : Type := gmap Z ValueT.
Definition exists_ (d : Directory) (k : Z) : bool := bool_decide (is_Some ((d : gmap Z ValueT) !! k)).
Definition get (d : Directory) (k : Z) : res ValueT :=
  match (d : gmap Z ValueT) !! k with Some v => Ok v | None => Stop AssertFailed end.
Definition getSize (d : Directory) : Z := Z.of_nat (size (d : gmap Z ValueT)).
Definition remove (d : Directory) (k : Z) : Directory := delete k (d : gmap Z ValueT).
Definition insert (d : Directory) (k : Z) (v : ValueT) : Directory := <[k := v]> (d : gmap Z ValueT).

End directory.
End Directory.

(** ** [LocLookup] *)

Module LocLookup.
Section lookup.
Context {ValueT : Type}.

Record LocLookup := MkLookup {
  max_cache_size_ : Z;
  directory_ : @Directory.Directory ValueT;
  cache_ : @LocationCache.LocationCache ValueT;
  this_node_ : Z
}.

Definition make (in_max_cache_size in_this_node : Z) : LocLookup :=
  MkLookup in_max_cache_size ∅ (LocationCache.make in_max_cache_size) in_this_node.

Definition with_cache (c : LocationCache.LocationCache) (l : LocLookup) : LocLookup :=
  MkLookup (max_cache_size_ l) (directory_ l) c (this_node_ l).
Definition with_directory (d : Directory.Directory) (l : LocLookup) : LocLookup :=
  MkLookup (max_cache_size_ l) d (cache_ l) (this_node_ l).

Definition exists_ (l : LocLookup) (k : Z) : bool :=
  Directory.exists_ (directory_ l) k || LocationCache.exists_ (cache_ l) k.

Definition get (l : LocLookup) (k : Z) : res (ValueT * LocLookup) :=
  match (directory_ l : gmap Z ValueT) !! k with
  | Some v => Ok (v, l)
  | None => '(v, c) ← LocationCache.get (cache_ l) k; Ok (v, with_cache c l)
  end.

Definition getCacheSize (l : LocLookup) : Z := LocationCache.getSize (cache_ l).

Definition remove (l : LocLookup) (k : Z) : LocLookup :=
  with_cache (LocationCache.remove (cache_ l) k)
    (with_directory (Directory.remove (directory_ l) k) l).

Definition insert (l : LocLookup) (k home : Z) (v : ValueT) : LocLookup :=
  if this_node_ l =? home
  then with_directory (Directory.insert (directory_ l) k v) l
  else with_cache (LocationCache.insert (cache_ l) k v) l.

Definition update (l : LocLookup) (k : Z) (v : ValueT) : LocLookup :=
  match (directory_ l : gmap Z ValueT) !! k with
  | Some _ => with_directory (<[k := v]> (directory_ l : gmap Z ValueT)) l
  | None => with_cache (LocationCache.insert (cache_ l) k v) l
  end.

Definition clearCache (l : LocLookup) : LocLookup :=
  with_cache (LocationCache.make (max_cache_size_ l)) l.

End lookup.
End LocLookup.

(** ** [LocRecord] *)

Module LocRecord.

Inductive eLocState := Local | Remote | Invalid.

Record LocRecord := MkRec { id_ : EntityID; state_ : eLocState; cur_node_ : Z }.

Definition updateNode (this_node new_node : Z) (r : LocRecord) : LocRecord :=
  MkRec (id_ r) (if new_node =? this_node then Local else Remote) new_node.
Definition isLocal (r : LocRecord) : bool := match state_ r with Local => true | _ => false end.
Definition isRemote (r : LocRecord) : bool := match state_ r with Remote => true | _ => false end.
Definition getRemoteNode (r : LocRecord) : Z := cur_node_ r.
Definition getEntityID (r : LocRecord) : EntityID := id_ r.

End LocRecord.

(** ** The reference *)

(** A least-recently-used cache as a list of keys and values, most recent first. *)
Module LRU.
Section lru.
Context {ValueT : Type}.
Abbreviation Lru := (list (Z * ValueT)).

Definition lookup (l : Lru) (k : Z) : option ValueT := snd <$> List.find (fun p => p.1 =? k) l.
Definition drop_key (l : Lru) (k : Z) : Lru := List.filter (fun p => negb (p.1 =? k)) l.

Inductive op := Exists (k : Z) | Get (k : Z) | Remove (k : Z) | Insert (k : Z) (v : ValueT).
Inductive answer := Found (b : bool) | Got (v : ValueT) | Asserted | Done.

(** A use moves the key to the front; a new key pushes the last one out of a cache
    of [max] keys. *)
Definition run (max : nat) (l : Lru) (o : op) : Lru * answer :=
  match o with
  | Exists k => (l, Found (bool_decide (is_Some (lookup l k))))
  | Get k => match lookup l k with
             | Some v => ((k, v) :: drop_key l k, Got v)
             | None => (l, Asserted)
             end
  | Remove k => (drop_key l k, Done)
  | Insert k v => (take max ((k, v) :: drop_key l k), Done)
  end.

Fixpoint runs (max : nat) (l : Lru) (os : list op) : Lru * list answer :=
  match os with
  | [] => (l, [])
  | o :: os => let '(l, a) := run max l o in let '(l, r) := runs max l os in (l, a :: r)
  end.

End lru.
End LRU.

(** ** The cache is the reference *)

Module CacheSpec.
Import LocationCache.

Section spec.
Context {ValueT : Type}.
#[local] Abbreviation Elm := (@Elm ValueT).
#[local] Abbreviation LocationCache := (@LocationCache ValueT).
Implicit Types (c : LocationCache) (l : list Elm) (e : Elm).

(** One operation on the program's cache. *)
Definition run c (o : LRU.op) : LocationCache * LRU.answer :=
  match o with
  | LRU.Exists k => (c, LRU.Found (exists_ c k))
  | LRU.Get k => match get c k with Ok (v, c) => (c, LRU.Got v) | Stop _ => (c, LRU.Asserted) end
  | LRU.Remove k => (remove c k, LRU.Done)
  | LRU.Insert k v => (insert c k v, LRU.Done)
  end.

(** The list of keys and values a cache stands for. *)
Definition contents c : list (Z * ValueT) := map (fun e => (key e, value e)) (cache_ c).

Record cache_ok (max : nat) c : Prop := {
  co_iters : NoDup (map iter (cache_ c));
  co_keys : NoDup (map key (cache_ c));
  co_lookup k it : lookup_ c !! k = Some it <-> exists v, MkElm it k v ∈ cache_ c;
  co_fresh e : e ∈ cache_ c -> (iter e < fresh_ c)%nat;
  co_max : max_size_ c = Z.of_nat max;
  co_size : (length (cache_ c) <= max)%nat
}.

Lemma size_lookup max c : cache_ok max c -> size (lookup_ c) = length (cache_ c).
Proof.
  intros H. pose (m := map (fun e => (key e, iter e)) (cache_ c)).
  assert (m.*1 = map key (cache_ c)) as Hm.
  { unfold m. rewrite <- list_fmap_compose. done. }
  assert (lookup_ c = list_to_map m) as ->.
  { apply map_eq. intros k. apply option_eq. intros it.
    rewrite (co_lookup max c H), <- elem_of_list_to_map by (rewrite Hm; apply H).
    unfold m. rewrite list_elem_of_fmap. split.
    - intros [v Hv]. exists (MkElm it k v). done.
    - intros ([it' k' v] & [= -> ->] & He). by exists v. }
  rewrite map_size_list_to_map by (rewrite Hm; apply H). unfold m. apply length_map.
Qed.

(** Searching for an element that is there, by iterator and by key. *)
Lemma NoDup_split {B} (f : Elm -> B) l1 e l2 :
  NoDup (map f (l1 ++ e :: l2)) -> forall d, d ∈ l1 ++ l2 -> f d <> f e.
Proof.
  rewrite map_app. simpl. intros (_ & Hd & [Hn _]%NoDup_cons)%NoDup_app d.
  rewrite elem_of_app. intros [H|H] Heq.
  - apply (Hd (f e)); [rewrite <- Heq; apply list_elem_of_fmap; eauto|left].
  - apply Hn. rewrite <- Heq. apply list_elem_of_fmap; eauto.
Qed.

Lemma find_split (p : Elm -> bool) l1 e l2 :
  (forall d, d ∈ l1 ++ l2 -> p d = false) -> p e = true -> List.find p (l1 ++ e :: l2) = Some e.
Proof.
  intros H He. induction l1 as [|d l1 IH]; simpl; [by rewrite He|].
  rewrite (H d) by elems. apply IH. intros d' Hd'. apply H. simpl. elems.
Qed.

Lemma filter_none (p : Elm -> bool) l : (forall d, d ∈ l -> p d = true) -> List.filter p l = l.
Proof.
  induction l as [|d l IH]; intros H; simpl; [done|]. rewrite (H d) by elems.
  f_equal. apply IH. intros d' Hd'. apply H. elems.
Qed.

Lemma filter_split (p : Elm -> bool) l1 e l2 :
  (forall d, d ∈ l1 ++ l2 -> p d = true) -> p e = false ->
  List.filter p (l1 ++ e :: l2) = l1 ++ l2.
Proof.
  intros H He. rewrite List.filter_app. simpl. rewrite He, !filter_none; [done|..];
    intros d Hd; apply H; elems.
Qed.

Lemma splice_split l1 e l2 :
  NoDup (map iter (l1 ++ e :: l2)) ->
  at_iter (l1 ++ e :: l2) (iter e) = Some e /\
  without (l1 ++ e :: l2) (iter e) = l1 ++ l2 /\
  splice (l1 ++ e :: l2) (iter e) = e :: l1 ++ l2.
Proof.
  intros H. assert (forall d, d ∈ l1 ++ l2 -> (iter d =? iter e)%nat = false) as Hd.
  { intros d Hd. apply Nat.eqb_neq. by eapply NoDup_split. }
  assert (at_iter (l1 ++ e :: l2) (iter e) = Some e) as Ha
    by (apply find_split; [exact Hd|apply Nat.eqb_refl]).
  assert (without (l1 ++ e :: l2) (iter e) = l1 ++ l2) as Hw.
  { apply filter_split; [intros d Hdl; by rewrite Hd|by rewrite Nat.eqb_refl]. }
  split_and!; [done..|]. unfold splice. by rewrite Ha, Hw.
Qed.

(** The reference on the same list. *)
Definition pairs l : list (Z * ValueT) := map (fun e => (key e, value e)) l.

Lemma lru_lookup l k : LRU.lookup (pairs l) k = value <$> List.find (fun e => key e =? k) l.
Proof.
  unfold LRU.lookup, pairs. induction l as [|e l IH]; simpl; [done|].
  destruct (key e =? k); [done|exact IH].
Qed.

Lemma lru_drop l k : LRU.drop_key (pairs l) k = pairs (List.filter (fun e => negb (key e =? k)) l).
Proof.
  unfold LRU.drop_key, pairs. induction l as [|e l IH]; simpl; [done|].
  destruct (key e =? k); simpl; [exact IH|by rewrite IH].
Qed.

Lemma lru_split l1 e l2 :
  NoDup (map key (l1 ++ e :: l2)) ->
  LRU.lookup (pairs (l1 ++ e :: l2)) (key e) = Some (value e) /\
  LRU.drop_key (pairs (l1 ++ e :: l2)) (key e) = pairs (l1 ++ l2).
Proof.
  intros H. assert (forall d, d ∈ l1 ++ l2 -> (key d =? key e) = false) as Hd.
  { intros d Hd. apply Z.eqb_neq. by eapply NoDup_split. }
  rewrite lru_lookup, lru_drop. split.
  - rewrite (find_split _ l1 e l2); [done|exact Hd|apply Z.eqb_refl].
  - rewrite filter_split; [done|intros d Hdl; by rewrite Hd|by rewrite Z.eqb_refl].
Qed.

Lemma lru_absent l k :
  (forall e, e ∈ l -> key e <> k) ->
  LRU.lookup (pairs l) k = None /\ LRU.drop_key (pairs l) k = pairs l.
Proof.
  intros H. rewrite lru_lookup, lru_drop. split.
  - induction l as [|e l IH]; simpl; [done|]. rewrite (proj2 (Z.eqb_neq _ _)) by (apply H; elems).
    apply IH. intros d Hd. apply H. elems.
  - rewrite filter_none; [done|]. intros d Hd. by rewrite (proj2 (Z.eqb_neq _ _)) by auto.
Qed.

(** ** Changes that keep a cache in shape *)

Lemma lookup_cases max c k :
  cache_ok max c ->
  (lookup_ c !! k = None /\ forall e, e ∈ cache_ c -> key e <> k) \/
  exists l1 e l2, cache_ c = l1 ++ e :: l2 /\ key e = k /\ lookup_ c !! k = Some (iter e).
Proof.
  intros H. destruct (lookup_ c !! k) as [it|] eqn:Hk.
  - right. destruct (proj1 (co_lookup max c H k it) Hk) as [v Hv].
    apply list_elem_of_split in Hv as (l1 & l2 & Hl). by exists l1, (MkElm it k v), l2.
  - left. split; [done|]. intros [it k' v] He Heq. simpl in Heq. subst k'.
    assert (lookup_ c !! k = Some it) by (apply (co_lookup max c H); eauto). congruence.
Qed.

Lemma ok_perm max c l :
  cache_ok max c -> l ≡ₚ cache_ c -> cache_ok max (MkCache (lookup_ c) l (max_size_ c) (fresh_ c)).
Proof.
  intros [H1 H2 H3 H4 H5 H6] Hp. split; simpl.
  - by rewrite Hp.
  - by rewrite Hp.
  - intros k it. rewrite H3. by setoid_rewrite Hp.
  - intros e He. apply H4. by rewrite <- Hp.
  - done.
  - by rewrite Hp.
Qed.

Lemma ok_drop max c l1 e l2 :
  cache_ok max c -> cache_ c = l1 ++ e :: l2 ->
  cache_ok max (MkCache (delete (key e) (lookup_ c)) (l1 ++ l2) (max_size_ c) (fresh_ c)).
Proof.
  intros [H1 H2 H3 H4 H5 H6] Hl. rewrite Hl in *.
  assert (l1 ++ e :: l2 ≡ₚ e :: l1 ++ l2) as Hp by (by rewrite Permutation_middle).
  pose proof (NoDup_split key l1 e l2 H2) as Hne.
  rewrite Hp in H1, H2, H6. cbn [map] in H1, H2. apply NoDup_cons in H1 as [_ H1].
  apply NoDup_cons in H2 as [_ H2]. split; simpl; [done..| | |done|simpl in H6; lia].
  - intros k it. rewrite lookup_delete_Some, H3. split.
    + intros [Hk [v Hv]]. exists v. rewrite Hp in Hv.
      apply elem_of_cons in Hv as [<-|Hv]; [done|done].
    + intros [v Hv]. split; [by apply Hne in Hv|]. exists v. rewrite Hp. elems.
  - intros d Hd. apply H4. by apply elem_of_middle.
Qed.

Lemma ok_push max c k v :
  cache_ok max c -> (length (cache_ c) < max)%nat -> (forall e, e ∈ cache_ c -> key e <> k) ->
  cache_ok max (MkCache (<[k := fresh_ c]> (lookup_ c)) (MkElm (fresh_ c) k v :: cache_ c)
                  (max_size_ c) (S (fresh_ c))).
Proof.
  intros [H1 H2 H3 H4 H5 H6] Hlen Hk. split; simpl; [| | | |done|lia].
  - apply NoDup_cons. split; [|done]. intros (e & He & Hin)%list_elem_of_fmap.
    specialize (H4 e Hin). lia.
  - apply NoDup_cons. split; [|done]. intros (e & -> & Hin)%list_elem_of_fmap. by apply (Hk e Hin).
  - intros k' it. rewrite lookup_insert_Some, H3. split.
    + intros [[<- <-]|[Hne [v' Hv]]]; [exists v; elems|exists v'; elems].
    + intros [v' [[= -> -> ->]|Hv]%elem_of_cons]; [by left|]. right.
      split; [by apply Hk in Hv|by exists v'].
  - intros e [->|He]%elem_of_cons; simpl; [lia|]. specialize (H4 e He). lia.
Qed.

Lemma ok_value max c l1 e l2 v :
  cache_ok max c -> cache_ c = l1 ++ e :: l2 ->
  cache_ok max (MkCache (lookup_ c) (l1 ++ MkElm (iter e) (key e) v :: l2) (max_size_ c) (fresh_ c)).
Proof.
  intros [H1 H2 H3 H4 H5 H6] Hl. rewrite Hl in *.
  split; simpl; rewrite ?map_app, ?length_app in *; simpl in *; [done..| | |done|done].
  - intros k it. rewrite H3. split; intros [v' Hv];
      apply elem_of_app in Hv as [Hv|[Hv|Hv]%elem_of_cons].
    + exists v'. elems.
    + exists v. rewrite <- Hv. simpl. elems.
    + exists v'. elems.
    + exists v'. elems.
    + injection Hv as -> -> ->. destruct e as [it k w]. exists w. simpl. elems.
    + exists v'. elems.
  - intros d [Hd|[->|Hd]%elem_of_cons]%elem_of_app; [apply H4; elems| |apply H4; elems].
    simpl. apply (H4 e). elems.
Qed.

(** Writing through an iterator. *)
Lemma map_value l1 e l2 v :
  NoDup (map iter (l1 ++ e :: l2)) ->
  map (fun d => if (iter d =? iter e)%nat then MkElm (iter d) (key d) v else d) (l1 ++ e :: l2) =
  l1 ++ MkElm (iter e) (key e) v :: l2.
Proof.
  intros H. pose proof (NoDup_split iter l1 e l2 H) as Hd.
  assert (forall l, (forall d, d ∈ l -> iter d <> iter e) ->
    map (fun d => if (iter d =? iter e)%nat then MkElm (iter d) (key d) v else d) l = l) as Hid.
  { induction l as [|d l IH]; intros Hl; simpl; [done|].
    rewrite (proj2 (Nat.eqb_neq _ _)) by (apply Hl; elems). f_equal. apply IH. intros; apply Hl; elems. }
  rewrite map_app. simpl. rewrite Nat.eqb_refl, !Hid; [done|..]; intros d Hin; apply Hd; elems.
Qed.

(** What one operation does, on a cache in shape. *)
Definition agrees (max : nat) c (o : LRU.op) : Prop :=
  cache_ok max (run c o).1 /\
  LRU.run max (contents c) o = (contents (run c o).1, (run c o).2).

Lemma get_agrees max c k : cache_ok max c -> agrees max c (LRU.Get k).
Proof.
  intros H. unfold agrees. cbn [run LRU.run]. unfold get, contents. fold (pairs (cache_ c)).
  destruct (lookup_cases max c k H) as [[Hk Hno]|(l1 & e & l2 & Hl & <- & Hk)]; rewrite Hk.
  - by rewrite (proj1 (lru_absent _ _ Hno)).
  - pose proof (co_iters max c H) as Hi. pose proof (co_keys max c H) as Hks. rewrite Hl in Hi, Hks |- *.
    destruct (lru_split l1 e l2 Hks) as [-> ->]. destruct (splice_split l1 e l2 Hi) as (_ & _ & ->).
    unfold at_iter. simpl. rewrite Nat.eqb_refl. split; [|done].
    apply ok_perm; [done|]. by rewrite Hl, Permutation_middle.
Qed.

Lemma remove_agrees max c k : cache_ok max c -> agrees max c (LRU.Remove k).
Proof.
  intros H. unfold agrees. cbn [run LRU.run fst snd]. unfold remove, contents. fold (pairs (cache_ c)).
  destruct (lookup_cases max c k H) as [[Hk Hno]|(l1 & e & l2 & Hl & <- & Hk)]; rewrite Hk.
  - by rewrite (proj2 (lru_absent _ _ Hno)).
  - pose proof (co_iters max c H) as Hi. pose proof (co_keys max c H) as Hks. rewrite Hl in Hi, Hks |- *.
    rewrite (proj2 (lru_split l1 e l2 Hks)). destruct (splice_split l1 e l2 Hi) as (_ & -> & _).
    split; [by apply ok_drop|done].
Qed.

Lemma insert_new_agrees max c k v :
  (1 <= max)%nat -> cache_ok max c -> lookup_ c !! k = None -> (forall e, e ∈ cache_ c -> key e <> k) ->
  agrees max c (LRU.Insert k v).
Proof.
  intros Hmax H Hk Hno. unfold agrees. cbn [run LRU.run fst snd]. unfold insert, contents.
  fold (pairs (cache_ c)). rewrite Hk, (proj2 (lru_absent _ _ Hno)).
  rewrite (co_max max c H), (size_lookup max c H). pose proof (co_size max c H) as Hsize.
  destruct (Z.ltb_spec (Z.of_nat max) (Z.of_nat (length (cache_ c)) + 1)) as [Hf|Hf].
  - destruct (list_snoc_cases (cache_ c)) as [Hl|(l & e & Hl)]; [rewrite Hl in Hf; simpl in Hf; lia|].
    rewrite Hl, last_snoc, removelast_last in *. rewrite length_app in Hsize, Hf. simpl in Hsize, Hf.
    pose proof (ok_drop max c l e [] H Hl) as Hd. rewrite app_nil_r, (co_max max c H) in Hd.
    split; [apply (ok_push max _ k v Hd); simpl; [lia|]|].
    + intros d Hd'. apply Hno. elems.
    + destruct max as [|max]; [lia|]. simpl. unfold pairs. rewrite map_app, take_app_length'; [done|].
      rewrite length_map. lia.
  - split; [apply ok_push; [done|lia|done]|].
    rewrite take_ge; [done|]. simpl. unfold pairs. rewrite length_map. lia.
Qed.

Lemma insert_old_agrees max c l1 e l2 v :
  cache_ok max c -> cache_ c = l1 ++ e :: l2 -> lookup_ c !! key e = Some (iter e) ->
  agrees max c (LRU.Insert (key e) v).
Proof.
  intros H Hl Hk. unfold agrees. cbn [run LRU.run fst snd]. unfold insert, contents.
  fold (pairs (cache_ c)). rewrite Hk.
  pose proof (ok_value max c l1 e l2 v H Hl) as Hv. pose proof (co_size max c H) as Hsize.
  pose proof (co_iters max c H) as Hi. pose proof (co_keys max c H) as Hks. rewrite Hl in Hi, Hks, Hsize |- *.
  rewrite (proj2 (lru_split l1 e l2 Hks)), map_value by done.
  destruct (splice_split l1 (MkElm (iter e) (key e) v) l2) as (_ & _ & Hsp).
  { rewrite map_app in *. exact Hi. }
  cbn [iter] in Hsp. rewrite Hsp. split.
  - apply (ok_perm max (MkCache _ _ _ _) _ Hv). simpl. by rewrite Permutation_middle.
  - rewrite take_ge; [done|]. rewrite length_app in Hsize. simpl in *. unfold pairs.
    rewrite length_map, length_app. lia.
Qed.

Lemma run_agrees max c o : (1 <= max)%nat -> cache_ok max c -> agrees max c o.
Proof.
  intros Hmax H. destruct o as [k|k|k|k v].
  - split; [done|]. cbn [run LRU.run fst snd]. unfold exists_, contents. fold (pairs (cache_ c)).
    destruct (lookup_cases max c k H) as [[Hk Hno]|(l1 & e & l2 & Hl & <- & Hk)]; rewrite Hk.
    + by rewrite (proj1 (lru_absent _ _ Hno)).
    + pose proof (co_keys max c H) as Hks. rewrite Hl in Hks |- *.
      by rewrite (proj1 (lru_split l1 e l2 Hks)).
  - by apply get_agrees.
  - by apply remove_agrees.
  - destruct (lookup_cases max c k H) as [[Hk Hno]|(l1 & e & l2 & Hl & <- & Hk)].
    + by apply insert_new_agrees.
    + by eapply insert_old_agrees.
Qed.

Fixpoint runs c (os : list LRU.op) : LocationCache * list LRU.answer :=
  match os with
  | [] => (c, [])
  | o :: os => let '(c, a) := run c o in let '(c, r) := runs c os in (c, a :: r)
  end.

Lemma make_cache_ok max : cache_ok max (make (Z.of_nat max)).
Proof.
  split; simpl; [constructor|constructor| | |done|lia].
  - intros k it. rewrite lookup_empty. split; [done|]. by intros [v ?%not_elem_nil].
  - by intros e ?%not_elem_nil.
Qed.

(** C38: A location cache of at least one entry answers every sequence of
    operations like a least-recently-used cache of its size, holds the same
    entries in the same order of use, never more than its size, and never
    follows an iterator to an element that is gone. *)
Theorem cache_is_lru (max : nat) (os : list LRU.op) :
  (1 <= max)%nat ->
  LRU.runs max [] os =
    (contents (runs (make (Z.of_nat max)) os).1, (runs (make (Z.of_nat max)) os).2) /\
  (length (contents (runs (make (Z.of_nat max)) os).1) <= max)%nat.
Proof.
  intros Hmax. change [] with (contents (make (Z.of_nat max))).
  pose proof (make_cache_ok max) as H. revert H. generalize (@make ValueT (Z.of_nat max)).
  induction os as [|o os IH]; intros c H.
  - split; [done|]. unfold contents. rewrite length_map. apply H.
  - destruct (run_agrees max c o Hmax H) as [H' Hr]. cbn [LRU.runs runs]. rewrite Hr.
    destruct (run c o) as [c' a]. cbn [fst snd] in *. destruct (IH c' H') as [IH1 IH2].
    destruct (runs c' os) as [c2 r]. cbn [fst snd] in *. by rewrite IH1.
Qed.

End spec.

Definition sample_ops : list (@LRU.op Z) :=
  [LRU.Insert 1 10; LRU.Insert 2 20; LRU.Get 1; LRU.Insert 3 30; LRU.Exists 2].

Lemma cache_is_lru_witness :
  ([(3, 30); (1, 10)], [LRU.Done; LRU.Done; LRU.Got 10; LRU.Done; LRU.Found false]) =
  (contents (runs (make 2) sample_ops).1, (runs (make 2) sample_ops).2).
Proof.
  destruct (cache_is_lru 2 sample_ops) as [H _]; [lia|].
  transitivity (LRU.runs 2 [] sample_ops); [vm_compute; reflexivity|exact H].
Defined.

End CacheSpec.

(** ** A property of everything a lookup holds *)

Module LookupFacts.
Import LocationCache CacheSpec.

Section facts.
Context {ValueT : Type} (P : Z -> ValueT -> Prop).
Implicit Types (c : @LocationCache ValueT) (l : @LocLookup.LocLookup ValueT).

Definition cache_all c : Prop := forall e, e ∈ cache_ c -> P (key e) (value e).

Record lookup_ok l : Prop := {
  lo_size : exists max, (1 <= max)%nat /\ LocLookup.max_cache_size_ l = Z.of_nat max /\
                        cache_ok max (LocLookup.cache_ l);
  lo_cache : cache_all (LocLookup.cache_ l);
  lo_dir k v : (LocLookup.directory_ l : gmap Z ValueT) !! k = Some v -> P k v
}.

Lemma contents_all c : cache_all c <-> forall k v, (k, v) ∈ contents c -> P k v.
Proof.
  unfold cache_all, contents. split.
  - intros H k v ([it k' v'] & [= -> ->] & He)%list_elem_of_fmap. apply (H _ He).
  - intros H e He. apply H, list_elem_of_fmap. eauto.
Qed.

Lemma drop_key_subset (l : list (Z * ValueT)) k p : p ∈ LRU.drop_key l k -> p ∈ l.
Proof.
  unfold LRU.drop_key. rewrite !list_elem_of_In. by intros [H _]%List.filter_In.
Qed.

Lemma lru_lookup_in (l : list (Z * ValueT)) k v : LRU.lookup l k = Some v -> (k, v) ∈ l.
Proof.
  unfold LRU.lookup. destruct (List.find _ l) as [[k' v']|] eqn:Hf; [|done].
  apply List.find_some in Hf as [Hin Hk]. apply Z.eqb_eq in Hk. simpl in *.
  intros [= ->]. subst. by apply list_elem_of_In.
Qed.

(** An operation brings in nothing but what it inserts. *)
Lemma run_all max c o :
  (1 <= max)%nat -> cache_ok max c -> cache_all c ->
  match o with LRU.Insert k v => P k v | _ => True end ->
  cache_ok max (run c o).1 /\ cache_all (run c o).1.
Proof.
  intros Hmax Hok Hall Ho. destruct (run_agrees max c o Hmax Hok) as [Hok' Hr]. split; [done|].
  apply contents_all. rewrite contents_all in Hall. intros k v.
  destruct (run c o) as [c' a]. cbn [fst snd] in *.
  destruct o as [j|j|j|j w]; cbn [LRU.run] in Hr.
  - injection Hr as <- _. auto.
  - destruct (LRU.lookup (contents c) j) as [w|] eqn:Hl; injection Hr as <- _; [|auto].
    rewrite elem_of_cons. intros [[= -> ->]|Hin%drop_key_subset]; [|auto]. apply lru_lookup_in in Hl. auto.
  - injection Hr as <- _. intros Hin%drop_key_subset. auto.
  - injection Hr as <- _. intros Hin%subseteq_take.
    apply elem_of_cons in Hin as [[= -> ->]|Hin%drop_key_subset]; auto.
Qed.

Lemma lookup_make max node :
  (1 <= max)%nat -> lookup_ok (LocLookup.make (Z.of_nat max) node).
Proof.
  intros H. split; simpl; [exists max; split_and!; [done..|apply make_cache_ok]|by intros e ?%not_elem_nil|].
  intros k v Hl. by rewrite lookup_empty in Hl.
Qed.

(** The cache changes by one of its operations. *)
Lemma lookup_run l o :
  lookup_ok l -> match o with LRU.Insert k v => P k v | _ => True end ->
  lookup_ok (LocLookup.with_cache (run (LocLookup.cache_ l) o).1 l).
Proof.
  intros [(max & Hmax & Hm & Hok) Hall Hd] Ho.
  destruct (run_all max (LocLookup.cache_ l) o Hmax Hok Hall Ho) as [Hok' Hall'].
  split; simpl; [exists max; by split_and!|done|done].
Qed.

Lemma lookup_directory l d :
  lookup_ok l -> (forall k v, (d : gmap Z ValueT) !! k = Some v -> P k v) ->
  lookup_ok (LocLookup.with_directory d l).
Proof. by intros [H1 H2 H3] H; split. Qed.

Lemma lookup_directory_insert l k v :
  lookup_ok l -> P k v ->
  lookup_ok (LocLookup.with_directory (<[k := v]> (LocLookup.directory_ l : gmap Z ValueT)) l).
Proof.
  intros Hl Hv. apply lookup_directory; [done|].
  intros k' v' [[<- <-]|[_ H']]%lookup_insert_Some; [done|]. by apply (lo_dir l Hl).
Qed.

Lemma lookup_insert_ok l k home v : lookup_ok l -> P k v -> lookup_ok (LocLookup.insert l k home v).
Proof.
  intros Hl Hv. unfold LocLookup.insert. case_match.
  - by apply lookup_directory_insert.
  - by apply (lookup_run l (LRU.Insert k v)).
Qed.

Lemma lookup_update_ok l k v : lookup_ok l -> P k v -> lookup_ok (LocLookup.update l k v).
Proof.
  intros Hl Hv. unfold LocLookup.update. case_match.
  - by apply lookup_directory_insert.
  - by apply (lookup_run l (LRU.Insert k v)).
Qed.

Lemma lookup_remove_ok l k : lookup_ok l -> lookup_ok (LocLookup.remove l k).
Proof.
  intros Hl. unfold LocLookup.remove.
  pose proof (lookup_run l (LRU.Remove k) Hl I) as H. simpl in H.
  destruct H as [H1 H2 H3]. split; simpl; [exact H1|exact H2|].
  unfold Directory.remove. intros k' v [_ Hk]%lookup_delete_Some. by apply (lo_dir l Hl).
Qed.

Lemma lookup_clear_ok l : lookup_ok l -> lookup_ok (LocLookup.clearCache l).
Proof.
  intros [(max & Hmax & Hm & Hok) Hall Hd]. unfold LocLookup.clearCache. rewrite Hm.
  split; simpl; [exists max; split_and!; [done..|apply make_cache_ok]|by intros e ?%not_elem_nil|done].
Qed.

(** What a lookup finds has the property. *)
Lemma cache_get_found c k v c' :
  get c k = Ok (v, c') -> run c (LRU.Get k) = (c', LRU.Got v).
Proof. intros H. simpl. by rewrite H. Qed.

Lemma lookup_get_ok l k v l' :
  lookup_ok l -> LocLookup.get l k = Ok (v, l') -> P k v /\ lookup_ok l'.
Proof.
  intros Hl. unfold LocLookup.get.
  destruct ((LocLookup.directory_ l : gmap Z ValueT) !! k) as [w|] eqn:Hd.
  { intros [= <- <-]. split; [by apply (lo_dir l Hl)|done]. }
  intros ([w c] & Hg & [= <- <-])%bind_Ok_inv. apply cache_get_found in Hg.
  pose proof (lookup_run l (LRU.Get k) Hl I) as H'. rewrite Hg in H'. split; [|exact H'].
  destruct Hl as [(max & Hmax & Hm & Hok) Hall _].
  destruct (run_agrees max _ (LRU.Get k) Hmax Hok) as [_ Hr]. rewrite Hg in Hr. cbn [LRU.run fst snd] in Hr.
  destruct (LRU.lookup (contents (LocLookup.cache_ l)) k) as [u|] eqn:Hu; [|done].
  injection Hr as _ ->. apply lru_lookup_in in Hu. rewrite contents_all in Hall. auto.
Qed.

Lemma lookup_exists_get l k :
  lookup_ok l -> LocLookup.exists_ l k = true -> exists v l', LocLookup.get l k = Ok (v, l').
Proof.
  intros Hl. unfold LocLookup.exists_, LocLookup.get, Directory.exists_, exists_.
  destruct ((LocLookup.directory_ l : gmap Z ValueT) !! k) as [w|] eqn:Hd; [eauto|].
  rewrite bool_decide_false by (by intros [? ?]). simpl. intros He%bool_decide_eq_true.
  destruct Hl as [(max & _ & _ & Hok) _ _]. unfold get.
  destruct (lookup_cases max _ k Hok) as [[Hk _]|(l1 & e & l2 & Hc & <- & Hk)].
  - rewrite Hk in He. by destruct He.
  - rewrite Hk, Hc. pose proof (co_iters max _ Hok) as Hi. rewrite Hc in Hi.
    destruct (splice_split l1 e l2 Hi) as (_ & _ & ->). unfold at_iter. simpl.
    rewrite Nat.eqb_refl. simpl. eauto.
Qed.

End facts.

Lemma lookup_ok_weaken {ValueT} (P Q : Z -> ValueT -> Prop) l :
  (forall k v, P k v -> Q k v) -> lookup_ok P l -> lookup_ok Q l.
Proof.
  intros H [H1 H2 H3]. split; [done| |].
  - intros e He. by apply H, H2.
  - intros k v Hk. by apply H, H3.
Qed.

End LookupFacts.
