(* ===== verification/Location.v ===== *)
(** * Location of migrating entities, on one node

    Models [src/vt/topos/location/location.impl.h]: [EntityLocationCoord], the
    part of a node that knows which entities live here, remembers where others
    were last seen, routes messages to them and keeps those it cannot route yet.

    The callbacks ([NodeActionType] closures) are the constructors of
    [NodeAction]. What an operation does besides changing the coordinator's
    state is the list of its outputs: messages to the coordinators of other
    nodes, handlers run, units produced and consumed on an epoch. A handler that
    is run may itself call the coordinator; such calls are operations of their
    own that follow. The epoch pushed around a handler and popped after it is
    left out. *)

From S2P Require Import Prelude.
From S2P Require Import Effects.
From S2P Require Import Ids.
From S2P Require Import LocationCache.

Module Location.
Import LocRecord.

Definition uninitialized_handler : Z := -1.
Definition default_max_cache_size : Z := 4096.
Definition small_msg_max_size : Z := 256.

(** [EntityMsg]; [payload], [epoch], [size] and [needs_serialization] are what the
    coordinator sees of the user's message. *)
Record EntityMsg := MkMsg {
  payload : Z;
  epoch : Z;
  size_ : Z;
  needs_serialization : bool;
  entity_id_ : EntityID;
  home_node_ : Z;
  loc_from_node_ : Z;
  handler_ : Z;
  hops_ : Z;
  ask_node_ : Z
}.

Definition setAskNode (node : Z) (m : EntityMsg) : EntityMsg :=
  MkMsg (payload m) (epoch m) (size_ m) (needs_serialization m) (entity_id_ m) (home_node_ m)
    (loc_from_node_ m) (handler_ m) (hops_ m) node.
Definition incHops (m : EntityMsg) : EntityMsg :=
  MkMsg (payload m) (epoch m) (size_ m) (needs_serialization m) (entity_id_ m) (home_node_ m)
    (loc_from_node_ m) (handler_ m) (wrap i16 (hops_ m + 1)) (ask_node_ m).
Definition setRoute (id : EntityID) (home from : Z) (m : EntityMsg) : EntityMsg :=
  MkMsg (payload m) (epoch m) (size_ m) (needs_serialization m) id home from (handler_ m) (hops_ m)
    (ask_node_ m).
Definition setHandler (han : Z) (m : EntityMsg) : EntityMsg :=
  MkMsg (payload m) (epoch m) (size_ m) (needs_serialization m) (entity_id_ m) (home_node_ m)
    (loc_from_node_ m) han (hops_ m) (ask_node_ m).
Definition hasHandler (m : EntityMsg) : bool := negb (handler_ m =? uninitialized_handler).

(** The functions kept until an entity's node is known: the answer to another
    node's request, a message waiting to be routed ([routePreparedMsg]), one
    waiting to be delivered or forwarded ([routeMsgNode]), and any other caller's
    ([routeNonEagerAction]). *)
Inductive NodeAction :=
  | AnswerRequest (id : EntityID) (home requester : Z)
  | RouteWhenFound (msg : EntityMsg)
  | DeliverWhenFound (id : EntityID) (home : Z) (msg : EntityMsg)
  | UserAction (action : Z).

(** Messages between coordinators. *)
Inductive LocMsg :=
  | GetLocationRequest (id : EntityID) (home requester : Z)
  | UpdateLocation (id : EntityID) (answer home : Z)
  | EagerUpdate (id : EntityID) (home deliver : Z)
  | Routed (msg : EntityMsg).

Inductive output :=
  | Send (dest : Z) (m : LocMsg)
  | RunHandler (han from : Z) (msg : EntityMsg)     (* the message's own handler *)
  | RunRegistered (action : Z) (msg : EntityMsg)    (* the entity's message action *)
  | Produce (epoch : Z)
  | Consume (epoch : Z)
  | CallUser (action node : Z).

Record Coord := MkCoord {
  this_node : Z;
  local_registered_msg_han_ : gmap EntityID Z;
  local_registered_ : gset EntityID;
  recs_ : @LocLookup.LocLookup LocRecord;
  pending_lookups_ : gmap EntityID (list NodeAction);
  loc_asks_ : gmap EntityID (gset Z)
}.

Definition make (node : Z) : Coord :=
  MkCoord node ∅ ∅ (LocLookup.make default_max_cache_size node) ∅ ∅.

Definition with_msg_han (h : gmap EntityID Z) (c : Coord) : Coord :=
  MkCoord (this_node c) h (local_registered_ c) (recs_ c) (pending_lookups_ c) (loc_asks_ c).
Definition with_registered (s : gset EntityID) (c : Coord) : Coord :=
  MkCoord (this_node c) (local_registered_msg_han_ c) s (recs_ c) (pending_lookups_ c) (loc_asks_ c).
Definition with_recs (r : LocLookup.LocLookup) (c : Coord) : Coord :=
  MkCoord (this_node c) (local_registered_msg_han_ c) (local_registered_ c) r (pending_lookups_ c)
    (loc_asks_ c).
Definition with_pending (p : gmap EntityID (list NodeAction)) (c : Coord) : Coord :=
  MkCoord (this_node c) (local_registered_msg_han_ c) (local_registered_ c) (recs_ c) p (loc_asks_ c).
Definition with_asks (a : gmap EntityID (gset Z)) (c : Coord) : Coord :=
  MkCoord (this_node c) (local_registered_msg_han_ c) (local_registered_ c) (recs_ c)
    (pending_lookups_ c) a.

(** The coordinator's state and the outputs in order. *)
Abbreviation M := (Eff Coord output).

Definition registered (id : EntityID) : M bool :=
  c ← get; mret (bool_decide (id ∈ local_registered_ c)).
Definition insert_rec (id : EntityID) (home : Z) (r : LocRecord) : M unit :=
  modify (fun c => with_recs (LocLookup.insert (recs_ c) id home r) c).
(** [recs_.get(id)]: a use of the entry. *)
Definition get_rec (id : EntityID) : M LocRecord := fun c =>
  match LocLookup.get (recs_ c) id with
  | Ok (r, l) => Ok (r, with_recs l c, [])
  | Stop e => Stop e
  end.

(** ** Routing *)

Definition useEagerProtocol (msg : EntityMsg) : bool :=
  if needs_serialization msg then false else size_ msg <? small_msg_max_size.

Definition insertPendingEntityAction (id : EntityID) (action : NodeAction) : M unit :=
  modify (fun c => with_pending
    (<[id := default [] (pending_lookups_ c !! id) ++ [action]]> (pending_lookups_ c)) c).

Definition sendEagerUpdate (id : EntityID) (ask_node home_node deliver_node : Z) : M unit :=
  c ← get;
  if negb (ask_node =? this_node c) then
    assert_ (negb (ask_node =? uninitialized_destination));;
    emit (Send ask_node (EagerUpdate id home_node deliver_node))
  else nop.

(** [trigger_msg_handler_action(hid)] of [routeMsgNode]. *)
Definition trigger_msg_handler_action (hid : EntityID) (home_node : Z) (msg : EntityMsg) : M unit :=
  (if hasHandler msg then emit (RunHandler (handler_ msg) (loc_from_node_ msg) msg)
   else
     c ← get;
     match local_registered_msg_han_ c !! hid with
     | None => assert_ false
     | Some action => emit (RunRegistered action msg)
     end);;
  if negb (ask_node_ msg =? uninitialized_destination)
  then c ← get; sendEagerUpdate hid (ask_node_ msg) home_node (this_node c)
  else nop.

Definition routeMsgNode (id : EntityID) (home_node to_node : Z) (msg : EntityMsg) : M unit :=
  c ← get;
  if negb (to_node =? this_node c) then
    let ask_node := ask_node_ msg in
    (if negb (ask_node =? uninitialized_destination)
     then modify (fun c => with_asks
            (<[id := default ∅ (loc_asks_ c !! id) ∪ {[ask_node]}]> (loc_asks_ c)) c)
     else nop);;
    emit (Send to_node (Routed (setAskNode (this_node c) msg)))
  else
    emit (Produce (epoch msg));;
    reg ← registered id;
    if (reg : bool) then
      trigger_msg_handler_action id home_node msg;;
      emit (Consume (epoch msg))
    else insertPendingEntityAction id (DeliverWhenFound id home_node msg).

(** The call of a kept function with the node that was found. *)
Definition run_action (node : Z) (a : NodeAction) : M unit :=
  match a with
  | AnswerRequest id home requester => emit (Send requester (UpdateLocation id node home))
  | RouteWhenFound msg =>
      routeMsgNode (entity_id_ msg) (home_node_ msg) node msg;;
      emit (Consume (epoch msg))
  | DeliverWhenFound id home msg =>
      c ← get;
      (if node =? this_node c
       then trigger_msg_handler_action id home msg
       else routeMsgNode id home node msg);;
      emit (Consume (epoch msg))
  | UserAction action => emit (CallUser action node)
  end.

(** [pending_lookups_.extract(id)] and the calls of what it held. *)
Definition run_pending (id : EntityID) (node : Z) : M unit :=
  c ← get;
  match pending_lookups_ c !! id with
  | None => nop
  | Some actions =>
      modify (fun c => with_pending (delete id (pending_lookups_ c)) c);;
      for_each actions (run_action node)
  end.

Definition routeMsgEager (id : EntityID) (home_node : Z) (msg : EntityMsg) : M unit :=
  c ← get;
  found ← registered id;
  route_to_node ←
    (if (found : bool) then
       insert_rec id home_node (MkRec id Local (this_node c));;
       mret (this_node c)
     else if negb (LocLookup.exists_ (recs_ c) id) then
       mret (if negb (home_node =? this_node c) then home_node else this_node c)
     else
       rec ← get_rec id;
       mret (if isLocal rec then this_node c
             else if isRemote rec then getRemoteNode rec
             else uninitialized_destination));
  assert_ (negb (route_to_node =? uninitialized_destination));;
  routeMsgNode id home_node route_to_node msg.

Definition getLocation (id : EntityID) (home_node : Z) (action : NodeAction) : M unit :=
  c ← get;
  reg ← registered id;
  if (reg : bool) then
    insert_rec id home_node (MkRec id Local (this_node c));;
    run_action (this_node c) action
  else if negb (LocLookup.exists_ (recs_ c) id) then
    (if negb (home_node =? this_node c)
     then emit (Send home_node (GetLocationRequest id home_node (this_node c)))
     else nop);;
    insertPendingEntityAction id action
  else
    rec ← get_rec id;
    if isLocal rec then assert_ false;; run_action (this_node c) action
    else if isRemote rec then run_action (getRemoteNode rec) action
    else nop.

Definition getLocationRequest (id : EntityID) (home_node requester : Z) : M unit :=
  getLocation id home_node (AnswerRequest id home_node requester).

Definition updatePendingRequest (id : EntityID) (node home_node : Z) : M unit :=
  insert_rec id home_node (MkRec id Remote node);;
  run_pending id node.

Definition updateLocation (id : EntityID) (answer home_node : Z) : M unit :=
  updatePendingRequest id answer home_node.

Definition handleEagerUpdate (num_nodes : Z) (visit : gset Z -> list Z) (id : EntityID)
    (home_node deliver_node : Z) : M unit :=
  c ← get;
  assert_ (negb (this_node c =? deliver_node));;
  assert_ (negb (home_node =? uninitialized_destination));;
  assert_ (home_node <? num_nodes);;
  insert_rec id home_node (MkRec id Remote deliver_node);;
  match loc_asks_ c !! id with
  | None => nop
  | Some nodes =>
      for_each (visit nodes) (fun ask_node => sendEagerUpdate id ask_node home_node deliver_node);;
      modify (fun c => with_asks (delete id (loc_asks_ c)) c)
  end.

Definition routePreparedMsg (msg : EntityMsg) : M unit :=
  if useEagerProtocol msg
  then routeMsgEager (entity_id_ msg) (home_node_ msg) msg
  else
    emit (Produce (epoch msg));;
    getLocation (entity_id_ msg) (home_node_ msg) (RouteWhenFound msg).

Definition routeMsgHandlerLocal (msg : EntityMsg) : M unit :=
  c ← get; emit (RunHandler (handler_ msg) (this_node c) msg).

Definition routePreparedMsgHandler (msg : EntityMsg) : M unit :=
  reg ← registered (entity_id_ msg);
  if negb reg then routePreparedMsg msg else routeMsgHandlerLocal msg.

(** [setupMessageForRouting<MessageT, f>]; [handler] is the one registered for [f]. *)
Definition setupMessageForRouting (handler : Z) (id : EntityID) (home_node : Z) (msg : EntityMsg)
    : M EntityMsg :=
  c ← get; mret (setRoute id home_node (this_node c) (setHandler handler msg)).

Definition routeMsgHandler (handler : Z) (id : EntityID) (home_node : Z) (msg : EntityMsg) : M unit :=
  msg ← setupMessageForRouting handler id home_node msg;
  routePreparedMsgHandler msg.

Definition routeMsg (id : EntityID) (home_node : Z) (msg : EntityMsg) (from_node : Z) : M unit :=
  c ← get;
  let from := if from_node =? uninitialized_destination then this_node c else from_node in
  routePreparedMsg (setRoute id home_node from msg).

Definition routedHandler (msg : EntityMsg) : M unit :=
  routeMsg (entity_id_ msg) (home_node_ msg) (incHops msg) (loc_from_node_ msg).

Definition routeNonEagerAction (id : EntityID) (home_node action : Z) : M unit :=
  getLocation id home_node (UserAction action).

(** ** Registration and migration *)

Definition registerEntity (id : EntityID) (home : Z) (msg_action : option Z) : M unit :=
  c ← get;
  reg ← registered id;
  assert_ (negb reg);;
  modify (fun c => with_registered ({[id]} ∪ local_registered_ c) c);;
  insert_rec id home (MkRec id Local (this_node c));;
  (match msg_action with
   | Some a => modify (fun c => with_msg_han
       (match local_registered_msg_han_ c !! id with
        | Some _ => local_registered_msg_han_ c        (* emplace keeps an entry *)
        | None => <[id := a]> (local_registered_msg_han_ c)
        end) c)
   | None => nop
   end);;
  run_pending id (this_node c);;
  assert_ (negb (home =? uninitialized_destination));;
  if negb (home =? this_node c)
  then emit (Send home (UpdateLocation id (this_node c) home))
  else nop.

Definition registerEntityRemote (id : EntityID) (home create_node : Z) (msg_action : option Z)
    : M unit :=
  c ← get;
  reg ← registered id;
  assert_ (negb reg);;
  assert_ (home =? this_node c);;
  insert_rec id home (MkRec id Remote create_node);;
  match msg_action with
  | Some a => modify (fun c => with_msg_han
      (match local_registered_msg_han_ c !! id with
       | Some _ => local_registered_msg_han_ c
       | None => <[id := a]> (local_registered_msg_han_ c)
       end) c)
  | None => nop
  end.

Definition unregisterEntity (id : EntityID) : M unit :=
  reg ← registered id;
  assert_ reg;;
  modify (fun c => with_registered (local_registered_ c ∖ {[id]}) c);;
  c ← get;
  (if LocLookup.exists_ (recs_ c) id
   then modify (fun c => with_recs (LocLookup.remove (recs_ c) id) c)
   else nop);;
  modify (fun c => with_msg_han (delete id (local_registered_msg_han_ c)) c).

Definition entityEmigrated (id : EntityID) (new_node : Z) : M unit :=
  modify (fun c => with_registered (local_registered_ c ∖ {[id]}) c);;
  modify (fun c => with_recs (LocLookup.update (recs_ c) id (MkRec id Remote new_node)) c).

Definition entityImmigrated (id : EntityID) (home_node : Z) (msg_action : option Z) : M unit :=
  registerEntity id home_node msg_action.

Definition isCached (id : EntityID) : M bool := c ← get; mret (LocLookup.exists_ (recs_ c) id).
Definition clearCache : M unit := modify (fun c => with_recs (LocLookup.clearCache (recs_ c)) c).

(** The handler a message arrives at. *)
Definition receive (num_nodes : Z) (visit : gset Z -> list Z) (m : LocMsg) : M unit :=
  match m with
  | GetLocationRequest id home requester => getLocationRequest id home requester
  | UpdateLocation id answer home => updateLocation id answer home
  | EagerUpdate id home deliver => handleEagerUpdate num_nodes visit id home deliver
  | Routed msg => routedHandler msg
  end.

End Location.
