(* ===== verification/LocationSystem.v ===== *)
(** * Location of migrating entities, on all nodes

    The coordinators of [Location.v] on [N] nodes with the messages between them,
    driven by what a program can do: register entities, migrate them, route
    messages to them, ask for them, drop a cache. [exec1] runs one event; an
    event that is not enabled gives [None], a failed assertion [Stop].

    [LocationSpec] shows that no message is lost or duplicated and that a waiting
    message holds a unit of its epoch, whatever happens; that messages to an
    entity that stays where it was created all arrive; and two runs that go
    wrong when an entity moves or is created late. *)

From S2P Require Import Prelude.
From S2P Require Import Effects.
From S2P Require Import Sums.
From S2P Require Import Ids.
From S2P Require Import LocationCache.
From S2P Require Import Location.

Module LocationSystem.
Import LocRecord Location.

Section system.
Context (N : Z) (visit : gset Z -> list Z).

(** An entity on its way to another node. *)
Record Transit := MkTransit { t_id : EntityID; t_dest : Z; t_home : Z; t_action : option Z }.

Record Sys := MkSys {
  coords : Z -> Coord;
  net : list (Z * LocMsg);
  moving : list Transit;
  trace : list (Z * output);             (* what nodes did, sends left out *)
  routed : list EntityMsg                (* the messages given to the coordinators *)
}.

Definition init : Sys := MkSys (fun n => make n) [] [] [] [].

Definition sends (os : list output) : list (Z * LocMsg) :=
  omap (fun o => match o with Send d m => Some (d, m) | _ => None end) os.
Definition acts (n : Z) (os : list output) : list (Z * output) :=
  omap (fun o => match o with Send _ _ => None | _ => Some (n, o) end) os.

(** Node [n] performs [m]; [s] is the system with what the event took out. *)
Definition perform (n : Z) (m : M unit) (s : Sys) : res Sys :=
  '(_, c, os) ← m (coords s n);
  Ok (MkSys (<[n := c]> (coords s)) (net s ++ sends os) (moving s) (trace s ++ acts n os) (routed s)).

Inductive event :=
  | Register (n : Z) (id : EntityID) (home : Z) (action : option Z)
  | RegisterRemote (n : Z) (id : EntityID) (create_node : Z) (action : option Z)
  | Unregister (n : Z) (id : EntityID)
  | Emigrate (n : Z) (id : EntityID) (dest home : Z) (action : option Z)
  | Immigrate (k : nat)
  | Route (n : Z) (id : EntityID) (home : Z) (msg : EntityMsg)
  | RouteHandler (n handler : Z) (id : EntityID) (home : Z) (msg : EntityMsg)
  | Lookup (n : Z) (id : EntityID) (home action : Z)
  | ClearCache (n : Z)
  | Deliver (k : nat).

Definition with_moving (t : list Transit) (s : Sys) : Sys :=
  MkSys (coords s) (net s) t (trace s) (routed s).
Definition with_net (l : list (Z * LocMsg)) (s : Sys) : Sys :=
  MkSys (coords s) l (moving s) (trace s) (routed s).
Definition with_routed (m : EntityMsg) (s : Sys) : Sys :=
  MkSys (coords s) (net s) (moving s) (trace s) (routed s ++ [m]).

Definition on_node (n : Z) (r : res Sys) : option (res Sys) :=
  if bool_decide (0 <= n < N) then Some r else None.

(** A message fresh from the program: not routed before. *)
Definition fresh_msg (m : EntityMsg) : EntityMsg :=
  MkMsg (payload m) (epoch m) (size_ m) (needs_serialization m) 0 uninitialized_destination
    uninitialized_destination (handler_ m) 0 uninitialized_destination.

Definition exec1 (s : Sys) (e : event) : option (res Sys) :=
  match e with
  | Register n id home a => on_node n (perform n (registerEntity id home a) s)
  | RegisterRemote n id create_node a => on_node n (perform n (registerEntityRemote id n create_node a) s)
  | Unregister n id => on_node n (perform n (unregisterEntity id) s)
  | Emigrate n id dest home a =>
      if bool_decide (id ∈ local_registered_ (coords s n)) && negb (dest =? n) then
        on_node n (perform n (entityEmigrated id dest)
                     (with_moving (moving s ++ [MkTransit id dest home a]) s))
      else None
  | Immigrate k =>
      match moving s !! k with
      | Some t => on_node (t_dest t) (perform (t_dest t) (entityImmigrated (t_id t) (t_home t) (t_action t))
                                        (with_moving (take k (moving s) ++ drop (S k) (moving s)) s))
      | None => None
      end
  | Route n id home msg =>
      on_node n (perform n (routeMsg id home (fresh_msg msg) uninitialized_destination)
                   (with_routed (fresh_msg msg) s))
  | RouteHandler n han id home msg =>
      on_node n (perform n (routeMsgHandler han id home (fresh_msg msg)) (with_routed (fresh_msg msg) s))
  | Lookup n id home action => on_node n (perform n (routeNonEagerAction id home action) s)
  | ClearCache n => on_node n (perform n clearCache s)
  | Deliver k =>
      match net s !! k with
      | Some (n, m) => on_node n (perform n (receive N visit m)
                                    (with_net (take k (net s) ++ drop (S k) (net s)) s))
      | None => None
      end
  end.

Inductive reach : Sys -> Prop :=
  | reach_init : reach init
  | reach_step s e s' : reach s -> exec1 s e = Some (Ok s') -> reach s'.

Fixpoint exec (s : Sys) (es : list event) : option (res Sys) :=
  match es with
  | [] => Some (Ok s)
  | e :: es =>
      match exec1 s e with
      | Some (Ok s) => exec s es
      | r => r
      end
  end.

Lemma location_exec_reach s es s' : reach s -> exec s es = Some (Ok s') -> reach s'.
Proof.
  revert s. induction es as [|e es IH]; intros s Hr; simpl; [by intros [= <-]|].
  destruct (exec1 s e) as [[s1|]|] eqn:He; [|done..]. apply IH. by eapply reach_step.
Qed.

End system.
End LocationSystem.

(** ** Nothing is lost *)

Create HintDb location.

Module LocationWeight.
Import LocRecord Location LocationSystem.

Section weight.
(** A weight of payloads and one of units of an epoch. *)
Context (wm ue : Z -> Z).

Definition w_msg (m : EntityMsg) : Z := wm (payload m).
Definition w_act (a : NodeAction) : Z :=
  match a with
  | RouteWhenFound m | DeliverWhenFound _ _ m => w_msg m + ue (epoch m)
  | AnswerRequest _ _ _ | UserAction _ => 0
  end.
Definition w_net (m : LocMsg) : Z := match m with Routed m => w_msg m | _ => 0 end.
Definition w_out (o : output) : Z :=
  match o with
  | Send _ m => w_net m
  | RunHandler _ _ m | RunRegistered _ m => w_msg m
  | Produce e => - ue e
  | Consume e => ue e
  | CallUser _ _ => 0
  end.
Definition w_coord (c : Coord) : Z := msum (lsum w_act) (pending_lookups_ c).

(** No entry of the table is invalid: an action waiting on such an entry would be
    dropped. *)
Definition valid (c : Coord) : Prop :=
  LookupFacts.lookup_ok (fun _ r => state_ r <> Invalid) (recs_ c).

(** [m] adds [d]: to what waits on the node or to what it puts out. *)
Definition adds {A} (d : Z) (m : M A) : Prop :=
  forall c a c' o, valid c -> m c = Ok (a, c', o) ->
    (w_coord c' + lsum w_out o = w_coord c + d /\ this_node c' = this_node c) /\ valid c'.

Lemma adds_ret {A} (a : A) : adds 0 (mret a).
Proof. intros c b c' o Hv [= <- <- <-]. do 2 (split; [|done]). simpl. lia. Qed.

Lemma adds_emit x : adds (w_out x) (emit x).
Proof. intros c b c' o Hv [= <- <- <-]. do 2 (split; [|done]). simpl. lia. Qed.

Lemma adds_assert b : adds 0 (assert_ b).
Proof. intros c x c' o Hv [_ [= <- <- <-]]%vtAssert_Ok. do 2 (split; [|done]). simpl. lia. Qed.

Lemma adds_get_ : adds 0 get.
Proof. intros c b c' o Hv [= <- <- <-]. do 2 (split; [|done]). simpl. lia. Qed.

Lemma adds_bind {A B} d1 d2 d (m : M A) (f : A -> M B) :
  adds d1 m -> (forall a, adds d2 (f a)) -> d = d1 + d2 -> adds d (m ≫= f).
Proof.
  intros Hm Hf -> c b c' o Hv H. unfold mbind, eff_bind in H.
  destruct (m c) as [[[a c1] o1]|] eqn:H1; [|done].
  destruct (f a c1) as [[[b' c2] o2]|] eqn:H2; [|done]. injection H as <- <- <-.
  destruct (Hm _ _ _ _ Hv H1) as [[E1 T1] V1]. destruct (Hf _ _ _ _ _ V1 H2) as [[E2 T2] V2].
  rewrite lsum_app. split; [|done]. split; [lia|congruence].
Qed.

(** Reading the state and then going on: the state is known. *)
Lemma adds_get {B} d (f : Coord -> M B) : (forall c, adds d (f c)) -> adds d (get ≫= f).
Proof. intros H. eapply adds_bind; [apply adds_get_|exact H|lia]. Qed.

Lemma adds_modify f :
  (forall c, pending_lookups_ (f c) = pending_lookups_ c /\ this_node (f c) = this_node c /\
             (valid c -> valid (f c))) ->
  adds 0 (modify f).
Proof.
  intros H c b c' o Hv [= <- <- <-]. destruct (H c) as (H1 & H2 & H3). unfold w_coord. rewrite H1.
  simpl. split; [split; [lia|done]|auto].
Qed.

Lemma adds_registered id : adds 0 (registered id).
Proof. unfold registered. apply adds_get. intros c. apply adds_ret. Qed.
Lemma adds_insert_rec id home r : state_ r <> Invalid -> adds 0 (insert_rec id home r).
Proof. intros Hr. apply adds_modify. intros c. split_and!; [done..|]. by intros; apply LookupFacts.lookup_insert_ok. Qed.

(** What is found in the table is not invalid. *)
Lemma adds_get_rec {B} d id (f : LocRecord -> M B) :
  (forall r, state_ r <> Invalid -> adds d (f r)) -> adds d (get_rec id ≫= f).
Proof.
  intros Hf c b c' o Hv H. unfold mbind, eff_bind, get_rec in H.
  destruct (LocLookup.get (recs_ c) id) as [[r l]|] eqn:Hg; [|done].
  destruct (LookupFacts.lookup_get_ok _ _ _ _ _ Hv Hg) as [Hr Hl].
  destruct (f r (with_recs l c)) as [[[b' c2] o2]|] eqn:H2; [|done]. injection H as <- <- <-.
  exact (Hf r Hr (with_recs l c) _ _ _ Hl H2).
Qed.

Lemma adds_if {A} (b : bool) d (m1 m2 : M A) : adds d m1 -> adds d m2 -> adds d (if b then m1 else m2).
Proof. by destruct b. Qed.

Lemma adds_pend id a : adds (w_act a) (insertPendingEntityAction id a).
Proof.
  intros c b c' o Hv [= <- <- <-]. unfold w_coord. simpl. do 2 (split; [|done]).
  rewrite msum_insert, lsum_app, lsum_cons. destruct (pending_lookups_ c !! id); simpl; lia.
Qed.

Lemma adds_for_each {A} (l : list A) (f : A -> M unit) (w : A -> Z) :
  (forall a, adds (w a) (f a)) -> adds (lsum w l) (for_each l f).
Proof.
  intros H. induction l as [|a l IH]; simpl; [apply adds_ret|].
  eapply adds_bind; [apply H|intros _; exact IH|done].
Qed.

#[local] Hint Extern 1 (valid _) =>
  first [assumption | apply LookupFacts.lookup_remove_ok | apply LookupFacts.lookup_clear_ok
        | apply LookupFacts.lookup_update_ok; [|done]] : location.

(** Step by step through an operation; side conditions are sums. *)
Ltac adds_step :=
  match goal with
  | |- adds _ (get ≫= _) => apply adds_get; intros ?
  | |- adds _ (mret _) => apply adds_ret
  | |- adds _ nop => apply adds_ret
  | |- adds _ (assert_ _) => apply adds_assert
  | |- adds _ (insert_rec _ _ _) => apply adds_insert_rec; done
  | |- adds _ (registered _) => apply adds_registered
  | |- adds _ (modify _) => apply adds_modify; intros ?; split_and!; [done..|auto with location]
  | |- adds _ (if _ then _ else _) => apply adds_if
  | |- adds _ (match ?x with _ => _ end) => destruct x
  end.

Lemma adds_sendEagerUpdate id a h d : adds 0 (sendEagerUpdate id a h d).
Proof.
  unfold sendEagerUpdate. repeat adds_step.
  eapply adds_bind; [apply adds_assert|intros _|]; [apply (adds_emit (Send a (EagerUpdate id h d)))|done].
Qed.

Lemma adds_trigger id h msg : adds (w_msg msg) (trigger_msg_handler_action id h msg).
Proof.
  unfold trigger_msg_handler_action. eapply (adds_bind _ 0).
  - adds_step; [apply (adds_emit (RunHandler _ _ msg))|]. adds_step.
    match goal with |- adds _ (match ?x with _ => _ end) => destruct x as [act|] end.
    + apply (adds_emit (RunRegistered act msg)).
    + intros c0 b c' o _ H. discriminate H.
  - intros _. repeat adds_step. apply adds_sendEagerUpdate.
  - simpl. lia.
Qed.

Lemma adds_routeMsgNode id h t msg : adds (w_msg msg) (routeMsgNode id h t msg).
Proof.
  unfold routeMsgNode. adds_step. adds_step.
  - eapply (adds_bind 0); [repeat adds_step|intros _|].
    + apply (adds_emit (Send t (Routed (setAskNode (this_node c) msg)))).
    + done.
  - eapply adds_bind; [apply (adds_emit (Produce (epoch msg)))|intros _|].
    + eapply (adds_bind 0); [adds_step|intros reg|reflexivity].
      apply adds_if; [|apply (adds_pend id (DeliverWhenFound id h msg))].
      eapply adds_bind; [apply adds_trigger|intros _; apply (adds_emit (Consume (epoch msg)))|done].
    + simpl. lia.
Qed.

Lemma adds_run_action node a : adds (w_act a) (run_action node a).
Proof.
  destruct a as [id h r|msg|id h msg|u]; simpl.
  - apply (adds_emit (Send r (UpdateLocation id node h))).
  - eapply adds_bind; [apply adds_routeMsgNode|intros _; apply (adds_emit (Consume (epoch msg)))|done].
  - adds_step. eapply adds_bind; [|intros _; apply (adds_emit (Consume (epoch msg)))|reflexivity].
    apply adds_if; [apply adds_trigger|apply adds_routeMsgNode].
  - apply (adds_emit (CallUser u node)).
Qed.

Lemma adds_run_pending id node : adds 0 (run_pending id node).
Proof.
  intros c [] c' o Hv H. unfold run_pending in H. unfold mbind, eff_bind in H. cbn [get] in H.
  destruct (pending_lookups_ c !! id) as [l|] eqn:Hl; [|exact (adds_ret tt c _ _ _ Hv H)].
  cbn [modify] in H. set (c0 := with_pending _ c) in H.
  destruct (for_each l (run_action node) c0) as [[[[] c2] o2]|] eqn:Hf; [|discriminate H].
  injection H as <- <-.
  destruct (adds_for_each l (run_action node) w_act (adds_run_action node) c0 _ _ _ Hv Hf)
    as [[E1 E2] V].
  do 2 (split; [|done]). simpl. unfold c0, w_coord in E1. simpl in E1.
  rewrite msum_delete, Hl in E1. simpl in E1. unfold w_coord. lia.
Qed.

Lemma adds_getLocation id h a : adds (w_act a) (getLocation id h a).
Proof.
  unfold getLocation. adds_step. eapply (adds_bind 0); [adds_step|intros reg|reflexivity].
  repeat apply adds_if.
  - eapply adds_bind; [adds_step|intros _; apply adds_run_action|done].
  - eapply (adds_bind 0); [|intros _; apply adds_pend|done].
    apply adds_if; [apply (adds_emit (Send h (GetLocationRequest id h (this_node c))))|adds_step].
  - apply adds_get_rec. intros r Hr. destruct r as [i [] n]; [|apply adds_run_action|done].
    eapply adds_bind; [adds_step|intros _; apply adds_run_action|done].
Qed.

Lemma adds_routeMsgEager id h msg : adds (w_msg msg) (routeMsgEager id h msg).
Proof.
  unfold routeMsgEager. adds_step. eapply (adds_bind 0); [adds_step|intros found|reflexivity].
  eapply (adds_bind 0); [|intros to|reflexivity].
  - repeat adds_step; [eapply (adds_bind 0); [adds_step|intros _; adds_step|done]|].
    apply adds_get_rec. intros r _. adds_step.
  - eapply (adds_bind 0); [adds_step|intros _; apply adds_routeMsgNode|done].
Qed.

Lemma adds_updatePendingRequest id node h : adds 0 (updatePendingRequest id node h).
Proof. eapply (adds_bind 0); [adds_step|intros _; apply adds_run_pending|done]. Qed.

Lemma adds_handleEagerUpdate num visit id h d : adds 0 (handleEagerUpdate num visit id h d).
Proof.
  unfold handleEagerUpdate. adds_step.
  do 4 (eapply (adds_bind 0); [adds_step|intros _|reflexivity]). repeat adds_step.
  eapply (adds_bind 0); [|intros _; repeat adds_step|reflexivity].
  rewrite <- (lsum_0 (fun _ : Z => 0) (visit g)) by done.
  apply adds_for_each. intros n. apply adds_sendEagerUpdate.
Qed.

Lemma adds_routePreparedMsg msg : adds (w_msg msg) (routePreparedMsg msg).
Proof.
  unfold routePreparedMsg. adds_step; [apply adds_routeMsgEager|].
  eapply adds_bind; [apply (adds_emit (Produce (epoch msg)))|intros _; apply adds_getLocation|].
  simpl. lia.
Qed.

Lemma adds_routeMsg id h msg from : adds (w_msg msg) (routeMsg id h msg from).
Proof. unfold routeMsg. adds_step. apply (adds_routePreparedMsg (setRoute id h _ msg)). Qed.

Lemma adds_routePreparedMsgHandler msg : adds (w_msg msg) (routePreparedMsgHandler msg).
Proof.
  eapply (adds_bind 0); [adds_step|intros reg|reflexivity].
  adds_step; [apply adds_routePreparedMsg|]. unfold routeMsgHandlerLocal. adds_step.
  apply (adds_emit (RunHandler _ _ msg)).
Qed.

Lemma adds_routeMsgHandler han id h msg : adds (w_msg msg) (routeMsgHandler han id h msg).
Proof.
  intros c b c' o Hv H. unfold routeMsgHandler, mbind, eff_bind in H. cbn [setupMessageForRouting] in H.
  change (setupMessageForRouting han id h msg c)
    with (Ok (setRoute id h (this_node c) (setHandler han msg), c, @nil output)) in H.
  cbv iota beta in H. set (m := setRoute _ _ _ _) in H.
  destruct (routePreparedMsgHandler m c) as [[[b' c2] o2]|] eqn:H2; [|discriminate H].
  injection H as <- <- <-. exact (adds_routePreparedMsgHandler m _ _ _ _ Hv H2).
Qed.

Lemma adds_receive num visit m : adds (w_net m) (receive num visit m).
Proof.
  destruct m; simpl.
  - apply (adds_getLocation id home (AnswerRequest id home requester)).
  - apply adds_updatePendingRequest.
  - apply adds_handleEagerUpdate.
  - apply (adds_routeMsg _ _ (incHops msg)).
Qed.

Lemma adds_registerEntity id h a : adds 0 (registerEntity id h a).
Proof.
  unfold registerEntity. adds_step. eapply (adds_bind 0); [adds_step|intros reg|reflexivity].
  do 6 (eapply (adds_bind 0); [repeat adds_step; apply adds_run_pending|intros _|reflexivity]).
  adds_step; [apply (adds_emit (Send h (UpdateLocation id (this_node c) h)))|adds_step].
Qed.

Lemma adds_registerEntityRemote id h n a : adds 0 (registerEntityRemote id h n a).
Proof.
  unfold registerEntityRemote. adds_step. eapply (adds_bind 0); [adds_step|intros reg|reflexivity].
  do 3 (eapply (adds_bind 0); [adds_step|intros _|reflexivity]). repeat adds_step.
Qed.

Lemma adds_unregisterEntity id : adds 0 (unregisterEntity id).
Proof.
  unfold unregisterEntity. eapply (adds_bind 0); [adds_step|intros reg|reflexivity].
  do 2 (eapply (adds_bind 0); [adds_step|intros _|reflexivity]). adds_step.
  eapply (adds_bind 0); [repeat adds_step|intros _; adds_step|reflexivity].
Qed.

Lemma adds_entityEmigrated id n : adds 0 (entityEmigrated id n).
Proof. eapply (adds_bind 0); [adds_step|intros _; adds_step|done]. Qed.

Lemma adds_clearCache : adds 0 clearCache.
Proof. unfold clearCache. adds_step. Qed.

End weight.
End LocationWeight.

Module LocationConservation.
Import LocRecord Location LocationSystem LocationWeight.

Section conservation.
Context (N : Z) (visit : gset Z -> list Z) (wm ue : Z -> Z).

(** An output of the trace, which has no sends. *)
Definition w_done (o : output) : Z := match o with Send _ _ => 0 | _ => w_out wm ue o end.

(** What waits, is in flight and was put out. *)
Definition total (s : Sys) : Z :=
  zsum N (fun n => w_coord wm ue (coords s n)) + lsum (fun p => w_net wm p.2) (net s)
  + lsum (fun p => w_done p.2) (trace s).

Lemma w_outputs n os :
  lsum (fun p => w_net wm p.2) (sends os) + lsum (fun p => w_done p.2) (acts n os)
  = lsum (w_out wm ue) os.
Proof.
  induction os as [|o os IH]; [done|]. unfold sends, acts in *.
  destruct o; cbn [omap list_omap]; rewrite ?lsum_cons; cbn [snd w_out w_done]; lia.
Qed.

Lemma total_perform n m d s s' :
  0 <= n < N -> adds wm ue d m -> (forall i, valid (coords s i)) -> perform n m s = Ok s' ->
  total s' = total s + d /\ forall i, valid (coords s' i).
Proof.
  intros Hn Hm Hv ([[a c] os] & H & [= <-])%bind_Ok_inv.
  destruct (Hm _ _ _ _ (Hv n) H) as [[E _] Hc]. split.
  - unfold total. cbn [coords net trace]. rewrite !lsum_app.
    pose proof (w_outputs n os) as Ho.
    rewrite (zsum_insert N (fun _ => w_coord wm ue)) by done. lia.
  - intros i. destruct (decide (i = n)) as [->|Hi]; cbn [coords].
    + by rewrite fn_lookup_insert.
    + by rewrite fn_lookup_insert_ne.
Qed.

(** One event: what it puts in is what the program routed. *)
Lemma total_step s e s' :
  (forall i, valid (coords s i)) -> exec1 N visit s e = Some (Ok s') ->
  total s' - lsum (w_msg wm) (routed s') = total s - lsum (w_msg wm) (routed s) /\
  forall i, valid (coords s' i).
Proof.
  intros Hv He.
  assert (forall n m d s1, adds wm ue d m -> total s1 + d - lsum (w_msg wm) (routed s1)
            = total s - lsum (w_msg wm) (routed s) -> coords s1 = coords s ->
          on_node N n (perform n m s1) = Some (Ok s') ->
          total s' - lsum (w_msg wm) (routed s') = total s - lsum (w_msg wm) (routed s) /\
          forall i, valid (coords s' i)) as Hperf.
  { intros n m d s1 Hm Hd Hc Hon. unfold on_node in Hon. case_bool_decide as Hn; [|done].
    injection Hon as Hp.
    destruct (total_perform n m d s1 s' Hn Hm) as [Ht Hv']; [by rewrite Hc|done|].
    split; [|done]. apply bind_Ok_inv in Hp as ([[a c] os] & _ & [= <-]). cbn [routed] in *. lia. }
  assert (forall l, lsum (w_msg wm) (routed s ++ [l]) = lsum (w_msg wm) (routed s) + w_msg wm l) as Hr.
  { intros l. by rewrite lsum_app, lsum_cons, lsum_nil, Z.add_0_r. }
  destruct e as [n id h a|n id k a|n id|n id dst h a|k|n id h m|n han id h m|n id h a|n|k]; simpl in He.
  - eapply Hperf in He; [exact He|apply adds_registerEntity|lia|done].
  - eapply Hperf in He; [exact He|apply adds_registerEntityRemote|lia|done].
  - eapply Hperf in He; [exact He|apply adds_unregisterEntity|lia|done].
  - case_match; [|done]. eapply Hperf in He; [exact He|apply adds_entityEmigrated|..|done].
    unfold total. cbn [coords net moving trace routed with_moving]. lia.
  - destruct (moving s !! k) as [t|]; [|done].
    eapply Hperf in He; [exact He|apply adds_registerEntity|..|done].
    unfold total. cbn [coords net moving trace routed with_moving]. lia.
  - eapply Hperf in He; [exact He|apply adds_routeMsg|..|done].
    unfold total. cbn [coords net moving trace routed with_routed]. rewrite Hr. lia.
  - eapply Hperf in He; [exact He|apply adds_routeMsgHandler|..|done].
    unfold total. cbn [coords net moving trace routed with_routed]. rewrite Hr. lia.
  - eapply Hperf in He; [exact He|apply (adds_getLocation _ _ id h (UserAction a))|simpl; lia|done].
  - eapply Hperf in He; [exact He|apply adds_clearCache|lia|done].
  - destruct (net s !! k) as [[n m]|] eqn:Hk; [|done].
    eapply Hperf in He; [exact He|apply adds_receive|..|done].
    unfold total. cbn [coords net moving trace routed with_net].
    rewrite (lsum_pick _ _ _ _ Hk). simpl. lia.
Qed.

Lemma total_reach s :
  reach N visit s -> total s = lsum (w_msg wm) (routed s) /\ forall i, valid (coords s i).
Proof.
  induction 1 as [|s e s' Hr [IH1 IH2] He].
  - split; [|intros i; apply (LookupFacts.lookup_make _ 4096); lia].
    unfold total. simpl. rewrite zsum_0; [done|]. intros; reflexivity.
  - destruct (total_step s e s' IH2 He) as [E V]. split; [lia|done].
Qed.

End conservation.
End LocationConservation.
