(* ===== verification/LocationStatic.v ===== *)
(** * Messages to an entity that stays where it is

    An entity [id] with home node [H] that is created on node [L] and never
    migrated or unregistered; everything else the program does is free. The
    invariants of the coordinators for such an entity, and that messages to it
    arrive there. *)

From S2P Require Import Prelude.
From S2P Require Import Effects.
From S2P Require Import Sums.
From S2P Require Import Ids.
From S2P Require Import LocationCache.
From S2P Require Import Location.
From S2P Require Import LocationSystem.

Module LocationStatic.
Import LocRecord Location LocationSystem.

Section static.
Context (N : Z) (visit : gset Z -> list Z) (id H L : Z).

(** ** On one node *)

Definition pend (c : Coord) : list NodeAction := default [] (pending_lookups_ c !! id).
(** The directory has an entry for the entity; it is never evicted. *)
Definition known (c : Coord) : Prop :=
  is_Some ((LocLookup.directory_ (recs_ c) : gmap Z LocRecord) !! id).

Definition act_ok (k : Z) (a : NodeAction) : Prop :=
  match a with
  | AnswerRequest i h _ => i = k /\ (k = id -> h = H)
  | RouteWhenFound m => entity_id_ m = k /\ (k = id -> home_node_ m = H)
  | DeliverWhenFound i h m => i = k /\ entity_id_ m = k /\ (k = id -> h = H /\ home_node_ m = H)
  | UserAction _ => True
  end.

(** [R]: the entity has been registered. *)
Definition msg_ok (R : Prop) (d : Z) (m : LocMsg) : Prop :=
  match m with
  | GetLocationRequest i h _ => i = id -> h = H /\ d = H
  | UpdateLocation i a h | EagerUpdate i h a => i = id -> a = L /\ h = H /\ R
  | Routed m => entity_id_ m = id -> home_node_ m = H /\ (d = H \/ d = L)
  end.
Definition out_ok (R : Prop) (n : Z) (o : output) : Prop :=
  match o with
  | Send d m => msg_ok R d m
  | RunHandler _ _ m | RunRegistered _ m => entity_id_ m = id -> n = L /\ R
  | _ => True
  end.
Definition rec_ok (R : Prop) (n k : Z) (r : LocRecord) : Prop :=
  k = id -> R /\ match state_ r with Local => n = L | Remote => cur_node_ r = L | Invalid => False end.

Record node_ok (R : Prop) (n : Z) (c : Coord) : Prop := {
  no_node : this_node c = n;
  no_table : LocLookup.this_node_ (recs_ c) = n;
  no_reg : id ∈ local_registered_ c <-> n = L /\ R;
  no_recs : LookupFacts.lookup_ok (rec_ok R n) (recs_ c);
  no_pend k l a : pending_lookups_ c !! k = Some l -> a ∈ l -> act_ok k a;
  no_settled : n = L -> R -> pend c = []
}.

Definition answer (r : Z) : output := Send r (UpdateLocation id L H).

(** What an operation on node [n] may do: from [c] to [c'] with outputs [os]. *)
Record step_ok (R : Prop) (n : Z) (c c' : Coord) (os : list output) : Prop := {
  so_node : node_ok R n c';
  so_outs : Forall (out_ok R n) os;
  so_answer r : AnswerRequest id H r ∈ pend c -> AnswerRequest id H r ∈ pend c' \/ answer r ∈ os;
  so_ask : pend c' <> [] ->
    pend c <> [] \/ (n = H /\ ~ known c) \/ (n <> H /\ Send H (GetLocationRequest id H n) ∈ os);
  so_known : known c -> known c'
}.

(** One that leaves what is kept for the entity. *)
Definition quiet_ok (R : Prop) (n : Z) (c c' : Coord) (os : list output) : Prop :=
  step_ok R n c c' os /\ pend c' = pend c.

Lemma step_ok_trans R n c c1 c2 o1 o2 :
  step_ok R n c c1 o1 -> step_ok R n c1 c2 o2 -> step_ok R n c c2 (o1 ++ o2).
Proof.
  intros [A1 A2 A3 A4 A5] [B1 B2 B3 B4 B5]. split; [done|by apply Forall_app|..|auto].
  - intros r [Hr|Hr]%A3; rewrite elem_of_app; [|auto]. apply B3 in Hr as [?|?]; auto.
  - intros [Hp|[[-> Hk]|[Hn Hs]]]%B4; [apply A4 in Hp as [?|[?|[? ?]]]; auto|auto|].
    + right. right. rewrite elem_of_app. auto.
    + right. left. auto.
    + right. right. rewrite elem_of_app. auto.
Qed.

Lemma quiet_ok_trans R n c c1 c2 o1 o2 :
  quiet_ok R n c c1 o1 -> quiet_ok R n c1 c2 o2 -> quiet_ok R n c c2 (o1 ++ o2).
Proof. intros [A P] [B Q]. split; [by eapply step_ok_trans|congruence]. Qed.

Lemma quiet_node R n c c' os : quiet_ok R n c c' os -> node_ok R n c'.
Proof. intros [A _]. apply A. Qed.

(** A change to nothing but the table, or to what the invariant does not see. *)
Lemma quiet_change R n c c' :
  node_ok R n c -> this_node c' = this_node c -> local_registered_ c' = local_registered_ c ->
  pending_lookups_ c' = pending_lookups_ c ->
  LocLookup.this_node_ (recs_ c') = LocLookup.this_node_ (recs_ c) ->
  LookupFacts.lookup_ok (rec_ok R n) (recs_ c') -> (known c -> known c') ->
  quiet_ok R n c c' [].
Proof.
  intros [H1 H2 H3 H4 H5 H6] E1 E2 E3 E4 Hl Hk. assert (pend c' = pend c) as Hp by (unfold pend; by rewrite E3).
  split; [|done]. split; rewrite ?Hp; auto.
  split; rewrite ?E1, ?E2, ?E3, ?E4, ?Hp; auto.
Qed.

Lemma quiet_emit R n c os : node_ok R n c -> Forall (out_ok R n) os -> quiet_ok R n c c os.
Proof. intros Hc Ho. split; [|done]. split; auto. Qed.

(** [m] from [c], when it does not stop. *)
Definition does {A} (c : Coord) (m : M A) (Q : A -> Coord -> list output -> Prop) : Prop :=
  forall a c' os, m c = Ok (a, c', os) -> Q a c' os.

Lemma does_bind {A B} c (m : M A) (f : A -> M B) Q1 (Q : B -> Coord -> list output -> Prop) :
  does c m Q1 ->
  (forall a c1 o1, Q1 a c1 o1 -> does c1 (f a) (fun b c2 o2 => Q b c2 (o1 ++ o2))) ->
  does c (m ≫= f) Q.
Proof.
  intros Hm Hf b c' os E. unfold mbind, eff_bind in E.
  destruct (m c) as [[[a c1] o1]|] eqn:H1; [|done].
  destruct (f a c1) as [[[b' c2] o2]|] eqn:H2; [|done]. injection E as <- <- <-.
  exact (Hf _ _ _ (Hm _ _ _ H1) _ _ _ H2).
Qed.

Lemma does_weaken {A} c (m : M A) (Q1 Q : A -> Coord -> list output -> Prop) :
  does c m Q1 -> (forall a c' os, Q1 a c' os -> Q a c' os) -> does c m Q.
Proof. intros Hm HQ a c' os E. auto. Qed.

Lemma does_get {B} c (f : Coord -> M B) Q : does c (f c) Q -> does c (get ≫= f) Q.
Proof.
  intros Hf b c' os E. unfold mbind, eff_bind, get in E.
  destruct (f c c) as [[[b' c2] o2]|] eqn:H2; [|done]. injection E as <- <- <-. by apply Hf.
Qed.

Lemma does_registered {B} c k (f : bool -> M B) Q :
  does c (f (bool_decide (k ∈ local_registered_ c))) Q -> does c (registered k ≫= f) Q.
Proof.
  intros Hf b c' os E. unfold registered, mbind, eff_bind, get, mret, eff_ret in E.
  destruct (f _ c) as [[[b' c2] o2]|] eqn:H2; [|done]. injection E as <- <- <-. by apply Hf.
Qed.

Lemma does_assert {B} c b (f : unit -> M B) Q : (b = true -> does c (f tt) Q) -> does c (assert_ b ≫= f) Q.
Proof.
  intros Hf x c' os E. unfold mbind, eff_bind, assert_, vtAssert in E. destruct b; [|done].
  destruct (f tt c) as [[[b' c2] o2]|] eqn:H2; [|done]. injection E as <- <- <-. by apply Hf.
Qed.

Lemma does_emit c o (Q : unit -> Coord -> list output -> Prop) : Q tt c [o] -> does c (emit o) Q.
Proof. by intros HQ a c' os [= <- <- <-]. Qed.
Lemma does_modify c g (Q : unit -> Coord -> list output -> Prop) : Q tt (g c) [] -> does c (modify g) Q.
Proof. by intros HQ a c' os [= <- <- <-]. Qed.
Lemma does_ret {A} c (a : A) (Q : A -> Coord -> list output -> Prop) : Q a c [] -> does c (mret a) Q.
Proof. by intros HQ b c' os [= <- <- <-]. Qed.

(** ** Delivery *)

(** The entity [k], as the operations name it. *)
Section one_node.
Context (R : Prop) (n : Z).

Definition quiet {A} (m : M A) : Prop :=
  forall c, node_ok R n c -> does c m (fun _ c' os => quiet_ok R n c c' os).

Lemma quiet_bind {A B} (m : M A) (f : A -> M B) : quiet m -> (forall a, quiet (f a)) -> quiet (m ≫= f).
Proof.
  intros Hm Hf c Hc. eapply does_bind; [by apply Hm|]. intros a c1 o1 H1.
  eapply does_weaken; [apply Hf; exact (quiet_node _ _ _ _ _ H1)|]. intros b c2 o2 H2. exact (quiet_ok_trans _ _ _ _ _ _ _ H1 H2).
Qed.

Lemma quiet_get {B} (f : Coord -> M B) :
  (forall c, this_node c = n -> quiet (f c)) -> quiet (get ≫= f).
Proof. intros Hf c Hc. apply does_get. apply Hf; [apply Hc|done]. Qed.

Lemma quiet_ret {A} (a : A) : quiet (mret a).
Proof. intros c Hc. apply does_ret. by apply quiet_emit. Qed.

Lemma quiet_out o : out_ok R n o -> quiet (emit o).
Proof. intros Ho c Hc. apply does_emit. apply quiet_emit; auto. Qed.

Lemma quiet_assert b : quiet (assert_ b).
Proof. intros c Hc a c' os [_ [= <- <- <-]]%vtAssert_Ok. by apply quiet_emit. Qed.

Lemma quiet_asks g : quiet (modify (fun c => with_asks (g c) c)).
Proof. intros c Hc. apply does_modify. apply quiet_change; try done. apply Hc. Qed.

Lemma quiet_msg_han g : quiet (modify (fun c => with_msg_han (g c) c)).
Proof. intros c Hc. apply does_modify. apply quiet_change; try done. apply Hc. Qed.

Lemma quiet_recs g :
  (forall l, LookupFacts.lookup_ok (rec_ok R n) l -> LookupFacts.lookup_ok (rec_ok R n) (g l) /\
     LocLookup.this_node_ (g l) = LocLookup.this_node_ l /\
     (is_Some ((LocLookup.directory_ l : gmap Z LocRecord) !! id) ->
      is_Some ((LocLookup.directory_ (g l) : gmap Z LocRecord) !! id))) ->
  quiet (modify (fun c => with_recs (g (recs_ c)) c)).
Proof.
  intros Hg c Hc. apply does_modify. destruct (Hg _ (no_recs _ _ _ Hc)) as (H1 & H2 & H3).
  by apply quiet_change.
Qed.

Lemma quiet_insert_rec k h r : rec_ok R n k r -> quiet (insert_rec k h r).
Proof.
  intros Hr. apply (quiet_recs (fun l => LocLookup.insert l k h r)). intros l Hl.
  split; [by apply LookupFacts.lookup_insert_ok|]. unfold LocLookup.insert. case_match; [|done].
  simpl. unfold Directory.insert. split; [done|]. intros Hd. apply lookup_insert_is_Some'. by right.
Qed.

(** The record that is found. *)
Lemma does_get_rec k c :
  node_ok R n c -> does c (get_rec k) (fun r c1 o1 => rec_ok R n k r /\ quiet_ok R n c c1 o1).
Proof.
  intros Hc r c' os E. unfold get_rec in E. destruct (LocLookup.get (recs_ c) k) as [[r' l]|] eqn:Hg; [|done].
  injection E as <- <- <-. destruct (LookupFacts.lookup_get_ok _ _ _ _ _ (no_recs _ _ _ Hc) Hg) as [Hr Hl].
  split; [done|]. apply quiet_change; try done; unfold known; cbn [recs_ with_recs];
    unfold LocLookup.get in Hg; case_match; [by injection Hg as <- <-| |by injection Hg as <- <-|];
    by apply bind_Ok_inv in Hg as ([? ?] & _ & [= <- <-]).
Qed.

Lemma quiet_get_rec {B} k (f : LocRecord -> M B) :
  (forall r, rec_ok R n k r -> quiet (f r)) -> quiet (get_rec k ≫= f).
Proof.
  intros Hf c Hc. eapply does_bind; [by apply does_get_rec|].
  intros r c1 o1 [Hr H1]. eapply does_weaken; [apply Hf; [done|exact (quiet_node _ _ _ _ _ H1)]|].
  intros b c2 o2 H2. exact (quiet_ok_trans _ _ _ _ _ _ _ H1 H2).
Qed.

Lemma quiet_if {A} (b : bool) (m1 m2 : M A) :
  (b = true -> quiet m1) -> (b = false -> quiet m2) -> quiet (if b then m1 else m2).
Proof. destruct b; auto. Qed.

Lemma quiet_for_each {A} (l : list A) (f : A -> M unit) :
  (forall a, a ∈ l -> quiet (f a)) -> quiet (for_each l f).
Proof.
  induction l as [|a l IH]; intros Hf; simpl; [apply quiet_ret|].
  apply quiet_bind; [apply Hf; left|intros _; apply IH]. intros b Hb. apply Hf. by right.
Qed.

Lemma quiet_sendEagerUpdate k ask h d :
  (k = id -> d = L /\ h = H /\ R) -> quiet (sendEagerUpdate k ask h d).
Proof.
  intros Hk. apply quiet_get. intros c _. apply quiet_if; intros _; [|apply quiet_ret].
  apply quiet_bind; [apply quiet_assert|intros _]. by apply quiet_out.
Qed.

Lemma quiet_trigger k h msg :
  entity_id_ msg = k -> (k = id -> n = L /\ R /\ h = H) -> quiet (trigger_msg_handler_action k h msg).
Proof.
  intros Hm Hk. apply quiet_bind.
  - apply quiet_if; intros _; [apply quiet_out; simpl; rewrite Hm; naive_solver|].
    apply quiet_get. intros c _. destruct (local_registered_msg_han_ c !! k); [|apply quiet_assert].
    apply quiet_out. simpl. rewrite Hm. naive_solver.
  - intros _. apply quiet_if; intros _; [|apply quiet_ret]. apply quiet_get. intros c ->.
    apply quiet_sendEagerUpdate. naive_solver.
Qed.

(** Keeping something for another entity. *)
Lemma quiet_pend k a : act_ok k a -> k <> id -> quiet (insertPendingEntityAction k a).
Proof.
  intros Ha Hk c Hc. apply does_modify. set (p := <[k := _]> _).
  assert (pend (with_pending p c) = pend c) as Hp by (unfold pend, p; simpl; by rewrite lookup_insert_ne).
  split; [|done]. split; rewrite ?Hp; auto; [].
  destruct Hc as [H1 H2 H3 H4 H5 H6]. split; rewrite ?Hp; auto; [].
  intros k' l b. cbn [pending_lookups_ with_pending]. unfold p.
  intros [[<- <-]|[_ Hl]]%lookup_insert_Some; [|by apply H5].
  rewrite elem_of_app, list_elem_of_singleton. intros [Hb| ->]; [|done].
  destruct (pending_lookups_ c !! k) as [l|] eqn:Hl; [|by apply not_elem_nil in Hb]. by apply (H5 k l).
Qed.

Lemma quiet_route_send k t msg :
  (k = id -> home_node_ msg = H /\ (t = H \/ t = L)) -> entity_id_ msg = k ->
  quiet (c ← get;
         let ask_node := ask_node_ msg in
         (if negb (ask_node =? uninitialized_destination)
          then modify (fun c => with_asks
                 (<[k := default ∅ (loc_asks_ c !! k) ∪ {[ask_node]}]> (loc_asks_ c)) c)
          else nop);;
         emit (Send t (Routed (setAskNode (this_node c) msg)))).
Proof.
  intros Hh He. apply quiet_get. intros c _. apply quiet_bind.
  - apply quiet_if; intros _; [|apply quiet_ret].
    apply (quiet_asks (fun c => <[k := default ∅ (loc_asks_ c !! k) ∪ {[ask_node_ msg]}]> (loc_asks_ c))).
  - intros _. apply quiet_out. simpl. naive_solver.
Qed.

Lemma quiet_routeMsgNode k h t msg :
  entity_id_ msg = k ->
  (k = id -> h = H /\ home_node_ msg = H /\ (t = H \/ t = L) /\ (t = n -> n = L /\ R)) ->
  quiet (routeMsgNode k h t msg).
Proof.
  intros He Hk c Hc. apply does_get.
  destruct (t =? this_node c) eqn:Ht; cbn [negb].
  - apply Z.eqb_eq in Ht. rewrite (no_node _ _ _ Hc) in Ht.
    apply (quiet_bind (emit (Produce (epoch msg)))); [by apply quiet_out|intros _|done].
    clear c Hc. intros c Hc. apply does_registered. case_bool_decide as Hr.
    + apply quiet_bind; [|intros _; by apply quiet_out|done]. apply quiet_trigger; [done|]. naive_solver.
    + apply quiet_pend; [|intros ->|done]; [simpl; naive_solver|].
      apply Hr, (no_reg _ _ _ Hc). naive_solver.
  - pose proof (quiet_route_send k t msg ltac:(naive_solver) He c Hc) as Q.
    intros a c' os E. apply (Q a c' os). unfold mbind at 1, eff_bind at 1, get. by rewrite E.
Qed.

Lemma quiet_run_action k t a :
  act_ok k a -> (k = id -> t = L /\ R) -> quiet (run_action t a).
Proof.
  intros Ha Hk. destruct a as [i h r|msg|i h msg|u]; simpl in Ha |- *.
  - apply quiet_out. simpl. naive_solver.
  - destruct Ha as [<- Ha]. apply quiet_bind; [|intros _; by apply quiet_out].
    apply quiet_routeMsgNode; naive_solver.
  - destruct Ha as (-> & He & Ha). apply quiet_get. intros c Hc. apply quiet_bind; [|intros _; by apply quiet_out].
    rewrite Hc. apply quiet_if; intros Ht; [apply Z.eqb_eq in Ht|apply Z.eqb_neq in Ht].
    + apply quiet_trigger; naive_solver.
    + apply quiet_routeMsgNode; naive_solver.
  - by apply quiet_out.
Qed.

(** Running what was kept answers the requests among it. *)
Lemma for_each_answers l c :
  does c (for_each l (run_action L)) (fun _ _ os => forall r, AnswerRequest id H r ∈ l -> answer r ∈ os).
Proof.
  revert c. induction l as [|a l IH]; intros c; cbn [for_each].
  - apply does_ret. by intros r ?%not_elem_nil.
  - eapply (does_bind _ _ _ (fun _ _ o1 => forall r, a = AnswerRequest id H r -> answer r ∈ o1)).
    + intros [] c' os E r ->. injection E as _ <-. left.
    + intros [] c1 o1 Ha. eapply does_weaken; [apply IH|]. intros ? c2 o2 Hl r.
      rewrite elem_of_cons, elem_of_app. intros [Hr|Hr]; auto.
Qed.

Definition take_pending (k : Z) (c : Coord) : Coord := with_pending (delete k (pending_lookups_ c)) c.

Lemma pend_take c : pend (take_pending id c) = [].
Proof. unfold pend, take_pending. simpl. by rewrite lookup_delete_eq. Qed.

Lemma run_pending_ok k t c :
  node_ok R n (take_pending k c) -> (k = id -> t = L /\ R) ->
  (forall l a, pending_lookups_ c !! k = Some l -> a ∈ l -> act_ok k a) ->
  does c (run_pending k t) (fun _ c' os =>
    quiet_ok R n (take_pending k c) c' os /\
    (k = id -> forall r, AnswerRequest id H r ∈ pend c -> answer r ∈ os)).
Proof.
  intros Hc Hk Ha. apply does_get. destruct (pending_lookups_ c !! k) as [l|] eqn:Hl.
  - eapply does_bind; [by apply (does_modify _ _ (fun _ c1 o1 => c1 = take_pending k c /\ o1 = []))|].
    intros _ c1 o1 [-> ->] a c' os E. split.
    + apply (quiet_for_each l (run_action t)) in E; [done| |done].
      intros b Hb. apply (quiet_run_action k); [|done]. by apply (Ha l).
    + intros ->. unfold pend. rewrite Hl. destruct Hk as [-> _]; [done|].
      exact (for_each_answers l _ _ _ _ E).
  - apply does_ret. split; [|intros ->; unfold pend; rewrite Hl; by intros r ?%not_elem_nil].
    destruct c as [tn mh lr rc pl la]. unfold take_pending in *. simpl in *.
    rewrite (delete_id pl k Hl) in *. by apply quiet_emit.
Qed.

(** ** Asking and routing *)

Definition steps {A} (m : M A) : Prop :=
  forall c, node_ok R n c -> does c m (fun _ c' os => step_ok R n c c' os).

Lemma quiet_steps {A} (m : M A) : quiet m -> steps m.
Proof. intros Hm c Hc a c' os E. by destruct (Hm c Hc a c' os E). Qed.

(** Keeping something for the entity: [o] is what was put out before. *)
Lemma step_pend c a o :
  node_ok R n c -> act_ok id a -> ~ (n = L /\ R) -> Forall (out_ok R n) o ->
  (n = H -> ~ known c) -> (n <> H -> Send H (GetLocationRequest id H n) ∈ o) ->
  does c (insertPendingEntityAction id a) (fun _ c' os => step_ok R n c c' (o ++ os) /\ a ∈ pend c').
Proof.
  intros Hc Ha Hn Ho Hk Hs. apply does_modify. set (p := <[id := _]> _). rewrite app_nil_r.
  assert (pend (with_pending p c) = pend c ++ [a]) as Hp by (unfold pend, p; simpl; by rewrite lookup_insert_eq).
  split; [|rewrite Hp; apply elem_of_app; right; by left].
  split; [|done|rewrite Hp|..|done].
  - destruct Hc as [H1 H2 H3 H4 H5 H6]. split; auto; [|naive_solver].
    intros k' l b. cbn [pending_lookups_ with_pending]. unfold p.
    intros [[<- <-]|[_ Hl]]%lookup_insert_Some; [|by apply H5].
    rewrite elem_of_app, list_elem_of_singleton. intros [Hb| ->]; [|done].
    destruct (pending_lookups_ c !! id) as [l|] eqn:Hl; [|by apply not_elem_nil in Hb]. by apply (H5 id l).
  - intros r Hr. left. apply elem_of_app. by left.
  - intros _. destruct (decide (n = H)); auto.
Qed.

Lemma run_action_answers t a c :
  does c (run_action t a) (fun _ _ os => t = L -> forall r, a = AnswerRequest id H r -> answer r ∈ os).
Proof. intros [] c' os E -> r ->. injection E as _ <-. left. Qed.

Lemma does_and {A} c (m : M A) (Q1 Q2 : A -> Coord -> list output -> Prop) :
  does c m Q1 -> does c m Q2 -> does c m (fun a c' os => Q1 a c' os /\ Q2 a c' os).
Proof. intros H1 H2 a c' os E. split; auto. Qed.

(** An action run with the entity's place, after [o] was put out. *)
Lemma run_here k t a c c0 o :
  quiet_ok R n c0 c o -> act_ok k a -> (k = id -> t = L /\ R) ->
  does c (run_action t a) (fun _ c' os => step_ok R n c0 c' (o ++ os) /\
    (k = id -> forall r, a = AnswerRequest id H r -> AnswerRequest id H r ∈ pend c' \/ answer r ∈ o ++ os)).
Proof.
  intros H0 Ha Hk. eapply does_weaken.
  - apply does_and; [apply (quiet_run_action k t a Ha Hk _ (quiet_node _ _ _ _ _ H0))|apply run_action_answers].
  - intros u c' os [Hq Hr]. split; [exact (proj1 (quiet_ok_trans _ _ _ _ _ _ _ H0 Hq))|].
    intros Hid r Hra. right. apply elem_of_app. right. apply Hr; [|done]. by apply Hk.
Qed.

Lemma unknown c k : LocLookup.exists_ (recs_ c) k = false -> k = id -> ~ known c.
Proof.
  intros He -> Hk. unfold LocLookup.exists_, Directory.exists_ in He.
  rewrite bool_decide_true in He; done.
Qed.

Lemma getLocation_ok k h a c :
  node_ok R n c -> (k = id -> h = H) -> act_ok k a ->
  does c (getLocation k h a) (fun _ c' os => step_ok R n c c' os /\
    (k = id -> forall r, a = AnswerRequest id H r -> AnswerRequest id H r ∈ pend c' \/ answer r ∈ os)).
Proof.
  intros Hc Hh Ha. apply does_get, does_registered. rewrite (no_node _ _ _ Hc). case_bool_decide as Hr.
  - assert (k = id -> n = L /\ R) as Hk by (intros ->; by apply (no_reg _ _ _ Hc)).
    eapply does_bind; [apply (quiet_insert_rec k h); [|exact Hc]; intros Hid; naive_solver|].
    intros ? c1 o1 H1. exact (run_here k n a _ _ _ H1 Ha Hk).
  - assert (k = id -> ~ (n = L /\ R)) as Hk.
    { intros -> Hn. by apply Hr, (no_reg _ _ _ Hc). }
    destruct (LocLookup.exists_ (recs_ c) k) eqn:He; cbn [negb].
    + eapply does_bind; [by apply does_get_rec|]. intros [i [] cur] c1 o1 [Hrec H1]; unfold rec_ok in Hrec; simpl.
      * by apply does_assert.
      * apply (run_here k); naive_solver.
      * apply does_ret. rewrite app_nil_r. split; [apply H1|naive_solver].
    + destruct (decide (k = id)) as [->|Hne].
      * rewrite Hh by done. clear Hh.
        eapply (does_bind _ _ _ (fun _ c1 o1 => c1 = c /\ Forall (out_ok R n) o1 /\
                   (n <> H -> Send H (GetLocationRequest id H n) ∈ o1))).
        -- destruct (Z.eqb_spec H n); [apply does_ret; naive_solver|]. apply does_emit. split; [done|].
           split; [|intros _; by left]. apply Forall_singleton. simpl. naive_solver.
        -- intros _ c1 o1 (-> & Ho & Hs). eapply does_weaken.
           ++ apply (step_pend c a o1); auto; []. intros _. by apply (unknown c id).
           ++ intros ? c' os [Hst Hp]. split; [done|]. intros _ r ->. by left.
      * eapply does_weaken; [|intros ? c' os Hst; split; [exact Hst|by intros ->]].
        apply quiet_steps; [|done]. apply quiet_bind; [|intros _; by apply quiet_pend].
        apply quiet_if; intros _; [|apply quiet_ret]. by apply quiet_out.
Qed.

(** At home, before anything is known: the message is kept. *)
Lemma routeMsgNode_home msg c :
  node_ok R n c -> n = H -> ~ known c -> ~ (n = L /\ R) -> entity_id_ msg = id -> home_node_ msg = H ->
  does c (routeMsgNode id H n msg) (fun _ c' os => step_ok R n c c' os).
Proof.
  intros Hc Hn Hk Hl He Hh. apply does_get. rewrite (no_node _ _ _ Hc), Z.eqb_refl. cbn [negb].
  eapply does_bind; [by apply (does_emit _ _ (fun _ c1 o1 => c1 = c /\ o1 = [Produce (epoch msg)]))|].
  intros _ c1 o1 [-> ->]. apply does_registered. rewrite bool_decide_false by (by rewrite (no_reg _ _ _ Hc)).
  eapply does_weaken; [apply (step_pend c (DeliverWhenFound id H msg) [Produce (epoch msg)]); auto|].
  - simpl. naive_solver.
  - by apply Forall_singleton.
  - done.
  - intros ? c' os [Hst _]. exact Hst.
Qed.

(** Where a message may be sent from [c]. *)
Definition goes (k to : Z) (c : Coord) : Prop :=
  k = id -> (to = H \/ to = L) /\ (to = n -> (n = L /\ R) \/ (n = H /\ ~ known c /\ ~ (n = L /\ R))).

Lemma routeMsgNode_ok k h to msg c :
  node_ok R n c -> entity_id_ msg = k -> (k = id -> h = H /\ home_node_ msg = H) -> goes k to c ->
  does c (routeMsgNode k h to msg) (fun _ c' os => step_ok R n c c' os).
Proof.
  intros Hc He Hk Hg. destruct (decide (k = id /\ to = n)) as [[-> ->]|Hne].
  - destruct Hg as [_ [Hl|(Hn & Hu & Hl)]]; [done|done| |].
    + apply quiet_steps; [|done]. apply quiet_routeMsgNode; naive_solver.
    + destruct Hk as [-> Hh]; [done|]. by apply routeMsgNode_home.
  - apply quiet_steps; [|done]. apply quiet_routeMsgNode; [done|].
    intros Hid. destruct (Hg Hid), (Hk Hid). naive_solver.
Qed.

Lemma after_quiet {A B} c (m : M A) (f : A -> M B) (Q1 : A -> Coord -> Prop) :
  does c m (fun a c1 o1 => quiet_ok R n c c1 o1 /\ Q1 a c1) ->
  (forall a c1, node_ok R n c1 -> Q1 a c1 -> does c1 (f a) (fun _ c2 o2 => step_ok R n c1 c2 o2)) ->
  does c (m ≫= f) (fun _ c' os => step_ok R n c c' os).
Proof.
  intros Hm Hf. eapply does_bind; [exact Hm|]. intros a c1 o1 [H1 HQ].
  eapply does_weaken; [apply Hf; [exact (quiet_node _ _ _ _ _ H1)|exact HQ]|].
  intros b c2 o2 H2. eapply step_ok_trans; [apply H1|exact H2].
Qed.

Lemma steps_routeMsgEager k h msg :
  entity_id_ msg = k -> (k = id -> h = H /\ home_node_ msg = H) -> steps (routeMsgEager k h msg).
Proof.
  intros He Hk c Hc. apply does_get, does_registered. rewrite (no_node _ _ _ Hc).
  assert (k = id -> k ∉ local_registered_ c -> ~ (n = L /\ R)) as Hr.
  { intros -> Hr Hn. by apply Hr, (no_reg _ _ _ Hc). }
  apply (after_quiet _ _ _ (goes k)).
  - case_bool_decide as Hreg.
    + assert (k = id -> n = L /\ R) as Hl by (intros ->; by apply (no_reg _ _ _ Hc)).
      eapply does_bind; [apply (quiet_insert_rec k h); [|exact Hc]; intros Hid; naive_solver|].
      intros ? c1 o1 H1. apply does_ret. rewrite app_nil_r. split; [exact H1|]. intros Hid. destruct (Hl Hid) as [-> HR]. auto.
    + destruct (LocLookup.exists_ (recs_ c) k) eqn:Hex; cbn [negb].
      * eapply does_bind; [by apply does_get_rec|]. intros r c1 o1 [Hrec H1]. apply does_ret.
        rewrite app_nil_r. split; [exact H1|]. intros Hid. destruct (Hrec Hid) as [HR Hs].
        unfold isLocal, isRemote, getRemoteNode. destruct (state_ r); naive_solver.
      * apply does_ret. split; [by apply quiet_emit|]. intros Hid. destruct (Hk Hid) as [-> _].
        assert (~ known c) as Hu by (by eapply unknown). specialize (Hr Hid Hreg).
        destruct (Z.eqb_spec H n) as [E|E]; cbn [negb]; [|naive_solver]. subst n. auto 8.
  - intros to c1 Hc1 Hg. apply does_assert. intros _. by apply routeMsgNode_ok.
Qed.

Lemma steps_routePreparedMsg msg :
  (entity_id_ msg = id -> home_node_ msg = H) -> steps (routePreparedMsg msg).
Proof.
  intros Hm c Hc. unfold routePreparedMsg. destruct (useEagerProtocol msg).
  - apply steps_routeMsgEager; auto.
  - apply (after_quiet _ _ _ (fun _ _ => True)).
    + apply does_emit. split; [|done]. apply quiet_emit; [done|by apply Forall_singleton].
    + intros _ c1 Hc1 _. eapply does_weaken; [apply getLocation_ok; [done|done|]|].
      * simpl. auto.
      * intros ? c' os [Hst _]. exact Hst.
Qed.

Lemma steps_routeMsg k h msg from : (k = id -> h = H) -> steps (routeMsg k h msg from).
Proof. intros Hk c Hc. apply does_get. by apply (steps_routePreparedMsg (setRoute k h _ msg)). Qed.

Lemma steps_routeMsgHandler han k h msg : (k = id -> h = H) -> steps (routeMsgHandler han k h msg).
Proof.
  intros Hk c Hc. unfold routeMsgHandler, setupMessageForRouting.
  apply (after_quiet _ _ _ (fun m c1 => c1 = c /\ entity_id_ m = k /\ home_node_ m = h)).
  { apply does_get, does_ret. split; [by apply quiet_emit|done]. }
  intros m c1 _ (-> & He & Hh). apply does_registered. rewrite He. case_bool_decide as Hr; cbn [negb].
  - apply quiet_steps; [|done]. apply quiet_get. intros c1 _. apply quiet_out. simpl. rewrite He. intros ->.
    by apply (no_reg _ _ _ Hc).
  - apply steps_routePreparedMsg; [|done]. rewrite He, Hh. done.
Qed.

Lemma steps_routeNonEager k h u : (k = id -> h = H) -> steps (routeNonEagerAction k h u).
Proof.
  intros Hk c Hc. eapply does_weaken; [by apply getLocation_ok|]. intros ? c' os [Hst _]. exact Hst.
Qed.

(** ** Learning *)

Lemma pend_take_ne k c : k <> id -> pend (take_pending k c) = pend c.
Proof. intros Hk. unfold pend, take_pending. simpl. by rewrite lookup_delete_ne. Qed.

Lemma node_take k c : node_ok R n c -> node_ok R n (take_pending k c).
Proof.
  intros [H1 H2 H3 H4 H5 H6]. split; auto.
  - unfold take_pending. cbn [pending_lookups_ with_pending].
    intros k' l a [_ Hl]%lookup_delete_Some. by apply H5.
  - intros Hn HR. destruct (decide (k = id)) as [->|Hk]; [apply pend_take|]. rewrite pend_take_ne; auto.
Qed.

Lemma quiet_run_pending k t : k <> id -> quiet (run_pending k t).
Proof.
  intros Hk c Hc. eapply does_weaken; [apply run_pending_ok; [by apply node_take|done|apply Hc]|].
  intros _ c' os [[[H1 H2 H3 H4 H5] Hp] _]. rewrite pend_take_ne in * by done.
  split; [|done]. by split.
Qed.

Lemma updatePendingRequest_ok k t h c :
  node_ok R n c -> (k = id -> t = L /\ h = H /\ R) ->
  does c (updatePendingRequest k t h) (fun _ c' os => step_ok R n c c' os /\
    (k = id -> pend c' = [] /\ (n = H -> known c'))).
Proof.
  intros Hc Hk.
  assert (quiet (insert_rec k h (MkRec k Remote t))) as Hq
    by (apply quiet_insert_rec; intros Hid; naive_solver).
  destruct (decide (k = id)) as [->|Hne].
  - destruct Hk as (-> & -> & HR); [done|].
    apply (does_bind _ _ _ (fun _ c1 o1 => quiet_ok R n c c1 o1 /\ (n = H -> known c1))).
    { apply does_and; [by apply Hq|]. apply does_modify. intros Hn. unfold known. cbn [recs_ with_recs].
      unfold LocLookup.insert. rewrite (no_table _ _ _ Hc), Hn, Z.eqb_refl. cbn [LocLookup.with_directory].
      unfold Directory.insert. cbn. rewrite lookup_insert_eq. done. }
    intros _ c1 o1 [H1 Hk1]. pose proof (quiet_node _ _ _ _ _ H1) as Hc1.
    eapply does_weaken; [apply run_pending_ok; [by apply node_take|done|apply Hc1]|].
    intros _ c' os [[[A1 A2 A3 A4 A5] Hp] Hans]. rewrite pend_take in Hp. split; [|intros _; split; [done|]].
    + eapply step_ok_trans; [apply H1|]. split; [done|done| |by rewrite Hp|done].
      intros r Hr. right. by apply Hans.
    + intros Hn. apply A5. by apply Hk1.
  - eapply does_weaken; [|intros ? c' os Hst; split; [exact Hst|done]].
    apply quiet_steps; [|done]. apply quiet_bind; [done|intros _]. by apply quiet_run_pending.
Qed.

Lemma quiet_handleEagerUpdate num vis k h d :
  (k = id -> d = L /\ h = H /\ R) -> quiet (handleEagerUpdate num vis k h d).
Proof.
  intros Hk. apply quiet_get. intros c _. do 3 (apply quiet_bind; [apply quiet_assert|intros _]).
  apply quiet_bind; [apply quiet_insert_rec; intros Hid; naive_solver|intros _].
  destruct (loc_asks_ c !! k) as [g|]; [|apply quiet_ret]. apply quiet_bind.
  - apply quiet_for_each. intros a _. by apply quiet_sendEagerUpdate.
  - intros _. apply (quiet_asks (fun c => delete k (loc_asks_ c))).
Qed.

(** ** Other entities *)

Lemma quiet_set_registered g :
  (forall s : gset Z, id ∈ g s <-> id ∈ s) ->
  quiet (modify (fun c => with_registered (g (local_registered_ c)) c)).
Proof.
  intros Hg c Hc. apply does_modify. split; [|done]. split; auto.
  destruct Hc as [H1 H2 H3 H4 H5 H6]. split; auto. cbn [local_registered_ with_registered]. by rewrite Hg.
Qed.

Lemma quiet_emplace k (a : option Z) :
  quiet (match a with
         | Some a => modify (fun c => with_msg_han
             (match local_registered_msg_han_ c !! k with
              | Some _ => local_registered_msg_han_ c
              | None => <[k := a]> (local_registered_msg_han_ c)
              end) c)
         | None => nop
         end).
Proof.
  destruct a as [a|]; [|apply quiet_ret].
  apply (quiet_msg_han (fun c => match local_registered_msg_han_ c !! k with
     | Some _ => _ | None => <[k := a]> (local_registered_msg_han_ c) end)).
Qed.

Lemma quiet_registerEntity k h a : k <> id -> quiet (registerEntity k h a).
Proof.
  intros Hk. apply quiet_get. intros c _.
  apply quiet_bind; [intros c1 H1; apply does_get, does_ret; by apply quiet_emit|intros reg].
  apply quiet_bind; [apply quiet_assert|intros _].
  apply quiet_bind; [apply (quiet_set_registered (fun s => {[k]} ∪ s)); set_solver|intros _].
  apply quiet_bind; [by apply quiet_insert_rec|intros _].
  apply quiet_bind; [apply quiet_emplace|intros _].
  apply quiet_bind; [by apply quiet_run_pending|intros _].
  apply quiet_bind; [apply quiet_assert|intros _].
  apply quiet_if; intros _; [by apply quiet_out|apply quiet_ret].
Qed.

Lemma quiet_registerEntityRemote k h t a : k <> id -> quiet (registerEntityRemote k h t a).
Proof.
  intros Hk. apply quiet_get. intros c _.
  apply quiet_bind; [intros c1 H1; apply does_get, does_ret; by apply quiet_emit|intros reg].
  do 2 (apply quiet_bind; [apply quiet_assert|intros _]).
  apply quiet_bind; [by apply quiet_insert_rec|intros _]. apply quiet_emplace.
Qed.

Lemma quiet_unregisterEntity k : k <> id -> quiet (unregisterEntity k).
Proof.
  intros Hk. apply quiet_bind; [intros c1 H1; apply does_get, does_ret; by apply quiet_emit|intros reg].
  apply quiet_bind; [apply quiet_assert|intros _].
  apply quiet_bind; [apply (quiet_set_registered (fun s => s ∖ {[k]})); set_solver|intros _].
  apply quiet_get. intros c _.
  apply quiet_bind; [|intros _; apply (quiet_msg_han (fun c => delete k (local_registered_msg_han_ c)))].
  apply quiet_if; intros _; [|apply quiet_ret].
  apply (quiet_recs (fun l => LocLookup.remove l k)). intros l Hl.
  split; [by apply LookupFacts.lookup_remove_ok|]. split; [done|].
  simpl. unfold Directory.remove. by rewrite lookup_delete_ne.
Qed.

Lemma quiet_entityEmigrated k t : k <> id -> quiet (entityEmigrated k t).
Proof.
  intros Hk. apply quiet_bind; [apply (quiet_set_registered (fun s => s ∖ {[k]})); set_solver|intros _].
  apply (quiet_recs (fun l => LocLookup.update l k (MkRec k Remote t))). intros l Hl.
  split; [by apply LookupFacts.lookup_update_ok|]. unfold LocLookup.update. case_match; [|done].
  split; [done|]. simpl. by rewrite lookup_insert_ne.
Qed.

Lemma quiet_clearCache : quiet clearCache.
Proof.
  apply (quiet_recs LocLookup.clearCache). intros l Hl. split; [by apply LookupFacts.lookup_clear_ok|done].
Qed.

End one_node.

(** ** The registration *)

Lemma rec_ok_mono (R R' : Prop) n k r : (R -> R') -> rec_ok R n k r -> rec_ok R' n k r.
Proof. intros HR Hr Hk. destruct (Hr Hk). auto. Qed.

Lemma node_ok_mono (R R' : Prop) n c : (R -> R') -> n <> L -> node_ok R n c -> node_ok R' n c.
Proof.
  intros HR Hn [H1 H2 H3 H4 H5 H6]. split; auto; [naive_solver| |done].
  eapply LookupFacts.lookup_ok_weaken; [|exact H4]. intros k r. by apply rec_ok_mono.
Qed.

Lemma out_ok_mono (R R' : Prop) n o : (R -> R') -> out_ok R n o -> out_ok R' n o.
Proof. intros HR. destruct o as [d [| | |]| | | | |]; simpl; naive_solver. Qed.

Lemma msg_ok_mono (R R' : Prop) d m : (R -> R') -> msg_ok R d m -> msg_ok R' d m.
Proof. intros HR. destruct m; simpl; naive_solver. Qed.

Lemma node_ok_iff (R R' : Prop) n c : (R <-> R') -> node_ok R n c -> node_ok R' n c.
Proof.
  intros HR [H1 H2 H3 H4 H5 H6]. split; auto; [naive_solver| |naive_solver].
  eapply LookupFacts.lookup_ok_weaken; [|exact H4]. intros k r. apply rec_ok_mono. naive_solver.
Qed.

(** Between the first and the last step of [registerEntity]. *)
Record registering (c c1 : Coord) : Prop := {
  rg_node : this_node c1 = L;
  rg_table : LocLookup.this_node_ (recs_ c1) = L;
  rg_reg : id ∈ local_registered_ c1;
  rg_recs : LookupFacts.lookup_ok (rec_ok True L) (recs_ c1);
  rg_pend : pending_lookups_ c1 = pending_lookups_ c
}.

Lemma registering_taken R c c1 : node_ok R L c -> registering c c1 -> node_ok True L (take_pending id c1).
Proof.
  intros [_ _ _ _ H5 _] [A1 A2 A3 A4 A5]. split; auto.
  - done.
  - unfold take_pending. cbn [pending_lookups_ with_pending]. rewrite A5.
    intros k' l a [_ Hl]%lookup_delete_Some. by apply H5.
  - intros _ _. apply pend_take.
Qed.

Lemma registerEntity_ok a c :
  node_ok False L c ->
  does c (registerEntity id H a) (fun _ c' os =>
    node_ok True L c' /\ Forall (out_ok True L) os /\
    (forall r, AnswerRequest id H r ∈ pend c -> answer r ∈ os) /\ (H <> L -> answer H ∈ os)).
Proof.
  intros Hc. apply does_get, does_registered, does_assert. intros _. rewrite (no_node _ _ _ Hc).
  eapply (does_bind _ _ _ (fun _ c1 o1 => o1 = [] /\ local_registered_ c1 = {[id]} ∪ local_registered_ c
            /\ recs_ c1 = recs_ c /\ pending_lookups_ c1 = pending_lookups_ c /\ this_node c1 = L)).
  { apply does_modify. split_and!; try done. apply Hc. }
  intros _ c1 o1 (-> & E1 & E2 & E3 & E4).
  eapply (does_bind _ _ _ (fun _ c2 o1 => o1 = [] /\ registering c c2)).
  { apply does_modify. split; [done|]. split; cbn [this_node local_registered_ recs_ with_recs pending_lookups_].
    - done.
    - rewrite E2. unfold LocLookup.insert. case_match; apply Hc.
    - rewrite E1. set_solver.
    - rewrite E2. apply LookupFacts.lookup_insert_ok; [|done].
      eapply LookupFacts.lookup_ok_weaken; [|apply Hc]. intros k r. by apply rec_ok_mono.
    - done. }
  intros _ c2 o1 (-> & Hg).
  eapply (does_bind _ _ _ (fun _ c3 o1 => o1 = [] /\ registering c c3)).
  { destruct a; [|by apply does_ret]. apply does_modify. split; [done|]. destruct Hg. by split. }
  intros _ c3 o1 (-> & Hg3). clear c2 Hg.
  eapply does_bind; [apply (run_pending_ok True L); [by eapply registering_taken|done|]|].
  { rewrite (rg_pend _ _ Hg3). apply Hc. }
  intros ? c4 o4 [Hq Ha]. apply does_assert. intros _.
  assert (pend c3 = pend c) as Hp by (unfold pend; by rewrite (rg_pend _ _ Hg3)). rewrite Hp in Ha.
  destruct Hq as [[A1 A2 A3 A4 A5] _]. destruct (Z.eqb_spec H L) as [->|Hne]; cbn [negb].
  - apply does_ret. cbn [app]. rewrite app_nil_r. naive_solver.
  - apply does_emit. cbn [app]. split; [done|]. split; [|split].
    + apply Forall_app. split; [done|]. apply Forall_singleton. simpl. naive_solver.
    + intros r Hr. apply elem_of_app. left. by apply Ha.
    + intros _. apply elem_of_app. right. by left.
Qed.

(** ** All nodes *)

Definition created (s : Sys) : Prop := id ∈ local_registered_ (coords s L).

Record sys_ok (s : Sys) : Prop := {
  sy_node n : node_ok (created s) n (coords s n);
  sy_net d m : (d, m) ∈ net s -> msg_ok (created s) d m;
  sy_moving t : t ∈ moving s -> t_id t <> id;
  sy_home : created s -> H <> L ->
    (pend (coords s H) = [] /\ known (coords s H)) \/ (H, UpdateLocation id L H) ∈ net s;
  sy_ask n : n <> H -> pend (coords s n) <> [] ->
    (H, GetLocationRequest id H n) ∈ net s \/ AnswerRequest id H n ∈ pend (coords s H) \/
    (n, UpdateLocation id L H) ∈ net s;
  sy_trace n o : (n, o) ∈ trace s -> out_ok (created s) n o
}.

(** The entity stays: it is registered on [L] only, with home [H]. *)
Definition stays (e : event) : Prop :=
  match e with
  | Register n i h _ => i = id -> n = L /\ h = H
  | RegisterRemote _ i _ _ | Unregister _ i | Emigrate _ i _ _ _ => i <> id
  | Route _ i h _ | RouteHandler _ _ i h _ | Lookup _ i h _ => i = id -> h = H
  | Immigrate _ | ClearCache _ | Deliver _ => True
  end.

Inductive static_reach : Sys -> Prop :=
  | static_init : static_reach init
  | static_step s e s' :
      static_reach s -> stays e -> exec1 N visit s e = Some (Ok s') -> static_reach s'.

Lemma elem_of_sends d m os : (d, m) ∈ sends os <-> Send d m ∈ os.
Proof.
  unfold sends. rewrite list_elem_of_omap. split.
  - intros ([] & Ho & He); simplify_eq/=. done.
  - intros Ho. by exists (Send d m).
Qed.

Lemma elem_of_acts n k o os : (k, o) ∈ acts n os -> k = n /\ o ∈ os.
Proof. unfold acts. rewrite list_elem_of_omap. intros (o' & Ho & He). by destruct o'; simplify_eq. Qed.

(** What became of a message that was taken from the net. *)
Definition served (n : Z) (c' : Coord) (os : list output) (p : Z * LocMsg) : Prop :=
  p.1 = n /\
  match p.2 with
  | UpdateLocation i _ _ => i = id -> pend c' = [] /\ (n = H -> known c')
  | GetLocationRequest i h r => i = id -> AnswerRequest id H r ∈ pend c' \/ answer r ∈ os
  | _ => True
  end.

Lemma sys_step s n c' os l t :
  sys_ok s -> step_ok (created s) n (coords s n) c' os ->
  (forall p, p ∈ l -> p ∈ net s) -> (forall p, p ∈ net s -> p ∈ l \/ served n c' os p) ->
  (forall x, x ∈ t -> t_id x <> id) -> forall r,
  sys_ok (MkSys (<[n := c']> (coords s)) (l ++ sends os) t (trace s ++ acts n os) r).
Proof.
  intros [S1 S2 S3 S4 S5 S6] [T1 T2 T3 T4 T5] Hl Hn Ht r.
  set (s' := MkSys _ _ _ _ _).
  assert (created s' <-> created s) as Hc.
  { unfold created. cbn [coords s']. destruct (decide (L = n)) as [<-|Hne].
    - rewrite fn_lookup_insert. rewrite (no_reg _ _ _ T1). unfold created. naive_solver.
    - by rewrite fn_lookup_insert_ne. }
  assert (forall i, i <> n -> coords s' i = coords s i) as Hne by (intros i Hi; apply fn_lookup_insert_ne; congruence).
  assert (coords s' n = c') as He by apply fn_lookup_insert.
  assert (forall p, p ∈ l \/ p ∈ sends os -> p ∈ net s') as Hnet by (intros p Hp; by apply elem_of_app).
  split.
  - intros i. apply (node_ok_iff (created s)); [naive_solver|].
    destruct (decide (i = n)) as [->|Hi]; [by rewrite He|by rewrite Hne].
  - intros d m [Hm|Hm%elem_of_sends]%elem_of_app; (apply (msg_ok_mono (created s)); [apply Hc|]); [auto|].
    rewrite Forall_forall in T2. exact (T2 _ Hm).
  - done.
  - intros Hcr HL. apply Hc in Hcr. destruct (S4 Hcr HL) as [[Hp Hk]|Hin].
    + left. destruct (decide (H = n)) as [<-|Hi]; [rewrite He|by rewrite Hne]. split; [|auto].
      destruct (pend c') eqn:Hp'; [done|]. destruct T4 as [?|[[_ ?]|[? _]]]; done.
    + destruct (Hn _ Hin) as [Hl'|[E Hs]]; [right; auto|]. simpl in E, Hs. left. subst n. rewrite He.
      naive_solver.
  - intros i Hi Hp.
    assert (pend (coords s i) <> [] \/ Send H (GetLocationRequest id H i) ∈ os) as [Hp0|Hs].
    { destruct (decide (i = n)) as [->|Hin]; [|rewrite Hne in Hp; auto]. rewrite He in Hp. naive_solver. }
    + destruct (S5 i Hi Hp0) as [Hin|[Hin|Hin]].
      * destruct (Hn _ Hin) as [Hl'|[E Hs]]; [left; auto|]. simpl in E, Hs. subst n. rewrite He.
        destruct (Hs eq_refl) as [?|?%elem_of_sends]; auto.
      * destruct (decide (H = n)) as [<-|Hh]; [|rewrite Hne; auto]. rewrite He.
        destruct (T3 _ Hin) as [?|?%elem_of_sends]; auto.
      * destruct (Hn _ Hin) as [Hl'|[E Hs]]; [right; right; auto|]. simpl in E, Hs. subst n.
        rewrite He in Hp. by destruct Hs.
    + left. apply Hnet. right. by apply elem_of_sends.
  - intros k o [Ho|[-> Ho]%elem_of_acts]%elem_of_app; (apply (out_ok_mono (created s)); [apply Hc|]); [auto|].
    rewrite Forall_forall in T2. exact (T2 _ Ho).
Qed.

Lemma sys_register s a c' os r :
  sys_ok s -> ~ created s -> registerEntity id H a (coords s L) = Ok (tt, c', os) ->
  sys_ok (MkSys (<[L := c']> (coords s)) (net s ++ sends os) (moving s) (trace s ++ acts L os) r).
Proof.
  intros [S1 S2 S3 S4 S5 S6] Hnc E. set (s' := MkSys _ _ _ _ _).
  assert (node_ok False L (coords s L)) as HL by (apply (node_ok_iff (created s)); [tauto|apply S1]).
  destruct (registerEntity_ok a _ HL _ _ _ E) as (T1 & T2 & T3 & T4).
  assert (forall i, i <> L -> coords s' i = coords s i) as Hne by (intros i Hi; apply fn_lookup_insert_ne; congruence).
  assert (coords s' L = c') as He by apply fn_lookup_insert.
  assert (forall p, p ∈ net s \/ p ∈ sends os -> p ∈ net s') as Hnet by (intros p Hp; by apply elem_of_app).
  assert (created s') as Hc by (unfold created; rewrite He; by apply (no_reg _ _ _ T1)).
  assert (pend c' = []) as Hp' by (by apply (no_settled _ _ _ T1)).
  rewrite Forall_forall in T2. split.
  - intros i. destruct (decide (i = L)) as [->|Hi].
    + rewrite He. apply (node_ok_iff True); [tauto|done].
    + rewrite Hne by done. apply (node_ok_mono (created s)); auto.
  - intros d m [Hm|Hm%elem_of_sends]%elem_of_app;
      [apply (msg_ok_mono (created s)); auto|apply (msg_ok_mono True); [auto|exact (T2 _ Hm)]].
  - done.
  - intros _ Hh. right. apply Hnet. right. apply elem_of_sends. by apply T4.
  - intros i Hi Hp. destruct (decide (i = L)) as [->|HiL]; [by rewrite He in Hp|]. rewrite Hne in Hp by done.
    destruct (S5 i Hi Hp) as [?|[Hin|?]]; [auto| |auto].
    destruct (decide (H = L)) as [Hh|Hh]; [|rewrite Hne; auto].
    assert (coords s H = coords s L) as EH by congruence. rewrite EH in Hin. apply T3 in Hin. right. right. apply Hnet. right. by apply elem_of_sends.
  - intros k o [Ho|[-> Ho]%elem_of_acts]%elem_of_app;
      [apply (out_ok_mono (created s)); auto|apply (out_ok_mono True); [auto|exact (T2 _ Ho)]].
Qed.

Lemma perform_inv n m s s' :
  perform n m s = Ok s' -> exists c os, m (coords s n) = Ok (tt, c, os) /\
    s' = MkSys (<[n := c]> (coords s)) (net s ++ sends os) (moving s) (trace s ++ acts n os) (routed s).
Proof. intros ([[[] c] os] & E & [= <-])%bind_Ok_inv. eauto. Qed.

Lemma on_node_inv n r s' : on_node N n r = Some (Ok s') -> r = Ok s'.
Proof. unfold on_node. case_bool_decide; [|done]. by intros [= ->]. Qed.

(** An operation of the program, or the arrival of something. *)
Lemma sys_steps s s1 n m s' :
  sys_ok s -> steps (created s) n m -> coords s1 = coords s -> net s1 = net s -> trace s1 = trace s ->
  (forall x, x ∈ moving s1 -> t_id x <> id) -> on_node N n (perform n m s1) = Some (Ok s') -> sys_ok s'.
Proof.
  intros Hs Hm E1 E2 E3 Ht (c & os & E & ->)%on_node_inv%perform_inv. rewrite E1, E2, E3 in *.
  apply sys_step; auto. exact (Hm _ (sy_node _ Hs n) _ _ _ E).
Qed.

Lemma sys_quiet s s1 n m s' :
  sys_ok s -> quiet (created s) n m -> coords s1 = coords s -> net s1 = net s -> trace s1 = trace s ->
  (forall x, x ∈ moving s1 -> t_id x <> id) -> on_node N n (perform n m s1) = Some (Ok s') -> sys_ok s'.
Proof. intros Hs Hm. apply sys_steps; [done|]. by apply quiet_steps. Qed.

Lemma receive_ok (R : Prop) n m c :
  node_ok R n c -> msg_ok R n m ->
  does c (receive N visit m) (fun _ c' os => step_ok R n c c' os /\ served n c' os (n, m)).
Proof.
  intros Hc Hm. unfold served. destruct m as [i h q|i a h|i h d|msg]; simpl in Hm |- *.
  - eapply does_weaken; [apply (getLocation_ok R n i h (AnswerRequest i h q)); [done|naive_solver|]|].
    + simpl. naive_solver.
    + intros ? c' os [Hst Ha]. split; [done|]. split; [done|]. intros ->.
      destruct Hm as [-> _]; [done|]. by apply Ha.
  - eapply does_weaken; [apply (updatePendingRequest_ok R n i a h); [done|naive_solver]|].
    intros ? c' os [Hst Ha]. auto.
  - eapply does_weaken; [apply quiet_steps; [apply quiet_handleEagerUpdate|done]; naive_solver|].
    intros ? c' os Hst. auto.
  - eapply does_weaken; [apply steps_routeMsg; [intros Hid; by apply Hm|done]|]. intros ? c' os Hst. auto.
Qed.

Lemma sys_event s e s' : sys_ok s -> stays e -> exec1 N visit s e = Some (Ok s') -> sys_ok s'.
Proof.
  intros Hs He Hx. pose proof (sy_moving _ Hs) as Hmv.
  destruct e as [n i h a|n i k a|n i|n i dst h a|k|n i h m|n han i h m|n i h a|n|k]; simpl in He, Hx.
  - destruct (decide (i = id)) as [->|Hi].
    + destruct He as [-> ->]; [done|]. apply on_node_inv, perform_inv in Hx as (c & os & E & ->).
      apply (sys_register s a); [done| |done]. intros Hc. unfold registerEntity in E.
      revert E. apply (does_get (coords s L) _ (fun _ _ _ => False)). apply does_registered, does_assert.
      by rewrite bool_decide_true.
    + eapply sys_quiet; [exact Hs|by apply quiet_registerEntity|..|exact Hx]; done.
  - eapply sys_quiet; [exact Hs|by apply quiet_registerEntityRemote|..|exact Hx]; done.
  - eapply sys_quiet; [exact Hs|by apply quiet_unregisterEntity|..|exact Hx]; done.
  - case_match; [|done]. eapply sys_quiet; [exact Hs|by apply quiet_entityEmigrated|..|exact Hx]; try done.
    cbn [moving with_moving]. intros x [Hx'| ->%list_elem_of_singleton]%elem_of_app; auto.
  - destruct (moving s !! k) as [t|] eqn:Hk; [|done].
    assert (t_id t <> id) as Ht by (by apply Hmv, (list_elem_of_lookup_2 _ k)).
    eapply sys_quiet; [exact Hs|by apply quiet_registerEntity|..|exact Hx]; try done.
    cbn [moving with_moving]. intros x Hx'. apply Hmv, (elem_of_pick _ _ _ x Hk). by right.
  - eapply sys_steps; [exact Hs|by apply steps_routeMsg|..|exact Hx]; done.
  - eapply sys_steps; [exact Hs|by apply steps_routeMsgHandler|..|exact Hx]; done.
  - eapply sys_steps; [exact Hs|by apply steps_routeNonEager|..|exact Hx]; done.
  - eapply sys_quiet; [exact Hs|apply quiet_clearCache|..|exact Hx]; done.
  - destruct (net s !! k) as [[n m]|] eqn:Hk; [|done].
    apply on_node_inv, perform_inv in Hx as (c & os & E & ->).
    destruct (receive_ok _ n m _ (sy_node _ Hs n) ltac:(by apply (sy_net _ Hs), (list_elem_of_lookup_2 _ k)) _ _ _ E)
      as [Hst Hsv].
    apply (sys_step s); [done|done|..]; cbn [moving with_net]; [| |done]; intros p;
      rewrite (elem_of_pick _ _ _ p Hk); [auto|]. intros [->|Hp]; auto.
Qed.

Lemma sys_reach s : static_reach s -> sys_ok s.
Proof.
  induction 1 as [|s e s' Hr IH He Hx]; [|by eapply sys_event].
  split; try (by intros ? ? ?%not_elem_nil); try done.
  - intros n. split; try done.
    + unfold created. simpl. set_solver.
    + apply (LookupFacts.lookup_make _ 4096). lia.
  - by intros t ?%not_elem_nil.
Qed.

(** Nothing under way, nothing kept. *)
Lemma static_none_pending s :
  sys_ok s -> created s ->
  (forall d m, (d, m) ∈ net s ->
     match m with GetLocationRequest i _ _ | UpdateLocation i _ _ => i <> id | _ => True end) ->
  forall n, pend (coords s n) = [].
Proof.
  intros Hs Hc Hq. assert (pend (coords s H) = []) as HH.
  { destruct (decide (H = L)) as [Hh|Hh].
    - assert (coords s H = coords s L) as -> by congruence. by apply (no_settled _ _ _ (sy_node _ Hs L)).
    - destruct (sy_home _ Hs Hc Hh) as [[? _]|Hin]; [done|]. by apply Hq in Hin. }
  intros n. destruct (decide (n = H)) as [->|Hn]; [done|].
  destruct (pend (coords s n)) eqn:Hp; [done|].
  destruct (sy_ask _ Hs n Hn) as [Hin|[Hin|Hin]]; [by rewrite Hp|by apply Hq in Hin| |by apply Hq in Hin].
  rewrite HH in Hin. by apply not_elem_nil in Hin.
Qed.

Lemma static_run_reach s es :
  static_reach s -> Forall stays es ->
  match exec N visit s es with Some (Ok _) => true | _ => false end = true ->
  static_reach (match exec N visit s es with Some (Ok s') => s' | _ => init end).
Proof.
  revert s. induction es as [|e es IH]; intros s Hs He; simpl; [done|].
  apply Forall_cons in He as [He Hes]. destruct (exec1 N visit s e) as [[s1|]|] eqn:Hx; [|done..].
  apply IH; [|done]. by eapply static_step.
Qed.

End static.
End LocationStatic.
