(* ===== verification/LocationSettle.v ===== *)
(** * Traffic about an entity that stays comes to an end

    With the entity [id] of [LocationStatic.v] created, every coordinator message
    about it that is delivered uses up a potential: what is kept for it, the nodes
    that are to be told of it and the messages under way, weighed so that every
    message a handler sends weighs less than what made it send. *)

From S2P Require Import Prelude.
From S2P Require Import Effects.
From S2P Require Import Sums.
From S2P Require Import Ids.
From S2P Require Import LocationCache.
From S2P Require Import Location.
From S2P Require Import LocationSystem.
From S2P Require Import LocationStatic.

Module LocationSettle.
Import LocRecord Location LocationSystem LocationStatic.

Section settle.
Context (N : Z) (visit : gset Z -> list Z) (id H L : Z).
(** The visit of a set meets each element once. *)
Hypothesis visit_size : forall g, Z.of_nat (length (visit g)) <= Z.of_nat (size g).

(** ** Weights *)

Definition only (k w : Z) : Z := if bool_decide (k = id) then w else 0.

Definition acost (a : NodeAction) : Z :=
  match a with
  | AnswerRequest i _ _ => only i 2
  | RouteWhenFound m | DeliverWhenFound _ _ m => only (entity_id_ m) 4
  | UserAction _ => 0
  end.
Definition mcost (d : Z) (m : LocMsg) : Z :=
  match m with
  | GetLocationRequest i _ _ => only i 3
  | UpdateLocation i _ _ | EagerUpdate i _ _ => only i 1
  | Routed m => only (entity_id_ m) (if bool_decide (d = L) then 2 else 5)
  end.
Definition ocost (o : output) : Z := match o with Send d m => mcost d m | _ => 0 end.
Definition cost (c : Coord) : Z :=
  lsum acost (pend id c) + Z.of_nat (size (default ∅ (loc_asks_ c !! id) : gset Z)).

Lemma only_self w : only id w = w.
Proof. unfold only. by rewrite bool_decide_true. Qed.
Lemma only_other k w : k <> id -> only k w = 0.
Proof. intros Hk. unfold only. by rewrite bool_decide_false. Qed.
Lemma only_nonneg k w : 0 <= w -> 0 <= only k w.
Proof. unfold only. case_bool_decide; lia. Qed.
Lemma acost_nonneg a : 0 <= acost a.
Proof. destruct a; simpl; try apply only_nonneg; lia. Qed.
Lemma mcost_nonneg d m : 0 <= mcost d m.
Proof. destruct m; simpl; apply only_nonneg; try case_bool_decide; lia. Qed.
Lemma cost_nonneg c : 0 <= cost c.
Proof. unfold cost. pose proof (lsum_nonneg acost (pend id c) (fun a _ => acost_nonneg a)). lia. Qed.

(** ** One node, the entity created *)

Section node.
Context (n : Z).
Abbreviation nok := (node_ok id H L True n).

(** [m] costs at most [d]. *)
Definition pays_at {A} (d : Z) (c : Coord) (m : M A) : Prop :=
  does c m (fun _ c' os => nok c' /\ cost c' + lsum ocost os <= cost c + d).
Definition pays {A} (d : Z) (m : M A) : Prop := forall c, nok c -> pays_at d c m.

Lemma pays_at_bind {A B} d1 d2 d c (m : M A) (f : A -> M B) :
  pays_at d1 c m -> (forall a, pays d2 (f a)) -> d1 + d2 <= d -> pays_at d c (m ≫= f).
Proof.
  intros Hm Hf Hd. eapply does_bind; [exact Hm|]. intros a c1 o1 [Hc1 H1].
  eapply does_weaken; [apply (Hf a); exact Hc1|]. intros ? c2 o2 [Hc2 H2]. split; [exact Hc2|].
  rewrite lsum_app. lia.
Qed.

Lemma pays_bind {A B} d1 d2 d (m : M A) (f : A -> M B) :
  pays d1 m -> (forall a, pays d2 (f a)) -> d1 + d2 <= d -> pays d (m ≫= f).
Proof. intros Hm Hf Hd c Hc. eapply pays_at_bind; [by apply Hm|exact Hf|done]. Qed.

(** What leaves the coordinator's keeping for the entity and its askers. *)
Lemma pays_quiet {A} d (m : M A) :
  quiet id H L True n m ->
  (forall c a c' os, m c = Ok (a, c', os) ->
     loc_asks_ c' !! id = loc_asks_ c !! id /\ lsum ocost os <= d) ->
  pays d m.
Proof.
  intros Hq Hd c Hc a c' os E. destruct (Hd c a c' os E) as [Ha Ho].
  destruct (Hq c Hc a c' os E) as [Hst Hp]. split; [apply Hst|]. unfold cost. rewrite Hp, Ha. lia.
Qed.

Lemma pays_ret {A} (a : A) : pays 0 (mret a).
Proof. apply pays_quiet; [apply quiet_ret|]. by intros c b c' os [= <- <- <-]. Qed.

Lemma pays_emit o : out_ok id H L True n o -> pays (ocost o) (emit o).
Proof.
  intros Ho. apply pays_quiet; [by apply quiet_out|]. intros c b c' os [= <- <- <-].
  split; [done|]. rewrite lsum_cons, lsum_nil. lia.
Qed.

Lemma pays_assert b : pays 0 (assert_ b).
Proof. apply pays_quiet; [apply quiet_assert|]. by intros c a c' os [_ [= <- <- <-]]%vtAssert_Ok. Qed.

Lemma pays_insert_rec k h r : rec_ok id L True n k r -> pays 0 (insert_rec k h r).
Proof. intros Hr. apply pays_quiet; [by apply quiet_insert_rec|]. by intros c a c' os [= <- <- <-]. Qed.

(** Reading the table costs nothing. *)
Lemma get_rec_free k c :
  nok c -> does c (get_rec k) (fun r c1 o1 => rec_ok id L True n k r /\ nok c1 /\ cost c1 = cost c /\ o1 = []).
Proof.
  intros Hc r c1 o1 E. destruct (does_get_rec id H L True n k c Hc _ _ _ E) as [Hrec Hq].
  split; [done|]. split; [exact (quiet_node _ _ _ _ _ _ _ _ Hq)|]. unfold get_rec in E.
  destruct (LocLookup.get (recs_ c) k) as [[r' l]|]; [|done]. by injection E as <- <- <-.
Qed.

Lemma pays_get {B} d (f : Coord -> M B) : (forall c, this_node c = n -> pays d (f c)) -> pays d (get ≫= f).
Proof. intros Hf c Hc. apply does_get. apply Hf; [apply Hc|done]. Qed.

Lemma pays_mono {A} d d' (m : M A) : d <= d' -> pays d m -> pays d' m.
Proof. intros Hd Hm c Hc. eapply does_weaken; [by apply Hm|]. intros ? c' os [H1 H2]. split; [done|lia]. Qed.

Lemma pays_if {A} d (b : bool) (m1 m2 : M A) :
  (b = true -> pays d m1) -> (b = false -> pays d m2) -> pays d (if b then m1 else m2).
Proof. destruct b; auto. Qed.

Lemma pays_for_each {A} (l : list A) (f : A -> M unit) (w : A -> Z) :
  (forall a, a ∈ l -> pays (w a) (f a)) -> pays (lsum w l) (for_each l f).
Proof.
  induction l as [|a l IH]; intros Hf; [apply pays_ret|].
  eapply pays_bind; [apply Hf; left|intros _; apply IH; intros b Hb; apply Hf; by right|]. rewrite lsum_cons. lia.
Qed.

Lemma pays_remember k ask :
  pays (only k 1) (modify (fun c => with_asks
    (<[k := default ∅ (loc_asks_ c !! k) ∪ {[ask]}]> (loc_asks_ c)) c)).
Proof.
  intros c Hc. apply does_and.
  { eapply does_weaken; [apply (quiet_asks id H L True n
      (fun c => <[k := default ∅ (loc_asks_ c !! k) ∪ {[ask]}]> (loc_asks_ c))); done|].
    intros ? c' os Hq. exact (quiet_node _ _ _ _ _ _ _ _ Hq). }
  apply does_modify. unfold cost. change (pend id (with_asks _ c)) with (pend id c).
  cbn [loc_asks_ with_asks]. rewrite lsum_nil. unfold only. case_bool_decide as Hk.
  - subst k. rewrite lookup_insert_eq. change (default ∅ (Some ?x)) with x.
    pose proof (size_union_alt (default ∅ (loc_asks_ c !! id) : gset Z) {[ask]}).
    pose proof (subseteq_size ({[ask]} ∖ (default ∅ (loc_asks_ c !! id) : gset Z)) {[ask]} ltac:(set_solver)) as Hs.
    rewrite size_singleton in Hs. lia.
  - rewrite lookup_insert_ne by done. lia.
Qed.

(** ** The operations *)

Lemma pays_sendEagerUpdate k ask h d :
  (k = id -> d = L /\ h = H) -> pays (only k 1) (sendEagerUpdate k ask h d).
Proof.
  intros Hk. apply pays_get. intros c _. apply pays_if; intros _.
  - eapply (pays_bind 0); [apply pays_assert|intros _; apply pays_emit; simpl; naive_solver|simpl; lia].
  - eapply pays_mono; [|apply pays_ret]. apply only_nonneg. lia.
Qed.

Lemma pays_trigger k h msg :
  entity_id_ msg = k -> (k = id -> n = L /\ h = H) -> pays (only k 1) (trigger_msg_handler_action k h msg).
Proof.
  intros He Hk. eapply (pays_bind 0 (only k 1)); [|intros _|lia].
  - apply pays_if; intros _; [apply (pays_emit (RunHandler _ _ msg)); simpl; rewrite He; naive_solver|].
    apply pays_get. intros c _. destruct (local_registered_msg_han_ c !! k); [|apply pays_assert].
    apply (pays_emit (RunRegistered _ msg)). simpl. rewrite He. naive_solver.
  - apply pays_if; intros _; [|eapply pays_mono; [|apply pays_ret]; apply only_nonneg; lia].
    apply pays_get. intros c ->. apply pays_sendEagerUpdate. naive_solver.
Qed.

(** Keeping an action. *)
Lemma pend_snoc k a c :
  pend id (with_pending (<[k := default [] (pending_lookups_ c !! k) ++ [a]]> (pending_lookups_ c)) c)
  = pend id c ++ (if bool_decide (k = id) then [a] else []).
Proof.
  unfold pend. cbn [pending_lookups_ with_pending]. case_bool_decide as Hk.
  - subst k. by rewrite lookup_insert_eq.
  - rewrite lookup_insert_ne by done. by rewrite app_nil_r.
Qed.

Lemma pend_cost k a c (Q : unit -> Coord -> list output -> Prop) :
  act_ok id H k a ->
  (forall c', cost c' = cost c + acost a -> Q tt c' []) ->
  does c (insertPendingEntityAction k a) Q.
Proof.
  intros Ha HQ. apply does_modify. apply HQ. unfold cost. rewrite pend_snoc, lsum_app.
  cbn [loc_asks_ with_pending]. case_bool_decide as Hk; [rewrite lsum_cons, lsum_nil; lia|].
  rewrite lsum_nil. assert (acost a = 0); [|lia].
  destruct a; simpl in Ha |- *; try done; apply only_other; naive_solver.
Qed.

Lemma pays_pend k a : act_ok id H k a -> k <> id -> pays (acost a) (insertPendingEntityAction k a).
Proof.
  intros Ha Hk c Hc. apply does_and.
  - eapply does_weaken; [by apply (quiet_pend id H L True n k a Ha Hk)|].
    intros ? c' os Hq. exact (quiet_node _ _ _ _ _ _ _ _ Hq).
  - apply (pend_cost k a c _ Ha). intros c' ->. rewrite lsum_nil. lia.
Qed.

Definition route_cost (k t : Z) : Z :=
  only k (if bool_decide (t = n) then 1 else if bool_decide (t = L) then 3 else 6).

Lemma route_cost_nonneg k t : 0 <= route_cost k t.
Proof. apply only_nonneg. repeat case_bool_decide; lia. Qed.

Lemma pays_routeMsgNode k h t msg :
  entity_id_ msg = k -> (k = id -> h = H /\ home_node_ msg = H /\ (t = H \/ t = L) /\ (t = n -> n = L)) ->
  pays (route_cost k t) (routeMsgNode k h t msg).
Proof.
  intros He Hk. apply pays_get. intros c0 Hn. rewrite Hn. destruct (Z.eqb_spec t n) as [->|Ht]; cbn [negb].
  - eapply (pays_bind 0 (only k 1)); [by apply (pays_emit (Produce _))|intros _|].
    + intros c Hc. apply does_registered. case_bool_decide as Hr.
      * refine (pays_bind (only k 1) 0 _ _ _ _ _ _ c Hc); [apply pays_trigger; naive_solver|intros _; by apply (pays_emit (Consume _))|lia].
      * assert (k <> id) as Hne.
        { intros ->. apply Hr, (no_reg _ _ _ _ _ _ Hc). naive_solver. }
        rewrite only_other by done. eapply pays_mono; [|apply (pays_pend k (DeliverWhenFound k h msg)); [|done]|done];
          [simpl; by rewrite He, only_other|simpl; naive_solver].
    + unfold route_cost. rewrite bool_decide_true; [lia|done].
  - assert (only k 1 + mcost t (Routed msg) = route_cost k t) as Hc.
    { unfold route_cost. rewrite (bool_decide_false (t = n)) by done. simpl. rewrite He. unfold only.
      repeat case_bool_decide; done. }
    eapply (pays_bind (only k 1)); [|intros _; apply (pays_emit (Send t (Routed (setAskNode n msg)))); simpl; naive_solver|].
    + apply pays_if; intros _; [apply pays_remember|]. eapply pays_mono; [|apply pays_ret].
      apply only_nonneg. lia.
    + simpl in *. lia.
Qed.

(** What running a kept action costs, at the place of the entity and elsewhere. *)
Definition run_cost (a : NodeAction) : Z :=
  if bool_decide (n = L) then match a with
    | AnswerRequest i _ _ => only i 1
    | RouteWhenFound m | DeliverWhenFound _ _ m => only (entity_id_ m) 1
    | UserAction _ => 0
    end
  else acost a.

Lemma run_cost_le a : run_cost a <= acost a.
Proof.
  unfold run_cost. case_bool_decide; [|lia]. destruct a; simpl; unfold only; try case_bool_decide; lia.
Qed.

Lemma pays_run_action k t a :
  act_ok id H k a -> (k = id -> t = L) -> pays (run_cost a) (run_action t a).
Proof.
  intros Ha Hk. destruct a as [i h r|msg|i h msg|u]; simpl in Ha |- *.
  - destruct Ha as [-> Ha]. eapply pays_mono; [|apply pays_emit; simpl; naive_solver].
    unfold run_cost, only. simpl. unfold only. repeat case_bool_decide; lia.
  - destruct Ha as [<- Ha]. eapply (pays_bind _ 0); [|intros _; by apply (pays_emit (Consume _))|].
    + apply pays_routeMsgNode; naive_solver.
    + unfold run_cost, route_cost. simpl. unfold only. repeat case_bool_decide; naive_solver lia.
  - destruct Ha as (-> & <- & Ha). apply pays_get. intros c ->.
    eapply (pays_bind (route_cost (entity_id_ msg) t) 0); [|intros _; by apply (pays_emit (Consume _))|].
    + apply pays_if; intros Ht; [apply Z.eqb_eq in Ht|apply Z.eqb_neq in Ht].
      * unfold route_cost. rewrite bool_decide_true by done. apply pays_trigger; naive_solver.
      * apply pays_routeMsgNode; naive_solver.
    + unfold run_cost, route_cost. simpl. unfold only. repeat case_bool_decide; naive_solver lia.
  - eapply pays_mono; [|by apply (pays_emit (CallUser u t))]. unfold run_cost. by case_bool_decide.
Qed.

Lemma pays_run_pending k t c :
  nok c -> (k = id -> t = L) -> pays_at 0 c (run_pending k t).
Proof.
  intros Hc Hk. apply does_get. destruct (pending_lookups_ c !! k) as [l|] eqn:Hl; [|by apply pays_ret].
  assert (cost (take_pending k c) + only k (lsum acost l) = cost c) as Hcost.
  { unfold cost. unfold only. case_bool_decide as Hi.
    - subst k. rewrite pend_take. unfold pend at 1. rewrite Hl. cbn [loc_asks_ take_pending with_pending].
      change (default [] (Some l)) with l. rewrite lsum_nil. lia.
    - rewrite pend_take_ne by done. cbn [loc_asks_ take_pending with_pending]. lia. }
  eapply does_bind; [by apply (does_modify _ _ (fun _ c1 o1 => c1 = take_pending k c /\ o1 = []))|].
  intros ? c1 o1 [-> ->]. eapply does_weaken.
  - refine (pays_for_each l (run_action t) acost _ _ _); [|by apply node_take].
    intros b Hb. eapply pays_mono; [apply run_cost_le|]. apply (pays_run_action k); [|done].
    exact (no_pend _ _ _ _ _ _ Hc k l b Hl Hb).
  - intros ? c' os [H1 H2]. split; [done|]. cbn [app].
    assert (lsum acost l <= only k (lsum acost l)); [|lia]. unfold only. case_bool_decide as Hi; [lia|].
    rewrite (lsum_0 acost); [done|]. intros b Hb.
    pose proof (no_pend _ _ _ _ _ _ Hc k l b Hl Hb) as Hok.
    destruct b; simpl in Hok |- *; try done; apply only_other; naive_solver.
Qed.

Lemma pays_updatePendingRequest k t h :
  (k = id -> t = L /\ h = H) -> pays 0 (updatePendingRequest k t h).
Proof.
  intros Hk. eapply (pays_bind 0 0); [|intros _ c Hc; apply pays_run_pending; naive_solver|lia].
  apply pays_insert_rec. intros Hid. naive_solver.
Qed.

(** At home or at its place, where alone questions and messages for it arrive. *)
Lemma pays_getLocation k h a :
  (k = id -> h = H /\ (n = H \/ n = L)) -> act_ok id H k a -> pays (run_cost a) (getLocation k h a).
Proof.
  intros Hk Ha c Hc. apply does_get, does_registered. rewrite (no_node _ _ _ _ _ _ Hc).
  case_bool_decide as Hr.
  - assert (k = id -> n = L) as Hl by (intros ->; by apply (no_reg _ _ _ _ _ _ Hc)).
    eapply (pays_at_bind 0); [apply pays_insert_rec; [|done]; intros Hid; naive_solver|intros _|].
    + apply (pays_run_action k); [done|]. done.
    + lia.
  - assert (k = id -> n <> L) as Hl.
    { intros -> Hn. apply Hr, (no_reg _ _ _ _ _ _ Hc). done. }
    destruct (LocLookup.exists_ (recs_ c) k) eqn:Hex; cbn [negb].
    + eapply does_bind; [by apply get_rec_free|].
      intros [i [] cur] c1 o1 (Hrec & Hc1 & Hco & ->); unfold rec_ok in Hrec; simpl.
        -- by apply does_assert.
        -- eapply does_weaken; [apply (pays_run_action k); [done|naive_solver|done]|].
           intros ? c' os [H1 H2]. split; [done|lia].
        -- apply does_ret. split; [done|]. rewrite lsum_nil.
           assert (0 <= run_cost a); [|lia]. unfold run_cost.
           destruct a; case_bool_decide; simpl; try apply only_nonneg; lia.
    + destruct (decide (k = id)) as [->|Hne].
      * destruct Hk as [-> Hn]; [done|]. destruct Hn as [Hn|Hn]; [|by destruct (Hl eq_refl)].
        rewrite (proj2 (Z.eqb_eq H n)) by done. cbn [negb].
        eapply does_bind; [by apply (does_ret _ _ (fun _ c1 o1 => c1 = c /\ o1 = []))|].
        intros _ c1 o1 [-> ->]. apply does_and.
        -- eapply does_weaken; [apply (step_pend id H L True n c a []); auto; [naive_solver|intros _; by apply (unknown id c id)|done]|].
           intros ? c' os [Hst _]. apply Hst.
        -- apply (pend_cost id a c _ Ha). intros c' ->. cbn [app]. rewrite lsum_nil. unfold run_cost.
           rewrite bool_decide_false by auto. lia.
      * assert (run_cost a = 0 /\ acost a = 0) as [E1 E2].
        { unfold run_cost. destruct a; simpl in Ha |- *; case_bool_decide; split; try done;
            apply only_other; naive_solver. }
        rewrite E1. refine (pays_bind 0 0 _ _ _ _ _ _ c Hc); [|intros _; rewrite <- E2; by apply pays_pend|lia].
        apply pays_if; intros _; [|apply pays_ret].
        eapply pays_mono; [|apply (pays_emit (Send h (GetLocationRequest k h n))); simpl; naive_solver].
        simpl. by rewrite only_other.
Qed.

(** Routing a message where it arrives. *)
Definition arrival_cost (k : Z) : Z := only k (if bool_decide (n = L) then 1 else 4).

Lemma run_cost_route msg : run_cost (RouteWhenFound msg) = arrival_cost (entity_id_ msg).
Proof. unfold run_cost, arrival_cost. by case_bool_decide. Qed.

Lemma pays_route_home msg c :
  nok c -> n = H -> n <> L -> ~ known id c -> entity_id_ msg = id -> home_node_ msg = H ->
  pays_at 4 c (routeMsgNode id H n msg).
Proof.
  intros Hc Hn Hl Hu He Hh. apply does_and.
  { eapply does_weaken; [apply (routeMsgNode_home id H L True n msg c); naive_solver|].
    intros ? c' os Hst. apply Hst. }
  apply does_get. rewrite (no_node _ _ _ _ _ _ Hc), Z.eqb_refl. cbn [negb].
  eapply does_bind; [by apply (does_emit _ _ (fun _ c1 o1 => c1 = c /\ o1 = [Produce (epoch msg)]))|].
  intros ? c1 o1 [-> ->]. apply does_registered.
  rewrite bool_decide_false by (rewrite (no_reg _ _ _ _ _ _ Hc); tauto).
  apply (pend_cost id (DeliverWhenFound id H msg)); [simpl; naive_solver|]. intros c' ->.
  cbn [app acost]. rewrite He, only_self, lsum_cons, lsum_nil. simpl. lia.
Qed.

Lemma pays_routeMsgEager k h msg :
  entity_id_ msg = k -> (k = id -> h = H /\ home_node_ msg = H /\ (n = H \/ n = L)) ->
  pays (arrival_cost k) (routeMsgEager k h msg).
Proof.
  intros He Hk c Hc. apply does_get, does_registered. rewrite (no_node _ _ _ _ _ _ Hc).
  (* the node to route to, and what it costs from there *)
  eapply (does_bind _ _ _ (fun to c1 o1 => nok c1 /\ cost c1 = cost c /\ o1 = [] /\
    (k = id -> (to = n /\ n = L) \/ (to = L /\ n <> L) \/ (to = n /\ n = H /\ n <> L /\ ~ known id c1)))).
  - case_bool_decide as Hr.
    + assert (k = id -> n = L) as Hl by (intros ->; by apply (no_reg _ _ _ _ _ _ Hc)).
      assert (rec_ok id L True n k (MkRec k Local n)) as Hrec by (intros Hid; naive_solver).
      intros to c1 o1 E. injection E as <- <- <-. split; [|naive_solver].
      exact (quiet_node _ _ _ _ _ _ _ _ (quiet_insert_rec id H L True n k h _ Hrec c Hc _ _ _ eq_refl)).
    + assert (k = id -> n <> L) as Hl.
      { intros -> Hn. by apply Hr, (no_reg _ _ _ _ _ _ Hc). }
      destruct (LocLookup.exists_ (recs_ c) k) eqn:Hex; cbn [negb].
      * eapply does_bind; [by apply get_rec_free|].
        intros r c1 o1 (Hrec & Hc1 & Hco & ->). apply does_ret. split_and!; [done..|].
           intros Hid. destruct (Hrec Hid) as [_ Hs]. specialize (Hl Hid).
           unfold isLocal, isRemote, getRemoteNode. destruct (state_ r); naive_solver.
      * apply does_ret. split_and!; [done..|]. intros Hid. destruct (Hk Hid) as (-> & _ & Hn). right. right.
        assert (n = H) as HH by (destruct Hn; [done|by destruct (Hl Hid)]).
        rewrite (proj2 (Z.eqb_eq H n)) by done. split_and!; [done..|auto|by eapply unknown].
  - intros to c1 o1 (Hc1 & Hco & -> & Hto). apply does_assert. intros _.
    assert (pays_at (arrival_cost k) c1 (routeMsgNode k h to msg)) as Hp.
    + destruct (decide (k = id /\ to = n /\ n <> L)) as [(-> & -> & HnL)|Hno].
      * destruct (Hk eq_refl) as (-> & Hh & _). unfold arrival_cost.
        rewrite only_self, bool_decide_false by done. apply pays_route_home; naive_solver.
      * refine (pays_mono (route_cost k to) _ _ _ _ c1 Hc1).
        -- unfold route_cost, arrival_cost, only. repeat case_bool_decide; naive_solver lia.
        -- apply pays_routeMsgNode; [done|]. intros Hid. destruct (Hk Hid) as (-> & -> & Hn). naive_solver.
    + eapply does_weaken; [exact Hp|]. intros ? c' os [H1 H2]. split; [done|]. cbn [app]. lia.
Qed.

(** Telling the nodes that asked. *)
Lemma tell_all k h d l c :
  does c (for_each l (fun ask => sendEagerUpdate k ask h d))
    (fun _ c' os => c' = c /\ lsum ocost os <= only k (Z.of_nat (length l))).
Proof.
  induction l as [|a l IH]; cbn [for_each].
  - apply does_ret. split; [done|]. rewrite lsum_nil. apply only_nonneg. lia.
  - eapply (does_bind _ _ _ (fun _ c1 o1 => c1 = c /\ lsum ocost o1 <= only k 1)).
    + apply does_get. assert (0 <= only k 1) by (apply only_nonneg; lia).
      destruct (negb (a =? this_node c)); [|apply does_ret; by rewrite lsum_nil].
      apply does_assert. intros _. apply does_emit. rewrite lsum_cons, lsum_nil. simpl. split; [done|lia].
    + intros ? c1 o1 [-> H1]. eapply does_weaken; [exact IH|]. intros ? c2 o2 [-> H2]. split; [done|].
      rewrite lsum_app. cbn [length]. revert H1 H2. unfold only. case_bool_decide; lia.
Qed.

Lemma pays_handleEagerUpdate num k h d :
  (k = id -> d = L /\ h = H) -> pays 0 (handleEagerUpdate num visit k h d).
Proof.
  intros Hk c Hc. apply does_and.
  { eapply does_weaken; [apply (quiet_handleEagerUpdate id H L True n num visit k h d); [naive_solver|done]|].
    intros ? c' os Hq. exact (quiet_node _ _ _ _ _ _ _ _ Hq). }
  apply does_get. do 3 (apply does_assert; intros _).
  eapply (does_bind _ _ _ (fun _ c1 o1 => loc_asks_ c1 = loc_asks_ c /\ pend id c1 = pend id c /\ o1 = []));
    [by apply does_modify|].
  intros ? c1 o1 (E1 & E2 & ->). cbn [app]. unfold cost.
  destruct (loc_asks_ c !! k) as [g|] eqn:Hg; [|apply does_ret; rewrite E1, E2, lsum_nil; lia].
  eapply does_bind; [apply tell_all|]. intros ? c2 o2 [-> H2]. apply does_modify.
  change (pend id (with_asks _ c1)) with (pend id c1). cbn [loc_asks_ with_asks].
  rewrite E1, E2, app_nil_r. revert H2. unfold only. case_bool_decide as Hid.
  - subst k. rewrite lookup_delete_eq, Hg. specialize (visit_size g).
    change (default ∅ (Some ?x)) with x. change (default ∅ None) with (∅ : gset Z). rewrite size_empty. lia.
  - rewrite lookup_delete_ne by done. lia.
Qed.

Lemma pays_routeMsg k h msg from :
  (k = id -> h = H /\ (n = H \/ n = L)) -> pays (arrival_cost k) (routeMsg k h msg from).
Proof.
  intros Hk c Hc. apply does_get. cbv zeta. set (m := setRoute k h _ msg). unfold routePreparedMsg.
  destruct (useEagerProtocol m).
  - apply pays_routeMsgEager; [done|naive_solver|done].
  - refine (pays_bind 0 (arrival_cost k) _ _ _ _ _ _ c Hc); [by apply (pays_emit (Produce _))|intros _|lia].
    change (arrival_cost k) with (arrival_cost (entity_id_ m)). rewrite <- run_cost_route.
    apply pays_getLocation; [naive_solver|]. simpl. naive_solver.
Qed.

(** A message about the entity pays for what it sets off. *)
Lemma pays_receive m :
  msg_ok id H L True n m ->
  exists d, pays d (receive N visit m) /\ d <= mcost n m /\ (0 < mcost n m -> d < mcost n m).
Proof.
  intros Hm. destruct m as [i h q|i a h|i h d|msg]; simpl in Hm |- *.
  - exists (run_cost (AnswerRequest i h q)). split.
    + apply pays_getLocation; [naive_solver|]. simpl. naive_solver.
    + unfold run_cost. simpl. unfold only. repeat case_bool_decide; lia.
  - exists 0. split; [apply pays_updatePendingRequest; naive_solver|]. unfold only. case_bool_decide; lia.
  - exists 0. split; [apply pays_handleEagerUpdate; naive_solver|]. unfold only. case_bool_decide; lia.
  - exists (arrival_cost (entity_id_ msg)). split.
    + apply (pays_routeMsg _ _ (incHops msg)). naive_solver.
    + unfold arrival_cost, only. repeat case_bool_decide; lia.
Qed.

End node.
(** ** All nodes *)

Definition potential (s : Sys) : Z :=
  zsum N (fun n => cost (coords s n)) + lsum (fun p => mcost p.1 p.2) (net s).

Definition concerns (m : LocMsg) : bool :=
  match m with
  | GetLocationRequest i _ _ | UpdateLocation i _ _ | EagerUpdate i _ _ => i =? id
  | Routed m => entity_id_ m =? id
  end.

(** A run of deliveries, with the number of those about the entity. *)
Inductive deliveries : Sys -> nat -> Sys -> Prop :=
  | deliveries_none s : deliveries s 0 s
  | deliveries_about s k n m s1 c s' :
      net s !! k = Some (n, m) -> exec1 N visit s (Deliver k) = Some (Ok s1) -> concerns m = true ->
      deliveries s1 c s' -> deliveries s (S c) s'
  | deliveries_other s k n m s1 c s' :
      net s !! k = Some (n, m) -> exec1 N visit s (Deliver k) = Some (Ok s1) -> concerns m = false ->
      deliveries s1 c s' -> deliveries s c s'.

Lemma concerns_cost n m : concerns m = true -> 0 < mcost n m.
Proof. destruct m; simpl; intros ->%Z.eqb_eq; rewrite only_self; try case_bool_decide; lia. Qed.

Lemma potential_nonneg s : 0 <= potential s.
Proof.
  unfold potential. pose proof (zsum_nonneg N (fun n => cost (coords s n)) (fun n _ => cost_nonneg _)).
  pose proof (lsum_nonneg (fun p => mcost p.1 p.2) (net s) (fun p _ => mcost_nonneg _ _)). lia.
Qed.

Lemma sends_cost os : lsum (fun p => mcost p.1 p.2) (sends os) = lsum ocost os.
Proof.
  induction os as [|o os IH]; [done|]. unfold sends in *.
  destruct o; cbn [omap list_omap]; rewrite ?lsum_cons; cbn [fst snd ocost]; lia.
Qed.

Lemma created_node s n :
  sys_ok id H L s -> created id L s -> node_ok id H L True n (coords s n).
Proof. intros Hs Hc. eapply (node_ok_iff id H L); [|apply (sy_node _ _ _ _ Hs n)]. tauto. Qed.

Lemma potential_step s k n m s' :
  sys_ok id H L s -> created id L s -> net s !! k = Some (n, m) ->
  exec1 N visit s (Deliver k) = Some (Ok s') ->
  created id L s' /\ potential s' <= potential s /\ (concerns m = true -> potential s' < potential s).
Proof.
  intros Hs Hc Hk Hx. pose proof (created_node s n Hs Hc) as Hn. simpl in Hx. rewrite Hk in Hx.
  unfold on_node in Hx. case_bool_decide as Hr; [|done]. injection Hx as Hx.
  apply perform_inv in Hx as (c & os & E & ->).
  destruct (pays_receive n m) as (d & Hp & Hd & Hlt).
  { eapply (msg_ok_mono id H L); [|apply (sy_net _ _ _ _ Hs), (list_elem_of_lookup_2 _ k _ Hk)]. done. }
  destruct (Hp _ Hn _ _ _ E) as [Hok Hcost].
  split.
  - unfold created. cbn [coords with_net]. destruct (decide (L = n)) as [E1|E1].
    + rewrite E1, fn_lookup_insert. by apply (no_reg _ _ _ _ _ _ Hok).
    + rewrite fn_lookup_insert_ne by done. apply Hc.
  - assert (potential (MkSys (<[n:=c]> (coords s)) ((take k (net s) ++ drop (S k) (net s)) ++ sends os)
              (moving s) (trace s ++ acts n os) (routed s)) + mcost n m <= potential s + d) as Hpot.
    { unfold potential. cbn [coords net]. rewrite (lsum_pick _ _ _ _ Hk), lsum_app, sends_cost.
      rewrite (zsum_insert N (fun _ => cost)) by done. cbn [fst snd]. cbn [coords with_net] in Hcost. lia. }
    split; [cbn [coords net moving trace routed with_net] in *; lia|].
    intros Hcn%(concerns_cost n). specialize (Hlt Hcn). cbn [coords net moving trace routed with_net] in *. lia.
Qed.

Lemma deliveries_bounded s c s' :
  sys_ok id H L s -> created id L s -> deliveries s c s' -> Z.of_nat c + potential s' <= potential s.
Proof.
  intros Hs Hc Hd. induction Hd as [s|s k n m s1 c s' Hk Hx Hm Hd IH|s k n m s1 c s' Hk Hx Hm Hd IH].
  - lia.
  - destruct (potential_step s k n m s1 Hs Hc Hk Hx) as (Hc1 & _ & Hp). specialize (Hp Hm).
    pose proof (IH (sys_event N visit id H L s (Deliver k) s1 Hs I Hx) Hc1). lia.
  - destruct (potential_step s k n m s1 Hs Hc Hk Hx) as (Hc1 & Hp & _).
    pose proof (IH (sys_event N visit id H L s (Deliver k) s1 Hs I Hx) Hc1). lia.
Qed.

End settle.
End LocationSettle.
