(* ===== verification/LocationSpec.v ===== *)
(** * What the location coordinators guarantee

    Theorems about runs of [LocationSystem]: messages are neither lost nor
    duplicated and a waiting message holds a unit of its epoch; two runs that go
    wrong; and, with [LocationStatic] and [LocationSettle], that messages to an
    entity that stays arrive. *)

From S2P Require Import Prelude.
From S2P Require Import Effects.
From S2P Require Import Sums.
From S2P Require Import Ids.
From S2P Require Import LocationCache.
From S2P Require Import Location.
From S2P Require Import LocationSystem.
From S2P Require Import LocationStatic.
From S2P Require Import LocationSettle.

Module LocationSpec.
Import LocRecord Location LocationSystem.

(** ** Counting *)

Definition is_payload (p : Z) (m : EntityMsg) : Z := b2z (payload m =? p).
Definition is_epoch (e : Z) (m : EntityMsg) : Z := b2z (epoch m =? e).

(** What a kept function counts for, when it keeps a message. *)
Definition kept (f : EntityMsg -> Z) (a : NodeAction) : Z :=
  match a with RouteWhenFound m | DeliverWhenFound _ _ m => f m | _ => 0 end.
Definition handles (f : EntityMsg -> Z) (o : output) : Z :=
  match o with RunHandler _ _ m | RunRegistered _ m => f m | _ => 0 end.
Definition carries (f : EntityMsg -> Z) (m : LocMsg) : Z :=
  match m with Routed m => f m | _ => 0 end.
Definition units (e : Z) (o : output) : Z :=
  match o with Produce e' => b2z (e' =? e) | Consume e' => - b2z (e' =? e) | _ => 0 end.

Section counts.
Context (N : Z) (visit : gset Z -> list Z).

Definition given (f : EntityMsg -> Z) (s : Sys) : Z := lsum f (routed s).
Definition in_flight (f : EntityMsg -> Z) (s : Sys) : Z := lsum (fun p => carries f p.2) (net s).
Definition waiting (f : EntityMsg -> Z) (s : Sys) : Z :=
  zsum N (fun n => msum (lsum (kept f)) (pending_lookups_ (coords s n))).
Definition handled (f : EntityMsg -> Z) (s : Sys) : Z := lsum (fun p => handles f p.2) (trace s).
(** Units of epoch [e] produced and not yet consumed by the coordinators. *)
Definition produced (e : Z) (s : Sys) : Z := lsum (fun p => units e p.2) (trace s).

(** The weights of [LocationWeight] for a payload and for an epoch. *)
Lemma weights_payload p s :
  LocationConservation.total N (fun q => b2z (q =? p)) (fun _ => 0) s
  = waiting (is_payload p) s + in_flight (is_payload p) s + handled (is_payload p) s.
Proof.
  unfold LocationConservation.total, waiting, in_flight, handled.
  f_equal; [f_equal|].
  - apply zsum_ext. intros i _. apply msum_ext. intros l. apply lsum_ext.
    intros [] _; simpl; unfold LocationWeight.w_msg, is_payload; lia.
  - apply lsum_ext. by intros [n []] _.
Qed.

Lemma weights_epoch e s :
  LocationConservation.total N (fun _ => 0) (fun q => b2z (q =? e)) s
  = waiting (is_epoch e) s - produced e s.
Proof.
  unfold LocationConservation.total, waiting, produced.
  rewrite (lsum_0 _ (net s)) by (intros [n []] _; done).
  assert (forall l, lsum (fun p : Z * output =>
      LocationConservation.w_done (fun _ => 0) (fun q => b2z (q =? e)) p.2) l = - lsum (fun p => units e p.2) l) as ->.
  { induction l as [|[n o] l IH]; [done|]. rewrite !lsum_cons, IH. 
    destruct o; simpl; unfold LocationWeight.w_msg; lia. }
  by rewrite Z.add_0_r, Z.add_opp_r.
Qed.

Lemma kept_nonneg f a : (forall m, 0 <= f m) -> 0 <= kept f a.
Proof. intros Hf. destruct a; simpl; auto with lia. Qed.

(** C11: Whatever the program does (entities registered, migrated, unregistered,
    messages routed, caches dropped, coordinator messages delivered in any
    order), a message given to the coordinators is at every moment in exactly one
    place: on its way between two nodes, kept on one node until its entity is
    found, or handled; none is lost and none handled twice. And of every epoch
    the coordinators hold exactly one unit for each message of it that is kept,
    so the epoch cannot be found terminated meanwhile. *)
Theorem routed_exactly_once s :
  reach N visit s ->
  (forall p, handled (is_payload p) s + in_flight (is_payload p) s + waiting (is_payload p) s
             = given (is_payload p) s) /\
  (forall p, 0 <= handled (is_payload p) s <= given (is_payload p) s) /\
  (forall e, produced e s = waiting (is_epoch e) s).
Proof.
  intros Hr.
  assert (forall p, handled (is_payload p) s + in_flight (is_payload p) s + waiting (is_payload p) s
             = given (is_payload p) s) as Hp.
  { intros p. pose proof (LocationConservation.total_reach N visit (fun q => b2z (q =? p)) (fun _ => 0) s Hr)
      as [Ht _]. rewrite weights_payload in Ht.
    change (lsum _ (routed s)) with (given (is_payload p) s) in Ht. lia. }
  assert (forall p m, 0 <= is_payload p m) as H0 by (intros; apply b2z_range).
  split_and!; [done|intros p; split|intros e].
  - apply lsum_nonneg. intros [n []] _; simpl; auto with lia.
  - assert (0 <= in_flight (is_payload p) s); [|assert (0 <= waiting (is_payload p) s); [|specialize (Hp p); lia]].
    + apply lsum_nonneg. intros [n []] _; simpl; auto with lia.
    + apply zsum_nonneg. intros i _. apply msum_nonneg. intros l. apply lsum_nonneg.
      intros a _. by apply kept_nonneg.
  - pose proof (LocationConservation.total_reach N visit (fun _ => 0) (fun q => b2z (q =? e)) s Hr)
      as [Ht _]. rewrite weights_epoch, lsum_0 in Ht by done. lia.
Qed.

End counts.

(** ** Runs *)

(** A message of the program, with its handler and an epoch. *)
Definition user_msg (p : Z) (small : bool) : EntityMsg :=
  MkMsg p 5 (if small then 8 else 4096) false 0 0 0 3 0 0.
Definition run (N : Z) (es : list event) : option (res Sys) := exec N elements init es.
Definition result (r : option (res Sys)) : Sys := match r with Some (Ok s) => s | _ => init end.

Lemma location_run_reach N es s : run N es = Some (Ok s) -> reach N elements s.
Proof. apply location_exec_reach. constructor. Qed.

Lemma result_reach N es :
  match run N es with Some (Ok _) => true | _ => false end = true -> reach N elements (result (run N es)).
Proof. intros H. apply (location_run_reach N es). destruct (run N es) as [[s|]|]; done. Qed.

(** A message routed by node 0 waits on home node 1, where entity 9 has not been
    created yet, while another one is answered. *)
Definition waiting_run : list event :=
  [Route 0 9 1 (user_msg 7 true); Deliver 0; Route 0 9 1 (user_msg 8 false)].

Lemma routed_exactly_once_witness :
  (waiting 2 (is_payload 7) (result (run 2 waiting_run)) = 1 /\
   waiting 2 (is_epoch 5) (result (run 2 waiting_run)) = 2) /\
  ((forall p, handled (is_payload p) (result (run 2 waiting_run))
     + in_flight (is_payload p) (result (run 2 waiting_run))
     + waiting 2 (is_payload p) (result (run 2 waiting_run))
     = given (is_payload p) (result (run 2 waiting_run))) /\
   (forall p, 0 <= handled (is_payload p) (result (run 2 waiting_run))
              <= given (is_payload p) (result (run 2 waiting_run))) /\
   (forall e, produced e (result (run 2 waiting_run))
              = waiting 2 (is_epoch e) (result (run 2 waiting_run)))).
Proof.
  split; [split; vm_compute; reflexivity|].
  apply (routed_exactly_once 2 elements). apply result_reach. vm_compute. reflexivity.
Defined.

Definition small_msg (p e : Z) : EntityMsg := MkMsg p e 8 false 0 0 0 3 0 0.

(** Node 0 routes a small message to entity 9, whose home is node 1 where it lives;
    the entity moves to node 0 before the message arrives. *)
Definition bounce_run (p e : Z) : list event :=
  [ Register 1 9 1 None;
    Route 0 9 1 (small_msg p e);
    Emigrate 1 9 0 1 None;
    Immigrate 0;
    Deliver 0;        (* node 1 sends the message back to node 0, which had asked *)
    Deliver 1;        (* it is handled there, and node 1 is told where *)
    Deliver 1 ].      (* node 1 tells the node that had asked: node 0 *)

(** A message that is forwarded back to the node it came from makes that node
    abort: the forwarding node remembers the sender among those to be told the
    entity's place ([loc_asks_]), the delivery tells the forwarding node, and this
    one tells the sender, whose handler asserts that it is not itself the place
    ([handleEagerUpdate]). It takes one message and one migration; the message
    itself has been handled. *)
Theorem eager_update_aborts p e :
  exists s m, run 2 (bounce_run p e) = Some (Ok s) /\
    trace s = [(0, Produce e); (0, RunHandler 3 0 m); (0, Consume e)] /\ payload m = p /\
    exec1 2 elements s (Deliver 1) = Some (Stop AssertFailed).
Proof.
  destruct (run 2 (bounce_run p e)) as [[s|]|] eqn:Hr; [|vm_compute in Hr; discriminate Hr..].
  assert (s = result (run 2 (bounce_run p e))) as Hs by (by rewrite Hr). clear Hr.
  exists s. eexists. split_and!; [done|subst s; vm_compute; reflexivity..].
Qed.

(** Node 0 asks for entity 9, which is then created on node 0 itself and moves to
    node 2 before the answer arrives. *)
Definition stale_run (p e : Z) : list event :=
  [ Lookup 0 9 1 100;
    Deliver 0;                  (* the request waits at home, node 1 *)
    Register 0 9 1 None;
    Deliver 0;                  (* home learns of it and answers: node 0 *)
    Emigrate 0 9 2 1 None;
    Immigrate 0;
    Deliver 1;                  (* home learns that it is on node 2 *)
    Deliver 0;                  (* the answer arrives *)
    Route 0 9 1 (small_msg p e) ].

(** The same with two questions. *)
Definition stale_run2 (p e : Z) : list event :=
  [ Lookup 0 9 1 100; Lookup 0 9 1 101; Deliver 0; Deliver 0; Register 0 9 1 None;
    Deliver 0;                  (* home answers both *)
    Emigrate 0 9 2 1 None; Immigrate 0;
    Deliver 2; Deliver 0; Route 0 9 1 (small_msg p e);
    Deliver 0 ].                (* the second answer *)

(** An answer to a location request that arrives late replaces newer
    knowledge ([updatePendingRequest] does not look at what is there): node 0
    then holds that the entity is on node 0, where it is not. A message routed
    there waits although the entity lives on node 2, home knows it, and nothing
    more is under way that could release it; and with a second late answer the
    message is handled on node 0, where the entity is not. *)
Theorem stale_answer p e :
  (exists s m, run 3 (stale_run p e) = Some (Ok s) /\
     net s = [] /\ moving s = [] /\
     local_registered_ (coords s 2) = {[9]} /\
     pending_lookups_ (coords s 0) !! 9 = Some [DeliverWhenFound 9 1 m] /\ payload m = p) /\
  (exists s m, run 3 (stale_run2 p e) = Some (Ok s) /\
     local_registered_ (coords s 0) = ∅ /\ local_registered_ (coords s 2) = {[9]} /\
     In (0, RunHandler 3 0 m) (trace s) /\ payload m = p).
Proof.
  split.
  - destruct (run 3 (stale_run p e)) as [[s|]|] eqn:Hr; [|vm_compute in Hr; discriminate Hr..].
    assert (s = result (run 3 (stale_run p e))) as Hs by (by rewrite Hr). clear Hr.
    exists s. eexists. split_and!; [done|subst s; vm_compute; reflexivity..].
  - destruct (run 3 (stale_run2 p e)) as [[s|]|] eqn:Hr; [|vm_compute in Hr; discriminate Hr..].
    assert (s = result (run 3 (stale_run2 p e))) as Hs by (by rewrite Hr). clear Hr.
    exists s. eexists. split_and!; [done|subst s; vm_compute; reflexivity..| |];
      [subst s; vm_compute; do 3 right; left; reflexivity|reflexivity].
Qed.

(** ** An entity that stays *)

Definition is_entity (id : Z) (m : EntityMsg) : Z := b2z (entity_id_ m =? id).

(** C12: An entity that is created on one node [L] (before or after messages to it
    are routed) and stays there: whatever caches are dropped and entries evicted,
    and in whatever order the coordinators' messages arrive, its messages are
    handled on node [L] only; and once it is created and no coordinator message
    about it is under way, no message to it and no question about it waits on any
    node: all have arrived. *)
Theorem static_delivery N visit id H L s :
  LocationStatic.static_reach N visit id H L s ->
  (forall n o m, In (n, o) (trace s) ->
     (exists han from, o = RunHandler han from m) \/ (exists act, o = RunRegistered act m) ->
     entity_id_ m = id -> n = L) /\
  (id ∈ local_registered_ (coords s L) -> (forall d m, In (d, m) (net s) -> LocationSettle.concerns id m = false) ->
   (forall n, default [] (pending_lookups_ (coords s n) !! id) = []) /\
   waiting N (is_entity id) s = 0).
Proof.
  intros Hr. apply LocationStatic.sys_reach in Hr as Hs. split.
  - intros n o m Ho%list_elem_of_In Hm He.
    pose proof (LocationStatic.sy_trace _ _ _ _ Hs n o Ho) as Hok.
    destruct Hm as [(han & from & ->)|(act & ->)]; by destruct (Hok He).
  - intros Hc Hq. assert (forall n, LocationStatic.pend id (coords s n) = []) as Hp.
    { intros n. apply (LocationStatic.static_none_pending id H L s Hs Hc).
      intros d m Hin%list_elem_of_In%Hq. by destruct m; simpl in *; apply Z.eqb_neq in Hin. }
    split; [done|]. apply zsum_0. intros n _. apply msum_0. intros k l Hl. apply lsum_0. intros a Ha.
    destruct (decide (k = id)) as [->|Hk].
    + specialize (Hp n). unfold LocationStatic.pend in Hp. rewrite Hl in Hp. simpl in Hp. subst l.
      by apply not_elem_nil in Ha.
    + pose proof (LocationStatic.no_pend _ _ _ _ _ _ (LocationStatic.sy_node _ _ _ _ Hs n) k l a Hl Ha) as Hok.
      unfold is_entity. destruct a as [| m | i h m |]; simpl in Hok |- *; [done|..|done].
      * destruct Hok as [-> _]. by rewrite (proj2 (Z.eqb_neq k id) Hk).
      * destruct Hok as (_ & -> & _). by rewrite (proj2 (Z.eqb_neq k id) Hk).
Qed.

(** Entity 9 has home node 1 and is created on node 2 after node 0 has routed a
    small and a large message to it. *)
Definition static_run : list event :=
  [ Route 0 9 1 (user_msg 7 true); Route 0 9 1 (user_msg 8 false); Deliver 0; Deliver 0;
    Register 2 9 1 None ] ++ repeat (Deliver 0) 7.

Lemma static_delivery_witness :
  net (result (run 3 static_run)) = [] /\
  handled (is_entity 9) (result (run 3 static_run)) = 2 /\
  (forall n, default [] (pending_lookups_ (coords (result (run 3 static_run)) n) !! 9) = []).
Proof.
  assert (net (result (run 3 static_run)) = []) as Hn by (vm_compute; reflexivity).
  split; [exact Hn|]. split; [vm_compute; reflexivity|].
  apply (static_delivery 3 elements 9 1 2).
  - apply (LocationStatic.static_run_reach 3 elements 9 1 2 init static_run).
    + constructor.
    + repeat constructor; done.
    + vm_compute. reflexivity.
  - vm_compute. reflexivity.
  - rewrite Hn. by intros d m [].
Defined.

(** C13: And the traffic about such an entity comes to an end: once it is created,
    only a bounded number of coordinator messages about it are delivered (as long
    as the program routes no more to it), however deliveries are ordered and
    mixed with those about other entities. With [static_delivery]: whatever was
    routed to it arrives. The nodes remembered for an entity are visited once
    each. *)
Theorem static_settles N visit id H L s :
  (forall g : gset Z, (length (visit g) <= size g)%nat) ->
  LocationStatic.static_reach N visit id H L s -> id ∈ local_registered_ (coords s L) ->
  exists b : nat, forall c s', LocationSettle.deliveries N visit id s c s' -> (c <= b)%nat.
Proof.
  intros Hv Hr Hc. exists (Z.to_nat (LocationSettle.potential N id L s)). intros c s' Hd.
  assert (forall g : gset Z, Z.of_nat (length (visit g)) <= Z.of_nat (size g)) as Hv' by (intros g; specialize (Hv g); lia).
  pose proof (LocationSettle.deliveries_bounded N visit id H L Hv' s c s'
    (LocationStatic.sys_reach _ _ _ _ _ _ Hr) Hc Hd).
  pose proof (LocationSettle.potential_nonneg N id L s'). lia.
Qed.

(** The run above at the moment the entity is created. *)
Lemma static_settles_witness :
  LocationSettle.potential 3 9 2 (result (run 3 (take 5 static_run))) = 11 /\
  exists b : nat, forall c s',
    LocationSettle.deliveries 3 elements 9 (result (run 3 (take 5 static_run))) c s' -> (c <= b)%nat.
Proof.
  split; [vm_compute; reflexivity|]. apply (static_settles 3 elements 9 1 2).
  - intros g. reflexivity.
  - apply (LocationStatic.static_run_reach 3 elements 9 1 2 init (take 5 static_run)).
    + constructor.
    + repeat constructor; done.
    + vm_compute. reflexivity.
  - vm_compute. reflexivity.
Defined.

End LocationSpec.
