(* ===== verification/Region.v ===== *)
(** * Regions of nodes

    Models [src/vt/group/region]: the sets of nodes a group can be made of. A
    region is a [Range] (bounds and a stride), a [List] it owns, or a
    [ShallowList], a pointer into memory it does not own. The class's virtual
    methods are functions by cases on the three.

    [RegionSpec] says which nodes a region has ([members]) and that the
    operations respect it: [splitN], the one the construction of groups uses,
    cuts a region into non-empty pieces that give back its members in order. Two
    methods of [Range] do not respect it for strides other than one. *)

From S2P Require Import Prelude.
From S2P Require Import Sums.

Module Region.

(** [NodeType]. *)
Abbreviation BoundType := i16.

Record Range := MkRange {
  lo_ : Z;
  hi_ : Z;
  stride_ : Z;
  made_list_ : bool;
  made : list Z                     (* [list_] *)
}.
Record ListR := MkList { is_sorted_ : bool; list_ : list Z }.
(** [bound_]: what is in memory from the pointer on. *)
Record ShallowList := MkShallow { size_ : Z; bound_ : list Z }.

Inductive Region := RRange (r : Range) | RList (l : ListR) | RShallow (s : ShallowList).

(** ** The library's binary search on a vector *)

Fixpoint lower_bound_loop (fuel : nat) (l : list Z) (first len x : Z) : Z :=
  match fuel with
  | O => first
  | S fuel =>
      if 0 <? len then
        let half := len `div` 2 in
        let middle := first + half in
        if default 0 (l !! Z.to_nat middle) <? x
        then lower_bound_loop fuel l (middle + 1) (len - half - 1) x
        else lower_bound_loop fuel l first half x
      else first
  end.
Definition lower_bound (l : list Z) (x : Z) : Z :=
  lower_bound_loop (S (length l)) l 0 (Z.of_nat (length l)) x.
Definition binary_search (l : list Z) (x : Z) : bool :=
  match l !! Z.to_nat (lower_bound l x) with
  | Some y => negb (x <? y)
  | None => false
  end.

(** ** Range *)

(** The constructor; the arguments are converted on the way in. *)
Definition makeRange (in_lo in_hi in_stride : Z) : res Range :=
  vtAssert (1 <=? wrap BoundType in_stride)
    (Ok (MkRange (wrap BoundType in_lo) (wrap BoundType in_hi) (wrap BoundType in_stride) false [])).

Definition range_getSize (r : Range) : Z := wrap u64 (Z.quot (hi_ r - lo_ r) (stride_ r)).

Definition range_contains (r : Range) (node : Z) : bool :=
  if made_list_ r then binary_search (made r) node
  else (lo_ r <=? node) && (node <? hi_ r) && (Z.rem node (stride_ r) =? 0).

(** [for (i = lo_; i < hi_; i += stride_)]: [i] is a [BoundType] and can wrap. *)
Fixpoint makeList_loop (fuel : nat) (hi stride i : Z) : option (list Z) :=
  if i <? hi then
    match fuel with
    | O => None
    | S fuel => (i ::.) <$> makeList_loop fuel hi stride (wrap BoundType (i + stride))
    end
  else Some [].

(** A [BoundType] has [2^16] values: a loop longer than that does not end. *)
Definition makeList_fuel : nat := Z.to_nat (2 ^ 16).

Definition range_makeList (r : Range) : res (list Z * Range) :=
  if made_list_ r then Ok (made r, r)
  else match makeList_loop makeList_fuel (hi_ r) (stride_ r) (lo_ r) with
       | Some l => Ok (l, MkRange (lo_ r) (hi_ r) (stride_ r) true l)
       | None => Stop NoReturn
       end.

(** [Range(in_other, in_remove_extent)]. *)
Definition range_drop (r : Range) (in_remove_extent : Z) : res Range :=
  makeRange (lo_ r + in_remove_extent * stride_ r) (hi_ r) (stride_ r).

Definition range_tail (r : Range) : res Range := makeRange (lo_ r + stride_ r) (hi_ r) (stride_ r).

Definition range_split (r : Range) : res (Range * Range) :=
  let size := range_getSize r in
  let span := Z.quot (hi_ r - lo_ r) 2 in
  vtAssert (2 <=? size)
    (r1 ← makeRange (lo_ r) (lo_ r + span) (stride_ r);
     r2 ← makeRange (lo_ r + span) (hi_ r) (stride_ r);
     Ok (r1, r2)).

(** The body of [splitN]'s loop is run [n] times from [split] on; the regions are
    those given to [apply], in order. *)
Fixpoint range_splitN_loop (n : nat) (split num_splits child_size cur_lo : Z) (r : Range)
    : res (list Range) :=
  match n with
  | O => Ok []
  | S n =>
      let hi_bound := if split =? num_splits - 1 then hi_ r
                      else Z.min (hi_ r) (cur_lo + child_size * stride_ r) in
      r1 ← makeRange cur_lo hi_bound (stride_ r);
      rs ← range_splitN_loop n (split + 1) num_splits child_size
             (wrap BoundType (cur_lo + child_size * stride_ r)) r;
      Ok (r1 :: rs)
  end.
Definition range_splitN (nsplits : Z) (r : Range) : res (list Range) :=
  let size := wrap i32 (range_getSize r) in
  let num_splits := Z.min nsplits size in
  range_splitN_loop (Z.to_nat num_splits) 0 num_splits (Z.quot size num_splits) (lo_ r) r.

(** ** List *)

Definition list_getSize (l : ListR) : Z := Z.of_nat (length (list_ l)).
Definition list_sort (l : ListR) : ListR :=
  if is_sorted_ l then l else MkList true (merge_sort Z.le (list_ l)).
Definition list_contains (l : ListR) (node : Z) : bool :=
  if is_sorted_ l then binary_search (list_ l) node else existsb (Z.eqb node) (list_ l).
Definition list_drop (l : ListR) (in_remove_extent : Z) : ListR :=
  MkList (is_sorted_ l) (drop (Z.to_nat in_remove_extent) (list_ l)).
(** The constructor from a pointer and a size. *)
Definition makeListFrom (mem : list Z) (size : Z) (is_sorted : bool) : ListR :=
  MkList is_sorted (take (Z.to_nat size) mem).
Definition list_head (l : ListR) : res Z :=
  match list_ l with x :: _ => Ok x | [] => Stop AssertFailed end.
Definition list_tail (l : ListR) : ListR := MkList false (drop 1 (list_ l)).
Definition list_split (l : ListR) : res (ListR * ListR) :=
  let size := list_getSize l in
  vtAssert (2 <=? size)
    (let half := Z.to_nat (size `div` 2) in
     Ok (MkList false (take half (list_ l)), MkList false (drop half (list_ l)))).
Fixpoint list_splitN_loop (n : nat) (split num_splits child_size size cur_idx : Z) (l : ListR)
    : list ListR :=
  match n with
  | O => []
  | S n =>
      let cur_max := if split =? num_splits - 1 then size else Z.min size (cur_idx + child_size) in
      MkList false (take (Z.to_nat (cur_max - cur_idx)) (drop (Z.to_nat cur_idx) (list_ l)))
        :: list_splitN_loop n (split + 1) num_splits child_size size cur_max l
  end.
Definition list_splitN (nsplits : Z) (l : ListR) : list ListR :=
  let size := wrap i32 (list_getSize l) in
  let num_splits := Z.min nsplits size in
  list_splitN_loop (Z.to_nat num_splits) 0 num_splits (Z.quot size num_splits) size 0 l.

(** ** ShallowList *)

Definition shallow_of_list (l : list Z) : ShallowList := MkShallow (Z.of_nat (length l)) l.
Definition shallow_nodes (s : ShallowList) : list Z := take (Z.to_nat (size_ s)) (bound_ s).
Definition shallow_contains (s : ShallowList) (node : Z) : bool :=
  existsb (Z.eqb node) (shallow_nodes s).
(** [*bound_]; a read beyond the memory is undefined, here a stop. *)
Definition shallow_head (s : ShallowList) : res Z :=
  match bound_ s with x :: _ => Ok x | [] => Stop AbortCalled end.
Definition shallow_tail (s : ShallowList) : ShallowList :=
  MkShallow (wrap u64 (size_ s - 1)) (drop 1 (bound_ s)).
Definition shallow_split (s : ShallowList) : res (ShallowList * ShallowList) :=
  vtAssert (2 <=? size_ s)
    (let c1_size := size_ s `div` 2 in
     Ok (MkShallow c1_size (bound_ s), MkShallow (size_ s - c1_size) (drop (Z.to_nat c1_size) (bound_ s)))).
(** [cur] is [cur_bound - bound_]. *)
Fixpoint shallow_splitN_loop (n : nat) (split num_splits child_size size cur : Z) (s : ShallowList)
    : list ShallowList :=
  match n with
  | O => []
  | S n =>
      let max_left := size - cur in
      let min_val := if split =? num_splits - 1 then max_left else Z.min child_size (wrap i32 max_left) in
      MkShallow (wrap u64 min_val) (drop (Z.to_nat cur) (bound_ s))
        :: shallow_splitN_loop n (split + 1) num_splits child_size size (cur + min_val) s
  end.
Definition shallow_splitN (nsplits : Z) (s : ShallowList) : list ShallowList :=
  let size := wrap i32 (size_ s) in
  let num_splits := Z.min nsplits size in
  shallow_splitN_loop (Z.to_nat num_splits) 0 num_splits (Z.quot size num_splits) size 0 s.

(** ** The virtual methods *)

Definition getSize (r : Region) : Z :=
  match r with RRange r => range_getSize r | RList l => list_getSize l | RShallow s => size_ s end.
Definition sort (r : Region) : res Region :=
  match r with
  | RRange _ => Ok r
  | RList l => Ok (RList (list_sort l))
  | RShallow _ => Stop AssertFailed
  end.
Definition contains (r : Region) (node : Z) : bool :=
  match r with
  | RRange r => range_contains r node
  | RList l => list_contains l node
  | RShallow s => shallow_contains s node
  end.
Definition makeList (r : Region) : res (list Z * Region) :=
  match r with
  | RRange r => '(l, r) ← range_makeList r; Ok (l, RRange r)
  | RList l => Ok (list_ l, RList l)
  | RShallow _ => Stop AssertFailed
  end.
Definition isList (r : Region) : bool := match r with RRange _ => false | _ => true end.
Definition head (r : Region) : res Z :=
  match r with RRange r => Ok (lo_ r) | RList l => list_head l | RShallow s => shallow_head s end.
Definition tail (r : Region) : res Region :=
  match r with
  | RRange r => RRange <$> range_tail r
  | RList l => Ok (RList (list_tail l))
  | RShallow s => Ok (RShallow (shallow_tail s))
  end.
Definition split (r : Region) : res (Region * Region) :=
  match r with
  | RRange r => '(a, b) ← range_split r; Ok (RRange a, RRange b)
  | RList l => '(a, b) ← list_split l; Ok (RList a, RList b)
  | RShallow s => '(a, b) ← shallow_split s; Ok (RShallow a, RShallow b)
  end.
(** A copy of a [ShallowList] owns its nodes and is taken to be sorted. *)
Definition copy (r : Region) : Region :=
  match r with
  | RShallow s => RList (makeListFrom (bound_ s) (size_ s) true)
  | _ => r
  end.
Definition splitN (nsplits : Z) (r : Region) : res (list Region) :=
  match r with
  | RRange r => rs ← range_splitN nsplits r; Ok (map RRange rs)
  | RList l => Ok (map RList (list_splitN nsplits l))
  | RShallow s => Ok (map RShallow (shallow_splitN nsplits s))
  end.

End Region.

(** ** What regions are, and that the operations respect it *)

Module RegionSpec.
Import Region.

(** The nodes of a range: [lo], [lo + stride], ... below [hi]. *)
Definition range_count (lo hi stride : Z) : Z := (hi - lo + stride - 1) / stride.
Definition range_nodes (lo hi stride : Z) : list Z :=
  (fun k => lo + k * stride) <$> seqZ 0 (range_count lo hi stride).

Definition members (r : Region) : list Z :=
  match r with
  | RRange r => range_nodes (lo_ r) (hi_ r) (stride_ r)
  | RList l => list_ l
  | RShallow s => shallow_nodes s
  end.

(** Bounds far enough below the largest [BoundType] that no step over the range
    wraps. An empty range may begin up to a stride after its end (so does the tail
    of the last node). *)
Record range_ok (r : Range) : Prop := {
  ro_stride : 1 <= stride_ r;
  ro_lo : 0 <= lo_ r;
  ro_order : lo_ r < hi_ r + stride_ r;
  ro_hi : hi_ r + stride_ r <= 2 ^ 15;
  ro_made : made_list_ r = true -> made r = range_nodes (lo_ r) (hi_ r) (stride_ r)
}.

Definition region_ok (r : Region) : Prop :=
  match r with
  | RRange r => range_ok r
  | RList l => Z.of_nat (length (list_ l)) < 2 ^ 31 /\ (is_sorted_ l = true -> Sorted Z.le (list_ l))
  | RShallow s => 0 <= size_ s <= Z.of_nat (length (bound_ s)) /\ size_ s < 2 ^ 31
  end.

(** *** Nodes of a range *)

Lemma elem_of_range_nodes lo hi s x :
  1 <= s -> x ∈ range_nodes lo hi s <-> lo <= x < hi /\ (s | x - lo).
Proof.
  intros Hs. unfold range_nodes, range_count. rewrite list_elem_of_fmap. setoid_rewrite elem_of_seqZ. split.
  - intros (k & -> & Hk). split; [|exists k; lia]. split; [nia|].
    assert (k + 1 <= (hi - lo + s - 1) / s) as H by lia.
    apply Z.mul_le_mono_nonneg_r with (p := s) in H; [|lia].
    pose proof (Z.mul_div_le (hi - lo + s - 1) s). lia.
  - intros [Hx [k Hk]]. exists k. split; [lia|]. split; [nia|].
    apply Z.lt_le_trans with (k + 1); [lia|]. simpl.
    apply Z.div_le_lower_bound; nia.
Qed.

Lemma range_nodes_nil lo hi s : 1 <= s -> hi <= lo -> range_nodes lo hi s = [].
Proof.
  intros Hs Hl. destruct (range_nodes lo hi s) as [|x l] eqn:E; [done|].
  assert (x ∈ range_nodes lo hi s) as H by (rewrite E; left).
  apply elem_of_range_nodes in H; lia.
Qed.

Lemma range_nodes_app lo mid hi s k :
  1 <= s -> 0 <= k -> mid = lo + k * s -> mid <= hi ->
  range_nodes lo hi s = range_nodes lo mid s ++ range_nodes mid hi s.
Proof.
  intros Hs Hk -> Hm. unfold range_nodes, range_count.
  replace (hi - lo + s - 1) with ((hi - (lo + k * s) + s - 1) + k * s) by lia.
  replace (lo + k * s - lo + s - 1) with (s - 1 + k * s) by lia.
  rewrite !Z.div_add by lia. rewrite (Z.div_small (s - 1)) by lia.
  assert (0 <= (hi - (lo + k * s) + s - 1) / s) as Hn by (apply Z.div_pos; lia).
  rewrite (Z.add_comm _ k), seqZ_app by lia. rewrite fmap_app. f_equal.
  rewrite (Z.add_comm 0 k), <- (fmap_add_seqZ k 0), <- list_fmap_compose.
  apply list_fmap_ext. intros i x _. simpl. lia.
Qed.

Lemma range_nodes_cons lo hi s :
  1 <= s -> lo < hi -> range_nodes lo hi s = lo :: range_nodes (lo + s) hi s.
Proof.
  intros Hs Hl. destruct (decide (lo + s <= hi)).
  - rewrite (range_nodes_app lo (lo + s) hi s 1) by lia.
    unfold range_nodes at 1, range_count.
    replace (lo + s - lo + s - 1) with (s - 1 + 1 * s) by lia.
    rewrite Z.div_add, Z.div_small by lia. simpl. f_equal. lia.
  - rewrite (range_nodes_nil (lo + s)) by lia. unfold range_nodes, range_count.
    replace (hi - lo + s - 1) with (hi - lo - 1 + 1 * s) by lia.
    rewrite Z.div_add, Z.div_small by lia. simpl. f_equal. lia.
Qed.

(** *** Operations of a range *)

Lemma wrap_bound x : - 2 ^ 15 <= x < 2 ^ 15 -> wrap BoundType x = x.
Proof.
  intros Hx. apply wrap_id; [done|].
  unfold in_ty. change (tmin i16) with (- 2 ^ 15). change (tmax i16) with (2 ^ 15 - 1). lia.
Qed.

Lemma wrap_size x : 0 <= x < 2 ^ 31 -> wrap i32 x = x /\ wrap u64 x = x.
Proof.
  intros Hx. split; apply wrap_id; try done.
  - unfold in_ty. change (tmin i32) with (- 2 ^ 31). change (tmax i32) with (2 ^ 31 - 1). lia.
  - unfold in_ty. change (tmin u64) with 0. change (tmax u64) with (2 ^ 64 - 1). lia.
Qed.

Lemma makeRange_ok lo hi s :
  1 <= s < 2 ^ 15 -> - 2 ^ 15 <= lo < 2 ^ 15 -> - 2 ^ 15 <= hi < 2 ^ 15 ->
  makeRange lo hi s = Ok (MkRange lo hi s false []).
Proof.
  intros. unfold makeRange. rewrite !wrap_bound by lia.
  destruct (Z.leb_spec 1 s); [done|lia].
Qed.

Lemma range_size_ok r :
  range_ok r -> range_getSize r = Z.max 0 ((hi_ r - lo_ r) / stride_ r) /\ range_getSize r < 2 ^ 15.
Proof.
  intros [Hs Hl Ho Hh _]. unfold range_getSize.
  assert (Z.quot (hi_ r - lo_ r) (stride_ r) = Z.max 0 ((hi_ r - lo_ r) / stride_ r)) as ->.
  { destruct (decide (lo_ r <= hi_ r)).
    - rewrite Z.quot_div_nonneg by lia. pose proof (Z.div_pos (hi_ r - lo_ r) (stride_ r)). lia.
    - assert ((hi_ r - lo_ r) / stride_ r = -1) as ->.
      { symmetry. apply (Z.div_unique _ _ _ (hi_ r - lo_ r + stride_ r)); lia. }
      rewrite <- (Z.opp_involutive (hi_ r - lo_ r)), Z.quot_opp_l, Z.quot_small by lia. lia. }
  assert ((hi_ r - lo_ r) / stride_ r <= hi_ r - lo_ r \/ hi_ r < lo_ r) as Hle.
  { destruct (decide (lo_ r <= hi_ r)); [left|right; lia]. apply Z.div_le_upper_bound; nia. }
  assert ((hi_ r - lo_ r) / stride_ r < 2 ^ 15).
  { destruct Hle; [lia|]. apply Z.div_lt_upper_bound; nia. }
  destruct (wrap_size (Z.max 0 ((hi_ r - lo_ r) / stride_ r))) as [_ ->]; lia.
Qed.

Lemma makeList_loop_ok fuel lo hi s :
  1 <= s -> 0 <= lo < hi + s -> hi + s <= 2 ^ 15 -> hi - lo <= Z.of_nat fuel ->
  makeList_loop fuel hi s lo = Some (range_nodes lo hi s).
Proof.
  revert lo. induction fuel as [|n IH]; intros lo Hs Hl Hh Hf; simpl; destruct (Z.ltb_spec lo hi);
    try lia; try (by rewrite range_nodes_nil by lia).
  rewrite wrap_bound, IH, (range_nodes_cons lo) by lia. done.
Qed.

Lemma range_makeList_ok r :
  range_ok r -> exists r', range_makeList r = Ok (range_nodes (lo_ r) (hi_ r) (stride_ r), r') /\
    lo_ r' = lo_ r /\ hi_ r' = hi_ r /\ stride_ r' = stride_ r /\ range_ok r'.
Proof.
  intros [Hs Hl Ho Hh Hm]. unfold range_makeList. destruct (made_list_ r) eqn:E.
  - exists r. rewrite Hm by done. split_and!; try done. split; auto.
  - rewrite makeList_loop_ok; [|lia..|unfold makeList_fuel; lia].
    eexists. split; [done|]. split_and!; done.
Qed.

Lemma range_tail_ok r :
  range_ok r -> lo_ r < hi_ r ->
  exists r', range_tail r = Ok r' /\ range_ok r' /\ lo_ r' = lo_ r + stride_ r /\ hi_ r' = hi_ r /\
    stride_ r' = stride_ r.
Proof.
  intros [Hs Hl Ho Hh Hm] Hn. unfold range_tail. rewrite makeRange_ok by lia.
  eexists. split; [done|]. simpl. split_and!; try done. split; simpl; done || lia.
Qed.

(** A piece that is made while [n] pieces of [cs] nodes are left before [hi]. *)
Lemma range_splitN_loop_ok r cs n split :
  range_ok r -> 1 <= cs -> forall cur, lo_ r <= cur -> cur + Z.of_nat n * cs * stride_ r <= hi_ r ->
  exists rs, range_splitN_loop n split (split + Z.of_nat n) cs cur r = Ok rs /\ length rs = n /\
    Forall (fun p => range_ok p /\ made_list_ p = false /\ cs <= range_getSize p) rs /\
    (n <> O -> mjoin ((fun p => range_nodes (lo_ p) (hi_ p) (stride_ p)) <$> rs)
               = range_nodes cur (hi_ r) (stride_ r)).
Proof.
  intros Hr Hc. pose proof Hr as [Hs Hl Ho Hh Hm]. revert split.
  induction n as [|n IH]; intros sp cur Hcur Hfit; simpl.
  { exists []. split_and!; try done. }
  set (nx := cur + cs * stride_ r).
  assert (cur < nx) by (unfold nx; nia).
  assert (nx + Z.of_nat n * cs * stride_ r <= hi_ r) by (unfold nx; nia).
  assert (nx <= hi_ r) by nia.
  set (hb := if _ =? _ then _ else _).
  assert (hb = if decide (n = O) then hi_ r else nx) as Hb.
  { unfold hb. case_decide; subst.
    - case_Zb; lia.
    - case_Zb; lia. }
  assert (nx <= hb <= hi_ r) by (rewrite Hb; case_decide; lia).
  rewrite makeRange_ok by lia. rewrite wrap_bound by (fold nx; lia). fold nx.
  destruct (IH (sp + 1) nx) as (rs & E & Hlen & Hall & Hj); [lia..|].
  replace (sp + 1 + Z.of_nat n) with (sp + Z.of_nat (S n)) in E by lia.
  change (Z.pos (Pos.of_succ_nat n)) with (Z.of_nat (S n)). cbn [mbind res_bind]. rewrite E.
  eexists. split; [done|]. split; [simpl; lia|]. split.
  - constructor; [|done].
    assert (range_ok (MkRange cur hb (stride_ r) false [])) as Hp by (split; simpl; done || lia).
    split_and!; [done..|]. destruct (range_size_ok _ Hp) as [-> _]. simpl.
    assert (cs <= (hb - cur) / stride_ r); [|lia]. apply Z.div_le_lower_bound; unfold nx in *; lia.
  - intros _. simpl. destruct (decide (n = O)) as [->|Hn].
    + destruct rs; [|done]. simpl. rewrite app_nil_r. by rewrite Hb.
    + etrans; [apply (f_equal (app _)), Hj; done|]. rewrite Hb. symmetry. apply (range_nodes_app _ _ _ _ cs); lia.
Qed.

Lemma range_splitN_ok k r :
  range_ok r -> 1 <= k -> 1 <= range_getSize r ->
  exists rs, range_splitN k r = Ok rs /\ length rs = Z.to_nat (Z.min k (range_getSize r)) /\
    Forall (fun p => range_ok p /\ made_list_ p = false /\ 1 <= range_getSize p) rs /\
    mjoin ((fun p => range_nodes (lo_ p) (hi_ p) (stride_ p)) <$> rs)
      = range_nodes (lo_ r) (hi_ r) (stride_ r).
Proof.
  intros Hr Hk Hn. destruct (range_size_ok r Hr) as [Hs Hlt]. pose proof Hr as [Hst Hl Ho Hh _].
  unfold range_splitN. destruct (wrap_size (range_getSize r)) as [-> _]; [lia|].
  set (sz := range_getSize r) in *. set (m := Z.min k sz).
  assert (1 <= Z.quot sz m) as Hq. { rewrite Z.quot_div_nonneg by lia. apply Z.div_le_lower_bound; lia. }
  destruct (range_splitN_loop_ok r (Z.quot sz m) (Z.to_nat m) 0 Hr Hq (lo_ r))
    as (rs & E & Hlen & Hall & Hj); [lia| |].
  - rewrite Z2Nat.id by lia. assert (m * Z.quot sz m <= sz) as H1.
    { rewrite Z.quot_div_nonneg by lia. apply Z.mul_div_le. lia. }
    assert (sz * stride_ r <= hi_ r - lo_ r) as H2.
    { assert (sz = (hi_ r - lo_ r) / stride_ r) as -> by lia. rewrite Z.mul_comm. apply Z.mul_div_le. lia. }
    nia.
  - rewrite Z2Nat.id in E by lia. exists rs. split_and!; [exact E|done| |apply Hj; lia].
    eapply Forall_impl; [exact Hall|]. intros p (? & ? & ?). split_and!; [done..|lia].
Qed.

(** *** Pieces of a list *)

(** Both list regions are cut alike: [num - 1] pieces of [cs] elements, then the rest. *)
Fixpoint pieces (n : nat) (cs : nat) (l : list Z) : list (list Z) :=
  match n with
  | O => []
  | S O => [l]
  | S n => take cs l :: pieces n cs (drop cs l)
  end.

Lemma pieces_join n cs l : n <> O -> mjoin (pieces n cs l) = l.
Proof.
  revert l. induction n as [|n IH]; intros l Hn; [done|]. destruct n as [|n].
  - simpl. apply app_nil_r.
  - change (take cs l ++ mjoin (pieces (S n) cs (drop cs l)) = l).
    rewrite IH by done. apply take_drop.
Qed.

Lemma pieces_length n cs l : length (pieces n cs l) = n.
Proof. revert l. induction n as [|[|n] IH]; intros l; [done..|]. simpl. f_equal. apply IH. Qed.

Lemma pieces_nonempty n cs l :
  (1 <= cs)%nat -> (n * cs <= length l)%nat -> Forall (fun p => (1 <= length p <= length l)%nat) (pieces n cs l).
Proof.
  revert l. induction n as [|[|n] IH]; intros l Hc Hl; simpl; constructor; try lia; try done.
  - rewrite length_take. simpl in Hl. lia.
  - eapply Forall_impl; [apply IH; [done|rewrite length_drop; simpl in *; lia]|].
    intros p Hp. simpl in Hp. rewrite length_drop in Hp. lia.
Qed.

Lemma fmap_pieces {A} (f : A -> list Z) (ps : list A) n cs l :
  f <$> ps = pieces n cs l -> (1 <= n)%nat -> (1 <= cs)%nat -> (n * cs <= length l)%nat ->
  length ps = n /\ mjoin (f <$> ps) = l /\ Forall (fun p => 1 <= length (f p) <= length l)%nat ps.
Proof.
  intros E Hn Hc Hl. split_and!.
  - by rewrite <- (length_fmap f), E, pieces_length.
  - rewrite E. apply pieces_join. lia.
  - pose proof (pieces_nonempty n cs l Hc Hl) as Hp. by rewrite <- E, Forall_fmap in Hp.
Qed.

(** The size of the pieces. *)
Lemma piece_size k sz :
  1 <= k -> 0 <= sz ->
  let m := Z.min k sz in
  let cs := Z.quot sz m in
  0 <= m /\ m * cs <= sz /\ 0 <= cs /\ (1 <= sz -> 1 <= cs).
Proof.
  intros Hk Hs m cs. assert (0 <= m) by lia. split; [done|]. unfold cs.
  destruct (decide (m = 0)) as [Em|].
  - rewrite Em. assert (sz = 0) as -> by lia. rewrite Z.quot_0_r_ext by done. lia.
  - rewrite Z.quot_div_nonneg by lia. split_and!; [apply Z.mul_div_le; lia|apply Z.div_pos; lia|].
    intros. apply Z.div_le_lower_bound; lia.
Qed.

Lemma pieces_S n cs cur l :
  0 <= cs -> 0 <= cur ->
  pieces (S (S n)) (Z.to_nat cs) (drop (Z.to_nat cur) l)
  = take (Z.to_nat cs) (drop (Z.to_nat cur) l)
    :: pieces (S n) (Z.to_nat cs) (drop (Z.to_nat (cur + cs)) l).
Proof.
  intros. change (pieces (S (S n)) ?c ?d) with (take c d :: pieces (S n) c (drop c d)).
  rewrite drop_drop. by rewrite Z2Nat.inj_add.
Qed.

Lemma list_splitN_loop_pieces l m cs n sp cur :
  m = sp + Z.of_nat n -> 0 <= sp -> 0 <= cs -> cur = sp * cs -> m * cs <= list_getSize l ->
  list_ <$> list_splitN_loop n sp m cs (list_getSize l) cur l
    = pieces n (Z.to_nat cs) (drop (Z.to_nat cur) (list_ l)) /\
  Forall (fun p => is_sorted_ p = false) (list_splitN_loop n sp m cs (list_getSize l) cur l).
Proof.
  intros -> Hs Hc -> Hm. revert sp Hs Hm.
  induction n as [|n IH]; intros sp Hs Hm; [by split|]. cbn [list_splitN_loop].
  destruct (Z.eqb_spec sp (sp + Z.of_nat (S n) - 1)).
  - assert (n = O) as -> by lia. split; [|by repeat constructor]. cbn. f_equal. apply take_ge.
    rewrite length_drop. unfold list_getSize. lia.
  - destruct n as [|n]; [lia|].
    assert (Z.min (list_getSize l) (sp * cs + cs) = (sp + 1) * cs) as -> by nia.
    replace (sp + Z.of_nat (S (S n))) with (sp + 1 + Z.of_nat (S n)) in * by lia.
    destruct (IH (sp + 1)) as [E F]; [lia..|]. split; [|by constructor].
    rewrite fmap_cons, E, pieces_S by nia. cbn [list_].
    f_equal; [f_equal; lia|]. f_equal. f_equal. lia.
Qed.

Lemma list_splitN_pieces k l :
  1 <= k -> list_getSize l < 2 ^ 31 ->
  exists cs, list_ <$> list_splitN k l = pieces (Z.to_nat (Z.min k (list_getSize l))) cs (list_ l) /\
    Forall (fun p => is_sorted_ p = false) (list_splitN k l) /\
    (1 <= list_getSize l -> (1 <= cs)%nat) /\
    (Z.to_nat (Z.min k (list_getSize l)) * cs <= length (list_ l))%nat.
Proof.
  intros Hk Hlt. unfold list_splitN. assert (0 <= list_getSize l) by (unfold list_getSize; lia).
  destruct (wrap_size (list_getSize l)) as [-> _]; [lia|].
  destruct (piece_size k (list_getSize l)) as (Hm & Hmc & Hc0 & Hc1); [lia..|].
  set (m := Z.min k _) in *. set (cs := Z.quot _ m) in *. exists (Z.to_nat cs).
  destruct (list_splitN_loop_pieces l m cs (Z.to_nat m) 0 0) as [E F]; [lia..|].
  split_and!; [exact E|exact F|lia|].
  apply Nat2Z.inj_le. rewrite Nat2Z.inj_mul, !Z2Nat.id by lia. exact Hmc.
Qed.

(** A [ShallowList] is cut like the list of its nodes. *)
Lemma shallow_part s v cur :
  region_ok (RShallow s) -> 0 <= v -> 0 <= cur -> cur + v <= size_ s ->
  let p := MkShallow (wrap u64 v) (drop (Z.to_nat cur) (bound_ s)) in
  shallow_nodes p = take (Z.to_nat v) (drop (Z.to_nat cur) (shallow_nodes s)) /\
  region_ok (RShallow p).
Proof.
  intros [Hsz Hlt] Hv Hc Hvs. unfold shallow_nodes. simpl. destruct (wrap_size v) as [_ ->]; [lia|].
  rewrite length_drop. split; [|lia]. rewrite skipn_firstn_comm, firstn_firstn. f_equal. lia.
Qed.

Lemma length_shallow_nodes s : region_ok (RShallow s) -> Z.of_nat (length (shallow_nodes s)) = size_ s.
Proof. intros [Hsz _]. unfold shallow_nodes. rewrite length_take. lia. Qed.

Lemma shallow_splitN_loop_pieces s m cs n sp cur :
  region_ok (RShallow s) ->
  m = sp + Z.of_nat n -> 0 <= sp -> 0 <= cs -> cur = sp * cs -> m * cs <= size_ s ->
  shallow_nodes <$> shallow_splitN_loop n sp m cs (size_ s) cur s
    = pieces n (Z.to_nat cs) (drop (Z.to_nat cur) (shallow_nodes s)) /\
  Forall (fun p => region_ok (RShallow p)) (shallow_splitN_loop n sp m cs (size_ s) cur s).
Proof.
  intros Hok -> Hs Hc -> Hm. pose proof Hok as [Hsz Hlt]. revert sp Hs Hm.
  induction n as [|n IH]; intros sp Hs Hm; [by split|]. cbn [shallow_splitN_loop].
  assert (0 <= sp * cs /\ sp * cs + cs <= size_ s) as [Hl Hr] by nia.
  destruct (Z.eqb_spec sp (sp + Z.of_nat (S n) - 1)).
  - assert (n = O) as -> by lia. destruct (shallow_part s (size_ s - sp * cs) (sp * cs)) as [E F]; [done|lia..|].
    cbn [shallow_splitN_loop]. split; [|apply Forall_singleton; exact F].
    rewrite fmap_cons, E. cbn. f_equal. apply take_ge.
    rewrite length_drop. pose proof (length_shallow_nodes s Hok). lia.
  - destruct n as [|n]; [lia|]. destruct (wrap_size (size_ s - sp * cs)) as [-> _]; [lia|].
    assert (Z.min cs (size_ s - sp * cs) = cs) as -> by lia.
    destruct (shallow_part s cs (sp * cs)) as [E F]; [done|lia..|].
    replace (sp * cs + cs) with ((sp + 1) * cs) by lia.
    replace (sp + Z.of_nat (S (S n))) with (sp + 1 + Z.of_nat (S n)) in * by lia.
    destruct (IH (sp + 1)) as [E' F']; [lia..|]. split; [|by constructor].
    rewrite fmap_cons, E, E', pieces_S by lia. f_equal. f_equal. f_equal. lia.
Qed.

Lemma shallow_splitN_pieces k s :
  1 <= k -> region_ok (RShallow s) ->
  exists cs, shallow_nodes <$> shallow_splitN k s = pieces (Z.to_nat (Z.min k (size_ s))) cs (shallow_nodes s) /\
    Forall (fun p => region_ok (RShallow p)) (shallow_splitN k s) /\
    (1 <= size_ s -> (1 <= cs)%nat) /\
    (Z.to_nat (Z.min k (size_ s)) * cs <= length (shallow_nodes s))%nat.
Proof.
  intros Hk Hok. pose proof Hok as [Hsz Hlt]. unfold shallow_splitN.
  destruct (wrap_size (size_ s)) as [-> _]; [lia|].
  destruct (piece_size k (size_ s)) as (Hm & Hmc & Hc0 & Hc1); [lia..|].
  set (m := Z.min k _) in *. set (cs := Z.quot _ m) in *. exists (Z.to_nat cs).
  destruct (shallow_splitN_loop_pieces s m cs (Z.to_nat m) 0 0 Hok) as [E F]; [lia..|].
  split_and!; [exact E|exact F|lia|].
  apply Nat2Z.inj_le. rewrite Nat2Z.inj_mul, !Z2Nat.id, (length_shallow_nodes s Hok) by lia. exact Hmc.
Qed.

(** *** Any region *)

(** The class of the region and, of a [Range], that its list is not made. *)
Definition same_class (r p : Region) : Prop :=
  match r, p with
  | RRange _, RRange p => made_list_ p = false
  | RList _, RList _ | RShallow _, RShallow _ => True
  | _, _ => False
  end.

Lemma getSize_members r :
  region_ok r -> 0 <= getSize r <= Z.of_nat (length (members r)) /\ getSize r < 2 ^ 31.
Proof.
  destruct r as [r|l|s]; intros H.
  - destruct (range_size_ok r H) as [E Hlt]. unfold getSize, members, range_nodes. rewrite E in *.
    rewrite length_fmap, length_seqZ. unfold range_count. destruct H as [Hs _ Ho _ _].
    pose proof (Z.div_le_mono (hi_ r - lo_ r) (hi_ r - lo_ r + stride_ r - 1) (stride_ r)).
    assert (0 <= (hi_ r - lo_ r + stride_ r - 1) / stride_ r) by (apply Z.div_pos; lia). lia.
  - destruct H as [H _]. simpl. unfold list_getSize. lia.
  - simpl. rewrite (length_shallow_nodes s H). destruct H. lia.
Qed.

Lemma members_getSize r : region_ok r -> Z.of_nat (length (members r)) <= getSize r + 1.
Proof.
  destruct r as [r|l|s]; intros H.
  - destruct (range_size_ok r H) as [E _]. unfold getSize, members, range_nodes. rewrite E.
    rewrite length_fmap, length_seqZ. unfold range_count. destruct H as [Hs _ Ho _ _].
    assert ((hi_ r - lo_ r + stride_ r - 1) / stride_ r <= (hi_ r - lo_ r) / stride_ r + 1); [|lia].
    replace (hi_ r - lo_ r + stride_ r - 1) with (hi_ r - lo_ r - 1 + 1 * stride_ r) by lia.
    rewrite Z.div_add by lia.
    pose proof (Z.div_le_mono (hi_ r - lo_ r - 1) (hi_ r - lo_ r) (stride_ r)). lia.
  - simpl. unfold list_getSize. lia.
  - simpl. rewrite (length_shallow_nodes s H). lia.
Qed.

Lemma head_ok r x l : region_ok r -> members r = x :: l -> head r = Ok x.
Proof.
  destruct r as [r|l'|s]; simpl; intros H E.
  - assert (lo_ r < hi_ r) as Hl.
    { destruct (decide (hi_ r <= lo_ r)); [|lia]. destruct H. rewrite range_nodes_nil in E; done || lia. }
    destruct H. rewrite range_nodes_cons in E by done. congruence.
  - unfold list_head. by rewrite E.
  - unfold shallow_nodes, shallow_head in *. destruct (bound_ s); [by rewrite take_nil in E|].
    destruct (Z.to_nat (size_ s)); [done|]. simpl in E. congruence.
Qed.

Lemma tail_ok r x l :
  region_ok r -> members r = x :: l ->
  exists t, tail r = Ok t /\ region_ok t /\ members t = l /\ same_class r t /\
    getSize r - 1 <= getSize t.
Proof.
  destruct r as [r|l'|s]; simpl; intros H E.
  - assert (lo_ r < hi_ r) as Hl.
    { destruct (decide (hi_ r <= lo_ r)); [|lia]. destruct H. rewrite range_nodes_nil in E; done || lia. }
    destruct (range_tail_ok r H Hl) as (t & Et & Ht & E1 & E2 & E3). exists (RRange t).
    rewrite Et. split; [done|]. split; [done|]. simpl. rewrite E1, E2, E3.
    destruct (range_size_ok r H) as [S1 _]. destruct (range_size_ok t Ht) as [S2 _]. destruct H.
    rewrite range_nodes_cons in E by done. injection E as <- <-. split; [done|]. split.
    + unfold range_tail in Et. rewrite makeRange_ok in Et by lia. by injection Et as <-.
    + rewrite S1, S2, E1, E2, E3.
      replace (hi_ r - (lo_ r + stride_ r)) with (hi_ r - lo_ r + (-1) * stride_ r) by lia.
      rewrite Z.div_add by lia. lia.
  - eexists. split; [done|]. destruct H as [H Hs]. unfold list_tail, list_getSize. rewrite E in *.
    cbn [length] in H. unfold region_ok, members, getSize, list_getSize.
    cbn [list_ is_sorted_ length drop]. rewrite ?skipn_O. split_and!; try done; lia.
  - exists (RShallow (shallow_tail s)). split; [done|]. pose proof (length_shallow_nodes s H) as Hlen.
    rewrite E in Hlen. simpl in Hlen. unfold shallow_tail.
    destruct (shallow_part s (size_ s - 1) 1 H) as [Hm Hok]; [lia..|]. rewrite E in Hm. simpl in Hm.
    split_and!; [exact Hok| |done|].
    + change (shallow_nodes (MkShallow (wrap u64 (size_ s - 1)) (drop 1 (bound_ s))) = l).
      etrans; [exact Hm|]. rewrite skipn_O. apply take_ge. lia.
    + simpl. destruct (wrap_size (size_ s - 1)) as [_ ->]; [destruct H; lia|lia].
Qed.

Lemma makeList_ok r :
  region_ok r -> match r with RShallow _ => False | _ => True end ->
  exists r', makeList r = Ok (members r, r') /\ region_ok r' /\ members r' = members r.
Proof.
  destruct r as [r|l|s]; simpl; intros H Hk; [|by eexists|done].
  destruct (range_makeList_ok r H) as (r' & -> & E1 & E2 & E3 & Hr'). simpl. eexists. split; [done|].
  split; [done|]. simpl. by rewrite E1, E2, E3.
Qed.

Lemma members_copy r : members (copy r) = members r.
Proof. by destruct r. Qed.

Lemma length_piece {A} (ps : list A) (f : A -> list Z) p :
  p ∈ ps -> (length (f p) <= length (mjoin (f <$> ps)))%nat.
Proof.
  induction 1 as [p ps|p q ps _ IH].
  - change (mjoin (f <$> p :: ps)) with (f p ++ mjoin (f <$> ps)). rewrite length_app. lia.
  - change (mjoin (f <$> q :: ps)) with (f q ++ mjoin (f <$> ps)). rewrite length_app. lia.
Qed.

Lemma splitN_ok k r :
  region_ok r -> 1 <= k -> 1 <= getSize r ->
  exists rs, splitN k r = Ok rs /\ length rs = Z.to_nat (Z.min k (getSize r)) /\
    Forall (fun p => region_ok p /\ same_class r p /\ 1 <= getSize p) rs /\
    mjoin (members <$> rs) = members r.
Proof.
  destruct r as [r|l|s]; cbn [splitN getSize]; intros H Hk Hn.
  - destruct (range_splitN_ok k r H Hk Hn) as (rs & -> & Hlen & Hall & Hj).
    exists (RRange <$> rs). rewrite length_fmap, Forall_fmap, <- list_fmap_compose. by split_and!.
  - destruct H as [H _]. destruct (list_splitN_pieces k l Hk H) as (cs & E & Hs & Hc & Hlen).
    destruct (fmap_pieces list_ _ _ cs _ E) as (HL & Hj & Hp); [lia|auto|done|].
    exists (RList <$> list_splitN k l). rewrite length_fmap, Forall_fmap, <- list_fmap_compose.
    split_and!; [done..| |exact Hj]. apply Forall_forall. intros p Hin. rewrite Forall_forall in Hp, Hs.
    specialize (Hp p Hin). specialize (Hs p Hin). cbn. unfold list_getSize in *. rewrite Hs.
    split_and!; done || lia.
  - destruct (shallow_splitN_pieces k s Hk H) as (cs & E & Hs & Hc & Hlen).
    destruct (fmap_pieces shallow_nodes _ _ cs _ E) as (HL & Hj & Hp); [lia|auto|done|].
    exists (RShallow <$> shallow_splitN k s). rewrite length_fmap, Forall_fmap, <- list_fmap_compose.
    split_and!; [done..| |exact Hj]. apply Forall_forall. intros p Hin. rewrite Forall_forall in Hp, Hs.
    specialize (Hp p Hin). specialize (Hs p Hin). pose proof (length_shallow_nodes p Hs).
    cbn [compose getSize]. split_and!; [done..|lia].
Qed.

(** *** Membership *)

Lemma sorted_lookup_le l i j a b :
  Sorted Z.le l -> l !! i = Some a -> l !! j = Some b -> (i <= j)%nat -> a <= b.
Proof.
  intros Hs. apply Sorted_StronglySorted in Hs; [|intros ???; lia]. revert i j.
  induction Hs as [|c l Hs IH Hall]; intros i j Ha Hb Hij; [done|].
  destruct i as [|i], j as [|j]; simpl in *; try lia.
  - assert (a = b) by congruence. lia.
  - injection Ha as ->. rewrite Forall_lookup in Hall. eauto.
  - apply (IH i j); done || lia.
Qed.

Lemma lower_bound_loop_spec l x fuel first len :
  Sorted Z.le l -> 0 <= first -> 0 <= len < Z.of_nat fuel -> first + len <= Z.of_nat (length l) ->
  (forall i a, l !! i = Some a -> Z.of_nat i < first -> a < x) ->
  (forall i a, l !! i = Some a -> first + len <= Z.of_nat i -> x <= a) ->
  exists p : nat, lower_bound_loop fuel l first len x = Z.of_nat p /\
    (forall i a, l !! i = Some a -> (i < p)%nat -> a < x) /\
    (forall i a, l !! i = Some a -> (p <= i)%nat -> x <= a).
Proof.
  intros Hs. revert first len. induction fuel as [|fuel IH]; intros first len Hf Hl Hle H1 H2; [lia|].
  simpl. destruct (Z.ltb_spec 0 len).
  - assert (0 <= len `div` 2 < len) by (split; [apply Z.div_pos; lia|apply Z.div_lt; lia]).
    set (h := len `div` 2) in *.
    destruct (lookup_lt_is_Some_2 l (Z.to_nat (first + h))) as [m Hm]; [lia|].
    rewrite Hm. simpl. destruct (Z.ltb_spec m x); apply IH; try lia.
    + intros i a Ha Hi. pose proof (sorted_lookup_le l i _ a m Hs Ha Hm). lia.
    + intros i a Ha Hi. apply (H2 i); done || lia.
    + done.
    + intros i a Ha Hi. pose proof (sorted_lookup_le l _ i m a Hs Hm Ha). lia.
  - exists (Z.to_nat first). split; [lia|]. split; intros i a Ha Hi; [apply (H1 i)|apply (H2 i)]; done || lia.
Qed.

Lemma binary_search_sorted l x :
  Sorted Z.le l -> binary_search l x = bool_decide (x ∈ l).
Proof.
  intros Hs. unfold binary_search, lower_bound.
  destruct (lower_bound_loop_spec l x (S (length l)) 0 (Z.of_nat (length l)) Hs) as (p & -> & H1 & H2);
    [lia..|intros; lia|intros i a Ha; apply lookup_lt_Some in Ha; lia|].
  rewrite Nat2Z.id. destruct (l !! p) as [y|] eqn:Hp.
  - pose proof (H2 p y Hp (le_n _)). destruct (Z.ltb_spec x y) as [Hlt|]; simpl; symmetry.
    + apply bool_decide_eq_false. intros [i Hi]%list_elem_of_lookup.
      destruct (decide (i < p)%nat); [pose proof (H1 i x Hi ltac:(lia)); lia|].
      pose proof (sorted_lookup_le l p i y x Hs Hp Hi). lia.
    + apply bool_decide_eq_true. assert (x = y) as -> by lia. by eapply list_elem_of_lookup_2.
  - symmetry. apply bool_decide_eq_false. intros [i Hi]%list_elem_of_lookup.
    apply lookup_ge_None in Hp. pose proof (lookup_lt_Some _ _ _ Hi).
    pose proof (H1 i x Hi ltac:(lia)). lia.
Qed.

Lemma existsb_elem l x : existsb (Z.eqb x) l = bool_decide (x ∈ l).
Proof.
  induction l as [|y l IH]; [done|]. simpl. rewrite IH. destruct (Z.eqb_spec x y); simpl; symmetry.
  - apply bool_decide_eq_true. subst. left.
  - apply bool_decide_ext. rewrite elem_of_cons. naive_solver.
Qed.

Lemma range_nodes_sorted lo hi s : 1 <= s -> Sorted Z.le (range_nodes lo hi s).
Proof.
  intros Hs. remember (Z.to_nat (hi - lo)) as n eqn:Hn. revert lo Hn.
  induction n as [n IH] using lt_wf_ind. intros lo ->. destruct (decide (hi <= lo)).
  { rewrite range_nodes_nil by done. constructor. }
  rewrite range_nodes_cons by lia. constructor; [eapply IH; [|done]; lia|].
  destruct (decide (hi <= lo + s)); [rewrite range_nodes_nil by done; constructor|].
  rewrite range_nodes_cons by lia. constructor. lia.
Qed.

(** Ranges for which [contains] is right: those whose list is made and those whose
    nodes are the multiples of the stride. *)
Definition contains_ok (r : Region) : Prop :=
  match r with RRange r => made_list_ r = true \/ (stride_ r | lo_ r) | _ => True end.

(** A region contains the nodes it is made of and no others. For a list flagged as
    sorted this is the library's binary search; a [Range] must begin at a multiple of
    its stride or have its list made. *)
Theorem contains_members r x :
  region_ok r -> contains_ok r -> contains r x = bool_decide (x ∈ members r).
Proof.
  destruct r as [r|l|s]; simpl; intros H Hc.
  - unfold range_contains. destruct (made_list_ r) eqn:E.
    + destruct H as [Hs _ _ _ Hm]. rewrite Hm by done. by apply binary_search_sorted, range_nodes_sorted.
    + destruct H as [Hs Hl _ _ _]. destruct Hc as [|Hd]; [done|]. apply eq_bool_prop_intro.
      rewrite bool_decide_spec, elem_of_range_nodes by done. unfold Is_true.
      destruct (Z.leb_spec (lo_ r) x), (Z.ltb_spec x (hi_ r)); simpl; try (split; [done|lia]).
      destruct (Z.eqb_spec (Z.rem x (stride_ r)) 0) as [Hr|Hr]; split; try done; intros.
      * split; [done|]. apply Z.divide_sub_r; [|done]. apply Z.rem_divide; lia.
      * apply Hr, Z.rem_divide; [lia|]. replace x with (x - lo_ r + lo_ r) by lia.
        apply Z.divide_add_r; tauto.
  - destruct H as [_ Hs]. unfold list_contains. destruct (is_sorted_ l).
    + by apply binary_search_sorted, Hs.
    + apply existsb_elem.
  - apply existsb_elem.
Qed.

Lemma contains_members_witness :
  contains (RList (MkList true [1; 3; 4; 7])) 4 = true /\ contains (RRange (MkRange 2 9 2 false [])) 5 = false.
Proof.
  split.
  - rewrite (contains_members (RList (MkList true [1; 3; 4; 7])) 4).
    + vm_compute. reflexivity.
    + split; [simpl; lia|]. intros _. repeat constructor; lia.
    + exact I.
  - rewrite (contains_members (RRange (MkRange 2 9 2 false [])) 5).
    + vm_compute. reflexivity.
    + split; simpl; done || lia.
    + right. by exists 1.
Defined.

(** A [Range] that does not begin at a multiple of its stride denies, before its list
    is made, every node it has and claims every multiple of the stride within its
    bounds, none of which it has. *)
Theorem strided_contains_inverted r x :
  range_ok r -> made_list_ r = false -> ~ (stride_ r | lo_ r) -> lo_ r <= x < hi_ r ->
  (x ∈ members (RRange r) -> contains (RRange r) x = false) /\
  ((stride_ r | x) -> contains (RRange r) x = true /\ ~ x ∈ members (RRange r)).
Proof.
  intros [Hs Hl _ _ _] Hm Hd Hx. simpl. unfold range_contains. rewrite Hm, elem_of_range_nodes by done.
  destruct (Z.leb_spec (lo_ r) x), (Z.ltb_spec x (hi_ r)); try lia. simpl. split.
  - intros [_ Hq]. apply Z.eqb_neq. intros Hr. apply Z.rem_divide in Hr; [|lia]. apply Hd.
    replace (lo_ r) with (x - (x - lo_ r)) by lia. by apply Z.divide_sub_r.
  - intros Hq. split; [apply Z.eqb_eq, Z.rem_divide; done || lia|]. intros [_ Hq']. apply Hd.
    replace (lo_ r) with (x - (x - lo_ r)) by lia. by apply Z.divide_sub_r.
Qed.

Lemma strided_contains_inverted_witness :
  let r := MkRange 1 5 2 false [] in
  (3 ∈ members (RRange r) -> contains (RRange r) 3 = false) /\ contains (RRange r) 2 = true.
Proof.
  intros r. assert (range_ok r) as Hr by (split; simpl; done || lia).
  assert (~ (stride_ r | lo_ r)) as Hd by (simpl; intros [k Hk]; lia). split.
  - apply (strided_contains_inverted r 3 Hr eq_refl Hd). simpl. lia.
  - apply (strided_contains_inverted r 2 Hr eq_refl Hd); [simpl; lia|by exists 1].
Defined.

(** *** Cutting *)

(** What the construction of a group does to a region: the head and the pieces
    of the tail are the region's nodes, in order, whatever the class of the region, its
    stride and the number of pieces; no piece is empty, there are as many as asked for
    or as the tail has nodes, and each is again a region of the class. *)
Theorem head_and_pieces r x l k :
  region_ok r -> members r = x :: l -> 2 <= getSize r -> 1 <= k ->
  exists t rs, head r = Ok x /\ tail r = Ok t /\ splitN k t = Ok rs /\
    x :: mjoin (members <$> rs) = members r /\
    Forall (fun p => region_ok p /\ same_class t p /\ members p <> []) rs /\
    length rs = Z.to_nat (Z.min k (getSize t)) /\ getSize r - 1 <= getSize t.
Proof.
  intros H E Hn Hk. destruct (tail_ok r x l H E) as (t & Et & Ht & Em & Hc & Hsz).
  destruct (splitN_ok k t Ht Hk) as (rs & Ers & Hlen & Hall & Hj); [lia|].
  exists t, rs. rewrite (head_ok r x l H E), Hj, Em, E. split_and!; try done.
  eapply Forall_impl; [exact Hall|]. intros p (Hp & ? & Hps). split_and!; [done..|].
  intros E0. pose proof (getSize_members p Hp) as [Hg _]. rewrite E0 in Hg. simpl in Hg. lia.
Qed.

Lemma head_and_pieces_witness :
  exists t rs, head (RRange (MkRange 1 12 3 false [])) = Ok 1 /\ tail (RRange (MkRange 1 12 3 false [])) = Ok t /\
    splitN 2 t = Ok rs /\ 1 :: mjoin (members <$> rs) = [1; 4; 7; 10].
Proof.
  destruct (head_and_pieces (RRange (MkRange 1 12 3 false [])) 1 [4; 7; 10] 2) as (t & rs & H1 & H2 & H3 & H4 & _).
  - split; simpl; done || lia.
  - reflexivity.
  - vm_compute. discriminate.
  - lia.
  - exists t, rs. split_and!; [exact H1|exact H2|exact H3|exact H4].
Defined.

(** [Range::split] halves the bounds without regard to the stride: when the half is
    no multiple of it, the second piece has no node of the region at all, and the
    region's nodes of the upper half are in neither piece. *)
Theorem range_split_misaligned r a b x :
  range_ok r -> split (RRange r) = Ok (a, b) -> ~ (stride_ r | Z.quot (hi_ r - lo_ r) 2) ->
  lo_ r + Z.quot (hi_ r - lo_ r) 2 <= x ->
  (x ∈ members b -> ~ x ∈ members (RRange r)) /\ (x ∈ members (RRange r) -> ~ x ∈ members a /\ ~ x ∈ members b).
Proof.
  intros H. pose proof H as [Hs Hl Ho Hh _]. simpl. unfold range_split.
  destruct (range_size_ok r H) as [Esz _]. destruct (Z.leb_spec 2 (range_getSize r)) as [H2|]; [|done].
  assert (lo_ r <= hi_ r) as Hle.
  { destruct (decide (lo_ r <= hi_ r)); [done|]. assert ((hi_ r - lo_ r) / stride_ r < 0); [|lia].
    apply Z.div_lt_upper_bound; lia. }
  assert (0 <= Z.quot (hi_ r - lo_ r) 2 <= hi_ r - lo_ r) as Hq.
  { rewrite Z.quot_div_nonneg by lia. split; [apply Z.div_pos; lia|apply Z.div_le_upper_bound; lia]. }
  assert (lo_ r < hi_ r) as Hlt.
  { destruct (decide (lo_ r = hi_ r)) as [E|]; [|lia]. rewrite E, Z.sub_diag, Z.div_0_l in Esz by lia. lia. }
  set (q := Z.quot _ 2) in *. unfold vtAssert. rewrite !makeRange_ok by lia. cbn.
  intros [= <- <-] Hd Hx. cbn. rewrite !elem_of_range_nodes by done.
  assert (forall y, (stride_ r | y - lo_ r) -> ~ (stride_ r | y - (lo_ r + q))) as Hno.
  { intros y Hy Hy'. apply Hd. replace q with ((y - lo_ r) - (y - (lo_ r + q))) by lia. by apply Z.divide_sub_r. }
  split; [|intros [Hb Hy]; split].
  - intros [_ Hy'] [_ Hy]. by apply (Hno x).
  - intros [Hb' _]. lia.
  - intros [_ Hy']. by apply (Hno x).
Qed.

Lemma range_split_misaligned_witness :
  let r := MkRange 0 10 3 false [] in
  exists a b, split (RRange r) = Ok (a, b) /\ members (RRange r) = [0; 3; 6; 9] /\
    (5 ∈ members b -> ~ 5 ∈ members (RRange r)) /\ (6 ∈ members (RRange r) -> ~ 6 ∈ members a /\ ~ 6 ∈ members b).
Proof.
  intros r. assert (range_ok r) as Hr by (split; simpl; done || lia).
  destruct (split (RRange r)) as [[a b]|] eqn:E; [|vm_compute in E; discriminate].
  assert (~ (stride_ r | Z.quot (hi_ r - lo_ r) 2)) as Hd by (intros [k Hk]; assert (5 = k * 3) by exact Hk; lia).
  exists a, b. split_and!; [reflexivity|vm_compute; reflexivity|..].
  - apply (range_split_misaligned r a b 5 Hr E Hd). vm_compute. discriminate.
  - apply (range_split_misaligned r a b 6 Hr E Hd). vm_compute. discriminate.
Defined.

End RegionSpec.
