(* ===== verification/Group.v ===== *)
(** * Rooted groups, on one node

    Models how a node creates a group of nodes from a region and takes part in one:
    [src/vt/group/rooted/group_info_rooted.cc], [group_info.{cc,impl.h}],
    [msg/group_msg.h] and the rooted part of [group_manager.cc].

    The creator sends the region to the group's first node. A node that gets a region
    keeps the tail if it is small, else cuts the tail in two, sends each piece to its
    first node and waits for both to answer; either way it then answers, and the
    nodes it sent to are its children when a message is broadcast to the group. A node
    answers to a continuation registered for it. The continuations are the
    constructors of [Action]; collective groups are not modelled here. *)

From S2P Require Import Prelude.
From S2P Require Import Effects.
From S2P Require Import Ids.
From S2P Require Import Tree.
From S2P Require Import Region.

Module Group.
Import Region.

Definition min_spanning_tree_size : Z := 3.
Definition min_region_size : Z := 1.
Definition default_num_children : Z := 2.
Definition max_region_list_size : Z := 4.
Definition no_op_id : Z := 2 ^ 64 - 1.
Definition initial_group_id : Z := 0.

(** What is registered to be called: the user's action bound to the new group, and
    [parent_cont] of [groupSetupHandler] with what it captures. *)
Inductive Action :=
  | Finished (action group : Z)
  | ParentCont (parent group op_id : Z).

(** [Info] and [InfoRooted]. *)
Record Info := MkInfo {
  group_ : Z;
  finished_setup_action_ : option Action;
  is_forward_ : bool;
  this_node_included_ : bool;
  forward_node_ : Z;
  region_ : Region;
  total_size_ : Z;
  default_spanning_tree_ : option Tree.Tree;
  is_remote_ : bool;
  region_list_ : list Z;
  wait_count_ : Z;
  is_setup_ : bool
}.

Definition makeInfo (remote : bool) (group : Z) (action : option Action) (region : Region) (size : Z) : Info :=
  MkInfo group action false false uninitialized_destination region (wrap u64 size) None remote [] 0 false.

Definition with_forward (node : Z) (i : Info) : Info :=
  MkInfo (group_ i) (finished_setup_action_ i) true (this_node_included_ i) node (region_ i)
    (total_size_ i) (default_spanning_tree_ i) (is_remote_ i) (region_list_ i) (wait_count_ i) (is_setup_ i).
Definition with_list (l : list Z) (r : Region) (i : Info) : Info :=
  MkInfo (group_ i) (finished_setup_action_ i) (is_forward_ i) (this_node_included_ i) (forward_node_ i) r
    (total_size_ i) (default_spanning_tree_ i) (is_remote_ i) l (wait_count_ i) (is_setup_ i).
(** [this_node_included_ = true], the tree made of [region_list_], [is_setup_ = true]. *)
Definition with_tree (i : Info) : Info :=
  MkInfo (group_ i) (finished_setup_action_ i) (is_forward_ i) true (forward_node_ i) (region_ i)
    (total_size_ i) (Some (Tree.makeRootOf (region_list_ i))) (is_remote_ i) (region_list_ i)
    (wait_count_ i) true.
Definition with_wait (n : Z) (i : Info) : Info :=
  MkInfo (group_ i) (finished_setup_action_ i) (is_forward_ i) (this_node_included_ i) (forward_node_ i)
    (region_ i) (total_size_ i) (default_spanning_tree_ i) (is_remote_ i) (region_list_ i) n (is_setup_ i).

(** ** Messages *)

(** The region a set-up message carries: the nodes of a [ShallowList] ([GroupListMsg])
    or a [RangeData] ([GroupRangeMsg]). *)
Inductive RangeType := ListMsg (nodes : list Z) | RangeMsg (lo hi stride : Z).

Record GroupInfoMsg := MkMsg {
  group_range_ : RangeType;
  root_node_ : Z;
  num_nodes_ : Z;
  m_group : Z;
  m_op_id : Z;
  total_num_nodes_ : Z;
  is_static_ : bool;
  parent_node_ : Z
}.

(** [MsgT(root, count, group, op, total, parent, range)]: which message it is follows
    from the class of the range; [RangeData] asserts that no list has been made. *)
Definition makeMsg (root num group op total parent : Z) (range : Region) : res GroupInfoMsg :=
  match range with
  | RShallow s => Ok (MkMsg (ListMsg (shallow_nodes s)) root num group op total true parent)
  | RRange r =>
      vtAssert (negb (made_list_ r))
        (Ok (MkMsg (RangeMsg (lo_ r) (hi_ r) (stride_ r)) root num group op total true parent))
  | RList _ => Stop AbortCalled          (* not the [RangeType] of a message *)
  end.

Definition getRange (m : GroupInfoMsg) : res Region :=
  match group_range_ m with
  | ListMsg l => Ok (RShallow (MkShallow (wrap u64 (num_nodes_ m)) l))
  | RangeMsg lo hi stride => RRange <$> makeRange lo hi stride
  end.

(** A message broadcast to a group; [b_dest] is the envelope's destination, which is the
    node that sent the broadcast. *)
Record BcastMsg := MkBcast { b_group : Z; b_dest : Z; b_id : Z }.

#[export] Instance BcastMsg_eq_dec : EqDecision BcastMsg.
Proof. solve_decision. Defined.

Inductive output :=
  | SendSetup (dest : Z) (m : GroupInfoMsg)
  | SendTrigger (dest group op : Z)
  | SendBytes (dest : Z) (m : BcastMsg)
  | RunAction (action group : Z).

Record GroupManager := MkManager {
  this_node : Z;
  next_group_id_ : Z;
  local_group_info_ : gmap Z Info;
  remote_group_info_ : gmap Z Info;
  cur_id_ : Z;
  continuation_actions_ : gmap Z (list Action)
}.

Definition make (node : Z) : GroupManager := MkManager node initial_group_id ∅ ∅ 0 ∅.

Definition with_local (l : gmap Z Info) (g : GroupManager) : GroupManager :=
  MkManager (this_node g) (next_group_id_ g) l (remote_group_info_ g) (cur_id_ g) (continuation_actions_ g).
Definition with_remote (l : gmap Z Info) (g : GroupManager) : GroupManager :=
  MkManager (this_node g) (next_group_id_ g) (local_group_info_ g) l (cur_id_ g) (continuation_actions_ g).
Definition with_conts (c : gmap Z (list Action)) (g : GroupManager) : GroupManager :=
  MkManager (this_node g) (next_group_id_ g) (local_group_info_ g) (remote_group_info_ g) (cur_id_ g) c.
Definition with_cur_id (n : Z) (g : GroupManager) : GroupManager :=
  MkManager (this_node g) (next_group_id_ g) (local_group_info_ g) (remote_group_info_ g) n
    (continuation_actions_ g).
Definition with_next_id (n : Z) (g : GroupManager) : GroupManager :=
  MkManager (this_node g) n (local_group_info_ g) (remote_group_info_ g) (cur_id_ g)
    (continuation_actions_ g).

Abbreviation M := (Eff GroupManager output).

(** [emplace]: an entry that is there is kept. *)
Definition emplace {A} (k : Z) (a : A) (m : gmap Z A) : gmap Z A :=
  match m !! k with Some _ => m | None => <[k := a]> m end.

Definition alter_local (group : Z) (f : Info -> Info) : M unit :=
  modify (fun g => with_local (alter f group (local_group_info_ g)) g).
Definition alter_remote (group : Z) (f : Info -> Info) : M unit :=
  modify (fun g => with_remote (alter f group (remote_group_info_ g)) g).

(** ** Continuations *)

Definition registerContinuation (action : Action) : M Z :=
  g ← get;
  let next_id := cur_id_ g in
  modify (with_cur_id (wrap u64 (next_id + 1)));;
  modify (fun g => with_conts (emplace next_id [action] (continuation_actions_ g)) g);;
  mret next_id.

(** [triggerContinuation] runs what is registered and then erases it; [parent_cont] may
    trigger another. Fuel bounds how deep. *)
Fixpoint triggerContinuation (fuel : nat) (op : Z) : M unit :=
  match fuel with
  | O => lift (Stop NoReturn)
  | S fuel =>
      let groupTriggerHandler op := assert_ (negb (op =? no_op_id));; triggerContinuation fuel op in
      let run (a : Action) : M unit :=
        match a with
        | Finished action group => emit (RunAction action group)
        | ParentCont parent group op_id =>
            g ← get;
            match remote_group_info_ g !! group with
            | None => assert_ false
            | Some info =>
                let n := wrap i32 (wait_count_ info - 1) in
                alter_remote group (with_wait n);;
                if (n =? 0) && negb (parent =? uninitialized_destination) then
                  if negb (parent =? this_node g) then emit (SendTrigger parent group op_id)
                  else groupTriggerHandler op_id
                else nop
            end
        end in
      g ← get;
      match continuation_actions_ g !! op with
      | Some actions =>
          for_each actions run;;
          modify (fun g => with_conts (delete op (continuation_actions_ g)) g)
      | None => nop
      end
  end.

(** Continuations that trigger one another are different entries of the table. *)
Definition trigger_fuel (g : GroupManager) : nat := S (size (continuation_actions_ g)).

Definition groupTriggerHandler (op : Z) : M unit :=
  g ← get; assert_ (negb (op =? no_op_id));; triggerContinuation (trigger_fuel g) op.

(** ** Set-up *)

(** [setupRooted] of a remote group: the region is the list of the node's children. *)
Definition setupRemote (i : Info) : res Info :=
  '(l, r) ← makeList (region_ i); Ok (with_tree (with_list l r i)).

Definition initializeRemoteGroup (group : Z) (in_region : Region) (is_static : bool) (group_size : Z)
    : M unit :=
  let info := makeInfo true group None in_region group_size in
  info ← lift (setupRemote info);
  modify (fun g => with_remote (emplace group info (remote_group_info_ g)) g).

(** The function given to [splitN]; [self] is the handler, called when the piece's first
    node is this one. *)
Definition sendPiece (self : GroupInfoMsg -> M unit) (m : GroupInfoMsg) (region : Region) : M Z :=
  g ← get;
  c ← lift (head region);
  let c_size := wrap i16 (getSize region) in
  op1 ← registerContinuation (ParentCont (parent_node_ m) (m_group m) (m_op_id m));
  c_msg ← lift (makeMsg c c_size (m_group m) op1 (total_num_nodes_ m) (this_node g) region);
  (if negb (c =? this_node g) then emit (SendSetup c c_msg) else self c_msg);;
  mret c.

Fixpoint groupSetupHandler (fuel : nat) (m : GroupInfoMsg) : M unit :=
  match fuel with
  | O => lift (Stop NoReturn)
  | S fuel =>
      g ← get;
      let group := m_group m in
      range ← lift (getRange m);
      assert_ (this_node g =? root_node_ m);;
      let new_size := num_nodes_ m - 1 in
      if new_size <? min_spanning_tree_size then
        region ← lift (tail range);
        initializeRemoteGroup group (copy region) (is_static_ m) (total_num_nodes_ m);;
        if negb (m_op_id m =? no_op_id) then emit (SendTrigger (parent_node_ m) group (m_op_id m)) else nop
      else
        range_tail ← lift (tail range);
        regions ← lift (splitN default_num_children range_tail);
        local_nodes ← map_each regions (sendPiece (groupSetupHandler fuel) m);
        let num_children := Z.of_nat (length local_nodes) in
        initializeRemoteGroup group (RList (makeListFrom local_nodes num_children true))
          (is_static_ m) (num_nodes_ m);;
        g ← get;
        match remote_group_info_ g !! group with
        | None => assert_ false
        | Some info => alter_remote group (with_wait (wrap i32 (wait_count_ info + num_children)))
        end
  end.

(** A piece sent on is smaller than the region it is of. *)
Definition setup_fuel (m : GroupInfoMsg) : nat := S (Z.to_nat (num_nodes_ m)).

Definition setupHandler (m : GroupInfoMsg) : M unit := groupSetupHandler (setup_fuel m) m.

(** [setupRooted] of the creator, past [makeList]: a region of one or two nodes, the
    creator among them, is set up here; else its first node is sent the region. *)
Definition setupHere (group : Z) (info : Info) (this_node : Z) : M unit :=
  alter_local group (fun i => with_forward this_node (with_tree i));;
  initializeRemoteGroup group (copy (region_ info)) true (total_size_ info);;
  match finished_setup_action_ info with
  | Some (Finished action group) => emit (RunAction action group)
  | _ => nop
  end.

Definition sendRegion (group : Z) (info : Info) (this_node low_node num : Z) (range : Region) : M unit :=
  op ← match finished_setup_action_ info with
       | Some action => registerContinuation action
       | None => mret no_op_id
       end;
  msg ← lift (makeMsg low_node num group op num this_node range);
  alter_local group (with_forward low_node);;
  if negb (this_node =? low_node) then emit (SendSetup low_node msg) else setupHandler msg.

Definition setupRooted (group : Z) : M unit :=
  g ← get;
  match local_group_info_ g !! group with
  | None => assert_ false
  | Some info =>
      let size := getSize (region_ info) in
      assert_ (min_region_size <=? size);;
      region ← lift (sort (region_ info));
      if isList region || (size <? max_region_list_size) then
        let contains_this_node := contains region (this_node g) in
        '(l, region) ← lift (makeList region);
        alter_local group (with_list l region);;
        let info := with_list l region info in
        if (size <? min_spanning_tree_size) && contains_this_node
        then setupHere group info (this_node g)
        else
          sendRegion group info (this_node g) (default uninitialized_destination (list.head l))
            (wrap i16 (Z.of_nat (length l))) (RShallow (shallow_of_list l))
      else
        low_node ← lift (head region);
        alter_local group (with_list [] region);;
        sendRegion group (with_list [] region info) (this_node g) low_node (wrap i16 (getSize region)) region
  end.

Definition initializeLocalGroup (group : Z) (in_region : Region) (is_static : bool) (action : Action)
    : M unit :=
  let info := makeInfo false group (Some action) in_region (getSize in_region) in
  modify (fun g => with_local (emplace group info (local_group_info_ g)) g);;
  setupRooted group.

Definition newLocalGroup (in_region : Region) (is_static : bool) (action : Z) : M Z :=
  g ← get;
  let new_id := next_group_id_ g in
  modify (with_next_id (wrap u32 (new_id + 1)));;
  let group := GroupIDBuilder.createGroupID new_id (this_node g) false is_static in
  initializeLocalGroup group in_region is_static (Finished action group);;
  mret group.

(** ** Broadcasts to a rooted group *)

(** The part of [sendGroup] for a node that is in the group's tree. *)
Definition sendGroupRemote (base : BcastMsg) (from : Z) (is_root deliver : bool) : M bool :=
  g ← get;
  let this_node_dest := b_dest base =? this_node g in
  let first_send := from =? uninitialized_destination in
  match remote_group_info_ g !! b_group base with
  | Some info =>
      if negb this_node_dest || first_send then
        assert_ (negb (is_forward_ info));;
        match default_spanning_tree_ info with
        | None => assert_ false;; mret deliver
        | Some tree =>
            for_each (Tree.getChildren tree) (fun child =>
              if negb (child =? this_node g) then emit (SendBytes child base) else nop);;
            mret (if is_root && first_send then true
                  else if negb is_root && this_node_dest then false else true)
        end
      else mret deliver
  | None => mret deliver
  end.

(** [sendGroup(base, from, is_root, deliver)]: [deliver] is what the caller has set it to;
    returned is what it is set to. *)
Definition sendGroup (base : BcastMsg) (from : Z) (is_root deliver : bool) : M bool :=
  g ← get;
  let group := b_group base in
  let group_node := GroupIDBuilder.getNode group in
  assert_ (negb (GroupIDBuilder.isCollective group));;
  if is_root && negb (group_node =? this_node g) then
    emit (SendBytes group_node base);; mret false
  else
    match local_group_info_ g !! group with
    | Some info =>
        if negb (forward_node_ info =? this_node g) then
          assert_ (is_forward_ info);;
          emit (SendBytes (forward_node_ info) base);; mret false
        else sendGroupRemote base from is_root deliver
    | None => sendGroupRemote base from is_root deliver
    end.

(** [groupHandler] for a broadcast to a rooted group: whether the message is delivered
    on this node. *)
Definition groupHandler (base : BcastMsg) (from : Z) (root : bool) : M bool :=
  sendGroup base from root (negb root).

End Group.

(** ** What the operations do *)

Module GroupFacts.
Import Region RegionSpec Group.

(** What a node of the group's tree keeps: its children, and how many answers it waits for. *)
Record info_at (i : Info) (ch : list Z) (w : Z) : Prop := {
  ia_forward : is_forward_ i = false;
  ia_tree : default_spanning_tree_ i = Some (Tree.makeRootOf ch);
  ia_wait : wait_count_ i = w
}.

Definition owned (r : Region) : Prop :=
  match r with RRange r => range_ok r | RList _ => True | RShallow _ => False end.

Lemma owned_copy r : region_ok r -> owned (copy r).
Proof. by destruct r. Qed.

Lemma initializeRemoteGroup_ok G r st sz g :
  owned r -> remote_group_info_ g !! G = None ->
  exists i, initializeRemoteGroup G r st sz g
              = Ok (tt, with_remote (<[G := i]> (remote_group_info_ g)) g, []) /\
    info_at i (members r) 0.
Proof.
  intros Ho Hg. assert (exists r', makeList r = Ok (members r, r')) as [r' E].
  { destruct r as [r| |]; [|by eexists|done]. destruct (makeList_ok (RRange r) Ho I) as (r' & ? & _). eauto. }
  unfold initializeRemoteGroup, setupRemote. cbn [region_ makeInfo]. rewrite E. cbn [mbind res_bind].
  rewrite (run_lift _ _ _ _ eq_refl). unfold modify, emplace. rewrite Hg. eexists. split; [done|]. done.
Qed.

Lemma registerContinuation_ok a g :
  0 <= cur_id_ g < 2 ^ 64 - 1 -> continuation_actions_ g !! cur_id_ g = None ->
  registerContinuation a g
  = Ok (cur_id_ g, with_conts (<[cur_id_ g := [a]]> (continuation_actions_ g))
                     (with_cur_id (cur_id_ g + 1) g), []).
Proof.
  intros Hc Hn. unfold registerContinuation. rewrite run_get, !run_modify. unfold mret, eff_ret, emplace.
  rewrite wrap_u_small by (simpl; lia). cbn. by rewrite Hn.
Qed.

(** A set-up message for the nodes [l], to be answered at [parent] with [op]. *)
Record carries (m : GroupInfoMsg) (G parent op : Z) (l : list Z) (r : Region) : Prop := {
  ca_group : m_group m = G;
  ca_parent : parent_node_ m = parent;
  ca_op : m_op_id m = op;
  ca_range : getRange m = Ok r;
  ca_ok : region_ok r;
  ca_kind : match r with RRange r => made_list_ r = false | RList _ => False | RShallow _ => True end;
  ca_nodes : members r = l;
  ca_root : list.head l = Some (root_node_ m);
  ca_size : num_nodes_ m = getSize r;
  ca_bound : 1 <= getSize r < 2 ^ 15
}.

Lemma makeMsg_ok c G op total parent p :
  region_ok p -> match p with RRange r => made_list_ r = false | RList _ => False | RShallow _ => True end ->
  1 <= getSize p < 2 ^ 15 -> list.head (members p) = Some c ->
  exists m r, makeMsg c (getSize p) G op total parent p = Ok m /\ root_node_ m = c /\
    carries m G parent op (members p) r.
Proof.
  intros Hp Hk Hs Hc. destruct p as [r|l|s]; [|done|]; cbn [makeMsg].
  - rewrite Hk. eexists _, (RRange (MkRange (lo_ r) (hi_ r) (stride_ r) false [])).
    split; [done|]. split; [done|].
    assert (lo_ r < hi_ r).
    { destruct (decide (hi_ r <= lo_ r)); [|lia]. simpl in Hc. destruct Hp. by rewrite range_nodes_nil in Hc. }
    pose proof Hp as [H1 H2 H3 H4 _].
    split; try done; unfold getRange; cbn [group_range_]; by rewrite ?makeRange_ok by lia.
  - eexists _, (RShallow (MkShallow (size_ s) (shallow_nodes s))). split; [done|]. split; [done|]. pose proof (length_shallow_nodes s Hp) as Hl. simpl in Hs.
    destruct (wrap_size (size_ s)) as [_ Hw]; [lia|].
    split; try done; cbn [num_nodes_ group_range_ getSize region_ok size_ bound_ members].
    + unfold getRange. cbn [num_nodes_ group_range_ getSize]. by rewrite Hw.
    + lia.
    + unfold shallow_nodes at 1. cbn [size_ bound_]. apply take_ge. lia.
Qed.

(** What [sendPiece] gives the pieces of a region: a message each, with consecutive
    operation identifiers. *)
Definition piece_ok (p : Region) : Prop :=
  region_ok p /\ match p with RRange r => made_list_ r = false | RList _ => False | RShallow _ => True end /\
  1 <= getSize p < 2 ^ 15.

Fixpoint carried (G parent op : Z) (ps : list Region) (ms : list GroupInfoMsg) : Prop :=
  match ps, ms with
  | [], [] => True
  | p :: ps, m :: ms => (exists r, carries m G parent op (members p) r) /\ carried G parent (op + 1) ps ms
  | _, _ => False
  end.

(** The state after registering [a] under the next [k] identifiers. *)
Record registered (a : Action) (k : Z) (g g' : GroupManager) : Prop := {
  re_node : this_node g' = this_node g;
  re_next : next_group_id_ g' = next_group_id_ g;
  re_local : local_group_info_ g' = local_group_info_ g;
  re_remote : remote_group_info_ g' = remote_group_info_ g;
  re_cur : cur_id_ g' = cur_id_ g + k;
  re_conts o : continuation_actions_ g' !! o =
    if decide (cur_id_ g <= o < cur_id_ g + k) then Some [a] else continuation_actions_ g !! o
}.

Lemma sendPieces_ok self m ps g :
  Forall piece_ok ps ->
  (forall p, p ∈ ps -> list.head (members p) <> Some (this_node g)) ->
  0 <= cur_id_ g -> cur_id_ g + Z.of_nat (length ps) < 2 ^ 64 ->
  (forall o, cur_id_ g <= o -> continuation_actions_ g !! o = None) ->
  exists ms g', map_each ps (sendPiece self m) g
      = Ok (root_node_ <$> ms, g', (fun c => SendSetup (root_node_ c) c) <$> ms) /\
    carried (m_group m) (this_node g) (cur_id_ g) ps ms /\
    registered (ParentCont (parent_node_ m) (m_group m) (m_op_id m)) (Z.of_nat (length ps)) g g'.
Proof.
  intros Hps. revert g. induction Hps as [|p ps (Hp & Hk & Hs) _ IH]; intros g Hh Hc Hb Hn.
  { exists [], g. split; [done|]. split; [done|]. split; try done; [simpl; lia|].
    intros o. case_decide; [simpl in *; lia|done]. }
  cbn [length] in Hb. destruct (members p) as [|c l] eqn:Em.
  { pose proof (getSize_members p Hp) as [Hg _]. rewrite Em in Hg. simpl in Hg. lia. }
  assert (c <> this_node g) as Hne.
  { intros ->. apply (Hh p); [left|]. by rewrite Em. }
  set (a := ParentCont (parent_node_ m) (m_group m) (m_op_id m)).
  set (g1 := with_conts (<[cur_id_ g := [a]]> (continuation_actions_ g)) (with_cur_id (cur_id_ g + 1) g)).
  destruct (makeMsg_ok c (m_group m) (cur_id_ g) (total_num_nodes_ m) (this_node g) p Hp Hk Hs)
    as (mp & rp & E1 & E2 & E3); [by rewrite Em|].
  assert (sendPiece self m p g = Ok (c, g1, [SendSetup c mp])) as E.
  { unfold sendPiece. rewrite run_get, (run_lift _ _ _ c) by (by eapply head_ok).
    rewrite wrap_bound by lia. cbn zeta.
    rewrite (run_step _ _ _ _ _ _ (registerContinuation_ok a g ltac:(lia) (Hn (cur_id_ g) ltac:(lia)))).
    rewrite (run_lift _ _ _ mp) by done. destruct (Z.eqb_spec c (this_node g)); done. }
  destruct (IH g1) as (ms & g' & E' & Hcar & Hreg); cbn [g1 this_node with_conts with_cur_id cur_id_]; try lia.
  { intros q Hq. apply Hh. by right. }
  { intros o Ho. cbn. rewrite lookup_insert_ne by lia. apply Hn. lia. }
  exists (mp :: ms), g'. split_and!.
  - cbn [map_each]. rewrite (run_step _ _ _ _ _ _ E), (run_step _ _ _ _ _ _ E').
    rewrite !fmap_cons, E2. unfold mret, eff_ret. by rewrite app_nil_r.
  - split; [exists rp; exact E3|exact Hcar].
  - destruct Hreg as [R1 R2 R3 R4 R5 R6]. split; try done.
    + rewrite R5. cbn [g1 cur_id_ with_conts with_cur_id length]. lia.
    + intros o. rewrite R6. cbn [g1 cur_id_ with_conts with_cur_id continuation_actions_ length].
      destruct (decide (o = cur_id_ g)) as [->|Ho].
      * rewrite decide_False, lookup_insert_eq, decide_True by lia. done.
      * rewrite lookup_insert_ne by done. repeat case_decide; done || lia.
Qed.

(** A small region becomes the node's children, and is answered at once. *)
Lemma setup_leaf G parent op m l r g :
  carries m G parent op l r -> this_node g = root_node_ m -> remote_group_info_ g !! G = None ->
  op <> no_op_id -> num_nodes_ m - 1 < min_spanning_tree_size ->
  exists i, setupHandler m g = Ok (tt, with_remote (<[G := i]> (remote_group_info_ g)) g,
                                   [SendTrigger parent G op]) /\
    info_at i (list.tail l) 0.
Proof.
  intros [<- <- <- Er Hok Hk Hl Hroot Hsz Hb] Hn Hg Hop Hsmall. destruct l as [|x l]; [done|].
  destruct (tail_ok r x l Hok Hl) as (t & Et & Ht & Etm & _ & _).
  destruct (initializeRemoteGroup_ok (m_group m) (copy t) (is_static_ m) (total_num_nodes_ m) g)
    as (i & Ei & Hi); [by apply owned_copy|done|].
  exists i. split; [|by rewrite members_copy, Etm in Hi].
  unfold setupHandler, setup_fuel. cbn [groupSetupHandler]. rewrite run_get, (run_lift _ _ _ r Er).
  rewrite run_assert by (by apply Z.eqb_eq). cbn zeta. destruct (Z.ltb_spec (num_nodes_ m - 1) min_spanning_tree_size); [|lia].
  rewrite (run_lift _ _ _ t Et), (run_step _ _ _ _ _ _ Ei). by destruct (Z.eqb_spec (m_op_id m) no_op_id).
Qed.

(** A larger region is cut; the heads of the pieces become the children. *)
Lemma setup_inner G parent op m l r g :
  carries m G parent op l r -> this_node g = root_node_ m -> remote_group_info_ g !! G = None ->
  NoDup l -> min_spanning_tree_size <= num_nodes_ m - 1 ->
  0 <= cur_id_ g -> cur_id_ g + 2 < 2 ^ 64 ->
  (forall o, cur_id_ g <= o -> continuation_actions_ g !! o = None) ->
  exists ps ms g' i, length ps = 2%nat /\ carried G (this_node g) (cur_id_ g) ps ms /\
    mjoin (members <$> ps) = list.tail l /\
    registered (ParentCont parent G op) 2 g g' /\
    setupHandler m g = Ok (tt, with_remote (<[G := i]> (remote_group_info_ g)) g',
                           (fun c => SendSetup (root_node_ c) c) <$> ms) /\
    info_at i (root_node_ <$> ms) 2.
Proof.
  intros [<- <- <- Er Hok Hk Hl Hroot Hsz Hb] Hn Hg Hnd Hbig Hc0 Hc Hfree. destruct l as [|x l]; [done|].
  injection Hroot as ->. apply NoDup_cons in Hnd as [Hx _].
  destruct (tail_ok r (root_node_ m) l Hok Hl) as (t & Et & Ht & Etm & Hcls & Htsz).
  change min_spanning_tree_size with 3 in *.
  destruct (splitN_ok default_num_children t Ht) as (ps & Eps & Hlen & Hall & Hj); [done|lia|].
  assert (length ps = 2%nat) as Hlen2.
  { rewrite Hlen. change default_num_children with 2. rewrite Z.min_l by lia. done. }
  assert (forall p, p ∈ ps -> forall y, y ∈ members p -> y ∈ l) as Hin.
  { intros p Hp y Hy. rewrite <- Etm, <- Hj. apply list_elem_of_join. eexists. split; [exact Hy|].
    by apply list_elem_of_fmap_2. }
  pose proof (getSize_members t Ht) as [_ Htlt].
  assert (Forall piece_ok ps) as Hpieces.
  { apply Forall_forall. intros p Hp. rewrite Forall_forall in Hall. destruct (Hall p Hp) as (H1 & H2 & H3).
    split; [done|]. split; [by destruct r, t, p|]. split; [done|].
    destruct (getSize_members p H1) as [Hg1 _]. pose proof (members_getSize r Hok) as Hg2.
    pose proof (length_piece ps members p Hp) as Hg3. rewrite Hj, Etm in Hg3. rewrite Hl in Hg2.
    simpl in Hg2. lia. }
  destruct (sendPieces_ok (groupSetupHandler (Z.to_nat (num_nodes_ m))) m ps g Hpieces)
    as (ms & g' & E & Hcar & Hreg); [|done|lia|done|].
  { intros p Hp Hh. apply Hx. apply (Hin p Hp). destruct (members p); [done|]. injection Hh as ->. rewrite <- Hn. left. }
  rewrite Hlen2 in Hreg. set (heads := root_node_ <$> ms) in *.
  assert (length heads = 2%nat) as Hheads.
  { unfold heads. rewrite length_fmap, <- Hlen2. clear -Hcar. revert Hcar. generalize (cur_id_ g).
    revert ms. induction ps; intros [|]; simpl; try done. intros z [_ ?]. f_equal. eauto. }
  destruct (initializeRemoteGroup_ok (m_group m) (RList (makeListFrom heads (Z.of_nat (length heads)) true))
    (is_static_ m) (num_nodes_ m) g') as (i & Ei & Hi); [done|by rewrite (re_remote _ _ _ _ Hreg)|].
  exists ps, ms, g', (with_wait 2 i). split_and!; [done|done|by rewrite Hj|done| |].
  - unfold setupHandler, setup_fuel. cbn [groupSetupHandler]. rewrite run_get, (run_lift _ _ _ r Er).
    rewrite run_assert by (by apply Z.eqb_eq). cbn zeta.
    change min_spanning_tree_size with 3. destruct (Z.ltb_spec (num_nodes_ m - 1) 3); [lia|].
    rewrite (run_lift _ _ _ t Et), (run_lift _ _ _ ps Eps), (run_step _ _ _ _ _ _ E).
    rewrite (run_step _ _ _ _ _ _ Ei), run_get. cbn [remote_group_info_ with_remote].
    rewrite lookup_insert_eq, (ia_wait _ _ _ Hi), Hheads. unfold alter_remote, modify.
    rewrite <- (re_remote _ _ _ _ Hreg). cbn. rewrite alter_insert_eq. by rewrite app_nil_r.
  - destruct Hi as [H1 H2 _]. split; [done| |done]. change (default_spanning_tree_ i = Some (Tree.makeRootOf heads)).
    rewrite H2. do 2 f_equal. change (take (Z.to_nat (Z.of_nat (length heads))) heads = heads).
    by rewrite Nat2Z.id, firstn_all.
Qed.

(** *** Answers *)

Lemma wrap_wait w : 1 <= w < 2 ^ 31 -> wrap i32 (w - 1) = w - 1.
Proof. intros Hw. apply (wrap_size (w - 1)). lia. Qed.

(** The state after an answer is counted. *)
Definition counted (G op : Z) (i : Info) (g : GroupManager) : GroupManager :=
  with_conts (delete op (continuation_actions_ g))
    (with_remote (<[G := with_wait (wait_count_ i - 1) i]> (remote_group_info_ g)) g).

Section answer.
Context (G op parent op' : Z) (i : Info) (g : GroupManager).
Context (Hop : op <> no_op_id) (Hc : continuation_actions_ g !! op = Some [ParentCont parent G op'])
  (Hr : remote_group_info_ g !! G = Some i).

Lemma alter_remote_ok :
  alter_remote G (with_wait (wait_count_ i - 1)) g
  = Ok (tt, with_remote (<[G := with_wait (wait_count_ i - 1) i]> (remote_group_info_ g)) g, []).
Proof.
  unfold alter_remote, modify. do 4 f_equal.
  rewrite <- (insert_id (remote_group_info_ g) G i) at 1 by done. by rewrite alter_insert_eq.
Qed.

(** An answer that is not the last one. *)
Lemma trigger_waits :
  1 < wait_count_ i < 2 ^ 31 -> groupTriggerHandler op g = Ok (tt, counted G op i g, []).
Proof.
  intros Hw. unfold groupTriggerHandler, trigger_fuel. rewrite run_get, run_assert by (by case_Zb).
  cbn [triggerContinuation]. rewrite run_get, Hc. cbn [for_each].
  unfold mbind at 1 2 3, eff_bind at 1 2 3, get at 1. rewrite Hr, wrap_wait by lia.
  unfold mbind, eff_bind. rewrite alter_remote_ok. destruct (Z.eqb_spec (wait_count_ i - 1) 0); [lia|]. done.
Qed.

(** The last answer: the node answers in its turn. *)
Lemma trigger_last :
  wait_count_ i = 1 -> parent <> uninitialized_destination -> parent <> this_node g ->
  groupTriggerHandler op g = Ok (tt, counted G op i g, [SendTrigger parent G op']).
Proof.
  intros Hw Hu Ht. unfold groupTriggerHandler, trigger_fuel. rewrite run_get, run_assert by (by case_Zb).
  cbn [triggerContinuation]. rewrite run_get, Hc. cbn [for_each].
  unfold mbind at 1 2 3, eff_bind at 1 2 3, get at 1. rewrite Hr, wrap_wait by lia.
  unfold mbind, eff_bind. rewrite alter_remote_ok. destruct (Z.eqb_spec (wait_count_ i - 1) 0); [|lia].
  destruct (Z.eqb_spec parent uninitialized_destination); [done|]. cbn [andb negb].
  destruct (Z.eqb_spec parent (this_node g)); [done|]. done.
Qed.

(** The last answer of all, on the creator. *)
Lemma trigger_last_here a :
  wait_count_ i = 1 -> this_node g <> uninitialized_destination -> parent = this_node g ->
  op' <> no_op_id -> op' <> op -> continuation_actions_ g !! op' = Some [Finished a G] ->
  groupTriggerHandler op g
  = Ok (tt, with_conts (delete op (delete op' (continuation_actions_ g)))
              (with_remote (<[G := with_wait 0 i]> (remote_group_info_ g)) g), [RunAction a G]).
Proof.
  intros Hw Hu Ht Hop' Hne Hf. unfold groupTriggerHandler, trigger_fuel. rewrite run_get, run_assert by (by case_Zb).
  assert (exists n, size (continuation_actions_ g) = S n) as [n ->].
  { destruct (size _) eqn:E; [|eauto]. apply map_size_empty_iff in E. by rewrite E in Hc. }
  cbn [triggerContinuation]. rewrite run_get, Hc. cbn [for_each].
  unfold mbind at 1 2 3, eff_bind at 1 2 3, get at 1. rewrite Hr, wrap_wait by lia.
  unfold mbind, eff_bind. rewrite alter_remote_ok. destruct (Z.eqb_spec (wait_count_ i - 1) 0); [|lia].
  rewrite Ht. destruct (Z.eqb_spec (this_node g) uninitialized_destination); [done|]. cbn [andb negb].
  destruct (Z.eqb_spec (this_node g) (this_node g)); [|done].
  unfold assert_, get. destruct (Z.eqb_spec op' no_op_id); [done|]. cbn. rewrite Hf. cbn.
  rewrite Hw. done.
Qed.
End answer.

Lemma trigger_finished op a G g :
  op <> no_op_id -> continuation_actions_ g !! op = Some [Finished a G] ->
  groupTriggerHandler op g
  = Ok (tt, with_conts (delete op (continuation_actions_ g)) g, [RunAction a G]).
Proof.
  intros Hop Hc. unfold groupTriggerHandler, trigger_fuel. rewrite run_get, run_assert by (by case_Zb).
  cbn [triggerContinuation]. rewrite run_get, Hc. done.
Qed.

(** *** Creation *)

(** A region a group can be made of. *)
Record new_region (r : Region) : Prop := {
  nr_ok : region_ok r;
  nr_class : match r with RRange r => made_list_ r = false | RList _ => True | RShallow _ => False end;
  nr_size : 1 <= getSize r;
  nr_small : Z.of_nat (length (members r)) < 2 ^ 15;
  nr_nodup : NoDup (members r)
}.

Lemma alter_local_ok G f i g :
  local_group_info_ g !! G = Some i ->
  alter_local G f g = Ok (tt, with_local (<[G := f i]> (local_group_info_ g)) g, []).
Proof.
  intros H. unfold alter_local, modify. do 4 f_equal.
  rewrite <- (insert_id (local_group_info_ g) G i) at 1 by done. by rewrite alter_insert_eq.
Qed.

(** Sorting keeps the nodes. *)
Lemma sort_ok r :
  new_region r -> exists r', sort r = Ok r' /\ new_region r' /\ members r' ≡ₚ members r /\
    getSize r' = getSize r /\ (contains_ok r -> contains_ok r').
Proof.
  intros [Hok Hc Hs Hsm Hnd]. destruct r as [r|l|]; [by exists (RRange r)| |done].
  exists (RList (list_sort l)). assert (members (RList (list_sort l)) ≡ₚ list_ l) as Hp.
  { simpl. unfold list_sort. destruct (is_sorted_ l); [done|]. simpl. apply merge_sort_Permutation. }
  assert (getSize (RList (list_sort l)) = getSize (RList l)) as Hsz.
  { simpl. unfold list_getSize. by rewrite Hp. }
  split_and!; try done. split; try done.
  - destruct Hok as [H1 H2]. split; [simpl; by rewrite Hp|]. intros _. unfold list_sort.
    destruct (is_sorted_ l) eqn:E; [by apply H2|]. apply (Sorted_merge_sort Z.le).
  - by rewrite Hsz.
  - by rewrite Hp.
  - by rewrite Hp.
Qed.

(** The creator's own entry for the group. *)
Definition forwards (node : Z) (i : Info) : Prop := is_forward_ i = true /\ forward_node_ i = node.

(** What sending the region to its first node leaves on the creator. *)
Lemma sendRegion_ok G info a n low num p g loc :
  finished_setup_action_ info = Some (Finished a G) -> local_group_info_ g !! G = Some loc ->
  region_ok p -> match p with RRange r => made_list_ r = false | RList _ => False | RShallow _ => True end ->
  1 <= getSize p < 2 ^ 15 -> num = getSize p -> list.head (members p) = Some low ->
  0 <= cur_id_ g < 2 ^ 64 - 1 -> continuation_actions_ g !! cur_id_ g = None ->
  exists m r, carries m G n (cur_id_ g) (members p) r /\ root_node_ m = low /\
    let g1 := with_local (<[G := with_forward low loc]> (local_group_info_ g))
                (with_conts (<[cur_id_ g := [Finished a G]]> (continuation_actions_ g))
                   (with_cur_id (cur_id_ g + 1) g)) in
    sendRegion G info n low num p g = (if decide (n = low) then setupHandler m g1 else Ok (tt, g1, [SendSetup low m])).
Proof.
  intros Ha Hl Hp Hk Hs -> Hh Hc Hf. destruct (makeMsg_ok low G (cur_id_ g) (getSize p) n p Hp Hk Hs Hh)
    as (m & r & E & Hroot & Hcar). exists m, r. split; [done|]. split; [done|].
  unfold sendRegion. rewrite Ha, (run_step _ _ _ _ _ _ (registerContinuation_ok _ g Hc Hf)).
  rewrite (run_lift _ _ _ m E).
  set (g0 := with_conts _ _). rewrite (run_step _ _ _ _ _ _ (alter_local_ok G (with_forward low) loc g0 Hl)).
  destruct (Z.eqb_spec n low); case_decide; try done. cbn [negb].
  destruct (setupHandler m _) as [[[[] ?] ?]|]; done.
Qed.

(** What creating a group does. *)
Inductive created_by (G a : Z) (region : Region) (g : GroupManager) (run : res (Z * GroupManager * list output))
    : Prop :=
  | created_here l loc i g' :
      l ≡ₚ members region -> (contains_ok region -> this_node g ∈ l) ->
      forwards (this_node g) loc -> info_at i l 0 ->
      this_node g' = this_node g -> cur_id_ g' = cur_id_ g -> continuation_actions_ g' = continuation_actions_ g ->
      local_group_info_ g' = <[G := loc]> (local_group_info_ g) ->
      remote_group_info_ g' = <[G := i]> (remote_group_info_ g) ->
      next_group_id_ g' = next_group_id_ g + 1 ->
      run = Ok (G, g', [RunAction a G]) -> created_by G a region g run
  | created_tree l low m r loc g1 :
      l ≡ₚ members region -> carries m G (this_node g) (cur_id_ g) l r -> root_node_ m = low ->
      forwards low loc ->
      this_node g1 = this_node g -> cur_id_ g1 = cur_id_ g + 1 ->
      continuation_actions_ g1 = <[cur_id_ g := [Finished a G]]> (continuation_actions_ g) ->
      local_group_info_ g1 = <[G := loc]> (local_group_info_ g) ->
      remote_group_info_ g1 = remote_group_info_ g ->
      next_group_id_ g1 = next_group_id_ g + 1 ->
      run = (if decide (this_node g = low)
             then match setupHandler m g1 with Ok (_, g2, os) => Ok (G, g2, os) | Stop e => Stop e end
             else Ok (G, g1, [SendSetup low m])) -> created_by G a region g run.

Lemma setupHere_ok G info a g loc region :
  finished_setup_action_ info = Some (Finished a G) -> region_ info = region -> owned region ->
  local_group_info_ g !! G = Some loc -> remote_group_info_ g !! G = None ->
  exists i, info_at i (members region) 0 /\
    setupHere G info (this_node g) g
    = Ok (tt, with_remote (<[G := i]> (remote_group_info_ g))
                (with_local (<[G := with_forward (this_node g) (with_tree loc)]> (local_group_info_ g)) g),
          [RunAction a G]).
Proof.
  intros Ha <- Ho Hl Hr. assert (copy (region_ info) = region_ info) as Hcopy by (by destruct (region_ info)).
  set (f := fun i => with_forward (this_node g) (with_tree i)).
  destruct (initializeRemoteGroup_ok G (region_ info) true (total_size_ info)
    (with_local (<[G := f loc]> (local_group_info_ g)) g) Ho Hr) as (i & E & Hi).
  exists i. split; [done|]. unfold setupHere. fold f. rewrite (run_step _ _ _ _ _ _ (alter_local_ok G f loc g Hl)).
  rewrite Hcopy, (run_step _ _ _ _ _ _ E), Ha. done.
Qed.

Lemma setupRooted_ok G a region g info :
  new_region region -> region_ info = region -> finished_setup_action_ info = Some (Finished a G) ->
  local_group_info_ g !! G = Some info -> remote_group_info_ g !! G = None ->
  0 <= cur_id_ g < 2 ^ 64 - 1 -> continuation_actions_ g !! cur_id_ g = None ->
  (exists l loc i, l ≡ₚ members region /\ (contains_ok region -> this_node g ∈ l) /\
     forwards (this_node g) loc /\ info_at i l 0 /\
     setupRooted G g = Ok (tt, with_remote (<[G := i]> (remote_group_info_ g))
       (with_local (<[G := loc]> (local_group_info_ g)) g), [RunAction a G])) \/
  (exists l low m r loc, l ≡ₚ members region /\ carries m G (this_node g) (cur_id_ g) l r /\
     root_node_ m = low /\ forwards low loc /\
     let g1 := with_local (<[G := loc]> (local_group_info_ g))
                 (with_conts (<[cur_id_ g := [Finished a G]]> (continuation_actions_ g))
                    (with_cur_id (cur_id_ g + 1) g)) in
     setupRooted G g = (if decide (this_node g = low) then setupHandler m g1 else Ok (tt, g1, [SendSetup low m]))).
Proof.
  intros Hnew Hreg Ha Hl Hr Hc Hf. pose proof (nr_size _ Hnew) as Hsz.
  destruct (sort_ok region Hnew) as (r1 & Es & Hnew1 & Hp1 & Hsz1 & Hcok).
  unfold setupRooted. rewrite run_get, Hl, Hreg. cbn zeta. rewrite run_assert by (apply Z.leb_le; done).
  rewrite (run_lift _ _ _ r1 Es). destruct (isList r1 || _) eqn:Ebig.
  - destruct (makeList_ok r1) as (r2 & Em & Hr2 & Em2); [apply Hnew1|destruct Hnew1; by destruct r1|].
    rewrite (run_lift _ _ _ (members r1, r2) Em).
    rewrite (run_step _ _ _ _ _ _ (alter_local_ok G (with_list (members r1) r2) info g Hl)).
    set (info2 := with_list _ _ info). set (g0 := with_local _ g).
    assert (local_group_info_ g0 !! G = Some info2) as Hl0 by apply lookup_insert_eq.
    destruct (_ && contains r1 _) eqn:Ehere.
    + left. apply andb_true_iff in Ehere as [_ Hcont].
      destruct (setupHere_ok G info2 a g0 info2 r2) as (i & Hi & E); [done|done| |done|done|].
      { destruct Hnew1 as [_ Hk _ _ _]. destruct r1; [|by injection Em as <-|done].
        simpl in Em. destruct (range_makeList _) as [[? ?]|]; [|done]. by injection Em as _ <-. }
      exists (members r1), (with_forward (this_node g) (with_tree info2)), i. split_and!; [done| |done|by rewrite <- Em2|].
      * intros Hk. rewrite (contains_members r1) in Hcont by (apply Hnew1 || auto). by apply bool_decide_eq_true in Hcont.
      * change (this_node g) with (this_node g0). rewrite E. cbn. by rewrite insert_insert_eq.
    + right. set (p := RShallow (shallow_of_list (members r1))).
      assert (members p = members r1) as Hmp.
      { simpl. unfold shallow_nodes. simpl. apply take_ge. lia. }
      pose proof (nr_small _ Hnew1) as Hsm. pose proof (getSize_members r1 (nr_ok _ Hnew1)) as [Hgm _].
      assert (getSize p = Z.of_nat (length (members r1))) as Hgp by done.
      destruct (members r1) as [|low l] eqn:El; [simpl in Hgm; lia|].
      destruct (sendRegion_ok G info2 a (this_node g) low (getSize p) p g0 info2) as (m & r & Hcar & Hroot & E);
        try done; [split; [simpl; lia|]; simpl in *; lia|simpl in *; lia|by rewrite Hmp|].
      exists (low :: l), low, m, r, (with_forward low info2). rewrite <- Hmp at 2. split_and!; try done.
      rewrite wrap_bound by (simpl in *; lia). cbn zeta in E. etrans; [|etrans; [exact E|]].
      * destruct (sendRegion _ _ _ _ _ _ g0) as [[[[] ?] ?]|]; done.
      * cbn. by rewrite insert_insert_eq.
  - right. apply orb_false_iff in Ebig as [E1 _]. destruct r1 as [r1| |]; [|done..].
    destruct (getSize_members _ (nr_ok _ Hnew1)) as [Hgm _].
    destruct (members (RRange r1)) as [|low l] eqn:El; [cbn [length] in Hgm; lia|].
    rewrite (run_lift _ _ _ low) by (by eapply head_ok; [apply Hnew1|]).
    rewrite (run_step _ _ _ _ _ _ (alter_local_ok G (with_list [] (RRange r1)) info g Hl)).
    set (info2 := with_list _ _ info). set (g0 := with_local _ g).
    assert (local_group_info_ g0 !! G = Some info2) as Hl0 by apply lookup_insert_eq.
    destruct (range_size_ok r1 (nr_ok _ Hnew1)) as [_ Hlt].
    change (range_getSize r1) with (getSize (RRange r1)) in Hlt.
    destruct (sendRegion_ok G info2 a (this_node g) low (getSize (RRange r1)) (RRange r1) g0 info2)
      as (m & r & Hcar & Hroot & E); try done; [apply Hnew1..|lia|by rewrite El|].
    exists (low :: l), low, m, r, (with_forward low info2). rewrite <- El at 2. split_and!; try done.
    rewrite wrap_bound by lia. cbn zeta in E. etrans; [|etrans; [exact E|]].
    + destruct (sendRegion _ _ _ _ _ _ g0) as [[[[] ?] ?]|]; done.
    + cbn. by rewrite insert_insert_eq.
Qed.

Lemma newLocalGroup_ok region st a g :
  let G := GroupIDBuilder.createGroupID (next_group_id_ g) (this_node g) false st in
  new_region region -> 0 <= next_group_id_ g < 2 ^ 32 - 1 ->
  local_group_info_ g !! G = None -> remote_group_info_ g !! G = None ->
  0 <= cur_id_ g < 2 ^ 64 - 1 -> continuation_actions_ g !! cur_id_ g = None ->
  created_by G a region g (newLocalGroup region st a g).
Proof.
  intros G Hnew Hid Hl Hr Hc Hf. unfold newLocalGroup. rewrite run_get, run_modify. fold G.
  rewrite wrap_u_small by (simpl; lia). unfold initializeLocalGroup.
  set (info := makeInfo _ _ _ _ _).
  set (g0 := with_local (<[G := info]> (local_group_info_ g)) (with_next_id (next_group_id_ g + 1) g)).
  assert ((modify (fun g => with_local (emplace G info (local_group_info_ g)) g);; setupRooted G)
    (with_next_id (next_group_id_ g + 1) g) = setupRooted G g0) as E0.
  { rewrite run_modify. unfold emplace.
    change (local_group_info_ (with_next_id _ g)) with (local_group_info_ g). by rewrite Hl. }
  assert (local_group_info_ g0 !! G = Some info) as Hl0 by apply lookup_insert_eq.
  destruct (setupRooted_ok G a region g0 info Hnew eq_refl eq_refl Hl0 Hr Hc Hf)
    as [(l & loc & i & Hp & Hin & Hfw & Hi & E)|(l & low & m & r & loc & Hp & Hcar & Hroot & Hfw & E)].
  - rewrite E in E0. rewrite (run_step _ _ _ _ _ _ E0). set (g2 := with_remote _ _).
    apply (created_here G a region g _ l loc i g2); try done. apply insert_insert_eq.
  - cbn zeta in E. set (g2 := with_local (<[G := loc]> _) _) in E.
    apply (created_tree G a region g _ l low m r loc g2); try done; [apply insert_insert_eq|].
    unfold mbind at 1, eff_bind at 1. rewrite E0, E. change (this_node g0) with (this_node g).
    destruct (decide (this_node g = low)); [|done]. destruct (setupHandler m g2) as [[[[] ?] ?]|]; [|done].
    unfold mret, eff_ret. by rewrite app_nil_r.
Qed.

End GroupFacts.
