(* ===== verification/GroupSystem.v ===== *)
(** * Rooted groups, on all nodes

    The managers of [Group.v] on [N] nodes with the messages between them: nodes
    create groups, the set-up messages and their answers travel in any order, and
    messages are broadcast to groups. [exec1] runs one event; an event that is not
    enabled gives [None]. *)

From S2P Require Import Prelude.
From S2P Require Import Sums.
From S2P Require Import Effects.
From S2P Require Import Ids.
From S2P Require Import Tree.
From S2P Require Import Region.
From S2P Require Import Group.

Module GroupSystem.
Import Region RegionSpec Group.

Inductive msg := Setup (m : GroupInfoMsg) | Trigger (group op : Z) | Bytes (from : Z) (b : BcastMsg).

Section system.
Context (N : Z).

Record Sys := MkSys {
  nodes : Z -> GroupManager;
  net : list (Z * msg);
  created : list Z;                 (* history: the groups, latest first *)
  actions : list (Z * (Z * Z));     (* history: actions run, with their group, by node *)
  delivered : list (Z * BcastMsg)   (* history: broadcasts delivered *)
}.

Definition init : Sys := MkSys make [] [] [] [].

Definition sends (n : Z) (os : list output) : list (Z * msg) :=
  omap (fun o => match o with
    | SendSetup d m => Some (d, Setup m)
    | SendTrigger d group op => Some (d, Trigger group op)
    | SendBytes d b => Some (d, Bytes n b)
    | RunAction _ _ => None
    end) os.
Definition ran (n : Z) (os : list output) : list (Z * (Z * Z)) :=
  omap (fun o => match o with RunAction a group => Some (n, (a, group)) | _ => None end) os.

(** Node [n] performs [op]; [s] is the system with what the event took out. *)
Definition perform {A} (n : Z) (op : M A) (s : Sys) : res (A * Sys) :=
  '(a, g, os) ← op (nodes s n);
  Ok (a, MkSys (<[n := g]> (nodes s)) (net s ++ sends n os) (created s) (actions s ++ ran n os) (delivered s)).

Definition with_net (l : list (Z * msg)) (s : Sys) : Sys :=
  MkSys (nodes s) l (created s) (actions s) (delivered s).
Definition create (group : Z) (s : Sys) : Sys :=
  MkSys (nodes s) (net s) (group :: created s) (actions s) (delivered s).
Definition deliver (here : bool) (n : Z) (b : BcastMsg) (s : Sys) : Sys :=
  MkSys (nodes s) (net s) (created s) (actions s)
    (if here then delivered s ++ [(n, b)] else delivered s).

Definition handle (n : Z) (m : msg) (s : Sys) : res Sys :=
  match m with
  | Setup m => snd <$> perform n (setupHandler m) s
  | Trigger _ op => snd <$> perform n (groupTriggerHandler op) s
  | Bytes from b => '(here, s) ← perform n (groupHandler b from false) s; Ok (deliver here n b s)
  end.

Inductive event :=
  | New (n : Z) (region : Region) (is_static : bool) (action : Z)
  | Broadcast (n group id : Z)
  | Deliver (k : nat).

(** A message to a node that does not exist aborts where it is sent. *)
Definition exec1 (s : Sys) (e : event) : option (res Sys) :=
  match e with
  | New n region is_static action =>
      if bool_decide (0 <= n < N) then Some (
        '(group, s) ← perform n (newLocalGroup region is_static action) s; Ok (create group s))
      else None
  | Broadcast n group id =>
      if bool_decide (0 <= n < N) then Some (
        let b := MkBcast group n id in
        '(here, s) ← perform n (groupHandler b uninitialized_destination true) s; Ok (deliver here n b s))
      else None
  | Deliver k =>
      match net s !! k with
      | Some (n, m) => Some (
          if bool_decide (0 <= n < N) then handle n m (with_net (take_out k (net s)) s) else Stop AbortCalled)
      | None => None
      end
  end.

Fixpoint exec (s : Sys) (es : list event) : option (res Sys) :=
  match es with
  | [] => Some (Ok s)
  | e :: es => match exec1 s e with Some (Ok s) => exec s es | r => r end
  end.

End system.
End GroupSystem.
