(* ===== verification/GroupProgress.v ===== *)
(** * How far the set-up of a group has come

    The set-up of a rooted group ([Group.v]) spreads a region over a tree that exists
    nowhere as a whole. [prog] is that tree with the progress of each of its nodes: a
    piece of the region still under way in a message, or a node that has been set up and
    waits, has answered, or whose answer has been counted. [items] is what a
    tree amounts to in the system: messages under way, what nodes keep, and the
    continuations registered; a step of the set-up replaces one subtree ([rep]) and
    with it that subtree's items. *)

From S2P Require Import Prelude.
From S2P Require Import Sums.
From S2P Require Import Region.
From S2P Require Import Group.
From S2P Require Import GroupSystem.

Module GroupProgress.
Import Region RegionSpec Group GroupFacts GroupSystem.

Inductive status := Waiting | Acking | Closed.

#[export] Instance status_eq_dec : EqDecision status.
Proof. solve_decision. Defined.

(** [Pending m l]: the nodes [l] are carried by [m]. [Started h ch st kids]: [h] has the
    children [ch]; to [kids] it has sent pieces, each with the operation that answers it;
    without [kids] the children are the rest of a small region. [Here h l]: the creator
    has set up the whole region by itself. *)
Inductive prog :=
  | Pending (m : GroupInfoMsg) (l : list Z)
  | Started (h : Z) (ch : list Z) (st : status) (kids : list (Z * prog))
  | Here (h : Z) (l : list Z).

Definition prog_rec' (P : prog -> Prop)
  (HP : forall m l, P (Pending m l))
  (HS : forall h ch st kids, Forall (fun k => P k.2) kids -> P (Started h ch st kids))
  (HH : forall h l, P (Here h l)) : forall p, P p :=
  fix go p :=
    match p with
    | Pending m l => HP m l
    | Started h ch st kids =>
        HS h ch st kids ((fix gos ks : Forall (fun k => P k.2) ks :=
          match ks with
          | [] => Forall_nil_2 _
          | k :: ks => Forall_cons_2 _ _ _ (go k.2) (gos ks)
          end) kids)
    | Here h l => HH h l
    end.

Definition phead (p : prog) : Z :=
  match p with Pending m _ => root_node_ m | Started h _ _ _ | Here h _ => h end.
Definition closed (p : prog) : bool :=
  match p with Started _ _ Closed _ | Here _ _ => true | _ => false end.
Definition nopen (kids : list (Z * prog)) : Z := lsum (fun k => b2z (negb (closed k.2))) kids.

(** The nodes of a subtree. *)
Fixpoint nodesof (p : prog) : list Z :=
  match p with
  | Pending _ l => l
  | Started h ch _ [] => h :: ch
  | Started h _ _ kids => h :: flat_map (fun k => nodesof k.2) kids
  | Here _ l => l
  end.

Inductive item :=
  | IMsg (dest : Z) (m : msg)
  | INode (v : Z) (ch : list Z) (w : Z)
  | ICont (v o parent op : Z).

Section group.
Context (G : Z).

Definition ack (st : status) (par op : Z) : list item :=
  match st with Acking => [IMsg par (Trigger G op)] | _ => [] end.

(** What the subtree [p], to be answered at [par] with [op], amounts to. *)
Fixpoint items (par op : Z) (p : prog) : list item :=
  match p with
  | Pending m _ => [IMsg (root_node_ m) (Setup m)]
  | Started h ch st kids =>
      INode h ch (nopen kids) :: ack st par op
        ++ flat_map (fun k => (if closed k.2 then [] else [ICont h k.1 par op]) ++ items h k.1 k.2) kids
  | Here h l => [INode h l 0]
  end.

Definition kid_items (h par op : Z) (k : Z * prog) : list item :=
  (if closed k.2 then [] else [ICont h k.1 par op]) ++ items h k.1 k.2.

Inductive wf : Z -> Z -> prog -> Prop :=
  | wf_pending par op m l r : carries m G par op l r -> wf par op (Pending m l)
  | wf_leaf par op h ch st : st <> Waiting -> wf par op (Started h ch st [])
  | wf_inner par op h st kids :
      kids <> [] -> (st = Waiting <-> nopen kids <> 0) -> Forall (fun k => wf h k.1 k.2) kids ->
      wf par op (Started h ((fun k => phead k.2) <$> kids) st kids).

(** [rep par op p par' op' q q' p']: [p'] is [p] with the subtree [q], which is answered at
    [par'] with [op'], replaced by [q']. *)
Inductive rep : Z -> Z -> prog -> Z -> Z -> prog -> prog -> prog -> Prop :=
  | rep_here par op q q' : rep par op q par op q q' q'
  | rep_kid par op h ch st k1 o k k2 par' op' q q' k' :
      rep h o k par' op' q q' k' ->
      rep par op (Started h ch st (k1 ++ (o, k) :: k2)) par' op' q q' (Started h ch st (k1 ++ (o, k') :: k2)).

(** ** Replacing a subtree *)

Definition alike (q q' : prog) : Prop := phead q' = phead q /\ closed q' = closed q.

Lemma rep_alike par op p par' op' q q' p' : rep par op p par' op' q q' p' -> alike q q' -> alike p p'.
Proof. by destruct 1. Qed.

Lemma nopen_app k1 k2 : nopen (k1 ++ k2) = nopen k1 + nopen k2.
Proof. apply lsum_app. Qed.

Lemma nopen_cons o k ks : nopen ((o, k) :: ks) = b2z (negb (closed k)) + nopen ks.
Proof. done. Qed.

Lemma nopen_nonneg ks : 0 <= nopen ks.
Proof. apply lsum_nonneg. intros k _. apply b2z_range. Qed.

Lemma nopen_alike k1 o k k' k2 :
  closed k' = closed k -> nopen (k1 ++ (o, k') :: k2) = nopen (k1 ++ (o, k) :: k2).
Proof. intros E. by rewrite !nopen_app, !nopen_cons, E. Qed.

Lemma items_Started par op h ch st kids :
  items par op (Started h ch st kids) = INode h ch (nopen kids) :: ack st par op ++ flat_map (kid_items h par op) kids.
Proof. done. Qed.

Lemma rep_items par op p par' op' q q' p' :
  rep par op p par' op' q q' p' -> alike q q' ->
  exists R, items par op p ≡ₚ items par' op' q ++ R /\ items par op p' ≡ₚ items par' op' q' ++ R.
Proof.
  induction 1 as [par op q q'|par op h ch st k1 o k k2 par' op' q q' k' Hr IH]; intros Ha.
  - exists []. by rewrite !app_nil_r.
  - destruct (IH Ha) as (R & E1 & E2). destruct (rep_alike _ _ _ _ _ _ _ _ Hr Ha) as [_ Hcl].
    exists (INode h ch (nopen (k1 ++ (o, k) :: k2)) :: ack st par op ++ flat_map (kid_items h par op) k1
            ++ (if closed k then [] else [ICont h o par op]) ++ R ++ flat_map (kid_items h par op) k2).
    rewrite !items_Started, (nopen_alike _ _ k k'), !flat_map_app by done.
    assert (forall x, flat_map (kid_items h par op) ((o, x) :: k2)
      = ((if closed x then [] else [ICont h o par op]) ++ items h o x) ++ flat_map (kid_items h par op) k2) as Ecl by done.
    rewrite !Ecl, E1, E2, Hcl. split; solve_Permutation.
Qed.

Lemma flat_map_kids_nil {A} (f : Z * prog -> list A) k1 o k k2 :
  flat_map f (k1 ++ (o, k) :: k2) = flat_map f k1 ++ f (o, k) ++ flat_map f k2.
Proof. by rewrite flat_map_app. Qed.

Lemma nodesof_inner h ch st kids :
  kids <> [] -> nodesof (Started h ch st kids) = h :: flat_map (fun k => nodesof k.2) kids.
Proof. by destruct kids. Qed.

Lemma rep_nodes par op p par' op' q q' p' :
  rep par op p par' op' q q' p' ->
  exists l1 l2, nodesof p = l1 ++ nodesof q ++ l2 /\ nodesof p' = l1 ++ nodesof q' ++ l2.
Proof.
  induction 1 as [par op q q'|par op h ch st k1 o k k2 par' op' q q' k' Hr (l1 & l2 & E1 & E2)].
  - exists [], []. by rewrite !app_nil_r.
  - exists (h :: flat_map (fun k => nodesof k.2) k1 ++ l1), (l2 ++ flat_map (fun k => nodesof k.2) k2).
    rewrite !nodesof_inner by (by destruct k1). rewrite !flat_map_kids_nil. cbn [snd].
    rewrite E1, E2. simpl. by rewrite <- !app_assoc.
Qed.

Lemma rep_wf par op p par' op' q q' p' :
  rep par op p par' op' q q' p' -> wf par op p ->
  wf par' op' q /\ (wf par' op' q' -> alike q q' -> wf par op p').
Proof.
  induction 1 as [par op q q'|par op h ch st k1 o k k2 par' op' q q' k' Hr IH]; intros Hw; [done|].
  inversion Hw as [|? ? ? ? ? ? Hk|? ? ? ? ? Hne Hst Hall]; subst; [by destruct k1|].
  apply Forall_app in Hall as [Hk1 [Hk Hk2]%Forall_cons]. cbn in Hk. destruct (IH Hk) as [Hq Hback].
  split; [done|]. intros Hq' Ha. destruct (rep_alike _ _ _ _ _ _ _ _ Hr Ha) as [Hh Hcl].
  assert (((fun k => phead k.2) <$> k1 ++ (o, k) :: k2) = (fun k => phead k.2) <$> k1 ++ (o, k') :: k2) as ->.
  { rewrite !fmap_app, !fmap_cons. cbn. by rewrite Hh. }
  constructor; [by destruct k1|by rewrite (nopen_alike _ _ k k')|].
  apply Forall_app. split; [done|]. constructor; [cbn; by apply Hback|done].
Qed.

Lemma rep_trans par op p par1 op1 q q' p' par2 op2 r r' :
  rep par op p par1 op1 q q' p' -> rep par1 op1 q par2 op2 r r' q' -> rep par op p par2 op2 r r' p'.
Proof. induction 1; [done|]. intros. constructor. auto. Qed.

(** ** Finding the subtree a message belongs to *)

Definition sub (par op : Z) (p : prog) (par' op' : Z) (q : prog) : Prop :=
  forall q', exists p', rep par op p par' op' q q' p'.

Lemma sub_here par op p : sub par op p par op p.
Proof. intros q'. exists q'. constructor. Qed.

Lemma sub_kid par op h ch st k1 o k k2 par' op' q :
  sub h o k par' op' q -> sub par op (Started h ch st (k1 ++ (o, k) :: k2)) par' op' q.
Proof. intros H q'. destruct (H q') as [k' Hk]. eexists. by constructor. Qed.

Lemma elem_of_kids h par op kids x :
  x ∈ flat_map (kid_items h par op) kids ->
  exists k1 o k k2, kids = k1 ++ (o, k) :: k2 /\
    ((closed k = false /\ x = ICont h o par op) \/ x ∈ items h o k).
Proof.
  intros Hx. rewrite list_elem_of_In in Hx. apply in_flat_map in Hx as ([o k] & Hk & Hx).
  apply in_split in Hk as (k1 & k2 & ->). exists k1, o, k, k2. split; [done|].
  rewrite <- list_elem_of_In in Hx. unfold kid_items in Hx. apply elem_of_app in Hx as [Hx|Hx]; [|by right].
  simpl in Hx. destruct (closed k); [by apply elem_of_nil in Hx|]. apply list_elem_of_singleton in Hx. by left.
Qed.

Lemma elem_of_ack st par op x : x ∈ ack st par op -> st = Acking /\ x = IMsg par (Trigger G op).
Proof. destruct st; simpl; rewrite ?elem_of_nil, ?list_elem_of_singleton; naive_solver. Qed.

Lemma elem_of_Started par op h ch st kids x :
  x ∈ items par op (Started h ch st kids) ->
  x = INode h ch (nopen kids) \/ (st = Acking /\ x = IMsg par (Trigger G op)) \/
  exists k1 o k k2, kids = k1 ++ (o, k) :: k2 /\
    ((closed k = false /\ x = ICont h o par op) \/ x ∈ items h o k).
Proof.
  rewrite items_Started, elem_of_cons, elem_of_app. intros [->|[Hx|Hx]]; [by left| |].
  - right. left. by apply elem_of_ack.
  - right. right. by apply elem_of_kids.
Qed.

Lemma Forall_middle {A} (P : A -> Prop) l1 x l2 : Forall P (l1 ++ x :: l2) -> P x.
Proof. intros [_ [H _]%Forall_cons]%Forall_app. done. Qed.

Lemma find_setup par op p d m :
  IMsg d (Setup m) ∈ items par op p ->
  d = root_node_ m /\ exists par' op' l, sub par op p par' op' (Pending m l).
Proof.
  revert par op. induction p as [m' l|h ch st kids IH|h l] using prog_rec'; intros par op Hx.
  - apply list_elem_of_singleton in Hx as [= -> ->]. split; [done|]. exists par, op, l. apply sub_here.
  - apply elem_of_Started in Hx as [Hx|[[_ Hx]|(k1 & o & k & k2 & -> & [[_ Hx]|Hx])]]; try done.
    apply Forall_middle in IH. destruct (IH h o Hx) as [-> (par' & op' & l & Hs)].
    split; [done|]. exists par', op', l. by apply sub_kid.
  - by apply list_elem_of_singleton in Hx.
Qed.

Lemma find_trigger par op p d G' o :
  IMsg d (Trigger G' o) ∈ items par op p ->
  G' = G /\ ((exists h ch kids, p = Started h ch Acking kids /\ d = par /\ o = op) \/
    exists par' op' ch st k1 h' ch' kids' k2,
      sub par op p par' op' (Started d ch st (k1 ++ (o, Started h' ch' Acking kids') :: k2))).
Proof.
  revert par op. induction p as [m' l|h ch st kids IH|h l] using prog_rec'; intros par op Hx.
  - by apply list_elem_of_singleton in Hx.
  - apply elem_of_Started in Hx as [Hx|[[-> Hx]|(k1 & o' & k & k2 & -> & [[_ Hx]|Hx])]]; try done.
    + injection Hx as -> -> ->. split; [done|]. left. by exists h, ch, kids.
    + apply Forall_middle in IH. destruct (IH h o' Hx)
        as [-> [(h' & ch' & kids' & E & -> & ->)|(par' & op' & ch' & st' & j1 & h' & c' & ks & j2 & Hs)]].
      * split; [done|]. right. cbn in E. subst k. exists par, op, ch, st, k1, h', ch', kids', k2. apply sub_here.
      * split; [done|]. right. exists par', op', ch', st', j1, h', c', ks, j2. by apply sub_kid.
  - by apply list_elem_of_singleton in Hx.
Qed.

Lemma sub_wf par op p par' op' q : wf par op p -> sub par op p par' op' q -> wf par' op' q.
Proof. intros Hw Hs. destruct (Hs q) as [p' Hr]. by apply (rep_wf _ _ _ _ _ _ _ _ Hr). Qed.

(** A group whose set-up has been answered for is set up: there are no messages and no
    continuations left, and every node of the tree has its children. *)
Lemma closed_items par op p x :
  wf par op p -> closed p = true -> x ∈ items par op p -> exists v ch, x = INode v ch 0.
Proof.
  revert par op. induction p as [m l|h ch st kids IH|h l] using prog_rec'; intros par op Hw Hc Hx; [done| |].
  - destruct st; try done. inversion Hw as [|? ? ? ? ? ? Hk|? ? ? ? ? Hne Hst Hall]; subst.
    { apply list_elem_of_singleton in Hx as ->. by exists h, ch. }
    assert (nopen kids = 0) as H0 by (destruct (decide (nopen kids = 0)) as [|E]; [done|]; by apply Hst in E).
    apply elem_of_Started in Hx as [->|[[? ?]|(k1 & o & k & k2 & -> & Hx)]]; [rewrite H0; eauto|done|].
    apply Forall_middle in IH, Hall. rewrite nopen_app, nopen_cons in H0.
    pose proof (nopen_nonneg k1). pose proof (nopen_nonneg k2).
    destruct (closed k) eqn:E; [|simpl in H0; lia]. destruct Hx as [[? _]|Hx]; [done|]. by apply (IH h o).
  - apply list_elem_of_singleton in Hx as ->. by exists h, l.
Qed.

Lemma quiet_closed par op p :
  wf par op p -> (forall d m, ~ IMsg d m ∈ items par op p) -> closed p = true.
Proof.
  revert par op. induction p as [m l|h ch st kids IH|h l] using prog_rec'; intros par op Hw Hq; [| |done].
  - destruct (Hq (root_node_ m) (Setup m)). apply list_elem_of_singleton. done.
  - rewrite items_Started in Hq. destruct st; [|by destruct (Hq par (Trigger G op)); right; left|done].
    inversion Hw as [|? ? ? ? ? Hst|? ? ? ? ? Hne Hst Hall]; subst; [done|].
    destruct Hst as [Hst _]. destruct (Hst eq_refl). apply lsum_0. intros [o k] Hk. cbn.
    apply list_elem_of_In, in_split in Hk as (k1 & k2 & ->). apply Forall_middle in IH, Hall.
    cbn in IH, Hall. rewrite (IH h o Hall); [done|]. intros d m Hm. apply (Hq d m). cbn [ack app]. right.
    rewrite flat_map_app, elem_of_app. right. apply elem_of_app. left. apply elem_of_app. by right.
Qed.

(** The nodes that have been set up are nodes of the group, each once. *)
Definition inode (x : item) : option Z := match x with INode v _ _ => Some v | _ => None end.

Lemma inodes_sub par op p : wf par op p -> omap inode (items par op p) ⊆+ nodesof p.
Proof.
  revert par op. induction p as [m l|h ch st kids IH|h l] using prog_rec'; intros par op Hw.
  - apply submseteq_nil_l.
  - rewrite items_Started. cbn [omap list_omap inode].
    assert (omap inode (ack st par op) = []) as Ea by (by destruct st).
    rewrite omap_app, Ea. cbn [app].
    inversion Hw as [|? ? ? ? ? Hst|? ? ? ? ? Hne Hst Hall]; subst.
    + simpl. apply submseteq_skip, submseteq_nil_l.
    + rewrite nodesof_inner by done. apply submseteq_skip. clear Hne Hst Hw Ea.
      induction kids as [|[o k] kids IHk]; [done|]. apply Forall_cons in IH as [IH1 IH2], Hall as [H1 H2].
      cbn [flat_map]. rewrite omap_app. apply submseteq_app; [|by apply IHk].
      unfold kid_items. rewrite omap_app. cbn [fst snd].
      assert (omap inode (if closed k then [] else [ICont h o par op]) = []) as -> by (by destruct (closed k)).
      by apply IH1.
  - inversion Hw.
Qed.

Lemma phead_nodes par op p : wf par op p -> phead p ∈ nodesof p.
Proof.
  destruct 1 as [par op m l r [_ _ _ _ _ _ _ Hroot _ _]| |par op h st kids Hne _ _].
  - simpl. destruct l; [done|]. injection Hroot as ->. left.
  - left.
  - rewrite nodesof_inner by done. left.
Qed.

(** Only the whole tree is answered to a node outside of it; elsewhere parent and child
    are different nodes. *)
Lemma rep_parent par op p par' op' q q' p' :
  rep par op p par' op' q q' p' -> wf par op p -> NoDup (nodesof p) ->
  (q = p /\ par' = par /\ op' = op) \/ (par' <> phead q /\ par' ∈ nodesof p).
Proof.
  induction 1 as [par op q q'|par op h ch st k1 o k k2 par' op' q q' k' Hr IH]; intros Hw Hnd; [by left|].
  inversion Hw as [|? ? ? ? ? ? Hk|? ? ? ? ? Hne Hst Hall]; subst; [by destruct k1|].
  apply Forall_middle in Hall. cbn in Hall. rewrite nodesof_inner in Hnd |- * by done.
  apply NoDup_cons in Hnd as [Hh Hnd]. rewrite flat_map_kids_nil in Hnd, Hh. cbn [snd] in *.
  apply NoDup_app in Hnd as (_ & _ & (Hnd & _ & _)%NoDup_app). right.
  destruct (IH Hall Hnd) as [(-> & -> & ->)|[Hne' Hin]].
  - split; [|left]. intros ->. apply Hh. apply elem_of_app. right. apply elem_of_app. left.
    by eapply phead_nodes.
  - split; [done|]. right. rewrite flat_map_kids_nil. apply elem_of_app. right. apply elem_of_app. by left.
Qed.

(** ** The steps of one subtree *)

(** A small piece arrives. *)
Lemma step_leaf par op m l r :
  carries m G par op l r ->
  let q' := Started (root_node_ m) (list.tail l) Acking [] in
  wf par op q' /\ alike (Pending m l) q' /\ nodesof q' = l /\
  items par op q' = [INode (root_node_ m) (list.tail l) 0; IMsg par (Trigger G op)].
Proof.
  intros Hc q'. split_and!; [by constructor|done| |done]. simpl.
  destruct l; [by destruct Hc|]. destruct Hc as [_ _ _ _ _ _ _ Hroot _ _]. by injection Hroot as ->.
Qed.

(** A larger one arrives and is cut in pieces [ps], sent in [ms]. *)
Fixpoint kids_of (op : Z) (ps : list Region) (ms : list GroupInfoMsg) : list (Z * prog) :=
  match ps, ms with
  | p :: ps, m :: ms => (op, Pending m (members p)) :: kids_of (op + 1) ps ms
  | _, _ => []
  end.

Lemma kids_of_facts par op h op0 ps ms :
  carried G h op0 ps ms ->
  Forall (fun k => wf h k.1 k.2) (kids_of op0 ps ms) /\
  (fun k => phead k.2) <$> kids_of op0 ps ms = root_node_ <$> ms /\
  flat_map (fun k => nodesof k.2) (kids_of op0 ps ms) = mjoin (members <$> ps) /\
  nopen (kids_of op0 ps ms) = Z.of_nat (length ps) /\
  flat_map (kid_items h par op) (kids_of op0 ps ms)
    ≡ₚ ((fun m => IMsg (root_node_ m) (Setup m)) <$> ms)
       ++ ((fun o => ICont h o par op) <$> seqZ op0 (Z.of_nat (length ps))).
Proof.
  revert op0 ms. induction ps as [|p ps IH]; intros op0 [|m ms] Hc; try done.
  destruct Hc as [[r Hc] Hcs]. destruct (IH (op0 + 1) ms Hcs) as (H1 & H2 & H3 & H4 & H5).
  cbn [kids_of]. split_and!.
  - constructor; [|done]. by econstructor.
  - rewrite !fmap_cons, H2. done.
  - cbn [flat_map snd nodesof]. by rewrite H3.
  - rewrite nopen_cons, H4. simpl. lia.
  - cbn [length]. rewrite Nat2Z.inj_succ, seqZ_cons, Z.pred_succ, <- Z.add_1_r by lia.
    cbn [flat_map]. rewrite H5. rewrite !fmap_cons. unfold kid_items. simpl. solve_Permutation.
Qed.

Lemma step_inner par op m l r op0 ps ms :
  carries m G par op l r -> carried G (root_node_ m) op0 ps ms ->
  mjoin (members <$> ps) = list.tail l -> length ps <> O ->
  let q' := Started (root_node_ m) (root_node_ <$> ms) Waiting (kids_of op0 ps ms) in
  wf par op q' /\ alike (Pending m l) q' /\ nodesof q' = l /\
  items par op q' ≡ₚ INode (root_node_ m) (root_node_ <$> ms) (Z.of_nat (length ps))
    :: ((fun m => IMsg (root_node_ m) (Setup m)) <$> ms)
    ++ ((fun o => ICont (root_node_ m) o par op) <$> seqZ op0 (Z.of_nat (length ps))).
Proof.
  intros Hc Hcs Hj Hlen q'. destruct (kids_of_facts par op (root_node_ m) op0 ps ms Hcs) as (H1 & H2 & H3 & H4 & H5).
  assert (kids_of op0 ps ms <> []) as Hne by (intros E; rewrite E in H4; simpl in H4; destruct ps; done).
  split_and!; [|done| |].
  - unfold q'. rewrite <- H2. constructor; [done| |done]. rewrite H4. split; [lia|done].
  - unfold q'. rewrite nodesof_inner, H3, Hj by done.
    destruct l; [by destruct Hc|]. destruct Hc as [_ _ _ _ _ _ _ Hroot _ _]. by injection Hroot as ->.
  - unfold q'. rewrite items_Started, H4, H5. done.
Qed.

Lemma items_acked par op h ch kids :
  items par op (Started h ch Acking kids)
  ≡ₚ IMsg par (Trigger G op) :: items par op (Started h ch Closed kids).
Proof. rewrite !items_Started. simpl. solve_Permutation. Qed.

(** An answer is counted: of the kid with [o], at [d]. *)
Definition counted_kids (k1 : list (Z * prog)) (o h' : Z) (ch' : list Z) (kids' k2 : list (Z * prog)) :=
  k1 ++ (o, Started h' ch' Closed kids') :: k2.
Definition next_status (kids : list (Z * prog)) (last : status) : status :=
  if nopen kids =? 0 then last else Waiting.

Lemma step_count par op d ch st k1 o h' ch' kids' k2 last :
  wf par op (Started d ch st (k1 ++ (o, Started h' ch' Acking kids') :: k2)) -> last <> Waiting ->
  let kids := counted_kids k1 o h' ch' kids' k2 in
  let q' := Started d ch (next_status kids last) kids in
  st = Waiting /\ wf par op q' /\
  nodesof q' = nodesof (Started d ch st (k1 ++ (o, Started h' ch' Acking kids') :: k2)) /\
  exists R, 
    items par op (Started d ch st (k1 ++ (o, Started h' ch' Acking kids') :: k2))
      ≡ₚ INode d ch (nopen kids + 1) :: ICont d o par op :: IMsg d (Trigger G o) :: R /\
    items par op q' ≡ₚ INode d ch (nopen kids) :: ack (next_status kids last) par op ++ R.
Proof.
  intros Hw Hlast kids q'. inversion Hw as [|? ? ? ? ? ? Hk|? ? ? ? ? Hne Hst Hall]; subst; [by destruct k1|].
  assert (nopen (k1 ++ (o, Started h' ch' Acking kids') :: k2) = nopen kids + 1) as Hn.
  { unfold kids, counted_kids. rewrite !nopen_app, !nopen_cons. simpl. lia. }
  pose proof (nopen_nonneg kids) as H0. assert (st = Waiting) as -> by (apply Hst; lia).
  split_and!; [done| | |].
  - unfold q', kids, counted_kids.
    assert (((fun k => phead k.2) <$> k1 ++ (o, Started h' ch' Acking kids') :: k2)
      = (fun k => phead k.2) <$> k1 ++ (o, Started h' ch' Closed kids') :: k2) as ->.
    { by rewrite !fmap_app, !fmap_cons. }
    constructor; [by destruct k1| |].
    + unfold next_status. destruct (Z.eqb_spec (nopen (k1 ++ (o, Started h' ch' Closed kids') :: k2)) 0); naive_solver.
    + apply Forall_app in Hall as [Hk1 [Hk Hk2]%Forall_cons]. apply Forall_app. split; [done|].
      constructor; [|done]. cbn in *.
      inversion Hk as [|? ? ? ? ? ?|? ? ? ? ? Hne' Hst' Hall']; subst; constructor; try done.
      split; [done|]. intros E. apply Hst' in E. done.
  - unfold q', kids, counted_kids. rewrite !nodesof_inner, !flat_map_kids_nil by (by destruct k1). done.
  - exists (flat_map (kid_items d par op) k1 ++ items d o (Started h' ch' Closed kids') ++ flat_map (kid_items d par op) k2).
    unfold q'. rewrite !items_Started, Hn. unfold kids, counted_kids. rewrite !flat_map_kids_nil.
    unfold kid_items at 2 5. cbn [fst snd closed negb]. rewrite items_acked. simpl. split; solve_Permutation.
Qed.

(** The answer of the whole tree is counted. *)
Lemma step_close par op h ch kids :
  wf par op (Started h ch Acking kids) -> wf par op (Started h ch Closed kids).
Proof.
  inversion 1 as [|? ? ? ? ? ?|? ? ? ? ? Hne Hst Hall]; subst; constructor; try done.
  split; [done|]. intros E. by apply Hst in E.
Qed.

(** ** What is left to do *)

Definition st_weight (st : status) : Z := match st with Waiting => 2 | Acking => 1 | Closed => 0 end.

(** At most the number of messages yet to be handled. *)
Fixpoint weight (p : prog) : Z :=
  match p with
  | Pending _ l => 3 * Z.of_nat (length l)
  | Started _ _ st kids => st_weight st + lsum (fun k => weight k.2) kids
  | Here _ _ => 0
  end.

Lemma weight_nonneg p : 0 <= weight p.
Proof.
  induction p as [m l|h ch st kids IH|h l] using prog_rec'; simpl; [lia| |lia].
  assert (0 <= lsum (fun k => weight k.2) kids); [|destruct st; simpl; lia].
  apply lsum_nonneg. by apply Forall_forall.
Qed.

Lemma weight_bound p : weight p <= 3 * Z.of_nat (length (nodesof p)).
Proof.
  induction p as [m l|h ch st kids IH|h l] using prog_rec'; simpl; [lia| |lia].
  destruct kids as [|k kids]; [destruct st; simpl; lia|]. cbn [length].
  assert (lsum (fun k => weight k.2) (k :: kids) <= 3 * Z.of_nat (length (flat_map (fun k => nodesof k.2) (k :: kids))));
    [|destruct st; cbn [st_weight]; lia].
  induction IH as [|x l Hx _ IHl]; [simpl; lia|]. rewrite lsum_cons. cbn [flat_map]. rewrite length_app. lia.
Qed.

Lemma rep_weight par op p par' op' q q' p' :
  rep par op p par' op' q q' p' -> weight p' + weight q = weight p + weight q'.
Proof. induction 1 as [|par op h ch st k1 o k k2 par' op' q q' k' Hr IH]; [lia|]. simpl. rewrite !lsum_app, !lsum_cons. simpl. lia. Qed.

Lemma weight_leaf par op m l r :
  carries m G par op l r -> weight (Started (root_node_ m) (list.tail l) Acking []) < weight (Pending m l).
Proof. intros Hc. destruct l; [by destruct Hc|]. simpl. lia. Qed.

Lemma weight_inner par op m l r h ch op0 ps ms :
  carries m G par op l r -> carried G h op0 ps ms -> mjoin (members <$> ps) = list.tail l ->
  weight (Started h ch Waiting (kids_of op0 ps ms)) < weight (Pending m l).
Proof.
  intros Hc Hcs Hj. destruct l as [|x l]; [by destruct Hc|]. simpl in *.
  assert (lsum (fun k => weight k.2) (kids_of op0 ps ms) = 3 * Z.of_nat (length l)); [|lia].
  rewrite <- Hj. clear Hc Hj. revert op0 ms Hcs. induction ps as [|p ps IH]; intros op0 [|m' ms] Hcs; try done.
  destruct Hcs as [_ Hcs]. cbn [kids_of]. rewrite lsum_cons, (IH _ _ Hcs), fmap_cons. cbn [snd weight].
  change (mjoin (members p :: (members <$> ps))) with (members p ++ mjoin (members <$> ps)). rewrite length_app. lia.
Qed.

Lemma weight_count d ch k1 o h' ch' kids' k2 last :
  last <> Waiting ->
  let kids := counted_kids k1 o h' ch' kids' k2 in
  weight (Started d ch (next_status kids last) kids)
  < weight (Started d ch Waiting (k1 ++ (o, Started h' ch' Acking kids') :: k2)).
Proof.
  intros Hlast kids. unfold kids, counted_kids. simpl. rewrite !lsum_app, !lsum_cons. simpl.
  unfold next_status. case_match; [destruct last; simpl; done || lia|simpl; lia].
Qed.

End group.
End GroupProgress.
