(* ===== verification/GroupInvariant.v ===== *)
(** * The invariant of rooted groups

    What the whole system holds about one group is a [View]: the messages about it, what
    the nodes keep of it, the continuations registered for it. [view_ok] says that a view
    is made of a list of items, and is kept by adding and removing items one at a time;
    [GI] says that the items are those of a tree in progress ([GroupProgress.v]). *)

From S2P Require Import Prelude.
From S2P Require Import Sums.
From S2P Require Import Ids.
From S2P Require Import Region.
From S2P Require Import Group.
From S2P Require Import GroupSystem.
From S2P Require Import GroupProgress.

Module GroupInvariant.
Import Region RegionSpec Group GroupFacts GroupSystem GroupProgress.

Record View := MkView {
  vnet : list (Z * msg);
  vremote : Z -> option Info;
  vlocal : Z -> option Info;
  vcont : Z -> Z -> option Action;
  vran : list (Z * (Z * Z))
}.

(** Views that differ in the order of messages only. *)
Record view_eq (V W : View) : Prop := {
  ve_net : vnet V ≡ₚ vnet W;
  ve_remote v : vremote V v = vremote W v;
  ve_local v : vlocal V v = vlocal W v;
  ve_cont v o : vcont V v o = vcont W v o;
  ve_ran : vran V = vran W
}.
#[export] Instance view_equiv : Equiv View := view_eq.

#[export] Instance view_equivalence : Equivalence (≡@{View}).
Proof.
  split.
  - by intros V.
  - intros V W []. by split.
  - intros V W X [] []. split; intros; etrans; eauto.
Qed.

(** ** Changes of a view *)

Definition set_net (l : list (Z * msg)) (V : View) : View :=
  MkView l (vremote V) (vlocal V) (vcont V) (vran V).
Definition set_remote (n : Z) (i : option Info) (V : View) : View :=
  MkView (vnet V) (<[n := i]> (vremote V)) (vlocal V) (vcont V) (vran V).
Definition set_local (n : Z) (i : option Info) (V : View) : View :=
  MkView (vnet V) (vremote V) (<[n := i]> (vlocal V)) (vcont V) (vran V).
Definition set_cont (n o : Z) (a : option Action) (V : View) : View :=
  MkView (vnet V) (vremote V) (vlocal V) (<[n := <[o := a]> (vcont V n)]> (vcont V)) (vran V).
Definition add_ran (x : Z * (Z * Z)) (V : View) : View :=
  MkView (vnet V) (vremote V) (vlocal V) (vcont V) (vran V ++ [x]).

Lemma set_cont_lookup n o a V v o' :
  vcont (set_cont n o a V) v o' = if decide (v = n /\ o' = o) then a else vcont V v o'.
Proof.
  simpl. destruct (decide (v = n)) as [->|Hv].
  - rewrite fn_lookup_insert. destruct (decide (o' = o)) as [->|Ho].
    + rewrite fn_lookup_insert, decide_True by done. done.
    + rewrite fn_lookup_insert_ne, decide_False by naive_solver. done.
  - rewrite fn_lookup_insert_ne, decide_False by naive_solver. done.
Qed.

Lemma set_remote_lookup n i V v :
  vremote (set_remote n i V) v = if decide (v = n) then i else vremote V v.
Proof.
  simpl. case_decide; subst; [by rewrite fn_lookup_insert|by rewrite fn_lookup_insert_ne].
Qed.

(** ** Views made of items *)

Definition imsg (x : item) : option (Z * msg) := match x with IMsg d m => Some (d, m) | _ => None end.
Definition ikey (x : item) : option (Z * Z) := match x with ICont v o _ _ => Some (v, o) | _ => None end.

Section group.
Context (G : Z).

Record view_ok (its : list item) (V : View) : Prop := {
  vk_net : vnet V ≡ₚ omap imsg its;
  vk_nodes : NoDup (omap inode its);
  vk_remote v i : vremote V v = Some i -> exists ch w, INode v ch w ∈ its /\ info_at i ch w;
  vk_remote' v ch w : INode v ch w ∈ its -> is_Some (vremote V v);
  vk_keys : NoDup (omap ikey its);
  vk_cont v o q o' : vcont V v o = Some (ParentCont q G o') <-> ICont v o q o' ∈ its
}.

#[export] Instance view_ok_proper : Proper (Permutation ==> (≡) ==> iff) view_ok.
Proof.
  assert (forall its its' V W, its ≡ₚ its' -> V ≡ W -> view_ok its V -> view_ok its' W) as H.
  { intros its its' V W Hp [E1 E2 _ E4 _] [H1 H2 H3 H4 H5 H6]. split.
    - by rewrite <- E1, <- Hp.
    - by rewrite <- Hp.
    - intros v i. rewrite <- E2. intros (ch & w & Hx & Hi)%H3. exists ch, w. by rewrite <- Hp.
    - intros v ch w. rewrite <- E2, <- Hp. apply H4.
    - by rewrite <- Hp.
    - intros v o q o'. by rewrite <- E4, H6, Hp. }
  intros its its' Hp V W HV. split; apply H; try done; by symmetry.
Qed.

Lemma inode_elem v ch w (its : list item) : INode v ch w ∈ its -> v ∈ omap inode its.
Proof. intros H. apply list_elem_of_omap. by exists (INode v ch w). Qed.
Lemma ikey_elem v o q o' (its : list item) : ICont v o q o' ∈ its -> (v, o) ∈ omap ikey its.
Proof. intros H. apply list_elem_of_omap. by exists (ICont v o q o'). Qed.

(** A node is kept with the children and the count of its item. *)
Lemma view_node its V v ch w :
  view_ok its V -> INode v ch w ∈ its -> exists i, vremote V v = Some i /\ info_at i ch w.
Proof.
  intros [_ H2 H3 H4 _ _] Hin. destruct (H4 v ch w Hin) as [i Hi]. exists i. split; [done|].
  destruct (H3 v i Hi) as (ch' & w' & Hin' & Hat).
  assert (INode v ch w = INode v ch' w') as [= -> ->]; [|done]. clear -H2 Hin Hin'.
  induction its as [|x its IH]; [by apply elem_of_nil in Hin|].
  cbn [omap list_omap] in H2. apply elem_of_cons in Hin as [<-|Hin], Hin' as [<-|Hin']; try done.
  - simpl in H2. apply NoDup_cons in H2 as [H2 _]. destruct H2. by eapply inode_elem.
  - simpl in H2. apply NoDup_cons in H2 as [H2 _]. destruct H2. by eapply inode_elem.
  - apply IH; try done. destruct (inode x); [by apply NoDup_cons in H2 as [_ ?]|done].
Qed.

Lemma view_msg_out d m R V rest :
  view_ok (IMsg d m :: R) V -> vnet V ≡ₚ (d, m) :: rest -> view_ok R (set_net rest V).
Proof.
  intros [H1 H2 H3 H4 H5 H6] Hn. split; simpl in *; try done.
  - rewrite Hn in H1. by apply Permutation_cons_inv in H1.
  - intros v i Hi. destruct (H3 v i Hi) as (ch & w & [?|Hin]%elem_of_cons & Hat); [done|eauto].
  - intros v ch w Hin. apply (H4 v ch w). by right.
  - intros v o q o'. rewrite H6, elem_of_cons. naive_solver.
Qed.


Lemma view_msg_in d m R V :
  view_ok R V -> view_ok (IMsg d m :: R) (set_net (vnet V ++ [(d, m)]) V).
Proof.
  intros [H1 H2 H3 H4 H5 H6]. split; simpl in *; try done.
  - rewrite H1. solve_Permutation.
  - intros v i Hi. destruct (H3 v i Hi) as (ch & w & Hin & Hat). exists ch, w. split; [by right|done].
  - intros v ch w [?|Hin]%elem_of_cons; [done|]. by apply (H4 v ch w).
  - intros v o q o'. rewrite H6, elem_of_cons. naive_solver.
Qed.

Lemma view_node_new n ch w i R V :
  view_ok R V -> vremote V n = None -> info_at i ch w ->
  view_ok (INode n ch w :: R) (set_remote n (Some i) V).
Proof.
  intros [H1 H2 H3 H4 H5 H6] Hn Hi. split; try done.
  - simpl. constructor; [|done]. intros (x & Hx & E)%list_elem_of_omap. destruct x; try done.
    injection E as ->. destruct (H4 _ _ _ Hx) as [? ?]. congruence.
  - intros v j. rewrite set_remote_lookup. case_decide as E; subst.
    + intros [= <-]. exists ch, w. split; [left|done].
    + intros (ch' & w' & Hin & Hat)%H3. exists ch', w'. split; [by right|done].
  - intros v ch' w'. rewrite set_remote_lookup. case_decide; [by eexists|].
    intros [[= -> -> ->]|Hin]%elem_of_cons; [done|]. by apply (H4 v ch' w').
  - intros v o q o'. simpl. rewrite H6, elem_of_cons. naive_solver.
Qed.

Lemma view_node_set n ch w w' i R V :
  view_ok (INode n ch w :: R) V -> info_at i ch w' ->
  view_ok (INode n ch w' :: R) (set_remote n (Some i) V).
Proof.
  intros [H1 H2 H3 H4 H5 H6] Hi. split; try done.
  - intros v j. rewrite set_remote_lookup. case_decide as E; subst.
    + intros [= <-]. exists ch, w'. split; [left|done].
    + intros (ch' & w'' & [[= -> _ _]|Hin]%elem_of_cons & Hat)%H3; [done|]. exists ch', w''. split; [by right|done].
  - intros v ch' w''. rewrite set_remote_lookup. case_decide; [by eexists|].
    intros [[= -> -> ->]|Hin]%elem_of_cons; [done|]. apply (H4 v ch' w''). by right.
  - intros v o q o'. simpl in *. rewrite H6, !elem_of_cons. naive_solver.
Qed.

Lemma view_cont_out n o q o' R V :
  view_ok (ICont n o q o' :: R) V -> view_ok R (set_cont n o None V).
Proof.
  intros [H1 H2 H3 H4 H5 H6]. split; try done.
  - intros v i Hi. destruct (H3 v i Hi) as (ch & w & [?|Hin]%elem_of_cons & Hat); [done|eauto].
  - intros v ch w Hin. apply (H4 v ch w). by right.
  - simpl in H5. by apply NoDup_cons in H5 as [_ ?].
  - simpl in H5. apply NoDup_cons in H5 as [Hno _]. intros v x y z. rewrite set_cont_lookup. case_decide as E.
    + destruct E as [-> ->]. split; [done|]. intros Hin. destruct Hno. by eapply ikey_elem.
    + rewrite H6, elem_of_cons. naive_solver.
Qed.

Lemma view_cont_in n o q o' R V :
  view_ok R V -> vcont V n o = None ->
  view_ok (ICont n o q o' :: R) (set_cont n o (Some (ParentCont q G o')) V).
Proof.
  intros [H1 H2 H3 H4 H5 H6] Hn. split; try done.
  - intros v i Hi. destruct (H3 v i Hi) as (ch & w & Hin & Hat). exists ch, w. split; [by right|done].
  - intros v ch w [?|Hin]%elem_of_cons; [done|]. by apply (H4 v ch w).
  - simpl. constructor; [|done]. intros (x & Hx & E)%list_elem_of_omap. destruct x; try done.
    injection E as -> ->. apply H6 in Hx. congruence.
  - intros v x y z. rewrite set_cont_lookup. case_decide as E.
    + destruct E as [-> ->]. rewrite elem_of_cons, <- H6, Hn. naive_solver.
    + rewrite H6, elem_of_cons. naive_solver.
Qed.

(** Continuations that are not a parent's, the creator's own entry and the actions run are
    no items. *)
Lemma view_cont_other n o a its V :
  view_ok its V -> (forall q o', vcont V n o <> Some (ParentCont q G o')) ->
  (forall q o', a <> Some (ParentCont q G o')) -> view_ok its (set_cont n o a V).
Proof.
  intros [H1 H2 H3 H4 H5 H6] Hv Ha. split; try done.
  intros v x y z. rewrite set_cont_lookup. case_decide as E; [|done].
  destruct E as [-> ->]. rewrite <- H6. split; intros E; [by destruct (Ha y z)|by destruct (Hv y z)].
Qed.

Lemma view_perm its its' V : view_ok its V -> its ≡ₚ its' -> view_ok its' V.
Proof. by intros H <-. Qed.

(** An answer is counted at [d]. *)
Lemma view_counted d ch w o par op' R V rest i :
  view_ok (INode d ch w :: ICont d o par op' :: IMsg d (Trigger G o) :: R) V ->
  vnet V ≡ₚ (d, Trigger G o) :: rest -> info_at i ch w ->
  view_ok (INode d ch (w - 1) :: R)
    (set_cont d o None (set_remote d (Some (with_wait (w - 1) i)) (set_net rest V))).
Proof.
  intros Hv Hn [Hi1 Hi2 _]. apply (view_cont_out d o par op').
  eapply view_perm; [|apply (Permutation_swap (ICont d o par op') (INode d ch (w - 1)))].
  eapply view_node_set; [|by split]. apply (view_msg_out d (Trigger G o)); [|done].
  eapply view_perm; [exact Hv|]. solve_Permutation.
Qed.

Lemma view_local n i its V : view_ok its V -> view_ok its (set_local n i V).
Proof. by intros []. Qed.
Lemma view_ran x its V : view_ok its V -> view_ok its (add_ran x V).
Proof. by intros []. Qed.

(** ** One group *)

(** What the invariant knows of a group and no node does as a whole. *)
Record ghost := MkGhost {
  g_root : Z;          (* the creator *)
  g_op : Z;            (* the creator's operation that answers the whole tree *)
  g_act : Z;           (* the user's action *)
  g_prog : prog;
  g_region : Region    (* what it was made from *)
}.
Definition g_mem (g : ghost) : list Z := members (g_region g).
Definition with_prog (p : prog) (g : ghost) : ghost := MkGhost (g_root g) (g_op g) (g_act g) p (g_region g).

Context (N : Z).

Record GI (gh : ghost) (V : View) : Prop := {
  gi_wf : wf G (g_root gh) (g_op gh) (g_prog gh) \/
    exists l, g_prog gh = Here (g_root gh) l /\ (contains_ok (g_region gh) -> g_root gh ∈ l);
  gi_root : 0 <= g_root gh < N;
  gi_nodes : nodesof (g_prog gh) ≡ₚ g_mem gh;
  gi_nodup : NoDup (g_mem gh);
  gi_in x : x ∈ g_mem gh -> 0 <= x < N;
  gi_view : view_ok (items G (g_root gh) (g_op gh) (g_prog gh)) V;
  gi_fin v o a : vcont V v o = Some (Finished a G) <->
    closed (g_prog gh) = false /\ v = g_root gh /\ o = g_op gh /\ a = g_act gh;
  gi_local v i : vlocal V v = Some i -> v = g_root gh /\ forwards (phead (g_prog gh)) i;
  gi_local' : is_Some (vlocal V (g_root gh));
  gi_ran : vran V = if closed (g_prog gh) then [(g_root gh, (g_act gh, G))] else []
}.

#[export] Instance GI_proper gh : Proper ((≡) ==> iff) (GI gh).
Proof.
  assert (forall V W, V ≡ W -> GI gh V -> GI gh W) as H.
  { intros V W HV [H1 H2 H3 H4 H5 H6 H7 H8 H9 H10]. pose proof HV as [E1 E2 E3 E4 E5]. split; try done.
    - by rewrite <- HV.
    - intros v o a. rewrite <- E4. apply H7.
    - intros v i. rewrite <- E3. apply H8.
    - by rewrite <- E3.
    - by rewrite <- E5. }
  intros V W HV. split; apply H; done.
Qed.

Lemma GI_step gh V p' V' :
  GI gh V -> wf G (g_root gh) (g_op gh) p' -> nodesof p' = nodesof (g_prog gh) -> alike (g_prog gh) p' ->
  view_ok (items G (g_root gh) (g_op gh) p') V' ->
  (forall v o a, vcont V' v o = Some (Finished a G) <-> vcont V v o = Some (Finished a G)) ->
  (forall v, vlocal V' v = vlocal V v) -> vran V' = vran V -> GI (with_prog p' gh) V'.
Proof.
  intros [H1 H2 H3 H4 H5 H6 H7 H8 H9 H10] Hw Hn [Hh Hc] Hv Hf Hl Hr. split; simpl; try done.
  - by left.
  - by rewrite Hn.
  - intros v o a. by rewrite Hf, Hc.
  - intros v i. rewrite Hl, Hh. apply H8.
  - by rewrite Hl.
  - by rewrite Hr, Hc.
Qed.

Lemma imsg_elem d m (its : list item) : (d, m) ∈ omap imsg its -> IMsg d m ∈ its.
Proof. intros (x & Hx & E)%list_elem_of_omap. destruct x; try done. by injection E as -> ->. Qed.

Lemma GI_msg gh V d m : GI gh V -> (d, m) ∈ vnet V -> IMsg d m ∈ items G (g_root gh) (g_op gh) (g_prog gh).
Proof. intros HG Hin. apply imsg_elem. by rewrite <- (vk_net _ _ (gi_view _ _ HG)). Qed.

Lemma GI_msg_wf gh V d m : GI gh V -> (d, m) ∈ vnet V -> wf G (g_root gh) (g_op gh) (g_prog gh).
Proof.
  intros HG Hin. pose proof (GI_msg _ _ _ _ HG Hin) as Hx. destruct (gi_wf _ _ HG) as [|(l & E & _)]; [done|].
  rewrite E in Hx. by apply list_elem_of_singleton in Hx.
Qed.

Lemma submseteq_NoDup (l1 l2 : list Z) : l1 ⊆+ l2 -> NoDup l2 -> NoDup l1.
Proof. intros [k E]%submseteq_Permutation H. rewrite E in H. by apply NoDup_app in H as [? _]. Qed.

(** The operation that answers a subtree is registered. *)
Lemma rep_cont par op p par' op' q q' p' :
  rep par op p par' op' q q' p' -> closed q = false ->
  (q = p /\ par' = par /\ op' = op) \/ (exists x y, ICont par' op' x y ∈ items G par op p).
Proof.
  induction 1 as [par op q q'|par op h ch st k1 o k k2 par' op' q q' k' Hr IH]; intros Hq; [by left|].
  right. rewrite items_Started, flat_map_kids_nil.
  destruct (IH Hq) as [(-> & -> & ->)|(x & y & Hin)]; [exists par, op|exists x, y]; right; apply elem_of_app; right;
    apply elem_of_app; right; apply elem_of_app; left; unfold kid_items; cbn [fst snd]; apply elem_of_app.
  - left. rewrite Hq. left.
  - by right.
Qed.

Lemma GI_cont gh V par' op' q q' p' :
  GI gh V -> wf G (g_root gh) (g_op gh) (g_prog gh) ->
  rep (g_root gh) (g_op gh) (g_prog gh) par' op' q q' p' -> closed q = false ->
  is_Some (vcont V par' op').
Proof.
  intros HG Hw Hr Hq. destruct (rep_cont _ _ _ _ _ _ _ _ Hr Hq) as [(-> & -> & ->)|(x & y & Hin)].
  - exists (Finished (g_act gh) G). by apply (gi_fin _ _ HG).
  - exists (ParentCont x G y). by apply (vk_cont _ _ (gi_view _ _ HG)).
Qed.

(** A set-up message under way: what it carries, and that the node has not been set up. *)
Lemma GI_setup gh V n m :
  GI gh V -> (n, Setup m) ∈ vnet V ->
  exists par op l r, n = root_node_ m /\ carries m G par op l r /\ NoDup l /\ 0 <= n < N /\
    vremote V n = None /\ is_Some (vcont V par op) /\
    forall q' V', wf G par op q' -> alike (Pending m l) q' -> nodesof q' = l ->
      (forall R, view_ok (IMsg n (Setup m) :: R) V -> view_ok (items G par op q' ++ R) V') ->
      (forall v o a, vcont V' v o = Some (Finished a G) <-> vcont V v o = Some (Finished a G)) ->
      (forall v, vlocal V' v = vlocal V v) -> vran V' = vran V ->
      weight q' < weight (Pending m l) ->
      exists p', GI (with_prog p' gh) V' /\ weight p' < weight (g_prog gh).
Proof.
  intros HG Hin. pose proof (GI_msg_wf _ _ _ _ HG Hin) as Hw. pose proof (GI_msg _ _ _ _ HG Hin) as Hx.
  destruct (find_setup _ _ _ _ _ _ Hx) as [-> (par & op & l & Hs)].
  pose proof (sub_wf _ _ _ _ _ _ _ Hw Hs) as Hp. inversion Hp as [? ? ? ? r Hc| |]; subst.
  destruct (Hs (Started (root_node_ m) (list.tail l) Acking [])) as [p0 Hr0].
  destruct (step_leaf G par op m l r Hc) as (Hw0 & Ha0 & Hn0 & Hi0).
  destruct (rep_nodes _ _ _ _ _ _ _ _ Hr0) as (l1 & l2 & E1 & E2).
  assert (NoDup (nodesof (g_prog gh))) as Hnd by (rewrite (gi_nodes _ _ HG); apply HG).
  exists par, op, l, r. split; [done|]. split; [done|]. split_and!.
  - rewrite E1 in Hnd. by apply NoDup_app in Hnd as (_ & _ & (? & _ & _)%NoDup_app).
  - apply (gi_in _ _ HG). rewrite <- (gi_nodes _ _ HG), E1. apply elem_of_app. right. apply elem_of_app. left.
    apply (phead_nodes _ _ _ _ Hp).
  - apply (gi_in _ _ HG). rewrite <- (gi_nodes _ _ HG), E1. apply elem_of_app. right. apply elem_of_app. left.
    apply (phead_nodes _ _ _ _ Hp).
  - destruct (vremote V (root_node_ m)) as [i|] eqn:Ei; [|done]. exfalso.
    destruct (vk_remote _ _ (gi_view _ _ HG) _ _ Ei) as (ch & w & Hnode & _).
    destruct (rep_items G _ _ _ _ _ _ _ _ Hr0 Ha0) as (R & ER & ER0).
    pose proof (inodes_sub G _ _ _ (proj2 (rep_wf G _ _ _ _ _ _ _ _ Hr0 Hw) Hw0 Ha0)) as Hsub.
    assert (NoDup (nodesof p0)) as Hnd0 by (rewrite E2, Hn0; by rewrite E1 in Hnd).
    apply submseteq_NoDup in Hsub; [|done]. rewrite ER0, Hi0 in Hsub.
    simpl in Hsub. apply NoDup_cons in Hsub as [Hno _]. apply Hno. rewrite ER in Hnode. cbn [items app] in Hnode.
    apply elem_of_cons in Hnode as [?|Hnode]; [done|]. by eapply inode_elem.
  - by apply (GI_cont _ _ _ _ _ _ _ HG Hw Hr0).
  - intros q' V' Hq Ha Hn Hv Hf Hl Hran Hwt. destruct (Hs q') as [p' Hr]. exists p'.
    pose proof (rep_weight _ _ _ _ _ _ _ _ Hr). split; [|lia].
    destruct (rep_items G _ _ _ _ _ _ _ _ Hr Ha) as (R & ER & ER').
    destruct (rep_nodes _ _ _ _ _ _ _ _ Hr) as (l1' & l2' & E1' & E2').
    apply (GI_step gh V); try done.
    + by apply (rep_wf _ _ _ _ _ _ _ _ _ Hr Hw).
    + rewrite E1', E2', Hn. done.
    + by apply (rep_alike _ _ _ _ _ _ _ _ Hr).
    + rewrite ER'. apply Hv. rewrite <- ER. apply HG.
Qed.

(** Not more answers are waited for than there are members. *)
Lemma nopen_nodes par op d ch st kids :
  wf G par op (Started d ch st kids) -> nopen kids <= Z.of_nat (length (nodesof (Started d ch st kids))).
Proof.
  inversion 1 as [|? ? ? ? ? ?|? ? ? ? ? Hne _ Hall]; subst; [unfold nopen; simpl; lia|].
  rewrite nodesof_inner by done. cbn [length].
  assert (nopen kids <= Z.of_nat (length (flat_map (fun k => nodesof k.2) kids))); [|lia].
  clear Hne H. induction Hall as [|[o k] kids Hk _ IH]; [done|]. rewrite nopen_cons. cbn [flat_map].
  rewrite length_app. pose proof (phead_nodes _ _ _ _ Hk) as Hin. cbn [snd] in *.
  destruct (nodesof k); [by apply elem_of_nil in Hin|]. cbn [length].
  pose proof (b2z_range (negb (closed k))). lia.
Qed.

Lemma members_bound (l : list Z) : NoDup l -> (forall x, x ∈ l -> 0 <= x < N) -> Z.of_nat (length l) <= Z.max 0 N.
Proof.
  intros Hnd Hin. assert (l ⊆+ seqZ 0 N) as Hs.
  { apply NoDup_submseteq; [done|]. intros x Hx. apply elem_of_seqZ. specialize (Hin x Hx). lia. }
  apply submseteq_length in Hs. rewrite length_seqZ in Hs. lia.
Qed.

Lemma set_cont_fin n o q o' V V' v x a :
  vcont V n o = Some (ParentCont q G o') -> (forall v x, vcont V' v x = vcont V v x) ->
  vcont (set_cont n o None V') v x = Some (Finished a G) <-> vcont V v x = Some (Finished a G).
Proof.
  intros Hp HV. rewrite set_cont_lookup, HV. case_decide as E; [|done].
  destruct E as [-> ->]. by rewrite Hp.
Qed.

Lemma GI_close gh V h ch kids rest :
  GI gh V -> g_prog gh = Started h ch Acking kids ->
  vnet V ≡ₚ (g_root gh, Trigger G (g_op gh)) :: rest ->
  vcont V (g_root gh) (g_op gh) = Some (Finished (g_act gh) G) /\
  GI (with_prog (Started h ch Closed kids) gh)
    (add_ran (g_root gh, (g_act gh, G)) (set_cont (g_root gh) (g_op gh) None (set_net rest V))) /\
  weight (Started h ch Closed kids) < weight (g_prog gh).
Proof.
  intros HG Hp Hn. pose proof HG as [H1 H2 H3 H4 H5 H6 H7 H8 H9 H10]. rewrite Hp in *.
  assert (vcont V (g_root gh) (g_op gh) = Some (Finished (g_act gh) G)) as Hf by (by apply H7).
  split; [done|]. split; [|simpl; lia]. split; try done.
  - left. destruct H1 as [H1|(? & ? & _)]; [|done]. by apply step_close.
  - apply view_ran. apply view_cont_other; [|intros q o'; cbn; by rewrite Hf|done].
    rewrite items_acked in H6. by eapply view_msg_out.
  - intros v o a. cbn [add_ran vcont]. rewrite set_cont_lookup. cbn. case_decide as E; [naive_solver|].
    rewrite H7. naive_solver.
  - simpl. by rewrite H10.
Qed.

(** The last answer of all is counted on the creator, which is the group's first node. *)
Lemma GI_count_here gh V d o ch st k1 h' ch' kids' k2 i w rest op' :
  GI gh V -> wf G (g_root gh) (g_op gh) (g_prog gh) -> vnet V ≡ₚ (d, Trigger G o) :: rest ->
  g_prog gh = Started d ch st (k1 ++ (o, Started h' ch' Acking kids') :: k2) ->
  let kids := counted_kids k1 o h' ch' kids' k2 in
  d = g_root gh -> op' = g_op gh -> w = nopen kids + 1 -> w = 1 -> info_at i ch w ->
  GI (with_prog (Started d ch Closed kids) gh) (add_ran (d, (g_act gh, G)) (set_cont d op' None
    (set_cont d o None (set_remote d (Some (with_wait (w - 1) i)) (set_net rest V))))) /\
  weight (Started d ch Closed kids) < weight (g_prog gh).
Proof.
  intros HG Hw Hn Hp kids -> -> Ew Hw1 Hi. rewrite Hp in Hw.
  destruct (step_count G _ _ _ ch st k1 o h' ch' kids' k2 Closed Hw) as (-> & Hw' & Hn' & R & E1 & E2); [done|].
  fold kids in Hw', Hn', E1, E2. pose proof HG as [H1 H2 H3 H4 H5 H6 H7 H8 H9 H10]. rewrite Hp in *.
  unfold next_status in *. assert (nopen kids = 0) as E0 by lia. rewrite E0 in *. cbn in Hw', Hn', E2.
  rewrite E1, <- Ew in H6. pose proof (view_counted _ _ _ _ _ _ _ _ _ _ H6 Hn Hi) as Hv.
  assert (vcont V (g_root gh) o = Some (ParentCont (g_root gh) G (g_op gh))) as Hc by (apply (vk_cont _ _ H6); right; left).
  assert (vcont V (g_root gh) (g_op gh) = Some (Finished (g_act gh) G)) as Hf by (by apply H7).
  assert (g_op gh <> o) as Hne by (intros E; rewrite E in Hf; congruence).
  pose proof (weight_count (g_root gh) ch k1 o h' ch' kids' k2 Closed ltac:(done)) as Hwt. cbv zeta in Hwt. fold kids in Hwt.
  unfold next_status in Hwt. rewrite E0 in Hwt. split; [|exact Hwt]. split; try done.
  - by left.
  - exact (eq_ind_r (fun l => l ≡ₚ g_mem gh) H3 Hn').
  - apply view_ran. cbn [g_prog with_prog g_root g_op]. rewrite E2. cbn [app].
    assert (w - 1 = 0) as E by lia. rewrite E in Hv |- *. apply view_cont_other; [exact Hv| |done].
    intros q x. rewrite set_cont_lookup. case_decide; [done|]. cbn. by rewrite Hf.
  - intros v x a. cbn [add_ran vcont with_prog closed g_prog]. rewrite !set_cont_lookup. cbn.
    case_decide as C1; [naive_solver|]. case_decide as C2; [naive_solver|]. rewrite H7. naive_solver.
  - simpl. by rewrite H10.
Qed.

(** The answer of a subtree that is not the whole tree is counted. *)
Lemma GI_count gh V d o rest par op' ch st k1 h' ch' kids' k2 :
  GI gh V -> wf G (g_root gh) (g_op gh) (g_prog gh) -> vnet V ≡ₚ (d, Trigger G o) :: rest ->
  sub (g_root gh) (g_op gh) (g_prog gh) par op' (Started d ch st (k1 ++ (o, Started h' ch' Acking kids') :: k2)) ->
  exists i w, 0 <= d < N /\ vcont V d o = Some (ParentCont par G op') /\
     vremote V d = Some i /\ info_at i ch w /\ 1 <= w <= N /\ 0 <= par < N /\ is_Some (vcont V par op') /\
     let V1 := set_cont d o None (set_remote d (Some (with_wait (w - 1) i)) (set_net rest V)) in
     ((w <> 1 /\ exists p', GI (with_prog p' gh) V1 /\ weight p' < weight (g_prog gh)) \/
      (w = 1 /\ par <> d /\ exists p', GI (with_prog p' gh) (set_net (rest ++ [(par, Trigger G op')]) V1) /\ weight p' < weight (g_prog gh)) \/
      (w = 1 /\ par = d /\ op' <> o /\ vcont V d op' = Some (Finished (g_act gh) G) /\
       exists p', GI (with_prog p' gh) (add_ran (d, (g_act gh, G)) (set_cont d op' None V1)) /\
         weight p' < weight (g_prog gh))).
Proof.
  intros HG Hw Hn Hs. set (q := Started d ch st _) in *. pose proof (sub_wf _ _ _ _ _ _ _ Hw Hs) as Hq.
  set (kids := counted_kids k1 o h' ch' kids' k2).
  set (q1 := Started d ch (next_status kids Acking) kids).
  destruct (step_count G par op' d ch st k1 o h' ch' kids' k2 Acking Hq) as (Est & Hw' & Hn' & R0 & E1 & E2); [done|].
  fold kids q q1 in Hw', Hn', E1, E2. destruct (Hs q1) as [p1 Hr1].
  assert (alike q q1) as Ha by (split; [done|]; unfold q, q1, next_status; rewrite Est; by case_match).
  destruct (rep_items G _ _ _ _ _ _ _ _ Hr1 Ha) as (R1 & F1 & F2). rewrite E1 in F1. rewrite E2 in F2.
  pose proof (gi_view _ _ HG) as Hv. rewrite F1 in Hv.
  pose proof (nopen_nonneg kids) as Hpos. set (w := nopen kids + 1) in *.
  destruct (view_node _ _ d ch w Hv) as (i & Hri & Hi); [left|].
  assert (vcont V d o = Some (ParentCont par G op')) as Hc.
  { apply (vk_cont _ _ Hv). right. left. }
  pose proof (view_counted d ch w o par op' (R0 ++ R1) V rest i Hv Hn Hi) as Hv1.
  set (V1 := set_cont d o None _) in *. assert (w - 1 = nopen kids) as Ew by lia.
  assert (NoDup (nodesof (g_prog gh))) as Hnd by (rewrite (gi_nodes _ _ HG); apply HG).
  destruct (rep_nodes _ _ _ _ _ _ _ _ Hr1) as (l1 & l2 & N1 & N2).
  assert (forall x, x ∈ nodesof q -> 0 <= x < N) as Hrange.
  { intros x Hx. apply (gi_in _ _ HG). rewrite <- (gi_nodes _ _ HG), N1. elems. }
  assert (nodesof q1 = nodesof q) as Hnq by exact Hn'.
  assert (0 <= d < N) as Hd by (apply Hrange, (phead_nodes G par op' q), Hq).
  pose proof (rep_parent G _ _ _ _ _ _ _ _ Hr1 Hw Hnd) as Htop.
  assert (weight p1 < weight (g_prog gh)) as Hwt.
  { pose proof (rep_weight _ _ _ _ _ _ _ _ Hr1). pose proof (weight_count d ch k1 o h' ch' kids' k2 Acking ltac:(done)) as Hc1.
    cbv zeta in Hc1. fold kids q1 in Hc1. unfold q in *. rewrite Est in *. lia. }
  assert (0 <= par < N) as Hpar.
  { destruct Htop as [(_ & -> & _)|[_ Hin]]; [apply HG|]. apply (gi_in _ _ HG). by rewrite <- (gi_nodes _ _ HG). }
  exists i, w. split_and!; try done || lia.
  { pose proof (nopen_nodes _ _ _ _ _ _ Hw') as Hb. fold q1 in Hb. rewrite Hnq in Hb.
    pose proof (nopen_nodes _ _ _ _ _ _ Hq) as Hb2. fold q in Hb2.
    assert (nopen (k1 ++ (o, Started h' ch' Acking kids') :: k2) = w) as E.
    { unfold w, kids, counted_kids. rewrite !nopen_app, !nopen_cons. simpl. lia. }
    rewrite E in Hb2. pose proof (members_bound (nodesof (g_prog gh)) Hnd) as Hm.
    assert (Z.of_nat (length (nodesof q)) <= Z.of_nat (length (nodesof (g_prog gh)))) by (rewrite N1, !length_app; lia).
    specialize (Hm ltac:(intros x; rewrite (gi_nodes _ _ HG); apply HG)). lia. }
  { apply (GI_cont _ _ _ _ _ _ _ HG Hw Hr1). unfold q. by rewrite Est. }
  cbv zeta. fold V1.
  assert (forall v x a, vcont V1 v x = Some (Finished a G) <-> vcont V v x = Some (Finished a G)) as Hfin.
  { intros v x a. by apply (set_cont_fin d o par op'). }
  destruct (decide (w = 1 /\ par = d)) as [[Hw1 He]|Hno].
  - right. right. destruct Htop as [(Eq & Er & Eo)|[? _]]; [|done]. split_and!; try done.
    + intros ->. assert (vcont V d o = Some (Finished (g_act gh) G)) as E; [|by rewrite E in Hc].
      apply (gi_fin _ _ HG). rewrite <- Eq. unfold q. rewrite Est. split_and!; done || congruence.
    + apply (gi_fin _ _ HG). rewrite <- Eq. unfold q. rewrite Est. split_and!; done || congruence.
    + exists (Started d ch Closed kids). apply (GI_count_here gh V d o ch st k1 h' ch' kids' k2 i w rest op'); try done.
      all: congruence || lia.
  - destruct (decide (w = 1)) as [Hw1|Hw1].
    + right. left. split_and!; [done|naive_solver|]. exists p1. split; [|exact Hwt]. unfold next_status in F2.
      rewrite <- Ew in F2. replace (w - 1) with 0 in F2, Hv1 by lia. cbn [Z.eqb ack app] in F2.
      apply (GI_step gh V); try done; [by apply (rep_wf _ _ _ _ _ _ _ _ _ Hr1 Hw)|by rewrite N2, Hnq, N1
        |by apply (rep_alike _ _ _ _ _ _ _ _ Hr1)|].
      rewrite F2. eapply view_perm; [|apply (Permutation_swap (INode d ch 0))].
      apply (view_msg_in par (Trigger G op') _ V1), Hv1.
    + left. split; [done|]. exists p1. split; [|exact Hwt]. unfold next_status in F2. rewrite <- Ew in F2.
      destruct (Z.eqb_spec (w - 1) 0); [lia|]. cbn [ack app] in F2.
      apply (GI_step gh V); try done; [by apply (rep_wf _ _ _ _ _ _ _ _ _ Hr1 Hw)|by rewrite N2, Hnq, N1
        |by apply (rep_alike _ _ _ _ _ _ _ _ Hr1)|].
      by rewrite F2.
Qed.

Lemma GI_trigger gh V d o rest :
  GI gh V -> vnet V ≡ₚ (d, Trigger G o) :: rest ->
  (exists p', d = g_root gh /\ o = g_op gh /\ vcont V d o = Some (Finished (g_act gh) G) /\
     GI (with_prog p' gh) (add_ran (d, (g_act gh, G)) (set_cont d o None (set_net rest V))) /\
     weight p' < weight (g_prog gh)) \/
  (exists par op' i ch w p', weight p' < weight (g_prog gh) /\ 0 <= d < N /\ vcont V d o = Some (ParentCont par G op') /\
     vremote V d = Some i /\ info_at i ch w /\ 1 <= w <= N /\ 0 <= par < N /\ is_Some (vcont V par op') /\
     let V1 := set_cont d o None (set_remote d (Some (with_wait (w - 1) i)) (set_net rest V)) in
     ((w <> 1 /\ GI (with_prog p' gh) V1) \/
      (w = 1 /\ par <> d /\ GI (with_prog p' gh) (set_net (rest ++ [(par, Trigger G op')]) V1)) \/
      (w = 1 /\ par = d /\ op' <> o /\ vcont V d op' = Some (Finished (g_act gh) G) /\
       GI (with_prog p' gh) (add_ran (d, (g_act gh, G)) (set_cont d op' None V1))))).
Proof.
  intros HG Hn. assert ((d, Trigger G o) ∈ vnet V) as Hin by (rewrite Hn; left).
  pose proof (GI_msg_wf _ _ _ _ HG Hin) as Hw. pose proof (GI_msg _ _ _ _ HG Hin) as Hx.
  destruct (find_trigger _ _ _ _ _ _ _ Hx) as [_ [(h & ch & kids & Hp & -> & ->)|
    (par & op' & ch & st & k1 & h' & ch' & kids' & k2 & Hs)]].
  { left. destruct (GI_close gh V h ch kids rest HG Hp Hn) as (Hf & HG' & Hwt). eauto 8. }
  right. destruct (GI_count gh V d o rest par op' ch st k1 h' ch' kids' k2 HG Hw Hn Hs)
    as (i & w & Hd & Hc & Hr & Hi & Hwb & Hpar & Hreg & Hcases).
  exists par, op', i, ch, w. destruct Hcases as [(Hw1 & p' & Hp' & Hwt)|[(Hw1 & Hne & p' & Hp' & Hwt)|(Hw1 & He & Ho & Hf & p' & Hp' & Hwt)]];
    exists p'; split_and!; try done || lia; [by left|right; left|right; right]; by split_and!.
Qed.

End group.
End GroupInvariant.
