(* ===== verification/GroupReach.v ===== *)
(** * Steps of rooted groups

    The operations of one node on the invariant of [GroupInvariant.v]. Each is on behalf of
    one group and leaves what the node holds of others ([touches]); it returns, and the
    group's view goes on as the invariant says ([goes_on]). *)

From S2P Require Import Prelude.
From S2P Require Import Sums.
From S2P Require Import Effects.
From S2P Require Import Ids.
From S2P Require Import Region.
From S2P Require Import Group.
From S2P Require Import GroupSystem.
From S2P Require Import GroupProgress.
From S2P Require Import GroupInvariant.

Module GroupReach.
Import Region RegionSpec Group GroupFacts GroupSystem GroupProgress GroupInvariant.

Definition group_of (a : Action) : Z := match a with Finished _ G => G | ParentCont _ G _ => G end.

(** What is registered under [o], if it concerns the group. *)
Definition contof (G : Z) (g : GroupManager) (o : Z) : option Action :=
  match continuation_actions_ g !! o with
  | Some [a] => if decide (group_of a = G) then Some a else None
  | _ => None
  end.

Lemma contof_Some G g o a : contof G g o = Some a -> continuation_actions_ g !! o = Some [a] /\ group_of a = G.
Proof.
  unfold contof. destruct (continuation_actions_ g !! o) as [[|b [|]]|]; try done.
  case_decide; [|done]. by intros [= ->].
Qed.

(** ** What an operation on behalf of [G] may do to a node *)

Record touches (G : Z) (g g' : GroupManager) : Prop := {
  to_node : this_node g' = this_node g;
  to_remote G' : G' <> G -> remote_group_info_ g' !! G' = remote_group_info_ g !! G';
  to_local G' : G' <> G -> local_group_info_ g' !! G' = local_group_info_ g !! G';
  to_cont G' o : G' <> G -> contof G' g' o = contof G' g o;
  to_new o l : continuation_actions_ g' !! o = Some l ->
    continuation_actions_ g !! o = Some l \/ exists a, l = [a] /\ group_of a = G /\ 0 <= o < cur_id_ g';
  to_cur : cur_id_ g <= cur_id_ g';
  to_next : next_group_id_ g <= next_group_id_ g';
  to_size : cur_id_ g' - 2 * Z.of_nat (size (remote_group_info_ g'))
            <= cur_id_ g - 2 * Z.of_nat (size (remote_group_info_ g)) + (next_group_id_ g' - next_group_id_ g)
}.

Lemma touches_trans G g1 g2 g3 : touches G g1 g2 -> touches G g2 g3 -> touches G g1 g3.
Proof.
  intros [A1 A2 A3 A4 A5 A6 A7 A8] [B1 B2 B3 B4 B5 B6 B7 B8]. split; try lia; try congruence.
  - intros G' H. by rewrite B2, A2.
  - intros G' H. by rewrite B3, A3.
  - intros G' o H. by rewrite B4, A4.
  - intros o l H. destruct (B5 o l H) as [H'|?]; [|by right]. destruct (A5 o l H') as [?|(a & ? & ? & ?)]; [by left|].
    right. exists a. split_and!; done || lia.
Qed.

Lemma touches_refl G g : touches G g g.
Proof. split; try done; try lia. by left. Qed.

Lemma touches_remote G i g :
  touches G g (with_remote (<[G := i]> (remote_group_info_ g)) g).
Proof.
  split; try done; simpl; try lia.
  - intros G' H. by rewrite lookup_insert_ne.
  - by left.
  - rewrite map_size_insert. destruct (remote_group_info_ g !! G); cbn; lia.
Qed.

Lemma touches_delete G o a g :
  continuation_actions_ g !! o = Some [a] -> group_of a = G ->
  touches G g (with_conts (delete o (continuation_actions_ g)) g).
Proof.
  intros Ho Ha. split; try done; simpl; try lia.
  - intros G' o' H. unfold contof. simpl. destruct (decide (o' = o)) as [->|].
    + rewrite lookup_delete_eq, Ho. by rewrite decide_False by congruence.
    + by rewrite lookup_delete_ne.
  - intros o' l [_ H]%lookup_delete_Some. by left.
Qed.

Lemma contof_delete G o g o' :
  contof G (with_conts (delete o (continuation_actions_ g)) g) o' = if decide (o' = o) then None else contof G g o'.
Proof.
  unfold contof. simpl. case_decide; subst; [by rewrite lookup_delete_eq|by rewrite lookup_delete_ne].
Qed.

Lemma contof_registered G a k g g' o :
  registered a k g g' -> group_of a = G ->
  contof G g' o = if decide (cur_id_ g <= o < cur_id_ g + k) then Some a else contof G g o.
Proof.
  intros Hr Ha. unfold contof. rewrite (re_conts _ _ _ _ Hr). case_decide; [|done]. by rewrite decide_True.
Qed.

Lemma touches_setup_inner G a k g g' i :
  registered a k g g' -> group_of a = G -> k <= 2 -> 0 <= k -> 0 <= cur_id_ g -> remote_group_info_ g !! G = None ->
  (forall o, cur_id_ g <= o -> continuation_actions_ g !! o = None) ->
  touches G g (with_remote (<[G := i]> (remote_group_info_ g)) g').
Proof.
  intros [R1 R2 R3 R4 R5 R6] Ha Hk Hk0 Hc Hn Hfree. split; simpl; rewrite ?R1, ?R2, ?R3, ?R5; try done; try lia.
  - intros G' H. by rewrite lookup_insert_ne.
  - intros G' o H. unfold contof. simpl. rewrite R6. case_decide; [|done].
    rewrite decide_False by congruence. rewrite Hfree by lia. done.
  - intros o l. rewrite R6. case_decide; [|by left]. intros [= <-]. right. exists a. split_and!; done || lia.
  - rewrite map_size_insert, Hn. cbn. lia.
Qed.

(** ** The view after a step of one node *)

(** [V] with node [n] in the state [g'], the messages [l], and [rs] run besides. *)
Definition canon (G n : Z) (g' : GroupManager) (l : list (Z * msg)) (rs : list (Z * (Z * Z))) (V : View) : View :=
  MkView l
    (fun v => if decide (v = n) then remote_group_info_ g' !! G else vremote V v)
    (fun v => if decide (v = n) then local_group_info_ g' !! G else vlocal V v)
    (fun v o => if decide (v = n) then contof G g' o else vcont V v o) (vran V ++ rs).

Lemma canon_canon G n g1 g2 l1 l2 r1 r2 V :
  canon G n g2 l2 r2 (canon G n g1 l1 r1 V) ≡ canon G n g2 l2 (r1 ++ r2) V.
Proof. split; simpl; intros; [done|by case_decide..|by rewrite app_assoc]. Qed.

(** Node [n], in the state [g], is as the view says. *)
Record at_node (G n : Z) (g : GroupManager) (V : View) : Prop := {
  an_node : this_node g = n;
  an_remote : remote_group_info_ g !! G = vremote V n;
  an_local : local_group_info_ g !! G = vlocal V n;
  an_cont o : contof G g o = vcont V n o;
  an_cur : 0 <= cur_id_ g < 2 ^ 41;
  an_free o : cur_id_ g <= o -> continuation_actions_ g !! o = None
}.

Definition about (G : Z) (m : msg) : Prop :=
  match m with Setup m => m_group m = G | Trigger G' _ => G' = G | Bytes _ _ => False end.

Section group.
Context (N G : Z).

Lemma view_conts_in n q o' o0 k its V :
  view_ok G its V -> (forall o, o0 <= o < o0 + Z.of_nat k -> vcont V n o = None) ->
  exists V', view_ok G (((fun o => ICont n o q o') <$> seqZ o0 (Z.of_nat k)) ++ its) V' /\
    vnet V' = vnet V /\ vremote V' = vremote V /\ vlocal V' = vlocal V /\ vran V' = vran V /\
    forall v o, vcont V' v o = if decide (v = n /\ o0 <= o < o0 + Z.of_nat k) then Some (ParentCont q G o') else vcont V v o.
Proof.
  revert o0. induction k as [|k IH]; intros o0 Hv Hn.
  { exists V. split_and!; try done. intros v o. rewrite decide_False; [done|]. simpl. lia. }
  destruct (IH (o0 + 1) Hv) as (V1 & Hv1 & E1 & E2 & E3 & E4 & E5); [intros o Ho; apply Hn; lia|].
  exists (set_cont n o0 (Some (ParentCont q G o')) V1). split_and!; try done.
  - rewrite Nat2Z.inj_succ, seqZ_cons, Z.pred_succ, <- Z.add_1_r by lia. apply (view_cont_in G); [exact Hv1|].
    rewrite E5, decide_False by lia. apply Hn. lia.
  - intros v o. rewrite set_cont_lookup, E5. repeat case_decide; try done; try lia.
Qed.

Lemma view_msgs_in (l : list (Z * msg)) its V :
  view_ok G its V -> view_ok G (((fun x => IMsg x.1 x.2) <$> l) ++ its) (set_net (vnet V ++ l) V).
Proof.
  induction l as [|[d m] l IH] using rev_ind; intros Hv.
  - rewrite app_nil_r. by destruct V.
  - eapply view_perm; [|rewrite fmap_app, <- app_assoc; apply (Permutation_middle _ its (IMsg d m))].
    rewrite app_assoc. exact (view_msg_in G d m _ _ (IH Hv)).
Qed.

(** A node's operation returns, the group goes on, and no other is touched; [k] is how
    many groups it makes. *)
Definition goes_on {A} (a : A) (k : Z) (gh : ghost) (V : View) (n : Z) (rest : list (Z * msg)) (g : GroupManager)
    (run : res (A * GroupManager * list output)) : Prop :=
  exists g' os, run = Ok (a, g', os) /\ GI G N gh (canon G n g' (rest ++ sends n os) (ran n os) V) /\
    touches G g g' /\ next_group_id_ g' = next_group_id_ g + k /\ Forall (fun x => about G x.2) (sends n os).

Lemma goes_on_intro {A} (a : A) k gh V V' n rest g g' os :
  GI G N gh V' -> vnet V' ≡ₚ rest ++ sends n os ->
  (forall v, vremote V' v = if decide (v = n) then remote_group_info_ g' !! G else vremote V v) ->
  (forall v, vlocal V' v = if decide (v = n) then local_group_info_ g' !! G else vlocal V v) ->
  (forall v o, vcont V' v o = if decide (v = n) then contof G g' o else vcont V v o) ->
  vran V' = vran V ++ ran n os -> touches G g g' -> next_group_id_ g' = next_group_id_ g + k ->
  Forall (fun x => about G x.2) (sends n os) ->
  goes_on a k gh V n rest g (Ok (a, g', os)).
Proof.
  intros HG E1 E2 E3 E4 E5 Ht Hk Ha. exists g', os. split; [done|]. split; [|done].
  assert (canon G n g' (rest ++ sends n os) (ran n os) V ≡ V') as ->; [|done].
  split; simpl; intros; by rewrite ?E1, ?E2, ?E3, ?E4, ?E5.
Qed.

(** A set-up message is handled: the handler returns, and the group goes on. *)
Lemma GI_run_setup gh V n m g rest :
  GI G N gh V -> vnet V ≡ₚ (n, Setup m) :: rest -> at_node G n g V ->
  (forall v o, is_Some (vcont V v o) -> o <> no_op_id) ->
  exists p', weight p' < weight (g_prog gh) /\ goes_on tt 0 (with_prog p' gh) V n rest g (setupHandler m g).
Proof.
  intros HG Hn [A1 A2 Al A3 A4 A5] Hop. destruct (GI_setup G N gh V n m HG) as
    (par & op & l & r & -> & Hc & Hnd & Hrange & Hnone & Hreg & Hnext); [rewrite Hn; left|].
  rewrite Hnone in A2. pose proof (ca_group _ _ _ _ _ _ Hc) as HmG. specialize (Hop _ _ Hreg).
  destruct (decide (num_nodes_ m - 1 < min_spanning_tree_size)) as [Hsmall|Hbig].
  - destruct (setup_leaf G par op m l r g Hc A1 A2 Hop Hsmall) as (i & -> & Hi).
    destruct (step_leaf G par op m l r Hc) as (S1 & S2 & S3 & S4).
    set (V' := set_net (rest ++ [(par, Trigger G op)]) (set_remote (root_node_ m) (Some i) (set_net rest V))).
    destruct (Hnext _ V' S1 S2 S3) as (p' & HG' & Hwt); try done.
    { intros R HR. rewrite S4. apply (view_msg_out _ _ _ _ _ rest) in HR; [|done].
      eapply view_perm; [|apply Permutation_swap].
      apply (view_msg_in G par (Trigger G op) _ (set_remote (root_node_ m) (Some i) (set_net rest V))).
      apply view_node_new; done. }
    { by eapply weight_leaf. }
    exists p'. split; [done|]. apply (goes_on_intro _ _ _ _ V'); try done; simpl.
    + intros v. case_decide; subst; [by rewrite fn_lookup_insert, lookup_insert_eq|by rewrite fn_lookup_insert_ne].
    + intros v. case_decide; [by subst|done].
    + intros v o. case_decide; [|done]. subst v. by rewrite <- A3.
    + by rewrite app_nil_r.
    + apply touches_remote.
    + lia.
    + by constructor.
  - destruct (setup_inner G par op m l r g Hc A1 A2 Hnd) as (ps & ms & g1 & i & Hlen & Hcar & Hj & Hr & E & Hi); [lia..|done|].
    rewrite A1 in Hcar.
    destruct (step_inner G par op m l r (cur_id_ g) ps ms Hc Hcar Hj) as (S1 & S2 & S3 & S4); [lia|].
    rewrite Hlen in S4. set (n := root_node_ m) in *. set (out := (fun m => (root_node_ m, Setup m)) <$> ms).
    assert (sends n ((fun c => SendSetup (root_node_ c) c) <$> ms) = out) as Hout.
    { unfold out. clear. induction ms as [|x ms IH]; [done|]. rewrite !fmap_cons, <- IH. done. }
    assert (ran n ((fun c => SendSetup (root_node_ c) c) <$> ms) = []) as Hran by (clear; by induction ms).
    rewrite E. set (g' := with_remote _ g1). set (V' := canon G n g' (rest ++ out) [] V).
    assert (forall o, contof G g' o = if decide (cur_id_ g <= o < cur_id_ g + 2)
      then Some (ParentCont par G op) else vcont V n o) as Hcont.
    { intros o. rewrite <- A3. by apply (contof_registered G _ 2 g g1). }
    assert (local_group_info_ g' = local_group_info_ g) as Hloc by apply Hr.
    assert (forall R, view_ok G (IMsg n (Setup m) :: R) V ->
      view_ok G (items G par op (Started n (root_node_ <$> ms) Waiting (kids_of (cur_id_ g) ps ms)) ++ R) V') as Hafter.
    { intros R HR. apply (view_msg_out _ _ _ _ _ rest) in HR; [|done].
      apply (view_msgs_in out) in HR. cbn [vnet set_net] in HR.
      destruct (view_conts_in n par op (cur_id_ g) 2 _ _ HR) as (V1 & HV1 & E1 & E2 & E3 & E4 & E5).
      { intros o Ho. cbn. rewrite <- A3. unfold contof. by rewrite A5 by lia. }
      assert (V' ≡ set_remote n (Some i) V1) as ->.
      { split; cbn [set_remote vnet vlocal vcont vran]; rewrite ?E1, ?E3, ?E4; [done|intros v|intros v|intros v o|].
        + rewrite set_remote_lookup, E2. cbn. case_decide; [by rewrite lookup_insert_eq|done].
        + cbn. case_decide; [|done]. subst v. by rewrite <- Al, <- Hloc.
        + rewrite E5. unfold V'. cbn [canon vcont]. change (Z.of_nat 2) with 2. cbn [set_net vcont].
          destruct (decide (v = n)) as [->|]; [|by rewrite decide_False by tauto].
          rewrite Hcont. repeat case_decide; done || tauto.
        + cbn. by rewrite app_nil_r. }
      rewrite S4. eapply view_perm; [eapply (view_node_new G n _ (Z.of_nat 2)); [exact HV1|by rewrite E2|exact Hi]|].
      unfold out. rewrite <- list_fmap_compose. cbn [app]. apply perm_skip.
      rewrite <- app_assoc, !app_assoc. apply Permutation_app_tail. apply Permutation_app_comm. }
    destruct (Hnext _ V' S1 S2 S3 Hafter) as (p' & HG' & Hwt).
    { intros v o a. unfold V'. cbn. destruct (decide (v = n)) as [->|]; [|done].
      rewrite Hcont. case_decide; [|done]. rewrite <- A3. unfold contof. by rewrite A5 by lia. }
    { intros v. cbn. case_decide; [|done]. subst v. by rewrite <- Al, <- Hloc. }
    { cbn. by rewrite app_nil_r. }
    { by eapply weight_inner. }
    exists p'. split; [done|]. apply (goes_on_intro _ _ _ _ V'); try done; rewrite ?Hout, ?Hran; try done.
    + apply (touches_setup_inner G (ParentCont par G op) 2); done || lia.
    + cbn. rewrite (re_next _ _ _ _ Hr). lia.
    + apply Forall_forall. intros [d m'] (x & [= -> ->] & Hx)%list_elem_of_fmap. revert Hcar Hx. clear. revert ps. generalize (cur_id_ g).
      induction ms as [|y ms IH]; intros o ps Hcar Hx; [by apply elem_of_nil in Hx|].
      destruct ps as [|p ps]; [done|]. destruct Hcar as [[r Hc] Hcs]. apply elem_of_cons in Hx as [->|Hx]; [apply Hc|eauto].
Qed.

(** What [counted] does to the view. *)
Lemma touches_counted n par op' o i g V :
  at_node G n g V -> vcont V n o = Some (ParentCont par G op') ->
  touches G g (counted G o i g) /\
  forall v x, vcont (set_cont n o None V) v x = if decide (v = n) then contof G (counted G o i g) x else vcont V v x.
Proof.
  intros [A1 A2 Al A3 A4 A5] Hc. rewrite <- A3 in Hc. apply contof_Some in Hc as [Hc Hg]. split.
  - eapply touches_trans; [apply (touches_remote G (with_wait (wait_count_ i - 1) i))|].
    by apply touches_delete with (o := o) (a := ParentCont par G op').
  - intros v x. rewrite set_cont_lookup.
    change (contof G (counted G o i g) x) with (contof G (with_conts (delete o (continuation_actions_ g)) g) x).
    rewrite contof_delete, A3. repeat case_decide; subst; try done; naive_solver.
Qed.

(** An answer is handled. *)
Lemma GI_run_trigger gh V n o g rest :
  GI G N gh V -> vnet V ≡ₚ (n, Trigger G o) :: rest -> at_node G n g V -> N <= 2 ^ 15 ->
  (forall v o, is_Some (vcont V v o) -> o <> no_op_id) ->
  exists p', weight p' < weight (g_prog gh) /\ goes_on tt 0 (with_prog p' gh) V n rest g (groupTriggerHandler o g).
Proof.
  intros HG Hn Ha HN Hop. pose proof Ha as [A1 A2 Al A3 A4 A5].
  destruct (GI_trigger G N gh V n o rest HG Hn) as [(p' & -> & -> & Hf & HG' & Hwt)|
    (par & op' & i & ch & w & p' & Hwt & Hd & Hc & Hr & Hi & Hw & Hpar & Hreg & Hcases)].
  - specialize (Hop _ _ (mk_is_Some _ _ Hf)). rewrite <- A3 in Hf. apply contof_Some in Hf as [Hf _].
    rewrite (trigger_finished _ _ _ _ Hop Hf). exists p'. split; [done|].
    apply (goes_on_intro _ _ _ _ _ _ _ _ _ _ HG'); try done; simpl.
    + by rewrite app_nil_r.
    + intros v. case_decide; [by subst|done].
    + intros v. case_decide; [by subst|done].
    + intros v x. pose proof (set_cont_lookup (g_root gh) (g_op gh) None V v x) as E. simpl in E. rewrite E, contof_delete, A3.
      repeat case_decide; subst; try done; naive_solver.
    + by apply touches_delete with (o := g_op gh) (a := Finished (g_act gh) G).
    + lia.
  - pose proof (Hop _ _ (mk_is_Some _ _ Hc)) as Ho. pose proof (Hop _ _ Hreg) as Ho'.
    destruct (touches_counted n par op' o i g V Ha Hc) as [Ht Hcont]. pose proof Hc as Hcg.
    rewrite <- A3 in Hcg. apply contof_Some in Hcg as [Hcg _]. rewrite <- A2 in Hr.
    pose proof (ia_wait _ _ _ Hi) as Hwait.
    assert (par <> uninitialized_destination) as Hpu by (change uninitialized_destination with (-1); lia).
    assert (forall v, vremote (set_remote n (Some (with_wait (w - 1) i)) V) v
      = if decide (v = n) then remote_group_info_ (counted G o i g) !! G else vremote V v) as Hrem.
    { intros v. rewrite set_remote_lookup. case_decide; [|done]. cbn. by rewrite lookup_insert_eq, Hwait. }
    exists p'. split; [done|]. cbv zeta in Hcases. destruct Hcases as [[Hw1 HG']|[(Hw1 & Hne & HG')|(Hw1 & -> & Hne & Hf & HG')]].
    + rewrite (trigger_waits G o par op' i g Ho Hcg Hr) by lia.
      apply (goes_on_intro _ _ _ _ _ _ _ _ _ _ HG'); try done; simpl.
      * by rewrite app_nil_r.
      * intros v. case_decide; [by subst|done].
      * by rewrite app_nil_r.
      * lia.
    + rewrite (trigger_last G o par op' i g Ho Hcg Hr) by (done || lia || congruence).
      apply (goes_on_intro _ _ _ _ _ _ _ _ _ _ HG'); try done; simpl.
      * intros v. case_decide; [by subst|done].
      * by rewrite app_nil_r.
      * lia.
      * by constructor.
    + rewrite <- A3 in Hf. apply contof_Some in Hf as [Hf _].
      assert (this_node g <> uninitialized_destination) by congruence.
      rewrite (trigger_last_here G o n op' i g Ho Hcg Hr (g_act gh)) by (done || lia || congruence).
      assert (with_conts (delete o (delete op' (continuation_actions_ g)))
        (with_remote (<[G:=with_wait 0 i]> (remote_group_info_ g)) g)
        = with_conts (delete op' (continuation_actions_ (counted G o i g))) (counted G o i g)) as ->.
      { unfold counted. cbn. rewrite delete_delete, Hwait, Hw1. done. }
      apply (goes_on_intro _ _ _ _ _ _ _ _ _ _ HG'); try done; simpl.
      * by rewrite app_nil_r.
      * intros v. case_decide; [by subst|done].
      * intros v x. pose proof (set_cont_lookup n op' None (set_cont n o None V) v x) as E. cbn [vcont set_cont] in E.
        change (delete o (continuation_actions_ g)) with (continuation_actions_ (counted G o i g)).
        rewrite E, contof_delete. specialize (Hcont v x). cbn [vcont set_cont] in Hcont. rewrite Hcont.
        repeat case_decide; subst; try done; naive_solver.
      * eapply touches_trans; [exact Ht|]. apply touches_delete with (o := op') (a := Finished (g_act gh) G); [|done].
        cbn. by rewrite lookup_delete_ne by done.
      * lia.
Qed.

(** *** A group is created *)

Lemma GI_pending n m o l r a loc region V :
  carries m G n o l r -> l ≡ₚ members region -> NoDup l -> (forall x, x ∈ l -> 0 <= x < N) -> 0 <= n < N ->
  vnet V ≡ₚ [(root_node_ m, Setup m)] -> (forall v, vremote V v = None) ->
  (forall v x, vcont V v x = if decide (v = n /\ x = o) then Some (Finished a G) else None) ->
  (forall v, vlocal V v = if decide (v = n) then Some loc else None) ->
  forwards (root_node_ m) loc -> vran V = [] ->
  GI G N (MkGhost n o a (Pending m l) region) V.
Proof.
  intros Hc Hp Hnd Hin Hn Hnet Hrem Hcont Hloc Hf Hran. assert (NoDup (members region)) by (by rewrite <- Hp).
  assert (forall x, x ∈ members region -> 0 <= x < N) by (intros x; rewrite <- Hp; apply Hin).
  split; try done; simpl.
  - left. by econstructor.
  - split; try done; simpl.
    + by constructor.
    + intros v i. by rewrite Hrem.
    + by intros v ch w ?%list_elem_of_singleton.
    + constructor.
    + intros v x q y. rewrite Hcont. case_decide; split; try done; by intros ?%list_elem_of_singleton.
  - intros v x b. rewrite Hcont. case_decide; naive_solver.
  - intros v i. rewrite Hloc. case_decide; [|done]. by intros [= <-].
  - rewrite Hloc, decide_True by done. by eexists.
Qed.

Lemma GI_here n l a loc i region V :
  l ≡ₚ members region -> (contains_ok region -> n ∈ l) -> NoDup l -> (forall x, x ∈ l -> 0 <= x < N) -> 0 <= n < N -> vnet V = [] ->
  (forall v, vremote V v = if decide (v = n) then Some i else None) -> info_at i l 0 ->
  (forall v x, vcont V v x = None) ->
  (forall v, vlocal V v = if decide (v = n) then Some loc else None) ->
  forwards n loc -> vran V = [(n, (a, G))] ->
  GI G N (MkGhost n 0 a (Here n l) region) V.
Proof.
  intros Hp Hmem Hnd Hin Hn Hnet Hrem Hi Hcont Hloc Hf Hran. assert (NoDup (members region)) by (by rewrite <- Hp).
  assert (forall x, x ∈ members region -> 0 <= x < N) by (intros x; rewrite <- Hp; apply Hin).
  split; try done; simpl.
  - right. by exists l.
  - split; try done; simpl.
    + by rewrite Hnet.
    + apply NoDup_singleton.
    + intros v j. rewrite Hrem. case_decide; [|done]. intros [= <-]. subst. exists l, 0. split; [left|done].
    + intros v ch w [= -> -> ->]%list_elem_of_singleton. rewrite Hrem, decide_True by done. by eexists.
    + constructor.
    + intros v x q y. rewrite Hcont. split; [done|]. by intros ?%list_elem_of_singleton.
  - intros v x b. rewrite Hcont. naive_solver.
  - intros v j. rewrite Hloc. case_decide; [|done]. by intros [= <-].
  - rewrite Hloc, decide_True by done. by eexists.
Qed.

(** Nothing is known of [G] yet. *)
Record fresh (V : View) : Prop := {
  fr_net : vnet V = [];
  fr_remote v : vremote V v = None;
  fr_local v : vlocal V v = None;
  fr_cont v o : vcont V v o = None;
  fr_ran : vran V = []
}.

Lemma touches_created g g1 a loc :
  0 <= cur_id_ g -> continuation_actions_ g !! cur_id_ g = None ->
  this_node g1 = this_node g -> cur_id_ g1 = cur_id_ g + 1 ->
  continuation_actions_ g1 = <[cur_id_ g := [Finished a G]]> (continuation_actions_ g) ->
  local_group_info_ g1 = <[G := loc]> (local_group_info_ g) ->
  remote_group_info_ g1 = remote_group_info_ g -> next_group_id_ g1 = next_group_id_ g + 1 ->
  touches G g g1 /\ forall o, contof G g1 o = if decide (o = cur_id_ g) then Some (Finished a G) else contof G g o.
Proof.
  intros H0 Hf E1 E2 E3 E4 E5 E6. split.
  - split; rewrite ?E1, ?E2, ?E4, ?E5, ?E6; try done; try lia.
    + intros G' H. by rewrite lookup_insert_ne.
    + intros G' o H. unfold contof. rewrite E3. destruct (decide (o = cur_id_ g)) as [->|].
      * rewrite lookup_insert_eq, Hf, decide_False by (cbn; congruence). done.
      * by rewrite lookup_insert_ne.
    + intros o l. rewrite E3. intros [[<- <-]|[_ H]]%lookup_insert_Some; [|by left].
      right. eexists. split_and!; done || lia.
  - intros o. unfold contof. rewrite E3. case_decide; subst.
    + by rewrite lookup_insert_eq, decide_True.
    + by rewrite lookup_insert_ne.
Qed.

Lemma GI_run_new V n g region st a :
  fresh V -> at_node G n g V -> cur_id_ g < 2 ^ 40 -> 0 <= n < N -> new_region region -> (forall x, x ∈ members region -> 0 <= x < N) ->
  0 <= next_group_id_ g < 2 ^ 32 - 1 -> G = GroupIDBuilder.createGroupID (next_group_id_ g) n false st ->
  exists gh, g_root gh = n /\ g_act gh = a /\ g_region gh = region /\
    goes_on G 1 gh V n [] g (newLocalGroup region st a g).
Proof.
  intros [F1 F2 F3 F4 F5] [A1 A2 Al A3 A4 A5] Hcb Hn Hnew Hin Hid HG.
  pose proof (newLocalGroup_ok region st a g Hnew Hid) as Hok. cbv zeta in Hok. rewrite A1, <- HG in Hok.
  rewrite A2, Al in Hok. specialize (Hok (F3 n) (F2 n) ltac:(lia) (A5 (cur_id_ g) ltac:(lia))).
  destruct Hok as [l loc i g' Hp Hmem Hfw Hi E1 E2 E3 E4 E5 E6 ->|l low m r loc g1 Hp Hcar Hroot Hfw E1 E2 E3 E4 E5 E6 ->].
  - exists (MkGhost n 0 a (Here n l) region). split_and!; try done.
    eexists g', _. split; [done|]. rewrite A1 in Hmem, Hfw. split_and!.
    + apply (GI_here n l a loc i region); try done; simpl.
      * rewrite Hp. apply Hnew.
      * intros x. rewrite Hp. apply Hin.
      * intros v. rewrite E5, lookup_insert_eq, F2. done.
      * intros v x. rewrite F4. unfold contof. rewrite E3. fold (contof G g x). rewrite A3, F4. by case_decide.
      * intros v. rewrite E4, lookup_insert_eq, F3. done.
      * by rewrite F5.
    + pose proof (touches_remote G i g) as [T1 T2 T3 T4 T5 T6 T7 T8]. cbn in *.
      split; rewrite ?E1, ?E2, ?E3, ?E5, ?E6; try done; try lia.
      * intros G' H. by rewrite E4, lookup_insert_ne.
      * intros G' o H. unfold contof. by rewrite E3.
    + lia.
    + by constructor.
  - rewrite A1 in *. destruct (touches_created g g1 a loc) as [Ht Hcont]; try done; [lia|apply A5; lia|congruence|].
    set (gh := MkGhost n (cur_id_ g) a (Pending m l) region).
    assert (GI G N gh (canon G n g1 [(low, Setup m)] [] V)) as HGI.
    { apply (GI_pending n m (cur_id_ g) l r a loc region); try done; simpl.
      - rewrite Hp. apply Hnew.
      - intros x. rewrite Hp. apply Hin.
      - by rewrite Hroot.
      - intros v. rewrite E5, A2, !F2. by case_decide.
      - intros v x. rewrite Hcont, A3, !F4. repeat case_decide; naive_solver.
      - intros v. rewrite E4, lookup_insert_eq, F3. done.
      - by rewrite Hroot.
      - by rewrite F5. }
    case_decide as El; subst low.
    + destruct (GI_run_setup gh (canon G n g1 [(n, Setup m)] [] V) n m g1 []) as (p' & _ & g' & os & E & HG' & Ht' & Hk & Hab).
      * congruence.
      * done.
      * split; simpl; rewrite ?decide_True by done; try done; try lia.
        { intros o. by rewrite decide_True. }
        intros o Ho. rewrite E3, lookup_insert_ne by lia. apply A5. lia.
      * simpl. intros v o. rewrite Hcont, A3, !F4. change no_op_id with (2 ^ 64 - 1). repeat case_decide; [lia|..]; by intros [? ?].
      * exists (with_prog p' gh). split_and!; try done. rewrite E. exists g', os. split_and!; try done.
        -- by rewrite canon_canon in HG'.
        -- by eapply touches_trans.
        -- lia.
    + exists gh. split_and!; try done. exists g1, [SendSetup (root_node_ m) m]. split_and!; try done.
      constructor; [|done]. apply Hcar.
Qed.

End group.
End GroupReach.
