(* ===== verification/GroupRun.v ===== *)
(** * Rooted groups: every run keeps the invariant

    [Inv] says of a state of [GroupSystem.v] that each group is as a tree in progress
    ([GroupInvariant.v]) and that nothing is known of other groups; every valid event
    keeps it and returns, so that no assertion of the group manager fails in any run. *)

From S2P Require Import Prelude.
From S2P Require Import Sums.
From S2P Require Import Effects.
From S2P Require Import Ids.
From S2P Require Import Tree.
From S2P Require Import Region.
From S2P Require Import Group.
From S2P Require Import GroupSystem.
From S2P Require Import GroupProgress.
From S2P Require Import GroupInvariant.
From S2P Require Import GroupReach.

Module GroupRun.
Import Region RegionSpec Group GroupFacts GroupSystem GroupProgress GroupInvariant GroupReach.

#[export] Instance about_dec G m : Decision (about G m).
Proof. destruct m; simpl; apply _. Defined.

(** What the system holds about [G]. *)
Definition msgs_of (G : Z) (l : list (Z * msg)) : list (Z * msg) := filter (fun x => about G x.2) l.
Definition runs_of (G : Z) (l : list (Z * (Z * Z))) : list (Z * (Z * Z)) := filter (fun x => x.2.2 = G) l.
Definition view (G : Z) (s : Sys) : View :=
  MkView (msgs_of G (net s)) (fun v => remote_group_info_ (nodes s v) !! G)
    (fun v => local_group_info_ (nodes s v) !! G) (fun v => contof G (nodes s v)) (runs_of G (actions s)).

(** Where copies of [b] are under way to, and where it has been delivered. *)
Definition dest_of (b : BcastMsg) (x : Z * msg) : option Z :=
  match x.2 with Bytes _ b' => if decide (b' = b) then Some x.1 else None | _ => None end.
Definition dests (b : BcastMsg) (l : list (Z * msg)) : list Z := omap (dest_of b) l.
Definition got (b : BcastMsg) (l : list (Z * BcastMsg)) : list Z :=
  omap (fun x => if decide (x.2 = b) then Some x.1 else None) l.

Definition same_bytes (b : BcastMsg) (s s' : Sys) : Prop :=
  dests b (net s') ≡ₚ dests b (net s) /\ got b (delivered s') = got b (delivered s).

(** The event sends, or delivers, [b]. *)
Definition concerns (b : BcastMsg) (s : Sys) (e : event) : Prop :=
  match e with
  | New _ _ _ _ => False
  | Broadcast n G id => MkBcast G n id = b
  | Deliver k => exists d from, net s !! k = Some (d, Bytes from b)
  end.

Lemma dests_app b l1 l2 : dests b (l1 ++ l2) = dests b l1 ++ dests b l2.
Proof. apply omap_app. Qed.

Lemma dests_about b G l : Forall (fun x : Z * msg => about G x.2) l -> dests b l = [].
Proof. induction 1 as [|[d m] l Hx _ IH]; [done|]. unfold dests in *. cbn. destruct m; done. Qed.

Lemma dests_bytes b n l : dests b ((fun d => (d, Bytes n b)) <$> l) = l.
Proof. induction l as [|d l IH]; [done|]. rewrite fmap_cons. unfold dests in *. cbn. rewrite decide_True by done. by rewrite IH. Qed.

Lemma dests_other b b' n l : b' <> b -> dests b ((fun d => (d, Bytes n b')) <$> l) = [].
Proof. intros H. induction l as [|d l IH]; [done|]. rewrite fmap_cons. unfold dests in *. cbn. rewrite decide_False by done. done. Qed.

Section system.
Context (N : Z).

Record Inv (P : gmap Z ghost) (s : Sys) : Prop := {
  in_node n : this_node (nodes s n) = n;
  in_group G gh : P !! G = Some gh -> GI G N gh (view G s);
  in_fresh G : P !! G = None -> fresh (view G s);
  in_id G gh : P !! G = Some gh -> exists id st, G = GroupIDBuilder.createGroupID id (g_root gh) false st /\
    0 <= id < next_group_id_ (nodes s (g_root gh));
  in_next n : 0 <= next_group_id_ (nodes s n) <= Z.of_nat (length (created s));
  in_cur n : 0 <= cur_id_ (nodes s n)
    <= next_group_id_ (nodes s n) + 2 * Z.of_nat (size (remote_group_info_ (nodes s n)));
  in_cont n o l : continuation_actions_ (nodes s n) !! o = Some l ->
    exists a, l = [a] /\ is_Some (P !! group_of a) /\ 0 <= o < cur_id_ (nodes s n);
  in_known G : is_Some (P !! G) <-> G ∈ created s;
  in_size : size P = length (created s);
  in_bytes d from b : (d, Bytes from b) ∈ net s -> 0 <= d < N /\ 0 <= from /\ b_group b ∈ created s
}.

Lemma Inv_size P s n : Inv P s -> (size (remote_group_info_ (nodes s n)) <= length (created s))%nat.
Proof.
  intros HI. rewrite <- (in_size _ _ HI), <- !size_dom. apply subseteq_size. intros G [i Hi]%elem_of_dom.
  apply elem_of_dom. destruct (P !! G) eqn:E; [by eexists|].
  pose proof (fr_remote _ (in_fresh _ _ HI G E) n) as Hr. simpl in Hr. congruence.
Qed.

(** [length created < 2 ^ 31] keeps all counters within their types. *)
Lemma Inv_cur P s n : Inv P s -> Z.of_nat (length (created s)) < 2 ^ 31 -> 0 <= cur_id_ (nodes s n) < 2 ^ 40.
Proof. intros HI Hl. pose proof (Inv_size P s n HI). pose proof (in_cur _ _ HI n). pose proof (in_next _ _ HI n). lia. Qed.

Lemma Inv_at P s G n : Inv P s -> Z.of_nat (length (created s)) < 2 ^ 31 -> at_node G n (nodes s n) (view G s).
Proof.
  intros HI Hl. pose proof (Inv_cur P s n HI Hl). split; try done; [apply HI|lia|]. intros o Ho.
  destruct (_ !! o) eqn:E; [|done]. destruct (in_cont _ _ HI _ _ _ E) as (? & _ & _ & ?). lia.
Qed.

Lemma Inv_ops P s G v o : Inv P s -> Z.of_nat (length (created s)) < 2 ^ 31 ->
  is_Some (vcont (view G s) v o) -> o <> no_op_id.
Proof.
  intros HI Hl [a Ha]. simpl in Ha. apply contof_Some in Ha as [Ha _].
  destruct (in_cont _ _ HI _ _ _ Ha) as (? & _ & _ & ?). pose proof (Inv_cur P s v HI Hl).
  change no_op_id with (2 ^ 64 - 1). lia.
Qed.

(** [l'] is [l] but for messages about [G]. *)
Lemma msgs_of_app G l1 l2 : msgs_of G (l1 ++ l2) = msgs_of G l1 ++ msgs_of G l2.
Proof. apply filter_app. Qed.
Lemma runs_of_app G l1 l2 : runs_of G (l1 ++ l2) = runs_of G l1 ++ runs_of G l2.
Proof. apply filter_app. Qed.

Lemma msgs_of_all G l : Forall (fun x : Z * msg => about G x.2) l -> msgs_of G l = l.
Proof. induction 1 as [|x l Hx _ IH]; [done|]. unfold msgs_of in *. by rewrite filter_cons_True, IH. Qed.

Lemma msgs_of_other G G' l : Forall (fun x : Z * msg => about G x.2) l -> G' <> G -> msgs_of G' l = [].
Proof.
  induction 1 as [|[d m] l Hx _ IH]; intros Hne; [done|]. unfold msgs_of in *. rewrite filter_cons_False, IH; [done..|].
  simpl in *. destruct m; simpl in *; congruence.
Qed.

(** An operation of one node on behalf of [G], in a system with the history [cr] of
    groups made. *)
Lemma Inv_goes_on {A} P s rest cr G gh n (a : A) k run :
  Inv P s -> 0 <= n < N ->
  (forall G', G' <> G -> msgs_of G' rest ≡ₚ msgs_of G' (net s)) ->
  (forall d from b, (d, Bytes from b) ∈ rest -> (d, Bytes from b) ∈ net s) ->
  (cr = created s /\ k = 0 /\ (exists gh0, P !! G = Some gh0 /\ g_root gh0 = g_root gh) \/
   cr = G :: created s /\ k = 1 /\ P !! G = None /\ g_root gh = n /\
     exists st, G = GroupIDBuilder.createGroupID (next_group_id_ (nodes s n)) n false st) ->
  goes_on N G a k gh (view G s) n (msgs_of G rest) (nodes s n) run ->
  exists g' os, run = Ok (a, g', os) /\
    Inv (<[G := gh]> P) (MkSys (<[n := g']> (nodes s)) (rest ++ sends n os) cr (actions s ++ ran n os) (delivered s)) /\
    Forall (fun x => about G x.2) (sends n os).
Proof.
  intros HI Hn Hrest Hbytes Hcr (g' & os & E & HG & [T1 T2 T3 T4 T5 T6 T7 T8] & Hk & Hab).
  exists g', os. split; [done|]. split; [|done]. set (s' := MkSys _ _ _ _ _).
  assert (forall v, nodes s' v = if decide (v = n) then g' else nodes s v) as Hnode.
  { intros v. simpl. case_decide; subst; [by rewrite fn_lookup_insert|by rewrite fn_lookup_insert_ne]. }
  assert (Forall (fun x : Z * (Z * Z) => x.2.2 = G) (ran n os)) as Hran.
  { pose proof (gi_ran _ _ _ _ HG) as Hr. simpl in Hr. apply Forall_forall. intros x Hx.
    assert (x ∈ (if closed (g_prog gh) then [(g_root gh, (g_act gh, G))] else [])) as Hx'.
    { rewrite <- Hr. apply elem_of_app. by right. }
    destruct (closed _); [|by apply elem_of_nil in Hx']. by apply list_elem_of_singleton in Hx' as ->. }
  assert (view G s' ≡ canon G n g' (msgs_of G rest ++ sends n os) (ran n os) (view G s)) as Hv.
  { split; simpl.
    - by rewrite msgs_of_app, (msgs_of_all G (sends n os)).
    - intros v. fold (nodes s' v). simpl. case_decide; subst; [by rewrite fn_lookup_insert|by rewrite fn_lookup_insert_ne].
    - intros v. simpl. case_decide; subst; [by rewrite fn_lookup_insert|by rewrite fn_lookup_insert_ne].
    - intros v o. simpl. case_decide; subst; [by rewrite fn_lookup_insert|by rewrite fn_lookup_insert_ne].
    - rewrite runs_of_app. f_equal. clear -Hran. induction Hran as [|x l Hx _ IH]; [done|].
      unfold runs_of in *. by rewrite filter_cons_True, IH. }
  assert (forall G', G' <> G -> view G' s' ≡ view G' s) as Hv'.
  { intros G' Hne. split; simpl.
    - rewrite msgs_of_app, (msgs_of_other G G' (sends n os)), app_nil_r by done. by apply Hrest.
    - intros v. destruct (decide (v = n)) as [->|]; [rewrite fn_lookup_insert; auto|by rewrite fn_lookup_insert_ne].
    - intros v. destruct (decide (v = n)) as [->|]; [rewrite fn_lookup_insert; auto|by rewrite fn_lookup_insert_ne].
    - intros v o. destruct (decide (v = n)) as [->|]; [rewrite fn_lookup_insert; auto|by rewrite fn_lookup_insert_ne].
    - rewrite runs_of_app. assert (runs_of G' (ran n os) = []) as ->; [|by rewrite app_nil_r].
      clear -Hran Hne. induction Hran as [|x l Hx _ IH]; [done|].
      unfold runs_of in *. rewrite filter_cons_False; [done|congruence]. }
  assert (forall v, next_group_id_ (nodes s' v) = next_group_id_ (nodes s v) + if decide (v = n) then k else 0) as Hnext.
  { intros v. rewrite Hnode. case_decide; [subst; lia|lia]. }
  assert (0 <= k /\ Z.of_nat (length cr) = Z.of_nat (length (created s)) + k) as [Hk0 Hlen].
  { destruct Hcr as [(-> & -> & _)|(-> & -> & _)]; simpl; lia. }
  split.
  - intros v. rewrite Hnode. case_decide; [subst; rewrite T1|]; apply HI.
  - intros G' gh'. destruct (decide (G' = G)) as [->|Hne].
    + rewrite lookup_insert_eq. intros [= <-]. by rewrite Hv.
    + rewrite lookup_insert_ne by done. intros HG'. rewrite Hv' by done. by apply HI.
  - intros G'. destruct (decide (G' = G)) as [->|Hne]; [by rewrite lookup_insert_eq|].
    rewrite lookup_insert_ne by done. intros [F1 F2 F3 F4 F5]%(in_fresh _ _ HI).
    destruct (Hv' G' Hne) as [V1 V2 V3 V4 V5]. split; intros; rewrite ?V2, ?V3, ?V4, ?V5; try done.
    apply Permutation_nil_r. by rewrite V1, F1.
  - intros G' gh'. rewrite Hnext. destruct (decide (G' = G)) as [->|Hne].
    + rewrite lookup_insert_eq. intros [= <-]. destruct Hcr as [(-> & -> & gh0 & H0 & <-)|(-> & -> & _ & -> & st & Hst)].
      * destruct (in_id _ _ HI G gh0 H0) as (id & st & -> & Hid). exists id, st. split; [done|]. case_decide; lia.
      * exists (next_group_id_ (nodes s n)), st. split; [done|]. rewrite decide_True by done.
        pose proof (in_next _ _ HI n). lia.
    + rewrite lookup_insert_ne by done. intros HG'. destruct (in_id _ _ HI _ _ HG') as (id & st & -> & Hid).
      exists id, st. split; [done|]. case_decide; lia.
  - intros v. rewrite Hnext. pose proof (in_next _ _ HI v). cbn [created s']. case_decide; lia.
  - intros v. rewrite Hnext. pose proof (in_cur _ _ HI v) as Hc. rewrite Hnode. case_decide; subst; lia.
  - intros v o l. rewrite !Hnode.
    assert (forall b, is_Some (P !! b) -> is_Some (<[G := gh]> P !! b)) as Hmono.
    { intros b. rewrite lookup_insert_is_Some'. tauto. }
    case_decide; subst; intros Ho.
    + destruct (T5 o l Ho) as [Ho'|(b & -> & Hb & Ho')].
      * destruct (in_cont _ _ HI _ _ _ Ho') as (b & -> & ? & ?). exists b. split_and!; auto; lia.
      * exists b. split_and!; [done| |lia..]. rewrite Hb, lookup_insert_eq. by eexists.
    + destruct (in_cont _ _ HI _ _ _ Ho) as (b & -> & ? & ?). exists b. split_and!; auto; lia.
  - intros G'. rewrite lookup_insert_is_Some', (in_known _ _ HI). cbn [created s'].
    destruct Hcr as [(-> & _ & gh0 & H0 & _)|(-> & _)].
    + assert (G ∈ created s) by (apply (in_known _ _ HI); by eexists). split; [intros [<-|?]|]; auto.
    + rewrite elem_of_cons. naive_solver.
  - rewrite map_size_insert, (in_size _ _ HI). cbn [created s'].
    destruct Hcr as [(-> & _ & gh0 & -> & _)|(-> & _ & -> & _)]; done.
  - intros d from b Hin. cbn [net s' created] in *. apply elem_of_app in Hin as [Hin|Hin].
    + destruct (in_bytes _ _ HI _ _ _ (Hbytes _ _ _ Hin)) as (? & ? & ?). split_and!; try done || lia.
      destruct Hcr as [(-> & _)|(-> & _)]; [done|by right].
    + rewrite Forall_forall in Hab. by apply Hab in Hin.
Qed.

(** *** Broadcasts *)

(** Whether node [n] delivers a broadcast, and where it sends it, when its children in
    the tree of the group are [ch]. *)
Definition bcast (gh : ghost) (ch : option (list Z)) (n : Z) (b : BcastMsg) (from : Z) (root : bool) : bool * list Z :=
  let first_send := from =? uninitialized_destination in
  if root && negb (g_root gh =? n) then (false, [g_root gh])
  else if (n =? g_root gh) && negb (phead (g_prog gh) =? n) then (false, [phead (g_prog gh)])
  else match ch with
  | Some ch =>
      if negb (b_dest b =? n) || first_send then
        (if root && first_send then true else if negb root && (b_dest b =? n) then false else true,
         base.filter (fun c => c <> n) ch)
      else (negb root, [])
  | None => (negb root, [])
  end.

Definition children (i : option Info) : option (list Z) :=
  i ← i; t ← default_spanning_tree_ i; Some (Tree.getChildren t).

Lemma emit_children (n : Z) (b : BcastMsg) (ch : list Z) (g : GroupManager) :
  for_each ch (fun child => if negb (child =? n) then emit (SendBytes child b) else nop) g
  = Ok (tt, g, (fun d => SendBytes d b) <$> base.filter (fun c => c <> n) ch).
Proof.
  induction ch as [|c ch IH]; [done|]. cbn [for_each].
  destruct (Z.eqb_spec c n) as [->|Hc]; cbn [negb].
  - rewrite filter_cons_False by (intros H; by destruct H). rewrite <- IH.
    unfold mbind, eff_bind, nop, mret, eff_ret. by destruct (for_each ch _ g) as [[[[] ?] ?]|].
  - rewrite filter_cons_True by done. rewrite run_emit, IH. done.
Qed.

Lemma groupHandler_run G gh g b from root n V :
  GI G N gh V -> at_node G n g V -> b_group b = G ->
  GroupIDBuilder.isCollective G = false -> GroupIDBuilder.getNode G = g_root gh ->
  let '(here, ds) := bcast gh (children (vremote V n)) n b from root in
  groupHandler b from root g = Ok (here, g, (fun d => SendBytes d b) <$> ds).
Proof.
  intros HG [A1 A2 Al A3 A4 A5] Hb Hcoll Hnode. unfold groupHandler, sendGroup, bcast.
  assert (sendGroupRemote b from root (negb root) g =
    let first_send := from =? uninitialized_destination in
    let '(here, ds) := match children (vremote V n) with
      | Some ch =>
          if negb (b_dest b =? n) || first_send then
            (if root && first_send then true else if negb root && (b_dest b =? n) then false else true,
             base.filter (fun c => c <> n) ch)
          else (negb root, [])
      | None => (negb root, [])
      end in Ok (here, g, (fun d => SendBytes d b) <$> ds)) as Hrem.
  { unfold sendGroupRemote, children. rewrite run_get, Hb, A1, A2.
    destruct (vremote V n) as [i|] eqn:Ei; [|done]. cbn [mbind option_bind].
    destruct (vk_remote _ _ _ (gi_view _ _ _ _ HG) n i Ei) as (ch & w & _ & Hi).
    rewrite (ia_tree _ _ _ Hi). cbv zeta. destruct (_ || _); [|done].
    rewrite run_assert by (by rewrite (ia_forward _ _ _ Hi)).
    rewrite (run_step _ _ _ _ _ _ (emit_children n b _ g)). unfold mret, eff_ret. by rewrite app_nil_r. }
  rewrite run_get, Hb, A1, Hnode, run_assert by (by rewrite Hcoll).
  destruct (root && negb (g_root gh =? n)) eqn:E1; [done|]. rewrite Al.
  destruct (vlocal V n) as [i|] eqn:Ei.
  - destruct (gi_local _ _ _ _ HG n i Ei) as [En [Hf1 Hf2]]. rewrite Hf2, <- En, Z.eqb_refl. cbn [andb].
    destruct (phead (g_prog gh) =? n); cbn [negb]; [|by rewrite run_assert].
    rewrite Hrem. cbv zeta. by destruct (match children (vremote V n) with Some _ => _ | None => _ end).
  - destruct (Z.eqb_spec n (g_root gh)) as [En|En].
    { destruct (gi_local' _ _ _ _ HG) as [j Hj]. congruence. }
    rewrite Hrem. cbv zeta. cbn [andb]. by destruct (match children (vremote V n) with Some _ => _ | None => _ end).
Qed.

(** Only messages broadcast have come or gone. *)
Lemma Inv_ext P s s' :
  Inv P s -> (forall v, nodes s' v = nodes s v) -> created s' = created s -> actions s' = actions s ->
  (forall G, msgs_of G (net s') ≡ₚ msgs_of G (net s)) ->
  (forall d from b, (d, Bytes from b) ∈ net s' -> 0 <= d < N /\ 0 <= from /\ b_group b ∈ created s) -> Inv P s'.
Proof.
  intros HI Hn Hc Ha Hm Hb.
  assert (forall G, view G s' ≡ view G s) as Hv.
  { intros G. split; simpl; intros; rewrite ?Hn, ?Ha; done. }
  split; intros *; rewrite ?Hn, ?Hc; try apply HI.
  - rewrite Hv. apply HI.
  - intros [F1 F2 F3 F4 F5]%(in_fresh _ _ HI). destruct (Hv G) as [V1 V2 V3 V4 V5].
    split; intros; rewrite ?V2, ?V3, ?V4, ?V5; try done. apply Permutation_nil_r. by rewrite V1, F1.
  - apply Hb.
Qed.

Definition valid (s : Sys) (e : event) : Prop :=
  match e with
  | New n region _ _ =>
      new_region region /\ (forall x, x ∈ members region -> 0 <= x < N) /\ Z.of_nat (length (created s)) + 1 < 2 ^ 31
  | Broadcast _ G _ => G ∈ created s
  | Deliver _ => True
  end.

(** The groups of [P] are groups of [P'], made by the same nodes from the same regions;
    those that are set up stay as they are. *)
Definition extends (P P' : gmap Z ghost) : Prop :=
  forall G gh, P !! G = Some gh -> exists gh', P' !! G = Some gh' /\
    g_root gh' = g_root gh /\ g_act gh' = g_act gh /\ g_region gh' = g_region gh /\
    (closed (g_prog gh) = true -> gh' = gh).

Lemma extends_refl P : extends P P.
Proof. intros G gh H. by exists gh. Qed.

Lemma extends_trans P1 P2 P3 : extends P1 P2 -> extends P2 P3 -> extends P1 P3.
Proof.
  intros H1 H2 G gh (g1 & E1 & A1 & A2 & A3 & A4)%H1. apply H2 in E1 as (g2 & E2 & B1 & B2 & B3 & B4).
  exists g2. split_and!; try congruence. intros Hc. specialize (A4 Hc). subst g1. auto.
Qed.

Lemma extends_insert P G gh :
  match P !! G with
  | Some gh0 => g_root gh = g_root gh0 /\ g_act gh = g_act gh0 /\ g_region gh = g_region gh0 /\
      closed (g_prog gh0) = false
  | None => True
  end -> extends P (<[G := gh]> P).
Proof.
  intros H G' gh' E. destruct (decide (G' = G)) as [->|].
  - rewrite E in H. exists gh. rewrite lookup_insert_eq. destruct H as (? & ? & ? & H). split_and!; try done.
    rewrite H. done.
  - exists gh'. by rewrite lookup_insert_ne.
Qed.

Lemma perform_ok {A} n (op : M A) s a g os :
  op (nodes s n) = Ok (a, g, os) ->
  perform n op s = Ok (a, MkSys (<[n := g]> (nodes s)) (net s ++ sends n os) (created s) (actions s ++ ran n os) (delivered s)).
Proof. intros H. unfold perform. by rewrite H. Qed.

Hypothesis HN : N <= 2 ^ 15.

Lemma Inv_dest P s d m : Inv P s -> (d, m) ∈ net s -> 0 <= d < N.
Proof.
  intros HI Hin. destruct m as [m|G o|from b]; [| |by apply (in_bytes _ _ HI) in Hin as (? & _)].
  - destruct (P !! m_group m) as [gh|] eqn:E.
    + destruct (GI_setup (m_group m) N gh (view (m_group m) s) d m) as (? & ? & ? & ? & _ & _ & _ & ? & _); [by apply HI| |done].
      apply list_elem_of_filter. done.
    + pose proof (fr_net _ (in_fresh _ _ HI _ E)) as Hf. simpl in Hf.
      assert ((d, Setup m) ∈ msgs_of (m_group m) (net s)) as Hx by (by apply list_elem_of_filter).
      rewrite Hf in Hx. by apply elem_of_nil in Hx.
  - assert ((d, Trigger G o) ∈ msgs_of G (net s)) as Hx by (by apply list_elem_of_filter).
    destruct (P !! G) as [gh|] eqn:E.
    + pose proof (in_group _ _ HI _ _ E) as HG. apply elem_of_Permutation in Hx as [rest Hx].
      destruct (GI_trigger G N gh (view G s) d o rest) as [(? & -> & _)|(? & ? & ? & ? & ? & ? & _ & ? & _)]; try done.
      apply HG.
    + pose proof (fr_net _ (in_fresh _ _ HI _ E)) as Hf. simpl in Hf. rewrite Hf in Hx. by apply elem_of_nil in Hx.
Qed.

(** What is left to do of the set-up of all groups. *)
Definition work (P : gmap Z ghost) : Z := msum (fun gh => weight (g_prog gh)) P.

Lemma work_insert P G gh :
  work (<[G := gh]> P) = work P - from_option (fun gh => weight (g_prog gh)) 0 (P !! G) + weight (g_prog gh).
Proof. exact (msum_insert (fun gh => weight (g_prog gh)) P G gh). Qed.

Lemma work_nonneg P : 0 <= work P.
Proof. apply lsum_nonneg. intros x _. apply weight_nonneg. Qed.

Lemma msgs_of_take G s k d m :
  net s !! k = Some (d, m) -> about G m -> msgs_of G (net s) ≡ₚ (d, m) :: msgs_of G (take_out k (net s)).
Proof. intros H Ha. unfold msgs_of. rewrite (take_out_perm k _ _ H) at 1. by rewrite filter_cons_True. Qed.

Lemma msgs_of_take_other G s k d m :
  net s !! k = Some (d, m) -> ~ about G m -> msgs_of G (net s) ≡ₚ msgs_of G (take_out k (net s)).
Proof. intros H Ha. unfold msgs_of. rewrite (take_out_perm k _ _ H) at 1. by rewrite filter_cons_False. Qed.

Lemma Inv_known_msg P s d m G : Inv P s -> (d, m) ∈ net s -> about G m -> exists gh, P !! G = Some gh.
Proof.
  intros HI Hin Ha. destruct (P !! G) as [gh|] eqn:E; [by exists gh|].
  pose proof (fr_net _ (in_fresh _ _ HI _ E)) as Hf. simpl in Hf.
  assert ((d, m) ∈ msgs_of G (net s)) as Hx by (by apply list_elem_of_filter).
  rewrite Hf in Hx. by apply elem_of_nil in Hx.
Qed.

(** A group with a message under way is not set up. *)
Lemma open_msg G gh V d m : GI G N gh V -> (d, m) ∈ vnet V -> closed (g_prog gh) = false.
Proof.
  intros HG Hin. destruct (closed (g_prog gh)) eqn:E; [|done].
  destruct (closed_items G _ _ _ _ (GI_msg_wf _ _ _ _ _ _ HG Hin) E (GI_msg _ _ _ _ _ _ HG Hin)) as (v & ch & ?). done.
Qed.

(** A set-up message or an answer is delivered. *)
Lemma Inv_setup P s k d G m (op : M unit) :
  Inv P s -> Z.of_nat (length (created s)) < 2 ^ 31 ->
  net s !! k = Some (d, m) -> about G m ->
  (forall gh, GI G N gh (view G s) -> vnet (view G s) ≡ₚ (d, m) :: msgs_of G (take_out k (net s)) ->
     exists p', weight p' < weight (g_prog gh) /\
       goes_on N G tt 0 (with_prog p' gh) (view G s) d (msgs_of G (take_out k (net s))) (nodes s d) (op (nodes s d))) ->
  exists s' P', snd <$> perform d op (with_net (take_out k (net s)) s) = Ok s' /\ Inv P' s' /\ extends P P' /\
    work P' < work P /\ created s' = created s /\ (forall b, same_bytes b s s').
Proof.
  intros HI Hl Hk Ha Hop. pose proof (list_elem_of_lookup_2 _ _ _ Hk) as Hin.
  pose proof (Inv_dest P s d m HI Hin) as Hd. destruct (Inv_known_msg P s d m G HI Hin Ha) as [gh HG].
  destruct (Hop gh) as (p' & Hw & Hgo); [by apply HI|by apply msgs_of_take|].
  destruct (Inv_goes_on P s (take_out k (net s)) (created s) G (with_prog p' gh) d tt 0 (op (nodes s d)) HI Hd)
    as (g' & os & E & HI' & Hab); try done.
  - intros G' Hne. symmetry. eapply msgs_of_take_other; [done|]. intros Ha'. destruct m; simpl in *; congruence.
  - intros d' from b Hx. rewrite (take_out_perm _ _ _ Hk). by right.
  - left. split_and!; [done|done|]. by exists gh.
  - eexists _, _. split; [by rewrite (perform_ok d op (with_net (take_out k (net s)) s) tt g' os E)|].
    split; [exact HI'|]. split_and!; [|rewrite work_insert, HG; simpl; lia|done|].
    2: { intros b. split; [|done].
         change (dests b (take_out k (net s) ++ sends d os) ≡ₚ dests b (net s)). rewrite dests_app, (dests_about b G (sends d os)), app_nil_r by done.
         unfold dests. rewrite (take_out_perm k _ _ Hk) at 2. cbn. by destruct m. }
    apply extends_insert. rewrite HG. split_and!; try done.
    pose proof (in_group _ _ HI _ _ HG) as HGI. apply (open_msg G gh (view G s) d m HGI).
    by apply list_elem_of_filter.
Qed.

(** The children of a node are nodes of the group. *)
Lemma children_nodes G par op p v ch w x :
  wf G par op p -> INode v ch w ∈ items G par op p -> x ∈ ch -> x ∈ nodesof p.
Proof.
  revert par op. induction p as [m l|h ch' st kids IH|h l] using prog_rec'; intros par op Hw Hin Hx; [| |by inversion Hw].
  { by apply list_elem_of_singleton in Hin. }
  apply elem_of_Started in Hin as [[= -> -> ->]|[[_ ?]|(k1 & o & k & k2 & -> & [[_ ?]|Hin])]]; try done.
  - inversion Hw as [|? ? ? ? ? Hst|? ? ? ? ? Hne Hst Hall]; subst; [simpl; by right|].
    rewrite nodesof_inner by done. right. apply list_elem_of_fmap in Hx as (k & -> & Hk).
    apply list_elem_of_In, in_flat_map. exists k. split; [by apply list_elem_of_In|]. apply list_elem_of_In.
    eapply phead_nodes. rewrite Forall_forall in Hall. by apply Hall.
  - inversion Hw as [|? ? ? ? ? ? Hk|? ? ? ? ? Hne Hst Hall]; subst; [by destruct k1|].
    apply Forall_middle in IH, Hall. rewrite nodesof_inner, flat_map_kids_nil by done. right.
    apply elem_of_app. right. apply elem_of_app. left. by apply (IH h o).
Qed.

Lemma children_range G gh V v ch x :
  GI G N gh V -> children (vremote V v) = Some ch -> x ∈ ch -> 0 <= x < N.
Proof.
  intros HG Hch Hx. unfold children in Hch. destruct (vremote V v) as [i|] eqn:Ei; [|done]. simpl in Hch.
  destruct (vk_remote _ _ _ (gi_view _ _ _ _ HG) v i Ei) as (ch' & w & Hin & Hi).
  rewrite (ia_tree _ _ _ Hi) in Hch. injection Hch as <-.
  apply (gi_in _ _ _ _ HG). rewrite <- (gi_nodes _ _ _ _ HG).
  destruct (gi_wf _ _ _ _ HG) as [Hw|(l & E & _)]; [by eapply children_nodes|].
  rewrite E in Hin |- *. apply list_elem_of_singleton in Hin as [= -> -> ->]. done.
Qed.

Lemma bcast_range G gh V n b from root here ds d :
  GI G N gh V -> bcast gh (children (vremote V n)) n b from root = (here, ds) -> d ∈ ds -> 0 <= d < N.
Proof.
  intros HG E Hd. pose proof (gi_root _ _ _ _ HG) as Hroot. unfold bcast in E.
  destruct (root && _); [injection E as _ <-; by apply list_elem_of_singleton in Hd as ->|].
  destruct ((n =? g_root gh) && _).
  { injection E as _ <-. apply list_elem_of_singleton in Hd as ->.
    destruct (gi_wf _ _ _ _ HG) as [Hw|(l & El & _)]; [|by rewrite El].
    apply (gi_in _ _ _ _ HG). rewrite <- (gi_nodes _ _ _ _ HG). by eapply phead_nodes. }
  destruct (children _) as [ch|] eqn:Ech; [|injection E as _ <-; by apply elem_of_nil in Hd].
  destruct (_ || _); [|injection E as _ <-; by apply elem_of_nil in Hd].
  injection E as _ <-. apply list_elem_of_filter in Hd as [_ Hd]. by eapply children_range.
Qed.

Lemma Inv_group P s G gh : Inv P s -> Z.of_nat (length (created s)) < 2 ^ 31 -> P !! G = Some gh ->
  GroupIDBuilder.isCollective G = false /\ GroupIDBuilder.getNode G = g_root gh.
Proof.
  intros HI Hl HG. destruct (in_id _ _ HI _ _ HG) as (id & st & -> & Hid).
  pose proof (in_next _ _ HI (g_root gh)) as Hnext.
  pose proof (gi_root _ _ _ _ (in_group _ _ HI _ _ HG)) as Hr.
  destruct (GroupIDBuilder.createGroupID_roundtrip id (g_root gh) false st) as (H1 & _ & _ & H2); [..|done].
  - unfold in_ty, tmin, tmax; simpl; lia.
  - unfold in_ty, tmin, tmax; simpl; lia.
Qed.

Lemma sends_bytes n b ds : sends n ((fun d => SendBytes d b) <$> ds) = (fun d => (d, Bytes n b)) <$> ds.
Proof. induction ds as [|d ds IH]; [done|]. rewrite !fmap_cons, <- IH. done. Qed.
Lemma ran_bytes n b ds : ran n ((fun d => SendBytes d b) <$> ds) = [].
Proof. by induction ds. Qed.

(** A broadcast is handled at [n]; [l] is what else is under way. *)
Lemma Inv_bcast P s l n b from root :
  Inv P s -> Z.of_nat (length (created s)) < 2 ^ 31 -> 0 <= n < N -> b_group b ∈ created s ->
  (forall G, msgs_of G l ≡ₚ msgs_of G (net s)) ->
  (forall d from b, (d, Bytes from b) ∈ l -> (d, Bytes from b) ∈ net s) ->
  exists gh here ds, P !! b_group b = Some gh /\
    bcast gh (children (remote_group_info_ (nodes s n) !! b_group b)) n b from root = (here, ds) /\
    perform n (groupHandler b from root) (with_net l s)
    = Ok (here, MkSys (<[n := nodes s n]> (nodes s)) (l ++ ((fun d => (d, Bytes n b)) <$> ds)) (created s)
                  (actions s) (delivered s)) /\
    (forall s', (forall v, nodes s' v = nodes s v) -> created s' = created s -> actions s' = actions s ->
       net s' = l ++ ((fun d => (d, Bytes n b)) <$> ds) -> Inv P s').
Proof.
  intros HI Hl Hn Hb Hm Hbytes. destruct (proj2 (in_known _ _ HI (b_group b)) Hb) as [gh HG].
  pose proof (in_group _ _ HI _ _ HG) as HGI. destruct (Inv_group P s _ gh HI Hl HG) as [Hcoll Hnode].
  pose proof (groupHandler_run (b_group b) gh (nodes s n) b from root n _ HGI (Inv_at P s _ n HI Hl) eq_refl Hcoll Hnode) as Hrun.
  cbn [view vremote] in Hrun. destruct (bcast _ _ _ _ _ _) as [here ds] eqn:Ebc.
  exists gh, here, ds. split_and!; [done|done| |].
  - rewrite (perform_ok n _ (with_net l s) here (nodes s n) _ Hrun). rewrite sends_bytes, ran_bytes.
    simpl. by rewrite app_nil_r.
  - intros s' Hns Hc Ha Hnet. apply (Inv_ext P s s' HI Hns Hc Ha).
    + intros G. rewrite Hnet, msgs_of_app. assert (msgs_of G ((fun d => (d, Bytes n b)) <$> ds) = []) as ->.
      { clear. induction ds as [|d ds IH]; [done|]. unfold msgs_of in *. rewrite fmap_cons, filter_cons_False; [done|]. by intros ?. }
      by rewrite app_nil_r.
    + intros d f b'. rewrite Hnet, elem_of_app. intros [Hin|Hin].
      * by eapply in_bytes, Hbytes.
      * apply list_elem_of_fmap in Hin as (x & [= -> -> ->] & Hx). split; [|split; [lia|done]].
        eapply bcast_range; [exact HGI| |exact Hx]. exact Ebc.
Qed.

(** The identifier of the next group is new. *)
Lemma Inv_next_id P s n st :
  Inv P s -> 0 <= n < N -> Z.of_nat (length (created s)) < 2 ^ 31 ->
  P !! GroupIDBuilder.createGroupID (next_group_id_ (nodes s n)) n false st = None.
Proof.
  intros HI Hn Hl. set (g := nodes s n). set (G := GroupIDBuilder.createGroupID (next_group_id_ g) n false st).
  pose proof (in_next _ _ HI n) as Hnext. fold g in Hnext.
  assert (in_ty NodeType n) as Hnt by (unfold in_ty, tmin, tmax; simpl; lia).
  destruct (P !! G) as [gh|] eqn:E; [|done]. exfalso.
  destruct (in_id _ _ HI _ _ E) as (id & st' & EG & Hid). pose proof (in_next _ _ HI (g_root gh)) as Hnext'.
  pose proof (gi_root _ _ _ _ (in_group _ _ HI _ _ E)) as Hr.
  destruct (GroupIDBuilder.createGroupID_roundtrip id (g_root gh) false st') as (_ & _ & E1 & E2);
    [unfold in_ty, tmin, tmax; simpl; lia..|].
  destruct (GroupIDBuilder.createGroupID_roundtrip (next_group_id_ g) n false st) as (_ & _ & E3 & E4);
    [unfold in_ty, tmin, tmax; simpl; lia|done|].
  fold G in E3, E4. rewrite EG in E3, E4. subst g. rewrite E4 in E2. rewrite E3 in E1. subst n. lia.
Qed.

(** A group is made. *)
Lemma Inv_new P s n region st a :
  Inv P s -> 0 <= n < N -> new_region region -> (forall x, x ∈ members region -> 0 <= x < N) ->
  Z.of_nat (length (created s)) < 2 ^ 31 ->
  exists G gh s', perform n (newLocalGroup region st a) s = Ok (G, s') /\ P !! G = None /\
    g_root gh = n /\ g_act gh = a /\ g_region gh = region /\
    Inv (<[G := gh]> P) (create G s') /\ created s' = created s /\ (forall b, same_bytes b s s').
Proof.
  intros HI Hn Hnew Hin Hl. set (g := nodes s n).
  set (G := GroupIDBuilder.createGroupID (next_group_id_ g) n false st).
  pose proof (in_next _ _ HI n) as Hnext. fold g in Hnext.
  pose proof (Inv_next_id P s n st HI Hn Hl) as HG. fold g G in HG.
  destruct (GI_run_new N G (view G s) n g region st a) as (gh & Hr & Ha & Hreg & Hgo); try done.
  - apply (in_fresh _ _ HI _ HG).
  - by apply (Inv_at P).
  - by apply (Inv_cur P s n).
  - lia.
  - assert (msgs_of G (net s) = []) as Em by (apply (fr_net _ (in_fresh _ _ HI _ HG))). rewrite <- Em in Hgo.
    destruct (Inv_goes_on P s (net s) (G :: created s) G gh n G 1 (newLocalGroup region st a g) HI Hn)
      as (g' & os & E & HI' & Hab); try done.
    { right. split_and!; try done. by exists st. }
    exists G, gh. eexists. split; [exact (perform_ok n _ s G g' os E)|]. split_and!; try done.
    intros b. split; [|done]. change (dests b (net s ++ sends n os) ≡ₚ dests b (net s)).
    by rewrite dests_app, (dests_about b G (sends n os)), app_nil_r by done.
Qed.

Lemma same_bytes_deliver b b' n d here ds s s0 g :
  b' <> b -> delivered s = delivered s0 -> dests b (net s) ≡ₚ dests b (net s0) ->
  same_bytes b s0 (deliver here d b' (MkSys g (net s ++ ((fun d => (d, Bytes n b')) <$> ds)) (created s) (actions s) (delivered s))).
Proof.
  intros Hne Hd Hn. split; cbn [net deliver].
  - by rewrite dests_app, dests_other, app_nil_r by done.
  - unfold deliver. rewrite Hd. destruct here; [|done]. cbn [delivered]. unfold got. rewrite omap_app. cbn. rewrite decide_False by done.
    apply app_nil_r.
Qed.

(** Every valid event returns, and keeps the invariant. *)
Lemma Inv_step P s e r :
  Inv P s -> Z.of_nat (length (created s)) < 2 ^ 31 -> valid s e -> exec1 N s e = Some r ->
  exists s' P', r = Ok s' /\ Inv P' s' /\ extends P P' /\
    (forall b, ~ concerns b s e -> same_bytes b s s') /\
    match e with
    | New n region _ a =>
        exists G gh, created s' = G :: created s /\ P' !! G = Some gh /\
          g_root gh = n /\ g_act gh = a /\ g_region gh = region /\
          work P' <= work P + 3 * Z.of_nat (length (members region))
    | Broadcast _ _ _ => P' = P /\ created s' = created s
    | Deliver k =>
        created s' = created s /\
        match net s !! k with Some (_, Bytes _ _) => P' = P | _ => work P' < work P end
    end.
Proof.
  intros HI Hl Hv E. destruct e as [n region st a|n G id|k]; cbn [exec1 valid] in *.
  - case_bool_decide as Hn; [|done]. injection E as <-. destruct Hv as (Hnew & Hin & _).
    destruct (Inv_new P s n region st a HI Hn Hnew Hin Hl) as (G & gh & s' & E & HG & Hr & Ha & Hreg & HI' & Hc & Hsb).
    eexists (create G s'), _. split; [by rewrite E|]. split; [exact HI'|]. split; [|split].
    + apply extends_insert. by rewrite HG.
    + intros b _. apply Hsb.
    + exists G, gh. split; [by cbn; rewrite Hc|]. rewrite lookup_insert_eq. split_and!; try done.
      pose proof (weight_bound (g_prog gh)) as Hb.
      assert (GI G N gh (view G (create G s'))) as HGI by (apply (in_group _ _ HI'), lookup_insert_eq).
      rewrite (gi_nodes _ _ _ _ HGI) in Hb. unfold g_mem in Hb. rewrite Hreg in Hb. rewrite work_insert, HG. simpl. lia.
  - case_bool_decide as Hn; [|done]. injection E as <-.
    destruct (Inv_bcast P s (net s) n (MkBcast G n id) uninitialized_destination true HI Hl Hn Hv)
      as (gh & here & ds & HG & Hb & E & HI'); try done.
    change (with_net (net s) s) with (MkSys (nodes s) (net s) (created s) (actions s) (delivered s)) in E.
    destruct s as [ns nt cr ac de]. cbn [nodes net created actions delivered] in *. rewrite E.
    eexists _, P. split; [done|]. split; [|split; [apply extends_refl|split; [|done]]].
    2: { intros b Hb'. by apply (same_bytes_deliver b (MkBcast G n id) n n here ds (MkSys ns nt cr ac de)). }
    apply HI'; try done. intros v. cbn. destruct (decide (v = n)) as [->|]; [by rewrite fn_lookup_insert|by rewrite fn_lookup_insert_ne].
  - destruct (net s !! k) as [[d m]|] eqn:Hk; [|done]. injection E as <-.
    pose proof (list_elem_of_lookup_2 _ _ _ Hk) as Hin. pose proof (Inv_dest P s d m HI Hin) as Hd.
    rewrite bool_decide_true by done. destruct m as [m|G o|from b]; cbn [handle].
    + destruct (Inv_setup P s k d (m_group m) (Setup m) (setupHandler m) HI Hl Hk eq_refl)
        as (s' & P' & E & HI' & Hex & Hw & Hc & Hsb).
      { intros gh HG Hnet. apply (GI_run_setup N (m_group m) gh); try done; [by apply (Inv_at P)|].
        intros v o. by apply (Inv_ops P s). }
      exists s', P'. by split_and!.
    + destruct (Inv_setup P s k d G (Trigger G o) (groupTriggerHandler o) HI Hl Hk eq_refl)
        as (s' & P' & E & HI' & Hex & Hw & Hc & Hsb).
      { intros gh HG Hnet. apply (GI_run_trigger N G gh); try done; [by apply (Inv_at P)|].
        intros v o'. by apply (Inv_ops P s). }
      exists s', P'. by split_and!.
    + destruct (in_bytes _ _ HI _ _ _ Hin) as (_ & _ & Hb).
      destruct (Inv_bcast P s (take_out k (net s)) d b from false HI Hl Hd Hb)
        as (gh & here & ds & HG & Hbc & E & HI').
      { intros G. symmetry. apply (msgs_of_take_other G s k d (Bytes from b) Hk). by intros ?. }
      { intros d' f b' Hx. rewrite (take_out_perm _ _ _ Hk). by right. }
      rewrite E. eexists _, P. split; [done|]. split; [|split; [apply extends_refl|split; [|done]]].
      2: { intros b' Hb'. apply (same_bytes_deliver b' b d d here ds (with_net (take_out k (net s)) s)); [|done|].
           - intros ->. apply Hb'. by exists d, from.
           - unfold dests. rewrite (take_out_perm k _ _ Hk) at 2. cbn. rewrite decide_False; [done|].
             intros ->. apply Hb'. by exists d, from. }
      apply HI'; try done.
      intros v. cbn. destruct (decide (v = d)) as [->|]; [by rewrite fn_lookup_insert|by rewrite fn_lookup_insert_ne].
Qed.

End system.
End GroupRun.
