(* ===== verification/GroupBroadcast.v ===== *)
(** * Broadcasts to a rooted group

    A group that has been set up is a tree ([spans]); a broadcast runs down it. What is
    still to be delivered for the messages under way, and what has been delivered, are
    together the members of the group ([under_way]), at any time and in whatever order
    the messages arrive. *)

From S2P Require Import Prelude.
From S2P Require Import Sums.
From S2P Require Import Effects.
From S2P Require Import Ids.
From S2P Require Import Tree.
From S2P Require Import Region.
From S2P Require Import Group.
From S2P Require Import GroupSystem.
From S2P Require Import GroupProgress.
From S2P Require Import GroupInvariant.
From S2P Require Import GroupReach.
From S2P Require Import GroupRun.

Module GroupBroadcast.
Import Region RegionSpec Group GroupFacts GroupSystem GroupProgress GroupInvariant GroupReach GroupRun.

(** ** The tree of a group that is set up *)

(** [spans f y l]: the nodes at and below [y] are [l], where [f] gives the children of the
    nodes that have a tree. *)
Inductive spans (f : Z -> option (list Z)) : Z -> list Z -> Prop :=
  | spans_leaf y : f y = None -> spans f y [y]
  | spans_inner y ch ls : f y = Some ch -> Forall2 (spans f) ch ls -> spans f y (y :: mjoin ls).

Lemma spans_ext f g y l : (forall v, v ∈ l -> g v = f v) -> spans f y l -> spans g y l.
Proof.
  revert y l. fix IH 4. intros y l Hfg Hs. destruct Hs as [y Hy|y ch ls Hy Hch].
  - apply spans_leaf. rewrite Hfg by left. done.
  - apply (spans_inner g y ch); [rewrite Hfg by left; done|]. clear Hy.
    assert (forall v, v ∈ mjoin ls -> g v = f v) as H by (intros v Hv; apply Hfg; by right). clear Hfg.
    revert H. induction Hch as [|c l ch ls Hc Hcs IHc]; intros H; constructor.
    + apply IH; [|done]. intros v Hv. apply H. apply elem_of_app. by left.
    + apply IHc. intros v Hv. apply H. apply elem_of_app. by right.
Qed.

Lemma spans_head f y l : spans f y l -> y ∈ l.
Proof. destruct 1; left. Qed.

Lemma spans_children f y ch l :
  f y = Some ch -> spans f y l -> exists ls, Forall2 (spans f) ch ls /\ l = y :: mjoin ls.
Proof.
  intros Hf Hs. destruct Hs as [y Hy|y ch' ls Hy Hch]; [congruence|].
  rewrite Hf in Hy. injection Hy as <-. by exists ls.
Qed.

Lemma spans_heads f ch ls x : Forall2 (spans f) ch ls -> x ∈ ch -> x ∈ mjoin ls.
Proof.
  induction 1 as [|c l ch ls Hc _ IH]; intros Hx; [by apply elem_of_nil in Hx|]. apply elem_of_app.
  apply elem_of_cons in Hx as [->|Hx]; [left; by eapply spans_head|right; auto].
Qed.

Lemma spans_leaves f ch : (forall v, v ∈ ch -> f v = None) -> Forall2 (spans f) ch ((fun v => [v]) <$> ch).
Proof.
  induction ch as [|c ch IH]; intros H; simpl; constructor.
  - apply spans_leaf, H. left.
  - apply IH. intros v Hv. apply H. by right.
Qed.

Lemma mjoin_singletons (l : list Z) : mjoin ((fun v => [v]) <$> l) = l.
Proof. induction l as [|x l IH]; [done|]. rewrite fmap_cons. cbn. f_equal. exact IH. Qed.

Section group.
Context (G : Z).

(** The nodes of a subtree that keep no tree themselves. *)
Fixpoint leaves (p : prog) : list Z :=
  match p with
  | Pending _ l => l
  | Started _ ch _ [] => ch
  | Started _ _ _ kids => flat_map (fun k => leaves k.2) kids
  | Here _ _ => []
  end.

Lemma leaves_inner h ch st kids :
  kids <> [] -> leaves (Started h ch st kids) = flat_map (fun k => leaves k.2) kids.
Proof. by destruct kids. Qed.

Lemma nodes_split par op p : wf G par op p -> nodesof p ≡ₚ omap inode (items G par op p) ++ leaves p.
Proof.
  revert par op. induction p as [m l|h ch st kids IH|h l] using prog_rec'; intros par op Hw; [done| |by inversion Hw].
  rewrite items_Started. cbn [omap list_omap inode].
  assert (omap inode (ack G st par op) = []) as Ea by (by destruct st).
  rewrite omap_app, Ea. cbn [app].
  inversion Hw as [|? ? ? ? ? Hst|? ? ? ? ? Hne Hst Hall]; subst; [done|].
  rewrite nodesof_inner, leaves_inner by done. constructor. clear Hne Hst Hw Ea.
  induction kids as [|[o k] kids IHk]; [done|]. apply Forall_cons in IH as [IH1 IH2], Hall as [H1 H2].
  cbn [flat_map snd]. rewrite omap_app, (IHk IH2 H2), (IH1 _ _ H1). unfold kid_items at 2. rewrite omap_app. cbn [fst snd].
  assert (omap inode (if closed k then [] else [ICont h o par op]) = []) as -> by (by destruct (closed k)).
  simpl. solve_Permutation.
Qed.

Lemma wf_closed_kids par op h ch st kids :
  wf G par op (Started h ch st kids) -> st = Closed -> Forall (fun k => closed k.2 = true) kids.
Proof.
  intros Hw ->. inversion Hw as [|? ? ? ? ? Hk|? ? ? ? ? Hne Hst Hall]; subst; [done|].
  apply Forall_forall. intros k Hk. destruct (closed k.2) eqn:E; [done|]. exfalso.
  assert (nopen kids = 0) as H0 by (destruct (decide (nopen kids = 0)) as [|E0]; [done|]; by apply Hst in E0).
  assert (b2z (negb (closed k.2)) <= nopen kids) as Hle.
  { apply (lsum_elem_le (fun k => b2z (negb (closed k.2)))); [|done]. intros b _. apply b2z_range. }
  rewrite E in Hle. simpl in Hle. lia.
Qed.

Lemma tree_spans par op p f :
  wf G par op p -> closed p = true ->
  (forall v ch w, INode v ch w ∈ items G par op p -> f v = Some ch) ->
  (forall v, v ∈ leaves p -> f v = None) -> spans f (phead p) (nodesof p).
Proof.
  revert par op. induction p as [m l|h ch st kids IH|h l] using prog_rec'; intros par op Hw Hc H1 H2; [done| |by inversion Hw].
  assert (f h = Some ch) as Hfh by (eapply H1; rewrite items_Started; left).
  destruct st; try done. pose proof (wf_closed_kids _ _ _ _ _ _ Hw eq_refl) as Hcl.
  inversion Hw as [|? ? ? ? ? ?|? ? ? ? ? Hne Hst Hall]; subst; cbn [phead].
  - cbn [nodesof]. rewrite <- (mjoin_singletons ch). apply (spans_inner f h ch); [done|]. by apply spans_leaves.
  - rewrite nodesof_inner by done. rewrite leaves_inner in H2 by done.
    assert (flat_map (fun k => nodesof k.2) kids = mjoin ((fun k => nodesof k.2) <$> kids)) as ->.
    { clear. induction kids as [|k kids IHk]; [done|]. cbn [flat_map]. rewrite IHk. done. }
    eapply spans_inner; [exact Hfh|].
    assert (forall k v ch w, k ∈ kids -> INode v ch w ∈ items G h k.1 k.2 -> f v = Some ch) as H1'.
    { intros k v c w Hk Hin. apply (H1 v c w). rewrite items_Started. right. apply list_elem_of_In, in_flat_map.
      exists k. split; [by apply list_elem_of_In|]. apply list_elem_of_In. apply elem_of_app. by right. }
    assert (forall k v, k ∈ kids -> v ∈ leaves k.2 -> f v = None) as H2'.
    { intros k v Hk Hin. apply H2. apply list_elem_of_In, in_flat_map.
      exists k. split; [by apply list_elem_of_In|]. by apply list_elem_of_In. }
    clear H1 H2 Hw Hne Hst Hfh Hc. induction kids as [|k kids IHk]; [constructor|]. rewrite !fmap_cons.
    apply Forall_cons in IH as [IHa IHb], Hcl as [Hc Hcl], Hall as [Hwk Hall]. constructor.
    + apply (IHa h k.1); try done; intros *; [apply H1'|apply H2']; left.
    + apply IHk; try done; intros k' *; intros Hk'; [apply H1'|apply H2']; by right.
Qed.

(** [f] gives the children in the tree of a group that is set up. *)
Record tree_of (gh : ghost) (f : Z -> option (list Z)) : Prop := {
  tr_head : is_Some (f (phead (g_prog gh)));
  tr_tree : spans f (phead (g_prog gh)) (nodesof (g_prog gh)) \/
    exists l, g_prog gh = Here (g_root gh) l /\ f (g_root gh) = Some l /\ forall v, v <> g_root gh -> f v = None;
  tr_nodup : NoDup (nodesof (g_prog gh))
}.

Context (N : Z).

Lemma children_item gh V v ch w :
  GI G N gh V -> INode v ch w ∈ items G (g_root gh) (g_op gh) (g_prog gh) -> children (vremote V v) = Some ch.
Proof.
  intros HG Hin. destruct (view_node G _ _ _ _ _ (gi_view _ _ _ _ HG) Hin) as (i & Hi & Hat).
  unfold children. rewrite Hi. simpl. by rewrite (ia_tree _ _ _ Hat).
Qed.

Lemma item_children gh V v ch :
  GI G N gh V -> children (vremote V v) = Some ch ->
  exists w, INode v ch w ∈ items G (g_root gh) (g_op gh) (g_prog gh).
Proof.
  intros HG Hc. unfold children in Hc. destruct (vremote V v) as [i|] eqn:Ei; [|done]. simpl in Hc.
  destruct (vk_remote _ _ _ (gi_view _ _ _ _ HG) v i Ei) as (ch' & w & Hin & Hi).
  rewrite (ia_tree _ _ _ Hi) in Hc. injection Hc as <-. by exists w.
Qed.

Lemma children_same gh V V' v : GI G N gh V -> GI G N gh V' -> children (vremote V' v) = children (vremote V v).
Proof.
  intros H H'. destruct (children (vremote V v)) as [ch|] eqn:E.
  - destruct (item_children gh V v ch H E) as [w Hin]. by eapply children_item.
  - destruct (children (vremote V' v)) as [ch|] eqn:E'; [|done].
    destruct (item_children gh V' v ch H' E') as [w Hin]. rewrite (children_item gh V v ch w H Hin) in E. done.
Qed.

Lemma GI_tree gh V : GI G N gh V -> closed (g_prog gh) = true -> tree_of gh (fun v => children (vremote V v)).
Proof.
  intros HG Hc. assert (NoDup (nodesof (g_prog gh))) as Hnd by (rewrite (gi_nodes _ _ _ _ HG); apply HG).
  destruct (gi_wf _ _ _ _ HG) as [Hw|(l & E & _)].
  - assert (forall v ch w, INode v ch w ∈ items G (g_root gh) (g_op gh) (g_prog gh) -> children (vremote V v) = Some ch)
      as H1 by (intros v ch w; by apply children_item).
    split; [|left|done].
    + destruct (g_prog gh) as [|h ch st kids|] eqn:E; [done| |by inversion Hw]. exists ch. eapply H1.
      rewrite items_Started. left.
    + apply (tree_spans (g_root gh) (g_op gh)); try done. intros v Hv.
      destruct (children (vremote V v)) as [ch|] eqn:E; [|done]. exfalso.
      destruct (item_children gh V v ch HG E) as [w Hin]. rewrite (nodes_split _ _ _ Hw) in Hnd.
      apply NoDup_app in Hnd as (_ & Hdis & _). apply (Hdis v); [by eapply inode_elem|done].
  - assert (forall v ch w, INode v ch w ∈ items G (g_root gh) (g_op gh) (g_prog gh) -> v = g_root gh /\ ch = l) as Hone.
    { rewrite E. intros v ch w [= -> -> ->]%list_elem_of_singleton. done. }
    assert (children (vremote V (g_root gh)) = Some l) as Hl by (apply (children_item gh V _ l 0 HG); rewrite E; left).
    split; [|right|done].
    + rewrite E. cbn [phead]. by eexists.
    + exists l. split_and!; try done. intros v Hv. destruct (children (vremote V v)) as [ch|] eqn:Ec; [|done].
      destruct (item_children gh V v ch HG Ec) as [w Hin]. by destruct (Hone _ _ _ Hin).
Qed.

(** ** One message *)

Section broadcast.
Context (gh : ghost) (f : Z -> option (list Z)) (b : BcastMsg).

(** The creator is a member only as the first node, and the broadcast does not start at
    another node of the tree. *)
Record allowed : Prop := {
  al_root : if decide (phead (g_prog gh) = g_root gh) then g_root gh ∈ nodesof (g_prog gh)
            else g_root gh ∉ nodesof (g_prog gh);
  al_origin : b_dest b = g_root gh \/ f (b_dest b) = None
}.

(** The nodes [l] that a message under way to [y] is for. *)
Definition share (y : Z) (l : list Z) : Prop :=
  (y = g_root gh /\ b_dest b <> g_root gh /\ l = nodesof (g_prog gh)) \/
  (y <> g_root gh /\ g_root gh ∉ l /\ spans f y l).

Definition shares (ps : list (Z * list Z)) : Prop := Forall (fun p => share p.1 p.2) ps.

Lemma filter_all (y : Z) (l : list Z) : y ∉ l -> base.filter (fun c => c <> y) l = l.
Proof.
  induction l as [|x l IH]; intros H; [done|]. rewrite filter_cons_True by (intros ->; apply H; left).
  rewrite IH; [done|]. intros Hy. apply H. by right.
Qed.

Lemma fan ch ls y :
  Forall2 (spans f) ch ls -> y ∉ mjoin ls -> g_root gh ∉ mjoin ls ->
  base.filter (fun c => c <> y) ch = ch /\
  exists ps, ps.*1 = ch /\ ps.*2 = ls /\ shares ps.
Proof.
  intros Hs Hy Hr. split; [apply filter_all; intros H; by eapply Hy, spans_heads|].
  clear Hy. induction Hs as [|c l ch ls Hc Hcs IH]; [exists []; split_and!; [done..|constructor]|].
  destruct IH as (ps & E1 & E2 & Hps); [intros H; apply Hr, elem_of_app; by right|].
  - exists ((c, l) :: ps). rewrite !fmap_cons, E1, E2. split_and!; try done. constructor; [|done]. right. cbn [fst snd].
    split_and!; try done; [|intros H; apply Hr, elem_of_app; by left].
    intros ->. apply Hr, elem_of_app. left. by eapply spans_head.
Qed.

Lemma singles l : g_root gh ∉ l -> (forall v, v ∈ l -> f v = None) ->
  exists ps, ps.*1 = l /\ ps.*2 = ((fun v => [v]) <$> l) /\ shares ps.
Proof.
  induction l as [|v l IH]; intros Hr Hf; [exists []; split_and!; [done..|constructor]|].
  destruct IH as (ps & E1 & E2 & Hps); [set_solver|set_solver|].
  exists ((v, [v]) :: ps). rewrite !fmap_cons, E1, E2. split_and!; try done. constructor; [|done]. right. cbn [fst snd].
  split_and!; [set_solver|set_solver|]. apply spans_leaf, Hf. left.
Qed.

Lemma filter_perm (y : Z) (l : list Z) : NoDup l -> y ∈ l -> y :: base.filter (fun c => c <> y) l ≡ₚ l.
Proof.
  intros Hnd (l1 & l2 & ->)%list_elem_of_split. apply NoDup_app in Hnd as (_ & H12 & [Hy2 _]%NoDup_cons).
  rewrite filter_app, filter_cons_False by (intros H; by destruct H).
  rewrite !filter_all; [by rewrite Permutation_middle|done|]. intros Hy. apply (H12 y Hy). left.
Qed.

Context (Ht : tree_of gh f) (Ha : allowed).

(** The whole group below the creator, which is its first node or holds it alone. *)
Lemma fan_root ch :
  phead (g_prog gh) = g_root gh -> f (g_root gh) = Some ch ->
  exists ps, ps.*1 = base.filter (fun c => c <> g_root gh) ch /\ shares ps /\
    g_root gh :: mjoin ps.*2 ≡ₚ nodesof (g_prog gh).
Proof.
  intros Hh Hf. pose proof (al_root Ha) as Hr. rewrite decide_True in Hr by done. pose proof (tr_nodup _ _ Ht) as Hnd.
  destruct (tr_tree _ _ Ht) as [Hs|(l & E & E1 & E2)].
  - rewrite Hh in Hs. destruct (spans_children f _ ch _ Hf Hs) as (ls & Hch & El). rewrite El in Hnd |- *.
    apply NoDup_cons in Hnd as [Hno _]. destruct (fan ch ls (g_root gh) Hch Hno Hno) as (-> & ps & <- & <- & Hps). by exists ps.
  - rewrite E1 in Hf. injection Hf as <-. rewrite E in Hr, Hnd |- *. cbn [nodesof] in *.
    destruct (singles (base.filter (fun c => c <> g_root gh) l)) as (ps & Eps1 & Eps & Hps).
    + intros [H _]%list_elem_of_filter. done.
    + intros v [H _]%list_elem_of_filter. by apply E2.
    + exists ps. split_and!; try done. rewrite Eps, mjoin_singletons. by apply filter_perm.
Qed.

(** What the creator does on behalf of the whole group. *)
Lemma step_root from root here ds :
  root = false /\ b_dest b <> g_root gh \/ root = true /\ from = uninitialized_destination ->
  bcast gh (f (g_root gh)) (g_root gh) b from root = (here, ds) ->
  exists ps, ps.*1 = ds /\ shares ps /\ (if here then [g_root gh] else []) ++ mjoin ps.*2 ≡ₚ nodesof (g_prog gh).
Proof.
  intros Hor E. unfold bcast in E. rewrite Z.eqb_refl in E. cbn [negb] in E. rewrite andb_false_r in E. cbn [andb] in E.
  destruct (Z.eqb_spec (phead (g_prog gh)) (g_root gh)) as [Eh|Eh]; cbn [negb] in E.
  - destruct (tr_head _ _ Ht) as [ch Hch]. rewrite Eh in Hch. rewrite Hch in E.
    destruct (fan_root ch Eh Hch) as (ps & E1 & Hps & Hp). exists ps.
    assert (here = true /\ ds = base.filter (fun c => c <> g_root gh) ch) as [-> ->]; [|by split_and!].
    destruct Hor as [[-> Hd]|[-> ->]].
    + destruct (Z.eqb_spec (b_dest b) (g_root gh)); [done|]. cbn in E. by injection E as <- <-.
    + rewrite Z.eqb_refl, orb_true_r in E. cbn in E. by injection E as <- <-.
  - injection E as <- <-. exists [(phead (g_prog gh), nodesof (g_prog gh))]. split; [done|]. split.
    + constructor; [|constructor]. right. cbn [fst snd]. split; [done|]. pose proof (al_root Ha) as Hr.
      rewrite decide_False in Hr by done. split; [done|]. destruct (tr_tree _ _ Ht) as [Hs|(l & E & _)]; [done|].
      rewrite E in Eh. done.
    + cbn. by rewrite app_nil_r.
Qed.

(** A broadcast starts. *)
Lemma step_origin here ds :
  bcast gh (f (b_dest b)) (b_dest b) b uninitialized_destination true = (here, ds) ->
  exists ps, ps.*1 = ds /\ shares ps /\ (if here then [b_dest b] else []) ++ mjoin ps.*2 ≡ₚ nodesof (g_prog gh).
Proof.
  intros E. destruct (Z.eqb_spec (g_root gh) (b_dest b)) as [Ed|Ed].
  - rewrite <- Ed in E |- *. eapply step_root; [by right|exact E].
  - unfold bcast in E. rewrite (proj2 (Z.eqb_neq _ _) Ed) in E. cbn in E. injection E as <- <-.
    exists [(g_root gh, nodesof (g_prog gh))]. split; [done|]. split.
    + constructor; [|constructor]. left. by split_and!.
    + cbn. by rewrite app_nil_r.
Qed.

(** A message arrives at [y]. *)
Lemma step_share y l from here ds :
  share y l -> NoDup l -> 0 <= from -> bcast gh (f y) y b from false = (here, ds) ->
  exists ps, ps.*1 = ds /\ shares ps /\ (if here then [y] else []) ++ mjoin ps.*2 ≡ₚ l.
Proof.
  intros [(-> & Hd & ->)|(Hy & Hr & Hs)] Hnd Hfrom E.
  - eapply step_root; [by left|exact E].
  - unfold bcast in E. cbn [andb] in E. rewrite (proj2 (Z.eqb_neq _ _) Hy) in E. cbn [andb] in E.
    destruct (f y) as [ch|] eqn:Ef.
    + destruct (spans_children f y ch l Ef Hs) as (ls & Hch & ->). apply NoDup_cons in Hnd as [Hno _].
      destruct (fan ch ls y Hch Hno) as (Ech & ps & <- & <- & Hps); [intros H; apply Hr; by right|].
      rewrite Ech in E. destruct (Z.eqb_spec (b_dest b) y) as [Ed|Ed].
      { destruct (al_origin Ha); congruence. }
      cbn in E. injection E as <- <-. by exists ps.
    + injection E as <- <-. destruct Hs as [y _|y ch ls Ef' _]; [|congruence]. exists []. split_and!; [done|constructor|done].
Qed.

End broadcast.
End group.
(** ** All messages of a broadcast *)

Section system.
Context (N : Z) (HN : N <= 2 ^ 15).

(** What has been delivered, and what the messages under way are for, is the group. *)
Definition under_way (gh : ghost) (f : Z -> option (list Z)) (b : BcastMsg) (s : Sys) : Prop :=
  exists ps, ps.*1 ≡ₚ dests b (net s) /\ shares gh f b ps /\
    got b (delivered s) ++ mjoin ps.*2 ≡ₚ nodesof (g_prog gh).

Lemma under_way_same gh f b s s' : same_bytes b s s' -> under_way gh f b s -> under_way gh f b s'.
Proof. intros [E1 E2] (ps & H1 & H2 & H3). exists ps. by rewrite E1, E2. Qed.

Lemma mjoin_perm {A} (l l' : list (list A)) : l ≡ₚ l' -> mjoin l ≡ₚ mjoin l'.
Proof.
  induction 1 as [|x l l' _ IH|x y l|l l' l'' _ IH1 _ IH2]; [done|..].
  - cbn. by rewrite IH.
  - cbn. rewrite !app_assoc. by rewrite (Permutation_app_comm y x).
  - by etrans.
Qed.

Lemma mjoin_app {A} (l l' : list (list A)) : mjoin (l ++ l') = mjoin l ++ mjoin l'.
Proof. induction l as [|x l IH]; [done|]. cbn. rewrite <- app_assoc. f_equal. exact IH. Qed.

Lemma shares_pick gh f b ps y ys :
  ps.*1 ≡ₚ y :: ys -> shares gh f b ps ->
  exists l ps', ps ≡ₚ (y, l) :: ps' /\ ps'.*1 ≡ₚ ys /\ share gh f b y l /\ shares gh f b ps'.
Proof.
  intros Hp Hs. assert (y ∈ ps.*1) as Hy by (rewrite Hp; left).
  apply list_elem_of_fmap in Hy as ([y' l] & -> & Hin). cbn [fst] in *.
  apply elem_of_Permutation in Hin as [ps' Eps]. exists l, ps'.
  unfold shares in Hs. rewrite Eps in Hs. apply Forall_cons in Hs as [H1 H2]. split_and!; try done.
  rewrite Eps, fmap_cons in Hp. by apply Permutation_cons_inv in Hp.
Qed.

Lemma under_way_arrives gh f b s s' d from here ds rest :
  tree_of gh f -> allowed gh f b -> under_way gh f b s -> 0 <= from ->
  dests b (net s) ≡ₚ d :: rest -> bcast gh (f d) d b from false = (here, ds) ->
  dests b (net s') ≡ₚ rest ++ ds ->
  got b (delivered s') = got b (delivered s) ++ (if here then [d] else []) -> under_way gh f b s'.
Proof.
  intros Ht Ha (ps & H1 & H2 & H3) Hfrom Hd Hb Hn Hg. rewrite Hd in H1.
  destruct (shares_pick _ _ _ _ _ _ H1 H2) as (l & ps' & Eps & E' & Hl & Hps').
  assert (mjoin ps.*2 ≡ₚ l ++ mjoin ps'.*2) as Ej by (apply (mjoin_perm _ (l :: ps'.*2)); by rewrite Eps).
  assert (NoDup l) as Hnd.
  { pose proof (tr_nodup _ _ Ht) as Hnd. rewrite <- H3, Ej in Hnd. apply NoDup_app in Hnd as (_ & _ & (Hnd & _)%NoDup_app). done. }
  destruct (step_share gh f b Ht Ha d l from here ds Hl Hnd Hfrom Hb) as (ps2 & <- & Hs2 & Hp2).
  exists (ps' ++ ps2). split_and!.
  - by rewrite fmap_app, Hn, E'.
  - by apply Forall_app.
  - rewrite fmap_app, mjoin_app, Hg. rewrite <- H3, Ej, <- Hp2. solve_Permutation.
Qed.

Lemma step_under_way P s e s' gh b f :
  Inv N P s -> Z.of_nat (length (created s)) < 2 ^ 31 -> valid N s e -> exec1 N s e = Some (Ok s') ->
  P !! b_group b = Some gh -> tree_of gh f -> allowed gh f b ->
  (forall v, children (remote_group_info_ (nodes s v) !! b_group b) = f v) ->
  e <> Broadcast (b_dest b) (b_group b) (b_id b) ->
  under_way gh f b s -> under_way gh f b s'.
Proof.
  intros HI Hl Hv E HG Ht Ha Hf Hne Hu.
  destruct (Inv_step N HN P s e _ HI Hl Hv E) as (s1 & P1 & [= <-] & _ & _ & Hsame & _).
  destruct e as [n region st a|n G id|k].
  - eapply under_way_same; [|done]. apply Hsame. by intros ?.
  - eapply under_way_same; [|done]. apply Hsame. intros <-. by apply Hne.
  - cbn [exec1] in E. destruct (net s !! k) as [[d m]|] eqn:Hk; [|done].
    assert (~ (exists from, m = Bytes from b) \/ exists from, m = Bytes from b) as [Hno|[from ->]].
    { destruct m as [m|G o|from b']; [left; by intros [? ?]..|].
      destruct (decide (b' = b)) as [->|Hb']; [right; by eexists|left; intros [? [= _ ?]]; done]. }
    { eapply under_way_same; [|done]. apply Hsame. cbn [concerns]. rewrite Hk. intros (? & from & [= -> ->]). eauto. }
    pose proof (list_elem_of_lookup_2 _ _ _ Hk) as Hin. pose proof (Inv_dest N P s d _ HI Hin) as Hd.
    rewrite bool_decide_true in E by done. cbn [handle] in E. destruct (in_bytes _ _ _ HI _ _ _ Hin) as (_ & Hfrom & Hb).
    destruct (Inv_bcast N HN P s (take_out k (net s)) d b from false HI Hl Hd Hb)
      as (gh' & here & ds & HG' & Hbc & Er & _).
    { intros G. symmetry. apply (msgs_of_take_other G s k d (Bytes from b) Hk). by intros ?. }
    { intros d' f' b' Hx. rewrite (take_out_perm _ _ _ Hk). by right. }
    rewrite HG in HG'. injection HG' as <-. rewrite Er in E. rewrite Hf in Hbc. injection E as <-.
    assert (dests b (net s) ≡ₚ d :: dests b (take_out k (net s))) as Hd1.
    { unfold dests. rewrite (take_out_perm k _ _ Hk) at 1. cbn. by rewrite decide_True. }
    eapply (under_way_arrives gh f b s _ d from here ds); try done; cbn [deliver net delivered].
    + by rewrite dests_app, dests_bytes.
    + unfold deliver, got. destruct here; [|by rewrite app_nil_r]. cbn [delivered]. rewrite omap_app. cbn.
      by rewrite decide_True.
Qed.

(** A broadcast starts. *)
Lemma start_under_way P s s' gh b f :
  Inv N P s -> Z.of_nat (length (created s)) < 2 ^ 31 -> b_group b ∈ created s ->
  exec1 N s (Broadcast (b_dest b) (b_group b) (b_id b)) = Some (Ok s') ->
  P !! b_group b = Some gh -> tree_of gh f -> allowed gh f b ->
  (forall v, children (remote_group_info_ (nodes s v) !! b_group b) = f v) ->
  dests b (net s) = [] -> got b (delivered s) = [] -> under_way gh f b s'.
Proof.
  intros HI Hl Hb E HG Ht Ha Hf Hd Hg. cbn [exec1] in E. case_bool_decide as Hn; [|done].
  assert (MkBcast (b_group b) (b_dest b) (b_id b) = b) as Eb by (by destruct b). rewrite Eb in E.
  destruct (Inv_bcast N HN P s (net s) (b_dest b) b uninitialized_destination true HI Hl Hn Hb)
    as (gh' & here & ds & HG' & Hbc & Er & _); try done.
  rewrite HG in HG'. injection HG' as <-. rewrite Hf in Hbc.
  destruct (step_origin gh f b Ht Ha here ds Hbc) as (ps & <- & Hps & Hp).
  destruct s as [ns nt cr ac de]. unfold with_net in Er. cbn [nodes net created actions delivered] in *. rewrite Er in E.
  injection E as <-. exists ps. split_and!; [|done|].
  - cbn [net deliver]. by rewrite dests_app, dests_bytes, Hd.
  - rewrite <- Hp. unfold deliver. destruct here; cbn [delivered]; unfold got in *; rewrite ?omap_app, Hg; [|done].
    cbn. by rewrite decide_True.
Qed.

End system.
End GroupBroadcast.
