(* ===== verification/GroupSpec.v ===== *)
(** * Rooted groups: what they promise

    The theorems about groups: only the assertion on the size of a region can
    stop a run, the set-up of a group ends after a bounded number of messages,
    and the action given by the creator is run once, when every node of the
    group knows its children. *)

From S2P Require Import Prelude.
From S2P Require Import Sums.
From S2P Require Import Effects.
From S2P Require Import Ids.
From S2P Require Import Tree.
From S2P Require Import Region.
From S2P Require Import Group.
From S2P Require Import GroupSystem.
From S2P Require Import GroupProgress.
From S2P Require Import GroupInvariant.
From S2P Require Import GroupReach.
From S2P Require Import GroupRun.
From S2P Require Import GroupBroadcast.

Module GroupSpec.
Import Region RegionSpec Group GroupFacts GroupSystem GroupProgress GroupInvariant GroupReach GroupRun GroupBroadcast.

Section system.
Context (N : Z).

(** The events of a run are valid where they happen. *)
Fixpoint valid_run (s : Sys) (es : list event) : Prop :=
  match es with
  | [] => True
  | e :: es => valid N s e /\ match exec1 N s e with Some (Ok s') => valid_run s' es | _ => True end
  end.

(** How many messages of the set-up of groups a run handles. *)
Fixpoint handled (s : Sys) (es : list event) : Z :=
  match es with
  | [] => 0
  | e :: es =>
      match e with
      | Deliver k => match net s !! k with Some (_, Bytes _ _) | None => 0 | _ => 1 end
      | _ => 0
      end + match exec1 N s e with Some (Ok s') => handled s' es | _ => 0 end
  end.

(** How many nodes the groups made in a run have. *)
Definition asked (es : list event) : Z :=
  lsum (fun e => match e with New _ region _ _ => Z.of_nat (length (members region)) | _ => 0 end) es.

Hypothesis HN : N <= 2 ^ 15.

Lemma Inv_init : Inv N ∅ init.
Proof.
  split; try done.
  - intros G. split; [by intros [? ?]|]. by intros ?%elem_of_nil.
  - by intros d from b ?%elem_of_nil.
Qed.

Definition small (s : Sys) : Prop := Z.of_nat (length (created s)) < 2 ^ 31.

Lemma valid_small s e s' :
  small s -> valid N s e -> (created s' = created s \/ (exists G n r st a, created s' = G :: created s /\ e = New n r st a)) -> small s'.
Proof.
  unfold small. intros Hs Hv [->|(G & n & r & st & a & -> & ->)]; [done|]. cbn [length valid] in *. lia.
Qed.

(** A run keeps the invariant, and handles no more than there is to do. *)
Lemma run_inv P s es :
  Inv N P s -> small s -> valid_run s es ->
  exec N s es = None \/ exists s' P', exec N s es = Some (Ok s') /\ Inv N P' s' /\ small s' /\ extends P P' /\
    handled s es + work P' <= work P + 3 * asked es.
Proof.
  revert P s. induction es as [|e es IH]; intros P s HI Hs Hv.
  { right. exists s, P. split_and!; try done; [apply extends_refl|simpl; lia]. }
  destruct Hv as [Hv1 Hv]. cbn [exec]. destruct (exec1 N s e) as [r|] eqn:E; [|by left].
  destruct (Inv_step N HN P s e r HI Hs Hv1 E) as (s1 & P1 & -> & HI1 & Hex & _ & Hcase).
  assert (small s1) as Hs1.
  { apply (valid_small s e); try done. destruct e; [right|left; apply Hcase..].
    destruct Hcase as (G & gh & Hc & _). eauto 8. }
  destruct (IH P1 s1 HI1 Hs1 Hv) as [->|(s' & P' & E' & HI' & Hs' & Hex' & Hw)]; [by left|]. right.
  exists s', P'. split_and!; try done; [by eapply extends_trans|].
  cbn [handled]. rewrite E. unfold asked in *. rewrite lsum_cons.
  destruct e as [n region st a|n G id|k].
  - destruct Hcase as (G & gh & _ & _ & _ & _ & _ & Hwk). lia.
  - destruct Hcase as [-> _]. lia.
  - destruct Hcase as [_ Hcase]. destruct (net s !! k) as [[d [m|G o|from b]]|] eqn:Ek; try lia.
    subst P1. lia.
Qed.

Lemma exec_app s es1 es2 :
  exec N s (es1 ++ es2) = match exec N s es1 with Some (Ok s1) => exec N s1 es2 | r => r end.
Proof.
  revert s. induction es1 as [|e es1 IH]; intros s; [done|]. simpl. destruct (exec1 N s e) as [[s'|]|]; done.
Qed.

Lemma valid_app s es1 es2 :
  valid_run s (es1 ++ es2) -> valid_run s es1 /\ forall s1, exec N s es1 = Some (Ok s1) -> valid_run s1 es2.
Proof.
  revert s. induction es1 as [|e es1 IH]; intros s; simpl.
  - intros H. split; [done|]. by intros s1 [= <-].
  - intros [H1 H2]. destruct (exec1 N s e) as [[s'|]|]; [|done..]. destruct (IH s' H2). done.
Qed.

(** In the run [es], node [n] made the group [G] from [region], with the action [a]. *)
Definition made (es : list event) (G n : Z) (region : Region) (a : Z) : Prop :=
  exists es1 st es2 s1, es = es1 ++ New n region st a :: es2 /\
    exec N init (es1 ++ [New n region st a]) = Some (Ok s1) /\ list.head (created s1) = Some G.

Lemma small_init : small init.
Proof. unfold small. simpl. lia. Qed.

Lemma made_inv es s G n region a :
  valid_run init es -> exec N init es = Some (Ok s) -> made es G n region a ->
  exists P gh, Inv N P s /\ small s /\ P !! G = Some gh /\ g_root gh = n /\ g_act gh = a /\ g_region gh = region.
Proof.
  intros Hv E (es1 & st & es2 & s1 & -> & E1 & Hh). apply valid_app in Hv as [Hv1 Hv2]. rewrite exec_app in E, E1.
  destruct (run_inv ∅ init es1 Inv_init small_init Hv1) as [En|(s0 & P0 & E0 & HI0 & Hs0 & _ & _)];
    [by rewrite En in E|].
  rewrite E0 in E, E1. specialize (Hv2 s0 E0). destruct Hv2 as [Hvn Hv2]. cbn [exec] in E, E1.
  destruct (exec1 N s0 (New n region st a)) as [[s1'|]|] eqn:En; [|done..]. injection E1 as ->.
  destruct (Inv_step N HN P0 s0 _ _ HI0 Hs0 Hvn En) as (s1' & P1 & [= <-] & HI1 & _ & _ & (G' & gh & Hc & HG & Hr & Ha & Hreg & _)).
  assert (small s1) as Hs1 by (apply (valid_small s0 _ s1 Hs0 Hvn); right; eauto 8).
  rewrite Hc in Hh. injection Hh as ->.
  destruct (run_inv P1 s1 es2 HI1 Hs1 Hv2) as [En2|(s2 & P2 & E2 & HI2 & Hs2 & Hex & _)]; [congruence|].
  rewrite E2 in E. injection E as <-. destruct (Hex G gh HG) as (gh' & HG' & H1 & H2 & H3 & _).
  exists P2, gh'. split_and!; try done; congruence.
Qed.

(** A group without messages under way is set up. *)
Lemma quiet_group G gh V : GI G N gh V -> vnet V = [] -> closed (g_prog gh) = true.
Proof.
  intros HG Hn. destruct (gi_wf _ _ _ _ HG) as [Hw|(l & -> & _)]; [|done].
  apply (quiet_closed G _ _ _ Hw). intros d m Hin.
  assert ((d, m) ∈ vnet V) as Hx; [|rewrite Hn in Hx; by apply elem_of_nil in Hx].
  rewrite (vk_net _ _ _ (gi_view _ _ _ _ HG)). apply list_elem_of_omap. by exists (IMsg d m).
Qed.

Lemma closed_conts G gh V v o a :
  GI G N gh V -> closed (g_prog gh) = true -> vcont V v o = Some a -> group_of a <> G.
Proof.
  intros HG Hc Ha E. destruct a as [act G'|q G' o']; cbn [group_of] in E; subst G'.
  - apply (gi_fin _ _ _ _ HG) in Ha as [Ho _]. congruence.
  - apply (vk_cont _ _ _ (gi_view _ _ _ _ HG)) in Ha. destruct (gi_wf _ _ _ _ HG) as [Hw|(l & E & _)].
    + destruct (closed_items G _ _ _ _ Hw Hc Ha) as (? & ? & ?). done.
    + rewrite E in Ha. by apply list_elem_of_singleton in Ha.
Qed.

(** A broadcast to a group that is set up stays [under_way]. *)
Lemma run_under_way P s es s' gh b :
  Inv N P s -> small s -> valid_run s es -> exec N s es = Some (Ok s') ->
  P !! b_group b = Some gh -> closed (g_prog gh) = true ->
  allowed gh (fun v => children (remote_group_info_ (nodes s v) !! b_group b)) b ->
  Broadcast (b_dest b) (b_group b) (b_id b) ∉ es ->
  under_way gh (fun v => children (remote_group_info_ (nodes s v) !! b_group b)) b s ->
  under_way gh (fun v => children (remote_group_info_ (nodes s v) !! b_group b)) b s'.
Proof.
  intros HI Hs Hv E HG Hc. set (f := fun v => children (remote_group_info_ (nodes s v) !! b_group b)).
  assert (tree_of gh f) as Ht by (apply (GI_tree (b_group b) N gh (view (b_group b) s)); [by apply HI|done]).
  assert (forall v, children (remote_group_info_ (nodes s v) !! b_group b) = f v) as Hf by done. clearbody f.
  intros Ha. revert P s HI Hs Hv E HG Hf. induction es as [|e es IH]; intros P s HI Hs Hv E HG Hf Hne Hu.
  { by injection E as <-. }
  destruct Hv as [Hv1 Hv]. cbn [exec] in E. destruct (exec1 N s e) as [[s1|]|] eqn:E1; [|done..].
  destruct (Inv_step N HN P s e _ HI Hs Hv1 E1) as (s1' & P1 & [= <-] & HI1 & Hex & _ & Hcase).
  assert (small s1) as Hs1.
  { apply (valid_small s e); try done. destruct e; [right|left; apply Hcase..].
    destruct Hcase as (G & gh' & Hc' & _). eauto 8. }
  destruct (Hex _ _ HG) as (gh' & HG1 & _ & _ & _ & Hsame). rewrite (Hsame Hc) in HG1.
  apply (IH P1 s1); try done.
  - intros v. rewrite <- Hf. apply (children_same (b_group b) N gh (view (b_group b) s) (view (b_group b) s1)); [by apply HI|by apply HI1].
  - intros H. apply Hne. by right.
  - apply (step_under_way N HN P s e s1 gh b f); try done. intros ->. apply Hne. left.
Qed.

End system.

(** *** What stops a run *)

(** A region as a program hands it in: a list of different nodes, or a range that has not
    been turned into a list; of any size, the empty one included. *)
Record given_region (r : Region) : Prop := {
  gr_ok : region_ok r;
  gr_class : match r with RRange r => made_list_ r = false | RList _ => True | RShallow _ => False end;
  gr_small : Z.of_nat (length (members r)) < 2 ^ 15;
  gr_nodup : NoDup (members r)
}.

Lemma given_new r : given_region r -> 1 <= getSize r -> new_region r.
Proof. intros [] ?. by split. Qed.

(** As [valid], for regions that may be empty. *)
Definition given (N : Z) (s : Sys) (e : event) : Prop :=
  match e with
  | New n region _ _ =>
      given_region region /\ (forall x, x ∈ members region -> 0 <= x < N) /\ Z.of_nat (length (created s)) + 1 < 2 ^ 31
  | Broadcast _ G _ => G ∈ created s
  | Deliver _ => True
  end.

Fixpoint given_run (N : Z) (s : Sys) (es : list event) : Prop :=
  match es with
  | [] => True
  | e :: es => given N s e /\ match exec1 N s e with Some (Ok s') => given_run N s' es | _ => True end
  end.

(** The event makes a group of a region whose size is below the least. *)
Definition too_small (e : event) : Prop := match e with New _ region _ _ => getSize region < min_region_size | _ => False end.

#[export] Instance too_small_dec e : Decision (too_small e).
Proof. destruct e; simpl; apply _. Defined.

Lemma given_valid N s e : given N s e -> ~ too_small e -> valid N s e.
Proof.
  destruct e as [n region st a| |]; simpl; [|done..]. intros (Hr & Hin & Hl) Hs. split_and!; try done.
  apply given_new; [done|]. unfold min_region_size in Hs. lia.
Qed.

(** A run up to its first group that is too small. *)
Lemma given_run_valid N s es : given_run N s es ->
  valid_run N s es \/ exists es1 e es2, es = es1 ++ e :: es2 /\ too_small e /\ valid_run N s es1 /\
    forall s1, exec N s es1 = Some (Ok s1) -> given N s1 e.
Proof.
  revert s. induction es as [|e es IH]; intros s; [by left|]. intros [He Hes]. destruct (decide (too_small e)) as [Ht|Ht].
  { right. exists [], e, es. split_and!; try done. by intros s1 [= <-]. }
  pose proof (given_valid _ _ _ He Ht) as Hv. destruct (exec1 N s e) as [[s'|x]|] eqn:E.
  - destruct (IH s' Hes) as [Hvs|(es1 & e' & es2 & -> & Ht' & Hv1 & Hg)]; [left; simpl; by rewrite E|].
    right. exists (e :: es1), e', es2. split; [done|]. split; [done|]. split; [simpl; by rewrite E|]. intros s1. simpl. rewrite E. apply Hg.
  - left. simpl. by rewrite E.
  - left. simpl. by rewrite E.
Qed.

Lemma setupRooted_too_small G g info :
  local_group_info_ g !! G = Some info -> getSize (region_ info) < min_region_size -> setupRooted G g = Stop AssertFailed.
Proof.
  intros Hl Hs. unfold setupRooted. rewrite run_get, Hl. cbn zeta. unfold mbind, eff_bind, assert_, vtAssert.
  by destruct (Z.leb_spec min_region_size (getSize (region_ info))); [lia|].
Qed.

Lemma newLocalGroup_too_small region st a g :
  local_group_info_ g !! GroupIDBuilder.createGroupID (next_group_id_ g) (this_node g) false st = None ->
  getSize region < min_region_size -> newLocalGroup region st a g = Stop AssertFailed.
Proof.
  intros Hl Hs. unfold newLocalGroup. rewrite run_get, run_modify. set (G := GroupIDBuilder.createGroupID _ _ _ _) in *.
  unfold initializeLocalGroup. unfold mbind at 1, eff_bind at 1. rewrite run_modify.
  rewrite (setupRooted_too_small G _ (makeInfo false G (Some (Finished a G)) region (getSize region))); [done| |exact Hs].
  unfold emplace. cbn [local_group_info_ with_local with_next_id]. rewrite Hl. apply lookup_insert_eq.
Qed.

(** Making a group of an empty region fails the assertion on its size. *)
Lemma too_small_stops N P s e : N <= 2 ^ 15 -> Inv N P s -> small s -> too_small e -> given N s e ->
  exec1 N s e = None \/ exec1 N s e = Some (Stop AssertFailed).
Proof.
  intros HN HI Hsm Ht Hg. destruct e as [n region st a| |]; [|done..]. cbn [exec1]. case_bool_decide as Hn; [right|by left].
  pose proof (Inv_next_id N HN P s n st HI Hn Hsm) as HG.
  set (G := GroupIDBuilder.createGroupID (next_group_id_ (nodes s n)) n false st) in *.
  pose proof (an_node _ _ _ _ (Inv_at N P s G n HI Hsm)) as Hnode.
  assert (local_group_info_ (nodes s n) !! G = None) as Hl.
  { rewrite (an_local _ _ _ _ (Inv_at N P s G n HI Hsm)). apply (fr_local _ (in_fresh _ _ _ HI _ HG)). }
  unfold perform. rewrite newLocalGroup_too_small; [done|by rewrite Hnode|exact Ht].
Qed.

Lemma given_app N s es1 es2 : given_run N s (es1 ++ es2) ->
  given_run N s es1 /\ forall s1, exec N s es1 = Some (Ok s1) -> given_run N s1 es2.
Proof.
  revert s. induction es1 as [|e es1 IH]; intros s; simpl.
  - intros H. split; [done|]. by intros s1 [= <-].
  - intros [H1 H2]. destruct (exec1 N s e) as [[s'|]|]; [|done..]. destruct (IH s' H2). done.
Qed.

Section given.
Context (N : Z) (HN : N <= 2 ^ 15).

(** A run ends in a state of the invariant, or at the first group that is too small. *)
Lemma given_run_cases es : given_run N init es ->
  exec N init es = None \/
  (exists s P, exec N init es = Some (Ok s) /\ Inv N P s /\ small s) \/
  (exec N init es = Some (Stop AssertFailed) /\ exists es1 n region st a es2 s1,
     es = es1 ++ New n region st a :: es2 /\ exec N init es1 = Some (Ok s1) /\ 0 <= n < N /\ getSize region < min_region_size).
Proof.
  intros Hg. assert (small init) as Hs0 by (unfold small; simpl; lia).
  pose proof (fun es Hv => run_inv N HN ∅ init es (Inv_init N) Hs0 Hv) as Hrun.
  destruct (given_run_valid N init es Hg) as [Hv|(es1 & e & es2 & -> & Ht & Hv1 & Hge)].
  - destruct (Hrun _ Hv) as [E|(s & P & E & HI & Hsm & _)]; [by left|right; left; eauto].
  - rewrite exec_app. destruct (Hrun _ Hv1) as [E1|(s1 & P1 & E1 & HI & Hsm & _)]; rewrite E1; [by left|]. simpl.
    destruct (too_small_stops N P1 s1 e HN HI Hsm Ht (Hge s1 E1)) as [E2|E2]; rewrite E2; [by left|right; right].
    split; [done|]. destruct e as [n region st a| |]; [|done..]. exists es1, n, region, st, a, es2, s1. split_and!; try done.
    all: cbn [exec1] in E2; case_bool_decide as Hb; [apply Hb|done].
Qed.

End given.

(** C17: whatever groups are made from regions of existing nodes (lists of different nodes
    or ranges, as the program hands them in), and in whatever order the messages arrive:
    what stops a run is never anything but the assertion that a region has at least
    [min_region_size] nodes, and that stops it exactly where a group is made of a smaller
    one. No other assertion of the group manager fails, and every other event returns. *)
Theorem group_never_fails N es x :
  N <= 2 ^ 15 -> given_run N init es ->
  exec N init es = Some (Stop x) <->
  x = AssertFailed /\ exists es1 n region st a es2 s1,
    es = es1 ++ New n region st a :: es2 /\ exec N init es1 = Some (Ok s1) /\ 0 <= n < N /\ getSize region < min_region_size.
Proof.
  intros HN Hg. split.
  - intros E. destruct (given_run_cases N HN es Hg) as [E'|[(s & P & E' & _)|[E' Hx]]]; rewrite E' in E; [done..|]. by injection E as <-.
  - intros (-> & es1 & n & region & st & a & es2 & s1 & -> & E1 & Hn & Hsz). destruct (given_app _ _ _ _ Hg) as [Hg1 Hg2].
    rewrite exec_app, E1. destruct (given_run_cases N HN es1 Hg1) as [E'|[(s & P & E' & HI & Hsm)|[E' _]]]; rewrite E' in E1; [done| |done].
    injection E1 as <-. destruct (Hg2 s E') as [Hge _]. cbn [exec].
    destruct (too_small_stops N P s (New n region st a) HN HI Hsm Hsz Hge) as [E2|E2]; [|by rewrite E2].
    cbn [exec1] in E2. by rewrite bool_decide_true in E2.
Qed.

(** the set-up of groups ends: in any run no more messages of it are handled than three
    for each node of each group. *)
Theorem group_setup_ends N es s :
  N <= 2 ^ 15 -> valid_run N init es -> exec N init es = Some (Ok s) -> handled N init es <= 3 * asked es.
Proof.
  intros HN Hv E. destruct (run_inv N HN ∅ init es (Inv_init N) ltac:(unfold small; simpl; lia) Hv)
    as [H|(s' & P' & _ & _ & _ & _ & Hw)]; [congruence|].
  pose proof (work_nonneg P') as H0. change (work ∅) with 0 in Hw. lia.
Qed.

(** C16: the action given with a group is run at most once in any run, on the node that made
    it; and as soon as no message of the group's set-up is under way it has been run, and
    no node waits for an answer. *)
Theorem group_action_once N es s G n region a :
  N <= 2 ^ 15 -> valid_run N init es -> exec N init es = Some (Ok s) -> made N es G n region a ->
  (runs_of G (actions s) = [] \/ runs_of G (actions s) = [(n, (a, G))]) /\
  (msgs_of G (net s) = [] ->
     runs_of G (actions s) = [(n, (a, G))] /\ forall v o, contof G (nodes s v) o = None).
Proof.
  intros HN Hv E Hm. destruct (made_inv N HN es s G n region a Hv E Hm) as (P & gh & HI & _ & HG & <- & <- & _).
  pose proof (in_group _ _ _ HI _ _ HG) as HGI. pose proof (gi_ran _ _ _ _ HGI) as Hr. cbn [view vran] in Hr.
  split; [rewrite Hr; destruct (closed _); auto|]. intros Hq.
  pose proof (quiet_group N G gh (view G s) HGI Hq) as Hc. rewrite Hc in Hr. split; [done|]. intros v o.
  destruct (contof G (nodes s v) o) as [x|] eqn:Ex; [|done]. exfalso.
  apply (closed_conts N G gh (view G s) v o x HGI Hc Ex). by apply contof_Some in Ex as [_ ?].
Qed.

(** C15: a broadcast to a group that is set up, from the node that made it or from one that
    is not an inner node of its tree, is delivered at most once to each member and to no
    other node, and when no copy is left under way it has reached every member; provided
    that the membership test of the group's region is right (that of a range is if the range
    starts at a multiple of its stride) and that the maker, if a member, is the node it
    forwards the group's messages to. None of the three conditions can be dropped:
    [inner_origin_short], [strided_maker_gets], [maker_in_group_repeats]. *)
Theorem group_broadcast N es s G n region a x id es2 s' :
  let b := MkBcast G x id in
  N <= 2 ^ 15 -> valid_run N init es -> exec N init es = Some (Ok s) -> made N es G n region a ->
  runs_of G (actions s) <> [] ->
  contains_ok region ->
  (n ∈ members region -> exists i, local_group_info_ (nodes s n) !! G = Some i /\ forward_node_ i = n) ->
  x = n \/ remote_group_info_ (nodes s x) !! G = None ->
  dests b (net s) = [] -> got b (delivered s) = [] ->
  valid_run N s (Broadcast x G id :: es2) -> Broadcast x G id ∉ es2 ->
  exec N s (Broadcast x G id :: es2) = Some (Ok s') ->
  got b (delivered s') ⊆+ members region /\
  (dests b (net s') = [] -> got b (delivered s') ≡ₚ members region).
Proof.
  intros b HN Hv E Hm Hran Hcok Hmaker Hx Hd Hg Hv2 Hnew E2.
  destruct (made_inv N HN es s G n region a Hv E Hm) as (P & gh & HI & Hs & HG & Hroot & Hact & Hreg).
  pose proof (in_group _ _ _ HI _ _ HG) as HGI. pose proof (gi_ran _ _ _ _ HGI) as Hr. cbn [view vran] in Hr.
  destruct (closed (g_prog gh)) eqn:Hc; [|done]. cbn [exec] in E2.
  destruct (exec1 N s (Broadcast x G id)) as [[s1|]|] eqn:E1; [|done..]. destruct Hv2 as [Hv1 Hv2]. rewrite E1 in Hv2.
  destruct (Inv_step N HN P s _ _ HI Hs Hv1 E1) as (s1' & P1 & [= <-] & HI1 & _ & _ & -> & Hcr).
  assert (small s1) as Hs1 by (by apply (valid_small N s _ s1 Hs Hv1); left).
  set (f := fun v => children (remote_group_info_ (nodes s v) !! G)).
  assert (forall v, children (remote_group_info_ (nodes s1 v) !! G) = f v) as Hf.
  { intros v. apply (children_same G N gh (view G s) (view G s1)); [done|by apply HI1]. }
  assert (tree_of gh f) as Ht by (by apply (GI_tree G N gh (view G s))).
  pose proof (gi_nodes _ _ _ _ HGI) as Hnodes. unfold g_mem in Hnodes. rewrite Hreg in Hnodes.
  assert (allowed gh f b) as Ha.
  { split.
    - rewrite Hroot. destruct (gi_local' _ _ _ _ HGI) as [i Hi]. rewrite Hroot in Hi. cbn [view vlocal] in Hi.
      destruct (gi_local _ _ _ _ HGI n i Hi) as [_ [_ Hfw]]. case_decide as Eh.
      + destruct (gi_wf _ _ _ _ HGI) as [Hw|(l & El & Hl)].
        * rewrite <- Eh. by apply (phead_nodes _ _ _ _ Hw).
        * rewrite El. rewrite Hroot, Hreg in Hl. by apply Hl.
      + intros Hin. rewrite Hnodes in Hin. destruct (Hmaker Hin) as (j & Hj & Hjn). rewrite Hi in Hj. injection Hj as <-. congruence.
    - cbn [b b_dest]. destruct Hx as [->|Hx]; [by left|]. right. unfold f. by rewrite Hx. }
  assert (under_way gh f b s1) as Hu by (by apply (start_under_way N HN P s s1 gh b f)).
  assert (under_way gh (fun v => children (remote_group_info_ (nodes s1 v) !! G)) b s') as (ps & U1 & U2 & U3).
  { apply (run_under_way N HN P s1 es2 s' gh b); try done.
    - destruct Ha as [Ha1 Ha2]. split; [done|]. by rewrite Hf.
    - destruct Hu as (ps & U1 & U2 & U3). exists ps. split_and!; try done. eapply Forall_impl; [exact U2|].
      intros [y l] [Hy|(Hy1 & Hy2 & Hy3)]; [by left|]. right. split_and!; try done.
      eapply spans_ext; [|exact Hy3]. intros v _. apply Hf. }
  rewrite Hnodes in U3. split.
  - rewrite <- U3. apply submseteq_inserts_r. done.
  - intros Ed. rewrite Ed in U1. apply Permutation_nil_r in U1. destruct ps; [|done]. rewrite app_nil_r in U3. done.
Qed.

(** ** A run *)

(** Node 0 makes a group of the nodes 1 to 7, and then broadcasts to it. *)
Definition run_region : Region := RRange (MkRange 1 8 1 false []).
Definition run_group : Z := GroupIDBuilder.createGroupID 0 0 false true.
Definition run_new : list event := New 0 run_region true 7 :: repeat (Deliver 0) 6.
Definition run_bcast : list event := repeat (Deliver 0) 7.
Definition run_final (s : Sys) (es : list event) : Sys :=
  match exec 8 s es with Some (Ok s') => s' | _ => init end.

Lemma valid_delivers N s k : valid_run N s (repeat (Deliver 0) k).
Proof.
  revert s. induction k as [|k IH]; intros s; [done|]. cbn [repeat valid_run]. split; [done|].
  destruct (exec1 N s (Deliver 0)) as [[s'|]|]; done.
Qed.

Lemma run_region_ok : new_region run_region /\ forall x, x ∈ members run_region -> 0 <= x < 8.
Proof.
  split; [split|].
  - split; simpl; lia || done.
  - done.
  - vm_compute. done.
  - vm_compute. done.
  - apply (bool_decide_unpack _). vm_compute. done.
  - intros x Hx. assert (x ∈ [1; 2; 3; 4; 5; 6; 7]) as Hx' by exact Hx. rewrite !elem_of_cons, elem_of_nil in Hx'. lia.
Qed.

Lemma run_new_valid : valid_run 8 init run_new.
Proof.
  split; [destruct run_region_ok; split_and!; simpl; done || lia|].
  destruct (exec1 8 init _) as [[s|]|]; [apply valid_delivers|done..].
Qed.

Lemma run_made : made 8 run_new run_group 0 run_region 7.
Proof.
  exists [], true, (repeat (Deliver 0) 6), (run_final init [New 0 run_region true 7]).
  split; [done|]. split; vm_compute; reflexivity.
Qed.

Lemma valid_given N s es : valid_run N s es -> given_run N s es.
Proof.
  revert s. induction es as [|e es IH]; intros s; [done|]. intros [He Hes]. split.
  - destruct e as [n region st a| |]; try done. destruct He as ([] & ? & ?). by split_and!.
  - destruct (exec1 N s e) as [[s'|]|]; auto.
Qed.

Lemma given_app_2 N s es1 es2 s1 :
  given_run N s es1 -> exec N s es1 = Some (Ok s1) -> given_run N s1 es2 -> given_run N s (es1 ++ es2).
Proof.
  revert s. induction es1 as [|e es1 IH]; intros s; simpl; [by intros _ [= ->]|].
  intros [H1 H2]. destruct (exec1 N s e) as [[s'|]|]; [|done..]. intros E H. split; [done|]. by apply IH.
Qed.

(** The range of the single node 0 with stride 3: its computed size is 0. *)
Definition short_region : Region := RRange (MkRange 0 2 3 false []).

Lemma short_region_nodes x : x ∈ members short_region -> 0 <= x < 8.
Proof. intros Hx. assert (x ∈ [0]) as Hx' by exact Hx. apply list_elem_of_singleton in Hx' as ->. lia. Qed.

(** After the group of [run_new], a group of [short_region] stops the run. *)
Lemma group_never_fails_witness :
  members short_region = [0] /\
  exec 8 init (run_new ++ [New 3 short_region true 8]) = Some (Stop AssertFailed) /\
  exec 8 init run_new <> Some (Stop AssertFailed).
Proof.
  split; [by vm_compute|]. split.
  - apply (group_never_fails 8 (run_new ++ [New 3 short_region true 8]) AssertFailed); [lia| |].
    + apply (given_app_2 8 init run_new _ (run_final init run_new)); [apply valid_given, run_new_valid|by vm_compute|].
      split; [|by destruct (exec1 8 _ _) as [[?|]|]]. split_and!; [|apply short_region_nodes|by vm_compute].
      split; [split; simpl; done || lia|done|by vm_compute|by apply NoDup_singleton].
    + split; [done|]. exists run_new, 3, short_region, true, 8, [], (run_final init run_new). split_and!; by vm_compute.
  - intros E. apply (group_never_fails 8 run_new AssertFailed) in E; [|lia|apply valid_given, run_new_valid].
    destruct E as (_ & es1 & n & region & st & a & es2 & s1 & E & _ & _ & Hsz).
    destruct es1 as [|? es1]; [injection E as <- <- <- <- _; revert Hsz; by vm_compute|]. injection E as _ E.
    assert (New n region st a ∈ repeat (Deliver 0) 6) as Hin by (cbn [repeat]; rewrite E; apply elem_of_app; right; left).
    by apply list_elem_of_In, repeat_spec in Hin.
Defined.

Lemma group_setup_ends_witness : handled 8 init run_new = 6 /\ handled 8 init run_new <= 3 * asked run_new.
Proof.
  split; [vm_compute; reflexivity|].
  apply (group_setup_ends 8 run_new (run_final init run_new)); [lia|apply run_new_valid|vm_compute; reflexivity].
Defined.

Lemma group_action_once_witness : runs_of run_group (actions (run_final init run_new)) = [(0, (7, run_group))].
Proof.
  destruct (group_action_once 8 run_new (run_final init run_new) run_group 0 run_region 7) as [_ H];
    [lia|apply run_new_valid|vm_compute; reflexivity|apply run_made|].
  destruct H as [H _]; [vm_compute; reflexivity|exact H].
Defined.

Lemma group_broadcast_witness :
  let s := run_final init run_new in
  got (MkBcast run_group 0 5) (delivered (run_final s (Broadcast 0 run_group 5 :: run_bcast))) ≡ₚ members run_region.
Proof.
  intros s. destruct (group_broadcast 8 run_new s run_group 0 run_region 7 0 5 run_bcast
    (run_final s (Broadcast 0 run_group 5 :: run_bcast))) as [_ H].
  - lia.
  - apply run_new_valid.
  - vm_compute. reflexivity.
  - apply run_made.
  - vm_compute. discriminate.
  - right. apply Z.divide_1_l.
  - intros H. exfalso. revert H. apply (bool_decide_unpack _). vm_compute. done.
  - by left.
  - vm_compute. reflexivity.
  - vm_compute. reflexivity.
  - split; [vm_compute; left|]. destruct (exec1 8 s _) as [[s'|]|]; [apply valid_delivers|done..].
  - intros H%list_elem_of_In%repeat_spec. done.
  - vm_compute. reflexivity.
  - apply H. vm_compute. reflexivity.
Defined.

(** ** The conditions of [group_broadcast] are needed *)

(** Node [n] makes a group, which is set up by [k] messages, and node [x] broadcasts to it;
    then [j] messages are delivered. *)
Definition bcast_run (n : Z) (region : Region) (k : nat) (x : Z) (j : nat) : Sys :=
  run_final init (New n region true 7 :: repeat (Deliver 0) k
    ++ Broadcast x (GroupIDBuilder.createGroupID 0 n false true) 5 :: repeat (Deliver 0) j).

(** the maker of a group that is a member of it but not its first node forwards a
    broadcast each time it gets it, so that the broadcast goes round, delivered again
    and again to the other members and never to the maker: here node 2 has made a group
    of the nodes 0 to 4, and after fourteen messages two are still under way. *)
Theorem maker_in_group_repeats :
  let s := bcast_run 2 (RRange (MkRange 0 5 1 false [])) 6 2 14 in
  (fun x => x.1) <$> delivered s = [0; 1; 3; 4; 0; 1; 3; 4; 0; 1; 3] /\ length (net s) = 2%nat.
Proof. vm_compute. done. Qed.

(** A broadcast by an inner node of the tree does not get below that node: when it comes
    back to the node it is taken for one already forwarded. *)
Lemma inner_origin_short :
  let s := bcast_run 0 run_region 6 1 2 in
  (fun x => x.1) <$> delivered s = [1] /\ net s = [] /\ members run_region = [1; 2; 3; 4; 5; 6; 7].
Proof. vm_compute. done. Qed.

(** A small region that claims its maker for a member by mistake is set up on the maker,
    which then gets the group's messages. *)
Lemma strided_maker_gets :
  let r := RRange (MkRange 1 4 2 false []) in
  let s := bcast_run 2 r 0 2 2 in
  (fun x => x.1) <$> delivered s = [2; 1; 3] /\ members r = [1; 3].
Proof. vm_compute. done. Qed.

End GroupSpec.
