(* ===== verification/GroupDefault.v ===== *)
(** * The default group

    Models the group of all nodes, [src/vt/group/global/group_default.{h,cc,impl.h}]: the
    phases every node goes through at start-up, which make the nodes wait for one another
    up and down the tree before any component broadcasts, and broadcasts to all nodes
    along the tree. *)

From S2P Require Import Prelude.
From S2P Require Import Sums.
From S2P Require Import Effects.
From S2P Require Import Ids.
From S2P Require Import Tree.

Module DefaultGroup.

Definition PhaseType := i16.
Definition num_phases : Z := 2.

(** [this_node] and the number of nodes are [theContext]'s; [sync_count_] is an array. *)
Record DefaultGroup := MkDefault {
  this_node : Z;
  num_nodes : Z;
  spanning_tree_ : option Tree.Tree;
  cur_phase_ : Z;
  sync_count_ : list Z
}.

Definition make (node nodes : Z) : DefaultGroup := MkDefault node nodes None 0 [0; 0; 0].

Definition with_tree (t : option Tree.Tree) (g : DefaultGroup) : DefaultGroup :=
  MkDefault (this_node g) (num_nodes g) t (cur_phase_ g) (sync_count_ g).
Definition with_phase (p : Z) (g : DefaultGroup) : DefaultGroup :=
  MkDefault (this_node g) (num_nodes g) (spanning_tree_ g) p (sync_count_ g).
Definition with_counts (l : list Z) (g : DefaultGroup) : DefaultGroup :=
  MkDefault (this_node g) (num_nodes g) (spanning_tree_ g) (cur_phase_ g) l.

(** A message broadcast: [b_dest] is the node it comes from, [b_deliver] whether that node
    gets it too. *)
Record BcastMsg := MkBcast { b_dest : Z; b_deliver : bool; b_id : Z }.

#[export] Instance BcastMsg_eq_dec : EqDecision BcastMsg.
Proof. solve_decision. Defined.

Inductive output :=
  | SendSync (dest phase : Z)
  | SendNewPhase (dest phase : Z)
  | SendBytes (dest : Z) (b : BcastMsg).

Abbreviation M := (Eff DefaultGroup output).

Definition count_at (phase : Z) (g : DefaultGroup) : option Z :=
  if phase <? 0 then None else sync_count_ g !! Z.to_nat phase.

(** [sync_count_[phase]]; beyond the array the behaviour is undefined. *)
Definition sync_count (phase : Z) : M Z :=
  g ← get; match count_at phase g with Some c => mret c | None => lift (Stop AbortCalled) end.

Definition spanning_tree : M Tree.Tree :=
  g ← get; match spanning_tree_ g with Some t => mret t | None => lift (Stop AssertFailed) end.

Definition buildDefaultTree (phase : Z) : M unit :=
  g ← get;
  match spanning_tree_ g with
  | Some _ => nop
  | None =>
      modify (with_tree (Some (Tree.makeDefault (this_node g) (num_nodes g))));;
      assert_ (phase =? 0)
  end.

(** [sendPhaseMsg<MsgT, handler>(phase, node)]. *)
Definition sendPhaseMsg (handler : Z -> M unit) (msg : Z -> Z -> output) (phase node : Z) : M unit :=
  g ← get;
  if this_node g =? node then handler phase else emit (msg node phase).

(** [sync_count_[phase]++]. *)
Definition countSync (phase : Z) : M unit :=
  c ← sync_count phase;
  modify (fun g => with_counts (<[Z.to_nat phase := wrap i32 (c + 1)]> (sync_count_ g)) g).

Definition sendUpTree (syncHandler newPhaseSendChildren : Z -> M unit) (phase : Z) : M unit :=
  t ← spanning_tree;
  let count := Tree.getNumChildren t + 1 in
  c ← sync_count phase;
  if c =? count then
    if negb (Tree.isRoot t) then sendPhaseMsg syncHandler SendSync phase (Tree.getParent t)
    else if phase <? num_phases then newPhaseSendChildren phase else nop
  else nop.

Definition newPhase (localSync : Z -> M unit) (phase : Z) : M unit :=
  g ← get;
  assert_ (cur_phase_ g =? phase);;
  let new_phase := wrap PhaseType (phase + 1) in
  modify (with_phase new_phase);;
  localSync new_phase.

Definition newPhaseSendChildrenWith (newPhaseSendChildren localSync : Z -> M unit) (phase : Z) : M unit :=
  t ← spanning_tree;
  (if 0 <? Tree.getNumChildren t
   then for_each (Tree.getChildren t) (sendPhaseMsg newPhaseSendChildren SendNewPhase phase)
   else nop);;
  newPhase localSync phase.

Fixpoint localSync (fuel : nat) (phase : Z) : M unit :=
  match fuel with
  | O => lift (Stop NoReturn)
  | S fuel =>
      buildDefaultTree phase;;
      countSync phase;;
      sendUpTree (localSync fuel) (newPhaseSendChildren fuel) phase
  end
with newPhaseSendChildren (fuel : nat) (phase : Z) : M unit :=
  match fuel with
  | O => lift (Stop NoReturn)
  | S fuel => newPhaseSendChildrenWith (newPhaseSendChildren fuel) (localSync fuel) phase
  end.

(** Each phase takes two calls. *)
Definition sync_fuel : nat := 8.

Definition syncHandler (phase : Z) : M unit := localSync sync_fuel phase.
Definition newPhaseHandler (phase : Z) : M unit := newPhaseSendChildren sync_fuel phase.

(** [setupDefaultTree] enters the initial phase and then runs the scheduler until this
    holds. *)
Definition setupDefaultTree : M unit := localSync sync_fuel 0.
Definition finished_startup (g : DefaultGroup) : bool := num_phases <=? cur_phase_ g.

(** [broadcast(base, from, is_root, deliver)]: [deliver] as the caller has set it. *)
Definition broadcast (base : BcastMsg) (from : Z) (is_root deliver : bool) : M bool :=
  t ← spanning_tree;
  g ← get;
  let dest := b_dest base in
  let num_children := Tree.getNumChildren t in
  let node := this_node g in
  let root_node := 0 in
  let is_root_of_tree := node =? root_node in
  let send_to_root := is_root && negb is_root_of_tree in
  let this_node_dest := dest =? node in
  let first_send := from =? uninitialized_destination in
  (if ((0 <? num_children) || send_to_root) && (negb this_node_dest || first_send) then
     (if 0 <? num_children
      then for_each (Tree.getChildren t) (fun child => if negb (child =? dest) then emit (SendBytes child base) else nop)
      else nop);;
     (if send_to_root then emit (SendBytes root_node base) else nop)
   else nop);;
  mret (if is_root then b_deliver base else deliver).

(** [groupHandler] for the default group. *)
Definition groupHandler (base : BcastMsg) (from : Z) (root : bool) : M bool :=
  broadcast base from root (negb root).

End DefaultGroup.

(** ** All nodes *)

Module DefaultSystem.
Import DefaultGroup.

Inductive msg := Sync (phase : Z) | NewPhase (phase : Z) | Bytes (from : Z) (b : BcastMsg).

Section system.
Context (N : Z).

Record Sys := MkSys {
  nodes : Z -> DefaultGroup;
  net : list (Z * msg);
  started : Z -> bool;               (* has called [setupDefaultTree] *)
  delivered : list (Z * BcastMsg)    (* history *)
}.

Definition init : Sys := MkSys (fun n => make n N) [] (fun _ => false) [].

Definition send (n : Z) (o : output) : Z * msg :=
  match o with
  | SendSync d phase => (d, Sync phase)
  | SendNewPhase d phase => (d, NewPhase phase)
  | SendBytes d b => (d, Bytes n b)
  end.

Definition perform {A} (n : Z) (op : M A) (s : Sys) : res (A * Sys) :=
  '(a, g, os) ← op (nodes s n);
  Ok (a, MkSys (<[n := g]> (nodes s)) (net s ++ (send n <$> os)) (started s) (delivered s)).

Definition with_net (l : list (Z * msg)) (s : Sys) : Sys := MkSys (nodes s) l (started s) (delivered s).
Definition start (n : Z) (s : Sys) : Sys := MkSys (nodes s) (net s) (<[n := true]> (started s)) (delivered s).
Definition deliver (here : bool) (n : Z) (b : BcastMsg) (s : Sys) : Sys :=
  MkSys (nodes s) (net s) (started s) (if here then delivered s ++ [(n, b)] else delivered s).

Definition handle (n : Z) (m : msg) (s : Sys) : res Sys :=
  match m with
  | Sync phase => snd <$> perform n (syncHandler phase) s
  | NewPhase phase => snd <$> perform n (newPhaseHandler phase) s
  | Bytes from b => '(here, s) ← perform n (groupHandler b from false) s; Ok (deliver here n b s)
  end.

Inductive event := Start (n : Z) | Broadcast (n : Z) (deliver : bool) (id : Z) | Deliver (k : nat).

#[export] Instance event_eq_dec : EqDecision event.
Proof. solve_decision. Defined.

(** A node starts once; it broadcasts when its start-up has finished. *)
Definition exec1 (s : Sys) (e : event) : option (res Sys) :=
  match e with
  | Start n =>
      if bool_decide (0 <= n < N) && negb (started s n)
      then Some (snd <$> perform n setupDefaultTree (start n s)) else None
  | Broadcast n deliver_ id =>
      if bool_decide (0 <= n < N) && started s n && finished_startup (nodes s n) then Some (
        let b := MkBcast n deliver_ id in
        '(here, s) ← perform n (groupHandler b uninitialized_destination true) s; Ok (deliver here n b s))
      else None
  | Deliver k =>
      match net s !! k with
      | Some (n, m) => Some (
          if bool_decide (0 <= n < N) then handle n m (with_net (take_out k (net s)) s) else Stop AbortCalled)
      | None => None
      end
  end.

Fixpoint exec (s : Sys) (es : list event) : option (res Sys) :=
  match es with
  | [] => Some (Ok s)
  | e :: es => match exec1 s e with Some (Ok s) => exec s es | r => r end
  end.

End system.
End DefaultSystem.
