(* ===== verification/GroupDefaultFacts.v ===== *)
(** * Start-up of the default group: the invariant

    Counts of the phase messages sent, under way and handled, for any order in which the
    nodes start and the messages arrive ([Inv]); every handler returns and keeps it
    ([handlers_finish]). *)

From S2P Require Import Prelude.
From S2P Require Import Sums.
From S2P Require Import Effects.
From S2P Require Import Ids.
From S2P Require Import Tree.

From S2P Require Import GroupDefault.

(** ** The invariant *)

Module DefaultFacts.
Import DefaultGroup DefaultSystem.

#[export] Instance msg_eq_dec : EqDecision msg.
Proof. solve_decision. Defined.

(** What a handler still has to do for a phase: count one more, tell the parent, or enter
    the next phase. *)
Inductive pend := NoPend | PCount (n p : Z) | PUp (n p : Z) | PPass (n p : Z).

#[export] Instance pend_eq_dec : EqDecision pend.
Proof. solve_decision. Defined.

Definition is_pend (O o : pend) : Z := b2z (bool_decide (O = o)).

(** Case analysis on what a handler still has to do. *)
Ltac pends := unfold is_pend; repeat case_bool_decide; simplify_eq; simpl.

Section system.
Context (N : Z).

Abbreviation kids := (Tree.getChildrenOf N).

Definition nkids (n : Z) : Z := Z.of_nat (length (kids n)).
Definition cur (s : Sys) (n : Z) : Z := cur_phase_ (nodes s n).
Definition cnt (s : Sys) (n p : Z) : Z := default 0 (count_at p (nodes s n)).
Definition done_ (s : Sys) (n p : Z) : bool := cnt s n p =? nkids n + 1.
Definition local (s : Sys) (n p : Z) : bool := if p =? 0 then started s n else p <=? cur s n.
Definition copies (x : Z * msg) (l : list (Z * msg)) : Z := lsum (fun y => b2z (bool_decide (y = x))) l.
Definition told (O : pend) (s : Sys) (n p : Z) : Z := b2z (done_ s n p) - is_pend O (PUp n p).

Definition pend_ok (O : pend) (s : Sys) : Prop :=
  match O with
  | NoPend => True
  | PCount n p => 0 <= n < N /\ 0 <= p <= 2 /\ (1 <= p -> spanning_tree_ (nodes s n) <> None)
  | PUp n p => 0 <= n < N /\ 0 <= p <= 2 /\ done_ s n p = true
  | PPass n p => 0 <= n < N /\ 0 <= p <= 1
  end.

Definition msg_ok (s : Sys) (x : Z * msg) : Prop :=
  match x.2 with
  | Sync p => 0 <= x.1 < N /\ 0 <= p <= 2
  | NewPhase p => 0 < x.1 < N /\ 0 <= p <= 1
  | Bytes from b => 0 <= x.1 < N /\ 0 <= from /\ 0 <= b_dest b < N /\ x.1 <> b_dest b /\ cur s (b_dest b) = 2
  end.

Record Inv (O : pend) (s : Sys) : Prop := {
  iv_pend : pend_ok O s;
  iv_node n : this_node (nodes s n) = n /\ num_nodes (nodes s n) = N /\ length (sync_count_ (nodes s n)) = 3%nat;
  iv_tree n : match spanning_tree_ (nodes s n) with
    | Some t => t = Tree.makeDefault n N
    | None => (forall p, cnt s n p = 0) /\ cur s n = 0 /\ (started s n = true -> O = PCount n 0)
    end;
  iv_cur n : 0 <= cur s n <= 2;
  iv_cnt n p : 0 <= cnt s n p;
  iv_sync n p : 0 <= n < N -> 0 <= p <= 2 ->
    copies (n, Sync p) (net s) + is_pend O (PCount n p) + cnt s n p
    = b2z (local s n p) + lsum (fun c => told O s c p) (kids n);
  iv_local n p : 0 <= n < N -> 0 <= p <= 2 -> b2z (local s n p) <= cnt s n p + is_pend O (PCount n p);
  iv_new c p : 0 < c < N -> 0 <= p <= 1 ->
    copies (c, NewPhase p) (net s) + is_pend O (PPass c p) + b2z (p <? cur s c) = b2z (p <? cur s (Tree.parentOf c));
  iv_root p : 0 <= p <= 1 -> b2z (p <? cur s 0) + is_pend O (PPass 0 p) = told O s 0 p;
  iv_msgs x : x ∈ net s -> msg_ok s x
}.

Hypothesis HN : 0 < N <= 2 ^ 15.

Lemma copies_nonneg x l : 0 <= copies x l.
Proof. apply lsum_nonneg. intros a _. apply b2z_range. Qed.
Lemma is_pend_range O o : 0 <= is_pend O o <= 1.
Proof. apply b2z_range. Qed.

Lemma told_range O s n p : pend_ok O s -> 0 <= told O s n p <= 1.
Proof.
  intros Ho. unfold told, is_pend. pose proof (b2z_range (done_ s n p)).
  destruct (bool_decide_reflect (O = PUp n p)) as [->|]; simpl; [|lia].
  destruct Ho as (_ & _ & ->). simpl. lia.
Qed.

Lemma told_done O s n p : pend_ok O s -> told O s n p = 1 -> done_ s n p = true.
Proof. intros Ho. unfold told. pose proof (is_pend_range O (PUp n p)). destruct (done_ s n p); simpl; [done|lia]. Qed.

(** A node that has told its parent has entered the phase, and so have its children. *)
Lemma told_below O s n p : Inv O s -> 0 <= n < N -> 0 <= p <= 2 -> done_ s n p = true ->
  local s n p = true /\ (forall c, c ∈ kids n -> told O s c p = 1).
Proof.
  intros HI Hn Hp Hd. pose proof (iv_sync _ _ HI n p Hn Hp) as E. apply Z.eqb_eq in Hd.
  pose proof (copies_nonneg (n, Sync p) (net s)). pose proof (is_pend_range O (PCount n p)).
  destruct (lsum_ones (fun c => told O s c p) (kids n)) as [H1 H2]; [intros c _; apply told_range, HI|].
  unfold nkids in Hd. destruct (local s n p); simpl in E; [|lia]. split; [done|]. apply H2. lia.
Qed.

Lemma told_all O s p n : Inv O s -> 0 <= p <= 2 -> told O s 0 p = 1 -> 0 <= n < N -> told O s n p = 1 /\ local s n p = true.
Proof.
  intros HI Hp H0 Hn.
  assert (forall k, 0 <= k -> 0 <= k < N -> told O s k p = 1) as H.
  { apply (Z_lt_induction (fun k => 0 <= k < N -> told O s k p = 1)). intros k IH Hk.
    destruct (decide (k = 0)) as [->|]; [done|]. pose proof (Tree.parentOf_bounds k ltac:(lia)) as Hpk.
    pose proof (IH (Tree.parentOf k) ltac:(lia) ltac:(lia)) as Ht.
    apply (told_done O s _ _ (iv_pend _ _ HI)) in Ht. apply (told_below O s (Tree.parentOf k) p) in Ht as [_ Ht]; try done; [|lia].
    apply Ht, Tree.elem_of_children; [lia|]. split; [lia|done]. }
  pose proof (H n ltac:(lia) Hn) as Ht. split; [done|]. apply (told_below O s n p); try done. by apply (told_done O s _ _ (iv_pend _ _ HI)).
Qed.

Lemma cur_up O s p n : Inv O s -> 0 <= p <= 1 -> 0 <= n < N -> p < cur s n -> p < cur s 0.
Proof.
  intros HI Hp. revert n.
  assert (forall k, 0 <= k -> 0 <= k < N -> p < cur s k -> p < cur s 0) as H; [|intros n Hn; apply H; lia].
  apply (Z_lt_induction (fun k => 0 <= k < N -> p < cur s k -> p < cur s 0)). intros k IH Hk Hc.
  destruct (decide (k = 0)) as [->|]; [done|]. pose proof (Tree.parentOf_bounds k ltac:(lia)) as Hpk.
  apply (IH (Tree.parentOf k)); [lia..|]. pose proof (iv_new _ _ HI k p ltac:(lia) Hp) as E.
  pose proof (copies_nonneg (k, NewPhase p) (net s)). pose proof (is_pend_range O (PPass k p)).
  destruct (Z.ltb_spec p (cur s k)); [|lia]. destruct (Z.ltb_spec p (cur s (Tree.parentOf k))); simpl in *; lia.
Qed.

(** Nobody is in phase [p + 1] before everyone has entered phase [p]. *)
Lemma phases_together O s p n m :
  Inv O s -> 0 <= p <= 1 -> 0 <= n < N -> p < cur s n -> 0 <= m < N -> local s m p = true.
Proof.
  intros HI Hp Hn Hc Hm. apply (cur_up O s p n HI Hp Hn) in Hc. pose proof (iv_root _ _ HI p Hp) as E.
  destruct (Z.ltb_spec p (cur s 0)); [|lia]. pose proof (is_pend_range O (PPass 0 p)).
  pose proof (told_range O s 0 p (iv_pend _ _ HI)). simpl in E. apply (told_all O s p m); try done; lia.
Qed.

(** ** One handler *)

Definition upd (s : Sys) (n : Z) (g : DefaultGroup) (os : list output) : Sys :=
  MkSys (<[n := g]> (nodes s)) (net s ++ (send n <$> os)) (started s) (delivered s).

Lemma default_Inv_ext O s s' :
  (forall v, nodes s' v = nodes s v) -> net s' = net s -> (forall v, started s' v = started s v) -> Inv O s -> Inv O s'.
Proof.
  intros H1 H2 H3 [P1 P2 P3 P4 P0 P5 P6 P7 P8 P9].
  assert (forall n, cur s' n = cur s n) as Ec by (intros n; unfold cur; by rewrite H1).
  assert (forall n p, cnt s' n p = cnt s n p) as En by (intros n p; unfold cnt; by rewrite H1).
  assert (forall n p, local s' n p = local s n p) as El by (intros n p; unfold local; by rewrite H3, Ec).
  assert (forall n p, done_ s' n p = done_ s n p) as Ed by (intros n p; unfold done_; by rewrite En).
  assert (forall n p, told O s' n p = told O s n p) as Et by (intros n p; unfold told; by rewrite Ed).
  split; intros *; rewrite ?H1, ?H2, ?H3, ?Ec, ?En, ?El, ?Et; try done.
  - destruct O; simpl in *; rewrite ?H1, ?Ed; done.
  - specialize (P3 n). destruct (spanning_tree_ (nodes s n)); [done|]. destruct P3 as (A & B & C).
    split_and!; try done. intros p. by rewrite En.
  - intros Hn Hp. rewrite (lsum_ext (fun c => told O s' c p) (fun c => told O s c p)); [by apply P5|]. intros c _. apply Et.
  - apply P6.
  - apply P7.
  - apply P8.
  - intros Hx. specialize (P9 x Hx). unfold msg_ok in *. destruct x.2; try done. by rewrite Ec.
Qed.

Lemma Inv_upd_upd O s n g1 o1 g2 o2 :
  Inv O (upd (upd s n g1 o1) n g2 o2) -> Inv O (upd s n g2 (o1 ++ o2)).
Proof.
  apply default_Inv_ext; try done.
  - intros v. simpl. destruct (decide (v = n)) as [->|]; [by rewrite !fn_lookup_insert|by rewrite !fn_lookup_insert_ne].
  - simpl. by rewrite fmap_app, app_assoc.
Qed.

(** The counts of a node, when the handler changes one. *)
Lemma count_at_lookup g p : 0 <= p <= 2 -> length (sync_count_ g) = 3%nat ->
  count_at p g = Some (default 0 (count_at p g)).
Proof.
  intros Hp Hl. unfold count_at. destruct (Z.ltb_spec p 0); [lia|].
  destruct (lookup_lt_is_Some_2 (sync_count_ g) (Z.to_nat p)) as [c ->]; [lia|done].
Qed.

Lemma count_at_insert g p q c : 0 <= p <= 2 -> length (sync_count_ g) = 3%nat ->
  default 0 (count_at q (with_counts (<[Z.to_nat p := c]> (sync_count_ g)) g)) = if decide (q = p) then c else default 0 (count_at q g).
Proof.
  intros Hp Hl. unfold count_at. simpl. case_decide as E.
  - subst. destruct (Z.ltb_spec p 0); [lia|]. rewrite list_lookup_insert_eq by lia. done.
  - destruct (Z.ltb_spec q 0); [done|]. rewrite list_lookup_insert_ne by lia. done.
Qed.

(** Changing the state of one node. *)
Lemma node_upd s n g os v : nodes (upd s n g os) v = if decide (v = n) then g else nodes s v.
Proof. simpl. case_decide; subst; [by rewrite fn_lookup_insert|by rewrite fn_lookup_insert_ne]. Qed.

Lemma cur_upd s n g os v : cur (upd s n g os) v = if decide (v = n) then cur_phase_ g else cur s v.
Proof. unfold cur. rewrite node_upd. by case_decide. Qed.
Lemma cnt_upd s n g os v p : cnt (upd s n g os) v p = if decide (v = n) then default 0 (count_at p g) else cnt s v p.
Proof. unfold cnt. rewrite node_upd. by case_decide. Qed.

Lemma copies_app x l1 l2 : copies x (l1 ++ l2) = copies x l1 + copies x l2.
Proof. apply lsum_app. Qed.

(** The tree is there when a handler needs it. *)
Lemma tree_there O s n : Inv O s -> (cur s n <> 0 \/ exists p, cnt s n p <> 0) ->
  spanning_tree_ (nodes s n) = Some (Tree.makeDefault n N).
Proof.
  intros HI H. pose proof (iv_tree _ _ HI n) as Ht. destruct (spanning_tree_ (nodes s n)); [by subst|].
  destruct Ht as (H1 & H2 & _). destruct H as [|[p Hp]]; [done|]. by rewrite H1 in Hp.
Qed.

(** The tree is built. *)
Lemma step_build s n p :
  Inv (PCount n p) s -> exists g, buildDefaultTree p (nodes s n) = Ok (tt, g, []) /\
    Inv (PCount n p) (upd s n g []) /\ spanning_tree_ g = Some (Tree.makeDefault n N) /\ cnt (upd s n g []) n p = cnt s n p.
Proof.
  intros HI. destruct (iv_node _ _ HI n) as (N1 & N2 & N3). pose proof (iv_tree _ _ HI n) as Ht.
  unfold buildDefaultTree. rewrite run_get. destruct (spanning_tree_ (nodes s n)) as [t|] eqn:Et.
  - subst t. exists (nodes s n). split_and!; try done.
    + apply (default_Inv_ext _ s); try done; [|simpl; by rewrite app_nil_r].
      intros v. rewrite node_upd. case_decide; by subst.
    + rewrite cnt_upd. by rewrite decide_True.
  - destruct Ht as (H1 & H2 & H3). destruct (iv_pend _ _ HI) as (Hn & Hp & Htr).
    assert (p = 0) as -> by (destruct (decide (1 <= p)) as [Hp1|]; [by destruct (Htr Hp1)|lia]).
    rewrite run_modify, N1, N2. set (g := with_tree _ _). exists g. split; [done|].
    assert (forall v, cur (upd s n g []) v = cur s v) as Ec.
    { intros v. rewrite cur_upd. case_decide; by subst. }
    assert (forall v q, cnt (upd s n g []) v q = cnt s v q) as En.
    { intros v q. rewrite cnt_upd. case_decide; by subst. }
    assert (forall v q, local (upd s n g []) v q = local s v q) as El by (intros v q; unfold local; by rewrite Ec).
    assert (forall v q, told (PCount n 0) (upd s n g []) v q = told (PCount n 0) s v q) as Eto.
    { intros v q. unfold told, done_. by rewrite En. }
    split; [|split; [done|apply En]]. destruct HI as [P1 P2 P3 P4 P0 P5 P6 P7 P8 P9].
    split; intros *; rewrite ?Ec, ?En, ?El, ?Eto; try done.
    + rewrite node_upd. case_decide; subst; [done|apply P2].
    + rewrite node_upd. case_decide; subst; [done|]. specialize (P3 n0). destruct (spanning_tree_ (nodes s n0)); [done|].
      destruct P3 as (A & B & C). split_and!; try done. intros q. by rewrite En.
    + simpl. rewrite app_nil_r. intros Hn0 Hp0.
      rewrite (lsum_ext (fun c => told (PCount n 0) (upd s n g []) c p) (fun c => told (PCount n 0) s c p)); [by apply P5|].
      intros c _. apply Eto.
    + apply P6.
    + simpl. rewrite app_nil_r. apply P7.
    + apply P8.
    + simpl. rewrite app_nil_r. intros Hx. specialize (P9 x Hx). unfold msg_ok in *. destruct x.2; try done. by rewrite Ec.
Qed.

Lemma nkids_bound n : 0 <= nkids n <= 2.
Proof. unfold nkids, Tree.getChildrenOf. rewrite length_app. destruct (_ <? _), (_ <? _); simpl; lia. Qed.

(** One more is counted. *)
Lemma count_kept s n p :
  Inv (PCount n p) s -> spanning_tree_ (nodes s n) = Some (Tree.makeDefault n N) ->
  exists g, countSync p (nodes s n) = Ok (tt, g, []) /\ cnt (upd s n g []) n p = cnt s n p + 1 /\
    spanning_tree_ g = Some (Tree.makeDefault n N) /\
    Inv (if decide (cnt s n p + 1 = nkids n + 1) then PUp n p else NoPend) (upd s n g []).
Proof.
  intros HI Htree. destruct (iv_pend _ _ HI) as (Hn & Hp & _). destruct (iv_node _ _ HI n) as (N1 & N2 & N3).
  pose proof (count_at_lookup (nodes s n) p Hp N3) as Hc. fold (cnt s n p) in Hc.
  assert (0 <= cnt s n p <= nkids n) as Hb.
  { pose proof (iv_sync _ _ HI n p Hn Hp) as E. pose proof (copies_nonneg (n, Sync p) (net s)).
    pose proof (iv_cnt _ _ HI n p) as H0.
    destruct (lsum_ones (fun c => told (PCount n p) s c p) (kids n)) as [H1 _]; [intros c _; apply told_range, HI|].
    revert E. pends. unfold nkids. pose proof (b2z_range (local s n p)). lia. }
  pose proof (nkids_bound n) as Hnk.
  assert (wrap i32 (cnt s n p + 1) = cnt s n p + 1) as Hw.
  { apply wrap_id; [unfold ity_ok; simpl; lia|unfold in_ty, tmin, tmax; simpl; lia]. }
  set (g := with_counts (<[Z.to_nat p := cnt s n p + 1]> (sync_count_ (nodes s n))) (nodes s n)).
  assert (forall v q, cnt (upd s n g []) v q = if decide (v = n /\ q = p) then cnt s n p + 1 else cnt s v q) as En.
  { intros v q. rewrite cnt_upd. destruct (decide (v = n)) as [->|]; [|by rewrite decide_False by tauto].
    unfold g. rewrite count_at_insert by done. repeat case_decide; try done; tauto. }
  exists g. split; [|split; [by rewrite En, decide_True|split; [done|]]].
  { unfold countSync, sync_count. unfold mbind at 1, eff_bind at 1. rewrite run_get, Hc. unfold mret, eff_ret, modify.
    by rewrite Hw. }
  set (O' := if decide _ then PUp n p else NoPend).
  assert (forall v, cur (upd s n g []) v = cur s v) as Ec by (intros v; rewrite cur_upd; case_decide; by subst).
  assert (forall v q, local (upd s n g []) v q = local s v q) as El by (intros v q; unfold local; by rewrite Ec).
  assert (forall v q, told O' (upd s n g []) v q = told (PCount n p) s v q) as Eto.
  { intros v q. unfold told, done_, O'. rewrite En. destruct (decide (v = n /\ q = p)) as [[-> ->]|Hne].
    - destruct (decide (cnt s n p + 1 = nkids n + 1)) as [E|E]; pends.
      + rewrite E, Z.eqb_refl. destruct (Z.eqb_spec (cnt s n p) (nkids n + 1)); simpl; lia.
      + destruct (Z.eqb_spec (cnt s n p + 1) (nkids n + 1)), (Z.eqb_spec (cnt s n p) (nkids n + 1)); simpl; lia.
    - destruct (decide (cnt s n p + 1 = nkids n + 1)); pends; try done; tauto. }
  assert (forall v q, is_pend O' (PCount v q) = 0) as Eo1 by (intros v q; unfold O'; case_decide; by pends).
  assert (forall v q, is_pend O' (PPass v q) = 0) as Eo2 by (intros v q; unfold O'; case_decide; by pends).
  destruct HI as [P1 P2 P3 P4 P0 P5 P6 P7 P8 P9].
  split; intros *; rewrite ?Ec, ?El, ?Eto, ?Eo1, ?Eo2; try done.
  - unfold O'. case_decide as E; [|done]. split_and!; try lia. unfold done_. rewrite En, decide_True by done. by apply Z.eqb_eq.
  - rewrite node_upd. case_decide; subst; [|apply P2]. unfold g. simpl. by rewrite length_insert.
  - rewrite node_upd. case_decide as E; [subst; simpl; by rewrite Htree|]. specialize (P3 n0). destruct (spanning_tree_ (nodes s n0)); [done|].
    destruct P3 as (A & B & C). split_and!; try done.
    + intros q. rewrite En, decide_False by tauto. apply A.
    + intros Hs. specialize (C Hs). congruence.
  - rewrite En. case_decide; [lia|apply P0].
  - intros Hn0 Hp0. simpl. rewrite app_nil_r, En.
    rewrite (lsum_ext (fun c => told O' (upd s n g []) c p0) (fun c => told (PCount n p) s c p0)) by (intros c _; apply Eto).
    specialize (P5 n0 p0 Hn0 Hp0). revert P5. case_decide as E; [destruct E as [-> ->]|]; pends; try lia; tauto.
  - intros Hn0 Hp0. specialize (P6 n0 p0 Hn0 Hp0). revert P6. rewrite En.
    case_decide as E; [destruct E as [-> ->]|]; pends; try lia; tauto.
  - intros Hc' Hp'. simpl. rewrite app_nil_r. specialize (P7 c p0 Hc' Hp'). revert P7. pends; lia.
  - intros Hp'. specialize (P8 p0 Hp'). revert P8. pends; lia.
  - simpl. rewrite app_nil_r. intros Hx. specialize (P9 x Hx). unfold msg_ok in *. destruct x.2; try done. by rewrite Ec.
Qed.

Lemma lsum_indicator (n : Z) l : NoDup l -> lsum (fun c => b2z (bool_decide (c = n))) l = b2z (bool_decide (n ∈ l)).
Proof.
  induction 1 as [|x l Hx _ IH]; [done|]. rewrite lsum_cons, IH.
  repeat case_bool_decide; subst; simpl; try done; try (exfalso; set_solver); lia.
Qed.

(** One node more has told its parent. *)
Lemma told_sum O O' s s' n p v q :
  (forall v q, told O' s' v q = told O s v q + b2z (bool_decide (v = n /\ q = p))) ->
  lsum (fun c => told O' s' c q) (kids v) = lsum (fun c => told O s c q) (kids v) + b2z (bool_decide (n ∈ kids v /\ q = p)).
Proof.
  intros H. rewrite (lsum_ext _ (fun c => told O s c q + b2z (bool_decide (c = n /\ q = p)))) by (intros c _; apply H).
  rewrite lsum_add. f_equal. destruct (decide (q = p)) as [->|Hq].
  - rewrite (lsum_ext _ (fun c => b2z (bool_decide (c = n)))).
    + rewrite lsum_indicator by apply Tree.children_NoDup. repeat case_bool_decide; tauto.
    + intros c _. repeat case_bool_decide; tauto.
  - rewrite lsum_0; [by rewrite bool_decide_false by tauto|]. intros c _. by rewrite bool_decide_false by tauto.
Qed.

Lemma told_up O' s s' n p :
  done_ s n p = true -> (forall v q, cnt s' v q = cnt s v q) -> (forall v q, O' <> PUp v q) ->
  forall v q, told O' s' v q = told (PUp n p) s v q + b2z (bool_decide (v = n /\ q = p)).
Proof.
  intros Hd En HO v q. unfold told, done_, is_pend. rewrite En, (bool_decide_false (O' = PUp v q)) by apply HO.
  repeat case_bool_decide; simplify_eq; simpl; try lia; try tauto.
  destruct H0. by simplify_eq.
Qed.

Lemma upd_same_cnt s n os v q : cnt (upd s n (nodes s n) os) v q = cnt s v q.
Proof. rewrite cnt_upd. case_decide; by subst. Qed.
Lemma upd_same_cur s n os v : cur (upd s n (nodes s n) os) v = cur s v.
Proof. rewrite cur_upd. case_decide; by subst. Qed.
Lemma upd_same_node s n os v : nodes (upd s n (nodes s n) os) v = nodes s v.
Proof. rewrite node_upd. case_decide; by subst. Qed.

(** The parent is told; the root has nobody to tell. *)
Lemma step_tell s n p O' os :
  Inv (PUp n p) s ->
  (n <> 0 /\ O' = NoPend /\ os = [SendSync (Tree.parentOf n) p]) \/
  (n = 0 /\ p = 2 /\ O' = NoPend /\ os = []) \/ (n = 0 /\ p <= 1 /\ O' = PPass 0 p /\ os = []) ->
  Inv O' (upd s n (nodes s n) os).
Proof.
  intros HI Hcase. destruct (iv_pend _ _ HI) as (Hn & Hp & Hd). set (s' := upd s n (nodes s n) os).
  assert (forall v, cur s' v = cur s v) as Ecur by apply upd_same_cur.
  assert (forall v q, cnt s' v q = cnt s v q) as Ecnt by apply upd_same_cnt.
  assert (forall v, nodes s' v = nodes s v) as Enode by apply upd_same_node.
  assert (forall v q, O' <> PUp v q) as HO by (intros v q; destruct Hcase as [(_ & -> & _)|[(_ & _ & -> & _)|(_ & _ & -> & _)]]; done).
  assert (forall v q, is_pend O' (PCount v q) = 0) as Eo1.
  { intros v q. destruct Hcase as [(_ & -> & _)|[(_ & _ & -> & _)|(_ & _ & -> & _)]]; by pends. }
  pose proof (told_up O' s s' n p Hd Ecnt HO) as Eto.
  assert (forall v q, local s' v q = local s v q) as El by (intros v q; unfold local; by rewrite Ecur).
  assert (forall v q, copies (v, Sync q) (net s') = copies (v, Sync q) (net s) + b2z (bool_decide (n <> 0 /\ v = Tree.parentOf n /\ q = p))) as Ecs.
  { intros v q. unfold s'. cbn [net upd]. rewrite copies_app.
    destruct Hcase as [(H0 & _ & ->)|[(H0 & _ & _ & ->)|(H0 & _ & _ & ->)]]; cbn; repeat case_bool_decide; simplify_eq; simpl; try lia; naive_solver. }
  assert (forall v q, copies (v, NewPhase q) (net s') = copies (v, NewPhase q) (net s)) as Ecn.
  { intros v q. unfold s'. cbn [net upd]. rewrite copies_app.
    destruct Hcase as [(_ & _ & ->)|[(_ & _ & _ & ->)|(_ & _ & _ & ->)]]; cbn; repeat case_bool_decide; simplify_eq; simpl; lia. }
  destruct HI as [P1 P2 P3 P4 P0 P5 P6 P7 P8 P9].
  split; intros *; rewrite ?Ecnt, ?Ecur, ?Enode, ?El, ?Eo1, ?Ecs, ?Ecn; try done.
  - destruct Hcase as [(_ & -> & _)|[(_ & _ & -> & _)|(_ & Hp1 & -> & _)]]; [done..|]. simpl. lia.
  - specialize (P3 n0). destruct (spanning_tree_ (nodes s n0)); [done|].
    destruct P3 as (A & B & C). split_and!; [intros q; by rewrite Ecnt|done|]. intros Hs. by specialize (C Hs).
  - intros Hn0 Hp0. rewrite (told_sum (PUp n p) O' s s' n p n0 p0 Eto). specialize (P5 n0 p0 Hn0 Hp0). revert P5.
    assert (n ∈ kids n0 <-> n <> 0 /\ n0 = Tree.parentOf n) as Hk.
    { rewrite Tree.elem_of_children by lia. split; [intros [? <-]; lia|intros [? ->]; lia]. }
    pends; try lia; exfalso; tauto.
  - intros Hn0 Hp0. specialize (P6 n0 p0 Hn0 Hp0). revert P6. by pends.
  - intros Hc Hp0. specialize (P7 c p0 Hc Hp0). revert P7.
    assert (is_pend O' (PPass c p0) = 0) as ->; [|by pends].
    destruct Hcase as [(_ & -> & _)|[(_ & _ & -> & _)|(_ & _ & -> & _)]]; pends; try done. lia.
  - intros Hp0. specialize (P8 p0 Hp0). revert P8. rewrite Eto. pose proof (told_range O' s' 0 p0) as Hr.
    pose proof (b2z_range (p0 <? cur s 0)).
    destruct Hcase as [(H0 & -> & _)|[(H0 & H2 & -> & _)|(H0 & H2 & -> & _)]]; pends; try lia; naive_solver.
  - cbn [net upd s']. rewrite elem_of_app. intros [Hx|Hx].
    + specialize (P9 x Hx). unfold msg_ok in *. destruct x.2; try done. by rewrite Ecur.
    + destruct Hcase as [(H0 & _ & ->)|[(_ & _ & _ & ->)|(_ & _ & _ & ->)]]; [|by apply elem_of_nil in Hx..].
      apply list_elem_of_singleton in Hx as ->. pose proof (Tree.parentOf_bounds n ltac:(lia)). unfold msg_ok. cbn. lia.
Qed.

(** A node told to enter the next phase has everyone in the one before. *)
Lemma pass_told s n p : Inv (PPass n p) s -> told (PPass n p) s 0 p = 1 /\ cur s n <= p.
Proof.
  intros HI. destruct (iv_pend _ _ HI) as [Hn Hp].
  pose proof (told_range (PPass n p) s 0 p (iv_pend _ _ HI)) as Hr. pose proof (iv_root _ _ HI p Hp) as E0.
  destruct (decide (n = 0)) as [->|Hn0].
  - revert E0. pends. pose proof (b2z_range (p <? cur s 0)). destruct (Z.ltb_spec p (cur s 0)); simpl; lia.
  - pose proof (iv_new _ _ HI n p ltac:(lia) Hp) as E. pose proof (copies_nonneg (n, NewPhase p) (net s)).
    revert E. pends. pose proof (b2z_range (p <? cur s (Tree.parentOf n))).
    destruct (Z.ltb_spec p (cur s n)); simpl; [lia|]. intros E. split; [|done].
    assert (p < cur s 0) as Hc.
    { pose proof (Tree.parentOf_bounds n ltac:(lia)). apply (cur_up (PPass n p) s p (Tree.parentOf n) HI Hp); [lia|].
      destruct (Z.ltb_spec p (cur s (Tree.parentOf n))); simpl in *; lia. }
    pose proof (is_pend_range (PPass n p) (PPass 0 p)). destruct (Z.ltb_spec p (cur s 0)); [|lia]. simpl in E0. lia.
Qed.

Lemma pass_facts s n p : Inv (PPass n p) s ->
  cur s n = p /\ spanning_tree_ (nodes s n) = Some (Tree.makeDefault n N).
Proof.
  intros HI. destruct (iv_pend _ _ HI) as [Hn Hp]. destruct (pass_told s n p HI) as [Ht Hle].
  destruct (told_all _ s p n HI ltac:(lia) Ht Hn) as [_ Hl]. split.
  - pose proof (iv_cur _ _ HI n). unfold local in Hl.
    destruct (Z.eqb_spec p 0); [lia|]. apply Z.leb_le in Hl. lia.
  - apply (tree_there (PPass n p)); [done|]. right. exists p.
    pose proof (iv_local _ _ HI n p Hn ltac:(lia)) as Hl'. revert Hl'. rewrite Hl. pends. lia.
Qed.

Lemma copies_news n p c q :
  copies (c, NewPhase q) (send n <$> ((fun c => SendNewPhase c p) <$> kids n)) = b2z (bool_decide (c ∈ kids n /\ q = p)).
Proof.
  assert (copies (c, NewPhase q) (send n <$> ((fun c => SendNewPhase c p) <$> kids n))
    = lsum (fun d => b2z (bool_decide (d = c /\ q = p))) (kids n)) as ->.
  { induction (kids n) as [|d l IH]; [done|]. rewrite !fmap_cons, lsum_cons, <- IH. unfold copies at 1. rewrite lsum_cons.
    fold (copies (c, NewPhase q) (send n <$> ((fun c => SendNewPhase c p) <$> l))). f_equal.
    repeat case_bool_decide; simpl in *; try done; naive_solver. }
  destruct (decide (q = p)) as [->|Hq].
  - rewrite (lsum_ext _ (fun d => b2z (bool_decide (d = c)))) by (intros d _; repeat case_bool_decide; tauto).
    rewrite lsum_indicator by apply Tree.children_NoDup. repeat case_bool_decide; tauto.
  - rewrite lsum_0; [by rewrite bool_decide_false by tauto|]. intros d _. by rewrite bool_decide_false by tauto.
Qed.

Lemma copies_syncs n p c q : copies (c, Sync q) (send n <$> ((fun c => SendNewPhase c p) <$> kids n)) = 0.
Proof.
  apply lsum_0. intros x Hx. apply list_elem_of_fmap in Hx as (o & -> & (d & -> & _)%list_elem_of_fmap).
  by rewrite bool_decide_false.
Qed.

(** The children are told of the new phase, and the node enters it. *)
Lemma step_pass s n p :
  Inv (PPass n p) s ->
  Inv (PCount n (p + 1)) (upd s n (with_phase (p + 1) (nodes s n)) ((fun c => SendNewPhase c p) <$> kids n)).
Proof.
  intros HI. destruct (pass_facts s n p HI) as [Hcur Htree]. destruct (iv_pend _ _ HI) as [Hn Hp].
  set (s' := upd s n _ _).
  assert (forall v, cur s' v = if decide (v = n) then p + 1 else cur s v) as Ecur by (intros v; unfold s'; by rewrite cur_upd).
  assert (forall v q, cnt s' v q = cnt s v q) as Ecnt by (intros v q; unfold s'; rewrite cnt_upd; case_decide; by subst).
  assert (forall v q, told (PCount n (p + 1)) s' v q = told (PPass n p) s v q) as Eto.
  { intros v q. unfold told, done_. rewrite Ecnt. by pends. }
  assert (forall v q, local s' v q = if decide (v = n /\ q = p + 1) then true else local s v q) as El.
  { intros v q. unfold local. rewrite Ecur. change (started s' v) with (started s v).
    destruct (decide (v = n)) as [->|]; [|by rewrite (decide_False (P := _ /\ _)) by tauto].
    destruct (Z.eqb_spec q 0); [by rewrite decide_False by lia|]. rewrite Hcur.
    case_decide; destruct (Z.leb_spec q (p + 1)), (Z.leb_spec q p); try done; lia. }
  assert (local s n (p + 1) = false) as Hln.
  { unfold local. rewrite Hcur. destruct (Z.eqb_spec (p + 1) 0), (Z.leb_spec (p + 1) p); lia || done. }
  assert (forall q, b2z (q <? p + 1) = b2z (q <? p) + b2z (bool_decide (q = p))) as Eq.
  { intros q. case_bool_decide; destruct (Z.ltb_spec q (p + 1)), (Z.ltb_spec q p); simpl; lia. }
  destruct HI as [P1 P2 P3 P4 P0 P5 P6 P7 P8 P9].
  split; intros *; rewrite ?Ecnt, ?El, ?Eto; try done.
  - split_and!; try lia. intros _. unfold s'. rewrite node_upd, decide_True by done. simpl. by rewrite Htree.
  - unfold s'. rewrite node_upd. case_decide; subst; apply P2.
  - unfold s'. rewrite node_upd. case_decide; [subst; simpl; by rewrite Htree|].
    specialize (P3 n0). destruct (spanning_tree_ (nodes s n0)); [done|].
    destruct P3 as (A & B & C). fold s'. rewrite Ecur, decide_False by done. split_and!; [intros q; by rewrite Ecnt|done|].
    intros Hs. specialize (C Hs). congruence.
  - rewrite Ecur. specialize (P4 n0). case_decide; lia.
  - intros Hn0 Hp0. specialize (P5 n0 p0 Hn0 Hp0). cbn [net s' upd]. rewrite copies_app, copies_syncs.
    rewrite (lsum_ext (fun c => told (PCount n (p + 1)) s' c p0) (fun c => told (PPass n p) s c p0)) by (intros c _; apply Eto).
    revert P5. case_decide as E; [destruct E as [-> ->]; rewrite Hln|]; pends; try lia; naive_solver.
  - intros Hn0 Hp0. specialize (P6 n0 p0 Hn0 Hp0). revert P6.
    case_decide as E; [destruct E as [-> ->]; rewrite Hln; specialize (P0 n (p + 1))|]; pends; try lia; naive_solver.
  - intros Hc Hp0. specialize (P7 c p0 Hc Hp0). cbn [net s' upd]. rewrite copies_app, copies_news, !Ecur.
    pose proof (Tree.parentOf_bounds c ltac:(lia)) as Hpb.
    assert (c ∈ kids n <-> Tree.parentOf c = n) as Hk by (rewrite Tree.elem_of_children by lia; naive_solver lia).
    revert P7. destruct (decide (c = n)) as [->|]; [rewrite decide_False by lia|case_decide]; rewrite ?Hcur, ?Eq; pends; try lia; naive_solver lia.
  - intros Hp0. specialize (P8 p0 Hp0). revert P8. rewrite Ecur. case_decide as E; [rewrite Eq, E, Hcur|]; pends; try lia; naive_solver lia.
  - cbn [net s' upd]. rewrite elem_of_app. intros [Hx|Hx].
    + specialize (P9 x Hx). unfold msg_ok in *. destruct x.2 as [| |from b]; try done. fold s'. rewrite Ecur. case_decide as E; [|done].
      rewrite E, Hcur in P9. lia.
    + apply list_elem_of_fmap in Hx as (o & -> & (d & -> & Hd)%list_elem_of_fmap). apply Tree.elem_of_children in Hd; [|lia].
      unfold msg_ok. cbn. lia.
Qed.

(** *** The handlers *)

Lemma run_tree {A} (f : Tree.Tree -> M A) g t : spanning_tree_ g = Some t -> (spanning_tree ≫= f) g = f t g.
Proof.
  intros H. unfold spanning_tree. unfold mbind at 1, eff_bind at 1. rewrite run_get, H. unfold mret, eff_ret.
  destruct (f t g) as [[[? ?] ?]|]; done.
Qed.

Lemma run_count {A} (f : Z -> M A) g p c : count_at p g = Some c -> (sync_count p ≫= f) g = f c g.
Proof.
  intros H. unfold sync_count. unfold mbind at 1, eff_bind at 1. rewrite run_get, H. unfold mret, eff_ret.
  destruct (f c g) as [[[? ?] ?]|]; done.
Qed.

Lemma send_news h n p g l : this_node g = n -> n ∉ l ->
  for_each l (sendPhaseMsg h SendNewPhase p) g = Ok (tt, g, (fun c => SendNewPhase c p) <$> l).
Proof.
  intros Hg. induction l as [|c l IH]; intros Hn; [done|]. cbn [for_each]. rewrite fmap_cons.
  assert (sendPhaseMsg h SendNewPhase p c g = Ok (tt, g, [SendNewPhase c p])) as E.
  { unfold sendPhaseMsg. rewrite run_get, Hg. destruct (Z.eqb_spec n c); [|done]. subst. set_solver. }
  rewrite (run_step _ _ _ _ _ _ E), IH; [done|set_solver].
Qed.

Definition phase_only (os : list output) : Prop :=
  Forall (fun o => match o with SendBytes _ _ => False | _ => True end) os.

(** The handler returns, and nothing is left to do. *)
Definition finishes (s : Sys) (n : Z) (run : res (unit * DefaultGroup * list output)) : Prop :=
  exists g os, run = Ok (tt, g, os) /\ Inv NoPend (upd s n g os) /\ phase_only os.

Lemma not_own_child n : 0 <= n -> n ∉ kids n.
Proof. intros Hn H. apply Tree.elem_of_children in H as [? Hp]; [|done]. pose proof (Tree.parentOf_bounds n). lia. Qed.

Lemma upd_node s n g os : nodes (upd s n g os) n = g.
Proof. by rewrite node_upd, decide_True. Qed.

Lemma Inv_same O s n : Inv O s -> Inv O (upd s n (nodes s n) []).
Proof. apply default_Inv_ext; try done; [apply upd_same_node|simpl; by rewrite app_nil_r]. Qed.

Lemma sendUp_finishes h1 h2 s n p :
  0 <= n < N -> 0 <= p <= 2 -> spanning_tree_ (nodes s n) = Some (Tree.makeDefault n N) ->
  Inv (if decide (cnt s n p = nkids n + 1) then PUp n p else NoPend) s ->
  (Inv (PPass n p) s -> p < num_phases -> finishes s n (h2 p (nodes s n))) ->
  finishes s n (sendUpTree h1 h2 p (nodes s n)).
Proof.
  intros Hn Hp Ht HI H2. destruct (iv_node _ _ HI n) as (N1 & N2 & N3).
  pose proof (count_at_lookup (nodes s n) p Hp N3) as Hc. fold (cnt s n p) in Hc.
  unfold sendUpTree. rewrite (run_tree _ _ _ Ht), (run_count _ _ _ _ Hc), Tree.numChildren_length. fold (nkids n).
  destruct (Z.eqb_spec (cnt s n p) (nkids n + 1)) as [E|E].
  2: { rewrite decide_False in HI by done. exists (nodes s n), []. split; [done|]. split; [by apply Inv_same|constructor]. }
  rewrite decide_True in HI by done.
  assert (Tree.isRoot (Tree.makeDefault n N) = (n =? 0)) as -> by (unfold Tree.isRoot; simpl; by destruct (n =? 0)).
  destruct (Z.eqb_spec n 0) as [->|Hn0]; cbn [negb].
  - destruct (Z.ltb_spec p num_phases) as [Hlt|Hge]; unfold num_phases in *.
    + apply H2; [|done]. apply (default_Inv_ext _ (upd s 0 (nodes s 0) [])); try done.
      * intros v. by rewrite upd_same_node.
      * simpl. by rewrite app_nil_r.
      * apply (step_tell s 0 p); [done|]. right. right. split_and!; done || lia.
    + exists (nodes s 0), []. split; [done|]. split; [|constructor].
      apply (step_tell s 0 p); [done|]. right. left. split_and!; done || lia.
  - exists (nodes s n), [SendSync (Tree.parentOf n) p]. split; [|split; [|by repeat constructor]].
    + unfold sendPhaseMsg. rewrite run_get, N1, Tree.makeDefault_parent by lia.
      pose proof (Tree.parentOf_bounds n ltac:(lia)). destruct (Z.eqb_spec n (Tree.parentOf n)); [lia|done].
    + apply (step_tell s n p); [done|]. by left.
Qed.

(** What the rest of a handler does from the state after its first part. *)
Lemma finishes_then s n g os (run : M unit) :
  phase_only os -> finishes (upd s n g os) n (run (nodes (upd s n g os) n)) ->
  finishes s n (match run g with Ok (a, g', o2) => Ok (a, g', os ++ o2) | Stop e => Stop e end).
Proof.
  intros Hph (g2 & o2 & E & HI & Hph2). rewrite upd_node in E. rewrite E. exists g2, (os ++ o2).
  split; [done|]. split; [by apply (Inv_upd_upd NoPend s n g os)|by apply Forall_app].
Qed.

Lemma handlers_finish fuel :
  (forall s n p, Inv (PCount n p) s -> 2 * (3 - p) <= Z.of_nat fuel -> finishes s n (localSync fuel p (nodes s n))) /\
  (forall s n p, Inv (PPass n p) s -> 2 * (3 - p) <= Z.of_nat fuel + 1 -> finishes s n (newPhaseSendChildren fuel p (nodes s n))).
Proof.
  induction fuel as [|fuel [IH1 IH2]]; (split; intros s n p HI Hf; destruct (iv_pend _ _ HI) as (Hn & Hp)); try lia.
  - cbn [localSync]. destruct Hp as [Hp Hp'].
    destruct (step_build s n p HI) as (g1 & E1 & HI1 & Ht1 & _). rewrite (run_step _ _ _ _ _ _ E1).
    apply (finishes_then s n g1 []); [constructor|]. set (s1 := upd s n g1 []) in *.
    destruct (count_kept s1 n p HI1) as (g2 & E2 & Ec2 & Ht2 & HI2); [unfold s1; by rewrite upd_node|].
    rewrite (run_step _ _ _ _ _ _ E2). apply (finishes_then s1 n g2 []); [constructor|].
    apply sendUp_finishes; try done; [by rewrite upd_node|by rewrite Ec2|].
    intros HIp Hlt. apply IH2; [done|]. unfold num_phases in Hlt. lia.
  - cbn [newPhaseSendChildren]. unfold newPhaseSendChildrenWith. destruct (pass_facts s n p HI) as [Hcur Htree].
    rewrite (run_tree _ _ _ Htree), Tree.makeDefault_children, Tree.numChildren_length.
    destruct (iv_node _ _ HI n) as (N1 & _).
    assert ((if 0 <? Z.of_nat (length (kids n)) then
        for_each (kids n) (sendPhaseMsg (newPhaseSendChildren fuel) SendNewPhase p) else nop) (nodes s n)
      = Ok (tt, nodes s n, (fun c => SendNewPhase c p) <$> kids n)) as E.
    { pose proof (send_news (newPhaseSendChildren fuel) n p (nodes s n) (kids n) N1 (not_own_child n ltac:(lia))) as E.
      destruct (Z.ltb_spec 0 (Z.of_nat (length (kids n)))); [done|]. destruct (kids n); [done|simpl in *; lia]. }
    rewrite (run_step _ _ _ _ _ _ E). unfold newPhase. rewrite run_get.
    rewrite run_assert by (by apply Z.eqb_eq). rewrite run_modify.
    assert (wrap PhaseType (p + 1) = p + 1) as ->.
    { apply wrap_id; [unfold ity_ok; simpl; lia|unfold in_ty, tmin, tmax; simpl; lia]. }
    apply (finishes_then s n (with_phase (p + 1) (nodes s n)) _ (localSync fuel (p + 1))).
    + apply Forall_fmap, Forall_forall. done.
    + apply IH1; [by apply step_pass|lia].
Qed.

(** *** Messages and starts *)

Lemma copies_take x k l y : l !! k = Some y -> copies x l = copies x (take_out k l) + b2z (bool_decide (y = x)).
Proof.
  intros Hk. unfold copies. rewrite (lsum_perm _ _ _ (take_out_perm k l y Hk)), lsum_cons. lia.
Qed.

Lemma copies_elem x l : x ∈ l -> 1 <= copies x l.
Proof.
  intros Hx. pose proof (lsum_elem_le (fun y => b2z (bool_decide (y = x))) l x) as H. cbv beta in H.
  rewrite (bool_decide_eq_true_2 (x = x)) in H by done. apply H; [|done]. intros y _. apply b2z_range.
Qed.

(** A message of a later phase finds everyone started. *)
Lemma sync_tree s n p : Inv NoPend s -> (n, Sync p) ∈ net s -> 1 <= p ->
  spanning_tree_ (nodes s n) <> None.
Proof.
  intros HI Hin Hp1. destruct (iv_msgs _ _ HI _ Hin) as [Hn Hp]. cbn [fst] in Hn.
  pose proof (iv_sync _ _ HI n p Hn Hp) as E. pose proof (copies_elem _ _ Hin). pose proof (iv_local _ _ HI n p Hn Hp) as Hl.
  assert (0 < lsum (fun c => told NoPend s c p) (kids n)) as Hpos by (revert E Hl; pends; lia).
  apply lsum_pos in Hpos as (c & Hc & Ht). apply Tree.elem_of_children in Hc as [Hc _]; [|lia].
  pose proof (told_range NoPend s c p I) as Hr. assert (told NoPend s c p = 1) as Ht1 by lia.
  apply told_done in Ht1; [|done]. destruct (told_below NoPend s c p HI ltac:(lia) Hp Ht1) as [Hlc _].
  unfold local in Hlc. destruct (Z.eqb_spec p 0); [lia|]. apply Z.leb_le in Hlc.
  pose proof (phases_together NoPend s (p - 1) c n HI ltac:(lia) ltac:(lia) ltac:(lia) Hn) as Hln.
  intros Htree. pose proof (iv_tree _ _ HI n) as HT. rewrite Htree in HT. destruct HT as (_ & H0 & Hs).
  unfold local in Hln. destruct (Z.eqb_spec (p - 1) 0); [by specialize (Hs Hln)|]. apply Z.leb_le in Hln. lia.
Qed.

Lemma told_no_pend O s s' v q : (forall w, O <> PUp w q) -> (forall v q, cnt s' v q = cnt s v q) -> told O s' v q = told NoPend s v q.
Proof. intros HO En. unfold told, done_, is_pend. rewrite En, !bool_decide_false; [done|done|apply HO]. Qed.

Lemma take_sync s k n p :
  Inv NoPend s -> net s !! k = Some (n, Sync p) -> Inv (PCount n p) (with_net (take_out k (net s)) s).
Proof.
  intros HI Hk. pose proof (list_elem_of_lookup_2 _ _ _ Hk) as Hin. pose proof (sync_tree s n p HI Hin) as Htree.
  destruct (iv_msgs _ _ HI _ Hin) as [Hn Hp]. cbn [fst] in Hn. set (s' := with_net _ s).
  assert (forall v q, told (PCount n p) s' v q = told NoPend s v q) as Eto by (intros v q; by apply told_no_pend).
  destruct HI as [P1 P2 P3 P4 P0 P5 P6 P7 P8 P9]. split; intros *; rewrite ?Eto; try done.
  - apply P2.
  - specialize (P3 n0). change (nodes s' n0) with (nodes s n0). destruct (spanning_tree_ (nodes s n0)); [done|].
    destruct P3 as (A & B & C). split_and!; [done|done|]. intros Hs. by specialize (C Hs).
  - apply P4.
  - apply P0.
  - intros Hn0 Hp0. specialize (P5 n0 p0 Hn0 Hp0). rewrite (copies_take _ k _ _ Hk) in P5.
    rewrite (lsum_ext (fun c => told (PCount n p) s' c p0) (fun c => told NoPend s c p0)) by (intros c _; apply Eto).
    change (net s') with (take_out k (net s)). change (cnt s' n0 p0) with (cnt s n0 p0). change (local s' n0 p0) with (local s n0 p0).
    revert P5. pends; try lia; naive_solver.
  - intros Hn0 Hp0. specialize (P6 n0 p0 Hn0 Hp0). change (cnt s' n0 p0) with (cnt s n0 p0). change (local s' n0 p0) with (local s n0 p0).
    revert P6. pends; lia.
  - intros Hc Hp0. specialize (P7 c p0 Hc Hp0). rewrite (copies_take _ k _ _ Hk) in P7. revert P7.
    change (net s') with (take_out k (net s)). change (cur s' c) with (cur s c). change (cur s' (Tree.parentOf c)) with (cur s (Tree.parentOf c)).
    pends; lia.
  - intros Hp0. specialize (P8 p0 Hp0). revert P8. change (cur s' 0) with (cur s 0). pends; lia.
  - intros Hx. apply P9. rewrite (take_out_perm k _ _ Hk). by right.
Qed.

Lemma take_new s k n p :
  Inv NoPend s -> net s !! k = Some (n, NewPhase p) -> Inv (PPass n p) (with_net (take_out k (net s)) s).
Proof.
  intros HI Hk. pose proof (list_elem_of_lookup_2 _ _ _ Hk) as Hin.
  destruct (iv_msgs _ _ HI _ Hin) as [Hn Hp]. cbn [fst] in Hn. set (s' := with_net _ s).
  assert (forall v q, told (PPass n p) s' v q = told NoPend s v q) as Eto by (intros v q; by apply told_no_pend).
  destruct HI as [P1 P2 P3 P4 P0 P5 P6 P7 P8 P9]. split; intros *; rewrite ?Eto; try done.
  - split; lia.
  - apply P2.
  - specialize (P3 n0). change (nodes s' n0) with (nodes s n0). destruct (spanning_tree_ (nodes s n0)); [done|].
    destruct P3 as (A & B & C). split_and!; [done|done|]. intros Hs. by specialize (C Hs).
  - apply P4.
  - apply P0.
  - intros Hn0 Hp0. specialize (P5 n0 p0 Hn0 Hp0). rewrite (copies_take _ k _ _ Hk) in P5.
    rewrite (lsum_ext (fun c => told (PPass n p) s' c p0) (fun c => told NoPend s c p0)) by (intros c _; apply Eto).
    change (net s') with (take_out k (net s)). change (cnt s' n0 p0) with (cnt s n0 p0). change (local s' n0 p0) with (local s n0 p0).
    revert P5. pends; lia.
  - intros Hn0 Hp0. specialize (P6 n0 p0 Hn0 Hp0). change (cnt s' n0 p0) with (cnt s n0 p0). change (local s' n0 p0) with (local s n0 p0).
    revert P6. pends; lia.
  - intros Hc Hp0. specialize (P7 c p0 Hc Hp0). rewrite (copies_take _ k _ _ Hk) in P7. revert P7.
    change (net s') with (take_out k (net s)). change (cur s' c) with (cur s c). change (cur s' (Tree.parentOf c)) with (cur s (Tree.parentOf c)).
    pends; try lia; naive_solver.
  - intros Hp0. specialize (P8 p0 Hp0). revert P8. change (cur s' 0) with (cur s 0). pends; try lia.
  - intros Hx. apply P9. rewrite (take_out_perm k _ _ Hk). by right.
Qed.

Lemma take_bytes s k n from b :
  Inv NoPend s -> net s !! k = Some (n, Bytes from b) -> Inv NoPend (with_net (take_out k (net s)) s).
Proof.
  intros [P1 P2 P3 P4 P0 P5 P6 P7 P8 P9] Hk.
  assert (forall x, (forall f b, x.2 <> Bytes f b) -> copies x (take_out k (net s)) = copies x (net s)) as Ec.
  { intros x Hx. rewrite (copies_take x k (net s) _ Hk), bool_decide_false; [simpl; lia|]. intros <-. by eapply Hx. }
  split; try done.
  - intros v p Hv Hp. simpl. rewrite Ec by done. by apply P5.
  - intros v p Hv Hp. simpl. rewrite Ec by done. by apply P7.
  - intros x Hx. apply P9. rewrite (take_out_perm k _ _ Hk). by right.
Qed.

Lemma start_counts s n : Inv NoPend s -> 0 <= n < N -> started s n = false -> Inv (PCount n 0) (start n s).
Proof.
  intros HI Hn Hst. set (s' := start n s).
  assert (forall v q, told (PCount n 0) s' v q = told NoPend s v q) as Eto by (intros v q; by apply told_no_pend).
  assert (forall v q, local s' v q = if decide (v = n /\ q = 0) then true else local s v q) as El.
  { intros v q. unfold local. change (cur s' v) with (cur s v). destruct (Z.eqb_spec q 0) as [->|]; [|by rewrite decide_False by naive_solver].
    change (started s' v) with (<[n := true]> (started s) v).
    destruct (decide (v = n)) as [->|]; [by rewrite fn_lookup_insert, decide_True|by rewrite fn_lookup_insert_ne, decide_False by naive_solver]. }
  assert (local s n 0 = false) as Hl by done.
  destruct HI as [P1 P2 P3 P4 P0 P5 P6 P7 P8 P9]. split; intros *; rewrite ?Eto, ?El; try done.
  - apply P2.
  - specialize (P3 n0). change (nodes s' n0) with (nodes s n0). destruct (spanning_tree_ (nodes s n0)); [done|].
    destruct P3 as (A & B & C). split_and!; [done|done|]. simpl. destruct (decide (n0 = n)) as [->|]; [done|].
    rewrite fn_lookup_insert_ne by done. intros Hs. by specialize (C Hs).
  - apply P4.
  - apply P0.
  - intros Hn0 Hp0. specialize (P5 n0 p Hn0 Hp0).
    rewrite (lsum_ext (fun c => told (PCount n 0) s' c p) (fun c => told NoPend s c p)) by (intros c _; apply Eto).
    change (net s') with (net s). change (cnt s' n0 p) with (cnt s n0 p).
    revert P5. case_decide as E; [destruct E as [-> ->]; rewrite Hl|]; pends; try lia; naive_solver.
  - intros Hn0 Hp0. specialize (P6 n0 p Hn0 Hp0). change (cnt s' n0 p) with (cnt s n0 p).
    revert P6. pose proof (P0 n0 p). case_decide as E; [destruct E as [-> ->]; rewrite Hl|]; pends; try lia; naive_solver.
  - intros Hc Hp0. specialize (P7 c p Hc Hp0). revert P7.
    change (net s') with (net s). change (cur s' c) with (cur s c). change (cur s' (Tree.parentOf c)) with (cur s (Tree.parentOf c)).
    pends; lia.
  - intros Hp0. specialize (P8 p Hp0). revert P8. change (cur s' 0) with (cur s 0). pends; lia.
  - apply P9.
Qed.

End system.
End DefaultFacts.
