(* ===== verification/GroupDefaultSpec.v ===== *)
(** * Broadcasts to all nodes, and what the default group promises

    What a broadcast message still reaches ([share]) and what has been delivered are
    together what is owed ([step_event]); the properties of start-up and of broadcasts. *)

From S2P Require Import Prelude.
From S2P Require Import Sums.
From S2P Require Import Effects.
From S2P Require Import Ids.
From S2P Require Import Tree.

From S2P Require Import GroupDefault.
From S2P Require Import GroupDefaultFacts.

Module DefaultSteps.
Import DefaultGroup DefaultSystem DefaultFacts.

Section system.
Context (N : Z).

Abbreviation kids := (Tree.getChildrenOf N).
Abbreviation nkids := (DefaultFacts.nkids N).
Abbreviation told := (DefaultFacts.told N).
Abbreviation msg_ok := (DefaultFacts.msg_ok N).
Abbreviation Inv := (DefaultFacts.Inv N).
Abbreviation finishes := (DefaultFacts.finishes N).

Hypothesis HN : 0 < N <= 2 ^ 15.

(** ** Broadcasts *)

Definition targets (n : Z) (root : bool) (b : BcastMsg) : list Z :=
  filter (fun c => c <> b_dest b) (kids n) ++ (if root && negb (n =? 0) then [0] else []).

Lemma emit_all (b : BcastMsg) l (g : DefaultGroup) :
  for_each l (fun child => if negb (child =? b_dest b) then emit (SendBytes child b) else nop) g
  = Ok (tt, g, (fun c => SendBytes c b) <$> filter (fun c => c <> b_dest b) l).
Proof.
  induction l as [|c l IH]; [done|]. cbn [for_each]. rewrite filter_cons.
  assert ((if negb (c =? b_dest b) then emit (SendBytes c b) else nop) g
    = Ok (tt, g, if decide (c <> b_dest b) then [SendBytes c b] else [])) as E.
  { destruct (Z.eqb_spec c (b_dest b)); [by rewrite decide_False by tauto|by rewrite decide_True]. }
  rewrite (run_step _ _ _ _ _ _ E), IH. by case_decide.
Qed.

Lemma broadcast_run (g : DefaultGroup) n from (root : bool) (b : BcastMsg) :
  this_node g = n -> 0 <= n < N -> spanning_tree_ g = Some (Tree.makeDefault n N) ->
  (if root then from = uninitialized_destination else n <> b_dest b) ->
  groupHandler b from root g = Ok (if root then b_deliver b else true, g, (fun c => SendBytes c b) <$> targets n root b).
Proof.
  intros Hg Hn Ht Hf. unfold groupHandler, broadcast. rewrite (run_tree _ _ _ Ht), run_get, Hg.
  rewrite Tree.makeDefault_children, Tree.numChildren_length. fold (nkids n).
  assert (negb (b_dest b =? n) || (from =? uninitialized_destination) = true) as ->.
  { destruct root; [subst from; rewrite Z.eqb_refl; apply orb_true_r|]. destruct (Z.eqb_spec (b_dest b) n); [congruence|done]. }
  rewrite andb_true_r. replace (if root then b_deliver b else negb root) with (if root then b_deliver b else true) by (by destruct root).
  assert (kids n = [] \/ 0 < nkids n) as Hk by (unfold nkids; destruct (kids n); simpl; [by left|right; lia]).
  unfold targets. destruct Hk as [Hk|Hk].
  - unfold nkids. rewrite Hk. destruct (root && negb (n =? 0)); done.
  - destruct (Z.ltb_spec 0 (nkids n)); [|lia]. cbn [orb].
    set (root_send := if root && negb (n =? 0) then emit (SendBytes 0 b) else nop).
    assert (root_send g = Ok (tt, g, (fun c => SendBytes c b) <$> (if root && negb (n =? 0) then [0] else []))) as Er
      by (unfold root_send; by destruct (root && negb (n =? 0))).
    erewrite run_step; [|erewrite run_step; [|apply emit_all]; rewrite Er; reflexivity].
    unfold mret, eff_ret. by rewrite app_nil_r, fmap_app.
Qed.

(** *** What is below a node *)

(** Whether [m] is at or below [y]. *)
Definition below (y m : Z) : Z := b2z (bool_decide (m ∈ Tree.preorder (Z.to_nat N) N y)).

Lemma below_within y m : 0 <= y < N -> m < N -> below y m = 1 <-> Tree.within y m.
Proof.
  intros Hy Hm. unfold below. pose proof (Tree.elem_of_preorder (Z.to_nat N) N y m) as H.
  destruct (bool_decide_reflect (m ∈ Tree.preorder (Z.to_nat N) N y)) as [E|E]; simpl.
  - split; [intros _|done]. apply H in E as [_ E]; [done|]. unfold Tree.enough. lia.
  - split; [lia|]. intros W. destruct E. apply H; [unfold Tree.enough; lia|done].
Qed.

Lemma below_range y m : 0 <= below y m <= 1.
Proof. apply b2z_range. Qed.

Lemma below_step y m : 0 <= y < N -> 0 <= m < N ->
  below y m = b2z (bool_decide (m = y)) + lsum (fun c => below c m) (kids y).
Proof.
  intros Hy Hm.
  assert (forall c, c ∈ kids y -> 0 <= c < N /\ y < c) as Hkid.
  { intros c Hc. apply Tree.elem_of_children in Hc as [Hc Hp]; [|lia]. pose proof (Tree.parentOf_bounds c). lia. }
  assert (forall c, c ∈ kids y -> ~ Tree.within c m -> below c m = 0) as Hno.
  { intros c Hc Hw. pose proof (below_range c m). destruct (decide (below c m = 1)) as [E|]; [|lia].
    apply below_within in E; [done|by apply Hkid|lia]. }
  case_bool_decide as E; simpl.
  - subst. rewrite lsum_0; [by apply below_within; [done|lia|left]|]. intros c Hc. apply Hno; [done|].
    destruct (Hkid c Hc). intros [->|?%Tree.ancestor_lt]; lia.
  - destruct (decide (below y m = 1)) as [Hw|Hw].
    + rewrite Hw. apply below_within in Hw; [|lia..].
      assert (m ∈ Tree.preorder (S (Z.to_nat N)) N y) as Hp by (apply Tree.elem_of_preorder; [unfold Tree.enough; lia|split; [lia|done]]).
      simpl in Hp. apply elem_of_cons in Hp as [->|Hp]; [done|].
      apply list_elem_of_In, in_flat_map in Hp as (d & Hd%list_elem_of_In & Hm'%list_elem_of_In).
      assert (Tree.within d m) as Hdm by (apply Tree.elem_of_preorder in Hm' as [_ ?]; [done|destruct (Hkid d Hd); unfold Tree.enough; lia]).
      rewrite (lsum_one _ _ d); [|apply Tree.children_NoDup|done|].
      * symmetry. apply below_within; [by apply Hkid|lia|done].
      * intros c Hc Hcd. apply Hno; [done|]. intros Hcm. apply Hcd. eapply Tree.siblings_disjoint; [|exact Hc|exact Hd|done|done]. lia.
    + rewrite lsum_0; [pose proof (below_range y m); lia|]. intros c Hc. apply Hno; [done|]. intros Hcm.
      apply Hw, below_within; [done|lia|]. right. apply Tree.elem_of_children in Hc as [Hc <-]; [|lia].
      assert (Tree.ancestor (Tree.parentOf c) c) by (constructor; lia).
      destruct Hcm as [<-|Hcm]; [done|by eapply Tree.ancestor_trans].
Qed.

(** What a message to [y] still reaches: the nodes below [y], without those below the node
    [x] the broadcast comes from. *)
Definition share (x y m : Z) : Z := below y m - below y x * below x m.

Lemma share_range x y m : 0 <= x < N -> 0 <= y < N -> 0 <= m < N -> 0 <= share x y m <= 1.
Proof.
  intros Hx Hy Hm. unfold share. pose proof (below_range y m). pose proof (below_range x m). pose proof (below_range y x).
  destruct (decide (below y x = 1)) as [E1|]; [|nia]. destruct (decide (below x m = 1)) as [E2|]; [|nia].
  assert (below y m = 1) by (apply below_within; [lia..|]; apply below_within in E1; [|lia..]; apply below_within in E2; [|lia..];
    destruct E1 as [->|E1]; [done|]; destruct E2 as [<-|E2]; [by right|]; right; by eapply Tree.ancestor_trans). nia.
Qed.

Lemma share_step x y m : 0 <= x < N -> 0 <= y < N -> 0 <= m < N ->
  lsum (fun c => share x c m) (filter (fun c => c <> x) (kids y))
  = (if decide (x = y) then below x m - b2z (bool_decide (m = x)) else share x y m - b2z (bool_decide (m = y))).
Proof.
  intros Hx Hy Hm.
  assert (below x x = 1) as Exx by (apply below_within; [done|lia|by left]).
  rewrite lsum_filter.
  2: { intros c Hc. destruct (decide (c = x)) as [->|]; [|tauto]. unfold share. rewrite Exx. lia. }
  assert (forall l, lsum (fun c => share x c m) l = lsum (fun c => below c m) l - lsum (fun c => below c x) l * below x m) as E.
  { intros l. unfold share. induction l as [|c l IH]; [done|]. rewrite !lsum_cons, IH. lia. }
  rewrite E. pose proof (below_step y m Hy Hm) as E1. pose proof (below_step y x Hy Hx) as E2.
  destruct (decide (x = y)) as [Hxy|Hxy].
  - subst y. rewrite Exx, bool_decide_eq_true_2 in E2 by done. simpl in E2. lia.
  - rewrite (bool_decide_eq_false_2 (x = y)) in E2 by done. simpl in E2. unfold share. rewrite E2. lia.
Qed.

(** ** Steps *)

Lemma root_below m : 0 <= m < N -> below 0 m = 1.
Proof.
  intros Hm. apply below_within; [lia..|]. destruct (decide (m = 0)) as [->|]; [by left|]. right. apply Tree.root_ancestor. lia.
Qed.

(** What the messages [l] still bring node [m] of the broadcast [b]. *)
Definition brings (b : BcastMsg) (m : Z) (x : Z * msg) : Z :=
  match x.2 with Bytes _ b' => if decide (b' = b) then share (b_dest b) x.1 m else 0 | _ => 0 end.
Definition coming (b : BcastMsg) (m : Z) (l : list (Z * msg)) : Z := lsum (brings b m) l.

(** The copies of [b] the node [m] has been given. *)
Definition got (b : BcastMsg) (m : Z) (s : Sys) : Z := lsum (fun y => b2z (bool_decide (y = (m, b)))) (delivered s).

Definition total (b : BcastMsg) (m : Z) (s : Sys) : Z := got b m s + coming b m (net s).

Lemma coming_phase b m n os : phase_only os -> coming b m (send n <$> os) = 0.
Proof.
  intros H. apply lsum_0. intros x Hx. apply list_elem_of_fmap in Hx as (o & -> & Ho).
  apply (proj1 (Forall_forall _ _) H) in Ho. destruct o; done.
Qed.

Lemma coming_bytes b b' m n l :
  coming b m (send n <$> ((fun c => SendBytes c b') <$> l)) = if decide (b' = b) then lsum (fun c => share (b_dest b) c m) l else 0.
Proof.
  unfold coming. induction l as [|c l IH]; [by case_decide|]. rewrite !fmap_cons, lsum_cons, IH.
  unfold brings. cbn [send fst snd]. destruct (decide (b' = b)); [by rewrite lsum_cons|done].
Qed.

Lemma coming_app b m l1 l2 : coming b m (l1 ++ l2) = coming b m l1 + coming b m l2.
Proof. apply lsum_app. Qed.

Lemma coming_take b m k l y : l !! k = Some y -> coming b m l = coming b m (take_out k l) + brings b m y.
Proof. intros Hk. unfold coming. rewrite (lsum_perm _ _ _ (take_out_perm k l y Hk)), lsum_cons. lia. Qed.

Lemma got_deliver b m here n b' s :
  got b m (deliver here n b' s) = got b m s + b2z here * b2z (bool_decide (m = n)) * b2z (bool_decide (b' = b)).
Proof.
  unfold got. destruct here; cbn [deliver delivered b2z]; [|lia]. rewrite lsum_app, lsum_cons, lsum_nil.
  assert (b2z (bool_decide ((n, b') = (m, b))) = b2z (bool_decide (m = n)) * b2z (bool_decide (b' = b))) as ->; [|lia].
  repeat case_bool_decide; simplify_eq; done.
Qed.

(** The broadcasts of [b] among the events, and what each gives the node [m]. *)
Definition makes (b : BcastMsg) (e : event) : Z :=
  b2z (bool_decide (e = Broadcast (b_dest b) (b_deliver b) (b_id b))).
Definition owed (b : BcastMsg) (m : Z) : Z := b2z (b_deliver b || negb (m =? b_dest b)).

Lemma finishes_perform s n (op : M unit) b m :
  finishes s n (op (nodes s n)) ->
  exists s', snd <$> perform n op s = Ok s' /\ Inv NoPend s' /\ total b m s' = total b m s.
Proof.
  intros (g & os & E & HI & Hph). exists (upd s n g os). unfold perform. rewrite E. split_and!; [done|done|].
  unfold total, got. cbn [upd net delivered]. rewrite coming_app, (coming_phase b m n os Hph). lia.
Qed.

Lemma deliver_Inv here n b s : Inv NoPend s -> Inv NoPend (deliver here n b s).
Proof. by apply default_Inv_ext. Qed.

Lemma bytes_sent s n b l :
  Inv NoPend s -> (forall c, c ∈ l -> msg_ok s (c, Bytes n b)) ->
  Inv NoPend (upd s n (nodes s n) ((fun c => SendBytes c b) <$> l)).
Proof.
  intros HI Hl. pose proof (Inv_same N NoPend s n HI) as HI0. set (s1 := upd s n (nodes s n) []) in HI0.
  set (out := send n <$> ((fun c => SendBytes c b) <$> l)).
  assert (forall x, x ∈ out -> exists c, x = (c, Bytes n b) /\ c ∈ l) as Ho.
  { intros x Hx. apply list_elem_of_fmap in Hx as (o & -> & Ho). apply list_elem_of_fmap in Ho as (c & -> & Hc). by exists c. }
  assert (forall x, (forall f b, x.2 <> Bytes f b) -> copies x (net s ++ out) = copies x (net s1)) as Ec.
  { intros x Hx. simpl. rewrite app_nil_r, copies_app. unfold copies at 2. rewrite (lsum_0 _ out); [lia|].
    intros y (c & -> & _)%Ho. rewrite bool_decide_false; [done|]. intros <-. by eapply Hx. }
  destruct HI0 as [P1 P2 P3 P4 P0 P5 P6 P7 P8 P9]. split; try done.
  - intros v p Hv Hp. simpl. rewrite Ec by done. by apply P5.
  - intros v p Hv Hp. simpl. rewrite Ec by done. by apply P7.
  - intros x Hx. simpl in Hx. apply elem_of_app in Hx as [Hx|Hx]; [apply (P9 x); simpl; by rewrite app_nil_r|].
    apply Ho in Hx as (c & -> & Hc). specialize (Hl c Hc). unfold msg_ok in *. simpl in *. 
    replace (cur _ (b_dest b)) with (cur s (b_dest b)); [done|]. unfold cur. rewrite node_upd. case_decide; congruence.
Qed.

(** Passing a broadcast on. *)
Lemma pass_on s n from (root : bool) b b0 m :
  Inv NoPend s -> 0 <= n < N -> 0 <= b_dest b < N -> 0 <= m < N -> cur s (b_dest b) = 2 ->
  (if root then from = uninitialized_destination /\ n = b_dest b else n <> b_dest b) ->
  exists s', ('(here, s) ← perform n (groupHandler b from root) s; Ok (deliver here n b s)) = Ok s' /\ Inv NoPend s' /\
    total b0 m s' = total b0 m s
      + (if decide (b = b0) then (if root then owed b m else share (b_dest b) n m) else 0).
Proof.
  intros HI Hn Hd Hm Hcur Hroot. destruct (iv_node _ _ _ HI n) as (N1 & _).
  assert (spanning_tree_ (nodes s n) = Some (Tree.makeDefault n N)) as Ht.
  { pose proof (phases_together N NoPend s 1 (b_dest b) n HI ltac:(lia) Hd ltac:(lia) Hn) as Hl.
    unfold local in Hl. simpl in Hl. apply Z.leb_le in Hl. pose proof (iv_tree _ _ _ HI n) as T.
    destruct (spanning_tree_ (nodes s n)); [by subst|]. lia. }
  assert (groupHandler b from root (nodes s n) = Ok (if root then b_deliver b else true, nodes s n,
    (fun c => SendBytes c b) <$> targets n root b)) as E.
  { apply broadcast_run; [done|done|done|]. destruct root; tauto. }
  unfold perform. rewrite E. eexists. split; [reflexivity|]. set (s1 := MkSys _ _ _ _).
  assert (Inv NoPend s1) as HI1.
  { apply bytes_sent; [done|]. intros c Hc. unfold msg_ok. simpl. unfold targets in Hc. apply elem_of_app in Hc as [Hc|Hc].
    + apply list_elem_of_filter in Hc as [Hcd Hc]. apply Tree.elem_of_children in Hc as [Hc _]; [|lia]. split_and!; lia || done.
    + destruct root; [|by apply elem_of_nil in Hc]. destruct Hroot as [_ ->].
      destruct (Z.eqb_spec (b_dest b) 0); [by apply elem_of_nil in Hc|]. apply list_elem_of_singleton in Hc as ->. split_and!; lia || done. }
  split; [by apply deliver_Inv|]. unfold total at 1. rewrite got_deliver.
  assert (net (deliver (if root then b_deliver b else true) n b s1) = net s1) as -> by done.
  cbn [s1 net]. rewrite coming_app, coming_bytes. unfold total. change (got b0 m s1) with (got b0 m s).
  destruct (decide (b = b0)) as [->|Hb]; [|rewrite (bool_decide_eq_false_2 (b = b0)) by done; simpl; lia].
  rewrite (bool_decide_eq_true_2 (b0 = b0)) by done. unfold targets. rewrite lsum_app, share_step by done.
  destruct root; simpl.
  - destruct Hroot as [_ ->]. rewrite decide_True by done. unfold owed.
    assert (lsum (fun c => share (b_dest b0) c m) (if negb (b_dest b0 =? 0) then [0] else [])
      = 1 - below (b_dest b0) m) as ->.
    { destruct (Z.eqb_spec (b_dest b0) 0) as [->|]; simpl; [rewrite root_below by done; done|].
      unfold share. rewrite !root_below by done. lia. }
    case_bool_decide as E1; [subst m; rewrite Z.eqb_refl|destruct (Z.eqb_spec m (b_dest b0)); [done|]];
      destruct (b_deliver b0); simpl; lia.
  - rewrite decide_False by done. lia.
Qed.

Lemma step_event s e r b m : 0 <= m < N -> Inv NoPend s -> exec1 N s e = Some r ->
  exists s', r = Ok s' /\ Inv NoPend s' /\ total b m s' = total b m s + makes b e * owed b m.
Proof.
  intros Hm HI He. destruct e as [n|n d id|k]; cbn [exec1] in He.
  - case_bool_decide as Hn; [|done]. destruct (started s n) eqn:Hst; [done|]. injection He as <-.
    pose proof (start_counts N HN s n HI Hn Hst) as H1.
    destruct (finishes_perform (start n s) n setupDefaultTree b m) as (s' & E1 & E2 & E3).
    + apply (handlers_finish N HN); [done|]. unfold sync_fuel. lia.
    + exists s'. split_and!; [done|done|]. rewrite E3. unfold makes. rewrite bool_decide_false by done. simpl. change (total b m (start n s)) with (total b m s). lia.
  - case_bool_decide as Hn; [|done]. destruct (started s n); [|done]. unfold finished_startup in He.
    destruct (Z.leb_spec num_phases (cur_phase_ (nodes s n))) as [Hf|]; [|done]. injection He as <-.
    fold (cur s n) in Hf. pose proof (iv_cur _ _ _ HI n) as Hc. unfold num_phases in Hf.
    destruct (pass_on s n uninitialized_destination true (MkBcast n d id) b m HI) as (s' & E1 & E2 & E3); [done|done|done|simpl; lia|done|].
    exists s'. split_and!; [done|done|]. rewrite E3. f_equal. unfold makes. case_decide as Eb.
    + subst b. by rewrite bool_decide_eq_true_2, Z.mul_1_l.
    + rewrite bool_decide_false; [done|]. intros [= -> -> ->]. by destruct b.
  - destruct (net s !! k) as [[n mg]|] eqn:Hk; [|done]. injection He as <-.
    pose proof (iv_msgs _ _ _ HI (n, mg) (list_elem_of_lookup_2 _ _ _ Hk)) as Hok.
    assert (total b m (with_net (take_out k (net s)) s) = total b m s - brings b m (n, mg)) as Et.
    { unfold total. rewrite (coming_take b m k (net s) _ Hk). unfold got. simpl. lia. }
    assert (makes b (Deliver k) = 0) as -> by (unfold makes; by rewrite bool_decide_false).
    destruct mg as [p|p|from b']; unfold msg_ok in Hok; cbn [fst snd] in Hok.
    + rewrite bool_decide_true by tauto.
      destruct (finishes_perform (with_net (take_out k (net s)) s) n (syncHandler p) b m) as (s' & E1 & E2 & E3).
      { apply (handlers_finish N HN); [by eapply take_sync|]. unfold sync_fuel. lia. }
      exists s'. split_and!; [done|done|]. rewrite E3, Et. unfold brings. simpl. lia.
    + rewrite bool_decide_true by lia.
      destruct (finishes_perform (with_net (take_out k (net s)) s) n (newPhaseHandler p) b m) as (s' & E1 & E2 & E3).
      { apply (handlers_finish N HN); [by eapply take_new|]. unfold sync_fuel. lia. }
      exists s'. split_and!; [done|done|]. rewrite E3, Et. unfold brings. simpl. lia.
    + destruct Hok as (H1 & H2 & H3 & H4 & H5). rewrite bool_decide_true by done. cbn [handle].
      destruct (pass_on (with_net (take_out k (net s)) s) n from false b' b m) as (s' & E1 & E2 & E3); [|done..|].
      { by eapply take_bytes. }
      exists s'. split_and!; [done|done|]. rewrite E3, Et. unfold brings. cbn [fst snd]. case_decide; [subst|]; lia.
Qed.

Definition made (b : BcastMsg) (es : list event) : Z := lsum (makes b) es.

Lemma cnt_init n p : cnt (init N) n p = 0.
Proof.
  unfold cnt, count_at. cbn. destruct (p <? 0); [done|]. by destruct (Z.to_nat p) as [|[|[|k]]].
Qed.

Lemma nkids_nonneg n : 0 <= nkids n.
Proof. unfold nkids. lia. Qed.

Lemma told_init n p : told NoPend (init N) n p = 0.
Proof.
  unfold told, done_. rewrite cnt_init. pose proof (nkids_nonneg n). by destruct (Z.eqb_spec 0 (nkids n + 1)); [lia|].
Qed.

Lemma local_init n p : 0 <= p -> local (init N) n p = false.
Proof. intros Hp. unfold local. destruct (Z.eqb_spec p 0); [done|]. apply Z.leb_gt. cbn. lia. Qed.

Lemma init_Inv : Inv NoPend (init N).
Proof.
  split; intros *; rewrite ?cnt_init, ?told_init; try done.
  - simpl. split; [|done]. intros p. apply cnt_init.
  - intros Hn Hp. rewrite local_init by lia. rewrite (lsum_0 (fun c => told NoPend (init N) c p)); [done|].
    intros c _. apply told_init.
  - intros Hn Hp. rewrite local_init by lia. done.
  - intros Hp. cbn. pends. destruct (Z.ltb_spec p 0); [lia|done].
  - intros Hx. by apply elem_of_nil in Hx.
Qed.

Lemma run_Inv es s r b m : 0 <= m < N -> Inv NoPend s -> exec N s es = Some r ->
  exists s', r = Ok s' /\ Inv NoPend s' /\ total b m s' = total b m s + made b es * owed b m.
Proof.
  intros Hm. revert s. induction es as [|e es IH]; intros s HI He; cbn [exec] in He.
  - injection He as <-. exists s. split_and!; [done|done|]. unfold made. rewrite lsum_nil. lia.
  - destruct (exec1 N s e) as [r1|] eqn:E; [|done]. destruct (step_event s e r1 b m Hm HI E) as (s1 & -> & HI1 & E1).
    destruct (IH s1 HI1 He) as (s' & -> & HI' & E'). exists s'. split_and!; [done|done|]. rewrite E', E1.
    unfold made. rewrite lsum_cons. lia.
Qed.

Definition phases_quiet (s : Sys) : Prop :=
  forall x, x ∈ net s -> match x.2 with Bytes _ _ => True | _ => False end.

Lemma quiet_copies s x : phases_quiet s -> (forall f b, x.2 <> Bytes f b) -> copies x (net s) = 0.
Proof.
  intros Hq Hx. apply lsum_0. intros y Hy. rewrite bool_decide_false; [done|]. intros ->.
  specialize (Hq x Hy). destruct x as [? []]; try done. by eapply Hx.
Qed.

(** With no phase message under way, a phase everyone has entered is over. *)
Lemma phase_over s p n : Inv NoPend s -> phases_quiet s -> 0 <= p <= 1 ->
  (forall m, 0 <= m < N -> local s m p = true) -> 0 <= n < N -> p < cur s n.
Proof.
  intros HI Hq Hp Hl.
  assert (forall k, 0 <= k -> forall m, 0 <= m < N -> m = N - 1 - k -> told NoPend s m p = 1) as Hup.
  { apply (Z_lt_induction (fun k => forall m, 0 <= m < N -> m = N - 1 - k -> told NoPend s m p = 1)). intros k IH m Hm Ek.
    pose proof (iv_sync _ _ _ HI m p Hm ltac:(lia)) as E. rewrite (quiet_copies s _ Hq), (Hl m Hm) in E by done.
    rewrite (lsum_ext _ (fun _ => 1)) in E.
    - assert (lsum (fun _ => 1) (kids m) = nkids m) as E1.
      { unfold nkids. generalize (kids m) as l. induction l as [|x l IHl]; [done|]. rewrite lsum_cons, IHl. cbn [length]. lia. }
      clear Ek IH. unfold told, done_. revert E. pends. intros E. destruct (Z.eqb_spec (cnt s m p) (nkids m + 1)); simpl; lia.
    - intros c Hc. apply Tree.elem_of_children in Hc as [Hc Hpc]; [|lia]. pose proof (Tree.parentOf_bounds c ltac:(lia)).
      apply (IH (N - 1 - c)); lia. }
  pose proof (Hup (N - 1) ltac:(lia) 0 ltac:(lia) ltac:(lia)) as H0.
  pose proof (iv_root _ _ _ HI p Hp) as Er. rewrite H0 in Er.
  assert (forall k, 0 <= k -> 0 <= k < N -> p < cur s k) as Hdown; [|intros Hn; apply Hdown; lia].
  apply (Z_lt_induction (fun k => 0 <= k < N -> p < cur s k)). intros k IH Hk.
  destruct (decide (k = 0)) as [->|].
  - revert Er. pends. destruct (Z.ltb_spec p (cur s 0)); simpl; lia.
  - pose proof (Tree.parentOf_bounds k ltac:(lia)). pose proof (IH (Tree.parentOf k) ltac:(lia) ltac:(lia)).
    pose proof (iv_new _ _ _ HI k p ltac:(lia) Hp) as E. rewrite (quiet_copies s _ Hq) in E by done. revert E. pends.
    destruct (Z.ltb_spec p (cur s k)), (Z.ltb_spec p (cur s (Tree.parentOf k))); simpl; lia.
Qed.

Lemma coming_range s b m : Inv NoPend s -> 0 <= m < N -> 0 <= coming b m (net s).
Proof.
  intros HI Hm. apply lsum_nonneg. intros x Hx. pose proof (iv_msgs _ _ _ HI x Hx) as Hok. unfold msg_ok in Hok. unfold brings.
  destruct x.2; try done. case_decide; [subst|done]. apply share_range; lia.
Qed.

End system.
End DefaultSteps.

Module DefaultSpec.
Import DefaultGroup DefaultSystem DefaultFacts DefaultSteps.

(** C18: Start-up keeps the nodes in step, in whatever order they start and their messages
    arrive: the run never fails (no assertion, no count outside the array, no tree missing
    when a broadcast needs it), no node is more than one phase ahead of another, and when a
    node is past the initial phase every node has started and has its tree. *)
Theorem default_group_in_step N es r n m :
  0 < N <= 2 ^ 15 -> exec N (init N) es = Some r -> 0 <= n < N -> 0 <= m < N ->
  exists s, r = Ok s /\ cur_phase_ (nodes s n) <= cur_phase_ (nodes s m) + 1 /\
    (0 < cur_phase_ (nodes s n) -> started s m = true /\ spanning_tree_ (nodes s m) = Some (Tree.makeDefault m N)).
Proof.
  intros HN He Hn Hm. destruct (run_Inv N HN es (init N) r (MkBcast 0 true 0) m Hm (init_Inv N) He) as (s & -> & HI & _).
  exists s. split; [done|]. pose proof (iv_cur _ _ _ HI n) as Hcn. pose proof (iv_cur _ _ _ HI m) as Hcm. unfold cur in *.
  pose proof (fun p Hp Hc => phases_together N NoPend s p n m HI Hp Hn Hc Hm) as H. unfold cur in H. split.
  - destruct (decide (1 < cur_phase_ (nodes s n))) as [H1|]; [|lia]. specialize (H 1 ltac:(lia) H1).
    unfold local in H. simpl in H. apply Z.leb_le in H. unfold cur in H. lia.
  - intros H0. specialize (H 0 ltac:(lia) H0). change (started s m = true) in H. split; [done|].
    pose proof (iv_tree _ _ _ HI m) as T. destruct (spanning_tree_ (nodes s m)); [by subst|].
    destruct T as (_ & _ & T). by specialize (T H).
Qed.

(** C19: Start-up completes: once every node has called [setupDefaultTree] and no message of
    a phase is under way, every node has finished ([finished_startup], what the scheduler
    loop of [setupDefaultTree] waits for). *)
Theorem default_startup_completes N es s n :
  0 < N <= 2 ^ 15 -> exec N (init N) es = Some (Ok s) ->
  (forall m, 0 <= m < N -> started s m = true) -> phases_quiet s -> 0 <= n < N ->
  finished_startup (nodes s n) = true.
Proof.
  intros HN He Hst Hq Hn.
  destruct (run_Inv N HN es (init N) (Ok s) (MkBcast 0 true 0) n Hn (init_Inv N) He) as (s' & [= <-] & HI & _).
  apply Z.leb_le. unfold num_phases. change (2 <= cur s n).
  assert (forall m, 0 <= m < N -> 0 < cur s m) as H0 by (intros m Hm; by apply (phase_over N HN s 0 m HI Hq ltac:(lia) Hst)).
  enough (1 < cur s n) by lia. apply (phase_over N HN s 1); try done.
  intros m Hm. apply Z.leb_le. specialize (H0 m Hm). lia.
Qed.

(** C20: A broadcast to all nodes is delivered exactly once: at any time no node has been
    given a message more often than it was broadcast, and when no message of a broadcast is
    under way every node has been given it that often. The node it comes from is left out
    unless it asked to get it too. *)
Theorem default_broadcast_once N es s b m :
  0 < N <= 2 ^ 15 -> exec N (init N) es = Some (Ok s) -> 0 <= m < N ->
  got b m s <= made b es * owed b m /\
  ((forall x f, x ∈ net s -> x.2 <> Bytes f b) -> got b m s = made b es * owed b m).
Proof.
  intros HN He Hm. destruct (run_Inv N HN es (init N) (Ok s) b m Hm (init_Inv N) He) as (s' & [= <-] & HI & E).
  unfold total in E. change (got b m (init N)) with 0 in E. change (coming N b m (net (init N))) with 0 in E.
  pose proof (coming_range N HN s b m HI Hm). split; [lia|]. intros Hq.
  assert (coming N b m (net s) = 0); [|lia]. apply lsum_0. intros x Hx. unfold brings.
  destruct x.2 as [| |f b'] eqn:Ex; try done. case_decide as Eb; [subst b'; by destruct (Hq x f Hx)|done].
Qed.

(** Three nodes start in the order 1, 0, 2 and their ten messages arrive; then node 1
    broadcasts, and the message reaches nodes 0 and 2. *)
Definition startup3 : list event := [Start 1; Start 0; Start 2] ++ repeat (Deliver 0) 10.
Definition run3 (es : list event) : Sys :=
  match exec 3 (init 3) es with Some (Ok s) => s | _ => init 3 end.

Lemma run3_ok es : match exec 3 (init 3) es with Some (Ok _) => true | _ => false end = true ->
  exec 3 (init 3) es = Some (Ok (run3 es)).
Proof. unfold run3. by destruct (exec 3 (init 3) es) as [[s|]|]. Qed.

Lemma default_group_in_step_witness :
  exists s, exec 3 (init 3) startup3 = Some (Ok s) /\ cur_phase_ (nodes s 0) <= cur_phase_ (nodes s 2) + 1.
Proof.
  assert (exec 3 (init 3) startup3 = Some (Ok (run3 startup3))) as Hr by by apply run3_ok; vm_compute.
  revert Hr. generalize (run3 startup3) as s. intros s Hr. exists s. split; [exact Hr|].
  destruct (default_group_in_step 3 startup3 (Ok s) 0 2) as (s' & E & H & _); [lia|exact Hr|lia|lia|].
  injection E as <-. exact H.
Defined.

Lemma none_under_way s : net s = [] -> forall x, x ∈ net s -> False.
Proof. intros ->. intros x Hx. by apply elem_of_nil in Hx. Qed.

Lemma no_messages s : net s = [] -> phases_quiet s.
Proof. intros H x Hx. by destruct (none_under_way s H x). Qed.

Lemma default_startup_completes_witness : finished_startup (nodes (run3 startup3) 2) = true.
Proof.
  apply (default_startup_completes 3 startup3).
  - lia.
  - by apply run3_ok; vm_compute.
  - intros m Hm. assert (m = 0 \/ m = 1 \/ m = 2) as [->|[->| ->]] by lia; by vm_compute.
  - apply no_messages. by vm_compute.
  - lia.
Defined.

Lemma default_broadcast_once_witness :
  let s := run3 (startup3 ++ [Broadcast 1 false 7; Deliver 0; Deliver 0]) in
  got (MkBcast 1 false 7) 2 s = 1.
Proof.
  intros s. destruct (default_broadcast_once 3 (startup3 ++ [Broadcast 1 false 7; Deliver 0; Deliver 0]) s (MkBcast 1 false 7) 2)
    as [_ H]; [lia|by apply run3_ok; vm_compute|lia|].
  rewrite H; [by vm_compute|]. intros x f Hx _. revert x Hx. apply none_under_way. by vm_compute.
Defined.

End DefaultSpec.
