(* ===== verification/Queue.v ===== *)
(** * The scheduler's queues

    Models [src/vt/utils/container/circular_buffer.h], [src/vt/scheduler/queue.h] (a
    circular buffer that overflows into a [std::queue]) and
    [src/vt/scheduler/priority_queue.h] (a [std::priority_queue]), with the interface the
    scheduler uses either of them through ([WorkQueue]) and what both promise
    ([LawfulQueue]). *)

From S2P Require Import Prelude.

(** ** The circular buffer *)

Module CircularBuffer.

Section buffer.
Context {T : Type} (capacity : Z) (T0 : T).

(** The array holds [capacity] values of [T], [T{}] at first. *)
Record CircularBuffer := MkBuffer { head_ : Z; tail_ : Z; elms_ : list T }.

Definition make : CircularBuffer := MkBuffer 0 0 (replicate (Z.to_nat capacity) T0).

Definition getNextEntry (b : CircularBuffer) : Z :=
  let next_entry := head_ b + 1 in
  if next_entry =? capacity then 0 else next_entry.

(** [emplace] and both [push]es. *)
Definition push (t : T) (b : CircularBuffer) : CircularBuffer :=
  MkBuffer (getNextEntry b) (tail_ b) (<[Z.to_nat (head_ b) := t]> (elms_ b)).

(** [pop()] does not look whether there is an element. *)
Definition pop (b : CircularBuffer) : res (T * CircularBuffer) :=
  match elms_ b !! Z.to_nat (tail_ b) with
  | Some elm =>
      let tail := tail_ b + 1 in
      Ok (elm, MkBuffer (head_ b) (if tail =? capacity then 0 else tail) (elms_ b))
  | None => Stop AbortCalled
  end.

Definition numFree (b : CircularBuffer) : Z :=
  if head_ b =? tail_ b then capacity - 1
  else if head_ b <? tail_ b then tail_ b - head_ b - 1
  else capacity + tail_ b - head_ b - 1.

Definition empty (b : CircularBuffer) : bool := head_ b =? tail_ b.
Definition full (b : CircularBuffer) : bool := numFree b =? 0.
Definition size (b : CircularBuffer) : Z := capacity - 1 - numFree b.

End buffer.
Arguments CircularBuffer T : clear implicits.
End CircularBuffer.

Module BufferFacts.
Import CircularBuffer.

Section buffer.
Context {T : Type} (capacity : Z) (T0 : T).

Definition buffer_ok (b : CircularBuffer T) : Prop :=
  0 <= head_ b < capacity /\ 0 <= tail_ b < capacity /\ length (elms_ b) = Z.to_nat capacity.

(** The values in the buffer, the oldest first. *)
Definition contents (b : CircularBuffer T) : list T :=
  take (Z.to_nat (size capacity b)) (rotate (Z.to_nat (tail_ b)) (elms_ b)).

Lemma buffer_make_ok : 0 < capacity -> buffer_ok (make capacity T0).
Proof. intros H. unfold buffer_ok. simpl. rewrite length_replicate. lia. Qed.

Lemma contents_make : contents (make capacity T0) = [].
Proof. unfold contents, size, numFree. simpl. by rewrite Z.sub_diag. Qed.

(** The size as a distance around the ring. *)
Lemma size_mod b : buffer_ok b -> size capacity b = (head_ b - tail_ b) mod capacity.
Proof.
  intros (H1 & H2 & _). unfold size, numFree.
  destruct (Z.eqb_spec (head_ b) (tail_ b)) as [->|]; [rewrite (Z.sub_diag (tail_ b)), Z.mod_0_l; lia|].
  destruct (Z.ltb_spec (head_ b) (tail_ b)).
  - rewrite <- (Z.mod_unique (head_ b - tail_ b) capacity (-1) (capacity + head_ b - tail_ b)); lia.
  - rewrite Z.mod_small; lia.
Qed.

Lemma size_bounds b : buffer_ok b -> 0 <= size capacity b < capacity.
Proof. intros Hb. rewrite size_mod by done. destruct Hb as (H & _). apply Z.mod_pos_bound. lia. Qed.

Lemma length_contents b : buffer_ok b -> Z.of_nat (length (contents b)) = size capacity b.
Proof.
  intros Hb. pose proof (size_bounds b Hb). destruct Hb as (_ & _ & Hl).
  unfold contents. rewrite length_take, length_rotate. lia.
Qed.

Lemma contents_lookup b i : buffer_ok b -> 0 <= i < size capacity b ->
  contents b !! Z.to_nat i = elms_ b !! Z.to_nat ((tail_ b + i) mod capacity).
Proof.
  intros Hb Hi. pose proof (size_bounds b Hb). destruct Hb as (Hh & Ht & Hl).
  unfold contents. rewrite lookup_take_lt by lia. rewrite lookup_rotate_r by lia. f_equal.
  unfold rotate_nat_add. rewrite Hl. f_equal. f_equal; lia.
Qed.

Lemma empty_spec b : buffer_ok b -> empty b = bool_decide (contents b = []).
Proof.
  intros Hb. pose proof (length_contents b Hb) as Hl. unfold empty. rewrite size_mod in Hl by done.
  destruct Hb as (Hh & Ht & _). destruct (Z.eqb_spec (head_ b) (tail_ b)) as [E|E].
  - rewrite E, Z.sub_diag, Z.mod_0_l in Hl by lia. destruct (contents b); [by rewrite bool_decide_true|simpl in Hl; lia].
  - rewrite bool_decide_false; [done|]. intros E'. rewrite E' in Hl. simpl in Hl.
    symmetry in Hl. apply Z.mod_divide in Hl as [k Hk]; [|lia].
    assert (k = 0 \/ 1 <= k \/ k <= -1) as [->|[|]] by lia; nia.
Qed.

Lemma full_spec b : buffer_ok b -> full capacity b = (Z.of_nat (length (contents b)) =? capacity - 1).
Proof. intros Hb. rewrite length_contents by done. unfold full, size. case_Zbs; lia. Qed.

(** The next place round the ring. *)
Lemma next_mod x : 0 <= x < capacity -> (if x + 1 =? capacity then 0 else x + 1) = (x + 1) mod capacity.
Proof.
  intros Hx. destruct (Z.eqb_spec (x + 1) capacity) as [->|]; [by rewrite Z.mod_same by lia|by rewrite Z.mod_small by lia].
Qed.

Lemma push_ok t b : buffer_ok b -> buffer_ok (push capacity t b).
Proof.
  intros (Hh & Ht & Hl). unfold buffer_ok, push, getNextEntry. simpl. rewrite length_insert.
  case_Zbs; lia.
Qed.

Lemma mod_shift_ne a i j : 0 <= i < j -> j < capacity -> (a + i) mod capacity <> (a + j) mod capacity.
Proof.
  intros Hi Hj E. assert ((j - i) mod capacity = 0) as H.
  { replace (j - i) with ((a + j) - (a + i)) by lia. rewrite Zminus_mod, E, Z.sub_diag. apply Z.mod_0_l. lia. }
  rewrite Z.mod_small in H; lia.
Qed.

Lemma push_contents t b : buffer_ok b -> full capacity b = false ->
  contents (push capacity t b) = contents b ++ [t].
Proof.
  intros Hb Hf. pose proof (push_ok t b Hb) as Hb'. pose proof (size_bounds b Hb) as Hs.
  rewrite full_spec, length_contents in Hf by done. apply Z.eqb_neq in Hf.
  assert (size capacity (push capacity t b) = size capacity b + 1) as Es.
  { rewrite (size_mod _ Hb'). simpl. unfold getNextEntry. destruct Hb as (Hh & Ht & Hl). rewrite next_mod by done.
    rewrite <- (Z.mod_small (size capacity b + 1) capacity) by lia. rewrite (size_mod b) by (unfold buffer_ok; auto).
    rewrite Zminus_mod_idemp_l, Zplus_mod_idemp_l. f_equal. lia. }
  assert (head_ b = (tail_ b + size capacity b) mod capacity) as Eh.
  { rewrite (size_mod b Hb). destruct Hb as (Hh & Ht & Hl). rewrite Zplus_mod_idemp_r, Z.mod_small; lia. }
  pose proof (length_contents b Hb) as L1. pose proof (length_contents _ Hb') as L2.
  apply list_eq. intros i. destruct (decide (Z.of_nat i < size capacity b)) as [H1|H1].
  - rewrite lookup_app_l by lia. rewrite <- (Nat2Z.id i), !contents_lookup by (done || lia). simpl.
    apply list_lookup_insert_ne. rewrite Eh. intros E. apply (mod_shift_ne (tail_ b) (Z.of_nat i) (size capacity b)); [lia|lia|].
    pose proof (Z.mod_pos_bound (tail_ b + size capacity b) capacity). pose proof (Z.mod_pos_bound (tail_ b + Z.of_nat i) capacity). lia.
  - destruct (decide (Z.of_nat i = size capacity b)) as [H2|H2].
    + rewrite lookup_app_r by lia. replace (i - length (contents b))%nat with 0%nat by lia.
      rewrite <- (Nat2Z.id i), contents_lookup by (done || lia). rewrite H2. simpl. rewrite <- Eh.
      apply list_lookup_insert_eq. destruct Hb as (? & ? & ->). lia.
    + rewrite !lookup_ge_None_2; [done|rewrite length_app; simpl; lia|lia].
Qed.

Lemma pop_contents b t l : buffer_ok b -> contents b = t :: l ->
  exists b', pop capacity b = Ok (t, b') /\ buffer_ok b' /\ contents b' = l.
Proof.
  intros Hb Hc. pose proof (length_contents b Hb) as L1. rewrite Hc in L1. simpl in L1.
  pose proof (size_bounds b Hb) as Hs. pose proof (contents_lookup b 0 Hb ltac:(lia)) as H0. rewrite Hc in H0. simpl in H0.
  rewrite Z.add_0_r in H0. unfold pop. assert ((tail_ b) mod capacity = tail_ b) as Et by (destruct Hb; rewrite Z.mod_small; lia).
  rewrite Et in H0. rewrite <- H0. set (b' := MkBuffer _ _ _). exists b'.
  assert (buffer_ok b') as Hb'.
  { destruct Hb as (Hh & Ht & Hl). unfold buffer_ok. simpl. case_Zbs; lia. }
  split_and!; [done|done|]. assert (size capacity b' = size capacity b - 1) as Es.
  { rewrite (size_mod _ Hb'). simpl. rewrite next_mod by apply Hb.
    rewrite <- (Z.mod_small (size capacity b - 1) capacity) by lia. rewrite (size_mod b Hb).
    rewrite Zminus_mod_idemp_r, Zminus_mod_idemp_l. f_equal. lia. }
  pose proof (length_contents _ Hb') as L2. apply list_eq. intros i.
  destruct (decide (Z.of_nat i < size capacity b')) as [H1|H1].
  - replace (l !! i) with (contents b !! S i) by (by rewrite Hc).
    rewrite <- (Nat2Z.id i), <- Z2Nat.inj_succ, !contents_lookup by (done || lia). simpl. f_equal. f_equal.
    rewrite next_mod by apply Hb. rewrite Zplus_mod_idemp_l. f_equal. lia.
  - rewrite !lookup_ge_None_2; [done|lia|lia].
Qed.

End buffer.
End BufferFacts.

(** ** The queue: a buffer and a deque *)

Module Queue.
Import CircularBuffer.

Section queue.
Context {T : Type} (T0 : T).

Definition capacity : Z := 64.

(** [impl_] is a [std::queue], the front first. *)
Record Queue := MkQueue { buf_ : CircularBuffer T; impl_ : list T }.

Definition make : Queue := MkQueue (CircularBuffer.make capacity T0) [].

Definition emplace (elm : T) (q : Queue) : Queue :=
  if full capacity (buf_ q) then MkQueue (buf_ q) (impl_ q ++ [elm])
  else MkQueue (CircularBuffer.push capacity elm (buf_ q)) (impl_ q).

Definition push := emplace.

Definition pop (q : Queue) : res (T * Queue) :=
  vtAssert (negb (CircularBuffer.empty (buf_ q))) (
    let full_buf := full capacity (buf_ q) in
    '(t, buf) ← CircularBuffer.pop capacity (buf_ q);
    match impl_ q with
    | front :: rest =>
        Ok (t, if full_buf then MkQueue (CircularBuffer.push capacity front buf) rest
               else MkQueue buf (front :: rest))
    | [] => Ok (t, MkQueue buf [])
    end).

Definition size (q : Queue) : Z := CircularBuffer.size capacity (buf_ q) + Z.of_nat (length (impl_ q)).

Definition empty (q : Queue) : res bool :=
  vtAssert (negb (CircularBuffer.empty (buf_ q)) || bool_decide (impl_ q = []))
    (Ok (CircularBuffer.empty (buf_ q))).

End queue.
Arguments Queue T : clear implicits.
End Queue.

(** ** The priority queue *)

Module PriorityQueue.

Section queue.
Context {T : Type} (lt : T -> T -> bool).

(** [std::priority_queue]: its elements, in the order they came. *)
Definition PriorityQueue := list T.

(** The position of an element that none exceeds. C++ leaves open which; this is the
    oldest. *)
Fixpoint top_at (l : list T) : option nat :=
  match l with
  | [] => None
  | x :: l' =>
      match top_at l' with
      | Some k => match l' !! k with Some y => if lt x y then Some (S k) else Some 0%nat | None => Some 0%nat end
      | None => Some 0%nat
      end
  end.

Definition emplace (elm : T) (q : PriorityQueue) : PriorityQueue := q ++ [elm].
Definition push := emplace.

(** [top()] of an empty queue is undefined. *)
Definition pop (q : PriorityQueue) : res (T * PriorityQueue) :=
  match top_at q with
  | Some k => match q !! k with Some elm => Ok (elm, take_out k q) | None => Stop AbortCalled end
  | None => Stop AbortCalled
  end.

Definition size (q : PriorityQueue) : Z := Z.of_nat (length q).
Definition empty (q : PriorityQueue) : bool := match q with [] => true | _ => false end.

End queue.
End PriorityQueue.

(** ** What the scheduler uses of its queue *)

Class WorkQueue (Q T : Type) := {
  wq_make : Q;
  wq_emplace : T -> Q -> Q;
  wq_pop : Q -> res (T * Q);
  wq_size : Q -> Z;
  wq_empty : Q -> res bool
}.

#[export] Instance queue_work {T} (T0 : T) : WorkQueue (Queue.Queue T) T := {|
  wq_make := Queue.make T0; wq_emplace := Queue.emplace; wq_pop := Queue.pop;
  wq_size := Queue.size; wq_empty := Queue.empty |}.

#[export] Instance priority_work {T} (lt : T -> T -> bool) : WorkQueue (PriorityQueue.PriorityQueue (T := T)) T := {|
  wq_make := []; wq_emplace := PriorityQueue.emplace; wq_pop := PriorityQueue.pop lt;
  wq_size := PriorityQueue.size; wq_empty := fun q => Ok (PriorityQueue.empty q) |}.

(** A queue holds what was put in and not taken out, the oldest first ([wq_items]); [pop]
    takes one that [wq_next] allows, given those before and after it. *)
Class LawfulQueue (Q T : Type) `{WorkQueue Q T} := {
  wq_ok : Q -> Prop;
  wq_items : Q -> list T;
  wq_next : list T -> T -> list T -> Prop;
  law_make : wq_ok wq_make /\ wq_items wq_make = [];
  law_emplace t q : wq_ok q -> wq_ok (wq_emplace t q) /\ wq_items (wq_emplace t q) = wq_items q ++ [t];
  law_pop q : wq_ok q -> wq_items q <> [] ->
    exists l1 t l2 q', wq_items q = l1 ++ t :: l2 /\ wq_next l1 t l2 /\
      wq_pop q = Ok (t, q') /\ wq_ok q' /\ wq_items q' = l1 ++ l2;
  law_size q : wq_ok q -> wq_size q = Z.of_nat (length (wq_items q));
  law_empty q : wq_ok q -> wq_empty q = Ok (bool_decide (wq_items q = []))
}.

Module QueueFacts.
Import CircularBuffer BufferFacts Queue.

Section queue.
Context {T : Type} (T0 : T).

(** The deque is in use only while the buffer is full. *)
Definition queue_ok (q : Queue T) : Prop :=
  buffer_ok capacity (buf_ q) /\ (impl_ q <> [] -> full capacity (buf_ q) = true).

Definition items (q : Queue T) : list T := contents capacity (buf_ q) ++ impl_ q.

Lemma queue_emplace t q : queue_ok q -> queue_ok (emplace t q) /\ items (emplace t q) = items q ++ [t].
Proof.
  intros [Hb Hi]. unfold emplace, items. destruct (full capacity (buf_ q)) eqn:Hf.
  - split; [by split|]. simpl. by rewrite app_assoc.
  - assert (impl_ q = []) as E by (destruct (impl_ q); [done|by discriminate Hi]).
    split; [split; [by apply push_ok|by rewrite E]|]. simpl. by rewrite push_contents, E, !app_nil_r.
Qed.

Lemma queue_empty q : queue_ok q -> empty q = Ok (bool_decide (items q = [])).
Proof.
  intros [Hb Hi]. unfold empty, items. pose proof (empty_spec capacity _ Hb) as He. rewrite He.
  destruct (contents capacity (buf_ q)) as [|t l] eqn:Hc; [|done].
  assert (impl_ q = []) as ->; [|done].
  destruct (impl_ q); [done|]. specialize (Hi ltac:(done)). rewrite full_spec, Hc in Hi by done. done.
Qed.

Lemma queue_pop q t l : queue_ok q -> items q = t :: l ->
  exists q', pop q = Ok (t, q') /\ queue_ok q' /\ items q' = l.
Proof.
  intros Hq Hl. pose proof (queue_empty q Hq) as He. rewrite Hl in He. destruct Hq as [Hb Hi].
  destruct (contents capacity (buf_ q)) as [|t' l'] eqn:Hc.
  { unfold items in Hl. rewrite Hc in Hl. simpl in Hl. specialize (Hi ltac:(by rewrite Hl)).
    rewrite full_spec, Hc in Hi by done. done. }
  unfold items in Hl. rewrite Hc in Hl. injection Hl as <- <-.
  destruct (pop_contents capacity (buf_ q) t' l' Hb Hc) as (b' & E & Hb' & Hc').
  unfold pop. rewrite (empty_spec capacity), Hc by done. cbn [bool_decide decide_rel negb vtAssert]. simpl vtAssert. rewrite E, res_bind_Ok.
  destruct (impl_ q) as [|front rest] eqn:Ei.
  - eexists. split; [done|]. split; [by split|]. unfold items. simpl. by rewrite Hc'.
  - specialize (Hi ltac:(done)). rewrite Hi. eexists. split; [done|].
    assert (Z.of_nat (S (length l')) = capacity - 1) as Hn.
    { rewrite full_spec in Hi by done. rewrite Hc in Hi. by apply Z.eqb_eq. }
    assert (full capacity b' = false) as Hf'.
    { rewrite full_spec, Hc' by done. apply Z.eqb_neq. lia. }
    assert (full capacity (CircularBuffer.push capacity front b') = true) as Hf2.
    { rewrite full_spec, push_contents, Hc', length_app by (done || by apply push_ok). apply Z.eqb_eq. cbn [length]. lia. }
    split; [split; [by apply push_ok|done]|]. unfold items. simpl. rewrite push_contents, Hc' by done.
    by rewrite <- app_assoc.
Qed.

End queue.

#[export] Program Instance queue_lawful {T} (T0 : T) : @LawfulQueue (Queue T) T (queue_work T0) := {|
  wq_ok := queue_ok; wq_items := items; wq_next := fun l1 _ _ => l1 = [] |}.
Next Obligation.
  intros T T0. split; [split; [by apply buffer_make_ok|done]|]. change (contents capacity (CircularBuffer.make capacity T0) ++ [] = []).
  by rewrite contents_make.
Qed.
Next Obligation. intros T T0 t q Hq. by apply queue_emplace. Qed.
Next Obligation.
  intros T T0 q Hq Hne. destruct (items q) as [|t l] eqn:E; [done|].
  destruct (queue_pop q t l Hq E) as (q' & H1 & H2 & H3). by exists [], t, l, q'.
Qed.
Next Obligation.
  intros T T0 q [Hb _]. unfold items. simpl. unfold size. rewrite length_app, <- length_contents by done. lia.
Qed.
Next Obligation. intros T T0 q Hq. by apply queue_empty. Qed.

(** *** The priority queue *)

Section priority.
Context {T : Type} (lt : T -> T -> bool).
Hypothesis lt_trans_neg : forall x y z, lt x y = false -> lt y z = false -> lt x z = false.
Hypothesis lt_asym : forall x y, lt x y = true -> lt y x = false.

Lemma top_at_spec l : l <> [] -> exists k t, PriorityQueue.top_at lt l = Some k /\ l !! k = Some t /\
  forall y, y ∈ l -> lt t y = false.
Proof.
  induction l as [|x l IH]; intros Hne; [done|]. simpl. assert (lt x x = false) as Hxx.
  { destruct (lt x x) eqn:E; [|done]. by rewrite <- (lt_asym x x E). }
  destruct l as [|y l].
  - exists 0%nat, x. split_and!; [done|done|]. by intros y ->%list_elem_of_singleton.
  - destruct IH as (k & t & Ek & Et & Hmax); [done|]. rewrite Ek, Et.
    destruct (lt x t) eqn:Hlt.
    + exists (S k), t. split_and!; [done|done|]. intros z [->|Hz]%elem_of_cons; [by apply lt_asym|by apply Hmax].
    + exists 0%nat, x. split_and!; [done|done|]. intros z [->|Hz]%elem_of_cons; [done|].
      by eapply lt_trans_neg, Hmax.
Qed.

Lemma priority_pop l : l <> [] ->
  exists l1 t l2, l = l1 ++ t :: l2 /\ Forall (fun y => lt t y = false) (l1 ++ l2) /\
    PriorityQueue.pop lt l = Ok (t, l1 ++ l2).
Proof.
  intros Hne. destruct (top_at_spec l Hne) as (k & t & Ek & Et & Hmax). exists (take k l), t, (drop (S k) l).
  split_and!; [by rewrite take_drop_middle|..].
  - apply Forall_forall. intros y Hy. apply Hmax. rewrite <- (take_drop_middle l k t Et). apply elem_of_app.
    apply elem_of_app in Hy as [?|?]; [by left|]. right. by right.
  - unfold PriorityQueue.pop. rewrite Ek. cbv beta iota. unfold PriorityQueue.PriorityQueue. rewrite Et. done.
Qed.

#[export] Program Instance priority_lawful : @LawfulQueue (PriorityQueue.PriorityQueue (T := T)) T (priority_work lt) := {|
  wq_ok := fun _ => True; wq_items := fun q => q;
  wq_next := fun l1 t l2 => Forall (fun y => lt t y = false) (l1 ++ l2) |}.
Next Obligation. done. Qed.
Next Obligation. done. Qed.
Next Obligation.
  intros q _ Hne. destruct (priority_pop q Hne) as (l1 & t & l2 & H1 & H2 & H3). by exists l1, t, l2, (l1 ++ l2).
Qed.
Next Obligation. done. Qed.
Next Obligation. by intros [|? ?]. Qed.

End priority.
End QueueFacts.

Module QueueSpec.
Import Queue QueueFacts.

Inductive op (T : Type) := Push (t : T) | Pop | Size.
Arguments Push {T} t.
Arguments Pop {T}.
Arguments Size {T}.

Inductive answer (T : Type) := Nothing | Got (t : T) | Holds (n : Z).
Arguments Nothing {T}.
Arguments Got {T} t.
Arguments Holds {T} n.

Section run.
Context {T S : Type} (step : op T -> S -> res (answer T * S)).

Fixpoint run (ops : list (op T)) (s : S) : res (list (answer T)) :=
  match ops with
  | [] => Ok []
  | o :: ops => '(a, s) ← step o s; as_ ← run ops s; Ok (a :: as_)
  end.

End run.

Definition step_queue {T} (o : op T) (q : Queue T) : res (answer T * Queue T) :=
  match o with
  | Push t => Ok (Nothing, emplace t q)
  | Pop => '(t, q) ← pop q; Ok (Got t, q)
  | Size => Ok (Holds (size q), q)
  end.

(** First in, first out. *)
Definition step_fifo {T} (o : op T) (l : list T) : res (answer T * list T) :=
  match o with
  | Push t => Ok (Nothing, l ++ [t])
  | Pop => match l with t :: l => Ok (Got t, l) | [] => Stop AssertFailed end
  | Size => Ok (Holds (Z.of_nat (length l)), l)
  end.

(** C40: The scheduler's queue, a circular buffer of 63 places that overflows into a deque,
    gives in every sequence of operations the answers of a list used first in, first out,
    the failed assertion of [pop] on an empty queue included. *)
Theorem queue_is_fifo {T} (T0 : T) (ops : list (op T)) :
  run step_queue ops (make T0) = run step_fifo ops [].
Proof.
  assert (forall q, queue_ok q -> run step_queue ops q = run step_fifo ops (items q)) as H.
  { induction ops as [|o ops IH]; intros q Hq; [done|]. destruct o as [t| |]; cbn [run step_queue step_fifo].
    - rewrite !res_bind_Ok. destruct (queue_emplace t q Hq) as [Hq' <-]. by rewrite IH.
    - destruct (items q) as [|t l] eqn:E.
      + pose proof (queue_empty q Hq) as He. unfold pop. unfold empty in He. rewrite E in He.
        destruct (CircularBuffer.empty (buf_ q)); [done|]. unfold vtAssert in He. by destruct (_ || _).
      + destruct (queue_pop q t l Hq E) as (q' & -> & Hq' & <-). rewrite !res_bind_Ok. by rewrite IH.
    - rewrite !res_bind_Ok. pose proof (@law_size _ _ _ (queue_lawful T0) q Hq) as Hs. cbn in Hs. rewrite Hs. by rewrite IH. }
  destruct (@law_make _ _ _ (queue_lawful T0)) as [Hm Ei]. cbn in Hm, Ei. rewrite (H (make T0) Hm). by f_equal.
Qed.

(** Nothing guards the buffer itself: one more value in a full buffer makes it empty. *)
Lemma full_push_empties : let b := foldl (fun b t => CircularBuffer.push 4 t b) (CircularBuffer.make 4 0) [1; 2; 3; 4] in
  CircularBuffer.empty b = true.
Proof. reflexivity. Qed.

End QueueSpec.
