(* ===== verification/Priority.v ===== *)
(** * Priorities

    Models [src/vt/scheduler/priority.h] (the masks, computed by templates),
    [scheduler/priority_manip.cc] and [messaging/message/message_priority.impl.h]: a
    priority is 16 bits, cut into levels; work spawned by a message may be put one level
    below it, so that it is ordered within the band of the message. *)

From S2P Require Import Prelude.
From S2P Require Import Bits.
Import BitPacker.

Module Priority.

Definition PriorityType := u16.
Definition PriorityLevelType := u8.

Definition priority_num_bits : Z := 16.

(** ** The constants, for [b] bits a level *)

Section masks.
Context (priority_level_bits : Z).

Definition priority_num_levels : Z := priority_num_bits / priority_level_bits.
Definition priority_midpoint : Z :=
  wrap PriorityType (Z.shiftr (Z.shiftl 1 (priority_level_bits + 1) - 1) 2).
Definition priority_remainder : Z :=
  wrap PriorityType (priority_num_bits - priority_level_bits * priority_num_levels).
Definition priority_all_set : Z :=
  wrap PriorityType (Z.shiftr (Z.shiftl 1 (priority_level_bits + 1) - 1) 1).

(** [x << k] in a constant expression is ill-formed when [k] is negative or not below the
    width of [int]. *)
Definition const_shift (x k : Z) : option Z :=
  if (0 <=? k) && (k <? 32) then Some (Z.shiftl x k) else None.

(** [Mask<N, M, L, R, F>::value]; [None] when the instantiation is ill-formed. *)
Fixpoint Mask (depth : nat) (N M L R : Z) (F : bool) : option Z :=
  if N =? R then wrap PriorityType <$> const_shift M R
  else match depth with
  | O => None
  | S depth =>
      let offset := wrap PriorityType (N - priority_level_bits) in
      if L =? 0 then
        if F then
          x ← const_shift (Z.shiftl 1 (priority_level_bits + 1) - 1) (offset - 1);
          Mask depth offset (wrap PriorityType (Z.lor M x)) 0 R true
        else Mask depth offset M 0 R false
      else
        x ← const_shift priority_midpoint (offset - 1);
        Mask depth offset (wrap PriorityType (Z.lor M x)) (wrap PriorityType (L - 1)) R F
  end.

(** At most one instantiation a bit. *)
Definition DefaultMask : option Z :=
  Mask 17 priority_num_bits 0 priority_num_levels priority_remainder false.
Definition LevelMask (L : Z) : option Z := Mask 17 priority_num_bits 0 L priority_remainder false.
Definition LevelFillMask (L : Z) : option Z := Mask 17 priority_num_bits 0 L priority_remainder true.

(** The entries of [medium_priority] and [breadth_priority]. *)
Definition mediumArray (i : Z) : option Z := LevelMask (i + 1).
Definition breadthArray (i : Z) : option Z := LevelFillMask (i + 1).

Definition sys_max_priority : option Z := breadthArray 0.
Definition sys_min_priority : Z := 0.
Definition max_priority : option Z := breadthArray 1.
Definition min_priority : option Z := mediumArray 0.
Definition default_priority : option Z := DefaultMask.

End masks.

(** ** The operations, with the three bits a level of the default configuration *)

Definition level_bits : Z := 3.
Definition num_levels : Z := priority_num_levels level_bits.

(** [enum Priority]. *)
Definition BreadthFirst : Z := 7.
Definition Highest : Z := 6.
Definition High : Z := 5.
Definition MediumHigh : Z := 4.
Definition Medium : Z := 3.
Definition MediumLow : Z := 2.
Definition Low : Z := 1.
Definition Lowest : Z := 0.

Definition level_offset (level : Z) : Z := (num_levels - level - 1) * level_bits.

Definition setPriority (field level priority : Z) : Z :=
  setFieldDynamic PriorityType (level_offset level) level_bits field priority.

Definition getPriority (field level : Z) : Z :=
  getFieldDynamic PriorityType PriorityType (level_offset level) level_bits field.

(** The priority and its level in a message's envelope. *)
Record Env := MkEnv { env_priority : Z; env_level : Z }.

(** [envelopeInit] gives [min_priority] and no level. *)
Definition envelopeInit : Env := MkEnv (default 0 (min_priority level_bits)) 0.

Fixpoint clear_below (n : nat) (l : Z) (is_breadth_first : bool) (p : Z) : Z :=
  match n with
  | O => p
  | S n =>
      clear_below n (l + 1) is_breadth_first
        (setPriority p l (if is_breadth_first then priority_all_set level_bits else 0))
  end.

Definition msgSetPriorityImpl (new_priority old_priority level : Z) : Env :=
  let is_breadth_first := new_priority =? BreadthFirst in
  let old_priority := clear_below (Z.to_nat (num_levels - (level + 1))) (level + 1) is_breadth_first old_priority in
  MkEnv (setPriority old_priority level new_priority) level.

Definition msgSetPriority (priority : Z) (increment_level : bool) : Env :=
  let level := if increment_level then 1 else 0 in
  msgSetPriorityImpl priority (default 0 (min_priority level_bits)) level.

Definition msgSetPriorityFrom (old_msg : Env) (priority : Z) (increment_level : bool) : Env :=
  let level := env_level old_msg in
  let level := if increment_level && (level + 1 <? num_levels) then wrap PriorityLevelType (level + 1) else level in
  msgSetPriorityImpl priority (env_priority old_msg) level.

(** The new message's level, and whether there is a level below the old one's. *)
Definition msgIncPriorityLevel (old_msg new_msg : Env) : Env * bool :=
  let level := env_level old_msg in
  if level + 1 <? num_levels
  then (MkEnv (env_priority new_msg) (wrap PriorityLevelType (level + 1)), true)
  else (new_msg, false).

Definition msgSetPriorityLevel (m : Env) (level : Z) : Env := MkEnv (env_priority m) level.
Definition msgSetPriorityAllLevels (m : Env) (priority : Z) : Env := MkEnv priority (env_level m).

Definition msgSystemSetPriority (priority : Z) : Env := MkEnv (setPriority 0 0 priority) 0.

End Priority.

Module PriorityFacts.
Import Priority.

(** The levels down to [l], as a number: what two priorities are first compared by. *)
Definition upto (l field : Z) : Z := Z.shiftr field (level_offset l).

Lemma offset_ok l : 0 <= l < 5 -> level_offset l = 12 - 3 * l.
Proof. intros H. unfold level_offset, num_levels, priority_num_levels. change (priority_num_bits / level_bits) with 5. unfold level_bits. lia. Qed.

Lemma mask3 : gen_bit_mask 3 = Z.ones 3.
Proof. done. Qed.

Lemma testbit_above x n i : 0 <= x < 2 ^ n -> 0 <= n <= i -> Z.testbit x i = false.
Proof.
  intros Hx Hi. destruct (decide (x = 0)) as [->|]; [apply Z.testbit_0_l|].
  apply Z.bits_above_log2; [lia|]. assert (Z.log2 x < n) by (apply Z.log2_lt_pow2; lia). lia.
Qed.

Lemma setPriority_bits f l p i : 0 <= f < 2 ^ 16 -> 0 <= p < 8 -> 0 <= l < 5 -> 0 <= i < 16 ->
  Z.testbit (setPriority f l p) i =
    if decide (12 - 3 * l <= i < 12 - 3 * l + 3) then Z.testbit p (i - (12 - 3 * l)) else Z.testbit f i.
Proof.
  intros Hf Hp Hl Hi. unfold setPriority, setFieldDynamic. rewrite offset_ok by done. set (o := 12 - 3 * l).
  assert (0 <= o <= 12) as Ho by (unfold o; lia).
  assert (0 <= p * 2 ^ o < 2 ^ 15) as Hpo.
  { split; [apply Z.mul_nonneg_nonneg; lia|]. pose proof (Z.pow_le_mono_r 2 o 12 ltac:(lia) ltac:(lia)).
    change (2 ^ 15) with (8 * 2 ^ 12). nia. }
  change (make_unsigned PriorityType) with u16. change (promote u16) with i32. change (width PriorityType - level_bits) with 13.
  change (gen_bit_mask level_bits) with (Z.ones 3).
  rewrite (wrap_u_small PriorityType p) by (done || (change (2 ^ width PriorityType) with 65536; lia)).
  rewrite (wrap_u_small u16 p) by (done || (change (2 ^ width u16) with 65536; lia)).
  assert (wrap i32 (Z.shiftl p 13) = Z.shiftl p 13) as ->.
  { apply wrap_s_small; [auto with vt|]. rewrite Z.shiftl_mul_pow2 by lia. change (2 ^ (width i32 - 1)) with (2 ^ 18 * 2 ^ 13). nia. }
  rewrite Z.shiftr_shiftl_l by lia. rewrite Z.sub_diag, Z.shiftl_0_r.
  assert (wrap i32 (Z.shiftl p o) = Z.shiftl p o) as ->.
  { apply wrap_s_small; [auto with vt|]. rewrite Z.shiftl_mul_pow2 by lia. change (2 ^ (width i32 - 1)) with (2 ^ 31). lia. }
  rewrite !wrap_testbit, Z.lor_spec, !wrap_testbit, Z.land_spec, !wrap_testbit, Z.lnot_spec, wrap_testbit, !Z.shiftl_spec by (simpl; lia).
  case_decide as Hin.
  - rewrite (Z.ones_spec_low 3) by lia. simpl. by rewrite andb_false_r.
  - destruct (decide (i < o)).
    + rewrite !(Z.testbit_neg_r _ (i - o)) by lia. simpl. by rewrite andb_true_r, orb_false_r.
    + rewrite (Z.ones_spec_high 3) by lia. simpl. rewrite andb_true_r.
      assert (Z.testbit p (i - o) = false) as ->; [|by rewrite orb_false_r].
      apply (testbit_above p 3); lia.
Qed.

Lemma priority_range x : 0 <= wrap PriorityType x < 2 ^ 16.
Proof. unfold wrap. simpl. apply Z.mod_pos_bound. lia. Qed.

Lemma setPriority_range f l p : 0 <= setPriority f l p < 2 ^ 16.
Proof. apply priority_range. Qed.

(** Setting a level leaves the levels above it. *)
Lemma upto_set f l l' p : 0 <= f < 2 ^ 16 -> 0 <= p < 8 -> 0 <= l < l' -> l' < 5 ->
  upto l (setPriority f l' p) = upto l f.
Proof.
  intros Hf Hp Hl Hl'. unfold upto. rewrite offset_ok by lia. apply Z.bits_inj'. intros i Hi.
  rewrite !Z.shiftr_spec by done. destruct (decide (i + (12 - 3 * l) < 16)).
  - rewrite setPriority_bits by lia. apply decide_False. lia.
  - pose proof (setPriority_range f l' p). rewrite !(testbit_above _ 16); lia || done.
Qed.

(** The level set is what the levels above it come down to. *)
Lemma upto_same f l p : 0 <= f < 2 ^ 16 -> 0 <= p < 8 -> 0 <= l < 5 ->
  upto l (setPriority f l p) = 8 * Z.shiftr f (level_offset l + 3) + p.
Proof.
  intros Hf Hp Hl. unfold upto. rewrite offset_ok by lia. apply Z.bits_inj'. intros i Hi.
  rewrite Z.shiftr_spec by done.
  assert (8 * Z.shiftr f (12 - 3 * l + 3) + p = Z.lor (Z.shiftl (Z.shiftr f (12 - 3 * l + 3)) 3) p) as ->.
  { assert (Z.land (Z.shiftl (Z.shiftr f (12 - 3 * l + 3)) 3) p = 0) as Hland.
    { apply Z.bits_inj'. intros j Hj. rewrite Z.land_spec, Z.testbit_0_l, Z.shiftl_spec by done.
      destruct (decide (j < 3)); [by rewrite Z.testbit_neg_r by lia|]. rewrite (testbit_above p 3) by lia. apply andb_false_r. }
    rewrite <- Z.lxor_lor, <- Z.add_nocarry_lxor, Z.shiftl_mul_pow2 by (done || lia). lia. }
  rewrite Z.lor_spec, Z.shiftl_spec by done. destruct (decide (i + (12 - 3 * l) < 16)).
  - rewrite setPriority_bits by lia. case_decide.
    + rewrite (Z.testbit_neg_r _ (i - 3)) by lia. simpl. f_equal. lia.
    + rewrite Z.shiftr_spec by lia. rewrite (testbit_above p 3), orb_false_r by lia. f_equal. lia.
  - pose proof (setPriority_range f l p). rewrite (testbit_above _ 16) by lia.
    rewrite (testbit_above p 3), orb_false_r by lia. rewrite Z.shiftr_spec by lia. by rewrite (testbit_above f 16) by lia.
Qed.

Lemma clear_below_spec n l b p k : 0 <= p < 2 ^ 16 -> 0 <= k < l -> l + Z.of_nat n <= 5 ->
  0 <= clear_below n l b p < 2 ^ 16 /\ upto k (clear_below n l b p) = upto k p.
Proof.
  revert l p. induction n as [|n IH]; intros l p Hp Hk Hn; [done|]. simpl.
  destruct (IH (l + 1) (setPriority p l (if b then priority_all_set level_bits else 0))) as [H1 H2];
    [apply setPriority_range|lia|lia|]. split; [done|]. rewrite H2. apply upto_set; [done| |lia|lia].
  destruct b; [by vm_compute|lia].
Qed.

Lemma msgSetPriorityImpl_upto q f l : 0 <= f < 2 ^ 16 -> 0 <= q < 8 -> 0 <= l < 5 ->
  let m := msgSetPriorityImpl q f l in
  env_level m = l /\ 0 <= env_priority m < 2 ^ 16 /\ (forall k, 0 <= k < l -> upto k (env_priority m) = upto k f) /\
  exists g, 0 <= g < 2 ^ 16 /\ (forall k, 0 <= k <= l -> upto k g = upto k f) /\ env_priority m = setPriority g l q.
Proof.
  intros Hf Hq Hl m. assert (num_levels = 5) as E5 by done. set (g := clear_below (Z.to_nat (num_levels - (l + 1))) (l + 1) (q =? BreadthFirst) f).
  assert (0 <= g < 2 ^ 16 /\ forall k, 0 <= k <= l -> upto k g = upto k f) as [Hg Hk].
  { split; [|intros k Hk]; apply (clear_below_spec _ (l + 1) _ f 0) || apply (clear_below_spec _ (l + 1) _ f k); lia. }
  split_and!; [done|apply setPriority_range..|intros k Hkl|].
  - change (env_priority m) with (setPriority g l q). rewrite upto_set by lia. apply Hk. lia.
  - by exists g.
Qed.

(** The messages made from [m] with [msgSetPriorityFrom], one level further down each time
    while there is one. *)
Inductive spawned (m : Env) : Env -> Prop :=
  | spawned_self : spawned m m
  | spawned_from m' q : spawned m m' -> 0 <= q < 8 -> spawned m (msgSetPriorityFrom m' q true).

Definition env_ok (m : Env) : Prop := 0 <= env_priority m < 2 ^ 16 /\ 0 <= env_level m < 5.

Lemma next_level l : 0 <= l < 5 -> 
  (if true && (l + 1 <? num_levels) then wrap PriorityLevelType (l + 1) else l) = Z.min (l + 1) 4.
Proof.
  intros Hl. change num_levels with 5. cbn [andb]. destruct (Z.ltb_spec (l + 1) 5); [|lia].
  rewrite wrap_u_small; [lia|done|]. simpl. lia.
Qed.

Lemma spawned_upto m m' : env_ok m -> env_level m < 4 -> spawned m m' ->
  env_ok m' /\ env_level m <= env_level m' /\ upto (env_level m) (env_priority m') = upto (env_level m) (env_priority m).
Proof.
  intros Hm Hl. induction 1 as [|m' q _ IH Hq]; [done|]. destruct IH as ([Hp' Hl'] & Hle & IH).
  destruct (msgSetPriorityImpl_upto q (env_priority m') (Z.min (env_level m' + 1) 4) Hp' Hq ltac:(lia)) as (E1 & E2 & E3 & _).
  unfold msgSetPriorityFrom. rewrite next_level by done. unfold env_ok. rewrite E1. split_and!; try lia.
  rewrite E3 by (destruct Hm; lia). done.
Qed.

Lemma upto_mono l x y : 0 <= l < 5 -> upto l x < upto l y -> x < y.
Proof.
  intros Hl. unfold upto. rewrite offset_ok, !Z.shiftr_div_pow2 by lia. intros H.
  destruct (decide (x < y)); [done|]. pose proof (Z.div_le_mono y x (2 ^ (12 - 3 * l)) ltac:(pow2_pos (12 - 3 * l); lia)). lia.
Qed.

End PriorityFacts.

Module PrioritySpec.
Import Priority PriorityFacts.

(** A level's priority is read back as it was set, and setting it changes no other
    level's. *)
Theorem priority_roundtrip f l p l' :
  0 <= f < 2 ^ 16 -> 0 <= p < 8 -> 0 <= l < 5 -> 0 <= l' < 5 ->
  getPriority (setPriority f l p) l' = if decide (l' = l) then p else getPriority f l'.
Proof.
  intros Hf Hp Hl Hl'. 
  assert (forall g, 0 <= g < 2 ^ 16 -> getPriority g l' = Z.land (Z.shiftr g (12 - 3 * l')) (Z.ones 3)) as Hget.
  { intros g Hg. unfold getPriority, getFieldDynamic. rewrite offset_ok by done. change (level_bits <? width PriorityType) with true.
    change (gen_bit_mask level_bits) with (Z.ones 3). cbv beta iota zeta. rewrite Z.shiftr_div_pow2 by lia.
    pow2_pos (12 - 3 * l'). pose proof (Z.div_pos g (2 ^ (12 - 3 * l')) ltac:(lia) ltac:(lia)).
    pose proof (Z.div_le_upper_bound g (2 ^ (12 - 3 * l')) (2 ^ 16) ltac:(lia) ltac:(nia)).
    rewrite (wrap_u_small u64) by (done || (change (2 ^ width u64) with (2 ^ 64); lia)). rewrite Z.land_ones by lia.
    rewrite wrap_u_small; [done|done|]. pose proof (Z.mod_pos_bound (g / 2 ^ (12 - 3 * l')) (2 ^ 3)). simpl width. lia. }
  rewrite !Hget by (apply setPriority_range || done). apply Z.bits_inj'. intros i Hi.
  rewrite Z.land_spec, Z.shiftr_spec by done. destruct (decide (i < 3)) as [H3|H3].
  - rewrite Z.ones_spec_low, andb_true_r, setPriority_bits by lia. repeat case_decide; try lia.
    + f_equal. lia.
    + rewrite Z.land_spec, Z.ones_spec_low, andb_true_r, Z.shiftr_spec by lia. done.
  - rewrite Z.ones_spec_high, andb_false_r by lia. case_decide.
    + by rewrite (testbit_above p 3) by lia.
    + by rewrite Z.land_spec, Z.ones_spec_high, andb_false_r by lia.
Qed.

(** Priorities nest: of two messages given different priorities below the same message,
    everything spawned by the one with the higher priority, at any depth and with whatever
    priorities, comes before everything spawned by the other. *)
Theorem spawned_work_nests m q1 q2 d1 d2 :
  env_ok m -> env_level m < 3 -> 0 <= q1 < q2 -> q2 < 8 ->
  spawned (msgSetPriorityFrom m q1 true) d1 -> spawned (msgSetPriorityFrom m q2 true) d2 ->
  env_priority d1 < env_priority d2.
Proof.
  intros [Hp Hl] Hl3 Hq1 Hq2 H1 H2. unfold msgSetPriorityFrom in *. rewrite next_level in H1, H2 by done.
  replace (Z.min (env_level m + 1) 4) with (env_level m + 1) in * by lia. set (l := env_level m + 1) in *.
  destruct (msgSetPriorityImpl_upto q1 (env_priority m) l Hp ltac:(lia) ltac:(unfold l; lia)) as (L1 & R1 & _ & g1 & G1 & U1 & P1).
  destruct (msgSetPriorityImpl_upto q2 (env_priority m) l Hp ltac:(lia) ltac:(unfold l; lia)) as (L2 & R2 & _ & g2 & G2 & U2 & P2).
  assert (0 <= l < 4) as Hl4 by (unfold l; lia).
  apply spawned_upto in H1 as (_ & _ & E1); [|split; [done|rewrite L1; lia]|rewrite L1; lia].
  apply spawned_upto in H2 as (_ & _ & E2); [|split; [done|rewrite L2; lia]|rewrite L2; lia].
  rewrite L1 in E1. rewrite L2 in E2. apply (upto_mono l); [unfold l; lia|]. rewrite E1, E2, P1, P2.
  rewrite !upto_same by (unfold l; lia).
  assert (Z.shiftr g1 (level_offset l + 3) = Z.shiftr g2 (level_offset l + 3)) as ->; [|lia].
  pose proof (U1 (env_level m) ltac:(unfold l; lia)) as V1. pose proof (U2 (env_level m) ltac:(unfold l; lia)) as V2.
  unfold upto in V1, V2. rewrite !offset_ok in * by (unfold l; lia).
  replace (12 - 3 * l + 3) with (12 - 3 * env_level m) by (unfold l; lia). congruence.
Qed.

(** The masks behind [min_priority] and [default_priority] and the fields that
    [setPriority] writes are one bit apart: of the priorities a message can be given by
    name, all but the first two are lower than the [min_priority] of a message that was
    given none, and only [BreadthFirst] is as high as [default_priority]. *)
Theorem named_priorities_below_default p :
  p ∈ [Highest; High; MediumHigh; Medium; MediumLow; Low; Lowest] ->
  (p <> Highest -> env_priority (msgSetPriority p false) < env_priority envelopeInit) /\
  exists d, default_priority level_bits = Some d /\ env_priority (msgSetPriority p false) < d.
Proof.
  intros Hp. split; [intros Hne|exists 28086; split; [done|]]; repeat (apply elem_of_cons in Hp as [->|Hp]; [by vm_compute|]);
    try by apply elem_of_nil in Hp.
Qed.

Lemma priority_roundtrip_witness : getPriority (setPriority 24576 1 5) 1 = 5.
Proof. rewrite (priority_roundtrip 24576 1 5 1) by lia. reflexivity. Defined.

Lemma spawned_work_nests_witness :
  env_priority (msgSetPriorityFrom (msgSetPriorityFrom envelopeInit Low true) High true) <
  env_priority (msgSetPriorityFrom envelopeInit Medium true).
Proof.
  apply (spawned_work_nests envelopeInit Low Medium).
  - split; vm_compute; split; discriminate || reflexivity.
  - reflexivity.
  - unfold Low, Medium. lia.
  - reflexivity.
  - apply spawned_from; [apply spawned_self|unfold High; lia].
  - apply spawned_self.
Defined.

Lemma named_priorities_below_default_witness : env_priority (msgSetPriority High false) < env_priority envelopeInit.
Proof. apply (named_priorities_below_default High); [right; left|done]. Defined.

(** With one or two bits a level, for which [enum Priority] has values too, no bit is left
    over and the masks shift by a negative number. *)
Lemma masks_need_a_bit_left : default_priority 1 = None /\ default_priority 2 = None /\ default_priority 3 = Some 28086.
Proof. by vm_compute. Qed.

End PrioritySpec.
