(* ===== verification/Scheduler.v ===== *)
(** * The scheduler

    Models [src/vt/scheduler/scheduler.{h,cc,impl.h}] and the work units
    ([base_unit.{h,cc}], [prioritized_work_unit.h]): a queue of work, the components that
    are polled for more, and the triggers run when the scheduler goes idle or starts a
    loop. A unit of work may enqueue more work and run the scheduler itself. *)

From S2P Require Import Prelude.
From S2P Require Import Effects.
From S2P Require Import Queue.

Module Scheduler.

(** [enum SchedulerEvent]. *)
Definition BeginIdle : Z := 0.
Definition EndIdle : Z := 1.
Definition BeginIdleMinusTerm : Z := 2.
Definition EndIdleMinusTerm : Z := 3.
Definition BeginSchedulerLoop : Z := 4.
Definition EndSchedulerLoop : Z := 5.
Definition PendingSchedulerLoop : Z := 6.
Definition LastSchedulerEvent : Z := 6.

(** What a unit of work does with the scheduler, in order: enqueue another unit, register or
    trigger an event's triggers, run the scheduler until some units have run. *)
Inductive action :=
  | Enqueue (is_term runnable : bool) (priority id : Z) (work : list action)
  | Register (once : bool) (event trigger : Z)
  | Trigger (event : Z)
  | RunUntil (ids : list Z).

(** [PriorityUnit]; a [BaseUnit] is one whose priority is not looked at. The work is a
    runnable ([r_]) or a function ([work_]). *)
Record Unit_ := MkUnit { is_term_ : bool; runnable_ : bool; priority_ : Z; id_ : Z; work_ : list action }.

(** [operator<]. *)
Definition unit_lt (lhs rhs : Unit_) : bool := priority_ lhs <? priority_ rhs.

Inductive output :=
  | Queued (u : Unit_)
  | Started (u : Unit_)
  | Event (e : Z)
  | Fired (e trigger : Z)
  | MaybePropagate.

(** The configuration: [vt_sched_progress_han], [vt_sched_progress_sec] (in ticks of the
    clock), [vt_sched_num_progress], the number of nodes, and whether a component asks for
    the time ([needsCurrentTime]). *)
Record Config := MkConfig { progress_han : Z; progress_sec : Z; num_progress : Z; cfg_nodes : Z; needs_time : bool }.

Record IdleState := MkIdle { is_idle : bool; is_idle_minus_term : bool; num_term_msgs_ : Z }.

(** [polls] and [reads] count the calls of the environment. *)
Record ProgressState := MkProgress {
  last_progress_time_ : Z;
  processed_after_last_progress_ : Z;
  recent_time_ : Z;
  is_recent_time_stale_ : bool;
  polls : nat;
  reads : nat
}.

Section scheduler.
Context {Q : Type} `{WorkQueue Q Unit_}.
Context (cfg : Config).
(** The outside: the units that the components put in at a poll, and the clock. *)
Context (arrives : nat -> bool -> list Unit_) (clock : nat -> Z).

(** [ran] is the history of the units that have run, what loop conditions look at. *)
Record Scheduler := MkSched {
  work_queue_ : Q;
  has_executed_ : bool;
  idle : IdleState;
  in_sched_depth_ : Z;
  event_triggers : list (list Z);
  event_triggers_once : list (list Z);
  progress : ProgressState;
  ran : list Z
}.

Definition special_progress_ : bool := negb (progress_han cfg =? 0) || negb (progress_sec cfg =? 0).
Definition progress_time_enabled_ : bool := negb (progress_sec cfg =? 0).

(** The constructor, and [startup]. *)
Definition make : Scheduler :=
  let event_count := Z.to_nat (LastSchedulerEvent + 1) in
  MkSched wq_make false (MkIdle true true 0) 0 (replicate event_count []) (replicate event_count [])
    (MkProgress 0 0 0 true 0 0) [].

Definition with_queue (q : Q) (s : Scheduler) : Scheduler :=
  MkSched q (has_executed_ s) (idle s) (in_sched_depth_ s) (event_triggers s) (event_triggers_once s) (progress s) (ran s).
Definition with_executed (s : Scheduler) : Scheduler :=
  MkSched (work_queue_ s) true (idle s) (in_sched_depth_ s) (event_triggers s) (event_triggers_once s) (progress s) (ran s).
Definition with_idle (i : IdleState) (s : Scheduler) : Scheduler :=
  MkSched (work_queue_ s) (has_executed_ s) i (in_sched_depth_ s) (event_triggers s) (event_triggers_once s) (progress s) (ran s).
Definition with_depth (d : Z) (s : Scheduler) : Scheduler :=
  MkSched (work_queue_ s) (has_executed_ s) (idle s) d (event_triggers s) (event_triggers_once s) (progress s) (ran s).
Definition with_triggers (t once : list (list Z)) (s : Scheduler) : Scheduler :=
  MkSched (work_queue_ s) (has_executed_ s) (idle s) (in_sched_depth_ s) t once (progress s) (ran s).
Definition with_progress (p : ProgressState) (s : Scheduler) : Scheduler :=
  MkSched (work_queue_ s) (has_executed_ s) (idle s) (in_sched_depth_ s) (event_triggers s) (event_triggers_once s) p (ran s).
Definition with_ran (l : list Z) (s : Scheduler) : Scheduler :=
  MkSched (work_queue_ s) (has_executed_ s) (idle s) (in_sched_depth_ s) (event_triggers s) (event_triggers_once s) (progress s) l.

Definition set_idle (b : bool) (i : IdleState) : IdleState := MkIdle b (is_idle_minus_term i) (num_term_msgs_ i).
Definition set_idle_minus_term (b : bool) (i : IdleState) : IdleState := MkIdle (is_idle i) b (num_term_msgs_ i).
Definition add_term (d : Z) (i : IdleState) : IdleState := MkIdle (is_idle i) (is_idle_minus_term i) (num_term_msgs_ i + d).

Abbreviation M := (Eff Scheduler output).

Definition list_at (l : list (list Z)) (e : Z) : option (list Z) := if e <? 0 then None else l !! Z.to_nat e.

(** Beyond the vector the behaviour is undefined. *)
Definition triggers_of (l : list (list Z)) (e : Z) : M (list Z) :=
  match list_at l e with Some ts => mret ts | None => lift (Stop AbortCalled) end.

(** The triggers do not use the scheduler. *)
Definition triggerEvent (e : Z) : M unit :=
  s ← get;
  assert_ (e <=? Z.of_nat (length (event_triggers s)));;
  emit (Event e);;
  ts ← triggers_of (event_triggers s) e;
  for_each ts (fun t => emit (Fired e t));;
  once ← triggers_of (event_triggers_once s) e;
  for_each once (fun t => emit (Fired e t));;
  modify (with_triggers (event_triggers s) (<[Z.to_nat e := []]> (event_triggers_once s))).

Definition registerTrigger (e trigger : Z) : M unit :=
  s ← get;
  assert_ (e <=? Z.of_nat (length (event_triggers s)));;
  ts ← triggers_of (event_triggers s) e;
  modify (with_triggers (<[Z.to_nat e := ts ++ [trigger]]> (event_triggers s)) (event_triggers_once s)).

Definition registerTriggerOnce (e trigger : Z) : M unit :=
  s ← get;
  assert_ (e <=? Z.of_nat (length (event_triggers s)));;
  ts ← triggers_of (event_triggers_once s) e;
  modify (with_triggers (event_triggers s) (<[Z.to_nat e := ts ++ [trigger]]> (event_triggers_once s))).

(** All the [enqueue]s: [u] with its priority and whether it is a termination message. *)
Definition enqueue (u : Unit_) : M unit :=
  (if is_term_ u then modify (fun s => with_idle (add_term 1 (idle s)) s) else nop);;
  emit (Queued u);;
  modify (fun s => with_queue (wq_emplace u (work_queue_ s)) s).

Definition queue_is_empty : M bool := s ← get; lift (wq_empty (work_queue_ s)).

Definition isIdleMinusTerm (s : Scheduler) : bool := wq_size (work_queue_ s) =? num_term_msgs_ (idle s).

Definition getRecentTime : M Z :=
  s ← get;
  let p := progress s in
  if is_recent_time_stale_ p then
    let now := clock (reads p) in
    modify (with_progress (MkProgress (last_progress_time_ p) (processed_after_last_progress_ p) now false (polls p) (S (reads p))));;
    mret now
  else mret (recent_time_ p).

Definition shouldCallProgress (processed_since_last_progress time_since_last_progress : Z) : bool :=
  let k_handler_enabled := negb (progress_han cfg =? 0) in
  let k_handlers_executed := k_handler_enabled && (progress_han cfg <=? processed_since_last_progress) in
  let enough_time_passed := progress_time_enabled_ && (progress_sec cfg <? time_since_last_progress) in
  (negb progress_time_enabled_ && negb k_handler_enabled) || enough_time_passed || k_handlers_executed.

(** [progressImpl] and [progressMsgOnlyImpl]: what the polled components put in. *)
Definition progressImpl (msg_only : bool) : M unit :=
  s ← get;
  let p := progress s in
  modify (with_progress (MkProgress (last_progress_time_ p) (processed_after_last_progress_ p) (recent_time_ p)
    (is_recent_time_stale_ p) (S (polls p)) (reads p)));;
  for_each (arrives (polls p) msg_only) enqueue;;
  (if negb msg_only && (cfg_nodes cfg =? 1) then emit MaybePropagate else nop).

Definition set_stale (s : Scheduler) : Scheduler :=
  let p := progress s in
  with_progress (MkProgress (last_progress_time_ p) (processed_after_last_progress_ p) (recent_time_ p) true (polls p) (reads p)) s.

Definition runProgress (msg_only : bool) : M unit :=
  let num_iter := Z.max 1 (num_progress cfg) in
  for_each (replicate (Z.to_nat num_iter) tt) (fun _ => progressImpl msg_only);;
  modify set_stale;;
  if special_progress_ then
    now ← getRecentTime;
    modify (fun s => let p := progress s in
      with_progress (MkProgress now 0 (recent_time_ p) (is_recent_time_stale_ p) (polls p) (reads p)) s)
  else nop.

Definition count_processed (s : Scheduler) : Scheduler :=
  let p := progress s in
  with_progress (MkProgress (last_progress_time_ p) (processed_after_last_progress_ p + 1) (recent_time_ p)
    (is_recent_time_stale_ p) (polls p) (reads p)) s.

(** When the components are polled. *)
Definition maybeProgress (msg_only : bool) : M unit :=
  if special_progress_ then
    current_time ← getRecentTime;
    s ← get;
    let time_since_last_progress := current_time - last_progress_time_ (progress s) in
    if shouldCallProgress (processed_after_last_progress_ (progress s)) time_since_last_progress
    then runProgress msg_only else nop
  else
    empty ← queue_is_empty;
    if empty : bool then (if needs_time cfg then getRecentTime;; runProgress msg_only else runProgress msg_only) else nop.

Definition leave_idle : M unit :=
  s ← get;
  if is_idle (idle s) then modify (fun s => with_idle (set_idle false (idle s)) s);; triggerEvent EndIdle else nop.

Definition enter_idle : M unit :=
  s ← get;
  if is_idle (idle s) then nop
  else
    empty ← queue_is_empty;
    if empty : bool then modify (fun s => with_idle (set_idle true (idle s)) s);; triggerEvent BeginIdle else nop.

Definition leave_idle_minus_term : M unit :=
  s ← get;
  if is_idle_minus_term (idle s) && negb (isIdleMinusTerm s)
  then modify (fun s => with_idle (set_idle_minus_term false (idle s)) s);; triggerEvent EndIdleMinusTerm else nop.

Definition enter_idle_minus_term : M unit :=
  s ← get;
  if negb (is_idle_minus_term (idle s)) && isIdleMinusTerm s
  then modify (fun s => with_idle (set_idle_minus_term true (idle s)) s);; triggerEvent BeginIdleMinusTerm else nop.

(** [RunUntil]'s condition: some of the units has not run. *)
Definition not_all_run (ids : list Z) (ran : list Z) : bool := negb (forallb (fun i => bool_decide (i ∈ ran)) ids).

Definition runAction (runSchedulerWhile : (list Z -> bool) -> M unit) (a : action) : M unit :=
  match a with
  | Enqueue is_term runnable priority id work => enqueue (MkUnit is_term runnable priority id work)
  | Register true e t => registerTriggerOnce e t
  | Register false e t => registerTrigger e t
  | Trigger e => triggerEvent e
  | RunUntil ids => runSchedulerWhile (not_all_run ids)
  end.

(** [BaseUnit::execute]. *)
Definition execute (runSchedulerWhile : (list Z -> bool) -> M unit) (u : Unit_) : M unit :=
  for_each (work_ u) (runAction runSchedulerWhile);;
  modify (fun s => with_ran (ran s ++ [id_ u]) s);;
  (if runnable_ u then nop else modify set_stale).

Definition runWorkUnit (runSchedulerWhile : (list Z -> bool) -> M unit) (u : Unit_) : M unit :=
  emit (Started u);;
  execute runSchedulerWhile u;;
  (if is_term_ u then modify (fun s => with_idle (add_term (-1) (idle s)) s) else nop).

Definition pop_work : M Unit_ :=
  s ← get;
  r ← lift (wq_pop (work_queue_ s));
  modify (with_queue (r.2));;
  mret r.1.

Definition runSchedulerOnceImpl (runSchedulerWhile : (list Z -> bool) -> M unit) (msg_only : bool) : M unit :=
  maybeProgress msg_only;;
  empty ← queue_is_empty;
  (if negb empty then
     modify count_processed;;
     leave_idle;;
     leave_idle_minus_term;;
     work ← pop_work;
     runWorkUnit runSchedulerWhile work
   else
     enter_idle_minus_term;;
     enter_idle);;
  (if negb msg_only then modify with_executed else nop).

Fixpoint while_loop (n : nat) (cond : list Z -> bool) (body : M unit) : M unit :=
  match n with
  | O => lift (Stop NoReturn)
  | S n =>
      s ← get;
      if cond (ran s) then body;; while_loop n cond body else nop
  end.

(** The guard's constructor and destructor are the first and the last steps. *)
Fixpoint runSchedulerWhile (fuel : nat) (cond : list Z -> bool) : M unit :=
  match fuel with
  | O => lift (Stop NoReturn)
  | S fuel =>
      modify (fun s => with_depth (in_sched_depth_ s + 1) s);;
      triggerEvent BeginSchedulerLoop;;
      enter_idle;;
      while_loop fuel cond (runSchedulerOnceImpl (runSchedulerWhile fuel) false);;
      leave_idle;;
      triggerEvent EndSchedulerLoop;;
      modify (fun s => with_depth (in_sched_depth_ s - 1) s)
  end.

End scheduler.
Arguments Scheduler Q : clear implicits.
End Scheduler.
