(* ===== verification/SchedulerFacts.v ===== *)
(** * What every step of the scheduler keeps

    The outputs of a run replay against the queue ([replay]), the idle events alternate
    ([alternate]), and the count of termination messages is exact up to those that run
    ([surplus]); each operation is shown to add a piece of such a run ([Step]), and pieces
    compose. *)

From S2P Require Import Prelude.
From S2P Require Import Sums.
From S2P Require Import Effects.
From S2P Require Import Queue.
From S2P Require Import Scheduler.

Module SchedulerFacts.
Import Scheduler.

(** ** Programs whose events exist *)

(** Events that code outside the scheduler may trigger: not those of idle times. *)
Definition outside_event (e : Z) : bool := (4 <=? e) && (e <=? LastSchedulerEvent).
Definition known_event (e : Z) : bool := (0 <=? e) && (e <=? LastSchedulerEvent).

(** [loops]: whether units may run the scheduler. *)
Fixpoint action_ok (loops : bool) (a : action) : bool :=
  match a with
  | Enqueue _ _ _ _ work => forallb (action_ok loops) work
  | Register _ e _ => known_event e
  | Trigger e => outside_event e
  | RunUntil _ => loops
  end.

Definition unit_ok (loops : bool) (u : Unit_) : bool := forallb (action_ok loops) (work_ u).

(** ** Traces *)

Section traces.
Context (next : list Unit_ -> Unit_ -> list Unit_ -> Prop).

(** [replay w os w']: with [w] waiting at first and [w'] at last, every unit started was
    waiting, and [next] allowed it. *)
Inductive replay : list Unit_ -> list output -> list Unit_ -> Prop :=
  | replay_nil w : replay w [] w
  | replay_queued w u os w' : replay (w ++ [u]) os w' -> replay w (Queued u :: os) w'
  | replay_started l1 u l2 os w' :
      next l1 u l2 -> replay (l1 ++ l2) os w' -> replay (l1 ++ u :: l2) (Started u :: os) w'
  | replay_event w e os w' : replay w os w' -> replay w (Event e :: os) w'
  | replay_fired w e t os w' : replay w os w' -> replay w (Fired e t :: os) w'
  | replay_propagate w os w' : replay w os w' -> replay w (MaybePropagate :: os) w'.

Lemma replay_app w os w1 os' w2 : replay w os w1 -> replay w1 os' w2 -> replay w (os ++ os') w2.
Proof. induction 1; intros H2; simpl; try constructor; auto. Qed.

End traces.

(** The events [b] and [e] alternate, [b] first when [on] is false; with [strict], no unit
    starts in between a [b] and an [e]. *)
Inductive alternate (b e : Z) (strict : bool) : bool -> list output -> bool -> Prop :=
  | alt_nil on : alternate b e strict on [] on
  | alt_begin os on : alternate b e strict true os on -> alternate b e strict false (Event b :: os) on
  | alt_end os on : alternate b e strict false os on -> alternate b e strict true (Event e :: os) on
  | alt_started u on os on' : (strict = true -> on = false) -> alternate b e strict on os on' -> alternate b e strict on (Started u :: os) on'
  | alt_other o on os on' : match o with Started _ => False | Event x => x <> b /\ x <> e | _ => True end ->
      alternate b e strict on os on' -> alternate b e strict on (o :: os) on'.

Lemma alternate_app b e st on os on1 os' on2 :
  alternate b e st on os on1 -> alternate b e st on1 os' on2 -> alternate b e st on (os ++ os') on2.
Proof.
  induction 1; intros H2; simpl; [done|apply alt_begin|apply alt_end|apply alt_started|apply alt_other]; auto.
Qed.

Lemma alternate_quiet b e st on os :
  Forall (fun o => match o with Started _ => False | Event x => x <> b /\ x <> e | _ => True end) os ->
  alternate b e st on os on.
Proof. induction 1; [constructor|by apply alt_other]. Qed.

(** ** States *)

Section scheduler.
Context {Q : Type} `{LawfulQueue Q Unit_}.
Context (loops : bool) (cfg : Config) (arrives : nat -> bool -> list Unit_) (clock : nat -> Z).
Hypothesis arrivals_ok : forall k b, Forall (fun u => unit_ok loops u = true) (arrives k b).

Abbreviation Sched := (Scheduler Q).
Abbreviation M := (Eff Sched output).
(** Only a program that runs the scheduler from its units can fail to return. *)
Abbreviation wp := (Effects.wp (loops = true)).

Definition items (s : Sched) : list Unit_ := wq_items (work_queue_ s).
Definition terms (l : list Unit_) : Z := lsum (fun u => b2z (is_term_ u)) l.

(** The termination messages counted but not in the queue: those that run. *)
Definition surplus (s : Sched) : Z := num_term_msgs_ (idle s) - terms (items s).

Record Good (s : Sched) : Prop := {
  good_queue : wq_ok (work_queue_ s);
  good_items : Forall (fun u => unit_ok loops u = true) (items s);
  good_triggers : length (event_triggers s) = 7%nat;
  good_once : length (event_triggers_once s) = 7%nat
}.

Record Step (s : Sched) (os : list output) (s' : Sched) : Prop := {
  step_good : Good s';
  step_replay : replay wq_next (items s) os (items s');
  step_idle : alternate BeginIdle EndIdle true (is_idle (idle s)) os (is_idle (idle s'));
  step_minus : alternate BeginIdleMinusTerm EndIdleMinusTerm false (is_idle_minus_term (idle s)) os (is_idle_minus_term (idle s'));
  step_surplus : surplus s' = surplus s;
  step_depth : in_sched_depth_ s' = in_sched_depth_ s
}.

Lemma Step_refl s : Good s -> Step s [] s.
Proof. intros Hg. split; [done|constructor|constructor|constructor|done|done]. Qed.

Lemma Step_app s o1 s1 o2 s2 : Step s o1 s1 -> Step s1 o2 s2 -> Step s (o1 ++ o2) s2.
Proof.
  intros [] []. split; [done|by eapply replay_app|by eapply alternate_app|by eapply alternate_app|congruence|congruence].
Qed.

(** An operation that adds steps. *)
Definition steps {A} (m : M A) : Prop := forall s, Good s -> wp m s (fun _ s' os => Step s os s').

(** The same while the scheduler is busy, which it stays. *)
Definition busy_steps {A} (m : M A) : Prop :=
  forall s, Good s -> is_idle (idle s) = false -> wp m s (fun _ s' os => Step s os s' /\ is_idle (idle s') = false).

Lemma steps_bind {A B} (m : M A) (f : A -> M B) : steps m -> (forall a, steps (f a)) -> steps (m ≫= f).
Proof.
  intros Hm Hf s Hs. apply wp_bind. eapply wp_mono; [|by apply Hm]. intros a s1 o1 H1; cbv beta in H1.
  eapply wp_mono; [|eapply Hf, step_good, H1]. intros b s2 o2 H2. by eapply Step_app.
Qed.

Lemma busy_bind {A B} (m : M A) (f : A -> M B) : busy_steps m -> (forall a, busy_steps (f a)) -> busy_steps (m ≫= f).
Proof.
  intros Hm Hf s Hs Hb. apply wp_bind. eapply wp_mono; [|by apply Hm]. intros a s1 o1 [H1 B1].
  eapply wp_mono; [|eapply Hf; [eapply step_good, H1|done]]. intros b s2 o2 [H2 B2]. split; [by eapply Step_app|done].
Qed.

Lemma steps_for_each {A} (l : list A) (f : A -> M unit) : (forall a, a ∈ l -> steps (f a)) -> steps (for_each l f).
Proof.
  induction l as [|a l IH]; intros Hf; [intros s Hs; by apply wp_ret, Step_refl|].
  apply steps_bind; [apply Hf; left|]. intros _. apply IH. intros b Hb. apply Hf. by right.
Qed.

Lemma busy_for_each {A} (l : list A) (f : A -> M unit) : (forall a, a ∈ l -> busy_steps (f a)) -> busy_steps (for_each l f).
Proof.
  induction l as [|a l IH]; intros Hf; [intros s Hs Hb; apply wp_ret; split; [by apply Step_refl|done]|].
  apply busy_bind; [apply Hf; left|]. intros _. apply IH. intros b Hb. apply Hf. by right.
Qed.

(** Changes that none of this looks at. *)
Definition same_parts (s s' : Sched) : Prop :=
  work_queue_ s' = work_queue_ s /\ idle s' = idle s /\ in_sched_depth_ s' = in_sched_depth_ s /\
  length (event_triggers s') = length (event_triggers s) /\ length (event_triggers_once s') = length (event_triggers_once s).

Lemma Step_same s os s' : Good s -> same_parts s s' ->
  Forall (fun o => match o with Fired _ _ | MaybePropagate => True | Event e => 4 <= e | _ => False end) os ->
  Step s os s'.
Proof.
  intros [G1 G2 G3 G4] (E1 & E2 & E3 & E4 & E5) Hos.
  assert (forall b e st on, b < 4 -> e < 4 -> alternate b e st on os on) as Ha.
  { intros b e st on Hb He. apply alternate_quiet. eapply Forall_impl; [done|]. intros []; simpl; try done. lia. }
  split.
  - split; unfold items in *; rewrite ?E1, ?E4, ?E5; done.
  - clear Ha. unfold items. rewrite E1. induction Hos as [|o os Ho _ IH]; [constructor|]. destruct o; try done; by constructor.
  - rewrite E2. by apply Ha.
  - rewrite E2. by apply Ha.
  - unfold surplus, items. by rewrite E1, E2.
  - done.
Qed.

Lemma steps_modify_same f : (forall s, same_parts s (f s)) -> steps (modify f).
Proof. intros Hf s Hs. apply wp_modify, Step_same; [done|apply Hf|constructor]. Qed.

(** Steps that leave the idle flag. *)
Definition steady {A} (m : M A) : Prop :=
  forall s, Good s -> wp m s (fun _ s' os => Step s os s' /\ is_idle (idle s') = is_idle (idle s)).

Lemma steady_steps {A} (m : M A) : steady m -> steps m.
Proof. intros Hm s Hs. eapply wp_mono; [|by apply Hm]. by intros ? ? ? [? ?]. Qed.

Lemma steady_busy {A} (m : M A) : steady m -> busy_steps m.
Proof. intros Hm s Hs Hb. eapply wp_mono; [|by apply Hm]. intros ? ? ? [? ->]. done. Qed.

(** ** The operations *)

Lemma idle_events_lt : BeginIdle < 4 /\ EndIdle < 4 /\ BeginIdleMinusTerm < 4 /\ EndIdleMinusTerm < 4.
Proof. done. Qed.

Lemma wp_triggers_of l e s (Φ : list Z -> Sched -> list output -> Prop) :
  0 <= e <= 6 -> length l = 7%nat -> (forall ts, Φ ts s []) -> wp (triggers_of l e) s Φ.
Proof.
  intros He Hl HΦ. unfold triggers_of, list_at. destruct (Z.ltb_spec e 0); [lia|].
  destruct (lookup_lt_is_Some_2 l (Z.to_nat e)) as [ts ->]; [lia|]. by apply wp_ret.
Qed.

Lemma wp_fire e ts s (Φ : unit -> Sched -> list output -> Prop) :
  Φ tt s (Fired e <$> ts) -> wp (for_each ts (fun t => emit (Fired e t))) s Φ.
Proof.
  revert Φ. induction ts as [|t ts IH]; intros Φ HΦ; [by apply wp_ret|]. simpl. apply wp_bind, wp_emit, IH. done.
Qed.

(** An event is reported, with its triggers. *)
Lemma wp_triggerEvent e s : Good s -> 0 <= e <= 6 ->
  wp (triggerEvent e) s (fun _ s' os => same_parts s s' /\
    exists rest, os = Event e :: rest /\ Forall (fun o => match o with Fired _ _ => True | _ => False end) rest).
Proof.
  intros [G1 G2 G3 G4] He. unfold triggerEvent. apply wp_bind, wp_get, wp_bind, wp_assert; [rewrite G3; apply Z.leb_le; lia|].
  apply wp_bind, wp_emit, wp_bind, wp_triggers_of; [done|done|]. intros ts.
  apply wp_bind, wp_fire, wp_bind, wp_triggers_of; [done|done|]. intros once.
  apply wp_bind, wp_fire, wp_modify. split.
  - unfold same_parts. simpl. by rewrite length_insert.
  - exists ((Fired e <$> ts) ++ (Fired e <$> once)). split; [by rewrite app_nil_r|].
    apply Forall_app. split; by apply Forall_fmap, Forall_true.
Qed.

Lemma fired_quiet rest : Forall (fun o => match o with Fired _ _ => True | _ => False end) rest ->
  Forall (fun o => match o with Fired _ _ | MaybePropagate => True | Event e => 4 <= e | _ => False end) rest.
Proof. intros Hr. eapply Forall_impl; [done|]. by intros []. Qed.

Lemma steady_triggerEvent e : 4 <= e <= 6 -> steady (triggerEvent e).
Proof.
  intros He s Hs. eapply wp_mono; [|apply wp_triggerEvent; [done|lia]]. intros _ s' os (Hp & rest & -> & Hr).
  split; [|by destruct Hp as (_ & -> & _)]. apply Step_same; [done|done|]. constructor; [lia|by apply fired_quiet].
Qed.

Lemma steady_register once e t : known_event e = true ->
  steady (if once : bool then registerTriggerOnce e t else registerTrigger e t).
Proof.
  intros He s Hs. unfold known_event, LastSchedulerEvent in He. pose proof Hs as [G1 G2 G3 G4].
  destruct once; unfold registerTriggerOnce, registerTrigger; apply wp_bind, wp_get, wp_bind, wp_assert;
    try (rewrite G3; apply Z.leb_le; lia); apply wp_bind, wp_triggers_of; try lia; intros ts; apply wp_modify;
    (split; [|done]); (apply Step_same; [done| |constructor]); unfold same_parts; simpl; by rewrite length_insert.
Qed.

Lemma steady_enqueue u : unit_ok loops u = true -> steady (enqueue u).
Proof.
  intros Hu s Hs. pose proof Hs as [G1 G2 G3 G4]. unfold enqueue.
  assert (forall i, surplus (with_idle i s) = num_term_msgs_ i - terms (items s)) as Hsur by done.
  assert (forall s1 : Sched, work_queue_ s1 = work_queue_ s -> event_triggers s1 = event_triggers s ->
    event_triggers_once s1 = event_triggers_once s -> in_sched_depth_ s1 = in_sched_depth_ s ->
    is_idle (idle s1) = is_idle (idle s) -> is_idle_minus_term (idle s1) = is_idle_minus_term (idle s) ->
    num_term_msgs_ (idle s1) = num_term_msgs_ (idle s) + b2z (is_term_ u) ->
    Step s [Queued u] (with_queue (wq_emplace u (work_queue_ s1)) s1)) as Hst.
  { intros s1 E1 E2 E3 E4 E5 E6 E7. destruct (law_emplace u (work_queue_ s) G1) as [L1 L2].
    split.
    - split; unfold items; simpl; rewrite ?E1, ?E2, ?E3, ?L2; try done. apply Forall_app. split; [done|by constructor].
    - unfold items. simpl. rewrite E1, L2. apply replay_queued, replay_nil.
    - simpl. rewrite E5. apply alternate_quiet. by constructor.
    - simpl. rewrite E6. apply alternate_quiet. by constructor.
    - unfold surplus, items. simpl. rewrite E7, E1, L2. unfold terms. rewrite lsum_app, lsum_cons, lsum_nil. lia.
    - done. }
  apply wp_bind. destruct (is_term_ u) eqn:Et.
  - apply wp_modify, wp_bind, wp_emit, wp_modify. split; [by apply Hst|done].
  - apply wp_ret, wp_bind, wp_emit, wp_modify. split; [|done]. apply Hst; try done. simpl. lia.
Qed.

Lemma wp_queue_is_empty s (Φ : bool -> Sched -> list output -> Prop) :
  Good s -> Φ (bool_decide (items s = [])) s [] -> wp queue_is_empty s Φ.
Proof. intros [G1 _ _ _] HΦ. apply wp_bind, wp_get. eapply wp_lift; [by apply law_empty|done]. Qed.

Lemma steps_getRecentTime : steps (getRecentTime clock).
Proof.
  intros s Hs. unfold getRecentTime. apply wp_bind, wp_get. cbv zeta. destruct (is_recent_time_stale_ (progress s)).
  - apply wp_bind, wp_modify, wp_ret. by apply Step_same.
  - by apply wp_ret, Step_refl.
Qed.

Lemma steps_nop : steps nop.
Proof. intros s Hs. by apply wp_ret, Step_refl. Qed.

Lemma steps_get {B} (f : Sched -> M B) : (forall s, Good s -> wp (f s) s (fun _ s' os => Step s os s')) -> steps (get ≫= f).
Proof. intros Hf s Hs. apply wp_bind, wp_get. by apply Hf. Qed.

Lemma steps_progressImpl msg_only : steps (progressImpl cfg arrives msg_only).
Proof.
  intros s Hs. unfold progressImpl. apply wp_bind, wp_get. cbv zeta.
  match goal with |- context [modify (with_progress ?p)] => set (s1 := with_progress p s) end.
  assert (Good s1) as Hs1 by (destruct Hs as [G1 G2 G3 G4]; by split).
  assert (steps (for_each (arrives (polls (progress s)) msg_only) enqueue;;
    (if negb msg_only && (cfg_nodes cfg =? 1) then emit MaybePropagate else nop))) as Hst.
  { apply steps_bind; [|intros _].
    - apply steps_for_each. intros u Hu. apply steady_steps, steady_enqueue. specialize (arrivals_ok (polls (progress s)) msg_only).
      by eapply Forall_forall in arrivals_ok.
    - destruct (_ && _); [|apply steps_nop]. intros s2 Hs2. apply wp_emit, Step_same; [done|by split_and!|by constructor]. }
  apply wp_bind, wp_modify. eapply wp_mono; [|by apply Hst]. intros ? s' os Hs'; cbv beta in Hs'.
  apply (Step_app s [] s1); [|done]. by apply Step_same.
Qed.

Lemma steps_runProgress msg_only : steps (runProgress cfg arrives clock msg_only).
Proof.
  unfold runProgress. apply steps_bind; [apply steps_for_each; intros ? _; apply steps_progressImpl|intros _].
  apply steps_bind; [by apply steps_modify_same|intros _].
  destruct (special_progress_ cfg); [|apply steps_nop].
  apply steps_bind; [apply steps_getRecentTime|intros now]. by apply steps_modify_same.
Qed.

Lemma steps_maybeProgress msg_only : steps (maybeProgress cfg arrives clock msg_only).
Proof.
  unfold maybeProgress. destruct (special_progress_ cfg).
  - apply steps_bind; [apply steps_getRecentTime|intros now]. apply steps_get. intros s Hs.
    destruct (shouldCallProgress _ _ _); [by apply steps_runProgress|by apply steps_nop].
  - intros s Hs. apply wp_bind, wp_queue_is_empty; [done|]. case_bool_decide; [|by apply steps_nop].
    destruct (needs_time cfg); [|by apply steps_runProgress].
    apply (steps_bind (getRecentTime clock)); [apply steps_getRecentTime|intros _; apply steps_runProgress|done].
Qed.

(** *** Idle times *)

Lemma Step_flag s e i s' rest :
  Good s -> same_parts (with_idle i s) s' ->
  Forall (fun o => match o with Fired _ _ => True | _ => False end) rest ->
  num_term_msgs_ i = num_term_msgs_ (idle s) ->
  (forall rest, Forall (fun o => match o with Fired _ _ => True | _ => False end) rest ->
    alternate BeginIdle EndIdle true (is_idle (idle s)) (Event e :: rest) (is_idle i) /\
    alternate BeginIdleMinusTerm EndIdleMinusTerm false (is_idle_minus_term (idle s)) (Event e :: rest) (is_idle_minus_term i)) ->
  Step s (Event e :: rest) s'.
Proof.
  intros [G1 G2 G3 G4] (E1 & E2 & E3 & E4 & E5) Hr En Ha. simpl in *. destruct (Ha rest Hr) as [A1 A2]. split.
  - split; unfold items; rewrite ?E1; congruence || done.
  - unfold items. rewrite E1. apply replay_event. clear A1 A2. induction Hr as [|o os Ho _ IH]; [constructor|]. destruct o; try done. by constructor.
  - by rewrite E2.
  - by rewrite E2.
  - unfold surplus, items. by rewrite E1, E2, En.
  - done.
Qed.

Lemma fired_alternate b e st on rest : Forall (fun o => match o with Fired _ _ => True | _ => False end) rest ->
  alternate b e st on rest on.
Proof. intros Hr. apply alternate_quiet. eapply Forall_impl; [done|]. by intros []. Qed.

(** A flag is changed and its event triggered. *)
Lemma wp_flag s e i (Φ : unit -> Sched -> list output -> Prop) :
  Good s -> 0 <= e <= 6 -> num_term_msgs_ i = num_term_msgs_ (idle s) ->
  (forall rest, Forall (fun o => match o with Fired _ _ => True | _ => False end) rest ->
    alternate BeginIdle EndIdle true (is_idle (idle s)) (Event e :: rest) (is_idle i) /\
    alternate BeginIdleMinusTerm EndIdleMinusTerm false (is_idle_minus_term (idle s)) (Event e :: rest) (is_idle_minus_term i)) ->
  (forall s' os, Step s os s' -> idle s' = i -> items s' = items s -> Φ tt s' os) ->
  wp (triggerEvent e) (with_idle i s) (fun _ s' os => Φ tt s' os).
Proof.
  intros Hs He Hn Ha HΦ. eapply wp_mono; [|apply wp_triggerEvent; [by destruct Hs|done]].
  intros [] s' os (Hp & rest & -> & Hr). apply HΦ; [by eapply Step_flag|by destruct Hp as (_ & -> & _)|].
  destruct Hp as (E & _). unfold items. by rewrite E.
Qed.

Lemma leave_idle_steps s : Good s ->
  wp leave_idle s (fun _ s' os => Step s os s' /\ is_idle (idle s') = false /\ items s' = items s).
Proof.
  intros Hs. unfold leave_idle. apply wp_bind, wp_get. destruct (is_idle (idle s)) eqn:E.
  - apply wp_bind, wp_modify. apply (wp_flag s EndIdle (set_idle false (idle s)) (fun _ s' os => Step s os s' /\ is_idle (idle s') = false /\ items s' = items s));
      [done|done|done| |by intros s' os ? ->].
    intros rest Hr. rewrite E. split; [by apply alt_end, fired_alternate|apply alt_other; [done|by apply fired_alternate]].
  - apply wp_ret. split; [by apply Step_refl|done].
Qed.

Lemma enter_idle_steps : steps enter_idle.
Proof.
  intros s Hs. unfold enter_idle. apply wp_bind, wp_get. destruct (is_idle (idle s)) eqn:E; [by apply wp_ret, Step_refl|].
  apply wp_bind, wp_queue_is_empty; [done|]. case_bool_decide; [|by apply wp_ret, Step_refl].
  apply wp_bind, wp_modify. apply (wp_flag s BeginIdle (set_idle true (idle s)) (fun _ s' os => Step s os s')); try done.
  intros rest Hr. rewrite E. split; [by apply alt_begin, fired_alternate|apply alt_other; [done|by apply fired_alternate]].
Qed.

Lemma leave_minus_steps s : Good s ->
  wp leave_idle_minus_term s (fun _ s' os => Step s os s' /\ is_idle (idle s') = is_idle (idle s) /\ items s' = items s).
Proof.
  intros Hs. unfold leave_idle_minus_term. apply wp_bind, wp_get. destruct (is_idle_minus_term (idle s) && negb (isIdleMinusTerm s)) eqn:E.
  - apply andb_true_iff in E as [E _]. apply wp_bind, wp_modify.
    apply (wp_flag s EndIdleMinusTerm (set_idle_minus_term false (idle s)) (fun _ s' os => Step s os s' /\ is_idle (idle s') = is_idle (idle s) /\ items s' = items s));
      [done|done|done| |by intros s' os ? ->].
    intros rest Hr. rewrite E. split; [apply alt_other; [done|by apply fired_alternate]|by apply alt_end, fired_alternate].
  - apply wp_ret. split; [by apply Step_refl|done].
Qed.

Lemma enter_minus_steps : steps enter_idle_minus_term.
Proof.
  intros s Hs. unfold enter_idle_minus_term. apply wp_bind, wp_get.
  destruct (negb (is_idle_minus_term (idle s)) && isIdleMinusTerm s) eqn:E; [|by apply wp_ret, Step_refl].
  apply andb_true_iff in E as [E%negb_true_iff _]. apply wp_bind, wp_modify.
  apply (wp_flag s BeginIdleMinusTerm (set_idle_minus_term true (idle s)) (fun _ s' os => Step s os s')); try done.
  intros rest Hr. rewrite E. split; [apply alt_other; [done|by apply fired_alternate]|by apply alt_begin, fired_alternate].
Qed.

(** *** Work *)

Section loop.
Context (runSchedulerWhile : (list Z -> bool) -> M unit).
(** The scheduler run from inside a unit leaves the idle state. *)
Hypothesis nested : loops = true -> forall cond s, Good s -> wp (runSchedulerWhile cond) s (fun _ s' os => Step s os s' /\ is_idle (idle s') = false).

Lemma busy_runAction a : action_ok loops a = true -> busy_steps (runAction runSchedulerWhile a).
Proof.
  destruct a as [t r p id work|once e t|e|ids]; cbn [runAction action_ok]; intros Ha.
  - by apply steady_busy, steady_enqueue.
  - pose proof (steady_busy _ (steady_register once e t Ha)) as Hr. by destruct once.
  - unfold outside_event, LastSchedulerEvent in Ha. apply steady_busy, steady_triggerEvent. lia.
  - intros s Hs _. by apply nested.
Qed.

Lemma busy_execute u : unit_ok loops u = true -> busy_steps (execute runSchedulerWhile u).
Proof.
  intros Hu. unfold execute. apply busy_bind.
  - apply busy_for_each. intros a Ha. apply busy_runAction.
    apply (proj1 (List.forallb_forall _ _) Hu). by apply list_elem_of_In.
  - intros _. apply busy_bind; [|intros _]; [|destruct (runnable_ u)]; apply steady_busy.
    + intros s Hs. apply wp_modify. split; [by apply Step_same|done].
    + intros s Hs. apply wp_ret. split; [by apply Step_refl|done].
    + intros s Hs. apply wp_modify. split; [by apply Step_same|done].
Qed.

(** One unit is taken from the queue and run. *)
Lemma run_one s : Good s -> items s <> [] -> is_idle (idle s) = false ->
  wp (work ← pop_work; runWorkUnit runSchedulerWhile work) s
    (fun _ s' os => Step s os s' /\ is_idle (idle s') = false).
Proof.
  intros Hs Hne Hb. pose proof Hs as [G1 G2 G3 G4].
  destruct (law_pop (work_queue_ s) G1 Hne) as (l1 & u & l2 & q' & E & Hnext & Hpop & Hok & E').
  fold (items s) in E. apply wp_bind. unfold pop_work. apply wp_bind, wp_get, wp_bind. eapply wp_lift; [done|].
  apply wp_bind, wp_modify, wp_ret. cbn [fst snd]. set (s1 := with_queue q' s).
  assert (items s1 = l1 ++ l2) as E1 by done. rewrite E in G2.
  assert (Forall (fun u => unit_ok loops u = true) (l1 ++ l2) /\ unit_ok loops u = true) as [Gi Gu].
  { apply Forall_app in G2 as [? G2]. apply Forall_cons in G2 as [? ?]. split; [by apply Forall_app|done]. }
  assert (Good s1) as Hs1 by (split; [done|by rewrite E1|done|done]).
  assert (surplus s1 = surplus s + b2z (is_term_ u)) as Es1.
  { unfold surplus. rewrite E, E1. unfold terms. rewrite !lsum_app, lsum_cons. simpl. lia. }
  unfold runWorkUnit. apply wp_bind, wp_emit, wp_bind. eapply wp_mono; [|by apply busy_execute].
  intros ? s2 os [H2 B2].
  assert (forall s3 : Sched, Good s3 -> items s3 = items s2 -> is_idle (idle s3) = false ->
    is_idle_minus_term (idle s3) = is_idle_minus_term (idle s2) -> in_sched_depth_ s3 = in_sched_depth_ s2 ->
    surplus s3 = surplus s2 - b2z (is_term_ u) -> Step s (Started u :: os) s3) as Hst.
  { intros s3 G F1 F2 F3 F4 F5. destruct H2 as [_ R I Mi Su De]. split.
    - done.
    - rewrite E, F1. apply replay_started; [done|]. by rewrite <- E1.
    - change (idle s1) with (idle s) in I. rewrite Hb, B2 in I. rewrite F2, Hb. by apply alt_started.
    - rewrite F3. by apply alt_started.
    - lia.
    - rewrite F4, De. done. }
  pose proof (step_good _ _ _ H2) as G2'. destruct (is_term_ u).
  - apply wp_modify. split; [|done]. simpl. rewrite app_nil_r. apply Hst; try done; [by destruct G2'|].
    unfold surplus, items. cbn [with_idle work_queue_ idle add_term num_term_msgs_ b2z]. lia.
  - apply wp_ret. split; [|done]. simpl. rewrite app_nil_r. apply Hst; try done. simpl. lia.
Qed.

Lemma steps_runSchedulerOnceImpl msg_only : steps (runSchedulerOnceImpl cfg arrives clock runSchedulerWhile msg_only).
Proof.
  unfold runSchedulerOnceImpl. apply steps_bind; [apply steps_maybeProgress|intros _].
  intros s Hs. apply wp_bind, wp_queue_is_empty; [done|].
  set (rest := if negb msg_only then modify with_executed else nop).
  assert (steps rest) as Hrest.
  { unfold rest. destruct msg_only; [apply steps_nop|by apply steps_modify_same]. }
  case_bool_decide as Hne; cbn [negb].
  - apply (steps_bind (enter_idle_minus_term;; enter_idle) (fun _ => rest)); [|done|done].
    apply steps_bind; [apply enter_minus_steps|intros _; apply enter_idle_steps].
  - apply wp_bind. eapply wp_mono; [|apply wp_bind, wp_modify, wp_bind; eapply wp_mono; [|apply leave_idle_steps; by destruct Hs]].
    2: { intros ? s1 o1 (H1 & B1 & I1). apply wp_bind. eapply wp_mono; [|apply leave_minus_steps, (step_good _ _ _ H1)].
      intros ? s2 o2 (H2 & B2 & I2). eapply wp_mono; [|apply run_one; [apply (step_good _ _ _ H2)|by rewrite I2, I1|by rewrite B2]].
      intros ? s3 o3 (H3 & B3).
      assert (Step (count_processed s) (o1 ++ o2 ++ o3) s3) as H123 by (eapply Step_app; [done|by eapply Step_app]).
      instantiate (1 := fun _ s' os => Step s os s'). apply (Step_app s [] (count_processed s)); [by apply Step_same|done]. }
    intros ? s' os H1; cbv beta in H1. eapply wp_mono; [|apply Hrest, (step_good _ _ _ H1)].
    intros ? s2 o2 H2; cbv beta in H2. by apply (Step_app s os s' o2 s2).
Qed.

End loop.

Lemma steps_while_loop n cond (body : M unit) : loops = true -> steps body -> steps (while_loop n cond body).
Proof.
  intros Hl Hb. induction n as [|n IH]; intros s Hs; [done|]. cbn [while_loop]. apply wp_bind, wp_get.
  destruct (cond (ran s)); [|by apply wp_ret, Step_refl].
  by apply (steps_bind body (fun _ => while_loop n cond body)).
Qed.

Lemma runSchedulerWhile_steps fuel cond s : loops = true -> Good s ->
  wp (runSchedulerWhile cfg arrives clock fuel cond) s (fun _ s' os => Step s os s' /\ is_idle (idle s') = false).
Proof.
  intros Hl. revert cond s. induction fuel as [|fuel IH]; intros cond s Hs; [done|]. cbn [runSchedulerWhile].
  set (s1 := with_depth (in_sched_depth_ s + 1) s). assert (Good s1) as Hs1 by by destruct Hs.
  apply wp_bind, wp_modify. fold s1.
  apply wp_bind. eapply wp_mono; [|apply (steady_steps _ (steady_triggerEvent BeginSchedulerLoop ltac:(done))), Hs1].
  intros ? s2 o2 H2; cbv beta in H2. apply wp_bind. eapply wp_mono; [|apply enter_idle_steps, (step_good _ _ _ H2)].
  intros ? s3 o3 H3; cbv beta in H3. apply wp_bind.
  eapply wp_mono; [|apply (steps_while_loop _ _ _ Hl), (step_good _ _ _ H3); apply steps_runSchedulerOnceImpl; intros _; apply IH].
  intros ? s4 o4 H4; cbv beta in H4. apply wp_bind. eapply wp_mono; [|apply leave_idle_steps, (step_good _ _ _ H4)].
  intros ? s5 o5 (H5 & B5 & _). apply wp_bind. eapply wp_mono; [|apply (steady_triggerEvent EndSchedulerLoop ltac:(done)), (step_good _ _ _ H5)].
  intros ? s6 o6 (H6 & B6). apply wp_modify.
  assert (Step s1 (o2 ++ o3 ++ o4 ++ o5 ++ o6) s6) as [S1 S2 S3 S4 S5 S6] by (repeat (eapply Step_app; [done|]); done).
  simpl. rewrite app_nil_r. split; [|by simpl; rewrite B6]. split; try done; [by destruct S1|]. simpl. rewrite S6. simpl. lia.
Qed.

End scheduler.
End SchedulerFacts.
