(* ===== verification/SchedulerSpec.v ===== *)
(** * What the scheduler promises

    From the steps of [SchedulerFacts]: no assertion fails and no work is lost or run twice;
    with the plain queue work runs in the order it came, with the priority queue nothing
    waits that ought to run before; idle times are reported in pairs; and the loop returns
    when the work it waits for is there. *)

From S2P Require Import Prelude.
From S2P Require Import Sums.
From S2P Require Import Effects.
From S2P Require Import Queue.
From S2P Require Import Priority.
From S2P Require Import Scheduler.
From S2P Require Import SchedulerFacts.

Module SchedulerOutputs.
Import Scheduler SchedulerFacts.

Definition queued (os : list output) : list Unit_ := omap (fun o => match o with Queued u => Some u | _ => None end) os.
Definition started (os : list output) : list Unit_ := omap (fun o => match o with Started u => Some u | _ => None end) os.

Lemma queued_app o1 o2 : queued (o1 ++ o2) = queued o1 ++ queued o2.
Proof. apply omap_app. Qed.
Lemma started_app o1 o2 : started (o1 ++ o2) = started o1 ++ started o2.
Proof. apply omap_app. Qed.

Lemma replay_conserves next w os w' : replay next w os w' -> w ++ queued os ≡ₚ started os ++ w'.
Proof.
  induction 1 as [w|w u os w' _ IH|l1 u l2 os w' _ _ IH|w e os w' _ IH|w e t os w' _ IH|w os w' _ IH]; simpl; try done.
  - by rewrite app_nil_r.
  - rewrite <- IH. by rewrite <- app_assoc.
  - rewrite <- IH. rewrite <- !app_assoc. simpl. by rewrite <- Permutation_middle.
Qed.

Lemma replay_fifo w os w' : replay (fun l1 _ _ => l1 = []) w os w' -> w ++ queued os = started os ++ w'.
Proof.
  induction 1 as [w|w u os w' _ IH|l1 u l2 os w' -> _ IH|w e os w' _ IH|w e t os w' _ IH|w os w' _ IH]; simpl; try done.
  - by rewrite app_nil_r.
  - rewrite <- IH. by rewrite <- app_assoc.
  - by rewrite <- IH.
Qed.

Lemma replay_split next w o1 o2 w' : replay next w (o1 ++ o2) w' -> exists w1, replay next w o1 w1 /\ replay next w1 o2 w'.
Proof.
  revert w. induction o1 as [|o o1 IH]; intros w Hr; [exists w; split; [constructor|done]|].
  simpl in Hr. inversion Hr as [|x u os y Hx|l1 u l2 os y Hn Hx|x e os y Hx|x e t os y Hx|x os y Hx]; subst; clear Hr;
    destruct (IH _ Hx) as (w1 & H1 & H2); exists w1; (split; [|done]); by constructor.
Qed.

(** ** Operations that move no work *)

Section silent.
Context {Q : Type}.
Abbreviation M := (Eff (Scheduler Q) output).

Definition moves {A} (m : M A) (qs ss : list Unit_) (ids : list Z) : Prop :=
  forall s a s' os, m s = Ok (a, s', os) -> queued os = qs /\ started os = ss /\ ran s' = ran s ++ ids.

Abbreviation silent m := (moves m [] [] []).

Lemma moves_bind {A B} (m : M A) (f : A -> M B) q1 s1 i1 q2 s2 i2 :
  moves m q1 s1 i1 -> (forall a, moves (f a) q2 s2 i2) -> moves (m ≫= f) (q1 ++ q2) (s1 ++ s2) (i1 ++ i2).
Proof.
  intros Hm Hf s b s' os. unfold mbind, eff_bind. destruct (m s) as [[[a sa] oa]|] eqn:Ea; [|done].
  destruct (f a sa) as [[[b' sb] ob]|] eqn:Eb; [|done]. intros [= -> -> <-].
  destruct (Hm _ _ _ _ Ea) as (<- & <- & E1). destruct (Hf _ _ _ _ _ Eb) as (<- & <- & E2).
  rewrite queued_app, started_app, E2, E1. split_and!; [done|done|by rewrite app_assoc].
Qed.

Lemma silent_bind {A B} (m : M A) (f : A -> M B) : silent m -> (forall a, silent (f a)) -> silent (m ≫= f).
Proof. intros H1 H2. by apply (moves_bind m f [] [] [] [] [] []). Qed.

Lemma silent_modify f : (forall s, ran (f s) = ran s) -> silent (modify f).
Proof. intros Hf s a s' os [= <- <- <-]. split_and!; [done|done|by rewrite Hf, app_nil_r]. Qed.

Lemma silent_ret {A} (a : A) : silent (mret a).
Proof. intros s b s' os [= <- <- <-]. by rewrite app_nil_r. Qed.

Lemma silent_get : silent (get : M (Scheduler Q)).
Proof. intros s b s' os [= <- <- <-]. by rewrite app_nil_r. Qed.

Lemma silent_lift {A} (r : res A) : silent (lift r).
Proof. intros s b s' os. unfold lift. destruct r; [|done]. intros [= <- <- <-]. by rewrite app_nil_r. Qed.

Lemma silent_assert b : silent (assert_ b).
Proof. intros s a s' os. unfold assert_, vtAssert. destruct b; [|done]. intros [= <- <- <-]. by rewrite app_nil_r. Qed.

Lemma silent_emit o : match o with Queued _ | Started _ => False | _ => True end -> silent (emit o).
Proof. intros Ho s a s' os [= <- <- <-]. destruct o; try done; by rewrite app_nil_r. Qed.

Lemma silent_for_each {A} (l : list A) (f : A -> M unit) : (forall a, silent (f a)) -> silent (for_each l f).
Proof. intros Hf. induction l as [|a l IH]; [apply silent_ret|]. apply silent_bind; [apply Hf|by intros _]. Qed.

End silent.

Create HintDb silent.
#[export] Hint Resolve silent_ret silent_get silent_lift silent_assert silent_for_each : silent.
#[export] Hint Extern 1 (moves (modify _) _ _ _) => (apply silent_modify; done) : silent.
#[export] Hint Extern 1 (moves (emit _) _ _ _) => (apply silent_emit; done) : silent.
#[export] Hint Extern 2 (moves (match ?x with _ => _ end) _ _ _) => destruct x : silent.
#[export] Hint Extern 2 (moves (if ?x then _ else _) _ _ _) => destruct x : silent.
#[export] Hint Extern 3 (moves nop _ _ _) => apply silent_ret : silent.

(** Unfolds a method and lets the hints find that each of its parts moves no work. *)
Ltac silent := repeat (intros; first
  [ solve [eauto with silent nocore]
  | apply silent_bind
  | match goal with |- moves (if ?x then _ else _) _ _ _ => destruct x end
  | match goal with |- moves (match ?x with _ => _ end) _ _ _ => destruct x end ]).

End SchedulerOutputs.

(** ** One round of the loop *)

Module SchedulerRounds.
Import Scheduler SchedulerFacts SchedulerOutputs.

(** What a unit enqueues, and the units it leads to, itself first. *)
Definition enqueues (a : action) : list Unit_ :=
  match a with Enqueue t r p i w => [MkUnit t r p i w] | _ => [] end.

Fixpoint action_ids (a : action) : list Z :=
  match a with Enqueue _ _ _ i w => i :: flat_map action_ids w | _ => [] end.
Definition unit_ids (u : Unit_) : list Z := id_ u :: flat_map action_ids (work_ u).
Definition unit_list_ids (l : list Unit_) : list Z := flat_map unit_ids l.

Lemma enqueues_ids l : unit_list_ids (flat_map enqueues l) = flat_map action_ids l.
Proof.
  induction l as [|a l IH]; [done|]. simpl. unfold unit_list_ids in *. rewrite List.flat_map_app, IH.
  f_equal. destruct a; simpl; by rewrite ?app_nil_r.
Qed.

Section rounds.
Context {Q : Type} `{LawfulQueue Q Unit_}.
Context (cfg : Config) (arrives : nat -> bool -> list Unit_) (clock : nat -> Z).
Hypothesis no_arrivals : forall k b, arrives k b = [].

Abbreviation M := (Eff (Scheduler Q) output).
Abbreviation silent m := (moves m [] [] []).

Lemma silent_triggerEvent e : silent (triggerEvent e : M unit).
Proof. unfold triggerEvent, triggers_of. silent. Qed.
Lemma silent_register e t : silent (registerTrigger e t : M unit).
Proof. unfold registerTrigger, triggers_of. silent. Qed.
Lemma silent_once e t : silent (registerTriggerOnce e t : M unit).
Proof. unfold registerTriggerOnce, triggers_of. silent. Qed.
Lemma silent_empty : silent (queue_is_empty : M bool).
Proof. unfold queue_is_empty. silent. Qed.
Lemma silent_time : silent (getRecentTime clock : M Z).
Proof. unfold getRecentTime. silent. Qed.
Hint Resolve silent_triggerEvent silent_register silent_once silent_empty silent_time : silent.

Lemma silent_progress b : silent (progressImpl cfg arrives b : M unit).
Proof. unfold progressImpl. silent. rewrite no_arrivals. apply silent_ret. Qed.
Hint Resolve silent_progress : silent.

Lemma silent_runProgress b : silent (runProgress cfg arrives clock b : M unit).
Proof. unfold runProgress. silent. Qed.
Hint Resolve silent_runProgress : silent.

Lemma silent_maybe b : silent (maybeProgress cfg arrives clock b : M unit).
Proof. unfold maybeProgress. silent. Qed.
Lemma silent_leave : silent (leave_idle : M unit).
Proof. unfold leave_idle. silent. Qed.
Lemma silent_leave_minus : silent (leave_idle_minus_term : M unit).
Proof. unfold leave_idle_minus_term. silent. Qed.
Lemma silent_enter : silent (enter_idle : M unit).
Proof. unfold enter_idle. silent. Qed.
Lemma silent_pop : silent (pop_work : M Unit_).
Proof. unfold pop_work. silent. Qed.
Hint Resolve silent_maybe silent_leave silent_leave_minus silent_enter silent_pop : silent.

Lemma moves_enqueue u : moves (enqueue u : M unit) [u] [] [].
Proof.
  unfold enqueue. apply (moves_bind _ _ [] [] [] [u] [] []); [silent|intros _].
  apply (moves_bind _ _ [u] [] [] [] [] []); [|silent]. intros s a s' os [= <- <- <-]. by rewrite app_nil_r.
Qed.

Lemma moves_actions nested l : forallb (action_ok false) l = true ->
  moves (for_each l (runAction nested) : M unit) (flat_map enqueues l) [] [].
Proof.
  induction l as [|a l IH]; intros Hl; [apply silent_ret|]. simpl in Hl. apply andb_true_iff in Hl as [Ha Hl].
  apply (moves_bind _ _ (enqueues a) [] [] (flat_map enqueues l) [] []); [|intros _; by apply IH].
  destruct a as [t r p i w|once e t|e|ids]; simpl; [apply moves_enqueue|destruct once; silent|silent|done].
Qed.

(** A round that does no more than run one unit. *)
Definition ran_one (u : Unit_) (s s' : Scheduler Q) (os : list output) : Prop :=
  queued os = flat_map enqueues (work_ u) /\ started os = [u] /\ ran s' = ran s ++ [id_ u].

Lemma runWorkUnit_moves nested u : unit_ok false u = true ->
  moves (runWorkUnit nested u : M unit) (flat_map enqueues (work_ u)) [u] [id_ u].
Proof.
  intros Hu. unfold runWorkUnit, execute. apply (moves_bind _ _ [] [u] [] (flat_map enqueues (work_ u)) [] [id_ u]).
  - intros s a s' os [= <- <- <-]. by rewrite app_nil_r.
  - intros _. rewrite <- (app_nil_r (flat_map _ _)), <- (app_nil_r [id_ u]). apply (moves_bind _ _ _ [] _ [] [] []); [|intros _; silent].
    rewrite <- (app_nil_r (flat_map _ _)). apply (moves_bind _ _ _ [] [] [] [] [id_ u]); [by apply moves_actions|intros _].
    apply (moves_bind _ _ [] [] [id_ u] [] [] []); [|intros _; silent]. by intros s a s' os [= <- <- <-].
Qed.

Lemma silent_items s os s' : Step false s os s' -> queued os = [] -> started os = [] -> items s ≡ₚ items s'.
Proof. intros [_ Hr _ _ _ _] E1 E2. apply replay_conserves in Hr. by rewrite E1, E2, app_nil_r in Hr. Qed.

(** The steps of an operation that returned. *)
Lemma wp_Ok {A} (m : M A) s a s' os Φ : wp (false = true) m s Φ -> m s = Ok (a, s', os) -> Φ a s' os.
Proof. unfold wp. by intros H1 H2; rewrite H2 in H1. Qed.

Lemma wp_returns {A} (m : M A) s Φ : wp (false = true) m s Φ -> exists a s' os, m s = Ok (a, s', os) /\ Φ a s' os.
Proof. unfold wp. destruct (m s) as [[[a s'] os]|]; [eauto 10|by intros [_ ?]]. Qed.

Lemma items_nonempty s : Good false s -> items s <> [] -> forall s1, items s ≡ₚ items s1 -> items s1 <> [].
Proof. intros _ Hne s1 Hp E. rewrite E in Hp. by apply Permutation_nil_r in Hp. Qed.

Lemma pop_unit_ok s u s' os : Good false s -> items s <> [] -> pop_work s = Ok (u, s', os) -> unit_ok false u = true.
Proof.
  intros [G1 G2 _ _] Hne E. destruct (law_pop (work_queue_ s) G1 Hne) as (l1 & u' & l2 & q' & El & _ & Hpop & _).
  unfold pop_work in E. rewrite run_get in E. apply eff_bind_inv in E as (r & ? & ? & ? & Er & E & _).
  unfold lift in Er. rewrite Hpop in Er. injection Er as <- <- <-. apply eff_bind_inv in E as (? & ? & ? & ? & _ & E & _).
  injection E as <- _ _. unfold items in G2. rewrite El in G2. apply Forall_app in G2 as [_ G2].
  by apply Forall_cons in G2 as [? _].
Qed.

Abbreviation round nested := (runSchedulerOnceImpl cfg arrives clock nested false).

Lemma round_moves nested s a s' os : Good false s -> items s <> [] ->
  round nested s = Ok (a, s', os) -> exists u, ran_one u s s' os.
Proof.
  intros Hs Hne E. unfold runSchedulerOnceImpl in E.
  apply eff_bind_inv in E as (? & s1 & o1 & os1 & E1 & E & ->).
  assert (forall k b, Forall (fun u => unit_ok false u = true) (arrives k b)) as Harr by (intros; by rewrite no_arrivals).
  destruct (silent_maybe false _ _ _ _ E1) as (Q1 & S1 & R1).
  pose proof (wp_Ok _ _ _ _ _ _ (steps_maybeProgress false cfg arrives clock Harr false s Hs) E1) as T1. cbv beta in T1.
  pose proof (items_nonempty s Hs Hne s1 (silent_items _ _ _ T1 Q1 S1)) as Hne1.
  apply eff_bind_inv in E as (e & s2 & o2 & os2 & E2 & E & ->).
  pose proof (wp_Ok queue_is_empty s1 e s2 o2 _ (wp_queue_is_empty false s1 (fun b s' os => b = bool_decide (items s1 = []) /\ s' = s1 /\ os = [])
    (step_good _ _ _ _ T1) (conj eq_refl (conj eq_refl eq_refl))) E2) as (-> & -> & ->).
  rewrite bool_decide_eq_false_2 in E by done. cbn [negb] in E.
  apply eff_bind_inv in E as (? & s3 & o3 & os3 & E3 & E & ->).
  assert (queued os3 = [] /\ started os3 = [] /\ ran s' = ran s3 ++ []) as (Q3 & S3 & R3).
  { assert (silent (modify with_executed : M unit)) as Hx by silent. by apply (Hx _ _ _ _ E). }
  apply eff_bind_inv in E3 as (? & s4 & o4 & os4 & [= _ <- <-] & E3 & ->).
  apply eff_bind_inv in E3 as (? & s5 & o5 & os5 & E5 & E3 & ->).
  destruct (silent_leave _ _ _ _ E5) as (Q5 & S5 & R5).
  assert (Good false (count_processed s1)) as G1 by (destruct (step_good _ _ _ _ T1); by split).
  pose proof (wp_Ok _ _ _ _ _ _ (leave_idle_steps false _ G1) E5) as (T5 & _ & I5).
  apply eff_bind_inv in E3 as (? & s6 & o6 & os6 & E6 & E3 & ->).
  destruct (silent_leave_minus _ _ _ _ E6) as (Q6 & S6 & R6).
  pose proof (wp_Ok _ _ _ _ _ _ (leave_minus_steps false _ (step_good _ _ _ _ T5)) E6) as (T6 & _ & I6).
  apply eff_bind_inv in E3 as (u & s7 & o7 & os7 & E7 & E3 & ->).
  destruct (silent_pop _ _ _ _ E7) as (Q7 & S7 & R7).
  assert (unit_ok false u = true) as Hu.
  { apply (pop_unit_ok s6 u s7 o7 (step_good _ _ _ _ T6)); [by rewrite I6, I5|done]. }
  destruct (runWorkUnit_moves nested u Hu _ _ _ _ E3) as (Q8 & S8 & R8).
  exists u. unfold ran_one. rewrite !queued_app, !started_app, Q1, S1, Q3, S3, Q5, S5, Q6, S6, Q7, S7, Q8, S8, R3, R8, R7, R6, R5.
  cbn [count_processed with_progress ran]. rewrite R1, !app_nil_r. done.
Qed.

(** ** The loop *)

Definition pending (s : Scheduler Q) : list Z := unit_list_ids (items s).

Lemma unit_list_ids_perm l1 l2 : l1 ≡ₚ l2 -> unit_list_ids l1 ≡ₚ unit_list_ids l2.
Proof.
  unfold unit_list_ids. induction 1 as [|x l1 l2 _ IH|x y l|l1 l2 l3 _ IH1 _ IH2]; [done| | |by etrans].
  - cbn [flat_map]. by rewrite IH.
  - cbn [flat_map]. rewrite !app_assoc. f_equiv. apply Permutation_app_comm.
Qed.

Lemma round_pending u s s' os : Step false s os s' -> ran_one u s s' os -> pending s ≡ₚ id_ u :: pending s'.
Proof.
  intros [_ Hr _ _ _ _] (E1 & E2 & _). apply replay_conserves in Hr. rewrite E1, E2 in Hr.
  apply unit_list_ids_perm in Hr. unfold unit_list_ids in Hr. rewrite !List.flat_map_app in Hr. fold unit_list_ids in Hr.
  change (flat_map unit_ids (flat_map enqueues (work_ u))) with (unit_list_ids (flat_map enqueues (work_ u))) in Hr.
  rewrite enqueues_ids in Hr. apply (Permutation_app_inv_r (flat_map action_ids (work_ u))).
  unfold pending, unit_list_ids. rewrite Hr. cbn [flat_map]. unfold unit_ids at 1. rewrite app_nil_r.
  cbn [app]. by rewrite Permutation_app_comm.
Qed.

Lemma loop_returns nested cond n s :
  Good false s -> (forall l, (forall i, i ∈ ran s \/ i ∈ pending s -> i ∈ l) -> cond l = false) ->
  (length (pending s) < n)%nat ->
  exists s' os, while_loop n cond (round nested) s = Ok (tt, s', os) /\ Step false s os s' /\ cond (ran s') = false.
Proof.
  assert (forall k b, Forall (fun u => unit_ok false u = true) (arrives k b)) as Harr by (intros; by rewrite no_arrivals).
  revert s. induction n as [|n IH]; intros s Hs Hc Hn; [lia|]. cbn [while_loop].
  rewrite run_get. destruct (cond (ran s)) eqn:Ec; [|exists s, []; split_and!; [done|by apply Step_refl|done]].
  assert (items s <> []) as Hne.
  { intros E. rewrite Hc in Ec; [done|]. unfold pending. rewrite E. intros i [?|?%elem_of_nil]; done. }
  destruct (wp_returns _ _ _ (steps_runSchedulerOnceImpl false cfg arrives clock Harr nested ltac:(done) false s Hs)) as ([] & s1 & o1 & E1 & T1).
  cbv beta in T1. destruct (round_moves nested s tt s1 o1 Hs Hne E1) as (u & Hu).
  pose proof (round_pending u s s1 o1 T1 Hu) as Hp. destruct Hu as (_ & _ & Hran).
  destruct (IH s1) as (s' & o2 & E2 & T2 & Ec2).
  - apply (step_good _ _ _ _ T1).
  - intros l Hl. apply Hc. intros i Hi. apply Hl. rewrite Hran, elem_of_app, list_elem_of_singleton.
    rewrite Hp, elem_of_cons in Hi. tauto.
  - apply Permutation_length in Hp. simpl in Hp. lia.
  - exists s', (o1 ++ o2). rewrite (run_step _ _ _ _ _ _ E1), E2. split_and!; [done|by eapply Step_app|done].
Qed.

End rounds.
End SchedulerRounds.

Module SchedulerSpec.
Import Scheduler SchedulerFacts SchedulerOutputs SchedulerRounds.

Definition unit0 : Unit_ := MkUnit false false 0 0 [].

(** The scheduler as built without and with priorities. *)
Abbreviation fifo_make := (@make _ (queue_work unit0)).
Abbreviation fifo_run := (@runSchedulerWhile _ (queue_work unit0)).
Abbreviation priority_make := (@make _ (priority_work unit_lt)).
Abbreviation priority_run := (@runSchedulerWhile _ (priority_work unit_lt)).

Lemma make_Good {Q} `{LawfulQueue Q Unit_} loops : Good loops (make : Scheduler Q).
Proof. destruct law_make as [H1 H2]. split; [done|unfold items; simpl; rewrite H2; constructor|done|done]. Qed.

Lemma make_items {Q} `{LawfulQueue Q Unit_} : items (make : Scheduler Q) = [].
Proof. apply (proj2 law_make). Qed.

(** C21: Work is neither lost nor run twice, whatever the units do (enqueue, register and
    trigger, run the scheduler themselves) and whatever arrives at the polls: what waited
    and what was enqueued is what was started and what waits. No assertion fails, the
    number of termination messages waiting is kept exactly, and the call leaves the
    scheduler busy and at the depth it found it. This holds for any queue that keeps the
    contract of [LawfulQueue]. *)
Theorem scheduler_conserves_work {Q} `{LawfulQueue Q Unit_} cfg arrives clock fuel cond (s : Scheduler Q) :
  (forall k b, Forall (fun u => unit_ok true u = true) (arrives k b)) -> Good true s ->
  match runSchedulerWhile cfg arrives clock fuel cond s with
  | Ok (_, s', os) =>
      items s ++ queued os ≡ₚ started os ++ items s' /\ surplus s' = surplus s /\
      is_idle (idle s') = false /\ in_sched_depth_ s' = in_sched_depth_ s
  | Stop e => e = NoReturn
  end.
Proof.
  intros Ha Hs. pose proof (runSchedulerWhile_steps true cfg arrives clock Ha fuel cond s eq_refl Hs) as Hw.
  unfold wp in Hw. destruct (runSchedulerWhile _ _ _ _ _ _) as [[[a s'] os]|e]; [|tauto].
  destruct Hw as [[_ Hr _ _ Hsur Hd] Hi]. split_and!; try done. by eapply replay_conserves.
Qed.

(** C22: Without priorities, units are started in exactly the order they were enqueued, also
    those started by schedulers run from inside other units. *)
Theorem scheduler_fifo cfg arrives clock fuel cond s' os :
  (forall k b, Forall (fun u => unit_ok true u = true) (arrives k b)) ->
  fifo_run cfg arrives clock fuel cond fifo_make = Ok (tt, s', os) ->
  queued os = started os ++ @items _ _ (QueueFacts.queue_lawful unit0) s'.
Proof.
  intros Ha E. pose proof (@runSchedulerWhile_steps _ _ (QueueFacts.queue_lawful unit0) true cfg arrives clock Ha fuel cond
    fifo_make eq_refl (make_Good true)) as Hw. unfold wp in Hw. rewrite E in Hw. destruct Hw as [[_ Hr _ _ _ _] _].
  apply replay_fifo in Hr. by rewrite make_items in Hr.
Qed.

Lemma unit_lt_asym x y : unit_lt x y = true -> unit_lt y x = false.
Proof. unfold unit_lt. lia. Qed.
Lemma unit_lt_trans x y z : unit_lt x y = false -> unit_lt y z = false -> unit_lt x z = false.
Proof. unfold unit_lt. lia. Qed.

Definition priority_lawful := QueueFacts.priority_lawful unit_lt unit_lt_trans unit_lt_asym.

(** C23: With priorities, whenever a unit is started no unit that waits has a higher
    priority. *)
Theorem scheduler_priority cfg arrives clock fuel cond s' o1 u o2 :
  (forall k b, Forall (fun u => unit_ok true u = true) (arrives k b)) ->
  priority_run cfg arrives clock fuel cond priority_make = Ok (tt, s', o1 ++ Started u :: o2) ->
  exists waiting, queued o1 ≡ₚ started o1 ++ u :: waiting /\ Forall (fun v => priority_ v <= priority_ u) waiting.
Proof.
  intros Ha E. pose proof (@runSchedulerWhile_steps _ _ priority_lawful true cfg arrives clock Ha fuel cond
    priority_make eq_refl (make_Good true)) as Hw. unfold wp in Hw. rewrite E in Hw. destruct Hw as [[_ Hr _ _ _ _] _].
  apply replay_split in Hr as (w & H1 & H2). apply replay_conserves in H1. rewrite make_items in H1. simpl in H1.
  inversion H2 as [| |l1 u' l2 os y Hn _| | |]; subst. exists (l1 ++ l2). split.
  - rewrite H1. by rewrite Permutation_middle.
  - eapply Forall_impl; [exact Hn|]. unfold unit_lt. intros v Hv. cbv beta in Hv. lia.
Qed.

(** Idle times are reported in pairs: over any run the ends and beginnings of being idle
    alternate, and no unit is started while the scheduler counts as idle; the same events
    for being idle but for termination messages alternate too. *)
Theorem idle_events_alternate {Q} `{LawfulQueue Q Unit_} cfg arrives clock fuel cond (s s' : Scheduler Q) os :
  (forall k b, Forall (fun u => unit_ok true u = true) (arrives k b)) -> Good true s ->
  runSchedulerWhile cfg arrives clock fuel cond s = Ok (tt, s', os) ->
  alternate BeginIdle EndIdle true (is_idle (idle s)) os false /\
  alternate BeginIdleMinusTerm EndIdleMinusTerm false (is_idle_minus_term (idle s)) os (is_idle_minus_term (idle s')).
Proof.
  intros Ha Hs E. pose proof (runSchedulerWhile_steps true cfg arrives clock Ha fuel cond s eq_refl Hs) as Hw.
  unfold wp in Hw. rewrite E in Hw. destruct Hw as [[_ _ Hi Hm _ _] Hb]. by rewrite Hb in Hi.
Qed.

(** C24: The loop returns: if the units do not run the scheduler themselves and nothing more
    arrives, and the condition fails at the latest when all units that wait and those they
    lead to have run, then [runSchedulerWhile] returns, with the condition false. *)
Theorem scheduler_returns {Q} `{LawfulQueue Q Unit_} cfg arrives clock cond (s : Scheduler Q) :
  (forall k b, arrives k b = []) -> Good false s ->
  (forall l, (forall i, i ∈ ran s \/ i ∈ pending s -> i ∈ l) -> cond l = false) ->
  exists s' os, runSchedulerWhile cfg arrives clock (S (S (length (pending s)))) cond s = Ok (tt, s', os) /\
    cond (ran s') = false.
Proof.
  intros Ha Hs Hc. cbn [runSchedulerWhile]. set (n := S (length (pending s))). set (nested := runSchedulerWhile cfg arrives clock n).
  set (s1 := with_depth (in_sched_depth_ s + 1) s). assert (Good false s1) as G1 by (destruct Hs; by split).
  rewrite run_modify. fold s1.
  destruct (wp_returns _ _ _ (steady_triggerEvent false BeginSchedulerLoop ltac:(done) s1 G1)) as ([] & s2 & o2 & E2 & T2 & _).
  rewrite (run_step _ _ _ _ _ _ E2).
  destruct (wp_returns _ _ _ (enter_idle_steps false s2 (step_good _ _ _ _ T2))) as ([] & s3 & o3 & E3 & T3). cbv beta in T3.
  rewrite (run_step _ _ _ _ _ _ E3).
  destruct (silent_triggerEvent BeginSchedulerLoop _ _ _ _ E2) as (Q2 & S2 & R2).
  destruct (silent_enter _ _ _ _ E3) as (Q3 & S3 & R3).
  assert (items s ≡ₚ items s3) as Hit.
  { transitivity (items s2); [apply (silent_items s1 o2 s2 T2 Q2 S2)|apply (silent_items s2 o3 s3 T3 Q3 S3)]. }
  apply unit_list_ids_perm in Hit. fold (pending s) (pending s3) in Hit.
  destruct (loop_returns cfg arrives clock Ha nested cond n s3) as (s4 & o4 & E4 & T4 & Ec).
  - apply (step_good _ _ _ _ T3).
  - intros l Hl. apply Hc. intros i Hi. apply Hl. rewrite R3, R2, !app_nil_r, <- Hit. exact Hi.
  - rewrite <- Hit. unfold n. lia.
  - rewrite (run_step _ _ _ _ _ _ E4).
    destruct (wp_returns _ _ _ (leave_idle_steps false s4 (step_good _ _ _ _ T4))) as ([] & s5 & o5 & E5 & T5 & _).
    rewrite (run_step _ _ _ _ _ _ E5).
    destruct (wp_returns _ _ _ (steady_triggerEvent false EndSchedulerLoop ltac:(done) s5 (step_good _ _ _ _ T5))) as ([] & s6 & o6 & E6 & _).
    rewrite (run_step _ _ _ _ _ _ E6). unfold modify.
    destruct (silent_leave _ _ _ _ E5) as (_ & _ & R5). destruct (silent_triggerEvent EndSchedulerLoop _ _ _ _ E6) as (_ & _ & R6).
    eexists _, _. split; [done|]. cbn [with_depth ran]. by rewrite R6, R5, !app_nil_r.
Qed.

(** Two units arrive at the first poll; the first enqueues two more and runs the scheduler
    until one of them has run. *)
Definition demo_arrives (k : nat) (_ : bool) : list Unit_ :=
  if decide (k = 0%nat) then
    [MkUnit false false 10 1 [Enqueue false false 30 3 []; Enqueue true false 20 4 [Trigger PendingSchedulerLoop]; RunUntil [4]];
     MkUnit false true 15 2 []]
  else [].
Definition demo_cfg : Config := MkConfig 0 0 0 1 false.
Definition demo_cond : list Z -> bool := not_all_run [1; 2; 3; 4].

Lemma demo_arrives_ok k b : Forall (fun u => unit_ok true u = true) (demo_arrives k b).
Proof. unfold demo_arrives. case_decide; by repeat constructor. Qed.

Abbreviation demo_fifo := (fifo_run demo_cfg demo_arrives (fun _ => 0) 20 demo_cond fifo_make).
Abbreviation demo_priority := (priority_run demo_cfg demo_arrives (fun _ => 0) 20 demo_cond priority_make).

Definition outputs {S A : Type} (r : res (A * S * list output)) : list output :=
  match r with Ok (_, _, os) => os | Stop _ => [] end.

(** In the order they came; then by priority. *)
Example demo_orders :
  id_ <$> started (outputs demo_fifo) = [1; 2; 3; 4] /\ id_ <$> started (outputs demo_priority) = [2; 1; 3; 4].
Proof. by vm_compute. Qed.

Definition final {S A : Type} (d : S) (r : res (A * S * list output)) : S :=
  match r with Ok (_, s, _) => s | Stop _ => d end.

Lemma returned {S : Type} (d : S) (r : res (unit * S * list output)) :
  match r with Ok _ => true | Stop _ => false end = true -> r = Ok (tt, final d r, outputs r).
Proof. by destruct r as [[[[] s] os]|]. Qed.

Lemma scheduler_conserves_work_witness :
  exists r, demo_priority = r /\ match r with Ok (_, s', os) => queued os ≡ₚ started os ++ @items _ _ priority_lawful s' | Stop e => e = NoReturn end.
Proof.
  exists demo_priority. split; [reflexivity|].
  pose proof (@scheduler_conserves_work _ _ priority_lawful demo_cfg demo_arrives (fun _ => 0) 20 demo_cond priority_make
    demo_arrives_ok (make_Good true)) as Hw.
  destruct (priority_run _ _ _ _ _ _) as [[[a s'] os]|e]; [destruct Hw as [Hw _]; exact Hw|exact Hw].
Defined.

Lemma demo_fifo_run : demo_fifo = Ok (tt, final fifo_make demo_fifo, outputs demo_fifo).
Proof. apply returned. by vm_compute. Qed.

Lemma demo_priority_run : demo_priority = Ok (tt, final priority_make demo_priority, outputs demo_priority).
Proof. apply returned. by vm_compute. Qed.

Lemma scheduler_fifo_witness :
  exists s' os, demo_fifo = Ok (tt, s', os) /\ queued os = started os ++ @items _ _ (QueueFacts.queue_lawful unit0) s'.
Proof.
  pose proof demo_fifo_run as E. revert E. generalize (final fifo_make demo_fifo) (outputs demo_fifo). intros s' os E.
  exists s', os. split; [exact E|]. 
  exact (scheduler_fifo demo_cfg demo_arrives (fun _ => 0) 20 demo_cond s' os demo_arrives_ok E).
Defined.

Lemma scheduler_priority_witness :
  exists o1 u o2 waiting, outputs demo_priority = o1 ++ Started u :: o2 /\ queued o1 ≡ₚ started o1 ++ u :: waiting.
Proof.
  set (u := MkUnit false true 15 2 []).
  assert (outputs demo_priority = take 6 (outputs demo_priority) ++ Started u :: drop 7 (outputs demo_priority)) as Eo by by vm_compute.
  pose proof demo_priority_run as E. revert E Eo. generalize (final priority_make demo_priority) (outputs demo_priority).
  intros s' os E Eo. exists (take 6 os), u, (drop 7 os).  rewrite Eo in E.
  destruct (scheduler_priority demo_cfg demo_arrives (fun _ => 0) 20 demo_cond s' (take 6 os) u (drop 7 os) demo_arrives_ok E)
    as (waiting & Hp & _).
  exists waiting. split; [exact Eo|exact Hp].
Defined.

Lemma idle_events_alternate_witness : exists os, demo_fifo = Ok (tt, final fifo_make demo_fifo, os) /\ alternate BeginIdle EndIdle true true os false.
Proof.
  pose proof demo_fifo_run as E. revert E. generalize (final fifo_make demo_fifo) (outputs demo_fifo). intros s' os E.
  exists os. split; [exact E|]. 
  destruct (@idle_events_alternate _ _ (QueueFacts.queue_lawful unit0) demo_cfg demo_arrives (fun _ => 0) 20 demo_cond fifo_make
    s' os demo_arrives_ok (make_Good true) E) as [H _]. exact H.
Defined.

(** A unit waits and enqueues another; the loop waits for both. *)
Definition waiting_sched : Scheduler (Queue.Queue Unit_) :=
  with_queue (Queue.emplace (MkUnit false false 0 1 [Enqueue false false 0 2 []]) (Queue.make unit0)) fifo_make.

Lemma scheduler_returns_witness :
  exists s' os, fifo_run demo_cfg (fun _ _ => []) (fun _ => 0) 4 (not_all_run [1; 2]) waiting_sched = Ok (tt, s', os) /\
    not_all_run [1; 2] (ran s') = false.
Proof.
  apply (@scheduler_returns _ _ (QueueFacts.queue_lawful unit0) demo_cfg (fun _ _ => []) (fun _ => 0) (not_all_run [1; 2]) waiting_sched).
  - intros k b. reflexivity.
  - destruct (QueueFacts.queue_emplace (MkUnit false false 0 1 [Enqueue false false 0 2 []]) (Queue.make unit0)) as [H1 H2].
    + exact (good_queue _ _ (@make_Good _ _ (QueueFacts.queue_lawful unit0) true)).
    + split; [exact H1| |reflexivity|reflexivity]. change (Forall (fun u => unit_ok false u = true) (QueueFacts.items
        (Queue.emplace (MkUnit false false 0 1 [Enqueue false false 0 2 []]) (Queue.make unit0)))).
      rewrite H2. by repeat constructor.
  - intros l Hl. unfold not_all_run. simpl. rewrite !bool_decide_eq_true_2; [done|..]; apply Hl; right; by vm_compute; set_solver.
Defined.

(** The assertion on events lets one past the last through, where the vector ends. *)
Lemma event_past_the_end : triggerEvent (Q := Queue.Queue Unit_) (LastSchedulerEvent + 1) fifo_make = Stop AbortCalled.
Proof. reflexivity. Qed.

(** While a termination unit runs the scheduler itself, its message still counts: a unit of
    the program is then started while the scheduler is idle but for termination. *)
Definition nested_arrives (k : nat) (_ : bool) : list Unit_ :=
  if decide (k = 0%nat) then [MkUnit true false 0 1 [Enqueue false false 0 2 []; RunUntil [2]]] else [].

Lemma nested_term_miscounts :
  let os := outputs (fifo_run demo_cfg nested_arrives (fun _ => 0) 20 (not_all_run [1; 2]) fifo_make) in
  id_ <$> started os = [1; 2] /\ Event EndIdleMinusTerm ∉ os.
Proof. vm_compute. split; [done|]. set_solver. Qed.

End SchedulerSpec.
