(* ===== verification/Index.v ===== *)
(** * Dense indices of collections

    Models [src/vt/topos/index/dense/dense_array.{h,impl.h}] (the indices of the elements of
    a collection) and the linearisations of [topos/mapping/dense/dense.impl.h]. *)

From S2P Require Import Prelude.
From S2P Require Import Bits.
Import BitPacker.

Module DenseIndex.

Definition UniqueIndexBitType := u64.
Definition DenseArraySizeType := u64.

(** [DenseIndexArray<IndexType, ndim>]: the coordinates. *)
Definition DenseIndexArray := list Z.

Section index.
Context (IndexType : ity).

Definition of_value (ndim : nat) (init_value : Z) : list Z := replicate ndim init_value.

(** Beyond the array the behaviour is undefined. *)
Definition get (idx : list Z) (i : Z) : res Z :=
  if i <? 0 then Stop AbortCalled
  else match idx !! Z.to_nat i with Some x => Ok x | None => Stop AbortCalled end.

Definition packedSize (idx : list Z) : Z := Z.of_nat (length idx) * (width IndexType / 8).

(** [sz *= dims[i]]. *)
Definition getSize (idx : list Z) : Z :=
  foldl (fun sz d => wrap DenseArraySizeType (sz * wrap DenseArraySizeType d)) 1 idx.

(** The loop over [i] after [fn] has been called: the first coordinate that can be
    incremented is, those before it are set to zero. *)
Fixpoint next_loop (n i : nat) (vec max : list Z) : list Z :=
  match n with
  | O => vec
  | S n =>
      match vec !! i, max !! i with
      | Some v, Some m =>
          if v + 1 <? m then replicate i 0 ++ (v + 1) :: drop (S i) vec
          else next_loop n (S i) vec max
      | _, _ => vec
      end
  end.

(** [foreach(max, fn)]: the indices [fn] is called with. *)
Fixpoint foreach_loop (n : nat) (vec max : list Z) : list (list Z) :=
  match n with
  | O => []
  | S n => vec :: foreach_loop n (next_loop (length max) 0 vec max) max
  end.

Definition foreach (max : list Z) : list (list Z) :=
  foreach_loop (Z.to_nat (getSize max)) (replicate (length max) 0) max.

Definition nbits (ndim : nat) : Z := width UniqueIndexBitType / Z.of_nat ndim.

Definition uniqueBits (idx : list Z) : Z :=
  let nb := nbits (length idx) in
  foldl (fun bits '(i, d) => setFieldDynamic UniqueIndexBitType (i * nb) nb bits d) 0
    (zip (Z.of_nat <$> seq 0 (length idx)) idx).

Definition uniqueBitsToIndex (ndim : nat) (bits : Z) : list Z :=
  let nb := nbits ndim in
  (fun i => wrap IndexType (getFieldDynamic UniqueIndexBitType UniqueIndexBitType (Z.of_nat i * nb) nb bits)) <$> seq 0 ndim.

(** [operator==] and [operator<], from the last coordinate down. *)
Fixpoint eq_loop (l1 l2 : list Z) : bool :=
  match l1, l2 with
  | x :: l1, y :: l2 => if negb (x =? y) then false else eq_loop l1 l2
  | _, _ => true
  end.
Definition index_eq (idx other : list Z) : bool := eq_loop (reverse idx) (reverse other).

Fixpoint lt_loop (l1 l2 : list Z) : bool :=
  match l1, l2 with
  | x :: l1, y :: l2 => if x <? y then true else if y <? x then false else lt_loop l1 l2
  | _, _ => false
  end.
Definition index_lt (idx other : list Z) : bool := lt_loop (reverse idx) (reverse other).

Definition index_add (idx other : list Z) : list Z := zip_with (fun a b => wrap IndexType (a + b)) idx other.
Definition index_sub (idx other : list Z) : list Z := zip_with (fun a b => wrap IndexType (a - b)) idx other.

(** ** Linearisation *)

Definition in_range (idx max_idx : list Z) : bool := forallb (fun '(i, m) => i <? m) (zip idx max_idx).

(** [val += dim_size * idx[i]; dim_size *= max[i]]. *)
Definition linearize_step (acc : Z * Z) (im : Z * Z) : Z * Z :=
  let '(val, dim_size) := acc in
  let '(i, m) := im in
  (wrap IndexType (val + wrap IndexType (dim_size * i)), wrap IndexType (dim_size * m)).

Definition linearizeDenseIndexRowMajor (idx max_idx : list Z) : res Z :=
  vtAssert (in_range idx max_idx) (Ok (foldl linearize_step (0, 1) (zip idx max_idx)).1).

Definition linearizeDenseIndexColMajor (idx max_idx : list Z) : res Z :=
  vtAssert (in_range idx max_idx) (Ok (foldl linearize_step (0, 1) (reverse (zip idx max_idx))).1).

End index.
End DenseIndex.

Module IndexFacts.
Import DenseIndex.

(** An index of the collection with bounds [max]. *)
Definition in_box (max idx : list Z) : Prop := Forall2 (fun i m => 0 <= i < m) idx max.

Definition volume (max : list Z) : Z := foldr Z.mul 1 max.

(** The position of an index when the first coordinate runs fastest. *)
Fixpoint position (idx max : list Z) : Z :=
  match idx, max with
  | i :: idx, m :: max => i + m * position idx max
  | _, _ => 0
  end.

Lemma volume_pos max : Forall (fun m => 0 < m) max -> 0 < volume max.
Proof. induction 1; simpl; [lia|nia]. Qed.

Lemma box_pos max idx : in_box max idx -> Forall (fun m => 0 < m) max.
Proof. induction 1; constructor; [lia|done]. Qed.

Lemma position_bounds max idx : in_box max idx -> 0 <= position idx max < volume max.
Proof. induction 1 as [|i m idx max Hi _ IH]; simpl; [lia|nia]. Qed.

Lemma position_inj max i1 i2 : in_box max i1 -> in_box max i2 -> position i1 max = position i2 max -> i1 = i2.
Proof.
  intros H1. revert i2. induction H1 as [|x m i1 max Hx H1 IH]; intros i2 H2 E.
  - by inversion H2.
  - inversion H2 as [|y ? i2' ? Hy H2']; subst. simpl in E.
    assert (x = y /\ position i1 max = position i2' max) as [-> Hp].
    { pose proof (position_bounds _ _ H1). pose proof (position_bounds _ _ H2').
      assert (position i1 max = position i2' max) as Hp; [|nia].
      destruct (decide (position i1 max < position i2' max)); [nia|].
      destruct (decide (position i2' max < position i1 max)); [nia|lia]. }
    f_equal. by apply IH.
Qed.

Lemma position_zero max : position (replicate (length max) 0) max = 0.
Proof. induction max as [|m max IH]; [done|]. simpl. rewrite IH. lia. Qed.

Lemma zero_in_box max : Forall (fun m => 0 < m) max -> in_box max (replicate (length max) 0).
Proof. induction 1; simpl; constructor; [lia|done]. Qed.

(** The odometer, coordinate by coordinate. *)
Fixpoint advance (vec max : list Z) : option (list Z) :=
  match vec, max with
  | v :: vec, m :: max => if v + 1 <? m then Some (v + 1 :: vec) else cons 0 <$> advance vec max
  | _, _ => None
  end.

Lemma next_loop_advance pre pm vec max : length pre = length pm -> length vec = length max ->
  next_loop (length max) (length pre) (pre ++ vec) (pm ++ max)
  = match advance vec max with Some vec' => replicate (length pre) 0 ++ vec' | None => pre ++ vec end.
Proof.
  revert pre pm vec. induction max as [|m max IH]; intros pre pm vec Hl Hv; destruct vec as [|v vec]; try done.
  cbn [next_loop length advance]. rewrite lookup_app_r, Nat.sub_diag by lia. cbn [lookup list_lookup].
  rewrite lookup_app_r by lia. rewrite Hl, Nat.sub_diag. cbn [lookup list_lookup]. rewrite <- Hl.
  destruct (v + 1 <? m).
  - do 2 f_equal. replace (S (length pre)) with (length (pre ++ [v])) by (rewrite length_app; simpl; lia).
    by rewrite (cons_middle v pre vec), app_assoc, drop_app_length.
  - rewrite (cons_middle v pre vec), (cons_middle m pm max), !app_assoc.
    replace (S (length pre)) with (length (pre ++ [v])) by (rewrite length_app; simpl; lia).
    rewrite IH; [|rewrite !length_app; simpl; lia|by injection Hv].
    destruct (advance vec max) as [vec'|]; [|done]. simpl. rewrite length_app. simpl.
    by rewrite Nat.add_1_r, replicate_S_end, <- app_assoc.
Qed.

Lemma advance_position max vec : in_box max vec -> position vec max + 1 < volume max ->
  exists vec', advance vec max = Some vec' /\ in_box max vec' /\ position vec' max = position vec max + 1.
Proof.
  induction 1 as [|v m vec max Hv Hb IH]; simpl; intros Hlt; [lia|]. destruct (Z.ltb_spec (v + 1) m).
  - eexists. split; [done|]. split; [by constructor; [lia|]|]. simpl. lia.
  - pose proof (position_bounds _ _ Hb). destruct IH as (vec' & -> & Hb' & E); [nia|].
    eexists. split; [done|]. split; [by constructor; [lia|]|]. simpl. rewrite E. nia.
Qed.

Lemma next_position max vec : in_box max vec -> position vec max + 1 < volume max ->
  let vec' := next_loop (length max) 0 vec max in in_box max vec' /\ position vec' max = position vec max + 1.
Proof.
  intros Hb Hlt. destruct (advance_position max vec Hb Hlt) as (v' & E & Hb' & Ep).
  pose proof (next_loop_advance [] [] vec max eq_refl (Forall2_length _ _ _ Hb)) as En. simpl in En. rewrite E in En.
  cbv zeta. by rewrite En.
Qed.

Lemma foreach_loop_spec n max vec : in_box max vec -> position vec max + Z.of_nat n <= volume max ->
  Forall (in_box max) (foreach_loop n vec max) /\
  (fun i => position i max) <$> foreach_loop n vec max = seqZ (position vec max) (Z.of_nat n).
Proof.
  revert vec. induction n as [|n IH]; intros vec Hb Hn; [done|]. cbn [foreach_loop]. destruct n as [|n].
  - split; [by repeat constructor|]. done.
  - destruct (next_position max vec Hb ltac:(lia)) as [Hb' E]. destruct (IH _ Hb' ltac:(lia)) as [H1 H2].
    split; [by constructor|]. rewrite fmap_cons, H2, E. rewrite (seqZ_cons _ (Z.of_nat (S (S n)))) by lia.
    f_equal. unfold Z.succ. f_equal. lia.
Qed.

Lemma getSize_volume max : Forall (fun m => 0 < m) max -> volume max < 2 ^ 64 -> getSize max = volume max.
Proof.
  intros Hp Hv. unfold getSize.
  assert (forall acc, 0 < acc -> acc * volume max < 2 ^ 64 ->
    foldl (fun sz d => wrap DenseArraySizeType (sz * wrap DenseArraySizeType d)) acc max = acc * volume max) as H.
  { clear Hv. induction Hp as [|m max Hm Hp IH]; intros acc Ha Hv; simpl in *; [lia|].
    pose proof (volume_pos max Hp). assert (m < 2 ^ 64 /\ acc * m < 2 ^ 64) as [? ?] by nia.
    rewrite (wrap_u_small DenseArraySizeType m) by (done || (simpl width; lia)).
    rewrite wrap_u_small by (done || (simpl width; nia)). rewrite IH by nia. lia. }
  rewrite H; lia.
Qed.

(** [foreach] visits the indices of the box in the order of their positions, each once. *)
Lemma foreach_positions max : Forall (fun m => 0 < m) max -> volume max < 2 ^ 64 ->
  Forall (in_box max) (foreach max) /\ (fun i => position i max) <$> foreach max = seqZ 0 (volume max).
Proof.
  intros Hp Hv. unfold foreach. rewrite getSize_volume by done. pose proof (volume_pos max Hp).
  destruct (foreach_loop_spec (Z.to_nat (volume max)) max (replicate (length max) 0)) as [H1 H2].
  - by apply zero_in_box.
  - rewrite position_zero. lia.
  - rewrite position_zero, Z2Nat.id in H2 by lia. done.
Qed.

Lemma foreach_NoDup max : Forall (fun m => 0 < m) max -> volume max < 2 ^ 64 -> NoDup (foreach max).
Proof.
  intros Hp Hv. destruct (foreach_positions max Hp Hv) as [_ H].
  apply (NoDup_fmap_1 (fun i => position i max)). rewrite H. apply NoDup_seqZ.
Qed.

Lemma elem_of_foreach max idx : Forall (fun m => 0 < m) max -> volume max < 2 ^ 64 -> idx ∈ foreach max <-> in_box max idx.
Proof.
  intros Hp Hv. destruct (foreach_positions max Hp Hv) as [H1 H2]. split.
  - intros Hi. by eapply Forall_forall in H1.
  - intros Hb. pose proof (position_bounds max idx Hb).
    assert (position idx max ∈ (fun i => position i max) <$> foreach max) as Hin by (rewrite H2; apply elem_of_seqZ; lia).
    apply list_elem_of_fmap in Hin as (i & Ei & Hi). assert (in_box max i) as Hbi by by eapply Forall_forall in H1.
    by rewrite (position_inj max idx i Hb Hbi Ei).
Qed.

End IndexFacts.

Module IndexSpec.
Import DenseIndex IndexFacts.

Lemma volume_app l1 l2 : volume (l1 ++ l2) = volume l1 * volume l2.
Proof. induction l1 as [|m l1 IH]; simpl; [lia|]. rewrite IH. lia. Qed.

Lemma volume_reverse max : volume (reverse max) = volume max.
Proof. induction max as [|m max IH]; [done|]. rewrite reverse_cons, volume_app, IH. simpl. lia. Qed.

Lemma reverse_zip (l1 l2 : list Z) : length l1 = length l2 -> reverse (zip l1 l2) = zip (reverse l1) (reverse l2).
Proof.
  revert l2. induction l1 as [|x l1 IH]; intros [|y l2] Hl; try done. simpl. rewrite !reverse_cons.
  rewrite zip_with_app by (rewrite !length_reverse; by injection Hl). rewrite IH by by injection Hl. done.
Qed.

Lemma in_box_reverse max idx : in_box max idx -> in_box (reverse max) (reverse idx).
Proof. intros Hb. by apply Forall2_reverse. Qed.

Lemma positive_reverse max : Forall (fun m => 0 < m) max -> Forall (fun m => 0 < m) (reverse max).
Proof. intros H. by apply Forall_reverse. Qed.

Section linear.
Context (IndexType : ity) (Hok : ity_ok IndexType).

Lemma fits x : 0 <= x <= tmax IndexType -> wrap IndexType x = x.
Proof.
  intros Hx. apply wrap_id; [done|]. unfold in_ty. split; [|lia]. unfold tmin.
  unfold ity_ok in Hok. pow2_pos (width IndexType - 1). destruct (signed IndexType); lia.
Qed.

(** The machine's sums are the positions, if the number of elements fits the type. *)
Lemma linearize_position idx max v d :
  in_box max idx -> 0 <= v -> 0 < d -> v < d -> d * volume max <= tmax IndexType ->
  foldl (linearize_step IndexType) (v, d) (zip idx max) = (v + d * position idx max, d * volume max).
Proof.
  intros Hb. revert v d. induction Hb as [|i m idx max Hi Hb IH]; intros v d Hv Hd Hvd Hfit; simpl in *; [f_equal; lia|].
  pose proof (volume_pos _ (box_pos _ _ Hb)). assert (0 < d * m) by nia.
  assert (d * m <= d * (m * volume max)) by nia. assert (0 <= d * i <= d * (m - 1)) by nia.
  assert (v + d * i < d * m) by nia.
  assert (d * m <= tmax IndexType) by (etransitivity; [|exact Hfit]; done).
  rewrite (fits (d * i)), (fits (v + d * i)), (fits (d * m)) by lia.
  rewrite IH by (done || lia || nia). f_equal; lia.
Qed.

Lemma in_box_range idx max : in_box max idx -> in_range idx max = true.
Proof. induction 1 as [|i m idx max Hi _ IH]; [done|]. apply andb_true_iff. split; [lia|exact IH]. Qed.

Lemma rowMajor_position idx max : in_box max idx -> volume max <= tmax IndexType ->
  linearizeDenseIndexRowMajor IndexType idx max = Ok (position idx max).
Proof.
  intros Hb Hv. unfold linearizeDenseIndexRowMajor. rewrite vtAssert_true by by apply in_box_range.
  rewrite linearize_position by (done || lia). simpl. f_equal. lia.
Qed.

Lemma colMajor_position idx max : in_box max idx -> volume max <= tmax IndexType ->
  linearizeDenseIndexColMajor IndexType idx max = Ok (position (reverse idx) (reverse max)).
Proof.
  intros Hb Hv. unfold linearizeDenseIndexColMajor. rewrite vtAssert_true by by apply in_box_range.
  rewrite reverse_zip by by eapply Forall2_length. apply in_box_reverse in Hb. rewrite <- volume_reverse in Hv.
  rewrite linearize_position by (done || lia). simpl. f_equal. lia.
Qed.

(** Backwards, the indices are those of the reversed bounds. *)
Lemma foreach_reverse max : Forall (fun m => 0 < m) max -> volume max < 2 ^ 64 ->
  reverse <$> foreach max ≡ₚ foreach (reverse max).
Proof.
  intros Hp Hv. apply NoDup_Permutation.
  - apply NoDup_fmap_2; [apply _|by apply foreach_NoDup].
  - apply foreach_NoDup; [by apply positive_reverse|by rewrite volume_reverse].
  - intros idx. rewrite elem_of_foreach by (by apply positive_reverse || by rewrite volume_reverse). rewrite list_elem_of_fmap. split.
    + intros (i & -> & Hi). apply in_box_reverse. by apply elem_of_foreach in Hi.
    + intros Hb. exists (reverse idx). split; [by rewrite reverse_involutive|]. apply elem_of_foreach; [done|done|].
      apply in_box_reverse in Hb. by rewrite reverse_involutive in Hb.
Qed.

Lemma rowMajor_foreach max : Forall (fun m => 0 < m) max -> volume max <= tmax IndexType -> volume max < 2 ^ 64 ->
  (fun idx => linearizeDenseIndexRowMajor IndexType idx max) <$> foreach max = Ok <$> seqZ 0 (volume max).
Proof.
  intros Hp Hv H64. destruct (foreach_positions max Hp H64) as [H1 <-]. rewrite <- list_fmap_compose.
  apply list_fmap_ext. intros k idx Hi. apply rowMajor_position; [|done]. by eapply Forall_lookup in H1.
Qed.

Lemma foreach_backwards max : Forall (fun m => 0 < m) max -> volume max < 2 ^ 64 ->
  (fun idx => position (reverse idx) (reverse max)) <$> foreach max ≡ₚ seqZ 0 (volume max).
Proof.
  intros Hp H64. rewrite <- (volume_reverse max).
  destruct (foreach_positions (reverse max) (positive_reverse max Hp) ltac:(by rewrite volume_reverse)) as [_ <-].
  by rewrite <- (foreach_reverse max Hp H64), <- list_fmap_compose.
Qed.

Lemma colMajor_foreach max : Forall (fun m => 0 < m) max -> volume max <= tmax IndexType -> volume max < 2 ^ 64 ->
  (fun idx => linearizeDenseIndexColMajor IndexType idx max) <$> foreach max ≡ₚ Ok <$> seqZ 0 (volume max).
Proof.
  intros Hp Hv H64. rewrite <- (foreach_backwards max Hp H64), <- list_fmap_compose. apply Permutation_refl'.
  apply list_fmap_ext. intros k idx Hi. apply colMajor_position; [|done].
  destruct (foreach_positions max Hp H64) as [H1 _]. by eapply Forall_lookup in H1.
Qed.

(** C25: [foreach] visits every index of the collection exactly once, in the order of their
    row-major linearisation, which numbers them from 0; the column-major linearisation, by
    which elements are mapped to nodes, numbers them without gaps or collisions too, as long
    as the number of elements fits the index type. *)
Theorem foreach_and_linearize max :
  Forall (fun m => 0 < m) max -> volume max <= tmax IndexType -> volume max < 2 ^ 64 ->
  (forall idx, idx ∈ foreach max <-> in_box max idx) /\ NoDup (foreach max) /\
  (fun idx => linearizeDenseIndexRowMajor IndexType idx max) <$> foreach max = Ok <$> seqZ 0 (volume max) /\
  (fun idx => linearizeDenseIndexColMajor IndexType idx max) <$> foreach max ≡ₚ Ok <$> seqZ 0 (volume max).
Proof.
  intros Hp Hv H64. split_and!.
  - intros idx. by apply elem_of_foreach.
  - by apply foreach_NoDup.
  - by apply rowMajor_foreach.
  - by apply colMajor_foreach.
Qed.

End linear.

(** The indices of a collection of 2 by 3 elements. *)
Lemma foreach_and_linearize_witness :
  foreach [2; 3] = [[0; 0]; [1; 0]; [0; 1]; [1; 1]; [0; 2]; [1; 2]] /\
  (fun idx => linearizeDenseIndexColMajor i32 idx [2; 3]) <$> foreach [2; 3] ≡ₚ Ok <$> seqZ 0 6.
Proof.
  split; [by vm_compute|]. apply (foreach_and_linearize i32 ltac:(done) [2; 3]).
  - repeat constructor.
  - done.
  - done.
Defined.

(** ** Packing an index into 64 bits *)

Definition pack (nb : Z) (start : nat) (idx : list Z) (bits : Z) : Z :=
  foldl (fun bits '(i, d) => setFieldDynamic UniqueIndexBitType (i * nb) nb bits d) bits
    (zip (Z.of_nat <$> seq start (length idx)) idx).

Lemma pack_segment nb start idx bits j :
  0 < nb < 64 -> Forall (fun d => 0 <= d < 2 ^ nb) idx -> (Z.of_nat start + Z.of_nat (length idx)) * nb <= 64 ->
  (Z.of_nat j + 1) * nb <= 64 ->
  seg_val (Z.of_nat j * nb) nb (pack nb start idx bits) =
    if decide (start <= j < start + length idx)%nat then default 0 (idx !! (j - start)%nat) else seg_val (Z.of_nat j * nb) nb bits.
Proof.
  intros Hnb Hd. revert start bits. induction Hd as [|d idx Hd Hds IH]; intros start bits Hl Hj.
  - rewrite decide_False by (simpl; lia). done.
  - unfold pack. cbn [length seq fmap list_fmap zip zip_with foldl].
    fold (pack nb (S start) idx (setFieldDynamic UniqueIndexBitType (Z.of_nat start * nb) nb bits d)).
    cbn [length] in Hl. rewrite IH by (cbn [length] in *; lia || nia).
    assert (segment_ok UniqueIndexBitType (Z.of_nat start * nb) nb = true) as Hs1.
    { unfold segment_ok, shift_defined. simpl width. nia. }
    assert (segment_ok UniqueIndexBitType (Z.of_nat j * nb) nb = true) as Hs2.
    { unfold segment_ok, shift_defined. simpl width. nia. }
    destruct (decide (j = start)) as [->|Hne].
    + rewrite decide_False by lia. rewrite decide_True by (simpl; lia). rewrite Nat.sub_diag. simpl.
      pose proof (seg_val_setField_same UniqueIndexBitType ltac:(simpl; lia) (Z.of_nat start * nb) nb bits d Hs1) as E.
      unfold setField in E. rewrite E. by apply Z.mod_small.
    + destruct (decide (S start <= j < S start + length idx)%nat).
      * rewrite decide_True by (simpl; lia). replace (j - start)%nat with (S (j - S start)) by lia. done.
      * rewrite decide_False by (simpl; lia).
        apply (seg_val_setField_other UniqueIndexBitType ltac:(simpl; lia) (Z.of_nat start * nb) nb).
        rewrite Hs1, Hs2. unfold disjoint_seg. nia.
Qed.

(** C26: The bits an element's proxy carries determine the index: an index of two or more
    coordinates, each within its share of the 64 bits, is read back as it was packed. *)
Theorem uniqueBits_roundtrip IndexType idx :
  ity_ok IndexType -> (2 <= length idx <= 64)%nat ->
  Forall (fun d => 0 <= d < 2 ^ nbits (length idx) /\ d <= tmax IndexType) idx ->
  uniqueBitsToIndex IndexType (length idx) (uniqueBits idx) = idx.
Proof.
  intros Hok Hl Hd. set (nb := nbits (length idx)) in *.
  assert (0 < nb < 64 /\ Z.of_nat (length idx) * nb <= 64) as [Hnb Hfit].
  { unfold nb, nbits. simpl width. split; [|apply Z.mul_div_le; lia].
    split; [apply Z.div_str_pos; lia|]. apply Z.div_lt_upper_bound; lia. }
  change (uniqueBits idx) with (pack nb 0 idx 0). unfold uniqueBitsToIndex. fold nb.
  apply list_eq. intros i. rewrite list_lookup_fmap. destruct (decide (i < length idx)%nat) as [Hi|Hi].
  - rewrite lookup_seq_lt by done. simpl.
    assert (Forall (fun d => 0 <= d < 2 ^ nb) idx) as Hd' by (eapply Forall_impl; [exact Hd|]; by intros ? [? _]).
    assert (segment_ok UniqueIndexBitType (Z.of_nat i * nb) nb && (nb <? width UniqueIndexBitType) = true) as Hs.
    { unfold segment_ok, shift_defined. simpl width. nia. }
    pose proof (getField_val UniqueIndexBitType ltac:(simpl; lia) UniqueIndexBitType (Z.of_nat i * nb) nb (pack nb 0 idx 0) Hs) as E.
    unfold getField in E. rewrite E, pack_segment by (done || nia). rewrite decide_True by lia. rewrite Nat.sub_0_r.
    destruct (lookup_lt_is_Some_2 idx i Hi) as [d Ed]. rewrite Ed. simpl.
    pose proof (Forall_lookup_1 _ _ _ _ Hd Ed) as [Hr Hm]. f_equal.
    assert (2 ^ nb <= 2 ^ 64) by (apply Z.pow_le_mono_r; lia).
    rewrite (wrap_u_small UniqueIndexBitType) by (done || (simpl width; lia)). apply fits; [done|lia].
  - rewrite (lookup_ge_None_2 idx) by lia. rewrite lookup_ge_None_2; [done|]. rewrite length_seq. lia.
Qed.

(** A two-dimensional index has 32 bits for each coordinate. *)
Lemma uniqueBits_roundtrip_witness :
  uniqueBits [5; 7] = 7 * 2 ^ 32 + 5 /\ uniqueBitsToIndex i32 2 (uniqueBits [5; 7]) = [5; 7].
Proof.
  split; [by vm_compute|]. apply (uniqueBits_roundtrip i32 [5; 7]).
  - done.
  - simpl. lia.
  - repeat constructor; done.
Defined.

End IndexSpec.
