(* ===== verification/Mapping.v ===== *)
(** * Mappings of the elements of a collection to nodes

    Models [src/vt/topos/mapping/dense/dense.impl.h] (block and round-robin mappings) and
    [dense/unbounded_default.impl.h] (the mapping of unbounded collections). *)

From S2P Require Import Prelude.
From S2P Require Import Ids.
From S2P Require Import Index.
Import DenseIndex IndexFacts.

Module Mapping.

(** ** Division of doubles *)

(** [n / d] to the nearest integer, ties to even. *)
Definition round_nearest (n d : Z) : Z :=
  let q := n / d in
  let r := n mod d in
  if 2 * r <? d then q else if d <? 2 * r then q + 1 else if Z.even q then q else q + 1.

(** The double nearest [a / b], for [0 < a, b]: the significand and the power of one half.
    The exponent of the quotient is the difference of those of [a] and [b], or one less;
    53 bits are kept. *)
Definition round_quotient (a b : Z) : Z * Z :=
  let e0 := Z.log2 a - Z.log2 b in
  let e := if (if 0 <=? e0 then a <? Z.shiftl b e0 else Z.shiftl a (- e0) <? b) then e0 - 1 else e0 in
  let k := 52 - e in
  (round_nearest (Z.shiftl a (Z.max 0 k)) (Z.shiftl b (Z.max 0 (- k))), k).

(** The floor of the double nearest [a / b]. *)
Definition floor_quotient (a b : Z) : Z :=
  if a =? 0 then 0
  else
    let '(m, k) := round_quotient (Z.abs a) (Z.abs b) in
    Z.shiftr (Z.sgn a * Z.sgn b * m) k.

(** [static_cast<double>(x)], an integer. *)
Definition to_double (x : Z) : Z := floor_quotient x 1.

(** [std::floor(static_cast<double>(a) / static_cast<double>(b))], for [b] not zero. *)
Definition double_floor_div (a b : Z) : Z := floor_quotient (to_double a) (to_double b).

Section maps.
Context (IndexElmType : ity).

(** The type of a binary operation of [IndexElmType] and [NodeType] or [int]. *)
Definition common := promote IndexElmType.

(** [x / y] and [x % y]; undefined for a zero divisor. *)
Definition c_div (x y : Z) : res Z := vtAbortIf (y =? 0) (Ok (wrap common (Z.quot x y))).
Definition c_mod (x y : Z) : res Z := vtAbortIf (y =? 0) (Ok (wrap common (Z.rem x y))).

Definition blockMapDenseFlatIndex (flat_idx num_elems num_resources : Z) : res Z :=
  rem_c ← c_mod (wrap common num_elems) (wrap common num_resources);
  let bin_size_floor := wrap IndexElmType (double_floor_div num_elems num_resources) in
  let rem_elms := wrap IndexElmType rem_c in
  let bin_size := wrap common (bin_size_floor + 1) in
  let num_first_set := wrap IndexElmType (wrap common (rem_elms * bin_size)) in
  if flat_idx <? num_first_set then
    wrap NodeType <$> c_div flat_idx bin_size
  else if flat_idx <? num_elems then
    q ← c_div (wrap common (flat_idx - num_first_set)) bin_size_floor;
    Ok (wrap NodeType (wrap common (rem_elms + q)))
  else
    wrap NodeType <$> c_mod (wrap common flat_idx) (wrap common num_resources).

Definition denseBlockMap (idx max_idx : list Z) (nnodes : Z) : res Z :=
  let total_elems := wrap IndexElmType (getSize max_idx) in
  flat_idx ← linearizeDenseIndexColMajor IndexElmType idx max_idx;
  blockMapDenseFlatIndex flat_idx total_elems nnodes.

Definition dense1DBlockMap (idx max : list Z) (nx : Z) : res Z := denseBlockMap idx max nx.
Definition dense2DBlockMap (idx max : list Z) (nx : Z) : res Z := denseBlockMap idx max nx.
Definition dense3DBlockMap (idx max : list Z) (nx : Z) : res Z := denseBlockMap idx max nx.
Definition denseNDBlockMap (idx max : list Z) (nx : Z) : res Z := denseBlockMap idx max nx.

Definition defaultDenseIndex1DMap (idx max : list Z) (nx : Z) : res Z := dense1DBlockMap idx max nx.
Definition defaultDenseIndex2DMap (idx max : list Z) (nx : Z) : res Z := dense2DBlockMap idx max nx.
Definition defaultDenseIndex3DMap (idx max : list Z) (nx : Z) : res Z := dense3DBlockMap idx max nx.
Definition defaultDenseIndexNDMap (idx max : list Z) (nx : Z) : res Z := denseNDBlockMap idx max nx.

(** [lin_idx % nx]. *)
Definition node_mod (lin_idx nx : Z) : res Z :=
  wrap NodeType <$> c_mod (wrap common lin_idx) (wrap common nx).

Definition dense1DRoundRobinMap (idx max : list Z) (nx : Z) : res Z :=
  x ← get idx 0; node_mod x nx.
Definition denseNDRoundRobinMap (idx max : list Z) (nx : Z) : res Z :=
  lin_idx ← linearizeDenseIndexColMajor IndexElmType idx max; node_mod lin_idx nx.
Definition dense2DRoundRobinMap (idx max : list Z) (nx : Z) : res Z :=
  lin_idx ← linearizeDenseIndexColMajor IndexElmType idx max; node_mod lin_idx nx.
Definition dense3DRoundRobinMap (idx max : list Z) (nx : Z) : res Z :=
  lin_idx ← linearizeDenseIndexColMajor IndexElmType idx max; node_mod lin_idx nx.

(** [val ^= idx->get(i)]. *)
Fixpoint xor_loop (n : nat) (i val : Z) (idx : list Z) : res Z :=
  match n with
  | O => Ok val
  | S n => x ← get idx i; xor_loop n (i + 1) (wrap IndexElmType (Z.lxor val x)) idx
  end.

Definition UnboundedDefaultMap_map (idx : list Z) (ndim num_nodes : Z) : res Z :=
  val ← xor_loop (Z.to_nat ndim) 0 0 idx; node_mod val num_nodes.

End maps.
End Mapping.

Module MappingFacts.
Import Mapping.

(** ** The floor of the double quotient *)

Lemma round_nearest_bounds n d : 0 < d -> 2 * n - d <= 2 * (round_nearest n d * d) <= 2 * n + d.
Proof.
  intros Hd. unfold round_nearest. pose proof (Z.div_mod n d ltac:(lia)). pose proof (Z.mod_pos_bound n d Hd).
  case_Zbs; [nia|nia|]. destruct (Z.even (n / d)); nia.
Qed.

Lemma round_nearest_ge n d x : 0 < d -> x * d <= n -> x <= round_nearest n d.
Proof.
  intros Hd Hx. assert (x <= n / d) by (apply Z.div_le_lower_bound; lia).
  unfold round_nearest. case_Zbs; [lia|lia|]. destruct (Z.even (n / d)); lia.
Qed.

(** The exponent is that of the quotient. *)
Definition exponent (a b : Z) : Z :=
  let e0 := Z.log2 a - Z.log2 b in
  if (if 0 <=? e0 then a <? Z.shiftl b e0 else Z.shiftl a (- e0) <? b) then e0 - 1 else e0.

Lemma exponent_le a b n : 0 < a < 2 ^ n -> 0 < b -> 0 < n -> exponent a b <= n - 1.
Proof.
  intros Ha Hb Hn. assert (Z.log2 a < n) by (apply Z.log2_lt_pow2; lia).
  pose proof (Z.log2_nonneg b). unfold exponent. cbv zeta.
  destruct (0 <=? _); case_Zb; lia.
Qed.

Lemma exponent_lower a b : 0 < a -> 0 < b -> exponent a b <= 52 -> b * 2 ^ 52 <= a * 2 ^ (52 - exponent a b).
Proof.
  intros Ha Hb Hle. pose proof (Z.log2_spec a Ha) as [Ha1 Ha2]. pose proof (Z.log2_spec b Hb) as [Hb1 Hb2].
  pose proof (Z.log2_nonneg a). pose proof (Z.log2_nonneg b). unfold exponent in *. cbv zeta in *.
  set (e0 := Z.log2 a - Z.log2 b) in *.
  assert (b * 2 ^ 52 <= a * 2 ^ (52 - (e0 - 1)) \/ 52 < e0 - 1) as Hbase.
  { destruct (Z.le_gt_cases (e0 - 1) 52); [left|by right].
    transitivity (2 ^ Z.succ (Z.log2 b) * 2 ^ 52); [apply Z.mul_le_mono_nonneg_r; lia|].
    transitivity (2 ^ Z.log2 a * 2 ^ (52 - (e0 - 1))); [|apply Z.mul_le_mono_nonneg_r; [apply Z.pow_nonneg; lia|lia]].
    rewrite <- !Z.pow_add_r by lia. apply Z.pow_le_mono_r; lia. }
  revert Hle. destruct (Z.leb_spec 0 e0) as [Hz|Hz].
  - destruct (Z.ltb_spec a (Z.shiftl b e0)) as [Hs|Hs]; intros Hle; [destruct Hbase; [done|lia]|].
    rewrite Z.shiftl_mul_pow2 in Hs by lia.
    transitivity (b * 2 ^ e0 * 2 ^ (52 - e0)); [|apply Z.mul_le_mono_nonneg_r; [apply Z.pow_nonneg; lia|lia]].
    rewrite <- Z.mul_assoc, <- Z.pow_add_r by lia. apply Z.mul_le_mono_nonneg_l; [lia|]. apply Z.pow_le_mono_r; lia.
  - destruct (Z.ltb_spec (Z.shiftl a (- e0)) b) as [Hs|Hs]; intros Hle; [destruct Hbase; [done|lia]|].
    rewrite Z.shiftl_mul_pow2 in Hs by lia.
    replace (52 - e0) with (- e0 + 52) by lia. rewrite Z.pow_add_r, Z.mul_assoc by lia.
    apply Z.mul_le_mono_nonneg_r; lia.
Qed.

(** Below [2^53], no rounding reaches the next integer. *)
Lemma floor_quotient_exact a b : 0 <= a < 2 ^ 53 -> 0 < b -> floor_quotient a b = a / b.
Proof.
  intros Ha Hb. unfold floor_quotient. destruct (Z.eqb_spec a 0) as [->|Hne]; [by rewrite Z.div_0_l by lia|].
  rewrite !Z.abs_eq, !Z.sgn_pos by lia. unfold round_quotient. fold (exponent a b). cbv zeta.
  pose proof (exponent_le a b 53 ltac:(lia) Hb ltac:(lia)) as He.
  pose proof (exponent_lower a b ltac:(lia) Hb ltac:(lia)) as Hlow.
  set (k := 52 - exponent a b) in *. assert (0 <= k) as Hk by lia.
  rewrite (Z.max_r 0 k), (Z.max_l 0 (- k)), Z.shiftl_0_r by lia. rewrite Z.shiftl_mul_pow2, Z.shiftr_div_pow2 by lia.
  pow2_pos k. rewrite !Z.mul_1_l. symmetry.
  set (m := round_nearest (a * 2 ^ k) b).
  pose proof (round_nearest_bounds (a * 2 ^ k) b Hb) as Hm. fold m in Hm.
  pose proof (Z.div_mod a b ltac:(lia)) as Hd. pose proof (Z.mod_pos_bound a b Hb) as Hr.
  set (q := a / b) in *. set (r := a mod b) in *.
  assert (q * 2 ^ k <= m) by (apply round_nearest_ge; [lia|]; nia).
  assert (b < 2 * 2 ^ k) as Hbk.
  { assert (a * 2 ^ k < 2 ^ 53 * 2 ^ k) by nia. lia. }
  apply Z.div_unique_pos with (m - q * 2 ^ k); [|lia]. split; [lia|].
  assert (m < (q + 1) * 2 ^ k); [|lia]. apply Z.nle_gt. intros Hge.
  assert ((q + 1) * 2 ^ k * b <= m * b) by (apply Z.mul_le_mono_nonneg_r; lia).
  assert (a * 2 ^ k = q * 2 ^ k * b + r * 2 ^ k) by (rewrite Hd at 1; lia).
  assert (r * 2 ^ k <= (b - 1) * 2 ^ k) by (apply Z.mul_le_mono_nonneg_r; lia).
  lia.
Qed.

Lemma double_floor_div_exact a b : 0 <= a < 2 ^ 53 -> 0 < b < 2 ^ 53 -> double_floor_div a b = a / b.
Proof.
  intros Ha Hb. unfold double_floor_div, to_double.
  rewrite (floor_quotient_exact a 1), (floor_quotient_exact b 1), !Z.div_1_r by lia. apply floor_quotient_exact; lia.
Qed.

(** ** Counting *)

Fixpoint count_if {A} (p : A -> bool) (l : list A) : Z :=
  match l with [] => 0 | x :: l => (if p x then 1 else 0) + count_if p l end.

Lemma count_if_app {A} (p : A -> bool) l1 l2 : count_if p (l1 ++ l2) = count_if p l1 + count_if p l2.
Proof. induction l1 as [|x l1 IH]; simpl; [done|]. rewrite IH. lia. Qed.

Lemma count_if_perm {A} (p : A -> bool) l1 l2 : l1 ≡ₚ l2 -> count_if p l1 = count_if p l2.
Proof. induction 1; simpl; lia. Qed.

Lemma count_if_fmap {A B} (f : A -> B) p l : count_if p (f <$> l) = count_if (fun x => p (f x)) l.
Proof. induction l as [|x l IH]; [done|]. simpl. f_equal. exact IH. Qed.

Lemma count_if_ext {A} (p q : A -> bool) l : Forall (fun x => p x = q x) l -> count_if p l = count_if q l.
Proof. induction 1 as [|x l E _ IH]; [done|]. simpl. by rewrite E, IH. Qed.

Lemma count_if_all {A} (p : A -> bool) b l : Forall (fun x => p x = b) l ->
  count_if p l = if b then Z.of_nat (length l) else 0.
Proof. induction 1 as [|x l E _ IH]; simpl; [by destruct b|]. rewrite E, IH. destruct b; lia. Qed.

(** How many of the first [n] numbers an interval of them has. *)
Lemma count_interval n a b : 0 <= a <= b -> b <= n -> count_if (fun i => (a <=? i) && (i <? b)) (seqZ 0 n) = b - a.
Proof.
  intros Hab Hn. replace n with (a + ((b - a) + (n - b))) by lia. rewrite !seqZ_app by lia. rewrite !count_if_app.
  rewrite (count_if_all _ false (seqZ 0 a)), (count_if_all _ true (seqZ (0 + a) (b - a))), (count_if_all _ false (seqZ _ (n - b))).
  - rewrite length_seqZ. lia.
  - apply Forall_seqZ. intros i Hi. lia.
  - apply Forall_seqZ. intros i Hi. lia.
  - apply Forall_seqZ. intros i Hi. lia.
Qed.

End MappingFacts.

Module MappingSpec.
Import Mapping MappingFacts IndexSpec.

(** ** The blocks of the block mapping *)

(** The first of the [n] flat indices that node [k] of [r] gets: the nodes before it get
    [n / r] each, and the first [n mod r] of them one more. *)
Definition block_start (n r k : Z) : Z := k * (n / r) + Z.min k (n mod r).

Definition block_of (n r i : Z) : Z :=
  let b := n / r in let m := n mod r in
  if i <? m * (b + 1) then i / (b + 1) else m + (i - m * (b + 1)) / b.

Lemma block_start_mono n r j k : 0 <= n -> 0 < r -> 0 <= j <= k -> block_start n r j <= block_start n r k.
Proof. intros Hn Hr Hjk. unfold block_start. pose proof (Z.div_pos n r). nia. Qed.

Lemma block_start_0 n r : 0 < r -> block_start n r 0 = 0.
Proof. intros Hr. unfold block_start. pose proof (Z.mod_pos_bound n r Hr). lia. Qed.

Lemma block_start_end n r : 0 < r -> block_start n r r = n.
Proof. intros Hr. unfold block_start. pose proof (Z.mod_pos_bound n r Hr). pose proof (Z.div_mod n r). nia. Qed.

(** The block of an index, and that no other contains it. *)
Lemma block_of_spec n r i : 0 <= i < n -> 0 < r ->
  0 <= block_of n r i < r /\ block_start n r (block_of n r i) <= i < block_start n r (block_of n r i + 1).
Proof.
  intros Hi Hr. unfold block_of, block_start. cbv zeta.
  pose proof (Z.mod_pos_bound n r Hr) as Hm. pose proof (Z.div_mod n r ltac:(lia)) as Hn.
  assert (0 <= n / r) by (apply Z.div_pos; lia).
  set (b := n / r) in *. set (m := n mod r) in *. destruct (Z.ltb_spec i (m * (b + 1))).
  - pose proof (Z.div_mod i (b + 1) ltac:(lia)). pose proof (Z.mod_pos_bound i (b + 1) ltac:(lia)).
    set (k := i / (b + 1)) in *. assert (0 <= k) by (apply Z.div_pos; lia).
    assert (k < m) by nia. rewrite !Z.min_l by lia. nia.
  - assert (0 < b) by nia.
    pose proof (Z.div_mod (i - m * (b + 1)) b ltac:(lia)). pose proof (Z.mod_pos_bound (i - m * (b + 1)) b ltac:(lia)).
    set (k := (i - m * (b + 1)) / b) in *. assert (0 <= k) by (apply Z.div_pos; lia).
    rewrite !Z.min_r by lia. assert (k < r - m) by nia. nia.
Qed.

Lemma block_unique n r i k1 k2 : 0 <= n -> 0 < r -> 0 <= k1 -> 0 <= k2 ->
  block_start n r k1 <= i < block_start n r (k1 + 1) -> block_start n r k2 <= i < block_start n r (k2 + 1) -> k1 = k2.
Proof.
  intros Hn Hr H1 H2 Hi1 Hi2. destruct (Z.lt_trichotomy k1 k2) as [H|[H|H]]; [|done|].
  - pose proof (block_start_mono n r (k1 + 1) k2 Hn Hr ltac:(lia)). lia.
  - pose proof (block_start_mono n r (k2 + 1) k1 Hn Hr ltac:(lia)). lia.
Qed.

Section maps.
Context (I : ity) (Hok : ity_ok I).

Lemma common_tmax : tmax I <= tmax (common I) /\ tmax i16 <= tmax (common I) /\ ity_ok (common I).
Proof.
  unfold ity_ok, common, promote in *. destruct (Z.ltb_spec (width I) 32) as [H|H]; unfold tmax; [|split_and!].
  - simpl width. simpl signed. cbv iota.
    assert (2 ^ width I <= 2 ^ 31) by (apply Z.pow_le_mono_r; lia).
    assert (2 ^ (width I - 1) <= 2 ^ 31) by (apply Z.pow_le_mono_r; lia). destruct (signed I); lia.
  - lia.
  - assert (2 ^ 31 <= 2 ^ width I) by (apply Z.pow_le_mono_r; lia).
    assert (2 ^ 31 <= 2 ^ (width I - 1)) by (apply Z.pow_le_mono_r; lia). simpl. destruct (signed I); lia.
  - lia.
Qed.

Lemma fits_common x : 0 <= x <= tmax I -> wrap (common I) x = x.
Proof. intros Hx. pose proof common_tmax as (? & _ & ?). apply fits; [done|lia]. Qed.

Lemma node_common x : 0 <= x <= tmax NodeType -> wrap (common I) x = x.
Proof. intros Hx. pose proof common_tmax as (_ & ? & ?). apply fits; [done|]. change NodeType with i16 in *. lia. Qed.

Lemma node_fits x : 0 <= x <= tmax NodeType -> wrap NodeType x = x.
Proof. apply fits. done. Qed.

Lemma c_div_ok x y : 0 <= x <= tmax I -> 0 < y -> c_div I x y = Ok (x / y).
Proof.
  intros Hx Hy. unfold c_div, vtAbortIf. destruct (Z.eqb_spec y 0); [lia|]. rewrite Z.quot_div_nonneg by lia.
  rewrite fits_common; [done|]. pose proof (Z.div_pos x y). pose proof (Z.div_le_upper_bound x y x). nia.
Qed.

Lemma c_mod_ok x y : 0 <= x <= tmax I -> 0 < y -> c_mod I x y = Ok (x mod y).
Proof.
  intros Hx Hy. unfold c_mod, vtAbortIf. destruct (Z.eqb_spec y 0); [lia|]. rewrite Z.rem_mod_nonneg by lia.
  rewrite fits_common; [done|]. pose proof (Z.mod_pos_bound x y). pose proof (Z.mod_le x y). lia.
Qed.

Lemma node_mod_ok x nx : 0 <= x <= tmax I -> 0 < nx <= tmax NodeType -> node_mod I x nx = Ok (x mod nx).
Proof.
  intros Hx Hn. unfold node_mod. rewrite fits_common, node_common, c_mod_ok by lia. simpl. f_equal. apply node_fits.
  pose proof (Z.mod_pos_bound x nx). lia.
Qed.

(** The machine computes the block. *)
Lemma blockMap_block_of n r i : 0 <= i < n -> n < tmax I -> n < 2 ^ 53 -> 0 < r <= tmax NodeType ->
  blockMapDenseFlatIndex I i n r = Ok (block_of n r i).
Proof.
  intros Hi Hn H53 Hr. assert (0 < r < 2 ^ 53) as Hr53 by (change (tmax NodeType) with 32767 in Hr; lia).
  pose proof (block_of_spec n r i Hi ltac:(lia)) as [Hk _]. unfold block_of in *. cbv zeta in *.
  unfold blockMapDenseFlatIndex. rewrite (fits_common n), (node_common r), (c_mod_ok n r), (double_floor_div_exact n r) by lia.
  pose proof (Z.mod_pos_bound n r ltac:(lia)) as Hm. pose proof (Z.div_mod n r ltac:(lia)) as Hd.
  assert (0 <= n / r) by (apply Z.div_pos; lia).
  set (b := n / r) in *. set (m := n mod r) in *.
  assert (0 <= b <= n /\ 0 <= m <= n /\ 0 <= m * (b + 1) <= n) as (Hb & Hm' & Hf) by nia.
  simpl. rewrite (fits I Hok b), (fits I Hok m), (fits_common (b + 1)), (fits_common (m * (b + 1))), (fits I Hok (m * (b + 1))) by lia.
  destruct (Z.ltb_spec i (m * (b + 1))) as [Hlt|Hge].
  - rewrite c_div_ok by lia. simpl. by rewrite node_fits by lia.
  - destruct (Z.ltb_spec i n); [|lia]. rewrite (fits_common (i - _)) by lia.
    assert (0 < b) by nia. rewrite c_div_ok by lia. simpl.
    rewrite (node_common (m + _)), node_fits by lia. done.
Qed.

(** ** The mappings *)

(** The bits of the exclusive or are those of the type. *)
Lemma lxor_fits x y : 0 <= x <= tmax I -> 0 <= y <= tmax I -> 0 <= Z.lxor x y <= tmax I.
Proof.
  assert (exists w, 0 <= w /\ tmax I = 2 ^ w - 1) as (w & Hw & ->).
  { unfold tmax. unfold ity_ok in Hok. destruct (signed I); eexists; (split; [|done]); lia. }
  intros Hx Hy. split; [apply Z.lxor_nonneg; lia|]. assert (Z.lxor x y < 2 ^ w); [|lia].
  destruct (Z.eq_dec (Z.lxor x y) 0) as [->|Hne]; [apply Z.pow_pos_nonneg; lia|].
  assert (forall z, 0 <= z <= 2 ^ w - 1 -> z = 0 \/ Z.log2 z < w) as Hlog.
  { intros z Hz. destruct (Z.eq_dec z 0); [by left|right]. apply Z.log2_lt_pow2; lia. }
  pose proof (Z.log2_lxor x y ltac:(lia) ltac:(lia)) as Hl. apply Z.log2_lt_pow2; [pose proof (proj2 (Z.lxor_nonneg x y)); lia|].
  destruct (Hlog x Hx) as [->|?]; [rewrite Z.lxor_0_l in *|]; destruct (Hlog y Hy) as [->|?]; try rewrite Z.lxor_0_r in *; lia.
Qed.

Lemma get_lookup idx i x : idx !! i = Some x -> get idx (Z.of_nat i) = Ok x.
Proof. intros E. unfold get. destruct (Z.ltb_spec (Z.of_nat i) 0); [lia|]. by rewrite Nat2Z.id, E. Qed.

Lemma xor_loop_ok n i val idx : Forall (fun x => 0 <= x <= tmax I) idx -> 0 <= val <= tmax I -> (i + n <= length idx)%nat ->
  exists v, xor_loop I n (Z.of_nat i) val idx = Ok v /\ 0 <= v <= tmax I.
Proof.
  intros Hidx. revert i val. induction n as [|n IH]; intros i val Hv Hn; [by exists val|]. cbn [xor_loop].
  destruct (lookup_lt_is_Some_2 idx i ltac:(lia)) as [x Ex]. rewrite (get_lookup idx i x Ex). cbn [mbind res_bind].
  pose proof (Forall_lookup_1 _ _ _ _ Hidx Ex) as Hx. pose proof (lxor_fits val x Hv Hx) as Hl.
  rewrite (fits I Hok) by done. replace (Z.of_nat i + 1) with (Z.of_nat (S i)) by lia. apply IH; [done|lia].
Qed.

Definition to_existing_node (nnodes : Z) (r : res Z) : Prop := exists k, r = Ok k /\ 0 <= k < nnodes.

Lemma node_mod_exists x nx : 0 <= x <= tmax I -> 0 < nx <= tmax NodeType -> to_existing_node nx (node_mod I x nx).
Proof. intros Hx Hn. exists (x mod nx). split; [by apply node_mod_ok|apply Z.mod_pos_bound; lia]. Qed.

Lemma unbounded_exists idx nx : Forall (fun x => 0 <= x <= tmax I) idx -> 0 < nx <= tmax NodeType ->
  to_existing_node nx (UnboundedDefaultMap_map I idx (Z.of_nat (length idx)) nx).
Proof.
  intros Hidx Hn. unfold UnboundedDefaultMap_map. rewrite Nat2Z.id.
  assert (0 <= 0 <= tmax I) as H0 by (unfold ity_ok in Hok; unfold tmax; pow2_pos (width I - 1); pow2_pos (width I); destruct (signed I); lia).
  destruct (xor_loop_ok (length idx) 0 0 idx Hidx H0 ltac:(lia)) as (v & Ev & Hv). change (Z.of_nat 0) with 0 in Ev.
  rewrite Ev. by apply node_mod_exists.
Qed.

Section collection.
Context (max : list Z) (nnodes : Z).
Context (Hmax : Forall (fun m => 0 < m) max) (Hvol : volume max < tmax I) (H53 : volume max < 2 ^ 53).
Context (Hnodes : 0 < nnodes <= tmax NodeType).

Lemma denseBlockMap_block_of idx : in_box max idx ->
  denseBlockMap I idx max nnodes = Ok (block_of (volume max) nnodes (position (reverse idx) (reverse max))).
Proof.
  intros Hb. pose proof (volume_pos max Hmax). unfold denseBlockMap.
  rewrite colMajor_position by (done || lia). rewrite getSize_volume by (done || lia). rewrite fits by (done || lia).
  cbn [mbind res_bind]. apply blockMap_block_of; try done.
  pose proof (position_bounds _ _ (in_box_reverse _ _ Hb)). rewrite volume_reverse in *. lia.
Qed.

Lemma roundRobin_mod idx : in_box max idx ->
  denseNDRoundRobinMap I idx max nnodes = Ok (position (reverse idx) (reverse max) mod nnodes).
Proof.
  intros Hb. unfold denseNDRoundRobinMap. rewrite colMajor_position by (done || lia). cbn [mbind res_bind].
  apply node_mod_ok; [|done]. pose proof (position_bounds _ _ (in_box_reverse _ _ Hb)). rewrite volume_reverse in *. lia.
Qed.

(** C27: The block mapping, computed with a division of doubles, cuts the column-major
    numbering of the collection into one contiguous block for each node: it sends an index
    of the collection to node [k] exactly when its number is in the block [k], where the
    blocks of the first [n mod nnodes] nodes have [n / nnodes + 1] elements and the others
    [n / nnodes]. This is for collections whose number of elements is below the largest
    value of the index type and below [2^53] (for indices of 32 bits the first is enough),
    on at least one node: there every conversion and product of the code keeps its value
    and the double's floor is the quotient of integers; [volume_wraps] and
    [double_division_rounds] show that both bounds are needed. *)
Theorem block_map_blocks idx k : in_box max idx ->
  denseBlockMap I idx max nnodes = Ok k <->
  0 <= k < nnodes /\
  block_start (volume max) nnodes k <= position (reverse idx) (reverse max) < block_start (volume max) nnodes (k + 1).
Proof.
  intros Hb. rewrite denseBlockMap_block_of by done. pose proof (position_bounds _ _ (in_box_reverse _ _ Hb)) as Hp.
  rewrite volume_reverse in Hp. destruct (block_of_spec (volume max) nnodes _ Hp ltac:(lia)) as [Hk Hs]. split.
  - intros [= <-]. done.
  - intros [Hk' Hs']. f_equal. eapply block_unique; [| | | |exact Hs|exact Hs']; lia.
Qed.

Definition on_node (k : Z) (r : res Z) : bool := match r with Ok k' => k' =? k | Stop _ => false end.

Lemma on_node_block k idx : 0 <= k < nnodes -> in_box max idx ->
  on_node k (denseBlockMap I idx max nnodes)
  = (block_start (volume max) nnodes k <=? position (reverse idx) (reverse max))
    && (position (reverse idx) (reverse max) <? block_start (volume max) nnodes (k + 1)).
Proof.
  intros Hk Hb. rewrite denseBlockMap_block_of by done. pose proof (position_bounds _ _ (in_box_reverse _ _ Hb)) as Hp.
  rewrite volume_reverse in Hp. destruct (block_of_spec (volume max) nnodes _ Hp ltac:(lia)) as [Hk' Hs]. simpl.
  apply eq_iff_eq_true. rewrite Z.eqb_eq, andb_true_iff, Z.leb_le, Z.ltb_lt. split; [by intros <-|]. intros Hi.
  eapply block_unique; [| | | |exact Hs|exact Hi]; lia.
Qed.

(** C28: The block mapping balances the collection: when every element is placed with it,
    each of the first [n mod nnodes] nodes holds [n / nnodes + 1] elements and each of the
    others [n / nnodes], of the [n] the loop over the collection visits. *)
Theorem block_map_balanced k : 0 <= k < nnodes ->
  count_if (fun idx => on_node k (denseBlockMap I idx max nnodes)) (foreach max)
  = volume max / nnodes + (if k <? volume max mod nnodes then 1 else 0).
Proof.
  intros Hk. pose proof (volume_pos max Hmax). assert (volume max < 2 ^ 64) as H64 by lia.
  set (inside := fun p => (block_start (volume max) nnodes k <=? p) && (p <? block_start (volume max) nnodes (k + 1))).
  transitivity (count_if inside (seqZ 0 (volume max))).
  - rewrite <- (count_if_perm inside _ _ (foreach_backwards max Hmax H64)), count_if_fmap. apply count_if_ext.
    destruct (foreach_positions max Hmax H64) as [Hall _]. eapply Forall_impl; [exact Hall|]. intros idx Hb. by apply on_node_block.
  - unfold inside. rewrite count_interval.
    + unfold block_start. case_Zb; lia.
    + split; [|apply block_start_mono; lia].
      transitivity (block_start (volume max) nnodes 0); [rewrite block_start_0; lia|apply block_start_mono; lia].
    + transitivity (block_start (volume max) nnodes nnodes); [apply block_start_mono; lia|rewrite block_start_end; lia].
Qed.

Lemma out_of_box idx : length idx = length max -> Forall (fun x => 0 <= x) idx -> ~ in_box max idx -> in_range idx max = false.
Proof.
  clear Hmax Hvol H53. intros Hlen Hidx. revert max Hlen. induction Hidx as [|x idx Hx _ IH]; intros [|m max'] Hlen Hb; try done.
  - destruct Hb. constructor.
  - unfold in_range. cbn [zip_with forallb]. destruct (Z.ltb_spec x m); [|done]. cbn [andb]. apply (IH max'); [by injection Hlen|].
    intros Hb'. apply Hb. constructor; [lia|done].
Qed.

(** C29: For every index with as many coordinates as the collection has bounds, none of them
    negative: the block mapping and the round-robin mapping over several dimensions place an
    index of the collection on a node that exists and stop at the assertion of the bounds for
    any other; the one-dimensional round-robin mapping and the mapping of unbounded
    collections look at no bounds and place every such index on a node that exists. The
    number of elements of a collection with bounds is to be below the largest value of the
    index type and [2^53]. *)
Theorem maps_to_existing_nodes idx : length idx = length max -> Forall (fun x => 0 <= x <= tmax I) idx ->
  (in_box max idx ->
    to_existing_node nnodes (denseBlockMap I idx max nnodes) /\ to_existing_node nnodes (denseNDRoundRobinMap I idx max nnodes)) /\
  (~ in_box max idx ->
    denseBlockMap I idx max nnodes = Stop AssertFailed /\ denseNDRoundRobinMap I idx max nnodes = Stop AssertFailed) /\
  (idx <> [] -> to_existing_node nnodes (dense1DRoundRobinMap I idx max nnodes)) /\
  to_existing_node nnodes (UnboundedDefaultMap_map I idx (Z.of_nat (length idx)) nnodes).
Proof.
  intros Hlen Hidx. split_and!.
  - intros Hb. pose proof (position_bounds _ _ (in_box_reverse _ _ Hb)) as Hp. rewrite volume_reverse in Hp. split.
    + eexists. split; [by apply denseBlockMap_block_of|]. by apply block_of_spec; [|lia].
    + eexists. split; [by apply roundRobin_mod|]. apply Z.mod_pos_bound. lia.
  - intros Hb. assert (linearizeDenseIndexColMajor I idx max = Stop AssertFailed) as E.
    { unfold linearizeDenseIndexColMajor. rewrite out_of_box; [done|done| |done]. eapply Forall_impl; [exact Hidx|]. by intros x [? _]. }
    unfold denseBlockMap, denseNDRoundRobinMap. by rewrite E.
  - intros Hne. destruct Hidx as [|x idx Hx _]; [done|]. unfold dense1DRoundRobinMap.
    change (get (x :: idx) 0) with (Ok x). by apply node_mod_exists.
  - by apply unbounded_exists.
Qed.

End collection.
End maps.

(** ** Witnesses *)

(** Ten elements on four nodes: blocks of three, three, two and two. *)
Lemma block_map_blocks_witness :
  (fun idx => denseBlockMap i32 idx [10] 4) <$> foreach [10] = Ok <$> [0; 0; 0; 1; 1; 1; 2; 2; 3; 3] /\
  (0 <= 2 < 4 /\ block_start 10 4 2 <= 7 < block_start 10 4 3).
Proof.
  split; [by vm_compute|]. apply (block_map_blocks i32 ltac:(done) [10] 4 ltac:(by repeat constructor) ltac:(done) ltac:(done) ltac:(done) [7] 2).
  - by repeat constructor.
  - by vm_compute.
Defined.

Lemma block_map_balanced_witness :
  count_if (fun idx => on_node 1 (denseBlockMap i32 idx [2; 5] 4)) (foreach [2; 5]) = 3.
Proof.
  rewrite (block_map_balanced i32 ltac:(done) [2; 5] 4 ltac:(by repeat constructor) ltac:(done) ltac:(done) ltac:(done) 1); done.
Defined.

Lemma maps_to_existing_nodes_witness :
  UnboundedDefaultMap_map i32 [6; 3] 2 4 = Ok 1 /\ to_existing_node 4 (denseBlockMap i32 [1; 4] [2; 5] 4) /\
  denseBlockMap i32 [12] [10] 4 = Stop AssertFailed.
Proof.
  split; [by vm_compute|]. split.
  - destruct (maps_to_existing_nodes i32 ltac:(done) [2; 5] 4 ltac:(by repeat constructor) ltac:(done) ltac:(done) ltac:(done) [1; 4]) as [H _];
      [done|by repeat constructor|]. destruct H as [H _]; [by repeat constructor|exact H].
  - destruct (maps_to_existing_nodes i32 ltac:(done) [10] 4 ltac:(by repeat constructor) ltac:(done) ltac:(done) ltac:(done) [12]) as (_ & H & _);
      [done|by repeat constructor|]. destruct H as [H _]; [|exact H]. intros Hb. inversion Hb. lia.
Defined.

(** Beyond the indices of the theorem the mappings leave the nodes: [%] is negative for a
    negative coordinate, which is a legal index of an unbounded collection. *)
Lemma negative_index_no_node : UnboundedDefaultMap_map i32 [-3] 1 4 = Ok (-3) /\ dense1DRoundRobinMap i32 [-3] [5] 4 = Ok (-3).
Proof. by vm_compute. Qed.

(** A collection of more elements than its index type can count: the number of the index
    wraps, and it lands on no node at all instead of in its block, that of node 2. *)
Lemma volume_wraps :
  in_box [70000; 70000] [40000; 0] /\ denseBlockMap i32 [40000; 0] [70000; 70000] 4 = Ok (-9) /\
  block_of (volume [70000; 70000]) 4 (position (reverse [40000; 0]) (reverse [70000; 70000])) = 2.
Proof. split; [by repeat constructor|by vm_compute]. Qed.

(** The quotient is not the integer one when the number of elements does not fit a double. *)
Lemma double_division_rounds : double_floor_div (2 ^ 60 - 1) 1024 = 2 ^ 50 /\ (2 ^ 60 - 1) / 1024 = 2 ^ 50 - 1.
Proof. by vm_compute. Qed.

End MappingSpec.
