(* ===== verification/Components.v ===== *)
(** * The components of the runtime

    Models [src/vt/runtime/component/component_registry.h], [component_dep.h] and
    [component_pack.{h,cc,impl.h}]: which components are needed, in what order they are
    constructed, started and destroyed. A component is its index in the registry; what its
    own methods do is the rest of the runtime, here they are calls that are listed. *)

From stdpp Require Import gmap strings.
From S2P Require Import Prelude.
From S2P Require Import Effects.

(** ** The registry of dependencies *)

Module Registry.

Record RegisteredDeps := MkDeps { startup_deps_ : gset Z; runtime_deps_ : gset Z }.

Abbreviation RegistryType := (list RegisteredDeps).

Definition addStartupDep (dep : Z) (r : RegisteredDeps) : RegisteredDeps :=
  MkDeps ({[dep]} ∪ startup_deps_ r) (runtime_deps_ r).
Definition addRuntimeDep (dep : Z) (r : RegisteredDeps) : RegisteredDeps :=
  MkDeps (startup_deps_ r) ({[dep]} ∪ runtime_deps_ r).

(** [Registrar()]: a new type gets the next index. *)
Definition registrar (reg : RegistryType) : RegistryType * Z :=
  (reg ++ [MkDeps ∅ ∅], Z.of_nat (length reg)).

(** [getRegistry().at(han)] throws for an index out of range. *)
Definition getIdx (reg : RegistryType) (han : Z) : res RegisteredDeps :=
  if han <? 0 then Stop AbortCalled
  else match reg !! Z.to_nat han with Some r => Ok r | None => Stop AbortCalled end.

Definition getStartupDeps (reg : RegistryType) (han : Z) : res (gset Z) := startup_deps_ <$> getIdx reg han.
Definition getRuntimeDeps (reg : RegistryType) (han : Z) : res (gset Z) := runtime_deps_ <$> getIdx reg han.

(** [AddDep<Deps...>::add(t, startup)]. *)
Fixpoint addDep (deps : list Z) (t : Z) (startup : bool) (reg : RegistryType) : res RegistryType :=
  match deps with
  | [] => Ok reg
  | u :: deps =>
      r ← getIdx reg t;
      addDep deps t startup (<[Z.to_nat t := (if startup then addStartupDep u r else addRuntimeDep u r)]> reg)
  end.

Definition dependsOn (t : Z) (deps : list Z) (startup : bool) (reg : RegistryType) : res RegistryType :=
  addDep deps t startup reg.

End Registry.

(** ** The pack *)

Module ComponentPack.
Import Registry.

(** What is done to components, in order. *)
Inductive Call :=
  | Construct (i : Z)
  | SetRef (i : Z)
  | Initialize (i : Z)
  | SetId (i : Z) (component_id : Z)
  | Startup (i : Z)
  | Finalize (i : Z)
  | Destroy (i : Z)
  | Progress (i : Z) (current_time : Z)
  | Apply (i : option Z).

(** What a component answers about itself. *)
Record BaseComponent := MkBase { pollable : bool; name : string; needs_time : bool; work_done : Z -> Z }.

(** The function that makes a component: the component's answers, and whether there is a
    reference to set. *)
Record Callable := MkCallable { base : BaseComponent; has_ref : bool }.

Record Pack := MkPack {
  live_ : bool;
  registered_components_ : list Z;
  registered_set_ : gset Z;
  added_components_ : gset Z;
  construct_components_ : gmap Z Callable;
  live_components_ : list (option Z);
  pollable_components_ : list Z;
  cur_id_ : Z;
}.

Definition empty_pack : Pack := MkPack false [] ∅ ∅ ∅ [] [] 1.

Definition with_live b p := MkPack b (registered_components_ p) (registered_set_ p) (added_components_ p)
  (construct_components_ p) (live_components_ p) (pollable_components_ p) (cur_id_ p).
Definition with_added a p := MkPack (live_ p) (registered_components_ p) (registered_set_ p) a
  (construct_components_ p) (live_components_ p) (pollable_components_ p) (cur_id_ p).
Definition with_components l p := MkPack (live_ p) (registered_components_ p) (registered_set_ p) (added_components_ p)
  (construct_components_ p) l (pollable_components_ p) (cur_id_ p).
Definition with_pollable l p := MkPack (live_ p) (registered_components_ p) (registered_set_ p) (added_components_ p)
  (construct_components_ p) (live_components_ p) l (cur_id_ p).
Definition with_id i p := MkPack (live_ p) (registered_components_ p) (registered_set_ p) (added_components_ p)
  (construct_components_ p) (live_components_ p) (pollable_components_ p) i.

(** [registerComponent<T>(ref, StartupDeps, RuntimeDeps, cons...)]. *)
Definition registerComponent (idx : Z) (c : Callable) (sdeps rdeps : list Z)
    (rp : RegistryType * Pack) : res (RegistryType * Pack) :=
  let '(reg, p) := rp in
  reg ← dependsOn idx sdeps true reg;
  reg ← dependsOn idx rdeps false reg;
  let fresh := bool_decide (idx ∉ registered_set_ p) in
  Ok (reg, MkPack (live_ p)
    (if fresh then registered_components_ p ++ [idx] else registered_components_ p)
    (if fresh then {[idx]} ∪ registered_set_ p else registered_set_ p)
    (added_components_ p)
    (match construct_components_ p !! idx with
     | Some _ => construct_components_ p
     | None => <[idx := c]> (construct_components_ p)
     end)
    (live_components_ p) (pollable_components_ p) (cur_id_ p)).

(** [add<T>()]. *)
Definition add (idx : Z) (p : Pack) : Pack := with_added ({[idx]} ∪ added_components_ p) p.

Section pack.
(** The order in which a range-based [for] meets the elements of an [unordered_set]. *)
Context (iterate : gset Z -> list Z).
Context (reg : RegistryType).

(** *** The components needed *)

Definition add_dep (st : gset Z * bool) (d : Z) : gset Z * bool :=
  if bool_decide (d ∈ st.1) then st else ({[d]} ∪ st.1, true).

(** The body of the loop over [added_components_]. *)
Definition visit_component (st : gset Z * bool) (i : Z) : res (gset Z * bool) :=
  s_deps ← getStartupDeps reg i;
  r_deps ← getRuntimeDeps reg i;
  Ok (foldl add_dep (foldl add_dep st (iterate s_deps)) (iterate r_deps)).

Fixpoint fold_res {S A} (f : S -> A -> res S) (l : list A) (s : S) : res S :=
  match l with [] => Ok s | a :: l => s ← f s a; fold_res f l s end.

(** [do { ... } while (inserted)]; here a pass meets the elements the set has when it
    begins, see [pass] for what else it can meet. *)
Fixpoint add_loop (fuel : nat) (added : gset Z) : res (gset Z) :=
  match fuel with
  | O => Stop NoReturn
  | S fuel =>
      st ← fold_res visit_component (iterate added) (added, false);
      if (st.2 : bool) then add_loop fuel st.1 else Ok st.1
  end.

Definition addAllRequiredComponents (p : Pack) : res Pack :=
  added ← add_loop (S (S (length reg))) (added_components_ p);
  Ok (with_added added p).

(** *** The order of construction *)

Record Dfs := MkDfs { order : list Z; visited : list bool; visiting : list bool }.

(** [a[v]] of an array; outside it the behaviour is undefined. *)
Definition read (a : list bool) (v : Z) : res bool :=
  if v <? 0 then Stop AbortCalled
  else match a !! Z.to_nat v with Some b => Ok b | None => Stop AbortCalled end.

(** [if (not visited[vp]) topoSortImpl(vp, ...)]. *)
Definition unless_visited (rec : Dfs -> Z -> res Dfs) (st : Dfs) (vp : Z) : res Dfs :=
  b ← read (visited st) vp;
  if (b : bool) then Ok st else rec st vp.

Fixpoint topoSortImpl (fuel : nat) (st : Dfs) (v : Z) : res Dfs :=
  match fuel with
  | O => Stop NoReturn
  | S fuel =>
      on_path ← read (visiting st) v;
      vtAbortIf on_path (
        let st := MkDfs (order st) (visited st) (<[Z.to_nat v := true]> (visiting st)) in
        v_list ← getStartupDeps reg v;
        st ← fold_res (unless_visited (topoSortImpl fuel)) (iterate v_list) st;
        Ok (MkDfs (v :: order st) (<[Z.to_nat v := true]> (visited st)) (<[Z.to_nat v := false]> (visiting st))))
  end.

Definition max_idx (p : Pack) : Z := foldl Z.max 0 (registered_components_ p).

Definition topoSort (p : Pack) : res (list Z) :=
  let n := Z.to_nat (max_idx p + 1) in
  st ← fold_res (unless_visited (topoSortImpl (S n))) (iterate (added_components_ p))
         (MkDfs [] (replicate n false) (replicate n false));
  Ok (order st).

(** *** Life of the pack *)

Abbreviation E := (Eff Pack Call).

(** The function [registerComponent] makes. *)
Definition invoke (i : Z) (c : Callable) : E unit :=
  emit (Construct i);;
  (if has_ref c then emit (SetRef i) else nop);;
  (if pollable (base c) then modify (fun p => with_pollable (pollable_components_ p ++ [i]) p) else nop);;
  emit (Initialize i);;
  modify (fun p => with_components (live_components_ p ++ [Some i]) p).

Definition construct_next (next : Z) : E unit :=
  p ← get;
  match construct_components_ p !! next with
  | Some c => invoke next c
  | None => lift (Stop AbortCalled)
  end.

(** [c->component_id_ = cur_id_++; c->startup()]. *)
Definition startup_next (c : option Z) : E unit :=
  match c with
  | Some i => p ← get; modify (with_id (cur_id_ p + 1));; emit (SetId i (cur_id_ p));; emit (Startup i)
  | None => lift (Stop AbortCalled)
  end.

Definition construct : E unit :=
  p ← get;
  p' ← lift (addAllRequiredComponents p);
  modify (fun _ => p');;
  order ← lift (topoSort p');
  for_each (reverse order) construct_next;;
  p ← get;
  for_each (live_components_ p) startup_next;;
  modify (with_live true).

(** [if (live_components_.back() != nullptr) finalize(); pop_back()]. *)
Definition destroy_next (c : option Z) : E unit :=
  (match c with Some i => emit (Finalize i) | None => nop end);;
  modify (fun p => with_components (removelast (live_components_ p)) p);;
  (match c with Some i => emit (Destroy i) | None => nop end).

Definition destruct_ : E unit :=
  modify (with_live false);;
  modify (with_pollable []);;
  p ← get;
  for_each (reverse (live_components_ p)) destroy_next.

Definition progress (answers : Z -> BaseComponent) (current_time : Z) : E Z :=
  p ← get;
  for_each (pollable_components_ p) (fun i => emit (Progress i current_time));;
  mret (foldl (fun total i => wrap i32 (total + work_done (answers i) current_time)) 0 (pollable_components_ p)).

Definition needsCurrentTime (answers : Z -> BaseComponent) (p : Pack) : bool :=
  foldl (fun needs i => needs || needs_time (answers i)) false (pollable_components_ p).

Definition foreach_component : E unit :=
  p ← get; for_each (live_components_ p) (fun c => emit (Apply c)).

(** [extractComponent(name)]: the first of that name, whose place stays empty. *)
Fixpoint extract_loop (answers : Z -> BaseComponent) (nm : string) (l : list (option Z)) : list (option Z) * option Z :=
  match l with
  | [] => ([], None)
  | Some i :: l =>
      if String.eqb (name (answers i)) nm then (None :: l, Some i)
      else let '(l', r) := extract_loop answers nm l in (Some i :: l', r)
  | None :: l => let '(l', r) := extract_loop answers nm l in (None :: l', r)
  end.

Definition extractComponent (answers : Z -> BaseComponent) (nm : string) : E (option Z) :=
  p ← get;
  let '(l, r) := extract_loop answers nm (live_components_ p) in
  modify (with_components l);;
  mret r.

Definition isLive (p : Pack) : bool := live_ p.

End pack.
End ComponentPack.

(** ** Dependencies *)

Module ComponentFacts.
Import Registry ComponentPack.

Section facts.
Context (reg : RegistryType).

(** [d] is a dependency of [v]: one it needs when it starts, or any. *)
Definition startup_dep (v d : Z) : Prop := exists r, getIdx reg v = Ok r /\ d ∈ startup_deps_ r.
Definition needs (v d : Z) : Prop := exists r, getIdx reg v = Ok r /\ (d ∈ startup_deps_ r \/ d ∈ runtime_deps_ r).

(** A set with all that its members need, each registered in the registry. *)
Definition closed (K : gset Z) : Prop :=
  forall v, v ∈ K -> 0 <= v < Z.of_nat (length reg) /\ forall d, needs v d -> d ∈ K.

Lemma getIdx_ok v : 0 <= v < Z.of_nat (length reg) -> exists r, getIdx reg v = Ok r.
Proof.
  intros Hv. unfold getIdx. destruct (Z.ltb_spec v 0); [lia|].
  destruct (reg !! Z.to_nat v) as [r|] eqn:E; [eauto|]. apply lookup_ge_None in E. lia.
Qed.

Lemma startup_needs v d : startup_dep v d -> needs v d.
Proof. intros (r & E & Hd). exists r. auto. Qed.

(** ** The depth-first search *)

(** Every component comes before those it depends on, and once. *)
Fixpoint topo (l : list Z) : Prop :=
  match l with [] => True | v :: l => (forall d, startup_dep v d -> d ∈ l) /\ v ∉ l /\ topo l end.

Definition isset (a : list bool) (v : Z) : Prop := 0 <= v /\ a !! Z.to_nat v = Some true.

Lemma read_ok a v : 0 <= v < Z.of_nat (length a) -> exists b, read a v = Ok b /\ (b = true <-> isset a v) /\ a !! Z.to_nat v = Some b.
Proof.
  intros Hv. unfold read, isset. destruct (Z.ltb_spec v 0); [lia|].
  destruct (lookup_lt_is_Some_2 a (Z.to_nat v) ltac:(lia)) as [b Eb]. rewrite Eb. exists b. split_and!; [done| |done].
  destruct b; naive_solver.
Qed.

Lemma isset_true a v x : 0 <= v < Z.of_nat (length a) -> isset (<[Z.to_nat v := true]> a) x <-> x = v \/ isset a x.
Proof.
  intros Hv. unfold isset. destruct (decide (x = v)) as [->|Hne].
  - rewrite list_lookup_insert_eq by lia. naive_solver lia.
  - destruct (decide (0 <= x)); [|naive_solver lia]. rewrite list_lookup_insert_ne by lia. naive_solver.
Qed.

Lemma insert_back (a : list bool) v b : a !! Z.to_nat v = Some b -> <[Z.to_nat v := b]> (<[Z.to_nat v := true]> a) = a.
Proof. intros E. rewrite list_insert_insert_eq. by apply list_insert_id. Qed.

Fixpoint count_true (a : list bool) : nat :=
  match a with [] => O | b :: a => ((if b then 1 else 0) + count_true a)%nat end.

Lemma count_true_le a : (count_true a <= length a)%nat.
Proof. induction a as [|[] a IH]; simpl; lia. Qed.

Lemma count_true_set a i : a !! i = Some false -> count_true (<[i := true]> a) = S (count_true a).
Proof.
  revert i. induction a as [|b a IH]; intros [|i] E; [done|done|by injection E as ->|].
  change (<[S i := true]> (b :: a)) with (b :: <[i := true]> a). simpl. rewrite (IH i E). lia.
Qed.

(** A component reached from [v] that depends on itself. *)
Definition cycle_from (v : Z) : Prop := exists w, rtc startup_dep v w /\ tc startup_dep w w.

Lemma cycle_from_step v d : startup_dep v d -> cycle_from d -> cycle_from v.
Proof. intros Hd (w & H1 & H2). exists w. split; [by eapply rtc_l|done]. Qed.

Section dfs.
Context (iterate : gset Z -> list Z) (Hiterate : forall s, iterate s ≡ₚ elements s).
Context (K : gset Z) (n : nat) (Hclosed : closed K) (Hbound : forall v, v ∈ K -> v < Z.of_nat n).

Lemma elem_iterate d s : d ∈ iterate s <-> d ∈ s.
Proof. by rewrite (Hiterate s), elem_of_elements. Qed.

Lemma K_pos v : v ∈ K -> 0 <= v < Z.of_nat n.
Proof. intros Hv. pose proof (Hbound v Hv). destruct (Hclosed v Hv). lia. Qed.

Lemma K_dep v d : v ∈ K -> startup_dep v d -> d ∈ K.
Proof. intros Hv Hd. destruct (Hclosed v Hv) as [_ H]. apply H. by apply startup_needs. Qed.

(** What holds of the state between calls; [V] is the array of the components on the path. *)
Record dfs_ok (V : list bool) (st : Dfs) : Prop := MkDfsOk {
  do_topo : topo (order st);
  do_visited : forall x, isset (visited st) x <-> x ∈ order st;
  do_length : length (visited st) = n;
  do_visiting : visiting st = V;
  do_disjoint : forall w, isset V w -> w ∉ order st;
  do_in : forall x, x ∈ order st -> x ∈ K;
}.

(** What a call for the components [from] does. *)
Definition dfs_post (V : list bool) (from : Z -> Prop) (st : Dfs) (r : res Dfs) : Prop :=
  match r with
  | Ok st' => dfs_ok V st' /\ (forall x, x ∈ order st -> x ∈ order st') /\ (forall v, from v -> v ∈ order st') /\
      (forall x, x ∈ order st' -> x ∈ order st \/ exists v, from v /\ rtc startup_dep v x)
  | Stop e => e = AbortCalled /\ exists v, from v /\ cycle_from v
  end.

Lemma dfs_fold V rec l st :
  (forall st v, v ∈ l -> dfs_ok V st -> v ∉ order st -> dfs_post V (eq v) st (rec st v)) ->
  (forall v, v ∈ l -> v ∈ K) -> dfs_ok V st ->
  dfs_post V (fun v => v ∈ l) st (fold_res (unless_visited rec) l st).
Proof.
  intros Hrec. revert st. induction l as [|v l IH]; intros st HK Hst; simpl.
  - split_and!; [done|done|by intros v Hv%elem_of_nil|auto].
  - pose proof (K_pos v (HK v ltac:(set_solver))) as Hv.
    assert (dfs_post V (eq v) st (unless_visited rec st v)) as Hone.
    { unfold unless_visited. destruct (read_ok (visited st) v ltac:(rewrite (do_length _ _ Hst); lia)) as (b & -> & Hb & _). simpl. destruct b.
      - split_and!; [done|done| |auto]. intros ? <-. apply (do_visited _ _ Hst). by apply Hb.
      - apply Hrec; [set_solver|done|]. intros Hin%(do_visited _ _ Hst). apply Hb in Hin. done. }
    destruct (unless_visited rec st v) as [st1|e]; cbn [mbind res_bind].
    + destruct Hone as (H1 & Hm1 & Hv1 & Hr1).
      specialize (IH ltac:(intros; apply Hrec; set_solver) st1 ltac:(set_solver) H1).
      destruct (fold_res _ l st1) as [st2|e]; simpl in IH |- *.
      * destruct IH as (H2 & Hm2 & Hv2 & Hr2). split_and!; [done|auto| |].
        -- intros w [->|Hw]%elem_of_cons; [by apply Hm2, Hv1|by apply Hv2].
        -- intros x Hx. destruct (Hr2 x Hx) as [Hx1|(w & Hw & Hwx)]; [|right; exists w; set_solver].
           destruct (Hr1 x Hx1) as [?|(w & <- & Hwx)]; [by left|right; exists v; set_solver].
      * destruct IH as (-> & w & Hw & Hc). split; [done|]. exists w. set_solver.
    + destruct Hone as (-> & w & <- & Hc). split; [done|]. exists v. set_solver.
Qed.

Lemma topoSortImpl_post fuel V st v :
  (n < fuel + count_true V)%nat -> length V = n -> v ∈ K -> dfs_ok V st -> v ∉ order st ->
  (forall w, isset V w -> tc startup_dep w v) ->
  dfs_post V (eq v) st (topoSortImpl iterate reg fuel st v).
Proof.
  revert V st v. induction fuel as [|fuel IH]; intros V st v Hfuel Hlen Hv Hst Hnew Hpath.
  { pose proof (count_true_le V). lia. }
  cbn [topoSortImpl]. pose proof (K_pos v Hv) as Hvn. rewrite (do_visiting _ _ Hst).
  destruct (read_ok V v ltac:(lia)) as (b & -> & Hb & Eb). cbn [mbind res_bind]. destruct b.
  { split; [done|]. exists v. split; [done|]. exists v. split; [done|]. by apply Hpath, Hb. }
  cbn [vtAbortIf]. unfold getStartupDeps. destruct (getIdx_ok v ltac:(by destruct (Hclosed v Hv))) as [r Er].
  rewrite Er. cbn [fmap res_fmap mbind res_bind].
  set (V' := <[Z.to_nat v := true]> V). assert (length V' = n) as Hlen' by (unfold V'; by rewrite length_insert).
  assert (forall d, d ∈ iterate (startup_deps_ r) <-> startup_dep v d) as Hds.
  { intros d. rewrite Hiterate, elem_of_elements. split; [by exists r|]. intros (r' & Er' & ?). rewrite Er in Er'. by injection Er' as <-. }
  assert (dfs_post V' (fun d => d ∈ iterate (startup_deps_ r)) (MkDfs (order st) (visited st) V')
    (fold_res (unless_visited (topoSortImpl iterate reg fuel)) (iterate (startup_deps_ r)) (MkDfs (order st) (visited st) V'))) as Hfold.
  { apply dfs_fold.
    - intros st' d Hd%Hds Hst' Hd'. apply IH; [|done|by eapply K_dep|done|done|].
      + unfold V'. rewrite count_true_set by done. lia.
      + intros w [->|Hw]%isset_true; [by apply tc_once|by eapply tc_r; [apply Hpath|]|lia].
    - intros d Hd%Hds. by eapply K_dep.
    - destruct Hst. split; simpl; try done. intros w [->|Hw]%isset_true; [done|auto|lia]. }
  destruct (fold_res _ _ _) as [st1|e]; cbn [mbind res_bind].
  - destruct Hfold as (H1 & Hm & Hall & Hr). simpl in Hm. split_and!.
    + destruct H1 as [Ht Hvis Hl HV Hdis Hin]. split; cbn [order visited visiting].
      * split_and!; [intros d Hd; by apply Hall, Hds| |done]. apply Hdis. apply isset_true; [lia|by left].
      * intros x. rewrite isset_true, Hvis by lia. set_solver.
      * by rewrite length_insert.
      * rewrite HV. by apply insert_back.
      * intros w Hw [->|Hw']%elem_of_cons; [by apply Hb in Hw|]. apply (Hdis w); [|done]. apply isset_true; [lia|by right].
      * intros x [->|Hx]%elem_of_cons; auto.
    + intros x Hx. simpl. set_solver.
    + intros ? <-. simpl. set_solver.
    + intros x [->|Hx]%elem_of_cons; [right; by exists v|]. destruct (Hr x Hx) as [?|(d & Hd%Hds & Hdx)]; [by left|].
      right. exists v. split; [done|by eapply rtc_l].
  - destruct Hfold as (-> & d & Hd%Hds & Hc). split; [done|]. exists v. split; [done|by eapply cycle_from_step].
Qed.

End dfs.

(** ** The components needed *)

Lemma add_deps st l :
  (forall x, x ∈ (foldl add_dep st l).1 <-> x ∈ st.1 \/ x ∈ l) /\
  ((foldl add_dep st l).2 = true <-> st.2 = true \/ exists d, d ∈ l /\ d ∉ st.1).
Proof.
  revert st. induction l as [|d l IH]; intros st; simpl; [set_solver|]. destruct (IH (add_dep st d)) as [H1 H2].
  unfold add_dep in *. destruct st as [a b]. simpl in *. case_bool_decide as Hd; simpl in *; split.
  - intros x. rewrite H1. set_solver.
  - rewrite H2. set_solver.
  - intros x. rewrite H1. set_solver.
  - rewrite H2. split; [|by left]. intros _. right. exists d. set_solver.
Qed.

(** The components needed when those of [added] are. *)
Definition required (added : gset Z) (x : Z) : Prop := exists j, j ∈ added /\ rtc needs j x.

Section add.
Context (iterate : gset Z -> list Z) (Hiterate : forall s, iterate s ≡ₚ elements s).

(** A pass of the range-based [for] over [added_components_], which is changed on the way:
    every element of the set at its start is met, in any order, and of those inserted
    meanwhile any. *)
Inductive pass (start : gset Z) : gset Z -> gset Z * bool -> gset Z * bool -> Prop :=
  | pass_end met st : start ⊆ met -> pass start met st st
  | pass_meet met st i st' st'' : i ∈ st.1 -> i ∉ met -> visit_component iterate reg st i = Ok st' ->
      pass start ({[i]} ∪ met) st' st'' -> pass start met st st''.

(** [addAllRequiredComponents] in [n] passes. *)
Inductive add_all : nat -> gset Z -> gset Z -> Prop :=
  | add_last added added' : pass added ∅ (added, false) (added', false) -> add_all 1 added added'
  | add_more n added added' added'' : pass added ∅ (added, false) (added', true) -> add_all n added' added'' ->
      add_all (S n) added added''.

Lemma visit_spec st i st' : visit_component iterate reg st i = Ok st' ->
  (forall x, x ∈ st'.1 <-> x ∈ st.1 \/ needs i x) /\ (st'.2 = true <-> st.2 = true \/ exists d, needs i d /\ d ∉ st.1).
Proof.
  unfold visit_component, getStartupDeps, getRuntimeDeps. destruct (getIdx reg i) as [r|] eqn:Er; [|done]. simpl. intros [= <-].
  destruct (add_deps st (iterate (startup_deps_ r))) as [H1 H2].
  destruct (add_deps (foldl add_dep st (iterate (startup_deps_ r))) (iterate (runtime_deps_ r))) as [H3 H4].
  assert (forall x, needs i x <-> x ∈ startup_deps_ r \/ x ∈ runtime_deps_ r) as Hn.
  { intros x. split; [|intros Hx; by exists r]. intros (r' & Er' & Hx). rewrite Er in Er'. by injection Er' as <-. }
  assert (forall x s, x ∈ iterate s <-> x ∈ s) as Hi by (intros; by apply elem_iterate).
  split.
  - intros x. rewrite H3, H1, Hn, !Hi. tauto.
  - rewrite H4, H2. setoid_rewrite H1. setoid_rewrite Hn. setoid_rewrite Hi. split; [intros [[?|(d & ? & ?)]|(d & ? & ?)]; [tauto|right; exists d; tauto..]|].
    intros [?|(d & Hd & Hd')]; [tauto|].
    destruct (decide (d ∈ startup_deps_ r)); [left; right; by exists d|]. right. exists d. tauto.
Qed.

Lemma pass_spec start met st st' : pass start met st st' ->
  (forall v d, v ∈ met -> needs v d -> d ∈ st.1) ->
  st.1 ⊆ st'.1 /\ (forall x, x ∈ st'.1 -> required st.1 x) /\ (forall v d, v ∈ start -> needs v d -> d ∈ st'.1) /\
  (st'.2 = true <-> st.2 = true \/ exists d, d ∈ st'.1 /\ d ∉ st.1).
Proof.
  induction 1 as [met st Hs|met st i st' st'' Hi Hm Hv _ IH]; intros Hmet.
  - split_and!; [done|intros x Hx; by exists x|set_solver|]. split; [by left|]. naive_solver.
  - destruct (visit_spec _ _ _ Hv) as [H1 H2].
    destruct IH as (Hsub & Hreq & Hst & Hb). { intros v d [->%elem_of_singleton|Hv']%elem_of_union Hd; apply H1; [by right|left; by eapply Hmet]. }
    split_and!; [set_solver| |done|].
    + intros x Hx. destruct (Hreq x Hx) as (j & Hj%H1 & Hjx). destruct Hj as [Hj|Hj]; [by exists j|]. exists i. split; [done|by eapply rtc_l].
    + rewrite Hb, H2. split.
      * intros [[?|(d & Hd & Hd')]|(d & Hd & Hd')]; [by left|right; exists d..]; [|set_solver]. split; [apply Hsub, H1; by right|done].
      * intros [?|(d & Hd & Hd')]; [tauto|]. destruct (decide (d ∈ st'.1)) as [Hin|]; [|right; by exists d].
        apply H1 in Hin as [?|?]; [done|]. left. right. by exists d.
Qed.

(** Whatever the order, the passes end with the components needed. *)
Lemma add_all_required n added added' : add_all n added added' -> forall x, x ∈ added' <-> required added x.
Proof.
  induction 1 as [added added' Hp|n added a1 added'' Hp _ IH]; intros x;
    destruct (pass_spec _ _ _ _ Hp ltac:(set_solver)) as (Hsub & Hreq & Hst & Hb); simpl in *.
  - split; [by apply Hreq|]. intros (j & Hj & Hjx). apply Hsub in Hj. induction Hjx as [|j k x Hjk _ IHx]; [done|].
    apply IHx. eapply Hst; [|exact Hjk]. destruct (decide (j ∈ added)); [done|]. exfalso.
    assert (false = true) as E by (apply Hb; right; by exists j). done.
  - rewrite IH. split.
    + intros (j & Hj & Hjx). destruct (Hreq j Hj) as (k & Hk & Hkj). exists k. split; [done|by etrans].
    + intros (j & Hj & Hjx). exists j. split; [by apply Hsub|done].
Qed.

Lemma add_all_bound K n added added' : closed K -> added ⊆ K -> add_all n added added' -> (n + size added <= S (size K))%nat.
Proof.
  intros HK. induction 2 as [added added' Hp|n added a1 added'' Hp _ IH];
    destruct (pass_spec _ _ _ _ Hp ltac:(set_solver)) as (Hsub & Hreq & _ & Hb); simpl in *.
  - apply subseteq_size in H. lia.
  - assert (a1 ⊆ K) as Ha1.
    { intros x Hx. destruct (Hreq x Hx) as (j & Hj%H & Hjx). induction Hjx as [|j k x Hjk _ IHx]; [done|].
      apply IHx; [done|]. by apply (HK j). }
    specialize (IH Ha1). destruct Hb as [Hb _]. destruct (Hb eq_refl) as [?|(d & Hd & Hd')]; [done|].
    assert (size added < size a1)%nat by (apply subset_size; set_solver). lia.
Qed.

(** The pass that meets the elements the set has at its start. *)
Lemma fold_pass K l met start st : closed K -> st.1 ⊆ K -> NoDup l -> (forall i, i ∈ l -> i ∈ st.1 /\ i ∉ met) ->
  start ⊆ met ∪ list_to_set l ->
  exists st', fold_res (visit_component iterate reg) l st = Ok st' /\ pass start met st st' /\ st'.1 ⊆ K.
Proof.
  intros HK. revert met st. induction l as [|i l IH]; intros met st Hst Hnd Hl Hs.
  - exists st. split_and!; [done|apply pass_end; set_solver|done].
  - apply NoDup_cons in Hnd as [Hi Hnd]. destruct (Hl i ltac:(set_solver)) as [Hin Hnm].
    destruct (HK i (Hst i Hin)) as [Hir Hik]. destruct (getIdx_ok i Hir) as [r Er].
    assert (exists st1, visit_component iterate reg st i = Ok st1) as [st1 E1].
    { unfold visit_component, getStartupDeps, getRuntimeDeps. rewrite Er. simpl. eauto. }
    destruct (visit_spec _ _ _ E1) as [H1 _].
    destruct (IH ({[i]} ∪ met) st1) as (st' & E & Hp & HK'); [set_solver|done|set_solver|set_solver|].
    exists st'. split_and!; [by simpl; rewrite E1|by eapply pass_meet|done].
Qed.

Lemma add_loop_all K fuel added : closed K -> added ⊆ K -> (size K < fuel + size added)%nat ->
  exists n added', add_loop iterate reg fuel added = Ok added' /\ add_all n added added' /\ added' ⊆ K.
Proof.
  intros HK. revert added. induction fuel as [|fuel IH]; intros added Ha Hf; [apply subseteq_size in Ha; lia|].
  destruct (fold_pass K (iterate added) ∅ added (added, false) HK Ha) as ([a1 b] & E & Hp & HK1).
  - rewrite (Hiterate added). apply NoDup_elements.
  - intros i Hi. rewrite elem_iterate in Hi by done. set_solver.
  - rewrite (Hiterate added). set_solver.
  - cbn [add_loop]. rewrite E. cbn [mbind res_bind fst snd]. destruct b; [|exists 1%nat, a1; split_and!; [done|by apply add_last|done]].
    destruct (pass_spec _ _ _ _ Hp ltac:(set_solver)) as (Hsub & _ & _ & Hb). simpl in *. destruct Hb as [Hb _].
    destruct (Hb eq_refl) as [?|(d & Hd & Hd')]; [done|].
    assert (size added < size a1)%nat by (apply subset_size; set_solver).
    destruct (IH a1 HK1 ltac:(lia)) as (n & added' & E' & Hall & HK'). exists (S n), added'. split_and!; [done|by eapply add_more|done].
Qed.

End add.
(** ** The topological order *)

Lemma topo_NoDup l : topo l -> NoDup l.
Proof. induction l as [|v l IH]; [constructor|]. intros (_ & Hv & Ht). constructor; auto. Qed.

Lemma topo_split l1 v l2 : topo (l1 ++ v :: l2) -> forall d, startup_dep v d -> d ∈ l2.
Proof. induction l1 as [|w l1 IH]; simpl; [by intros (? & _)|]. intros (_ & _ & Ht). by apply IH. Qed.

Lemma topo_tail l1 l2 : topo (l1 ++ l2) -> topo l2.
Proof. induction l1 as [|w l1 IH]; simpl; [done|]. intros (_ & _ & Ht). by apply IH. Qed.

(** Nothing in the order depends on itself. *)
Lemma topo_acyclic l v : topo l -> v ∈ l -> ~ tc startup_dep v v.
Proof.
  intros Ht (l1 & l2 & ->)%list_elem_of_split Hc.
  assert (forall a b, tc startup_dep a b -> forall l1 l2, topo (l1 ++ a :: l2) -> b ∈ l2) as H.
  { induction 1 as [a b Hab|a b c Hab _ IH]; intros k1 k2 Hk; pose proof (topo_split _ _ _ Hk _ Hab) as Hb; [done|].
    apply list_elem_of_split in Hb as (m1 & m2 & ->). specialize (IH (k1 ++ a :: m1) m2).
    rewrite <- app_assoc in IH. specialize (IH Hk). set_solver. }
  pose proof (H _ _ Hc _ _ Ht) as Hin. apply topo_tail in Ht as (_ & Hno & _). done.
Qed.

Lemma max_idx_ge p v : v ∈ registered_components_ p -> v <= max_idx p.
Proof.
  unfold max_idx. assert (forall l a, a <= foldl Z.max a l /\ forall v, v ∈ l -> v <= foldl Z.max a l) as H.
  { induction l as [|x l IH]; intros a; simpl; [set_solver by lia|]. destruct (IH (Z.max a x)) as [H1 H2].
    split; [lia|]. intros w [->|Hw]%elem_of_cons; [lia|auto]. }
  apply H.
Qed.

(** The search for the whole set of components. *)
Lemma topoSort_post iterate p : (forall s, iterate s ≡ₚ elements s) -> closed (added_components_ p) ->
  (forall v, v ∈ added_components_ p -> v ∈ registered_components_ p) ->
  match topoSort iterate reg p with
  | Ok l => topo l /\ forall x, x ∈ l <-> x ∈ added_components_ p
  | Stop e => e = AbortCalled /\ exists v, v ∈ added_components_ p /\ tc startup_dep v v
  end.
Proof.
  intros Hit Hcl Hreg. set (n := Z.to_nat (max_idx p + 1)).
  assert (forall v, v ∈ added_components_ p -> v < Z.of_nat n) as Hn.
  { intros v Hv. pose proof (max_idx_ge p v (Hreg v Hv)). unfold n. destruct (Hcl v Hv). lia. }
  assert (forall v, ~ isset (replicate n false) v) as Hclear.
  { intros v [_ E]. by apply lookup_replicate in E as [? _]. }
  set (start := MkDfs [] (replicate n false) (replicate n false)).
  assert (dfs_post (added_components_ p) n (replicate n false) (fun v => v ∈ iterate (added_components_ p)) start
    (fold_res (unless_visited (topoSortImpl iterate reg (S n))) (iterate (added_components_ p)) start)) as H.
  { eapply dfs_fold; try done.
    - intros st' v Hv Hst Hnew. rewrite elem_iterate in Hv by done.
      apply topoSortImpl_post; try done; [lia|by rewrite length_replicate|]. intros w Hw. by apply Hclear in Hw.
    - intros v Hv. by rewrite elem_iterate in Hv.
    - split; cbn [order visited visiting start]; [done| |by rewrite length_replicate|done|by intros ? ? ?%elem_of_nil|by intros ? ?%elem_of_nil].
      intros x. split; [intros Hx; by apply Hclear in Hx|by intros ?%elem_of_nil]. }
  unfold topoSort. fold n. fold start. destruct (fold_res _ _ _) as [st|e]; simpl.
  - destruct H as (Hok & _ & Hall & Hin).
    split; [by apply (do_topo _ _ _ _ Hok)|]. intros x. split; [apply (do_in _ _ _ _ Hok)|]. intros Hx. apply Hall. by rewrite elem_iterate.
  - destruct H as (-> & v & Hv & w & Hvw & Hc).
    split; [done|]. exists w. split; [|done]. rewrite elem_iterate in Hv by done. clear -Hvw Hv Hcl.
      induction Hvw as [|a b c Hab _ IH]; [done|]. apply IH. destruct (Hcl a Hv) as [_ Hd]. by apply Hd, startup_needs.
Qed.

End facts.

(** ** Running the pack *)

(** The calls that construct [i]. *)
Definition made (cc : gmap Z Callable) (i : Z) : list Call :=
  match cc !! i with
  | Some c => Construct i :: (if has_ref c then [SetRef i] else []) ++ [Initialize i]
  | None => []
  end.

Definition polls (cc : gmap Z Callable) (i : Z) : bool := match cc !! i with Some c => pollable (base c) | None => false end.

Fixpoint started (id : Z) (l : list Z) : list Call :=
  match l with [] => [] | i :: l => [SetId i id; Startup i] ++ started (id + 1) l end.

(** The calls that destroy a component, if it is still there. *)
Definition gone (c : option Z) : list Call := match c with Some i => [Finalize i; Destroy i] | None => [] end.

Lemma construct_next_run i p : is_Some (construct_components_ p !! i) ->
  construct_next i p = Ok (tt, with_components (live_components_ p ++ [Some i])
    (with_pollable (pollable_components_ p ++ (if polls (construct_components_ p) i then [i] else [])) p), made (construct_components_ p) i).
Proof.
  intros [c E]. unfold construct_next, made, polls. rewrite run_get, E. destruct p.
  unfold invoke, mbind, eff_bind, emit, modify, nop, mret, eff_ret. simpl.
  by destruct (has_ref c), (pollable (base c)); simpl; rewrite ?app_nil_r.
Qed.

Lemma construct_all l p : (forall i, i ∈ l -> is_Some (construct_components_ p !! i)) ->
  exists ps, for_each l construct_next p = Ok (tt, with_components (live_components_ p ++ (Some <$> l))
    (with_pollable (pollable_components_ p ++ ps) p), concat (made (construct_components_ p) <$> l)).
Proof.
  revert p. induction l as [|i l IH]; intros p Hl; cbn [for_each].
  - exists []. rewrite !app_nil_r. by destruct p.
  - rewrite (run_step _ _ _ _ _ _ (construct_next_run i p (Hl i ltac:(set_solver)))).
    match goal with |- context [for_each l construct_next ?q] => destruct (IH q) as [ps E] end.
    + intros j Hj. simpl. apply Hl. set_solver.
    + rewrite E. exists ((if polls (construct_components_ p) i then [i] else []) ++ ps). destruct p; simpl. by rewrite <- !app_assoc.
Qed.

Lemma startup_all l p : for_each (Some <$> l) startup_next p
  = Ok (tt, with_id (cur_id_ p + Z.of_nat (length l)) p, started (cur_id_ p) l).
Proof.
  revert p. induction l as [|i l IH]; intros p; cbn [for_each fmap list_fmap].
  - rewrite Z.add_0_r. by destruct p.
  - assert (startup_next (Some i) p = Ok (tt, with_id (cur_id_ p + 1) p, [SetId i (cur_id_ p); Startup i])) as E by by destruct p.
    rewrite (run_step _ _ _ _ _ _ E), IH.
    replace (cur_id_ p + Z.of_nat (length (i :: l))) with (cur_id_ p + 1 + Z.of_nat (length l)) by (simpl; lia). by destruct p.
Qed.

Lemma destroy_all comps p : live_components_ p = comps ->
  for_each (reverse comps) destroy_next p = Ok (tt, with_components [] p, concat (gone <$> reverse comps)).
Proof.
  revert p. induction comps as [|c comps IH] using rev_ind; intros p Hp.
  - destruct p. simpl in *. by subst.
  - rewrite reverse_snoc. cbn [for_each].
    assert (destroy_next c p = Ok (tt, with_components comps p, gone c)) as E.
    { destruct p. simpl in *. subst. unfold destroy_next, mbind, eff_bind, emit, modify, nop, mret, eff_ret. destruct c; simpl; by rewrite removelast_last. }
    rewrite (run_step _ _ _ _ _ _ E), IH by by destruct p. by destruct p.
Qed.

Lemma destruct_run p : destruct_ p
  = Ok (tt, with_components [] (with_pollable [] (with_live false p)), concat (gone <$> reverse (live_components_ p))).
Proof.
  unfold destruct_. rewrite !run_modify, run_get, (destroy_all (live_components_ p)) by by destruct p. by destruct p.
Qed.

End ComponentFacts.

Module ComponentSpec.
Import Registry ComponentPack ComponentFacts.

(** What registration keeps true: the dependencies are registered types, and the pack's
    three records of the components registered with it agree. *)
Definition registry_ok (reg : RegistryType) : Prop := closed reg (list_to_set (seqZ 0 (Z.of_nat (length reg)))).

Record pack_ok (p : Pack) : Prop := MkPackOk {
  po_set : forall x, x ∈ registered_set_ p <-> x ∈ registered_components_ p;
  po_map : forall x, x ∈ registered_set_ p <-> is_Some (construct_components_ p !! x);
}.

Section spec.
Context (iterate : gset Z -> list Z) (Hiterate : forall s, iterate s ≡ₚ elements s).
Context (reg : RegistryType) (Hreg : registry_ok reg).

(** A pack about to be constructed: of the components needed, each is registered. *)
Definition ready (p : Pack) : Prop :=
  pack_ok p /\ live_components_ p = [] /\ (forall x, x ∈ added_components_ p -> 0 <= x < Z.of_nat (length reg)) /\
  forall x, required reg (added_components_ p) x -> x ∈ registered_set_ p.

Lemma elem_all x : x ∈ (list_to_set (seqZ 0 (Z.of_nat (length reg))) : gset Z) <-> 0 <= x < Z.of_nat (length reg).
Proof. rewrite elem_of_list_to_set, elem_of_seqZ. lia. Qed.

Lemma addAll_run p : (forall x, x ∈ added_components_ p -> 0 <= x < Z.of_nat (length reg)) ->
  exists n added', addAllRequiredComponents iterate reg p = Ok (with_added added' p) /\
    add_all reg iterate n (added_components_ p) added' /\ closed reg added'.
Proof.
  intros Ha. set (K := list_to_set (seqZ 0 (Z.of_nat (length reg))) : gset Z) in *.
  assert (added_components_ p ⊆ K) as Hsub by (intros x Hx%Ha; by apply elem_all).
  assert (size K <= length reg)%nat as HK.
  { unfold K. rewrite size_list_to_set by apply NoDup_seqZ. rewrite length_seqZ. lia. }
  destruct (add_loop_all reg iterate Hiterate K (S (S (length reg))) (added_components_ p) Hreg Hsub ltac:(lia)) as (n & a' & E & Hall & HK').
  exists n, a'. unfold addAllRequiredComponents. rewrite E. split_and!; [done|done|].
  pose proof (add_all_required reg iterate Hiterate n _ _ Hall) as Hr. intros v Hv. split; [by apply Hreg, HK'|].
  intros d Hd. apply Hr. apply Hr in Hv as (j & Hj & Hjv). exists j. split; [done|by eapply rtc_r].
Qed.

(** The set of required components, sorted; what [construct] does with it. *)
Lemma construct_run p : ready p ->
  match construct iterate reg p with
  | Ok (_, p', calls) => exists l, topo reg (reverse l) /\ (forall x, x ∈ l <-> required reg (added_components_ p) x) /\
      live_components_ p' = Some <$> l /\ live_ p' = true /\
      calls = concat (made (construct_components_ p) <$> l) ++ started (cur_id_ p) l
  | Stop e => e = AbortCalled /\ exists v, required reg (added_components_ p) v /\ tc (startup_dep reg) v v
  end.
Proof.
  intros ([Hset Hmap] & Hlive & Hadded & Hneed). destruct (addAll_run p Hadded) as (n & a' & Ea & Hall & Hcl).
  pose proof (add_all_required reg iterate Hiterate n _ _ Hall) as Hr.
  pose proof (topoSort_post reg iterate (with_added a' p) Hiterate Hcl) as Ht. simpl in Ht.
  specialize (Ht (fun v Hv => proj1 (Hset v) (Hneed v (proj1 (Hr v) Hv)))).
  unfold construct. rewrite run_get, (run_lift _ _ _ _ Ea), run_modify.
  destruct (topoSort iterate reg (with_added a' p)) as [ord|e] eqn:Et.
  - destruct Ht as [Ht Hin]. rewrite (run_lift (Ok ord) _ _ ord eq_refl).
    destruct (construct_all (reverse ord) (with_added a' p)) as [ps E].
    { intros i Hi%elem_of_reverse%Hin. simpl. apply Hmap, Hneed. by apply Hr. }
    rewrite (run_step _ _ _ _ _ _ E), run_get. simpl live_components_. rewrite Hlive.
    rewrite (run_step _ _ _ _ _ _ (startup_all (reverse ord) _)). exists (reverse ord). rewrite reverse_involutive. split_and!; [done| | |done|].
    + intros x. by rewrite elem_of_reverse, Hin, Hr.
    + done.
    + simpl. by rewrite app_nil_r.
  - destruct Ht as (-> & v & Hv & Hc). split; [done|]. exists v. split; [by apply Hr|done].
Qed.

(** C30: If no required component depends on itself at start-up, [construct] makes exactly the
    components that were added and those they need, directly or not, each once and after
    all it depends on at start-up; then it starts them in the same order, with consecutive
    identifiers. [destruct] finalizes them in the opposite order, so each while all it
    depends on are still there. *)
Theorem components_start_in_order p :
  ready p -> (forall v, required reg (added_components_ p) v -> ~ tc (startup_dep reg) v v) ->
  exists p' l, construct iterate reg p
      = Ok (tt, p', concat (made (construct_components_ p) <$> l) ++ started (cur_id_ p) l) /\
    NoDup l /\ (forall x, x ∈ l <-> required reg (added_components_ p) x) /\
    (forall l1 v l2, l = l1 ++ v :: l2 -> forall d, startup_dep reg v d -> d ∈ l1) /\
    isLive p' = true /\
    exists p'', destruct_ p' = Ok (tt, p'', concat (gone <$> (Some <$> reverse l))) /\ isLive p'' = false.
Proof.
  intros Hp Hac. pose proof (construct_run p Hp) as H. destruct (construct iterate reg p) as [[[[] p'] calls]|e].
  - destruct H as (l & Ht & Hin & Hl & Hlive & ->). exists p', l. split_and!; try done.
    + apply topo_NoDup in Ht. by rewrite (reverse_Permutation l) in Ht.
    + intros l1 v l2 -> d Hd. rewrite reverse_app, reverse_cons, <- app_assoc in Ht.
      pose proof (topo_split reg _ _ _ Ht d Hd) as Hx. by rewrite elem_of_reverse in Hx.
    + rewrite destruct_run, Hl, <- fmap_reverse. eexists. split; [done|]. by destruct p'.
  - destruct H as (_ & v & Hv & Hc). by destruct (Hac v Hv).
Qed.

(** If one of the required components depends on itself at start-up, directly or through
    others, [construct] aborts, and nothing has been constructed. *)
Theorem cyclic_components_abort p v :
  ready p -> required reg (added_components_ p) v -> tc (startup_dep reg) v v ->
  construct iterate reg p = Stop AbortCalled.
Proof.
  intros Hp Hv Hc. pose proof (construct_run p Hp) as H. destruct (construct iterate reg p) as [[[u p'] calls]|e].
  - destruct H as (l & Ht & Hin & _). destruct (topo_acyclic reg (reverse l) v Ht); [|done]. by apply elem_of_reverse, Hin.
  - by destruct H as (-> & _).
Qed.

(** C31: The loop that collects the components needed inserts into the set it iterates over, so
    which components a pass meets depends on the implementation of the set. Whatever it
    meets, the loop ends after at most one pass more than there are registered types, with
    the same set: that of the executable definition. *)
Theorem required_components_any_order p n added :
  (forall x, x ∈ added_components_ p -> 0 <= x < Z.of_nat (length reg)) ->
  add_all reg iterate n (added_components_ p) added ->
  (n <= S (length reg))%nat /\ addAllRequiredComponents iterate reg p = Ok (with_added added p) /\
  forall x, x ∈ added <-> required reg (added_components_ p) x.
Proof.
  intros Ha Hall. destruct (addAll_run p Ha) as (n' & a' & E & Hall' & _).
  pose proof (add_all_required reg iterate Hiterate _ _ _ Hall) as H1. pose proof (add_all_required reg iterate Hiterate _ _ _ Hall') as H2.
  assert (a' = added) as -> by (apply set_eq; intros x; by rewrite H1, H2). split_and!; [|done|done].
  assert (added_components_ p ⊆ list_to_set (seqZ 0 (Z.of_nat (length reg)))) as Hsub by (intros x Hx%Ha; by apply elem_all).
  pose proof (add_all_bound reg iterate Hiterate _ _ _ _ Hreg Hsub Hall) as Hn.
  rewrite size_list_to_set, length_seqZ in Hn by apply NoDup_seqZ. lia.
Qed.

End spec.

(** ** Registration *)

Lemma empty_pack_ok : pack_ok empty_pack.
Proof. split; intros x; simpl; [set_solver|]. rewrite lookup_empty. split; [set_solver|]. by intros [? ?]. Qed.

Lemma getIdx_range reg v r : getIdx reg v = Ok r -> 0 <= v < Z.of_nat (length reg).
Proof.
  unfold getIdx. destruct (Z.ltb_spec v 0); [done|]. destruct (reg !! Z.to_nat v) eqn:E; [|done]. intros _.
  apply lookup_lt_Some in E. lia.
Qed.

Lemma addDep_ok deps t startup reg reg' : registry_ok reg ->
  Forall (fun u => 0 <= u < Z.of_nat (length reg)) deps -> addDep deps t startup reg = Ok reg' ->
  registry_ok reg' /\ length reg' = length reg.
Proof.
  intros Hok Hd. revert reg Hok Hd. induction deps as [|u deps IH]; intros reg Hok Hd; simpl; [by intros [= <-]|].
  apply Forall_cons in Hd as [Hu Hd]. destruct (getIdx reg t) as [r|] eqn:Er; [|done]. simpl. intros E.
  pose proof (getIdx_range _ _ _ Er) as Ht. set (reg1 := <[Z.to_nat t := _]> reg) in E.
  assert (length reg1 = length reg) as Hl by (unfold reg1; by rewrite length_insert).
  apply IH in E as [H1 H2]; [split; [done|congruence]| |by rewrite Hl].
  intros v Hv. pose proof (proj1 (elem_all reg1 v) Hv) as Hv'. split; [done|].
  intros d (r' & Er' & Hdr). apply elem_all. rewrite Hl. unfold getIdx, reg1 in Er'. destruct (Z.ltb_spec v 0); [done|].
  destruct (decide (v = t)) as [->|Hne].
  - rewrite list_lookup_insert_eq in Er' by lia. injection Er' as <-.
    assert (d = u \/ needs reg t d) as [->|Hn] by (destruct startup; simpl in Hdr; unfold needs; set_solver); [done|].
    apply elem_all. destruct (Hok t) as [_ Hk]; [by apply elem_all|]. by apply Hk.
  - rewrite list_lookup_insert_ne in Er' by lia. rewrite Hl in Hv'. apply elem_all. destruct (Hok v) as [_ Hk]; [by apply elem_all|].
    apply Hk. exists r'. split; [|done]. unfold getIdx. destruct (Z.ltb_spec v 0); [lia|exact Er'].
Qed.

(** Registration keeps the registry closed and the pack's records in agreement. *)
Lemma registerComponent_ok idx c sdeps rdeps reg p reg' p' :
  registry_ok reg -> pack_ok p -> Forall (fun u => 0 <= u < Z.of_nat (length reg)) (sdeps ++ rdeps) ->
  registerComponent idx c sdeps rdeps (reg, p) = Ok (reg', p') -> registry_ok reg' /\ pack_ok p' /\ length reg' = length reg.
Proof.
  intros Hreg [Hset Hmap] [Hs Hr]%Forall_app. unfold registerComponent, dependsOn. cbv beta iota.
  destruct (addDep sdeps idx true reg) as [reg1|] eqn:E1; [|done]. cbn [mbind res_bind].
  destruct (addDep_ok _ _ _ _ _ Hreg Hs E1) as [Hreg1 Hl1].
  destruct (addDep rdeps idx false reg1) as [reg2|] eqn:E2; [|done]. cbn [mbind res_bind].
  destruct (addDep_ok _ _ _ _ _ Hreg1 ltac:(by rewrite Hl1) E2) as [Hreg2 Hl2]. intros [= <- <-].
  split_and!; [done| |congruence]. split; simpl.
  - intros x. case_bool_decide; [|done]. rewrite elem_of_app, list_elem_of_singleton, elem_of_union, elem_of_singleton, Hset. tauto.
  - intros x. case_bool_decide as Hnew.
    + destruct (construct_components_ p !! idx) eqn:E; [destruct Hnew; by apply Hmap|].
      rewrite elem_of_union, elem_of_singleton, lookup_insert_is_Some, Hmap. destruct (decide (idx = x)); naive_solver.
    + apply Hmap in Hnew as [c' Ec]. by rewrite Ec.
Qed.

Definition registerAll (regs : list (Z * Callable * list Z * list Z)) (rp : RegistryType * Pack) : res (RegistryType * Pack) :=
  fold_res (fun rp r => let '(idx, c, sdeps, rdeps) := r in registerComponent idx c sdeps rdeps rp) regs rp.

(** Registered from nothing, a pack is ready when what it needs has been registered. *)
Lemma registerAll_ok regs reg p reg' p' :
  registry_ok reg -> pack_ok p -> Forall (fun r => Forall (fun u => 0 <= u < Z.of_nat (length reg)) (r.1.2 ++ r.2)) regs ->
  registerAll regs (reg, p) = Ok (reg', p') -> registry_ok reg' /\ pack_ok p' /\ length reg' = length reg.
Proof.
  revert reg p. induction regs as [|[[[idx c] sd] rd] regs IH]; intros reg p Hreg Hp Hin; [by intros [= <- <-]|].
  apply Forall_cons in Hin as [Hd Hin]. unfold registerAll. cbn [fold_res].
  destruct (registerComponent idx c sd rd (reg, p)) as [[reg1 p1]|] eqn:E; [|done]. cbn [mbind res_bind]. intros Er.
  destruct (registerComponent_ok _ _ _ _ _ _ _ _ Hreg Hp Hd E) as (H1 & H2 & H3).
  destruct (IH reg1 p1 H1 H2 ltac:(by rewrite H3) Er) as (? & ? & ?). split_and!; [done|done|congruence].
Qed.

Lemma required_closed reg added K x : closed reg K -> added ⊆ K -> required reg added x -> x ∈ K.
Proof.
  intros HK Ha (j & Hj%Ha & Hjx). induction Hjx as [|j k x Hjk _ IH]; [done|]. apply IH. destruct (HK j Hj) as [_ Hd]. by apply Hd.
Qed.

(** If components depend on earlier ones only, none depends on itself. *)
Lemma ranked_acyclic reg : (forall v d, startup_dep reg v d -> d < v) -> forall v, ~ tc (startup_dep reg) v v.
Proof.
  intros H. assert (forall v w, tc (startup_dep reg) v w -> w < v) as Ht by (induction 1 as [v w Hd|v w x Hd _ IH]; pose proof (H _ _ Hd); lia).
  intros v Hv. pose proof (Ht v v Hv). lia.
Qed.

(** ** Five components

    [ArgConfig], [Context], [Pool], [AsyncEvent] and [Scheduler]; the first and the last are
    added, the scheduler needs the events at run time. *)
Module Demo.

Definition plain : Callable := MkCallable (MkBase false "component" false (fun _ => 0)) true.
Definition blank (n : nat) : RegistryType := replicate n (MkDeps ∅ ∅).
Definition registrations : list (Z * Callable * list Z * list Z) :=
  [(0, plain, [], []); (1, plain, [0], []); (2, plain, [1], []); (3, plain, [1; 2], []); (4, plain, [1], [3])].
Definition made_pack (regs : list (Z * Callable * list Z * list Z)) (n : nat) (adds : list Z) : RegistryType * Pack :=
  match registerAll regs (blank n, empty_pack) with
  | Ok (reg, p) => (reg, foldr add p adds)
  | Stop _ => ([], empty_pack)
  end.
Abbreviation reg5 := (made_pack registrations 5 [4]).1.
Abbreviation pack5 := (made_pack registrations 5 [4]).2.
(** Two components that need each other at start-up. *)
Abbreviation reg2 := (made_pack [(0, plain, [1], []); (1, plain, [0], [])] 2 [0]).1.
Abbreviation pack2 := (made_pack [(0, plain, [1], []); (1, plain, [0], [])] 2 [0]).2.

Lemma blank_ok n : registry_ok (blank n).
Proof.
  intros v Hv. pose proof (proj1 (elem_all (blank n) v) Hv) as Hv'. split; [done|]. intros d (r & Er & Hd). exfalso.
  unfold getIdx, blank in Er. destruct (Z.ltb_spec v 0); [done|].
  destruct (replicate n _ !! Z.to_nat v) as [r'|] eqn:E; [|done]. injection Er as <-. apply lookup_replicate in E as [-> _]. simpl in Hd. set_solver.
Qed.

Definition fresh_with (n : nat) (r : res (RegistryType * Pack)) : bool :=
  match r with
  | Ok (_, p) => bool_decide (live_components_ p = []) && bool_decide (added_components_ p = ∅)
      && forallb (fun i => bool_decide (i ∈ registered_set_ p)) (seqZ 0 (Z.of_nat n))
  | Stop _ => false
  end.

Lemma made_pack_ready regs n adds :
  fresh_with n (registerAll regs (blank n, empty_pack)) = true ->
  Forall (fun r => Forall (fun u => 0 <= u < Z.of_nat n) (r.1.2 ++ r.2)) regs ->
  Forall (fun i => 0 <= i < Z.of_nat n) adds ->
  registry_ok (made_pack regs n adds).1 /\ ready (made_pack regs n adds).1 (made_pack regs n adds).2.
Proof.
  unfold made_pack. destruct (registerAll regs (blank n, empty_pack)) as [[reg p]|] eqn:E; [|done]. simpl.
  intros [[Hl%bool_decide_eq_true He%bool_decide_eq_true]%andb_true_iff Hs]%andb_true_iff Hd Ha. rewrite forallb_forall in Hs.
  destruct (registerAll_ok regs (blank n) empty_pack reg p (blank_ok n) empty_pack_ok) as (Hreg & Hp & Hlen); [|done|].
  { unfold blank. by rewrite length_replicate. }
  unfold blank in Hlen. rewrite length_replicate in Hlen. split; [done|].
  assert (added_components_ (foldr add p adds) = list_to_set adds /\ registered_set_ (foldr add p adds) = registered_set_ p
    /\ live_components_ (foldr add p adds) = [] /\ pack_ok (foldr add p adds)) as (E1 & E2 & E3 & Hpa).
  { clear Ha. induction adds as [|i adds (I1 & I2 & I3 & I4)]; [by split_and!|]. simpl. rewrite I1. split_and!; [done|done|done|].
    destruct I4 as [J1 J2]. by split. }
  assert (forall x, x ∈ (list_to_set adds : gset Z) -> 0 <= x < Z.of_nat (length reg)) as Hin.
  { intros x Hx%elem_of_list_to_set. rewrite Hlen. by eapply Forall_forall in Ha. }
  split; [done|]. split; [done|]. rewrite E1, E2. split; [done|].
  intros x Hx. assert (x ∈ (list_to_set (seqZ 0 (Z.of_nat (length reg))) : gset Z)) as Hxr.
  { eapply required_closed; [exact Hreg| |exact Hx]. intros y Hy%Hin. by apply elem_all. }
  apply elem_of_list_to_set in Hxr. rewrite Hlen in Hxr.
  specialize (Hs x). rewrite bool_decide_eq_true in Hs. by apply Hs, list_elem_of_In.
Qed.

Lemma pack5_ready : registry_ok reg5 /\ ready reg5 pack5.
Proof. apply made_pack_ready; [by vm_compute|repeat constructor; done|repeat constructor; done]. Qed.

Lemma pack2_ready : registry_ok reg2 /\ ready reg2 pack2.
Proof. apply made_pack_ready; [by vm_compute|repeat constructor; done|repeat constructor; done]. Qed.

Definition ranked (reg : RegistryType) : bool :=
  forallb (fun v => match getIdx reg v with
                    | Ok r => forallb (fun d => d <? v) (elements (startup_deps_ r))
                    | Stop _ => true
                    end) (seqZ 0 (Z.of_nat (length reg))).

Lemma ranked_lt reg v d : ranked reg = true -> startup_dep reg v d -> d < v.
Proof.
  intros Hr (r & E & Hd). unfold ranked in Hr. rewrite forallb_forall in Hr.
  specialize (Hr v). rewrite E, forallb_forall in Hr. apply Z.ltb_lt, Hr.
  - apply list_elem_of_In, elem_of_seqZ. pose proof (getIdx_range _ _ _ E). lia.
  - by apply list_elem_of_In, elem_of_elements.
Qed.

Lemma reg5_ranked v d : startup_dep reg5 v d -> d < v.
Proof. apply ranked_lt. by vm_compute. Qed.

Lemma reg2_cycle : tc (startup_dep reg2) 0 0.
Proof.
  apply (tc_l _ 0 1 0); [|apply tc_once].
  - eexists. split; [reflexivity|]. apply (bool_decide_unpack _). by vm_compute.
  - eexists. split; [reflexivity|]. apply (bool_decide_unpack _). by vm_compute.
Qed.

End Demo.

Lemma components_start_in_order_witness :
  (exists p', construct elements Demo.reg5 Demo.pack5 = Ok (tt, p',
    [Construct 0; SetRef 0; Initialize 0; Construct 1; SetRef 1; Initialize 1; Construct 2; SetRef 2; Initialize 2;
     Construct 3; SetRef 3; Initialize 3; Construct 4; SetRef 4; Initialize 4;
     SetId 0 1; Startup 0; SetId 1 2; Startup 1; SetId 2 3; Startup 2; SetId 3 4; Startup 3; SetId 4 5; Startup 4])) /\
  (exists p' calls, construct elements Demo.reg5 Demo.pack5 = Ok (tt, p', calls)).
Proof.
  split; [eexists; vm_compute; reflexivity|].
  destruct (components_start_in_order elements (fun s => Permutation_refl _) Demo.reg5 (proj1 Demo.pack5_ready) Demo.pack5 (proj2 Demo.pack5_ready)
    (fun v _ => ranked_acyclic Demo.reg5 Demo.reg5_ranked v)) as (p' & l & H & _).
  exists p'. eexists. exact H.
Defined.

Lemma required_components_any_order_witness :
  exists n added, add_all Demo.reg5 elements n (added_components_ Demo.pack5) added /\
    (n <= 6)%nat /\ addAllRequiredComponents elements Demo.reg5 Demo.pack5 = Ok (with_added added Demo.pack5).
Proof.
  destruct Demo.pack5_ready as [Hreg (_ & _ & Ha & _)].
  destruct (addAll_run elements (fun s => Permutation_refl _) Demo.reg5 Hreg Demo.pack5 Ha) as (n & added & _ & Hall & _).
  destruct (required_components_any_order elements (fun s => Permutation_refl _) Demo.reg5 Hreg Demo.pack5 n added Ha Hall) as (Hn & E & _).
  exists n, added. split; [done|]. split; [exact Hn|exact E].
Defined.

Lemma cyclic_components_abort_witness : construct elements Demo.reg2 Demo.pack2 = Stop AbortCalled.
Proof.
  apply (cyclic_components_abort elements (fun s => Permutation_refl _) Demo.reg2 (proj1 Demo.pack2_ready) Demo.pack2 0 (proj2 Demo.pack2_ready)).
  - exists 0. split; [|done]. apply (bool_decide_unpack _). by vm_compute.
  - exact Demo.reg2_cycle.
Defined.

End ComponentSpec.
