(* ===== verification/Messenger.v ===== *)
(** * Active messages and the units they are counted with

    Models [src/vt/messaging/active.{cc,impl.h}] and [pending_send.{h,cc}] (how a message
    gets its epoch, is sent, received and run), [runnable/make_runnable.h] and
    [context/runnable_context/td.{cc,impl.h}] (the unit a piece of work holds and the epoch
    it runs in), [objgroup/manager.static.h] (dispatch to objects, also to those not made
    yet) and [GroupManager::groupHandler]. How a broadcast is routed is an interface
    ([Router]), what handlers do is left open: a node may do any of the operations at any
    time. The units produced and consumed are outputs, in order. *)

From stdpp Require Import gmap.
From S2P Require Import Prelude.
From S2P Require Import Sums.
From S2P Require Import Effects.
From S2P Require Import Ids.
From S2P Require Import Epoch.
Import EpochManip.

Module Messenger.

Definition no_tag : Z := -1.
Definition TagType := i32.
Definition PutPackedTag : Z := 2 ^ 31 - 1.
Definition starting_direct_buffer_tag : Z := 1000.
Definition broadcast_dest : Z := uninitialized_destination.

(** A message: what its envelope says, and the object group its handler belongs to, if
    any. [epoch_] and the put fields are meaningful for the types of envelope that have
    them. *)
Record Msg := MkMsg {
  is_epoch_type : bool;
  epoch_ : Z;
  is_term : bool;
  is_bcast : bool;
  is_pipe : bool;
  dest_ : Z;
  obj_ : option Z;
  is_put : bool;
  is_put_packed : bool;
  put_tag : Z;
  msg_id : Z
}.

#[export] Instance Msg_eq_dec : EqDecision Msg.
Proof. solve_decision. Defined.

Definition with_epoch (e : Z) (m : Msg) : Msg := MkMsg (is_epoch_type m) e (is_term m) (is_bcast m) (is_pipe m)
  (dest_ m) (obj_ m) (is_put m) (is_put_packed m) (put_tag m) (msg_id m).
Definition with_dest (d : Z) (m : Msg) : Msg := MkMsg (is_epoch_type m) (epoch_ m) (is_term m) (is_bcast m) (is_pipe m)
  d (obj_ m) (is_put m) (is_put_packed m) (put_tag m) (msg_id m).
Definition with_put (packed : bool) (tag : Z) (m : Msg) : Msg := MkMsg (is_epoch_type m) (epoch_ m) (is_term m) (is_bcast m)
  (is_pipe m) (dest_ m) (obj_ m) (is_put m) packed tag (msg_id m).

Definition envelopeGetEpoch (m : Msg) : res Z := vtAssert (is_epoch_type m) (Ok (epoch_ m)).

(** [envelopeIsEpochType(env) ? envelopeGetEpoch(env) : any_epoch_sentinel]. *)
Definition msg_epoch (m : Msg) : Z := if is_epoch_type m then epoch_ m else any_epoch_sentinel.

(** Work in the scheduler: a runnable, with the epoch of its [TD] context if it has one and
    its message if it has one, or the continuation of received data. *)
Inductive Work :=
  | WRun (td : option Z) (m : option Msg)
  | WNext (m : Msg) (sender : Z).

(** A [PendingSend]. *)
Record Held := MkHeld { h_msg : Msg; epoch_produced_ : Z }.

(** A node. [running] has the [TD] contexts of the runnables in progress, the innermost
    first; [objs_] the object groups that have been made, [obj_pending_] the messages that
    wait for one. *)
Record Node := MkNode {
  this_node : Z;
  epoch_stack_ : list Z;
  cur_direct_buffer_tag_ : Z;
  work_ : list Work;
  running_ : list (option Z);
  held_ : list Held;
  in_progress_active_msg_irecv : list (Msg * Z);
  pending_recvs_ : gmap Z (Msg * Z);
  in_progress_data_irecv : list (Msg * Z);
  objs_ : gset Z;
  obj_pending_ : list (Z * Msg)
}.

Definition make (node : Z) : Node :=
  MkNode node [any_epoch_sentinel] starting_direct_buffer_tag [] [] [] [] ∅ [] ∅ [].

Definition with_stack l n := MkNode (this_node n) l (cur_direct_buffer_tag_ n) (work_ n) (running_ n) (held_ n)
  (in_progress_active_msg_irecv n) (pending_recvs_ n) (in_progress_data_irecv n) (objs_ n) (obj_pending_ n).
Definition with_tag t n := MkNode (this_node n) (epoch_stack_ n) t (work_ n) (running_ n) (held_ n)
  (in_progress_active_msg_irecv n) (pending_recvs_ n) (in_progress_data_irecv n) (objs_ n) (obj_pending_ n).
Definition with_work l n := MkNode (this_node n) (epoch_stack_ n) (cur_direct_buffer_tag_ n) l (running_ n) (held_ n)
  (in_progress_active_msg_irecv n) (pending_recvs_ n) (in_progress_data_irecv n) (objs_ n) (obj_pending_ n).
Definition with_running l n := MkNode (this_node n) (epoch_stack_ n) (cur_direct_buffer_tag_ n) (work_ n) l (held_ n)
  (in_progress_active_msg_irecv n) (pending_recvs_ n) (in_progress_data_irecv n) (objs_ n) (obj_pending_ n).
Definition with_held l n := MkNode (this_node n) (epoch_stack_ n) (cur_direct_buffer_tag_ n) (work_ n) (running_ n) l
  (in_progress_active_msg_irecv n) (pending_recvs_ n) (in_progress_data_irecv n) (objs_ n) (obj_pending_ n).
Definition with_irecvs l n := MkNode (this_node n) (epoch_stack_ n) (cur_direct_buffer_tag_ n) (work_ n) (running_ n) (held_ n)
  l (pending_recvs_ n) (in_progress_data_irecv n) (objs_ n) (obj_pending_ n).
Definition with_pending m n := MkNode (this_node n) (epoch_stack_ n) (cur_direct_buffer_tag_ n) (work_ n) (running_ n) (held_ n)
  (in_progress_active_msg_irecv n) m (in_progress_data_irecv n) (objs_ n) (obj_pending_ n).
Definition with_data l n := MkNode (this_node n) (epoch_stack_ n) (cur_direct_buffer_tag_ n) (work_ n) (running_ n) (held_ n)
  (in_progress_active_msg_irecv n) (pending_recvs_ n) l (objs_ n) (obj_pending_ n).
Definition with_objs o l n := MkNode (this_node n) (epoch_stack_ n) (cur_direct_buffer_tag_ n) (work_ n) (running_ n) (held_ n)
  (in_progress_active_msg_irecv n) (pending_recvs_ n) (in_progress_data_irecv n) o l.

(** What a node does to the outside: units of the termination detector, messages and data
    given to MPI; a message that is passed on and not delivered ([amForwardCounterGauge]);
    a receive for put data that is not recorded because its tag is taken. *)
Inductive output :=
  | Produce (ep num node : Z)
  | Consume (ep num node : Z)
  | SendMsg (dest : Z) (m : Msg)
  | SendData (dest tag : Z)
  | AmForwarded (m : Msg)
  | RecvIgnored (m : Msg).

Abbreviation M := (Eff Node output).

(** Where a broadcast goes from a node: the nodes it is passed on to, in order, and whether
    it is delivered here ([DefaultGroup::broadcast], [GroupManager::sendGroup]). *)
Class Router := route : forall (node : Z) (m : Msg) (from : Z) (is_root : bool), list Z * bool.

(** The settings: nodes, the largest MPI tag, and whether the data of a put fits in the
    message's buffer ([direct_buf_pack]). *)
Record Config := MkConfig { num_nodes : Z; max_tag : Z; direct_buf_pack : Msg -> bool }.

Section ops.
Context `{R : Router} (C : Config).

(** ** The epoch stack *)

Definition pushEpoch (epoch : Z) : M unit :=
  assert_ (negb (epoch =? no_epoch));;
  modify (fun n => with_stack (epoch :: epoch_stack_ n) n).

Definition getEpoch : M Z :=
  n ← get;
  match epoch_stack_ n with [] => lift (Stop AssertFailed) | e :: _ => mret e end.

Definition popEpoch (epoch : Z) : M unit :=
  n ← get;
  match epoch_stack_ n with
  | [] => lift (Stop AssertFailed)
  | e :: rest => assert_ ((e =? epoch) || (epoch =? no_epoch));; modify (with_stack rest)
  end.

(** ** The context of a runnable: [ctx::TD] *)

Definition extractEpochMsg (m : Msg) : Z :=
  if negb (is_term m) then
    let ep_ := msg_epoch m in
    if ep_ =? no_epoch then any_epoch_sentinel else ep_
  else no_epoch.

(** The constructor produces. *)
Definition TD_make (in_ep : Z) : M Z :=
  let ep_ := if in_ep =? no_epoch then any_epoch_sentinel else in_ep in
  emit (Produce ep_ 1 uninitialized_destination);;
  mret ep_.

Definition TD_start (ep_ : Z) : M unit := pushEpoch ep_.

Definition TD_finish (ep_ : Z) : M unit :=
  popEpoch ep_;;
  emit (Consume ep_ 1 uninitialized_destination).

(** [makeRunnable(msg, ...).withTDEpochFromMsg(is_term).enqueue()]. *)
Definition makeRunnable_enqueue (m : Msg) (term : bool) : M unit :=
  td ← (if negb term then ep ← TD_make (extractEpochMsg m); mret (Some ep) else mret None);
  modify (fun n => with_work (work_ n ++ [WRun td (Some m)]) n).

(** [makeRunnableVoid(...).withTDEpoch(ep).enqueue()]. *)
Definition makeRunnableVoid_enqueue (ep : Z) : M unit :=
  ep ← TD_make ep;
  modify (fun n => with_work (work_ n ++ [WRun (Some ep) None]) n).

(** ** Object groups *)

Definition dispatchImpl (m : Msg) : M unit := makeRunnable_enqueue m false.

Definition dispatchObjGroup (m : Msg) (proxy : Z) : M unit :=
  n ← get;
  if decide (proxy ∈ objs_ n) then dispatchImpl m
  else
    epoch ← lift (envelopeGetEpoch m);
    (if negb (epoch =? no_epoch) then emit (Produce epoch 1 uninitialized_destination) else nop);;
    modify (fun n => with_objs (objs_ n) (obj_pending_ n ++ [(proxy, m)]) n).

(** The function [dispatch] stores for an object that is not there yet. *)
Definition run_pending (p : Z * Msg) : M unit :=
  epoch ← lift (envelopeGetEpoch p.2);
  dispatchImpl p.2;;
  if negb (epoch =? no_epoch) then emit (Consume epoch 1 uninitialized_destination) else nop.

(** [regObjProxy(obj, proxy)]. *)
Definition regObjProxy (proxy : Z) : M unit :=
  n ← get;
  let mine := List.filter (fun p => p.1 =? proxy) (obj_pending_ n) in
  modify (with_objs ({[proxy]} ∪ objs_ n) (obj_pending_ n));;
  for_each mine run_pending;;
  modify (fun n => with_objs (objs_ n) (List.filter (fun p => negb (p.1 =? proxy)) (obj_pending_ n)) n).

(** ** Sending *)

Definition allocateNewTag : M Z :=
  modify (fun n => if cur_direct_buffer_tag_ n =? max_tag C then with_tag starting_direct_buffer_tag n else n);;
  n ← get;
  let ret_tag := cur_direct_buffer_tag_ n in
  modify (with_tag (wrap TagType (ret_tag + 1)));;
  mret ret_tag.

Definition valid_dest (dest : Z) : bool := negb ((num_nodes C <=? dest) || (dest <? 0)).

Definition sendData (dest tag : Z) : M Z :=
  send_tag ← (if negb (tag =? no_tag) then mret tag else allocateNewTag);
  lift (vtAbortIf (negb (valid_dest dest)) (Ok tt));;
  emit (SendData dest send_tag);;
  emit (Produce any_epoch_sentinel 1 dest);;
  mret send_tag.

Definition sendMsgBytes (dest : Z) (m : Msg) : M unit :=
  let epoch := msg_epoch m in
  lift (vtAbortIf (negb (valid_dest dest)) (Ok tt));;
  emit (SendMsg dest m);;
  if negb (is_term m) then emit (Produce epoch 1 dest) else nop.

(** The message comes back with its put fields as they are afterwards: it is sent again
    to the next child. *)
Definition sendMsgBytesWithPut (dest : Z) (m : Msg) : M Msg :=
  m ← (if is_put m && negb (is_put_packed m) then
         if direct_buf_pack C m then mret (with_put true PutPackedTag m)
         else
           ret_tag ← sendData dest (put_tag m);
           mret (if negb (ret_tag =? put_tag m) then with_put (is_put_packed m) ret_tag m else m)
       else mret m);
  sendMsgBytes dest m;;
  mret m.

Fixpoint send_each (dests : list Z) (m : Msg) : M Msg :=
  match dests with [] => mret m | d :: dests => m ← sendMsgBytesWithPut d m; send_each dests m end.

(** [GroupManager::groupHandler]: the message and [*deliver]. *)
Definition groupHandler (m : Msg) (from : Z) (root : bool) : M (Msg * bool) :=
  if negb (is_pipe m) then
    if is_bcast m then
      n ← get;
      let '(dests, deliver) := route (this_node n) m from root in
      m ← send_each dests m;
      mret (m, deliver)
    else mret (m, true)
  else mret (m, true).

Definition doMessageSend (m : Msg) : M unit :=
  n ← get;
  let dest := dest_ m in
  md ← groupHandler m uninitialized_destination true;
  if (md.2 : bool) then
    if negb (dest =? this_node n) then sendMsgBytesWithPut dest md.1;; nop
    else
      match obj_ md.1 with
      | Some proxy => dispatchObjGroup md.1 proxy
      | None => makeRunnable_enqueue md.1 (is_term md.1)
      end
  else nop.

(** [PendingSend(msg)]; its destructor sends. *)
Definition getProduceEpochFromMsg (m : Msg) : Z :=
  if is_term m || negb (is_epoch_type m) then no_epoch else epoch_ m.

Definition PendingSend_make (m : Msg) : M unit :=
  let ep := getProduceEpochFromMsg m in
  (if negb (ep =? no_epoch) then emit (Produce ep 1 uninitialized_destination) else nop);;
  modify (fun n => with_held (held_ n ++ [MkHeld m ep]) n).

Definition PendingSend_release (k : nat) : M unit :=
  n ← get;
  match held_ n !! k with
  | None => nop
  | Some h =>
      doMessageSend (h_msg h);;
      (if negb (epoch_produced_ h =? no_epoch) then emit (Consume (epoch_produced_ h) 1 uninitialized_destination) else nop);;
      modify (fun n => with_held (take_out k (held_ n)) n)
  end.

Definition getEpochContextMsg (m : Msg) : M Z :=
  if is_epoch_type m then
    if negb (epoch_ m =? no_epoch) && negb (epoch_ m =? any_epoch_sentinel) then mret (epoch_ m)
    else
      ctx_epoch ← getEpoch;
      assert_ (negb (ctx_epoch =? no_epoch));;
      mret ctx_epoch
  else mret any_epoch_sentinel.

Definition setupEpochMsg (m : Msg) : M Msg :=
  if is_epoch_type m then
    epoch ← getEpochContextMsg m;
    mret (if (epoch_ m =? no_epoch) && negb (epoch =? any_epoch_sentinel) then with_epoch epoch m else m)
  else mret m.

(** [sendMsg] up to the [PendingSend] it returns. *)
Definition sendMsgCopyableImpl (dest : Z) (m : Msg) : M unit :=
  n ← get;
  let dest := if dest =? broadcast_dest then this_node n else dest in
  m ← setupEpochMsg (with_dest dest m);
  PendingSend_make m.

(** ** Receiving *)

Definition prepareActiveMsgToRun (m : Msg) (in_from_node : Z) : M unit :=
  (match obj_ m with
   | Some proxy => dispatchObjGroup m proxy
   | None => makeRunnable_enqueue m (is_term m)
   end);;
  if negb (is_term m) then emit (Consume (msg_epoch m) 1 in_from_node) else nop.

Definition processActiveMsg (m : Msg) (from : Z) : M unit :=
  md ← groupHandler m from false;
  if (md.2 : bool) then prepareActiveMsgToRun md.1 from else emit (AmForwarded md.1).

(** [recvDataMsg(1, tag, sender, next)]: [emplace] does nothing if the tag is there. *)
Definition recvDataMsg (tag sender : Z) (m : Msg) : M unit :=
  n ← get;
  match pending_recvs_ n !! tag with
  | Some _ => emit (RecvIgnored m)
  | None => modify (with_pending (<[tag := (m, sender)]> (pending_recvs_ n)))
  end.

Definition finishPendingActiveMsgAsyncRecv (m : Msg) (sender : Z) : M unit :=
  if is_put m && negb (put_tag m =? PutPackedTag) then recvDataMsg (put_tag m) sender m
  else processActiveMsg m sender.

(** A message for this node has arrived; [done] is whether its receive has completed. *)
Definition tryProcessIncomingActiveMsg (m : Msg) (sender : Z) (done : bool) : M unit :=
  if done then finishPendingActiveMsgAsyncRecv m sender
  else modify (fun n => with_irecvs (in_progress_active_msg_irecv n ++ [(m, sender)]) n).

Definition testPendingActiveMsgAsyncRecv (k : nat) : M unit :=
  n ← get;
  match in_progress_active_msg_irecv n !! k with
  | None => nop
  | Some (m, sender) =>
      modify (with_irecvs (take_out k (in_progress_active_msg_irecv n)));;
      finishPendingActiveMsgAsyncRecv m sender
  end.

Definition finishPendingDataMsgAsyncRecv (m : Msg) (sender : Z) : M unit :=
  modify (fun n => with_work (work_ n ++ [WNext m sender]) n).

(** Data with this tag has arrived from [sender]; [None] if no receive is waiting for it. *)
Definition tryProcessDataMsgRecv (tag sender : Z) (done : bool) : M bool :=
  n ← get;
  match pending_recvs_ n !! tag with
  | Some (m, node) =>
      if node =? sender then
        (if done then finishPendingDataMsgAsyncRecv m sender
         else modify (fun n => with_data (in_progress_data_irecv n ++ [(m, sender)]) n));;
        modify (fun n => with_pending (delete tag (pending_recvs_ n)) n);;
        mret true
      else mret false
  | None => mret false
  end.

Definition testPendingDataMsgAsyncRecv (k : nat) : M unit :=
  n ← get;
  match in_progress_data_irecv n !! k with
  | None => nop
  | Some (m, sender) =>
      modify (with_data (take_out k (in_progress_data_irecv n)));;
      finishPendingDataMsgAsyncRecv m sender
  end.

(** ** Running *)

(** The scheduler begins a piece of work: a runnable enters its context ([start()]), a
    continuation runs ([next(...)] and then [consume]). *)
Definition start_work (k : nat) : M unit :=
  n ← get;
  match work_ n !! k with
  | None => nop
  | Some w =>
      modify (with_work (take_out k (work_ n)));;
      match w with
      | WRun td _ =>
          (match td with Some ep => TD_start ep | None => nop end);;
          modify (fun n => with_running (td :: running_ n) n)
      | WNext m sender =>
          processActiveMsg m sender;;
          emit (Consume any_epoch_sentinel 1 sender)
      end
  end.

(** The handler of the innermost runnable returns ([finish()]). *)
Definition finish_work : M unit :=
  n ← get;
  match running_ n with
  | [] => nop
  | td :: rest =>
      (match td with Some ep => TD_finish ep | None => nop end);;
      modify (with_running rest)
  end.

End ops.
End Messenger.
