(* ===== verification/MessengerSystem.v ===== *)
(** * Messages among all nodes, and the units of an epoch

    All nodes of [Messenger.v] with the messages and data between them, what the user's
    code may do at any time, and the weights with which everything that is under way counts
    for an epoch. *)

From stdpp Require Import gmap.
From S2P Require Import Prelude.
From S2P Require Import Sums.
From S2P Require Import Effects.
From S2P Require Import Ids.
From S2P Require Import Epoch.
From S2P Require Import Messenger.
Import EpochManip.
Import Messenger.

Module MSystem.

(** Messages in flight with destination and sender, data likewise with its tag, and all
    that the nodes have put out, in order. *)
Record Sys := MkSys {
  nodes : Z -> Node;
  wire : list (Z * Z * Msg);
  data : list (Z * Z * Z);
  trace : list (Z * output)
}.

Definition init : Sys := MkSys make [] [] [].

(** What happens on a node. A message is received, or its receive completes; likewise data;
    a piece of work begins, ends; and what handlers (or the program around the scheduler)
    do: send a message, let it go, push and pop an epoch, make a runnable for an epoch, make
    an object. *)
Inductive label :=
  | LRecv (k : nat) (done : bool)
  | LTest (n : Z) (k : nat)
  | LRecvData (k : nat) (done : bool)
  | LTestData (n : Z) (k : nat)
  | LStart (n : Z) (k : nat)
  | LFinish (n : Z)
  | LRelease (n : Z) (k : nat)
  | LSend (n dest : Z) (m : Msg)
  | LPush (n ep : Z)
  | LPop (n ep : Z)
  | LMake (n ep : Z)
  | LObj (n proxy : Z).

Section system.
Context `{R : Router} (C : Config).

Definition sends (n : Z) (os : list output) : list (Z * Z * Msg) :=
  omap (fun o => match o with SendMsg d m => Some (d, n, m) | _ => None end) os.
Definition sends_data (n : Z) (os : list output) : list (Z * Z * Z) :=
  omap (fun o => match o with SendData d tag => Some (d, n, tag) | _ => None end) os.

Definition on_node {A} (n : Z) (op : M A) (s : Sys) : res (A * Sys) :=
  match op (nodes s n) with
  | Stop e => Stop e
  | Ok (a, x, os) => Ok (a, MkSys (<[n := x]> (nodes s)) (wire s ++ sends n os) (data s ++ sends_data n os) (trace s ++ (pair n <$> os)))
  end.

Definition with_wire l s := MkSys (nodes s) l (data s) (trace s).
Definition with_sys_data l s := MkSys (nodes s) (wire s) l (trace s).

Definition run1 (n : Z) (op : M unit) (s : Sys) : res Sys := snd <$> on_node n op s.

Definition exec (l : label) (s : Sys) : res Sys :=
  match l with
  | LRecv k done =>
      match wire s !! k with
      | Some (d, from, m) => run1 d (tryProcessIncomingActiveMsg C m from done) (with_wire (take_out k (wire s)) s)
      | None => Ok s
      end
  | LTest n k => run1 n (testPendingActiveMsgAsyncRecv C k) s
  | LRecvData k done =>
      match data s !! k with
      | Some (d, from, tag) =>
          bs ← on_node d (tryProcessDataMsgRecv tag from done) s;
          Ok (if (bs.1 : bool) then with_sys_data (take_out k (data bs.2)) bs.2 else bs.2)
      | None => Ok s
      end
  | LTestData n k => run1 n (testPendingDataMsgAsyncRecv k) s
  | LStart n k => run1 n (start_work C k) s
  | LFinish n => run1 n finish_work s
  | LRelease n k => run1 n (PendingSend_release C k) s
  | LSend n dest m => run1 n (sendMsgCopyableImpl dest m) s
  | LPush n ep => run1 n (pushEpoch ep) s
  | LPop n ep => run1 n (popEpoch ep) s
  | LMake n ep => run1 n (makeRunnableVoid_enqueue ep) s
  | LObj n proxy => run1 n (regObjProxy proxy) s
  end.

(** Labels name existing nodes. *)
Definition label_ok (l : label) : Prop :=
  match l with
  | LRecv _ _ | LRecvData _ _ => True
  | LTest n _ | LTestData n _ | LStart n _ | LFinish n | LRelease n _ | LSend n _ _ | LPush n _ | LPop n _ | LMake n _ | LObj n _ =>
      0 <= n < num_nodes C
  end.

Fixpoint run (ls : list label) (s : Sys) : res Sys :=
  match ls with [] => Ok s | l :: ls => s ← exec l s; run ls s end.

End system.

(** The messages a node has: in runnables, waiting for data, held back, being received,
    waiting for an object. *)
Definition msgs_of (n : Node) : list Msg :=
  omap (fun w => match w with WRun _ m => m | WNext m _ => Some m end) (work_ n) ++ (h_msg <$> held_ n) ++
  (fst <$> in_progress_active_msg_irecv n) ++ ((fun p => p.2.1) <$> map_to_list (pending_recvs_ n)) ++
  (fst <$> in_progress_data_irecv n) ++ (snd <$> obj_pending_ n).

(** ** Weights *)

Section weights.
Context (e : Z).

(** A unit of [ep] counts for [e] if they are the same, where [no_epoch] means the global
    epoch; the global epoch counts all. *)
Definition norm (ep : Z) : Z := if ep =? no_epoch then any_epoch_sentinel else ep.
Definition counts (ep : Z) : Z := b2z ((e =? any_epoch_sentinel) || (norm ep =? e)).

(** A message in flight holds a unit, unless it is one of the termination detector's. *)
Definition w_msg (m : Msg) : Z := if is_term m then 0 else counts (msg_epoch m).
Definition w_data : Z := counts any_epoch_sentinel.
Definition w_td (td : option Z) : Z := match td with Some ep => counts ep | None => 0 end.
Definition w_work (w : Work) : Z := match w with WRun td _ => w_td td | WNext m _ => w_msg m + w_data end.
Definition w_ep (ep : Z) : Z := if ep =? no_epoch then 0 else counts ep.
Definition w_held (h : Held) : Z := w_ep (epoch_produced_ h).
Definition w_obj (p : Z * Msg) : Z := if is_epoch_type p.2 then w_ep (epoch_ p.2) else 0.

(** The units held on a node. *)
Definition holds (n : Node) : Z :=
  lsum w_work (work_ n) + lsum w_td (running_ n) + lsum w_held (held_ n) +
  lsum (fun p => w_msg p.1) (in_progress_active_msg_irecv n) + msum (fun p => w_msg p.1) (pending_recvs_ n) +
  lsum (fun p => w_msg p.1 + w_data) (in_progress_data_irecv n) + lsum w_obj (obj_pending_ n).

(** The units of an output: produced less consumed. *)
Definition units (o : output) : Z :=
  match o with Produce ep num _ => counts ep * num | Consume ep num _ => - (counts ep * num) | _ => 0 end.

(** What an output takes from the node. *)
Definition leaves (o : output) : Z :=
  match o with
  | SendMsg _ m => w_msg m
  | SendData _ _ => w_data
  | AmForwarded m | RecvIgnored m => w_msg m
  | _ => 0
  end.

(** Units of messages that will not be run: passed on without delivery, or lost. *)
Definition lost (o : output) : Z := match o with AmForwarded m | RecvIgnored m => w_msg m | _ => 0 end.

Definition net (os : list output) : Z := lsum units os - lsum leaves os.

End weights.
End MSystem.

(** ** The units of one node's operations *)

Module MBalance.
Import MSystem.

Abbreviation any := (fun _ => True).

Section bal.
Context `{R : Router} (C : Config) (e : Z).

(** An operation that is given [k] units neither makes nor loses any: what the node holds
    grows by these and by what it has produced less what it has consumed and sent. *)
Definition bal_at {A} (n : Node) (k : Z) (op : M A) (P : A -> Prop) : Prop :=
  forall a n' os, op n = Ok (a, n', os) -> P a /\ holds e n' = holds e n + net e os + k.
Definition bal {A} (k : Z) (op : M A) (P : A -> Prop) : Prop := forall n, bal_at n k op P.

Lemma net_nil : net e [] = 0.
Proof. done. Qed.

Lemma net_app os1 os2 : net e (os1 ++ os2) = net e os1 + net e os2.
Proof. unfold net. rewrite !lsum_app. lia. Qed.

Lemma bal_bind {A B} k1 k2 k (op : M A) (f : A -> M B) P Q :
  bal k1 op P -> (forall a, P a -> bal k2 (f a) Q) -> k1 + k2 = k -> bal k (op ≫= f) Q.
Proof.
  intros H1 H2 <- n b n' os (a & n1 & o1 & o2 & E1 & E2 & ->)%eff_bind_inv.
  destruct (H1 _ _ _ _ E1) as [Ha Hn1]. destruct (H2 a Ha _ _ _ _ E2) as [Hb Hn2]. split; [done|]. rewrite net_app. lia.
Qed.

(** The common cases: only one of the two is given anything. *)
Lemma bal_then {A B} k (op : M A) (f : A -> M B) P Q : bal 0 op P -> (forall a, P a -> bal k (f a) Q) -> bal k (op ≫= f) Q.
Proof. intros H1 H2. by eapply bal_bind. Qed.

Lemma bal_first {A B} k (op : M A) (f : A -> M B) P Q : bal k op P -> (forall a, P a -> bal 0 (f a) Q) -> bal k (op ≫= f) Q.
Proof. intros H1 H2. eapply bal_bind; [done|done|lia]. Qed.

Lemma bal_weaken {A} k (op : M A) (P Q : A -> Prop) : bal k op P -> (forall a, P a -> Q a) -> bal k op Q.
Proof. intros H HPQ n a n' os E. destruct (H _ _ _ _ E). auto. Qed.

Lemma bal_ret {A} (a : A) (P : A -> Prop) : P a -> bal 0 (mret a) P.
Proof. intros H n ? n' os [= <- <- <-]. rewrite net_nil. split; [done|lia]. Qed.

Lemma bal_nop : bal 0 nop any.
Proof. by apply bal_ret. Qed.

Lemma bal_stop {A} k x (P : A -> Prop) : bal k (lift (Stop x)) P.
Proof. intros n a n' os E. done. Qed.

Lemma bal_lift {A} (r : res A) (P : A -> Prop) : (forall a, r = Ok a -> P a) -> bal 0 (lift r) P.
Proof. intros H n a n' os. unfold lift. destruct r as [a0|]; [|done]. intros [= <- <- <-]. rewrite net_nil. split; [auto|lia]. Qed.

Lemma bal_assert b : bal 0 (assert_ b) any.
Proof. intros n a n' os. unfold assert_, vtAssert. destruct b; [|done]. intros [= <- <- <-]. rewrite net_nil. split; [done|lia]. Qed.

Lemma bal_emit o : bal (leaves e o - units e o) (emit o) any.
Proof. intros n a n' os [= <- <- <-]. split; [done|]. unfold net. simpl. lia. Qed.

Lemma bal_modify k f : (forall n, holds e (f n) = holds e n + k) -> bal k (modify f) any.
Proof. intros H n a n' os [= <- <- <-]. rewrite net_nil, H. split; [done|lia]. Qed.

Lemma bal_get {A} k (f : Node -> M A) Q : (forall n, bal_at n k (f n) Q) -> bal k (get ≫= f) Q.
Proof. intros H n a n' os. rewrite run_get. apply H. Qed.

Lemma bal_at_modify {A} k1 k2 k n f (op : unit -> M A) Q : holds e (f n) = holds e n + k1 -> bal k2 (op tt) Q -> k1 + k2 = k ->
  bal_at n k (modify f ≫= op) Q.
Proof. intros H1 H2 <- a n' os. rewrite run_modify. intros E. destruct (H2 _ _ _ _ E). split; [done|lia]. Qed.

End bal.

(** What an operation leaves alone. *)
Definition keeps {X A} (f : Node -> X) (op : M A) : Prop := forall n a n' os, op n = Ok (a, n', os) -> f n' = f n.

Section keeps.
Context {X : Type} (f : Node -> X).

Lemma keeps_bind {A B} (op : M A) (g : A -> M B) : keeps f op -> (forall a, keeps f (g a)) -> keeps f (op ≫= g).
Proof.
  intros H1 H2 n b n' os (a & n1 & o1 & o2 & E1 & E2 & ->)%eff_bind_inv.
  rewrite (H2 _ _ _ _ _ E2). by rewrite (H1 _ _ _ _ E1).
Qed.

Lemma keeps_get {A} (g : Node -> M A) : (forall n, keeps f (g n)) -> keeps f (get ≫= g).
Proof. intros H n a n' os. rewrite run_get. apply H. Qed.

Lemma keeps_pure {A} (a : A) : keeps f (mret a).
Proof. by intros n b n' os [= <- <- <-]. Qed.

Lemma keeps_lift {A} (r : res A) : keeps f (lift r).
Proof. intros n b n' os. unfold lift. destruct r; [|done]. by intros [= <- <- <-]. Qed.

Lemma keeps_assert b : keeps f (assert_ b).
Proof. intros n a n' os. unfold assert_, vtAssert. destruct b; [|done]. by intros [= <- <- <-]. Qed.

Lemma keeps_emit o : keeps f (emit o).
Proof. by intros n a n' os [= <- <- <-]. Qed.

Lemma keeps_modify g : (forall n, f (g n) = f n) -> keeps f (modify g).
Proof. intros H n a n' os [= <- <- <-]. apply H. Qed.

Lemma keeps_each {A} (l : list A) (g : A -> M unit) : (forall a, keeps f (g a)) -> keeps f (for_each l g).
Proof. intros H. induction l as [|a l IH]; [apply keeps_pure|]. by apply keeps_bind. Qed.

End keeps.
End MBalance.

(** Walks through an operation. *)
Ltac keep :=
  repeat first
    [ apply MBalance.keeps_get; intros
    | apply MBalance.keeps_bind; [|intros]
    | apply MBalance.keeps_pure | apply MBalance.keeps_lift | apply MBalance.keeps_assert | apply MBalance.keeps_emit
    | apply MBalance.keeps_modify; let n := fresh in intros n; destruct n; simpl; by repeat case_match
    | apply MBalance.keeps_each; intros
    | match goal with
      | |- MBalance.keeps _ (if decide ?b then _ else _) => destruct (decide b)
      | |- MBalance.keeps _ (if ?b then _ else _) => destruct b
      | |- MBalance.keeps _ (match ?x with _ => _ end) => destruct x
      | |- MBalance.keeps _ nop => apply MBalance.keeps_pure
      | |- MBalance.keeps _ ?op => let h := get_head op in unfold h
      end ].

(** ** The operations *)

Module MOps.
Import MSystem MBalance.

Section ops.
Context `{R : Router} (C : Config) (e : Z).

Lemma any_not_none : (any_epoch_sentinel =? no_epoch) = false.
Proof. done. Qed.

Lemma counts_norm ep : counts e (if ep =? no_epoch then any_epoch_sentinel else ep) = counts e ep.
Proof. unfold counts, norm. destruct (ep =? no_epoch) eqn:E; [by rewrite any_not_none|by rewrite E]. Qed.

Lemma w_ep_counts ep : (ep =? no_epoch) = false -> w_ep e ep = counts e ep.
Proof. unfold w_ep. by intros ->. Qed.

Lemma holds_work l n : holds e (with_work l n) = holds e n - lsum (w_work e) (work_ n) + lsum (w_work e) l.
Proof. unfold holds. simpl. lia. Qed.
Lemma holds_running l n : holds e (with_running l n) = holds e n - lsum (w_td e) (running_ n) + lsum (w_td e) l.
Proof. unfold holds. simpl. lia. Qed.
Lemma holds_held l n : holds e (with_held l n) = holds e n - lsum (w_held e) (held_ n) + lsum (w_held e) l.
Proof. unfold holds. simpl. lia. Qed.
Lemma holds_irecvs l n : holds e (with_irecvs l n) = holds e n
  - lsum (fun p => w_msg e p.1) (in_progress_active_msg_irecv n) + lsum (fun p => w_msg e p.1) l.
Proof. unfold holds. simpl. lia. Qed.
Lemma holds_pending m n : holds e (with_pending m n) = holds e n
  - msum (fun p => w_msg e p.1) (pending_recvs_ n) + msum (fun p => w_msg e p.1) m.
Proof. unfold holds. simpl. lia. Qed.
Lemma holds_data l n : holds e (with_data l n) = holds e n
  - lsum (fun p => w_msg e p.1 + w_data e) (in_progress_data_irecv n) + lsum (fun p => w_msg e p.1 + w_data e) l.
Proof. unfold holds. simpl. lia. Qed.
Lemma holds_objs o l n : holds e (with_objs o l n) = holds e n - lsum (w_obj e) (obj_pending_ n) + lsum (w_obj e) l.
Proof. unfold holds. simpl. lia. Qed.

Lemma lsum_snoc {A} (f : A -> Z) l a : lsum f (l ++ [a]) = lsum f l + f a.
Proof. rewrite lsum_app, lsum_cons, lsum_nil. lia. Qed.

Lemma lsum_take_out {A} (f : A -> Z) l k x : l !! k = Some x -> lsum f (take_out k l) = lsum f l - f x.
Proof. intros E. pose proof (lsum_pick f l k x E). unfold take_out. lia. Qed.

(** ** Contexts and object groups *)

Lemma bal_TD_make ep : bal e (- counts e ep) (TD_make ep) (fun ep' => counts e ep' = counts e ep).
Proof.
  unfold TD_make. eapply bal_bind; [apply bal_emit|intros _ _; apply bal_ret, counts_norm|].
  simpl. rewrite counts_norm. lia.
Qed.

Lemma bal_enqueue td m : bal e (w_td e td) (modify (fun n => with_work (work_ n ++ [WRun td m]) n)) any.
Proof. apply bal_modify. intros n. rewrite holds_work, lsum_snoc. simpl. lia. Qed.

Lemma bal_makeRunnable m term : bal e 0 (makeRunnable_enqueue m term) any.
Proof.
  unfold makeRunnable_enqueue. destruct term; simpl.
  - eapply bal_then; [by apply (bal_ret e None (fun td => td = None))|]. intros ? ->. apply bal_enqueue.
  - eapply (bal_bind e (- counts e (extractEpochMsg m)) (counts e (extractEpochMsg m)) 0 _ _ (fun td => w_td e td = counts e (extractEpochMsg m))).
    + eapply bal_first; [apply bal_TD_make|]. intros ep Hep. by apply bal_ret.
    + intros td <-. apply bal_enqueue.
    + lia.
Qed.

Lemma bal_makeRunnableVoid ep : bal e 0 (makeRunnableVoid_enqueue ep) any.
Proof.
  unfold makeRunnableVoid_enqueue. eapply bal_bind; [apply bal_TD_make| |].
  - intros ep' Hep. instantiate (1 := counts e ep). rewrite <- Hep. apply (bal_enqueue (Some ep')).
  - lia.
Qed.

(** A unit produced for an epoch that may be [no_epoch], which then none is. *)
Lemma bal_produce ep : bal e (- w_ep e ep) (if negb (ep =? no_epoch) then emit (Produce ep 1 uninitialized_destination) else nop) any.
Proof.
  unfold w_ep. destruct (ep =? no_epoch); simpl; [apply bal_nop|].
  pose proof (bal_emit e (Produce ep 1 uninitialized_destination)) as H. simpl in H. by replace (- counts e ep) with (0 - counts e ep * 1) by lia.
Qed.

Lemma bal_consume ep : bal e (w_ep e ep) (if negb (ep =? no_epoch) then emit (Consume ep 1 uninitialized_destination) else nop) any.
Proof.
  unfold w_ep. destruct (ep =? no_epoch); simpl; [apply bal_nop|].
  pose proof (bal_emit e (Consume ep 1 uninitialized_destination)) as H. simpl in H. by replace (counts e ep) with (0 - - (counts e ep * 1)) by lia.
Qed.

Lemma bal_getEpoch_msg m : bal e 0 (lift (envelopeGetEpoch m)) (fun ep => is_epoch_type m = true /\ ep = epoch_ m).
Proof. apply bal_lift. intros ep. unfold envelopeGetEpoch. intros [? [= ->]]%vtAssert_Ok. done. Qed.

Lemma w_obj_eq p : is_epoch_type p.2 = true -> w_obj e p = w_ep e (epoch_ p.2).
Proof. unfold w_obj. by intros ->. Qed.

Lemma bal_dispatchObjGroup m proxy : bal e 0 (dispatchObjGroup m proxy) any.
Proof.
  apply bal_get. intros n. destruct (decide (proxy ∈ objs_ n)); [apply bal_makeRunnable|].
  eapply bal_then; [apply bal_getEpoch_msg|]. intros ep [Ht ->].
  eapply bal_bind; [apply bal_produce| |].
  - intros _ _. apply (bal_modify e (w_ep e (epoch_ m))). intros n'. rewrite holds_objs, lsum_snoc, w_obj_eq by done. simpl. lia.
  - lia.
Qed.

Lemma bal_run_pending p : bal e (w_obj e p) (run_pending p) any.
Proof.
  eapply bal_then; [apply bal_getEpoch_msg|]. intros ep [Ht ->]. rewrite w_obj_eq by done.
  eapply bal_then; [apply bal_makeRunnable|]. intros _ _. apply bal_consume.
Qed.

Lemma bal_each {A} (w : A -> Z) (l : list A) (g : A -> M unit) : (forall a, bal e (w a) (g a) any) -> bal e (lsum w l) (for_each l g) any.
Proof.
  intros H. induction l as [|a l IH]; [apply bal_nop|]. rewrite lsum_cons. eapply bal_bind; [apply H|by intros|done].
Qed.

Lemma keeps_pending_objs l : keeps obj_pending_ (for_each l run_pending).
Proof. keep. Qed.

Lemma lsum_partition {A} (w : A -> Z) (p : A -> bool) l :
  lsum w (List.filter p l) + lsum w (List.filter (fun a => negb (p a)) l) = lsum w l.
Proof. induction l as [|a l IH]; [done|]. simpl. destruct (p a); simpl; lia. Qed.

Lemma bal_regObjProxy proxy : bal e 0 (regObjProxy proxy) any.
Proof.
  apply bal_get. intros n. set (mine := List.filter _ _).
  intros a n' os. rewrite run_modify. intros (u & n1 & o1 & o2 & E1 & [= <- <- <-] & ->)%eff_bind_inv.
  destruct (bal_each _ mine run_pending bal_run_pending _ _ _ _ E1) as [_ H1].
  pose proof (keeps_pending_objs mine _ _ _ _ E1) as Hk. cbn [with_objs obj_pending_] in Hk.
  split; [done|]. rewrite net_app, net_nil, holds_objs, H1, holds_objs, Hk.
  pose proof (lsum_partition (w_obj e) (fun p => p.1 =? proxy) (obj_pending_ n)) as Hp.
  cbv beta in Hp. subst mine. lia.
Qed.

(** ** Sending *)

(** What does not change in a message on its way. *)
Definition same_env (m m' : Msg) : Prop :=
  is_epoch_type m' = is_epoch_type m /\ epoch_ m' = epoch_ m /\ is_term m' = is_term m /\ obj_ m' = obj_ m /\ msg_id m' = msg_id m.

Lemma same_env_refl m : same_env m m.
Proof. done. Qed.

Lemma same_env_trans m1 m2 m3 : same_env m1 m2 -> same_env m2 m3 -> same_env m1 m3.
Proof. unfold same_env. intuition congruence. Qed.

Lemma same_env_w m m' : same_env m m' -> w_msg e m' = w_msg e m.
Proof. intros (H1 & H2 & H3 & _). unfold w_msg, msg_epoch. by rewrite H1, H2, H3. Qed.

Lemma bal_allocateNewTag : bal e 0 (allocateNewTag C) any.
Proof.
  unfold allocateNewTag. eapply bal_then; [apply bal_modify; intros n|intros _ _].
  - destruct (_ =? _); unfold holds; simpl; lia.
  - apply bal_get. intros n. eapply (bal_at_modify e 0 0); [unfold holds; simpl; lia|by apply bal_ret|done].
Qed.

Lemma bal_sendData dest tag : bal e 0 (sendData C dest tag) any.
Proof.
  unfold sendData. eapply bal_then.
  - instantiate (1 := any). destruct (negb _); [by apply bal_ret|apply bal_allocateNewTag].
  - intros t _. eapply bal_then; [by apply (bal_lift e _ any)|intros _ _].
    eapply bal_bind; [apply bal_emit|intros _ _; eapply bal_first; [apply bal_emit|intros _ _; by apply bal_ret]|]. simpl. unfold w_data. lia.
Qed.

Lemma bal_sendMsgBytes dest m : bal e 0 (sendMsgBytes C dest m) any.
Proof.
  unfold sendMsgBytes. eapply bal_then; [by apply (bal_lift e _ any)|intros _ _].
  eapply (bal_bind e (w_msg e m) (- w_msg e m)); [| |lia].
  - pose proof (bal_emit e (SendMsg dest m)) as H. simpl in H. by rewrite Z.sub_0_r in H.
  - intros _ _. unfold w_msg. destruct (is_term m); simpl; [apply bal_nop|].
    pose proof (bal_emit e (Produce (msg_epoch m) 1 dest)) as H. simpl in H. by replace (- counts e (msg_epoch m)) with (0 - counts e (msg_epoch m) * 1) by lia.
Qed.

Lemma bal_sendWithPut dest m : bal e 0 (sendMsgBytesWithPut C dest m) (same_env m).
Proof.
  unfold sendMsgBytesWithPut. eapply (bal_then e 0 _ _ (same_env m)).
  - destruct (_ && _); [|by apply bal_ret]. destruct (direct_buf_pack C m); [by apply bal_ret|].
    eapply bal_then; [apply bal_sendData|]. intros t _. apply bal_ret. by destruct (negb _).
  - intros m' Hm. eapply bal_then; [apply bal_sendMsgBytes|]. intros _ _. by apply bal_ret.
Qed.

Lemma bal_send_each dests m : bal e 0 (send_each C dests m) (same_env m).
Proof.
  revert m. induction dests as [|d dests IH]; intros m; simpl; [by apply bal_ret|].
  eapply bal_then; [apply bal_sendWithPut|]. intros m' Hm. eapply bal_weaken; [apply IH|]. intros m''. by apply same_env_trans.
Qed.

Lemma bal_groupHandler m from root : bal e 0 (groupHandler C m from root) (fun md => same_env m md.1).
Proof.
  unfold groupHandler. destruct (negb (is_pipe m)); [|by apply bal_ret]. destruct (is_bcast m); [|by apply bal_ret].
  apply bal_get. intros n. destruct (route (this_node n) m from root) as [dests deliver].
  eapply (bal_then e 0); [apply bal_send_each|]. intros m' Hm. by apply bal_ret.
Qed.

Lemma bal_dispatch m (term : bool) : bal e 0 (match obj_ m with Some proxy => dispatchObjGroup m proxy | None => makeRunnable_enqueue m term end) any.
Proof. destruct (obj_ m); [apply bal_dispatchObjGroup|apply bal_makeRunnable]. Qed.

Lemma bal_doMessageSend m : bal e 0 (doMessageSend C m) any.
Proof.
  unfold doMessageSend. apply bal_get. intros n. eapply (bal_then e 0); [apply bal_groupHandler|].
  intros [m' [|]] Hm; simpl in *; [|apply bal_nop]. destruct (negb _); [|apply bal_dispatch].
  eapply bal_then; [apply bal_sendWithPut|]. intros _ _. apply bal_nop.
Qed.

Lemma bal_PendingSend_make m : bal e 0 (PendingSend_make m) any.
Proof.
  unfold PendingSend_make. eapply bal_bind; [apply bal_produce| |].
  - intros _ _. apply (bal_modify e (w_ep e (getProduceEpochFromMsg m))). intros n. rewrite holds_held, lsum_snoc. unfold w_held. simpl. lia.
  - lia.
Qed.

Lemma keeps_send_each {X} (f : Node -> X) dests m : (forall d m', keeps f (sendMsgBytesWithPut C d m')) -> keeps f (send_each C dests m).
Proof. intros H. revert m. induction dests as [|d dests IH]; intros m; simpl; [apply keeps_pure|]. apply keeps_bind; [apply H|apply IH]. Qed.

Lemma keeps_sendWithPut_held d m : keeps held_ (sendMsgBytesWithPut C d m).
Proof. keep. Qed.

Lemma keeps_doMessageSend_held m : keeps held_ (doMessageSend C m).
Proof.
  unfold doMessageSend, groupHandler. apply keeps_get. intros n. apply keeps_bind.
  - destruct (negb _); [|apply keeps_pure]. destruct (is_bcast m); [|apply keeps_pure]. apply keeps_get. intros n'.
    destruct (route _ _ _ _) as [dests deliver]. apply keeps_bind; [apply keeps_send_each, keeps_sendWithPut_held|intros; apply keeps_pure].
  - intros [m' [|]]; simpl; keep.
Qed.

Lemma bal_PendingSend_release k : bal e 0 (PendingSend_release C k) any.
Proof.
  apply bal_get. intros n. destruct (held_ n !! k) as [h|] eqn:Eh; [|apply bal_nop].
  intros a n' os (u & n1 & o1 & o2 & E1 & E2 & ->)%eff_bind_inv. destruct (bal_doMessageSend _ _ _ _ _ E1) as [_ H1].
  pose proof (keeps_doMessageSend_held _ _ _ _ _ E1) as Hk.
  apply eff_bind_inv in E2 as (u' & n2 & o3 & o4 & E2 & [= <- <- <-] & ->).
  destruct (bal_consume (epoch_produced_ h) _ _ _ _ E2) as [_ H2].
  assert (held_ n2 = held_ n1) as Hk2 by (assert (keeps held_ (if negb (epoch_produced_ h =? no_epoch) then emit (Consume (epoch_produced_ h) 1 uninitialized_destination) else nop)) as Hkp by keep; by apply (Hkp _ _ _ _ E2)).
  split; [done|]. rewrite !net_app, net_nil, holds_held, (lsum_take_out _ _ _ h) by (by rewrite Hk2, Hk).
  change (w_held e h) with (w_ep e (epoch_produced_ h)). lia.
Qed.

Lemma bal_getEpoch : bal e 0 getEpoch any.
Proof. apply bal_get. intros n. destruct (epoch_stack_ n); [apply bal_stop|by apply bal_ret]. Qed.

Lemma bal_setupEpochMsg m : bal e 0 (setupEpochMsg m) any.
Proof.
  unfold setupEpochMsg. destruct (is_epoch_type m); [|by apply bal_ret]. eapply (bal_then e 0 _ _ any); [|intros; by apply bal_ret].
  unfold getEpochContextMsg. destruct (is_epoch_type m); [|by apply bal_ret]. destruct (_ && _); [by apply bal_ret|].
  eapply bal_then; [apply bal_getEpoch|]. intros ctx _. eapply bal_then; [apply bal_assert|]. intros _ _. by apply bal_ret.
Qed.

Lemma bal_sendMsg dest m : bal e 0 (sendMsgCopyableImpl dest m) any.
Proof. apply bal_get. intros n. eapply (bal_then e 0); [apply bal_setupEpochMsg|]. intros m' _. apply bal_PendingSend_make. Qed.

(** ** Receiving *)

Lemma bal_prepare m from : bal e (w_msg e m) (prepareActiveMsgToRun m from) any.
Proof.
  unfold prepareActiveMsgToRun. eapply bal_then; [apply bal_dispatch|]. intros _ _. unfold w_msg. destruct (is_term m); simpl; [apply bal_nop|].
  pose proof (bal_emit e (Consume (msg_epoch m) 1 from)) as H. simpl in H. by replace (counts e (msg_epoch m)) with (0 - - (counts e (msg_epoch m) * 1)) by lia.
Qed.

Lemma bal_processActiveMsg m from : bal e (w_msg e m) (processActiveMsg C m from) any.
Proof.
  unfold processActiveMsg. eapply bal_then; [apply bal_groupHandler|]. intros [m' [|]] Hm; simpl in *; rewrite <- (same_env_w _ _ Hm); [apply bal_prepare|].
  pose proof (bal_emit e (AmForwarded m')) as H. simpl in H. by rewrite Z.sub_0_r in H.
Qed.

Lemma bal_recvDataMsg tag sender m : bal e (w_msg e m) (recvDataMsg tag sender m) any.
Proof.
  apply bal_get. intros n. destruct (pending_recvs_ n !! tag) as [x|] eqn:Ex.
  - pose proof (bal_emit e (RecvIgnored m)) as H. simpl in H. rewrite Z.sub_0_r in H. apply H.
  - intros a n' os [= <- <- <-]. split; [done|]. rewrite net_nil, holds_pending, msum_insert, Ex. simpl. lia.
Qed.

Lemma bal_finishActive m sender : bal e (w_msg e m) (finishPendingActiveMsgAsyncRecv C m sender) any.
Proof. unfold finishPendingActiveMsgAsyncRecv. destruct (_ && _); [apply bal_recvDataMsg|apply bal_processActiveMsg]. Qed.

Lemma bal_tryIncoming m sender done : bal e (w_msg e m) (tryProcessIncomingActiveMsg C m sender done) any.
Proof.
  unfold tryProcessIncomingActiveMsg. destruct done; [apply bal_finishActive|]. apply bal_modify. intros n. rewrite holds_irecvs, lsum_snoc. simpl. lia.
Qed.

Lemma bal_testActive k : bal e 0 (testPendingActiveMsgAsyncRecv C k) any.
Proof.
  apply bal_get. intros n. destruct (in_progress_active_msg_irecv n !! k) as [[m sender]|] eqn:E; [|apply bal_nop].
  eapply bal_at_modify; [|apply bal_finishActive|].
  - rewrite holds_irecvs, (lsum_take_out _ _ _ _ E). simpl. instantiate (1 := - w_msg e m). lia.
  - lia.
Qed.

Lemma bal_finishData m sender : bal e (w_msg e m + w_data e) (finishPendingDataMsgAsyncRecv m sender) any.
Proof. apply bal_modify. intros n. rewrite holds_work, lsum_snoc. simpl. lia. Qed.

Lemma bal_tryData tag sender done n b n' os : tryProcessDataMsgRecv tag sender done n = Ok (b, n', os) ->
  holds e n' = holds e n + net e os + (if b then w_data e else 0).
Proof.
  unfold tryProcessDataMsgRecv. rewrite run_get. destruct (pending_recvs_ n !! tag) as [[m node]|] eqn:E; [|by intros [= <- <- <-]; rewrite net_nil; lia].
  destruct (node =? sender); [|by intros [= <- <- <-]; rewrite net_nil; lia].
  assert (forall n1, pending_recvs_ n1 = pending_recvs_ n -> holds e (with_pending (delete tag (pending_recvs_ n1)) n1) = holds e n1 - w_msg e m) as Hdel.
  { intros n1 Hn1. rewrite holds_pending, msum_delete, Hn1, E. simpl. lia. }
  destruct done; unfold finishPendingDataMsgAsyncRecv; rewrite !run_modify; intros Hx.
  - assert (b = true /\ n' = with_pending (delete tag (pending_recvs_ n)) (with_work (work_ n ++ [WNext m sender]) n) /\ os = []) as (-> & -> & ->) by by injection Hx.
    rewrite net_nil, (Hdel (with_work _ n) eq_refl), holds_work, lsum_snoc. simpl. lia.
  - assert (b = true /\ n' = with_pending (delete tag (pending_recvs_ n)) (with_data (in_progress_data_irecv n ++ [(m, sender)]) n) /\ os = []) as (-> & -> & ->) by by injection Hx.
    rewrite net_nil, (Hdel (with_data _ n) eq_refl), holds_data, lsum_snoc. simpl. lia.
Qed.

Lemma bal_testData k : bal e 0 (testPendingDataMsgAsyncRecv k) any.
Proof.
  apply bal_get. intros n. destruct (in_progress_data_irecv n !! k) as [[m sender]|] eqn:E; [|apply bal_nop].
  eapply bal_at_modify; [|apply bal_finishData|].
  - rewrite holds_data, (lsum_take_out _ _ _ _ E). simpl. instantiate (1 := - (w_msg e m + w_data e)). lia.
  - lia.
Qed.

(** ** Running *)

Lemma holds_stack l n : holds e (with_stack l n) = holds e n.
Proof. done. Qed.

Lemma bal_pushEpoch ep : bal e 0 (pushEpoch ep) any.
Proof. unfold pushEpoch. eapply bal_then; [apply bal_assert|]. intros _ _. apply bal_modify. intros n. rewrite holds_stack. lia. Qed.

Lemma bal_popEpoch ep : bal e 0 (popEpoch ep) any.
Proof.
  apply bal_get. intros n. destruct (epoch_stack_ n) as [|x rest]; [apply bal_stop|]. eapply (bal_then e 0); [apply bal_assert|]. intros _ _.
  apply bal_modify. intros n'. rewrite holds_stack. lia.
Qed.

Lemma bal_start_work k : bal e 0 (start_work C k) any.
Proof.
  apply bal_get. intros n. destruct (work_ n !! k) as [w|] eqn:E; [|apply bal_nop].
  eapply (bal_at_modify e (- w_work e w) (w_work e w)); [rewrite holds_work, (lsum_take_out _ _ _ _ E); lia| |lia]. destruct w as [td m|m sender]; simpl.
  - eapply bal_then; [instantiate (1 := any); destruct td; [apply bal_pushEpoch|apply bal_nop]|]. intros _ _.
    apply bal_modify. intros n'. rewrite holds_running, lsum_cons. lia.
  - eapply bal_bind; [apply bal_processActiveMsg|intros _ _; apply bal_emit|]. simpl. unfold w_data. lia.
Qed.

Lemma keeps_TD_finish_running ep : keeps running_ (TD_finish ep).
Proof. unfold TD_finish, popEpoch. keep. Qed.

Lemma bal_finish_work : bal e 0 finish_work any.
Proof.
  apply bal_get. intros n. destruct (running_ n) as [|td rest] eqn:Er; [apply bal_nop|].
  intros a n' os (u & n1 & o1 & o2 & E1 & [= <- <- <-] & ->)%eff_bind_inv.
  assert (bal e (w_td e td) (match td with Some ep => TD_finish ep | None => nop end) any) as Hb.
  { destruct td as [ep|]; [|apply bal_nop]. unfold TD_finish. eapply bal_then; [apply bal_popEpoch|]. intros _ _.
    pose proof (bal_emit e (Consume ep 1 uninitialized_destination)) as H. simpl in H. by replace (w_td e (Some ep)) with (0 - - (counts e ep * 1)) by (simpl; lia). }
  assert (running_ n1 = running_ n) as Hk by (destruct td as [ep|]; [by apply (keeps_TD_finish_running ep _ _ _ _ E1)|by injection E1 as _ <- _]).
  destruct (Hb _ _ _ _ E1) as [_ H1]. split; [done|]. rewrite net_app, net_nil, holds_running, Hk, Er, lsum_cons. lia.
Qed.

End ops.
End MOps.
