(* ===== verification/MessengerInvariant.v ===== *)
(** * Invariants of messages on their way

    What the nodes of [MessengerSystem.v] keep: predicates of messages and epochs that every
    operation preserves ([MsgPred], an interface with several instances), and the sum of the
    units of an epoch that are held and that are in flight. *)

From stdpp Require Import gmap.
From S2P Require Import Prelude.
From S2P Require Import Sums.
From S2P Require Import Effects.
From S2P Require Import Ids.
From S2P Require Import Epoch.
From S2P Require Import Messenger.
From S2P Require Import MessengerSystem.
Import EpochManip.
Import Messenger.

(** ** Predicates of messages and epochs that the nodes keep *)

Module MInv.
Import MSystem MBalance MOps.

(** [G] of the messages, [T] of the epochs. *)
Class MsgPred (G : Msg -> Prop) (T : Z -> Prop) := {
  mp_any : T any_epoch_sentinel;
  mp_none : T no_epoch;
  mp_epoch m : G m -> is_term m = false \/ obj_ m <> None -> T (msg_epoch m);
  mp_env m m' : same_env m m' -> (is_put m' = true -> is_put m = true) -> G m -> G m'
}.

(** A message that is given an epoch stays as the predicate says. *)
Class SetsEpoch (G : Msg -> Prop) (T : Z -> Prop) :=
  mp_set m ep : G m -> T ep -> epoch_ m = no_epoch -> is_epoch_type m = true -> G (with_epoch ep m).

(** The epoch in which the handler of a message runs. *)
Definition run_epoch (m : Msg) : Z := norm (extractEpochMsg m).

Section inv.
Context `{R : Router} (C : Config) {G : Msg -> Prop} {T : Z -> Prop} `{HP : !MsgPred G T}.

Definition td_ok (td : option Z) : Prop := match td with Some ep => T ep | None => True end.
Definition runs_in (m : Msg) (td : option Z) : Prop := td = Some (run_epoch m) \/ (is_term m = true /\ td = None).
Definition work_ok (w : Work) : Prop :=
  match w with
  | WRun td m => td_ok td /\ match m with Some m => G m /\ runs_in m td | None => True end
  | WNext m _ => G m
  end.
Definition held_ok (h : Held) : Prop := G (h_msg h) /\ epoch_produced_ h = getProduceEpochFromMsg (h_msg h).

Record node_ok (n : Node) : Prop := MkNodeOk {
  no_stack : Forall T (epoch_stack_ n);
  no_work : Forall work_ok (work_ n);
  no_running : Forall td_ok (running_ n);
  no_held : Forall held_ok (held_ n);
  no_irecvs : Forall (fun p => G p.1) (in_progress_active_msg_irecv n);
  no_pending : map_Forall (fun _ p => G p.1) (pending_recvs_ n);
  no_data : Forall (fun p => G p.1) (in_progress_data_irecv n);
  no_objs : Forall (fun p => G p.2 /\ obj_ p.2 <> None) (obj_pending_ n)
}.

Definition out_ok (o : output) : Prop :=
  match o with
  | Produce ep _ _ | Consume ep _ _ => T ep
  | SendMsg d m => valid_dest C d = true /\ G m
  | SendData d _ => valid_dest C d = true
  | AmForwarded m => exists n m' from, (route n m' from false).2 = false
  | RecvIgnored m => G m /\ is_put m = true
  end.

Definition inv_at {A} (n : Node) (op : M A) (P : A -> Prop) : Prop :=
  forall a n' os, node_ok n -> op n = Ok (a, n', os) -> node_ok n' /\ Forall out_ok os /\ P a.
Definition inv {A} (op : M A) (P : A -> Prop) : Prop := forall n, inv_at n op P.

Lemma inv_bind {A B} (op : M A) (f : A -> M B) P Q : inv op P -> (forall a, P a -> inv (f a) Q) -> inv (op ≫= f) Q.
Proof.
  intros H1 H2 n b n' os Hn (a & n1 & o1 & o2 & E1 & E2 & ->)%eff_bind_inv.
  destruct (H1 _ _ _ _ Hn E1) as (Hn1 & Ho1 & Ha). destruct (H2 a Ha _ _ _ _ Hn1 E2) as (Hn2 & Ho2 & Hb).
  split_and!; [done|by apply Forall_app|done].
Qed.

Lemma inv_weaken {A} (op : M A) (P Q : A -> Prop) : inv op P -> (forall a, P a -> Q a) -> inv op Q.
Proof. intros H HPQ n a n' os Hn E. destruct (H _ _ _ _ Hn E) as (? & ? & ?). auto. Qed.

Lemma inv_ret {A} (a : A) (P : A -> Prop) : P a -> inv (mret a) P.
Proof. intros H n ? n' os Hn [= <- <- <-]. by split_and!. Qed.

Lemma inv_nop : inv nop any.
Proof. by apply inv_ret. Qed.

Lemma inv_lift {A} (r : res A) (P : A -> Prop) : (forall a, r = Ok a -> P a) -> inv (lift r) P.
Proof. intros H n a n' os Hn. unfold lift. destruct r as [x|]; [|done]. intros [= <- <- <-]. split_and!; [done|done|auto]. Qed.

Lemma inv_assert b : inv (assert_ b) (fun _ => b = true).
Proof. intros n a n' os Hn. unfold assert_, vtAssert. destruct b; [|done]. by intros [= <- <- <-]. Qed.

Lemma inv_emit o : out_ok o -> inv (emit o) any.
Proof. intros Ho n a n' os Hn [= <- <- <-]. split_and!; [done|by constructor|done]. Qed.

Lemma inv_modify f : (forall n, node_ok n -> node_ok (f n)) -> inv (modify f) any.
Proof. intros H n a n' os Hn [= <- <- <-]. split_and!; auto. Qed.

Lemma inv_get {A} (f : Node -> M A) Q : (forall n, node_ok n -> inv (f n) Q) -> inv (get ≫= f) Q.
Proof. intros H n a n' os Hn. rewrite run_get. by apply H. Qed.

Lemma inv_each {A} (l : list A) (g : A -> M unit) : (forall a, a ∈ l -> inv (g a) any) -> inv (for_each l g) any.
Proof.
  intros H. induction l as [|a l IH]; [apply inv_nop|]. eapply inv_bind; [apply H; set_solver|]. intros _ _. apply IH. set_solver.
Qed.

Lemma Forall_snoc_2 {A} (Q : A -> Prop) l a : Forall Q l -> Q a -> Forall Q (l ++ [a]).
Proof. intros. apply Forall_app. split; [done|by constructor]. Qed.

Lemma Forall_take_out {A} (Q : A -> Prop) k l : Forall Q l -> Forall Q (take_out k l).
Proof. intros H. apply Forall_app. split; [by apply Forall_take|by apply Forall_drop]. Qed.

Lemma Forall_filter_2 {A} (Q : A -> Prop) p l : Forall Q l -> Forall Q (List.filter p l).
Proof. induction 1 as [|a l Ha _ IH]; simpl; [constructor|]. by destruct (p a); [constructor|]. Qed.

(** Changing one field. *)
Lemma ok_stack n l : node_ok n -> Forall T l -> node_ok (with_stack l n).
Proof. intros [] ?. by split. Qed.
Lemma ok_work n l : node_ok n -> Forall work_ok l -> node_ok (with_work l n).
Proof. intros [] ?. by split. Qed.
Lemma ok_running n l : node_ok n -> Forall td_ok l -> node_ok (with_running l n).
Proof. intros [] ?. by split. Qed.
Lemma ok_held n l : node_ok n -> Forall held_ok l -> node_ok (with_held l n).
Proof. intros [] ?. by split. Qed.
Lemma ok_irecvs n l : node_ok n -> Forall (fun p => G p.1) l -> node_ok (with_irecvs l n).
Proof. intros [] ?. by split. Qed.
Lemma ok_pending n m : node_ok n -> map_Forall (fun _ p => G p.1) m -> node_ok (with_pending m n).
Proof. intros [] ?. by split. Qed.
Lemma ok_data n l : node_ok n -> Forall (fun p => G p.1) l -> node_ok (with_data l n).
Proof. intros [] ?. by split. Qed.
Lemma ok_objs n o l : node_ok n -> Forall (fun p => G p.2 /\ obj_ p.2 <> None) l -> node_ok (with_objs o l n).
Proof. intros [] ?. by split. Qed.
Lemma ok_tag n t : node_ok n -> node_ok (with_tag t n).
Proof. intros []. by split. Qed.

(** ** The operations *)

Lemma T_norm ep : T ep -> T (if ep =? no_epoch then any_epoch_sentinel else ep).
Proof. intros H. destruct (_ =? _); [apply mp_any|done]. Qed.

Lemma inv_TD_make ep : T ep -> inv (TD_make ep) (fun ep' => T ep' /\ ep' = norm ep).
Proof. intros H. eapply inv_bind; [apply inv_emit; by apply T_norm|]. intros _ _. apply inv_ret. split; [by apply T_norm|done]. Qed.

Lemma T_extract m : G m -> T (extractEpochMsg m).
Proof. intros H. unfold extractEpochMsg. destruct (is_term m) eqn:E; simpl; [apply mp_none|]. apply T_norm, mp_epoch; [done|by left]. Qed.

Lemma inv_enqueue w : work_ok w -> inv (modify (fun n => with_work (work_ n ++ [w]) n)) any.
Proof. intros H. apply inv_modify. intros n Hn. apply ok_work; [done|]. apply Forall_snoc_2; [by apply no_work|done]. Qed.

Lemma inv_makeRunnable m term : G m -> (term = true -> is_term m = true) -> inv (makeRunnable_enqueue m term) any.
Proof.
  intros H Ht. unfold makeRunnable_enqueue. eapply (inv_bind _ _ (fun td => td_ok td /\ runs_in m td)).
  - destruct term; simpl; [apply inv_ret; split; [done|right; auto]|]. eapply inv_bind; [by apply inv_TD_make, T_extract|].
    intros ep [Hep ->]. apply inv_ret. split; [done|by left].
  - intros td [Htd Hr]. by apply inv_enqueue.
Qed.

Lemma inv_makeRunnableVoid ep : T ep -> inv (makeRunnableVoid_enqueue ep) any.
Proof. intros H. eapply inv_bind; [by apply inv_TD_make|]. intros ep' [Hep _]. by apply inv_enqueue. Qed.

Lemma inv_unit ep o : T ep -> (T ep -> out_ok o) -> inv (if negb (ep =? no_epoch) then emit o else nop) any.
Proof. intros H Ho. destruct (negb _); [by apply inv_emit, Ho|apply inv_nop]. Qed.

Lemma inv_getEpoch_msg m : inv (lift (envelopeGetEpoch m)) (fun ep => ep = msg_epoch m).
Proof. apply inv_lift. intros ep. unfold envelopeGetEpoch, msg_epoch. intros [-> [= ->]]%vtAssert_Ok. done. Qed.

Lemma inv_dispatchObjGroup m proxy : G m -> obj_ m <> None -> inv (dispatchObjGroup m proxy) any.
Proof.
  intros H Ho. apply inv_get. intros n Hn. destruct (decide _); [by apply inv_makeRunnable|].
  eapply inv_bind; [apply inv_getEpoch_msg|]. intros ep ->. eapply inv_bind; [apply inv_unit; [apply mp_epoch; auto|done]|]. intros _ _.
  apply inv_modify. intros n' Hn'. apply ok_objs; [done|]. apply Forall_snoc_2; [by apply no_objs|done].
Qed.

Lemma inv_run_pending p : G p.2 -> obj_ p.2 <> None -> inv (run_pending p) any.
Proof.
  intros H Ho. eapply inv_bind; [apply inv_getEpoch_msg|]. intros ep ->. eapply inv_bind; [by apply inv_makeRunnable|]. intros _ _.
  apply inv_unit; [apply mp_epoch; auto|done].
Qed.

Lemma inv_regObjProxy proxy : inv (regObjProxy proxy) any.
Proof.
  apply inv_get. intros n Hn. eapply inv_bind; [apply inv_modify; intros n' Hn'; apply ok_objs; [done|by apply no_objs]|]. intros _ _.
  eapply inv_bind.
  - apply inv_each. intros p Hp.
    pose proof (Forall_filter_2 _ (fun p => p.1 =? proxy) _ (no_objs n Hn)) as HF. rewrite Forall_forall in HF.
    destruct (HF p Hp). by apply inv_run_pending.
  - intros _ _. apply inv_modify. intros n' Hn'. apply ok_objs; [done|]. apply Forall_filter_2. by apply no_objs.
Qed.

(** What a message keeps on its way, with its put flag. *)
Definition on_way (m m' : Msg) : Prop := same_env m m' /\ is_put m' = is_put m.

Lemma on_way_refl m : on_way m m.
Proof. done. Qed.

Lemma on_way_trans m1 m2 m3 : on_way m1 m2 -> on_way m2 m3 -> on_way m1 m3.
Proof. intros [H1 E1] [H2 E2]. split; [by eapply same_env_trans|congruence]. Qed.

Lemma G_on_way m m' : on_way m m' -> G m -> G m'.
Proof. intros [H E]. apply mp_env; [done|by rewrite E]. Qed.

Lemma inv_allocateNewTag : inv (allocateNewTag C) any.
Proof.
  eapply inv_bind; [apply inv_modify; intros n Hn; destruct (_ =? _); [by apply ok_tag|done]|]. intros _ _.
  apply inv_get. intros n _. eapply inv_bind; [apply inv_modify; intros n' Hn'; by apply ok_tag|]. intros _ _. by apply inv_ret.
Qed.

Lemma inv_valid d : inv (lift (vtAbortIf (negb (valid_dest C d)) (Ok tt))) (fun _ => valid_dest C d = true).
Proof. apply inv_lift. intros a. unfold vtAbortIf. by destruct (valid_dest C d). Qed.

Lemma inv_sendData d tag : inv (sendData C d tag) any.
Proof.
  eapply (inv_bind _ _ any); [destruct (negb _); [by apply inv_ret|apply inv_allocateNewTag]|]. intros t _.
  eapply inv_bind; [apply inv_valid|]. intros u Hd. eapply inv_bind; [by apply inv_emit|]. intros _ _.
  eapply inv_bind; [apply inv_emit, mp_any|]. intros _ _. by apply inv_ret.
Qed.

Lemma inv_sendMsgBytes d m : G m -> inv (sendMsgBytes C d m) any.
Proof.
  intros H. unfold sendMsgBytes. eapply inv_bind; [apply inv_valid|]. intros u Hd. eapply inv_bind; [by apply inv_emit|]. intros _ _.
  destruct (is_term m) eqn:Et; simpl; [apply inv_nop|]. apply inv_emit, mp_epoch; auto.
Qed.

Lemma inv_sendWithPut d m : G m -> inv (sendMsgBytesWithPut C d m) (on_way m).
Proof.
  intros H. unfold sendMsgBytesWithPut. eapply (inv_bind _ _ (on_way m)).
  - destruct (_ && _); [|by apply inv_ret]. destruct (direct_buf_pack C m); [by apply inv_ret|].
    eapply inv_bind; [apply inv_sendData|]. intros t _. apply inv_ret. by destruct (negb _).
  - intros m' Hm. eapply inv_bind; [by apply inv_sendMsgBytes, (G_on_way m)|]. intros _ _. by apply inv_ret.
Qed.

Lemma inv_send_each dests m : G m -> inv (send_each C dests m) (on_way m).
Proof.
  revert m. induction dests as [|d dests IH]; intros m H; simpl; [by apply inv_ret|].
  eapply inv_bind; [by apply inv_sendWithPut|]. intros m' Hm. eapply inv_weaken; [by apply IH, (G_on_way m)|]. intros m''. by apply on_way_trans.
Qed.

Lemma inv_groupHandler m from root : G m ->
  inv (groupHandler C m from root) (fun md => on_way m md.1 /\ (md.2 = true \/ exists n, (route n m from root).2 = false)).
Proof.
  intros H. unfold groupHandler. destruct (negb (is_pipe m)); [|apply inv_ret; auto using on_way_refl]. destruct (is_bcast m); [|apply inv_ret; auto using on_way_refl].
  apply inv_get. intros n Hn. destruct (route (this_node n) m from root) as [dests deliver] eqn:E.
  eapply inv_bind; [by apply inv_send_each|]. intros m' Hm. apply inv_ret. split; [done|]. destruct deliver; [by left|right]. exists (this_node n). by rewrite E.
Qed.

Lemma inv_dispatch m (term : bool) : G m -> (term = true -> is_term m = true) -> inv (match obj_ m with Some proxy => dispatchObjGroup m proxy | None => makeRunnable_enqueue m term end) any.
Proof. intros H Ht. destruct (obj_ m) eqn:Eo; [apply inv_dispatchObjGroup; [done|by rewrite Eo]|by apply inv_makeRunnable]. Qed.

Lemma inv_doMessageSend m : G m -> inv (doMessageSend C m) any.
Proof.
  intros H. apply inv_get. intros n Hn. eapply inv_bind; [by apply inv_groupHandler|].
  intros [m' [|]] [Hm _]; simpl in *; [|apply inv_nop]. pose proof (G_on_way _ _ Hm H). destruct (negb _); [|by apply inv_dispatch].
  eapply inv_bind; [by apply inv_sendWithPut|]. intros _ _. apply inv_nop.
Qed.

Lemma T_produce m : G m -> T (getProduceEpochFromMsg m).
Proof.
  intros H. pose proof (mp_epoch m H) as Hm. unfold getProduceEpochFromMsg, msg_epoch in *. destruct (is_term m); simpl; [apply mp_none|].
  specialize (Hm (or_introl eq_refl)).
  destruct (is_epoch_type m); simpl; [done|apply mp_none].
Qed.

Lemma inv_PendingSend_make m : G m -> inv (PendingSend_make m) any.
Proof.
  intros H. unfold PendingSend_make. eapply inv_bind; [by apply inv_unit; [apply T_produce|]|]. intros _ _.
  apply inv_modify. intros n Hn. apply ok_held; [done|]. apply Forall_snoc_2; [by apply no_held|done].
Qed.

Lemma inv_PendingSend_release k : inv (PendingSend_release C k) any.
Proof.
  apply inv_get. intros n Hn. destruct (held_ n !! k) as [h|] eqn:E; [|apply inv_nop].
  destruct (Forall_lookup_1 _ _ _ _ (no_held n Hn) E) as [Hg He].
  eapply inv_bind; [by apply inv_doMessageSend|]. intros _ _. eapply inv_bind; [apply inv_unit; [rewrite He; by apply T_produce|done]|]. intros _ _.
  apply inv_modify. intros n' Hn'. apply ok_held; [done|]. apply Forall_take_out. by apply no_held.
Qed.

Lemma inv_getEpoch : inv getEpoch T.
Proof.
  apply inv_get. intros n Hn. pose proof (no_stack n Hn) as Hs. destruct (epoch_stack_ n) as [|ep rest]; [by apply inv_lift|].
  apply Forall_cons in Hs as [? _]. by apply inv_ret.
Qed.

(** The epoch a message is given, if it has none. *)
Lemma setupEpochMsg_spec m n m' n' os : setupEpochMsg m n = Ok (m', n', os) ->
  n' = n /\ os = [] /\
  (m' = m \/ exists ep rest, is_epoch_type m = true /\ epoch_ m = no_epoch /\ epoch_stack_ n = ep :: rest /\ m' = with_epoch ep m).
Proof.
  unfold setupEpochMsg, getEpochContextMsg. destruct (is_epoch_type m); [|intros [= <- <- <-]; auto].
  destruct (Z.eqb_spec (epoch_ m) no_epoch) as [He|He]; simpl.
  - intros (ep & n1 & o1 & o2 & (ctx & n2 & o3 & o4 & E1 & E2 & ->)%eff_bind_inv & [= <- <- <-] & ->)%eff_bind_inv.
    unfold getEpoch in E1. rewrite run_get in E1. destruct (epoch_stack_ n) as [|c rest]; [done|]. injection E1 as <- <- <-.
    unfold assert_, vtAssert in E2. destruct (negb (c =? no_epoch)); [|done]. injection E2 as <- <- <-.
    split_and!; try done. destruct (negb (c =? any_epoch_sentinel)); [right; by exists c, rest|by left].
  - destruct (negb (epoch_ m =? any_epoch_sentinel)).
    + intros (ep & n1 & o1 & o2 & [= <- <- <-] & [= <- <- <-] & ->)%eff_bind_inv. auto.
    + intros (ep & n1 & o1 & o2 & (ctx & n2 & o3 & o4 & E1 & E2 & ->)%eff_bind_inv & [= <- <- <-] & ->)%eff_bind_inv.
      unfold getEpoch in E1. rewrite run_get in E1. destruct (epoch_stack_ n) as [|c rest]; [done|]. injection E1 as <- <- <-.
      unfold assert_, vtAssert in E2. destruct (negb (c =? no_epoch)); [|done]. injection E2 as <- <- <-. auto.
Qed.

(** What is sent is as the predicate says. *)
Definition sends_good (n : Node) (m : Msg) : Prop := forall d m' n' os, setupEpochMsg (with_dest d m) n = Ok (m', n', os) -> G m'.

Lemma inv_sendMsg n d m : sends_good n m -> inv_at n (sendMsgCopyableImpl d m) any.
Proof.
  intros H a n' os Hn. unfold sendMsgCopyableImpl. rewrite run_get. intros (m' & n1 & o1 & o2 & E1 & E2 & ->)%eff_bind_inv.
  pose proof (H _ _ _ _ E1) as Hm. destruct (setupEpochMsg_spec _ _ _ _ _ E1) as (-> & -> & _). by apply (inv_PendingSend_make m' Hm n a).
Qed.

Lemma good_sends n m : SetsEpoch G T -> node_ok n -> G m -> sends_good n m.
Proof.
  intros Hset Hn H d m' n' os E. assert (G (with_dest d m)) as Hd by by apply (mp_env m).
  destruct (setupEpochMsg_spec _ _ _ _ _ E) as (_ & _ & [->|(ep & rest & Ht & He & Hs & ->)]); [done|].
  apply mp_set; try done. pose proof (no_stack n Hn) as HF. rewrite Hs in HF. by apply Forall_cons in HF as [? _].
Qed.

Lemma inv_prepare m from : G m -> inv (prepareActiveMsgToRun m from) any.
Proof.
  intros H. unfold prepareActiveMsgToRun. eapply inv_bind; [by apply inv_dispatch|]. intros _ _.
  destruct (is_term m) eqn:Et; simpl; [apply inv_nop|]. apply inv_emit, mp_epoch; auto.
Qed.

Lemma inv_processActiveMsg m from : G m -> inv (processActiveMsg C m from) any.
Proof.
  intros H. eapply inv_bind; [by apply inv_groupHandler|]. intros [m' [|]] [Hm Hr]; simpl in *; [by apply inv_prepare, (G_on_way m)|].
  apply inv_emit. destruct Hr as [?|[n Hr]]; [done|]. by exists n, m, from.
Qed.

Lemma inv_recvDataMsg tag sender m : G m -> is_put m = true -> inv (recvDataMsg tag sender m) any.
Proof.
  intros H Hp. apply inv_get. intros n Hn. destruct (_ !! tag) as [x|] eqn:E; [by apply inv_emit|].
  apply inv_modify. intros n' Hn'. apply ok_pending; [done|]. apply map_Forall_insert_2; [done|by apply no_pending].
Qed.

Lemma inv_finishActive m sender : G m -> inv (finishPendingActiveMsgAsyncRecv C m sender) any.
Proof.
  intros H. unfold finishPendingActiveMsgAsyncRecv. destruct (is_put m) eqn:Ep; simpl; [|by apply inv_processActiveMsg].
  destruct (negb _); [by apply inv_recvDataMsg|by apply inv_processActiveMsg].
Qed.

Lemma inv_tryIncoming m sender b : G m -> inv (tryProcessIncomingActiveMsg C m sender b) any.
Proof.
  intros H. unfold tryProcessIncomingActiveMsg. destruct b; [by apply inv_finishActive|]. apply inv_modify. intros n Hn.
  apply ok_irecvs; [done|]. apply Forall_snoc_2; [by apply no_irecvs|done].
Qed.

Lemma inv_testActive k : inv (testPendingActiveMsgAsyncRecv C k) any.
Proof.
  apply inv_get. intros n Hn. destruct (_ !! k) as [[m sender]|] eqn:E; [|apply inv_nop].
  pose proof (Forall_lookup_1 _ _ _ _ (no_irecvs n Hn) E) as Hm. eapply inv_bind; [apply inv_modify; intros n' Hn'|intros _ _; by apply inv_finishActive].
  apply ok_irecvs; [done|]. apply Forall_take_out. by apply no_irecvs.
Qed.

Lemma inv_finishData m sender : G m -> inv (finishPendingDataMsgAsyncRecv m sender) any.
Proof. intros H. by apply (inv_enqueue (WNext m sender)). Qed.

Lemma inv_tryData tag sender b : inv (tryProcessDataMsgRecv tag sender b) any.
Proof.
  apply inv_get. intros n Hn. destruct (_ !! tag) as [[m node]|] eqn:E; [|by apply inv_ret]. destruct (node =? sender); [|by apply inv_ret].
  pose proof (no_pending n Hn _ _ E) as Hm. eapply (inv_bind _ _ any).
  - destruct b; [by apply inv_finishData|]. apply inv_modify. intros n' Hn'. apply ok_data; [done|]. apply Forall_snoc_2; [by apply no_data|done].
  - intros _ _. eapply inv_bind; [apply inv_modify; intros n' Hn'|intros _ _; by apply inv_ret].
    apply ok_pending; [done|]. apply map_Forall_delete. by apply no_pending.
Qed.

Lemma inv_testData k : inv (testPendingDataMsgAsyncRecv k) any.
Proof.
  apply inv_get. intros n Hn. destruct (_ !! k) as [[m sender]|] eqn:E; [|apply inv_nop].
  pose proof (Forall_lookup_1 _ _ _ _ (no_data n Hn) E) as Hm. eapply inv_bind; [apply inv_modify; intros n' Hn'|intros _ _; by apply inv_finishData].
  apply ok_data; [done|]. apply Forall_take_out. by apply no_data.
Qed.

Lemma inv_pushEpoch ep : T ep -> inv (pushEpoch ep) any.
Proof.
  intros H. eapply inv_bind; [apply inv_assert|]. intros _ _. apply inv_modify. intros n Hn. apply ok_stack; [done|]. constructor; [done|by apply no_stack].
Qed.

Lemma inv_popEpoch ep : inv (popEpoch ep) any.
Proof.
  apply inv_get. intros n Hn. pose proof (no_stack n Hn) as Hs. destruct (epoch_stack_ n) as [|x rest]; [by apply inv_lift|]. apply Forall_cons in Hs as [_ Hs].
  eapply inv_bind; [apply inv_assert|]. intros _ _. apply inv_modify. intros n' Hn'. by apply ok_stack.
Qed.

Lemma inv_start_work k : inv (start_work C k) any.
Proof.
  apply inv_get. intros n Hn. destruct (work_ n !! k) as [w|] eqn:E; [|apply inv_nop].
  pose proof (Forall_lookup_1 _ _ _ _ (no_work n Hn) E) as Hw.
  eapply inv_bind; [apply inv_modify; intros n' Hn'; apply ok_work; [done|apply Forall_take_out; by apply no_work]|]. intros _ _.
  destruct w as [td m|m sender]; simpl in Hw.
  - destruct Hw as [Hw _]. eapply (inv_bind _ _ any); [destruct td; [by apply inv_pushEpoch|apply inv_nop]|]. intros _ _.
    apply inv_modify. intros n' Hn'. apply ok_running; [done|]. constructor; [done|by apply no_running].
  - eapply inv_bind; [by apply inv_processActiveMsg|]. intros _ _. by apply inv_emit, mp_any.
Qed.

Lemma inv_finish_work : inv finish_work any.
Proof.
  apply inv_get. intros n Hn. pose proof (no_running n Hn) as Hr. destruct (running_ n) as [|td rest]; [apply inv_nop|]. apply Forall_cons in Hr as [Ht Hr].
  eapply (inv_bind _ _ any).
  - destruct td as [ep|]; [|apply inv_nop]. eapply inv_bind; [apply inv_popEpoch|]. intros _ _. by apply inv_emit.
  - intros _ _. apply inv_modify. intros n' Hn'. by apply ok_running.
Qed.

(** ** All nodes *)

Definition N : Z := num_nodes C.

Record sys_ok (s : Sys) : Prop := MkSysOk {
  so_nodes : forall n, 0 <= n < N -> node_ok (nodes s n);
  so_wire : Forall (fun p => (0 <= p.1.1 < N) /\ G p.2) (wire s);
  so_data : Forall (fun p => 0 <= p.1.1 < N) (data s)
}.

(** What the user's code may do in a state; and what it may name in any. *)
Definition fits (s : Sys) (l : label) : Prop :=
  label_ok C l /\
  match l with LSend n _ m => sends_good (nodes s n) m | LPush _ ep | LMake _ ep => T ep | _ => True end.
Definition allowed (l : label) : Prop :=
  label_ok C l /\
  match l with LSend _ _ m => G m | LPush _ ep | LMake _ ep => T ep | _ => True end.

Fixpoint fits_run (ls : list label) (s : Sys) : Prop :=
  match ls with [] => True | l :: ls => fits s l /\ forall s', exec C l s = Ok s' -> fits_run ls s' end.

Lemma valid_range d : valid_dest C d = true -> 0 <= d < N.
Proof. unfold valid_dest, N. rewrite negb_true_iff, orb_false_iff, Z.leb_gt, Z.ltb_ge. lia. Qed.

Lemma sends_ok n os : Forall out_ok os -> Forall (fun p : Z * Z * Msg => (0 <= p.1.1 < N) /\ G p.2) (sends n os).
Proof.
  induction 1 as [|o os Ho _ IH]; [constructor|]. destruct o; try exact IH. destruct Ho as [Hd Hg].
  constructor; [split; [by apply valid_range|done]|exact IH].
Qed.

Lemma sends_data_ok n os : Forall out_ok os -> Forall (fun p : Z * Z * Z => 0 <= p.1.1 < N) (sends_data n os).
Proof. induction 1 as [|o os Ho _ IH]; [constructor|]. destruct o; try exact IH. constructor; [by apply valid_range|exact IH]. Qed.

Lemma on_node_ok {A} n (op : M A) s a s' P : 0 <= n < N -> inv_at (nodes s n) op P -> sys_ok s -> on_node n op s = Ok (a, s') ->
  sys_ok s' /\ exists os, trace s' = trace s ++ (pair n <$> os) /\ Forall out_ok os.
Proof.
  intros Hr Hop [Hn Hw Hd]. unfold on_node. destruct (op (nodes s n)) as [[[b x] os]|] eqn:E; [|done]. intros [= <- <-].
  destruct (Hop _ _ _ (Hn n Hr) E) as (Hx & Ho & _). split; [|by exists os]. split; simpl.
  - intros i Hi. destruct (decide (i = n)) as [->|Hne]; [by rewrite fn_lookup_insert|rewrite fn_lookup_insert_ne by done; auto].
  - apply Forall_app. split; [done|by apply sends_ok].
  - apply Forall_app. split; [done|by apply sends_data_ok].
Qed.

Lemma run1_ok n (op : M unit) s s' P : 0 <= n < N -> inv_at (nodes s n) op P -> sys_ok s -> run1 n op s = Ok s' ->
  sys_ok s' /\ exists os, trace s' = trace s ++ os /\ Forall (fun p => out_ok p.2) os.
Proof.
  intros Hr Hop Hs. unfold run1. destruct (on_node n op s) as [[a s1]|] eqn:E; [|done]. intros [= <-].
  destruct (on_node_ok _ _ _ _ _ _ Hr Hop Hs E) as (H1 & os & Ht & Ho). split; [done|]. exists (pair n <$> os). split; [done|]. by apply Forall_fmap.
Qed.

Lemma exec_ok l s s' : fits s l -> sys_ok s -> exec C l s = Ok s' ->
  sys_ok s' /\ exists os, trace s' = trace s ++ os /\ Forall (fun p => out_ok p.2) os.
Proof.
  intros [Hl Ha] Hs. assert (sys_ok s /\ exists os, trace s = trace s ++ os /\ Forall (fun p => out_ok p.2) os) as Hsame.
  { split; [done|]. exists []. by rewrite app_nil_r. }
  destruct l as [k b|n k|k b|n k|n k|n|n k|n d m|n ep|n ep|n ep|n proxy]; simpl.
  - destruct (wire s !! k) as [[[d from] m]|] eqn:E; [|by intros [= <-]].
    destruct (Forall_lookup_1 _ _ _ _ (so_wire s Hs) E) as [Hd Hg]. intros Hr. simpl in *.
    destruct (run1_ok d _ (with_wire (take_out k (wire s)) s) s' _ Hd (inv_tryIncoming m from b Hg _)) as (H1 & os & Ht & Ho); [|done|by split; [|exists os]].
    destruct Hs as [H1 H2 H3]. split; simpl; [done|by apply Forall_take_out|done].
  - eapply run1_ok; [done|by apply inv_testActive|done].
  - destruct (data s !! k) as [[[d from] tag]|] eqn:E; [|by intros [= <-]].
    pose proof (Forall_lookup_1 _ _ _ _ (so_data s Hs) E) as Hd. simpl in Hd.
    destruct (on_node d (tryProcessDataMsgRecv tag from b) s) as [[r s1]|] eqn:E1; [|done]. simpl.
    destruct (on_node_ok _ _ _ _ _ _ Hd (inv_tryData tag from b _) Hs E1) as ([H1 H2 H3] & os & Ht & Ho). intros [= <-].
    assert (Forall (fun p => out_ok p.2) (pair d <$> os)) by by apply Forall_fmap.
    destruct r; simpl; (split; [|by exists (pair d <$> os)]); split; simpl; try done. by apply Forall_take_out.
  - eapply run1_ok; [done|by apply inv_testData|done].
  - eapply run1_ok; [done|by apply inv_start_work|done].
  - eapply run1_ok; [done|by apply inv_finish_work|done].
  - eapply run1_ok; [done|by apply inv_PendingSend_release|done].
  - eapply run1_ok; [done|by apply inv_sendMsg|done].
  - eapply run1_ok; [done|by apply inv_pushEpoch|done].
  - eapply run1_ok; [done|by apply inv_popEpoch|done].
  - eapply run1_ok; [done|by apply inv_makeRunnableVoid|done].
  - eapply run1_ok; [done|by apply inv_regObjProxy|done].
Qed.

Lemma run_ok ls s s' : fits_run ls s -> sys_ok s -> run C ls s = Ok s' ->
  sys_ok s' /\ exists os, trace s' = trace s ++ os /\ Forall (fun p => out_ok p.2) os.
Proof.
  revert s. induction ls as [|l ls IH]; intros s Hl Hs; simpl.
  - intros [= <-]. split; [done|]. exists []. by rewrite app_nil_r.
  - destruct Hl as [Hl Hls]. intros (s1 & E1 & E2)%bind_Ok_inv. destruct (exec_ok _ _ _ Hl Hs E1) as (H1 & os1 & T1 & O1).
    destruct (IH s1 (Hls s1 E1) H1 E2) as (H2 & os2 & T2 & O2). split; [done|]. exists (os1 ++ os2). rewrite T2, T1, app_assoc.
    split; [done|by apply Forall_app].
Qed.

Lemma allowed_fits s l : SetsEpoch G T -> allowed l -> sys_ok s -> fits s l.
Proof. intros Hset [Hl Ha] Hs. split; [done|]. destruct l; try done. apply good_sends; [done| |done]. by apply so_nodes. Qed.

Lemma allowed_run ls s : SetsEpoch G T -> Forall allowed ls -> sys_ok s -> fits_run ls s.
Proof.
  intros Hset Hl. revert s. induction Hl as [|l ls Hl _ IH]; intros s Hs; simpl; [done|]. pose proof (allowed_fits s l Hset Hl Hs) as Hf.
  split; [done|]. intros s' E. apply IH. by destruct (exec_ok _ _ _ Hf Hs E).
Qed.

Lemma init_ok : sys_ok init.
Proof. split; [|constructor|constructor]. intros n _. split; simpl; try constructor; [apply mp_any|constructor|]. apply map_Forall_empty. Qed.

End inv.
End MInv.

(** ** Units are conserved *)

Module MLaw.
Import MSystem MBalance MOps MInv.

(** All messages and epochs. *)
#[export] Instance all_pred : MsgPred (fun _ => True) (fun _ => True).
Proof. by split. Qed.
#[export] Instance all_sets : SetsEpoch (fun _ => True) (fun _ => True).
Proof. done. Qed.

(** All that counts for an epoch: on the nodes, and in flight. *)
Definition total (C : Config) (e : Z) (s : Sys) : Z :=
  zsum (num_nodes C) (fun n => holds e (nodes s n)) + lsum (fun p => w_msg e p.2) (wire s) + lsum (fun _ => w_data e) (data s).
Definition made (e : Z) (s : Sys) : Z := lsum (fun p => units e p.2) (trace s).
Definition gone (e : Z) (s : Sys) : Z := lsum (fun p => lost e p.2) (trace s).
Definition law (C : Config) (e : Z) (s : Sys) : Z := made e s - total C e s - gone e s.

Section law.
Context `{R : Router} (C : Config) (e : Z).

Lemma lsum_fmap {A B} (f : B -> Z) (g : A -> B) l : lsum f (g <$> l) = lsum (fun a => f (g a)) l.
Proof. induction l as [|a l IH]; [done|]. rewrite fmap_cons, !lsum_cons, IH. done. Qed.

Lemma leaves_split n os :
  lsum (leaves e) os = lsum (fun p => w_msg e p.2) (sends n os) + lsum (fun _ => w_data e) (sends_data n os) + lsum (lost e) os.
Proof.
  induction os as [|o os IH]; [done|]. rewrite !lsum_cons, IH. unfold sends, sends_data.
  destruct o; csimpl; rewrite ?lsum_cons; simpl; lia.
Qed.

Lemma on_node_law {A} n (op : M A) s a s' k : 0 <= n < num_nodes C -> on_node n op s = Ok (a, s') ->
  (forall b x os, op (nodes s n) = Ok (b, x, os) -> b = a -> holds e x = holds e (nodes s n) + net e os + k) ->
  law C e s' = law C e s - k.
Proof.
  intros Hn. unfold on_node. destruct (op (nodes s n)) as [[[b x] os]|] eqn:E; [|done]. intros [= <- <-] H.
  specialize (H _ _ _ eq_refl eq_refl). unfold law, made, gone, total, net in *. cbn [nodes wire data trace].
  rewrite !lsum_app, !lsum_fmap, (zsum_insert _ (fun _ y => holds e y)) by done.
  change (lsum (fun a => units e (n, a).2) os) with (lsum (units e) os).
  change (lsum (fun a => lost e (n, a).2) os) with (lsum (lost e) os).
  pose proof (leaves_split n os). lia.
Qed.

Lemma run1_law n op s s' k P : 0 <= n < num_nodes C -> bal e k op P -> run1 n op s = Ok s' -> law C e s' = law C e s - k.
Proof.
  intros Hn Hb. unfold run1. destruct (on_node n op s) as [[a s1]|] eqn:E; [|done]. intros [= <-].
  eapply on_node_law; [done|exact E|]. intros b x os E' _. by apply (Hb _ _ _ _ E').
Qed.

Lemma exec_law l s s' : label_ok C l -> sys_ok C (G := fun _ => True) (T := fun _ => True) s -> exec C l s = Ok s' -> law C e s' = law C e s.
Proof.
  intros Hl Hs. assert (forall n op (P : unit -> Prop), 0 <= n < num_nodes C -> bal e 0 op P -> run1 n op s = Ok s' -> law C e s' = law C e s) as H0.
  { intros n op P Hn Hb E. rewrite (run1_law _ _ _ _ _ _ Hn Hb E). lia. }
  destruct l as [k b|n k|k b|n k|n k|n|n k|n d m|n ep|n ep|n ep|n proxy]; simpl in *.
  - destruct (wire s !! k) as [[[d from] m]|] eqn:E; [|by intros [= <-]]. intros Hr.
    destruct (Forall_lookup_1 _ _ _ _ (so_wire C s Hs) E) as [Hd _].
    rewrite (run1_law _ _ _ _ _ _ Hd (bal_tryIncoming C e m from b) Hr). unfold law, total, made, gone. simpl.
    rewrite (lsum_take_out _ _ _ _ E). simpl. lia.
  - by eapply H0, bal_testActive.
  - destruct (data s !! k) as [[[d from] tag]|] eqn:E; [|by intros [= <-]].
    pose proof (Forall_lookup_1 _ _ _ _ (so_data C s Hs) E) as Hd. simpl in Hd.
    destruct (on_node d (tryProcessDataMsgRecv tag from b) s) as [[r s1]|] eqn:E1; [|done]. simpl. intros [= <-].
    assert (law C e s1 = law C e s - (if r then w_data e else 0)) as H1.
    { eapply on_node_law; [exact Hd|exact E1|]. intros b' x os E' ->. by eapply bal_tryData. }
    destruct r; simpl; [|rewrite H1; lia]. unfold on_node in E1.
    destruct (tryProcessDataMsgRecv tag from b (nodes s d)) as [[[r x] os]|]; [|done]. injection E1 as -> <-.
    unfold law, total, made, gone in *. simpl in *.
    rewrite (lsum_take_out _ _ k (d, from, tag)) by by apply lookup_app_l_Some. lia.
  - by eapply H0, bal_testData.
  - by eapply H0, bal_start_work.
  - by eapply H0, bal_finish_work.
  - by eapply H0, bal_PendingSend_release.
  - by eapply H0, bal_sendMsg.
  - by eapply H0, bal_pushEpoch.
  - by eapply H0, bal_popEpoch.
  - by eapply H0, bal_makeRunnableVoid.
  - by eapply H0, bal_regObjProxy.
Qed.

Lemma init_law : law C e init = 0.
Proof. unfold law, total, made, gone. simpl. rewrite zsum_0; [done|]. intros i _. unfold holds. simpl. done. Qed.

(** Labels that name nodes are allowed when every message and epoch is. *)
Lemma allowed_all l : label_ok C l -> allowed C (G := fun _ => True) (T := fun _ => True) l.
Proof. intros H. split; [done|]. by destruct l. Qed.

Lemma run_law ls s s' : Forall (label_ok C) ls -> sys_ok C (G := fun _ => True) (T := fun _ => True) s -> run C ls s = Ok s' -> law C e s' = law C e s.
Proof.
  intros Hl. revert s. induction Hl as [|l ls Hl _ IH]; intros s Hs; simpl; [by intros [= <-]|].
  intros (s1 & E1 & E2)%bind_Ok_inv. destruct (exec_ok C _ _ _ (allowed_fits C s l _ (allowed_all _ Hl) Hs) Hs E1) as [H1 _].
  rewrite (IH s1 H1 E2). by eapply exec_law.
Qed.

End law.
End MLaw.
