(* ===== verification/MessengerSpec.v ===== *)
(** * What the units of messages promise

    The theorems of the active messenger, for all nodes together: units are conserved and
    none is lost if broadcasts deliver; an epoch whose units have all been consumed is over;
    work runs in the epoch it was sent in. With two runs in which units are never consumed. *)

From stdpp Require Import gmap.
From S2P Require Import Prelude.
From S2P Require Import Sums.
From S2P Require Import Effects.
From S2P Require Import Ids.
From S2P Require Import Epoch.
From S2P Require Import Tree.
From S2P Require Import Group.
From S2P Require Import GroupSystem.
From S2P Require Import GroupSpec.
From S2P Require Import GroupDefault.
From S2P Require Import GroupDefaultFacts.
From S2P Require Import Messenger.
From S2P Require Import MessengerSystem.
From S2P Require Import MessengerInvariant.
Import EpochManip.
Import Messenger.

Create HintDb weights.

Module MessengerSpec.
Import MSystem MBalance MOps MInv MLaw.

(** ** Instances of the invariant *)

(** Messages marked as the termination detector's (its own, acknowledgments, those of system
    barriers) are for active handlers, not for objects of a group; they may carry an epoch. *)
Definition term_active (m : Msg) : Prop := is_term m = true -> obj_ m = None.

#[export] Instance term_active_pred : MsgPred term_active (fun _ => True).
Proof. split; unfold term_active; try done. intros m m' (_ & _ & E3 & E4 & _) _. by rewrite E3, E4. Qed.
#[export] Instance term_active_sets : SetsEpoch term_active (fun _ => True).
Proof. intros m ep H _ _ _. exact H. Qed.

(** Messages that are not puts. *)
Definition plain (m : Msg) : Prop := is_put m = false.

#[export] Instance plain_pred : MsgPred plain (fun _ => True).
Proof. split; unfold plain; try done. intros m m' _ H. destruct (is_put m'); [|done]. by rewrite H. Qed.

#[export] Instance plain_sets : SetsEpoch plain (fun _ => True).
Proof. intros m ep H _ _ _. exact H. Qed.

(** Messages that neither have a unit of the epoch [e] nor are run in it: those of other
    epochs, and the termination detector's. *)
Definition quiet (e : Z) (m : Msg) : Prop := if is_term m then obj_ m = None else msg_epoch m <> e.

Lemma quiet_pred e : e <> any_epoch_sentinel -> e <> no_epoch -> MsgPred (quiet e) (fun ep => ep <> e).
Proof.
  intros Ha Hn. split; unfold quiet; try done.
  - intros m. destruct (is_term m); [|done]. by intros Ho [?|?].
  - intros m m' (E1 & E2 & E3 & E4 & _) _. unfold msg_epoch. by rewrite E1, E2, E3, E4.
Qed.

#[export] Instance quiet_sets e : SetsEpoch (quiet e) (fun ep => ep <> e).
Proof. intros m ep Hq Hep _ Ht. unfold quiet, msg_epoch in *. simpl. destruct (is_term m); [done|]. by rewrite Ht. Qed.

(** The message [i], if it is of the epoch [ep]. *)
Definition tracked (i ep : Z) (m : Msg) : Prop := msg_id m = i -> is_epoch_type m = true /\ is_term m = false /\ epoch_ m = ep.

#[export] Instance tracked_pred i ep : MsgPred (tracked i ep) (fun _ => True).
Proof. split; unfold tracked; try done. intros m m' (E1 & E2 & E3 & E4 & E5) _. by rewrite E1, E2, E3, E5. Qed.

Section spec.
Context `{R : Router} (C : Config).

Abbreviation okay G T := (allowed C (G := G) (T := T)).

(** ** Nothing is negative *)

Lemma counts_range e ep : 0 <= counts e ep <= 1.
Proof. apply b2z_range. Qed.

Lemma w_msg_nonneg e m : 0 <= w_msg e m.
Proof. unfold w_msg. destruct (is_term m); [done|apply counts_range]. Qed.
Lemma w_data_nonneg e : 0 <= w_data e.
Proof. apply counts_range. Qed.
Lemma w_ep_nonneg e ep : 0 <= w_ep e ep.
Proof. unfold w_ep. destruct (_ =? _); [done|apply counts_range]. Qed.
Lemma w_td_nonneg e td : 0 <= w_td e td.
Proof. destruct td; simpl; [apply counts_range|done]. Qed.
Lemma w_work_nonneg e w : 0 <= w_work e w.
Proof. destruct w; simpl; [apply w_td_nonneg|]. pose proof (w_msg_nonneg e m). pose proof (w_data_nonneg e). lia. Qed.
Lemma w_obj_nonneg e p : 0 <= w_obj e p.
Proof. unfold w_obj. destruct (is_epoch_type _); [apply w_ep_nonneg|done]. Qed.

#[local] Hint Resolve w_msg_nonneg w_data_nonneg w_ep_nonneg w_td_nonneg w_work_nonneg w_obj_nonneg : weights.

Lemma lsum_nonneg_all {A} (f : A -> Z) l : (forall a, 0 <= f a) -> 0 <= lsum f l.
Proof. intros H. apply lsum_nonneg. auto. Qed.

Lemma lsum_zero {A} (f : A -> Z) l : (forall a, 0 <= f a) -> lsum f l = 0 -> Forall (fun a => f a = 0) l.
Proof.
  intros H. induction l as [|a l IH]; [constructor|]. rewrite lsum_cons. pose proof (H a). pose proof (lsum_nonneg_all f l H). intros E.
  constructor; [lia|]. apply IH. lia.
Qed.

Lemma msum_zero {A} (f : A -> Z) (m : gmap Z A) : (forall a, 0 <= f a) -> msum f m = 0 -> map_Forall (fun _ a => f a = 0) m.
Proof.
  intros H E k a Hk. pose proof (msum_delete f m k) as Hd. rewrite Hk in Hd. simpl in Hd.
  pose proof (msum_nonneg f (delete k m) H). pose proof (H a). lia.
Qed.

Lemma holds_parts e n :
  0 <= lsum (w_work e) (work_ n) /\ 0 <= lsum (w_td e) (running_ n) /\ 0 <= lsum (w_held e) (held_ n) /\
  0 <= lsum (fun p => w_msg e p.1) (in_progress_active_msg_irecv n) /\ 0 <= msum (fun p => w_msg e p.1) (pending_recvs_ n) /\
  0 <= lsum (fun p => w_msg e p.1 + w_data e) (in_progress_data_irecv n) /\ 0 <= lsum (w_obj e) (obj_pending_ n).
Proof.
  split_and!; [apply lsum_nonneg_all..|apply msum_nonneg|apply lsum_nonneg_all|apply lsum_nonneg_all]; unfold w_held; auto with weights.
  intros a. pose proof (w_msg_nonneg e a.1). pose proof (w_data_nonneg e). lia.
Qed.

Lemma holds_nonneg e n : 0 <= holds e n.
Proof. unfold holds. pose proof (holds_parts e n). lia. Qed.

Lemma total_parts e s :
  (forall n, 0 <= holds e (nodes s n)) /\ 0 <= lsum (fun p => w_msg e p.2) (wire s) /\ 0 <= lsum (fun _ => w_data e) (data s).
Proof. split_and!; [intros n; apply holds_nonneg|apply lsum_nonneg_all; auto with weights..]. Qed.

Lemma total_nonneg e s : 0 <= total C e s.
Proof.
  unfold total. destruct (total_parts e s) as (H1 & H2 & H3). pose proof (zsum_nonneg (num_nodes C) (fun n => holds e (nodes s n)) (fun n _ => H1 n)). lia.
Qed.

Lemma gone_nonneg e s : 0 <= gone e s.
Proof. apply lsum_nonneg_all. intros [n o]. destruct o; simpl; auto with weights; done. Qed.

(** ** A sum of zero *)

Lemma counts_self e : counts e e = 1 \/ e = no_epoch.
Proof. unfold counts, norm. destruct (Z.eqb_spec e no_epoch); [by right|left]. by rewrite Z.eqb_refl, orb_true_r. Qed.

Section quiet.
Context (e : Z) (Hany : e <> any_epoch_sentinel) (Hno : e <> no_epoch).

Lemma counts_0 ep : counts e ep = 0 -> ep <> e.
Proof. intros H ->. destruct (counts_self e); [lia|done]. Qed.

Lemma quiet_msg m : term_active m -> w_msg e m = 0 -> quiet e m.
Proof. unfold w_msg, quiet, term_active. intros Hs. destruct (is_term m); [auto|apply counts_0]. Qed.

Lemma quiet_ep ep : w_ep e ep = 0 -> ep <> e.
Proof. unfold w_ep. destruct (Z.eqb_spec ep no_epoch) as [->|]; [congruence|apply counts_0]. Qed.

Lemma quiet_run m td : runs_in m td -> td <> Some e -> term_active m -> quiet e m.
Proof.
  unfold runs_in, run_epoch, extractEpochMsg, quiet, norm, term_active. intros [->|[-> _]] Htd Ht; [|auto].
  destruct (is_term m); simpl in *; [auto|]. intros E. apply Htd. rewrite E. destruct (Z.eqb_spec e no_epoch); [done|].
  by destruct (Z.eqb_spec e no_epoch).
Qed.

Lemma quiet_work w : MInv.work_ok (G := term_active) (T := fun _ => True) w -> w_work e w = 0 -> MInv.work_ok (G := quiet e) (T := fun ep => ep <> e) w.
Proof.
  destruct w as [td m|m sender]; simpl.
  - intros [_ Hm] H. assert (td <> Some e) as Htd by (intros ->; by apply (counts_0 e)). split; [destruct td; [|done]; intros ->; done|].
    destruct m as [m|]; [|done]. destruct Hm as [Hm Hr]. split; [|done]. by eapply quiet_run.
  - intros Hs H. pose proof (w_msg_nonneg e m). pose proof (w_data_nonneg e). apply quiet_msg; [done|lia].
Qed.

Lemma quiet_held h : held_ok (G := term_active) h -> w_held e h = 0 -> held_ok (G := quiet e) h.
Proof.
  intros [Hs He] H. split; [|done]. unfold w_held in H. rewrite He in H. apply quiet_ep in H. revert H Hs.
  unfold getProduceEpochFromMsg, quiet, term_active, msg_epoch. destruct (is_term (h_msg h)); simpl; [auto|].
  destruct (is_epoch_type (h_msg h)); simpl; congruence.
Qed.

Lemma quiet_obj p : term_active p.2 /\ obj_ p.2 <> None -> w_obj e p = 0 -> quiet e p.2 /\ obj_ p.2 <> None.
Proof.
  intros [Ht Ho]. unfold w_obj, quiet, msg_epoch. intros H. split; [|done]. destruct (is_term p.2) eqn:E; [by destruct (Ho (Ht E))|].
  destruct (is_epoch_type p.2); [by apply quiet_ep|congruence].
Qed.

Lemma Forall_and_impl {A} (P Q S : A -> Prop) l : (forall a, P a -> Q a -> S a) -> Forall P l -> Forall Q l -> Forall S l.
Proof. intros H HP. induction HP; intros HQ; [constructor|]. apply Forall_cons in HQ as [? ?]. constructor; auto. Qed.

Lemma node_turns_quiet n : node_ok (G := term_active) (T := fun _ => True) n -> holds e n = 0 -> e ∉ epoch_stack_ n ->
  node_ok (G := quiet e) (T := fun ep => ep <> e) n.
Proof.
  intros [? Hw Hr Hh Hi Hp Hd Ho] E Hst. pose proof (holds_parts e n) as (P1 & P2 & P3 & P4 & P5 & P6 & P7). unfold holds in E.
  split.
  - apply Forall_forall. intros ep Hep ->. done.
  - apply (Forall_and_impl _ _ _ _ quiet_work Hw). apply lsum_zero; [auto with weights|lia].
  - apply (Forall_impl (fun td => w_td e td = 0)); [apply lsum_zero; [auto with weights|lia]|]. intros [ep|]; simpl; [apply counts_0|done].
  - apply (Forall_and_impl _ _ _ _ quiet_held Hh). apply lsum_zero; [unfold w_held; auto with weights|lia].
  - apply (Forall_and_impl _ _ _ _ (fun p => quiet_msg p.1) Hi). apply (lsum_zero (fun p => w_msg e p.1)); [auto with weights|lia].
  - intros k p Hk. apply quiet_msg; [by apply (Hp k)|]. apply (msum_zero (fun p => w_msg e p.1) (pending_recvs_ n)) with k; [auto with weights|lia|done].
  - assert (forall p : Msg * Z, 0 <= w_msg e p.1 + w_data e) as Hnn by (intros p; pose proof (w_msg_nonneg e p.1); pose proof (w_data_nonneg e); lia).
    refine (Forall_and_impl _ _ _ _ _ Hd (lsum_zero _ _ Hnn _)); [|lia]. intros p H1 H2. apply quiet_msg; [done|].
    pose proof (w_msg_nonneg e p.1). pose proof (w_data_nonneg e). lia.
  - apply (Forall_and_impl _ _ _ _ quiet_obj Ho). apply lsum_zero; [auto with weights|lia].
Qed.

Lemma quiet_sys s : sys_ok C (G := term_active) (T := fun _ => True) s -> total C e s = 0 ->
  (forall n, 0 <= n < num_nodes C -> e ∉ epoch_stack_ (nodes s n)) ->
  sys_ok C (G := quiet e) (T := fun ep => ep <> e) s.
Proof.
  intros [Hn Hw Hd] E Hst. destruct (total_parts e s) as (H1 & H2 & H3). unfold total in E.
  pose proof (zsum_nonneg (num_nodes C) (fun n => holds e (nodes s n)) (fun n _ => H1 n)) as Hz.
  split; [|clear Hn|done].
  - intros n Hin. apply node_turns_quiet; [by apply Hn| |by apply Hst].
    assert (holds e (nodes s n) <= zsum (num_nodes C) (fun n => holds e (nodes s n))) by (by apply (zsum_elem_le (num_nodes C) (fun n => holds e (nodes s n)))).
    specialize (H1 n). lia.
  - apply (Forall_and_impl _ (fun p => w_msg e p.2 = 0) _ _ (fun p Hp Hm => conj (proj1 Hp) (quiet_msg p.2 (proj2 Hp) Hm)) Hw).
    apply (lsum_zero (fun p => w_msg e p.2)); [auto with weights|lia].
Qed.

End quiet.

(** ** The theorems *)

Lemma conserved e ls s : Forall (label_ok C) ls -> run C ls init = Ok s -> made e s = total C e s + gone e s.
Proof.
  intros Hl E. pose proof (run_law C e ls init s Hl (init_ok C) E) as H. rewrite init_law in H. unfold law in H. lia.
Qed.

(** C5: in every run of the nodes, whatever handlers do and in whatever order messages,
    data and work are taken up: for each epoch, the units produced less those consumed are
    the units that are held on the nodes, by messages and data in flight, and by messages
    that were not delivered where they were received or whose data is not waited for; so no
    epoch ever has more units consumed than produced. *)
Theorem units_conserved e ls s :
  Forall (label_ok C) ls -> run C ls init = Ok s ->
  made e s = total C e s + gone e s /\ 0 <= total C e s /\ 0 <= gone e s.
Proof. intros Hl E. split_and!; [by eapply conserved|apply total_nonneg|apply gone_nonneg]. Qed.

(** C6: once as many units of an epoch have been consumed as produced and no node is in the
    epoch, no work, no message and no data of the epoch is anywhere, except messages of the
    termination detector (which may carry the epoch, but hold no unit and are not run in it);
    and from then on no unit of it is produced or consumed and no other message of it is
    sent, unless the user's code names the epoch anew. Messages marked as the termination
    detector's are not to be sent to objects of a group: nothing in vt does so. *)
Theorem quiescence_is_final e ls s ls' s' :
  e <> any_epoch_sentinel -> e <> no_epoch ->
  Forall (okay term_active (fun _ => True)) ls -> run C ls init = Ok s ->
  made e s = 0 -> (forall n, 0 <= n < num_nodes C -> e ∉ epoch_stack_ (nodes s n)) ->
  Forall (okay (quiet e) (fun ep => ep <> e)) ls' -> run C ls' s = Ok s' ->
  sys_ok C (G := quiet e) (T := fun ep => ep <> e) s' /\
  exists os, trace s' = trace s ++ os /\ forall n o, (n, o) ∈ os ->
    match o with Produce ep _ _ | Consume ep _ _ => ep <> e | SendMsg _ m => is_term m = false -> msg_epoch m <> e | _ => True end.
Proof.
  intros Ha Hn Hl E Hm Hst Hl' E'.
  assert (Forall (label_ok C) ls) as Hlab by (eapply Forall_impl; [exact Hl|]; by intros l [? _]).
  pose proof (conserved e ls s Hlab E) as Hc. pose proof (total_nonneg e s). pose proof (gone_nonneg e s).
  destruct (run_ok C _ _ _ (allowed_run C _ _ _ Hl (init_ok C)) (init_ok C) E) as [Hs _].
  assert (sys_ok C (G := quiet e) (T := fun ep => ep <> e) s) as Hq by (apply quiet_sys; [done..|lia|done]).
  pose proof (quiet_pred e Ha Hn) as HP. destruct (run_ok C (HP := HP) _ _ _ (allowed_run C (HP := HP) _ _ _ Hl' Hq) Hq E') as (Hs' & os & Ht & Ho).
  split; [done|]. exists os. split; [done|]. intros n o Hin. rewrite Forall_forall in Ho. specialize (Ho _ Hin).
  destruct o; try done. intros Hterm. destruct Ho as [_ Hq']. unfold quiet in Hq'. cbn [snd] in Hq'. by rewrite Hterm in Hq'.
Qed.

(** Every message received is delivered. *)
Definition delivers : Prop := forall n m from, (route n m from false).2 = true.

(** C7: if broadcasts are delivered wherever they are received and no message is a put, then
    the units of every epoch that are not yet consumed are exactly those of work, messages
    and data still to be handled: they sum to zero as soon as none is left. *)
Theorem nothing_lost e ls s :
  delivers -> Forall (okay plain (fun _ => True)) ls -> run C ls init = Ok s -> made e s = total C e s.
Proof.
  intros Hd Hl E. assert (Forall (label_ok C) ls) as Hlab by (eapply Forall_impl; [exact Hl|]; by intros l [? _]).
  rewrite (conserved e ls s Hlab E). destruct (run_ok C _ _ _ (allowed_run C _ _ _ Hl (init_ok C)) (init_ok C) E) as (_ & os & Ht & Ho). unfold gone. rewrite Ht.
  rewrite lsum_0; [lia|]. intros [n o] Hin. rewrite Forall_forall in Ho. specialize (Ho _ Hin). destruct o; simpl in *; try done.
  - destruct Ho as (n' & m' & from & Hr). by rewrite Hd in Hr.
  - destruct Ho as [Hp Hp']. unfold plain in Hp. congruence.
Qed.

(** *** Work runs in the epoch it was sent in *)

(** In an epoch that is not the global one. *)
Definition proper (ep : Z) : Prop := ep <> no_epoch /\ ep <> any_epoch_sentinel.

Lemma proper_eqb ep : proper ep -> (ep =? no_epoch) = false /\ (ep =? any_epoch_sentinel) = false.
Proof. intros [? ?]. by rewrite !Z.eqb_neq. Qed.

(** Whenever the run sends a message [i], it is sent in the epoch [ep]: the message, which
    can carry an epoch and is not a termination message, names the epoch, or names none and
    the sending node is in the epoch. *)
Definition sends_in (i ep : Z) (s : Sys) (l : label) : Prop :=
  match l with
  | LSend n _ m => msg_id m = i -> is_epoch_type m = true /\ is_term m = false /\
      (epoch_ m = ep \/ (epoch_ m = no_epoch /\ list.head (epoch_stack_ (nodes s n)) = Some ep))
  | _ => True
  end.
Fixpoint sent_in (i ep : Z) (ls : list label) (s : Sys) : Prop :=
  match ls with [] => True | l :: ls => sends_in i ep s l /\ forall s', exec C l s = Ok s' -> sent_in i ep ls s' end.

(** A copy of the message [i] is in flight, or on a node and not yet run. *)
Definition on_its_way (i : Z) (s : Sys) : Prop :=
  (exists p, p ∈ wire s /\ msg_id p.2 = i) \/ exists n m, 0 <= n < num_nodes C /\ m ∈ msgs_of (nodes s n) /\ msg_id m = i.

Section tracked.
Context (i ep : Z) (Hep : proper ep).

Abbreviation node_ok_i := (node_ok (G := tracked i ep) (T := fun _ => True)).

Lemma sends_tracked s n d m : sends_in i ep s (LSend n d m) -> sends_good (G := tracked i ep) (nodes s n) m.
Proof.
  intros H d' m' n' os E Hid. destruct (setupEpochMsg_spec _ _ _ _ _ E) as (_ & _ & Hm').
  assert (msg_id m = i) as Hi by (destruct Hm' as [->|(? & ? & _ & _ & _ & ->)]; done). destruct (H Hi) as (Ht & Hterm & He).
  destruct Hep as [Hno Hany]. destruct Hm' as [->|(c & rest & _ & Hn & Hst & ->)]; split_and!; try done.
  - destruct He as [He|[He Hh]]; [done|]. exfalso. revert E.
    destruct (epoch_stack_ (nodes s n)) as [|c rest] eqn:Es; [done|]. injection Hh as ->.
    unfold setupEpochMsg, getEpochContextMsg. simpl. rewrite Ht, He. simpl. unfold getEpoch.
    intros (x & n1 & o1 & o2 & (ctx & n2 & o3 & o4 & E1 & E2 & ->)%eff_bind_inv & E3 & ->)%eff_bind_inv.
    rewrite run_get, Es in E1. injection E1 as <- <- <-. unfold assert_, vtAssert in E2. destruct (negb _); [|done]. injection E2 as <- <- <-.
    destruct (Z.eqb_spec ep any_epoch_sentinel); [done|]. apply (f_equal (fun r => match r with Ok (x, _, _) => epoch_ x | Stop _ => 0 end)) in E3. simpl in E3. congruence.
  - simpl in *. destruct He as [He|[_ Hh]]; [congruence|]. rewrite Hst in Hh. by injection Hh.
Qed.

Lemma sent_fits ls s : Forall (label_ok C) ls -> sent_in i ep ls s -> fits_run C (G := tracked i ep) (T := fun _ => True) ls s.
Proof.
  intros Hl. revert s. induction Hl as [|l ls Hl _ IH]; intros s; simpl; [done|]. intros [H1 H2]. split; [|intros s' E; by apply IH, H2].
  split; [done|]. destruct l; try done. by eapply sends_tracked.
Qed.

Lemma counts_self_ep : counts ep ep = 1.
Proof. destruct (counts_self ep) as [?|E]; [done|]. by destruct Hep. Qed.

Lemma tracked_w m : tracked i ep m -> msg_id m = i -> w_msg ep m = 1.
Proof. intros H Hi. destruct (H Hi) as (Ht & Hm & He). unfold w_msg, msg_epoch. rewrite Hm, Ht, He. apply counts_self_ep. Qed.

(** The unit of a message in a runnable. *)
Lemma tracked_td m td : tracked i ep m -> msg_id m = i -> runs_in m td -> td = Some ep.
Proof.
  intros H Hi Hr. destruct (H Hi) as (Ht & Hm & He). destruct Hr as [->|[Hr _]]; [|congruence].
  unfold run_epoch, extractEpochMsg, norm, msg_epoch. rewrite Hm, Ht, He. simpl. destruct (proper_eqb ep Hep) as [E _]. by rewrite !E.
Qed.

Lemma tracked_ep m : tracked i ep m -> msg_id m = i -> w_ep ep (epoch_ m) = 1 /\ getProduceEpochFromMsg m = epoch_ m.
Proof.
  intros H Hi. destruct (H Hi) as (Ht & Hm & He). unfold w_ep, getProduceEpochFromMsg. rewrite Hm, Ht, He. simpl.
  destruct (proper_eqb ep Hep) as [E _]. rewrite E. split; [apply counts_self_ep|done].
Qed.

Lemma lsum_one_le {A} (f : A -> Z) l a : (forall a, 0 <= f a) -> a ∈ l -> 1 <= f a -> 1 <= lsum f l.
Proof. intros H Ha H1. pose proof (lsum_elem_le f l a (fun b _ => H b) Ha). lia. Qed.

Lemma msgs_of_holds n m : node_ok_i n -> m ∈ msgs_of n -> msg_id m = i -> 1 <= holds ep n.
Proof.
  intros Hn Hm Hi. pose proof (holds_parts ep n) as (P1 & P2 & P3 & P4 & P5 & P6 & P7). unfold holds.
  unfold msgs_of in Hm. rewrite !elem_of_app, !list_elem_of_fmap, list_elem_of_omap in Hm.
  destruct Hm as [(w & Hw & Em)|[(h & -> & Hh)|[(p & -> & Hp)|[(p & -> & Hp)|[(p & -> & Hp)|(p & -> & Hp)]]]]].
  - assert (1 <= lsum (w_work ep) (work_ n)); [|lia]. apply (lsum_one_le _ _ w); [auto with weights|done|].
    pose proof (no_work n Hn) as HF. rewrite Forall_forall in HF. specialize (HF w Hw). destruct w as [td [m'|]|m' from]; try done; injection Em as ->; simpl in *.
    + destruct HF as (_ & Hg & Hr). rewrite (tracked_td m td Hg Hi Hr). simpl. by rewrite counts_self_ep.
    + rewrite (tracked_w m HF Hi). pose proof (w_data_nonneg ep). lia.
  - assert (1 <= lsum (w_held ep) (held_ n)); [|lia]. apply (lsum_one_le _ _ h); [unfold w_held; auto with weights|done|].
    pose proof (no_held n Hn) as HF. rewrite Forall_forall in HF. destruct (HF h Hh) as [Hg He]. unfold w_held.
    destruct (tracked_ep _ Hg Hi) as [H1 H2]. rewrite He, H2. lia.
  - assert (1 <= lsum (fun p => w_msg ep p.1) (in_progress_active_msg_irecv n)); [|lia]. apply (lsum_one_le _ _ p); [auto with weights|done|].
    pose proof (no_irecvs n Hn) as HF. rewrite Forall_forall in HF. by rewrite (tracked_w _ (HF p Hp) Hi).
  - assert (1 <= msum (fun p => w_msg ep p.1) (pending_recvs_ n)); [|lia]. apply (lsum_one_le _ _ p); [auto with weights|done|].
    destruct p as [t p]. apply elem_of_map_to_list in Hp. simpl. by rewrite (tracked_w _ (no_pending n Hn _ _ Hp) Hi).
  - assert (1 <= lsum (fun p => w_msg ep p.1 + w_data ep) (in_progress_data_irecv n)); [|lia]. pose proof (w_data_nonneg ep).
    apply (lsum_one_le _ _ p); [intros a; pose proof (w_msg_nonneg ep a.1); lia|done|].
    pose proof (no_data n Hn) as HF. rewrite Forall_forall in HF. rewrite (tracked_w _ (HF p Hp) Hi). lia.
  - assert (1 <= lsum (w_obj ep) (obj_pending_ n)); [|lia]. apply (lsum_one_le _ _ p); [auto with weights|done|].
    pose proof (no_objs n Hn) as HF. rewrite Forall_forall in HF. destruct (HF p Hp) as [Hg _]. unfold w_obj.
    destruct (Hg Hi) as (-> & _). destruct (tracked_ep _ Hg Hi) as [-> _]. done.
Qed.

Lemma on_its_way_total s : sys_ok C (G := tracked i ep) (T := fun _ => True) s -> on_its_way i s -> 1 <= total C ep s.
Proof.
  intros Hs Hw. destruct (total_parts ep s) as (H1 & H2 & H3). unfold total.
  pose proof (zsum_nonneg (num_nodes C) (fun n => holds ep (nodes s n)) (fun n _ => H1 n)) as Hz. destruct Hw as [(p & Hp & Hi)|(n & m & Hn & Hm & Hi)].
  - assert (1 <= lsum (fun p => w_msg ep p.2) (wire s)); [|lia]. apply (lsum_one_le _ _ p); [auto with weights|done|].
    pose proof (so_wire C s Hs) as HF. rewrite Forall_forall in HF. destruct (HF p Hp) as [_ Hg]. by rewrite (tracked_w _ Hg Hi).
  - pose proof (msgs_of_holds _ m (so_nodes C s Hs n Hn) Hm Hi).
    assert (holds ep (nodes s n) <= zsum (num_nodes C) (fun n => holds ep (nodes s n))) by (by apply (zsum_elem_le (num_nodes C) (fun n => holds ep (nodes s n)))).
    lia.
Qed.

End tracked.

Lemma start_run n0 k ep m : work_ n0 !! k = Some (WRun (Some ep) m) -> (ep =? no_epoch) = false ->
  start_work C k n0 = Ok (tt, with_running (Some ep :: running_ n0) (with_stack (ep :: epoch_stack_ n0) (with_work (take_out k (work_ n0)) n0)), []).
Proof. intros Hk He. unfold start_work, TD_start, pushEpoch. rewrite run_get, Hk. unfold assert_, vtAssert. rewrite He. done. Qed.

(** C8: in every run in which the message [i], of a type that carries an epoch and not marked
    as a termination message, is only sent in the epoch [ep], that is, it names the epoch or
    its sender is in it: whether it goes to one node, the sender itself, an object or is
    broadcast, with or without a put, and whatever happens in between, each
    copy that is delivered runs in [ep], which its runnable puts on the epoch stack when it
    starts; and from the send until it starts more units of [ep] are produced than
    consumed. *)
Theorem work_in_epoch i ep ls s :
  proper ep -> Forall (label_ok C) ls -> sent_in i ep ls init -> run C ls init = Ok s ->
  (forall n k td m, 0 <= n < num_nodes C -> work_ (nodes s n) !! k = Some (WRun td (Some m)) -> msg_id m = i ->
     td = Some ep /\ exists s', exec C (LStart n k) s = Ok s' /\
       epoch_stack_ (nodes s' n) = ep :: epoch_stack_ (nodes s n) /\ running_ (nodes s' n) = Some ep :: running_ (nodes s n)) /\
  (on_its_way i s -> 1 <= made ep s).
Proof.
  intros Hep Hl Hsent E. destruct (run_ok C _ _ _ (sent_fits i ep Hep ls init Hl Hsent) (init_ok C) E) as [Hs _]. split.
  - intros n k td m Hn Hk Hi. pose proof (Forall_lookup_1 _ _ _ _ (no_work _ (so_nodes C s Hs n Hn)) Hk) as (_ & Hg & Hr).
    assert (td = Some ep) as -> by by apply (tracked_td i ep Hep m). split; [done|].
    eexists. split.
    + cbn [exec]. unfold run1, on_node. rewrite (start_run _ _ _ _ Hk); [done|]. by apply Z.eqb_neq, Hep.
    + cbn [nodes snd]. by rewrite fn_lookup_insert.
  - intros Hw. rewrite (conserved ep ls s Hl E). pose proof (on_its_way_total i ep Hep s Hs Hw). pose proof (gone_nonneg ep s). lia.
Qed.

(** *** The way of one message *)

(** A message for a handler on another node, as [makeMessage] leaves it. *)
Record fresh (m : Msg) : Prop := MkFresh {
  fr_type : is_epoch_type m = true;
  fr_epoch : epoch_ m = no_epoch;
  fr_term : is_term m = false;
  fr_bcast : is_bcast m = false;
  fr_put : is_put m = false;
  fr_obj : obj_ m = None
}.

Lemma send_fresh n0 d m ep rest : fresh m -> epoch_stack_ n0 = ep :: rest -> proper ep -> 0 <= d ->
  let m' := with_epoch ep (with_dest d m) in
  sendMsgCopyableImpl d m n0 = Ok (tt, with_held (held_ n0 ++ [MkHeld m' ep]) n0, [Produce ep 1 uninitialized_destination]).
Proof.
  intros [Ht He Hm Hb Hp Ho] Hs [E1 E2]%proper_eqb Hd m'. subst m'.
  assert ((d =? broadcast_dest) = false) as E3 by (apply Z.eqb_neq; change broadcast_dest with (-1); lia).
  destruct m; simpl in *; subst. destruct n0; simpl in *; subst.
  unfold sendMsgCopyableImpl, setupEpochMsg, getEpochContextMsg, getEpoch, PendingSend_make, getProduceEpochFromMsg, assert_, vtAssert, get, modify, emit, lift, nop,
    mret, eff_ret, mbind, eff_bind. rewrite E3. simpl. rewrite E1. simpl. rewrite E2. simpl. rewrite E1. done.
Qed.

Lemma sendPlain d m : is_put m = false -> is_term m = false -> valid_dest C d = true ->
  forall n0, sendMsgBytesWithPut C d m n0 = Ok (m, n0, [SendMsg d m; Produce (msg_epoch m) 1 d]).
Proof.
  intros Hp Ht Hv n0. unfold sendMsgBytesWithPut, sendMsgBytes. rewrite Hp. cbn [andb]. rewrite run_ret, Hv, Ht. done.
Qed.

Lemma group_plain m from root : is_bcast m = false -> forall n0, groupHandler C m from root n0 = Ok ((m, true), n0, []).
Proof. intros Hb n0. unfold groupHandler. rewrite Hb. by destruct (is_pipe m). Qed.

Lemma release_plain n0 k m ep : held_ n0 !! k = Some (MkHeld m ep) -> is_bcast m = false -> is_put m = false -> is_term m = false ->
  valid_dest C (dest_ m) = true -> dest_ m <> this_node n0 -> (ep =? no_epoch) = false ->
  PendingSend_release C k n0 = Ok (tt, with_held (take_out k (held_ n0)) n0,
    [SendMsg (dest_ m) m; Produce (msg_epoch m) 1 (dest_ m); Consume ep 1 uninitialized_destination]).
Proof.
  intros Hk Hb Hp Ht Hv Hd He. unfold PendingSend_release. rewrite run_get, Hk. cbn [h_msg epoch_produced_].
  assert (doMessageSend C m n0 = Ok (tt, n0, [SendMsg (dest_ m) m; Produce (msg_epoch m) 1 (dest_ m)])) as Hs.
  { unfold doMessageSend. rewrite run_get. erewrite run_step by by apply group_plain. cbn [fst snd].
    assert ((dest_ m =? this_node n0) = false) as -> by by apply Z.eqb_neq. cbn [negb]. erewrite run_step by by apply sendPlain. done. }
  erewrite run_step by exact Hs. rewrite He. done.
Qed.

Lemma incoming_plain n0 m from : is_bcast m = false -> is_put m = false -> is_term m = false -> obj_ m = None -> is_epoch_type m = true ->
  (epoch_ m =? no_epoch) = false ->
  tryProcessIncomingActiveMsg C m from true n0 = Ok (tt, with_work (work_ n0 ++ [WRun (Some (epoch_ m)) (Some m)]) n0,
    [Produce (epoch_ m) 1 uninitialized_destination; Consume (epoch_ m) 1 from]).
Proof.
  intros Hb Hp Ht Ho Hty He. unfold tryProcessIncomingActiveMsg, finishPendingActiveMsgAsyncRecv. rewrite Hp. cbn [andb]. unfold processActiveMsg.
  erewrite run_step by by apply group_plain. cbn [fst snd]. unfold prepareActiveMsgToRun, makeRunnable_enqueue, extractEpochMsg, TD_make, msg_epoch.
  rewrite Ho, Ht, Hty. cbn [negb]. rewrite He. cbn iota. rewrite He. done.
Qed.

Lemma run1_eq n op s x os ws ds : op (nodes s n) = Ok (tt, x, os) -> sends n os = ws -> sends_data n os = ds ->
  run1 n op s = Ok (MkSys (<[n := x]> (nodes s)) (wire s ++ ws) (data s ++ ds) (trace s ++ (pair n <$> os))).
Proof. intros H <- <-. unfold run1, on_node. by rewrite H. Qed.

Lemma run_cons l ls s s1 r : exec C l s = Ok s1 -> run C ls s1 = r -> run C (l :: ls) s = r.
Proof. intros H1 H2. cbn [run]. by rewrite H1. Qed.

Lemma lookup_snoc {A} (l : list A) x : (l ++ [x]) !! length l = Some x.
Proof. by rewrite list_lookup_middle. Qed.

Lemma take_out_snoc {A} (l : list A) x : take_out (length l) (l ++ [x]) = l.
Proof. unfold take_out. rewrite take_app_length, drop_ge by (rewrite length_app; simpl; lia). apply app_nil_r. Qed.

(** The whole way of a message to another node, without interruption: its units overlap,
    from the send on until the receiving node has produced the one that is held until the
    work is done. *)
Lemma unicast_units n d m ep rest s :
  let m' := with_epoch ep (with_dest d m) in
  fresh m -> proper ep -> 0 <= d < num_nodes C -> n <> d -> this_node (nodes s n) = n -> epoch_stack_ (nodes s n) = ep :: rest ->
  exists s', run C [LSend n d m; LRelease n (length (held_ (nodes s n))); LRecv (length (wire s)) true;
      LStart d (length (work_ (nodes s d)))] s = Ok s' /\
    epoch_stack_ (nodes s' d) = ep :: epoch_stack_ (nodes s d) /\ running_ (nodes s' d) = Some ep :: running_ (nodes s d) /\
    wire s' = wire s /\
    trace s' = trace s ++ [(n, Produce ep 1 uninitialized_destination); (n, SendMsg d m'); (n, Produce ep 1 d);
      (n, Consume ep 1 uninitialized_destination); (d, Produce ep 1 uninitialized_destination); (d, Consume ep 1 n)].
Proof.
  intros m' Hf Hp Hd Hnd Hn Hs. pose proof (proper_eqb ep Hp) as [He Ha]. assert (valid_dest C d = true) as Hv.
  { unfold valid_dest. rewrite negb_true_iff, orb_false_iff, Z.leb_gt, Z.ltb_ge. lia. }
  destruct Hf as [Ht Hne Hm Hb Hpu Ho]. pose proof (MkFresh m Ht Hne Hm Hb Hpu Ho) as Hf. assert (is_epoch_type m' = true /\ epoch_ m' = ep /\ is_term m' = false /\ is_bcast m' = false /\ is_put m' = false
    /\ obj_ m' = None /\ dest_ m' = d /\ msg_epoch m' = ep) as (T1 & T2 & T3 & T4 & T5 & T6 & T7 & T8) by by (destruct m; simpl in *; subst).
  eexists. split.
  - eapply run_cons; [eapply run1_eq with (ws := []) (ds := []); [eapply send_fresh; [done..|lia]|done|done]|]. rewrite !app_nil_r.
    eapply run_cons.
    { eapply run1_eq with (ws := [(d, n, m')]) (ds := []); [cbn [nodes]; rewrite fn_lookup_insert; apply (release_plain _ _ m' ep)|done|done];
        [apply lookup_snoc|done..|by rewrite T7|cbn [this_node with_held]; congruence|done]. }
    rewrite T7, T8. cbn [nodes wire data trace]. rewrite !app_nil_r. eapply run_cons.
    { cbn [exec wire]. rewrite lookup_snoc, take_out_snoc. eapply run1_eq with (ws := []) (ds := []); [cbn [nodes with_wire]; rewrite !fn_lookup_insert_ne by done; apply incoming_plain; congruence|done|done]. }
    cbn [nodes with_wire wire data trace]. rewrite !app_nil_r. eapply run_cons; [|done].
    eapply run1_eq with (ws := []) (ds := []); [cbn [nodes]; rewrite fn_lookup_insert; apply (start_run _ _ ep (Some m'))|done|done];
      [cbn [work_ with_work]; rewrite T2; apply lookup_snoc|done].
  - cbn [nodes wire trace]. rewrite !fn_lookup_insert, T2, !app_nil_r. split_and!; try done.
    rewrite <- !app_assoc. done.
Qed.

End spec.
(** ** Routers *)

(** The default group's broadcasts: the group's tree of [N] nodes; [db] is what the envelope
    says about delivery on the sending node. *)
Definition default_dest (o : DefaultGroup.output) : option Z :=
  match o with DefaultGroup.SendBytes d _ => Some d | _ => None end.
Definition default_node (N n : Z) : DefaultGroup.DefaultGroup :=
  DefaultGroup.with_tree (Some (Tree.makeDefault n N)) (DefaultGroup.make n N).
Definition default_router (N : Z) (db : Msg -> bool) : Router := fun n m from root =>
  match DefaultGroup.groupHandler (DefaultGroup.MkBcast (dest_ m) (db m) (msg_id m)) from root (default_node N n) with
  | Ok (d, _, os) => (omap default_dest os, d)
  | Stop _ => ([], false)
  end.

(** The broadcasts to the group [G] of rooted groups in the state [gs]. *)
Definition group_dest (o : Group.output) : option Z := match o with Group.SendBytes d _ => Some d | _ => None end.
Definition group_router (gs : Z -> Group.GroupManager) (G : Z) : Router := fun n m from root =>
  match Group.groupHandler (Group.MkBcast G (dest_ m) (msg_id m)) from root (gs n) with
  | Ok (d, _, os) => (omap group_dest os, d)
  | Stop _ => ([], false)
  end.

(** Operations that only put something out. *)
Definition only_emits {S O} (op : Eff S O unit) : Prop := forall s, exists os, op s = Ok (tt, s, os).

Lemma only_emits_nop {S O} : only_emits (@nop S O).
Proof. intros s. by exists []. Qed.
Lemma only_emits_emit {S O} (o : O) : only_emits (@emit S O o).
Proof. intros s. by exists [o]. Qed.
Lemma only_emits_bind {S O} (op1 op2 : Eff S O unit) : only_emits op1 -> only_emits op2 -> only_emits (op1 ;; op2).
Proof. intros H1 H2 s. destruct (H1 s) as [o1 E1]. destruct (H2 s) as [o2 E2]. exists (o1 ++ o2). by eapply run_bind. Qed.
Lemma only_emits_if {S O} (b : bool) (op1 op2 : Eff S O unit) : only_emits op1 -> only_emits op2 -> only_emits (if b then op1 else op2).
Proof. by destruct b. Qed.
Lemma only_emits_each {S O A} (f : A -> Eff S O unit) l : (forall a, only_emits (f a)) -> only_emits (for_each l f).
Proof. intros H. induction l as [|a l IH]; [apply only_emits_nop|]. by apply only_emits_bind. Qed.

(** The default group delivers: with it nothing is lost. *)
Lemma default_delivers N db : delivers (R := default_router N db).
Proof.
  intros n m from. unfold route, default_router, DefaultGroup.groupHandler, DefaultGroup.broadcast.
  rewrite (DefaultFacts.run_tree _ _ (Tree.makeDefault n N)) by done. rewrite run_get. cbn zeta.
  match goal with |- context [(?op ≫= (fun _ => mret (negb false))) ?g] => assert (only_emits op) as H end.
  { repeat first [apply only_emits_if|apply only_emits_bind|apply only_emits_each; intros|apply only_emits_emit|apply only_emits_nop]. }
  destruct (H (default_node N n)) as [os E]. erewrite run_step by exact E. done.
Qed.

(** ** Runs *)

(** Node [n] makes a runnable for the epoch, which starts. *)
Definition enter (n ep : Z) : list label := [LMake n ep; LStart n 0].

Definition message (ep dest id : Z) (bcast put : bool) : Msg :=
  MkMsg true ep false bcast false dest None put false no_tag id.

(** Settings: [N] nodes; the data of puts does not fit in messages. *)
Definition settings (N : Z) : Config := MkConfig N (2 ^ 20) (fun _ => false).
Definition three : Config := settings 3.
Definition from3 (db : bool) : Router := default_router 3 (fun _ => db).

Definition final `{R : Router} (C : Config) (ls : list label) : Sys := match run C ls init with Ok s => s | Stop _ => init end.

Lemma final_ok `{R : Router} C ls : match run C ls init with Ok _ => True | Stop _ => False end -> run C ls init = Ok (final C ls).
Proof. unfold final. by destruct (run C ls init). Qed.

(** In the epoch 5, node 0 broadcasts a message; each node runs it, and at last node 0 ends
    the work it sent the message from. *)
Definition bcast5 : list label :=
  enter 0 5 ++ [LSend 0 broadcast_dest (message no_epoch 0 7 true false); LRelease 0 0;
    LRecv 0 true; LRecv 0 true; LFinish 0; LStart 1 0; LFinish 1; LStart 2 0].

Example bcast5_units :
  (made 5 (final (R := from3 false) three bcast5), made 5 (final (R := from3 false) three (bcast5 ++ [LFinish 2]))) = (1, 0).
Proof. vm_compute. reflexivity. Qed.

Lemma bcast5_ok : Forall (label_ok three) bcast5.
Proof. repeat constructor; simpl; lia. Qed.

Lemma units_conserved_witness :
  let s := final (R := from3 false) three bcast5 in
  made 5 s = 1 /\ made 5 s = total three 5 s + gone 5 s.
Proof.
  intros s. split; [by vm_compute|].
  apply (units_conserved (R := from3 false) three 5 bcast5 s); [apply bcast5_ok|apply final_ok; by vm_compute].
Defined.

Lemma bcast5_allowed G T : G (message no_epoch 0 7 true false) -> T 5 ->
  Forall (allowed three (G := G) (T := T)) (bcast5 ++ [LFinish 2]).
Proof. intros HG HT. repeat constructor; simpl; lia || done. Qed.

(** Later another node sends a message of no particular epoch. *)
Definition later5 : list label := [LSend 1 2 (message no_epoch 0 8 false false); LRelease 1 0; LRecv 0 true; LStart 2 0; LFinish 2].

Lemma quiescence_is_final_witness :
  let s := final (R := from3 false) three (bcast5 ++ [LFinish 2]) in
  exists s', run (R := from3 false) three later5 s = Ok s' /\
    sys_ok three (G := quiet 5) (T := fun ep => ep <> 5) s'.
Proof.
  intros s. destruct (run (R := from3 false) three later5 s) as [s'|x] eqn:E; [|exfalso; revert E; by vm_compute]. exists s'. split; [done|].
  apply (quiescence_is_final (R := from3 false) three 5 (bcast5 ++ [LFinish 2]) s later5 s'); [done|done| | |by vm_compute| | |done].
  - by apply bcast5_allowed.
  - apply final_ok. by vm_compute.
  - intros n Hn. simpl in Hn. assert (n = 0 \/ n = 1 \/ n = 2) as [->|[->| ->]] by lia; apply (bool_decide_unpack _); by vm_compute.
  - repeat constructor; simpl; lia || done.
Defined.

Lemma nothing_lost_witness :
  let s := final (R := from3 false) three (bcast5 ++ [LFinish 2]) in
  made 5 s = 0 /\ made 5 s = total three 5 s.
Proof.
  intros s. split; [by vm_compute|].
  apply (nothing_lost (R := from3 false) three 5 (bcast5 ++ [LFinish 2]) s); [apply default_delivers|by apply bcast5_allowed|apply final_ok; by vm_compute].
Defined.

(** The broadcast has been received by node 1 and waits there; a copy is still on its way to
    node 2. *)
Definition half5 : list label :=
  enter 0 5 ++ [LSend 0 broadcast_dest (message no_epoch 0 7 true false); LRelease 0 0; LRecv 0 true; LFinish 0].

Lemma work_in_epoch_witness :
  let s := final (R := from3 false) three half5 in
  made 5 s = 2 /\ 1 <= made 5 s /\
  exists s', exec (R := from3 false) three (LStart 1 0) s = Ok s' /\ running_ (nodes s' 1) = [Some 5].
Proof.
  intros s. split; [by vm_compute|].
  destruct (work_in_epoch (R := from3 false) three 7 5 half5 s) as [H1 H2].
  - by split.
  - repeat constructor; simpl; lia.
  - repeat (split; [first [exact I | vm_compute; auto]|]; intros ? E; vm_compute in E; injection E as <-). exact I.
  - apply final_ok. by vm_compute.
  - destruct (H1 1 0%nat (Some 5) (with_epoch 5 (with_dest 0 (message no_epoch 0 7 true false)))) as (_ & s' & E & _ & Hr); [simpl; lia|by vm_compute|done|].
    split; [|exists s'; split; [exact E|rewrite Hr; by vm_compute]].
    apply H2. right. exists 1, (with_epoch 5 (with_dest 0 (message no_epoch 0 7 true false))). split; [simpl; lia|]. split; [vm_compute; left|done].
Defined.

(** *** A message that is passed on keeps its unit *)

(** Node 0 has made a group of the nodes 1 to 7 ([GroupSpec.run_new]). In the epoch 5, node
    7 broadcasts to it: the message goes to node 0, which passes it on and does not deliver
    it, and [processActiveMsg] then does not consume the unit the message came with. *)
Definition group8 : Router := group_router (GroupSystem.nodes (GroupSpec.run_final GroupSystem.init GroupSpec.run_new)) GroupSpec.run_group.
Definition group_bcast5 : list label :=
  enter 7 5 ++ [LSend 7 broadcast_dest (message no_epoch 0 7 true false); LRelease 7 0; LFinish 7] ++ repeat (LRecv 0 true) 8 ++
  concat ((fun n => [LStart n 0; LFinish n]) <$> seqZ 1 7).

(** All work is done and nothing is under way, and one unit more has been produced than
    consumed: the epoch does not end. *)
Lemma maker_outside_leaks :
  let s := final (R := group8) (settings 8) group_bcast5 in
  wire s = [] /\ data s = [] /\ total (settings 8) 5 s = 0 /\ made 5 s = 1 /\
  omap (fun p => match p.2 with AmForwarded _ => Some p.1 | _ => None end) (trace s) = [0].
Proof. intros s. split_and!; by vm_compute. Qed.

(** *** Two puts with one tag *)

(** Tags of puts are numbered by their senders: two nodes that each send node 0 their first
    put use the same tag. Both messages are received before the data. *)
Definition two_puts : list label :=
  enter 1 5 ++ enter 2 5 ++
  [LSend 1 0 (message no_epoch 0 1 false true); LRelease 1 0; LSend 2 0 (message no_epoch 0 2 false true); LRelease 2 0; LFinish 1; LFinish 2;
   LRecv 0 true; LRecv 0 true; LRecvData 0 true; LStart 0 0; LStart 0 0; LFinish 0].

(** The second message is dropped: its handler never runs, its data is never received, and
    the epoch keeps its unit. *)
Lemma second_put_lost :
  let s := final (R := from3 false) three two_puts in
  wire s = [] /\ data s = [(0, 2, starting_direct_buffer_tag)] /\ work_ (nodes s 0) = [] /\ pending_recvs_ (nodes s 0) = ∅ /\
  total three 5 s = 0 /\ made 5 s = 1 /\
  omap (fun p => match p.2 with RecvIgnored m => Some (msg_id m) | _ => None end) (trace s) = [2].
Proof. intros s. split_and!; by vm_compute. Qed.

End MessengerSpec.
